(* ===== verification/_CoqProject ===== *)
-Q . S2P
Prelude.v
GoBase.v
GoStrings.v
GoTime.v
GoHash.v
GoCodec.v
NetUrl.v
GoHttp.v
GoNet.v
Config.v
Redact.v
Model.v
Selector.v
Registry.v
Leases.v
Engine.v
MemFactory.v
Manager.v
JsonValue.v
Fetch.v
ParseNodes.v
Supply.v
Monitor.v
Notify.v
Admin.v
Inspect.v
Probe.v
Session.v
HttpProxy.v
Lifecycle.v
App.v
Gateway.v
FixedEgress.v
Witnesses.v
