(* ===== verification/Prelude.v ===== *)
(** * A dual egress gateway: verification library

    The program is a daemon that downloads proxy subscriptions, keeps a pool of proxy
    nodes built by sing-box, probes them, and serves two HTTP proxies (plain and for
    WebSockets) that route each client connection through one healthy node; a loopback
    admin server shows the state, and alerts go to a push service. This library models
    its Go code under src/internal and src/cmd/fixed-egress and proves what its parts
    promise each other. This file is the prelude: machine integers, sorted strings, the
    iteration order of Go maps, counting in lists.

    ** Parts, files and sources

    Configuration to start:
    - Config.v: config/config.go. [Load] is a pure function of the file's bytes and the
      environment; [config_ok] is what the rest of the program may assume.
    - Gateway.v: app/app.go, [New], [Run], [shutdown] and the two loops. [app_New] builds
      the other components from a configuration; [gw_run] is the running gateway as a
      sequence of loop turns and client events; [Run] is a trace of what is started,
      shut down and waited for.
    - FixedEgress.v: cmd/fixed-egress/main.go, the proxy through one fixed node.

    Subscriptions:
    - Model.v: subscription/model.go. Fetch.v: fetch.go, downloading with the redirect
      policy. ParseNodes.v: parse.go, every format over the dynamic values of
      JsonValue.v. Manager.v: manager.go and seed.go, the state kept per source and its
      merge. Supply.v: the manager over the parser, down to the engine.

    Pool and proxies:
    - Selector.v: pool/selector.go, the round-robin cursor with its tickets.
    - Registry.v: pool/registry.go, one definition per method, over the interface
      [Factory] with its laws [FactoryLaws]. Leases.v: the same under concurrent use.
      Every method holds its mutex for its whole body, so a concurrent execution is a
      sequence of the atomic events [PoolEvent].
    - Engine.v: proxycore/engine.go, the instance of [Factory] over sing-box, an
      interface [SingBox]. MemFactory.v: a small instance, to evaluate things on.
      Probe.v: proxycore/probe.go over an interface [ProbeNet].
    - Session.v: httpproxy/server.go, the dial loop of one connection between arbitrary
      foreign events. Lifecycle.v: its table of connections and [Shutdown]. HttpProxy.v:
      auth.go, connect.go and forward.go, the handlers and the headers.

    State to the outside:
    - App.v: app/app.go, refresh, probe rounds, status, listeners. Monitor.v:
      alert/monitor.go. Notify.v: notify/client.go. Admin.v: admin/server.go over the
      interface [Provider]. Redact.v: redact/redact.go with its regular expressions.
      Inspect.v: inspect/subscriptions.go, the operator's table.

    Go itself: GoBase.v (errors, times), GoStrings.v (strings, strconv, UTF-8), GoTime.v
    (durations), GoHash.v (SHA-256), GoCodec.v (base64, headers), NetUrl.v (the parsed
    form of a URL, escaping), GoNet.v (addresses), GoHttp.v (response writer, routes).
    Witnesses.v applies the properties that have hypotheses to concrete runs.

    ** How the parts interact

    A refresh goes fetcher, parser, manager, then [Registry.Apply], which builds and
    closes dialers through the engine, then a round of probes; only [Apply] changes which
    nodes are routed. Connections take leases on routed nodes through the selector and
    report failures; probes take leases too. Clients of an interface are proved against
    its laws: the registry and everything above it against [FactoryLaws], which the
    engine discharges; the manager against [Parser] and [Fetcher]; the monitor against
    any [Sender]; the admin handlers against [Provider], which the application is.

    ** What the theorems show

    - Pool safety (Leases.v, Registry.v): a dialer is never closed under an open lease,
      counters and probe gates are exact, a rejected snapshot changes nothing, an
      accepted one routes exactly its nodes, and when all leases are closed no dialer of
      a removed node is left.
    - Connections (Session.v, HttpProxy.v): nothing happens without credentials; the
      first dial terminates and tries each node of one routing snapshot at most once; a
      session returns every lease; what goes upstream is cleaned.
    - Selection (Selector.v): the cursor is the largest retired commit, in any
      interleaving.
    - Subscriptions (Fetch.v, ParseNodes.v, Manager.v, Supply.v): downloads stay on their
      origin and within their limit, untrusted documents are cut at a depth and a size,
      one proxy has one identity in every format, sources that delivered nodes keep them,
      and what the parser yields the engine accepts, but for types that are not written in
      lower case.
    - Alerts (Monitor.v, Notify.v): one alert per failure, tried until delivered; a
      message arrives unharmed in one request.
    - Secrets (Config.v, Admin.v, Redact.v, Gateway.v): errors of the configuration do not
      depend on the environment; a shown error holds no URL, and no stretch of the error
      that was kept holds a credential; only the token makes the admin server act.
    - Operation (Gateway.v, App.v, Probe.v, Inspect.v, FixedEgress.v): a loaded
      configuration starts, a gateway that routes keeps routing, probes verify their
      target and close their connection, status and table tell the truth, start is all or
      nothing and stop is in order.

    ** Choices of the model

    Strings are byte strings, integers are [Z] with explicit wrap-around where the code
    can overflow, times are nanoseconds since year 1. [for range] over a map takes any
    [RangeOrder]. Errors are values of [GoError]. The state of the outside world is a
    type variable threaded through the calls, or a log for the theorems on what is sent.
    Loops with fuel: the dial loop of a session runs at most once per candidate and
    [next_loop] and [retire_loop] of the selector once per candidate and pending result,
    which is their fuel; [client_Do] has 10 requests, and the policy refuses the tenth
    redirect; [walk] has one more than the depth bound of 32. That this fuel is enough is
    proved with each, or part of the theorem on the loop ([is_Some], [Some (w', ss', r)]).
    The repetitions of the matcher in Redact.v and the groups of an address in GoNet.v
    take one turn per byte and per group, each of which consumes some text.

    ** Not modelled

    The decoders of JSON and YAML, url.Parse and the texts of floating-point numbers, of
    times and of other values only YAML yields in JSON are parameters, as are the network, the file system, TLS, the redirect
    page of net/http and sing-box; text outside ASCII is only folded where its fold is
    ASCII. Log lines, flag parsing, signals and process exit (cmd/dual-egress-gateway and
    the main of cmd/fixed-egress) and proxycore/platform.go, constant methods for a
    third-party interface, are left out. Goroutines are interleavings of critical
    sections: the memory model, deadlines and the scheduling of timers are not
    represented, nor is the forced second of a shutdown after its context has ended. *)
From stdpp Require Import gmap strings list sorting fin_maps pretty.
From stdpp Require Import options.

(** ** Machine integers *)

(** A [uint64] is a [Z] in [0, 2^64); arithmetic wraps explicitly. *)
Definition wrap64 (z : Z) : Z := (z `mod` 2 ^ 64)%Z.

Lemma wrap64_small (z : Z) : (0 ≤ z < 2 ^ 64)%Z → wrap64 z = z.
Proof. intros. unfold wrap64. by apply Z.mod_small. Qed.

(** An [int64] is a [Z] in [-2^63, 2^63). *)
Definition wrap_int64 (z : Z) : Z := ((z + 2 ^ 63) `mod` 2 ^ 64 - 2 ^ 63)%Z.

Lemma wrap_int64_small (z : Z) : (- 2 ^ 63 ≤ z < 2 ^ 63)%Z → wrap_int64 z = z.
Proof. intros. unfold wrap_int64. rewrite Z.mod_small; lia. Qed.

(** ** Sorted string slices: [sort.Strings] *)

Definition sort_strings (l : list string) : list string := merge_sort String.le l.

Lemma sort_strings_perm (l : list string) : sort_strings l ≡ₚ l.
Proof. apply merge_sort_Permutation. Qed.

Lemma sort_strings_sorted (l : list string) : StronglySorted String.le (sort_strings l).
Proof. apply StronglySorted_merge_sort; apply _. Qed.

Lemma sorted_strings_unique (l l' : list string) :
  StronglySorted String.le l → StronglySorted String.le l' → l ≡ₚ l' → l = l'.
Proof.
  intros. by apply (StronglySorted_unique String.le).
Qed.

(** The result of [sort.Strings] does not depend on the order of its input: how
    a map was iterated before sorting its keys does not matter. *)
Lemma sort_strings_proper (l l' : list string) :
  l ≡ₚ l' → sort_strings l = sort_strings l'.
Proof.
  intros Hl. apply sorted_strings_unique; [apply sort_strings_sorted..|].
  by rewrite !sort_strings_perm.
Qed.

Lemma sort_strings_elem (l : list string) (x : string) : x ∈ sort_strings l ↔ x ∈ l.
Proof. by rewrite sort_strings_perm. Qed.

Lemma sort_strings_nodup (l : list string) : NoDup (sort_strings l) ↔ NoDup l.
Proof. by rewrite sort_strings_perm. Qed.

#[export] Instance sort_strings_Proper : Proper ((≡ₚ) ==> (=)) sort_strings.
Proof. intros ???. by apply sort_strings_proper. Qed.

(** ** Iteration over Go maps *)

(** [for k, v := range m] visits the entries of [m] in an unspecified order. An
    operation that ranges over maps takes a [RangeOrder], and its theorems hold
    for every one. *)
Record RangeOrder := mkRangeOrder {
  range_items : ∀ V : Type, gmap string V → list (string * V);
  range_perm : ∀ (V : Type) (m : gmap string V), range_items V m ≡ₚ map_to_list m;
}.
Arguments range_items _ {_} _.
Arguments range_perm _ {_} _.

Definition range_keys (o : RangeOrder) {V} (m : gmap string V) : list string :=
  (range_items o m).*1.

(** Two concrete orders, for evaluation. *)
Definition canonical_order : RangeOrder :=
  mkRangeOrder (λ V m, map_to_list m) (λ V m, reflexivity _).
Definition reverse_order : RangeOrder :=
  mkRangeOrder (λ V m, reverse (map_to_list m)) (λ V m, reverse_Permutation _).

Section range.
Context {V : Type} (o : RangeOrder).
Implicit Types m : gmap string V.

Lemma elem_of_range m k v : (k, v) ∈ range_items o m ↔ m !! k = Some v.
Proof. by rewrite range_perm, elem_of_map_to_list. Qed.

Lemma elem_of_range_keys m k : k ∈ range_keys o m ↔ is_Some (m !! k).
Proof.
  unfold range_keys. rewrite list_elem_of_fmap. split.
  - intros ([k' v] & -> & Hin%elem_of_range). eauto.
  - intros [v Hv%elem_of_range]. by exists (k, v).
Qed.

Lemma range_keys_nodup m : NoDup (range_keys o m).
Proof. unfold range_keys. rewrite range_perm. apply NoDup_fst_map_to_list. Qed.

Lemma range_keys_perm m : range_keys o m ≡ₚ elements (dom m).
Proof.
  apply NoDup_Permutation; [apply range_keys_nodup|apply NoDup_elements|].
  intros k. by rewrite elem_of_range_keys, elem_of_elements, elem_of_dom.
Qed.

(** Counting entries in whatever order is the size of the filtered map. *)
Lemma range_count (P : string * V → Prop) `{!∀ x, Decision (P x)} m :
  length (filter P (range_items o m)) = size (filter P m).
Proof.
  rewrite <-length_map_to_list. apply Permutation_length, NoDup_Permutation.
  - apply NoDup_filter. rewrite range_perm. apply NoDup_map_to_list.
  - apply NoDup_map_to_list.
  - intros [k v]. rewrite list_elem_of_filter, elem_of_range, elem_of_map_to_list.
    rewrite map_lookup_filter_Some. tauto.
Qed.

Lemma range_length m : length (range_items o m) = size m.
Proof. by rewrite range_perm, length_map_to_list. Qed.

Lemma range_items_empty : range_items o (∅ : gmap string V) = [].
Proof. apply Permutation_nil. by rewrite range_perm, map_to_list_empty. Qed.

(** [for k, v := range m { dst[k] = v }] *)
Definition range_store m (dst : gmap string V) : gmap string V :=
  foldl (λ dst kv, <[kv.1 := kv.2]> dst) dst (range_items o m).

Lemma foldl_insert_union (items : list (string * V)) (dst : gmap string V) :
  NoDup items.*1 →
  foldl (λ dst kv, <[kv.1 := kv.2]> dst) dst items = list_to_map items ∪ dst.
Proof.
  induction items as [|[k v] items IH] using rev_ind; intros Hnd.
  { simpl. by rewrite (left_id_L ∅ (∪)). }
  rewrite fmap_app in Hnd. apply NoDup_app in Hnd as (Hnd & Hnot & _).
  rewrite foldl_snoc, IH, list_to_map_app by done. simpl.
  rewrite insert_empty, insert_union_l. f_equal.
  rewrite <-insert_union_singleton_r; [done|].
  apply not_elem_of_list_to_map. intros Hin. apply (Hnot k Hin). by left.
Qed.

Lemma range_store_union m dst : range_store m dst = m ∪ dst.
Proof.
  unfold range_store. rewrite foldl_insert_union by apply range_keys_nodup. f_equal.
  rewrite (list_to_map_proper _ (map_to_list m)), list_to_map_to_list; [done|..].
  - apply range_keys_nodup.
  - by rewrite range_perm.
Qed.
End range.

(** ** Lists *)

Lemma list_filter_ext_elem {A} (P Q : A → Prop) `{!∀ x, Decision (P x)}
    `{!∀ x, Decision (Q x)} (l : list A) :
  (∀ x, x ∈ l → P x ↔ Q x) → filter P l = filter Q l.
Proof.
  induction l as [|x l IH]; intros Hext; [done|].
  rewrite !filter_cons, (decide_ext (P x) (Q x)) by (apply Hext; by left).
  rewrite IH; [done|]. intros y ?. apply Hext. by right.
Qed.

(** ** Counting in lists *)

Definition count {A} (P : A → bool) (l : list A) : nat := length (filter (λ x, P x = true) l).

Section count.
Context {A : Type} (P : A → bool).
Implicit Types l : list A.

Lemma count_nil : count P [] = 0.
Proof. done. Qed.

Lemma count_cons x l : count P (x :: l) = (if P x then 1 else 0) + count P l.
Proof.
  unfold count. rewrite filter_cons. case_decide as H.
  - by rewrite H.
  - apply not_true_is_false in H. by rewrite H.
Qed.

Lemma count_app l l' : count P (l ++ l') = count P l + count P l'.
Proof. unfold count. by rewrite filter_app, length_app. Qed.

(** Overwriting one element changes the count by that element's share. *)
Lemma count_insert l i x y :
  l !! i = Some x →
  count P (<[i := y]> l) + (if P x then 1 else 0) = count P l + (if P y then 1 else 0).
Proof.
  revert i. induction l as [|z l IH]; intros [|i] Hi; simplify_eq/=.
  - rewrite !count_cons. lia.
  - rewrite !count_cons. specialize (IH i Hi). lia.
Qed.

Lemma count_pos l : 0 < count P l ↔ ∃ x, x ∈ l ∧ P x = true.
Proof.
  unfold count. split.
  - destruct (filter _ l) as [|x k] eqn:Hf; simpl; [lia|]. intros _.
    assert (x ∈ filter (λ x, P x = true) l) as Hx by (rewrite Hf; by left).
    apply list_elem_of_filter in Hx as [? ?]. eauto.
  - intros (x & Hx & HP).
    assert (x ∈ filter (λ x, P x = true) l) as Hin by (by apply list_elem_of_filter).
    destruct (filter _ l); [by apply not_elem_of_nil in Hin|simpl; lia].
Qed.

Lemma count_zero l : count P l = 0 ↔ ∀ x, x ∈ l → P x = false.
Proof.
  split.
  - intros H0 x Hx. apply not_true_is_false. intros HP.
    assert (0 < count P l) by (apply count_pos; eauto). lia.
  - intros Hall. destruct (count P l) eqn:E; [done|].
    assert (0 < count P l) as (x & Hx & HP)%count_pos by lia.
    rewrite Hall in HP; done.
Qed.
End count.

Lemma count_ext {A} (P Q : A → bool) (l : list A) :
  (∀ x, x ∈ l → P x = Q x) → count P l = count Q l.
Proof.
  induction l as [|x l IH]; intros H; [done|].
  rewrite !count_cons, (H x) by (by left). rewrite IH; [done|].
  intros y ?. apply H. by right.
Qed.

Create Rewrite HintDb count.
#[export] Hint Rewrite @count_cons @count_app @count_nil : count.
