(* ===== verification/GoBase.v ===== *)
(** * Go runtime notions shared by the components: error values and times. *)
From stdpp Require Import strings list.
From S2P Require Import Prelude.
From stdpp Require Import options.

(** ** Errors *)

(** Errors that the program compares by identity with [errors.Is]. *)
Inductive Sentinel := DeadlineExceeded | Canceled | ErrServerClosed.

#[export] Instance Sentinel_eq_dec : EqDecision Sentinel.
Proof. solve_decision. Defined.

(** An error chain: [errors.New], a sentinel, an implementation of [net.Error]
    (on its own, or unwrapping to a cause as [net.OpError] does), or an error
    that wraps another one, with the text its [Error] method gives. *)
Inductive GoError :=
  | ErrNew (msg : string)
  | ErrSentinel (s : Sentinel)
  | ErrNet (msg : string)
  | ErrNetOp (msg : string) (cause : GoError)
  | ErrWrap (msg : string) (cause : GoError).

Definition Error (e : GoError) : string :=
  match e with
  | ErrNew msg | ErrNet msg | ErrNetOp msg _ | ErrWrap msg _ => msg
  | ErrSentinel DeadlineExceeded => "context deadline exceeded"
  | ErrSentinel Canceled => "context canceled"
  | ErrSentinel ErrServerClosed => "http: Server closed"
  end.

(** [fmt.Errorf("text%w", cause)], the cause's text after the other one. *)
Definition Errorf_w (text : string) (cause : GoError) : GoError :=
  ErrWrap (text +:+ Error cause) cause.

(** [errors.Is]: does the chain contain the sentinel? *)
Fixpoint errors_Is (e : GoError) (target : Sentinel) : bool :=
  match e with
  | ErrNew _ | ErrNet _ => false
  | ErrSentinel s => bool_decide (s = target)
  | ErrNetOp _ cause | ErrWrap _ cause => errors_Is cause target
  end.

(** [errors.As] with a [net.Error] target; [context.DeadlineExceeded] has the
    methods of [net.Error] too. *)
Fixpoint errors_As_net (e : GoError) : bool :=
  match e with
  | ErrNew _ => false
  | ErrSentinel s => bool_decide (s = DeadlineExceeded)
  | ErrNet _ | ErrNetOp _ _ => true
  | ErrWrap _ cause => errors_As_net cause
  end.

(** [if err != nil { return err }], and a guard that returns an error. *)
Definition err_bind {A B} (m : GoError + A) (k : A → GoError + B) : GoError + B :=
  match m with inl err => inl err | inr a => k a end.
Definition refuse {A} (b : bool) (msg : string) (k : GoError + A) : GoError + A :=
  if b then inl (ErrNew msg) else k.

Lemma err_bind_inr {A B} (m : GoError + A) (k : A → GoError + B) b :
  err_bind m k = inr b ↔ ∃ a, m = inr a ∧ k a = inr b.
Proof. destruct m; simpl; naive_solver. Qed.

Lemma refuse_inr {A} (b : bool) msg (k : GoError + A) a :
  refuse b msg k = inr a ↔ b = false ∧ k = inr a.
Proof. destruct b; simpl; naive_solver. Qed.

(** ** Times *)

(** A [time.Time] is the number of nanoseconds since the zero time (year 1), so
    [IsZero] is a comparison with 0; a [time.Duration] is a number of
    nanoseconds. *)
Definition time_IsZero (t : Z) : bool := (t =? 0)%Z.
Definition time_After (t u : Z) : bool := (u <? t)%Z.
Definition time_Equal (t u : Z) : bool := (t =? u)%Z.
Definition Second : Z := 1000000000.
Definition Minute : Z := (60 * Second)%Z.
Definition Hour : Z := (60 * Minute)%Z.
