(* ===== verification/GoStrings.v ===== *)
(** * The functions of Go's [strings] and [strconv] packages the program calls.

    A Go string is a sequence of bytes: a [string], one [ascii] per byte. Text
    outside ASCII is UTF-8, so that the literals of the source are the literals
    here. White space is [unicode.IsSpace]: the six ASCII characters and the
    UTF-8 encodings of the other ones. *)
From stdpp Require Import strings list numbers pretty.
From Stdlib Require Import Ascii.
From S2P Require Import Prelude.
From stdpp Require Import options.

Definition byte_of (c : ascii) : N := N_of_ascii c.
Definition between (lo hi x : N) : bool := ((lo <=? x) && (x <=? hi))%N.

Lemma byte_of_lt a : (byte_of a < 256)%N.
Proof. apply N_ascii_bounded. Qed.

(** Every byte of a text has a property. *)
Fixpoint all_bytes (p : ascii → bool) (s : string) : bool :=
  match s with EmptyString => true | String a rest => p a && all_bytes p rest end.

(** ** White space *)

Definition space1 (a : ascii) : bool :=
  between 9 13 (byte_of a) || (byte_of a =? 32)%N.

(** U+0085 and U+00A0. *)
Definition space2 (a b : ascii) : bool :=
  (byte_of a =? 0xC2)%N && ((byte_of b =? 0x85) || (byte_of b =? 0xA0))%N.

(** U+1680, U+2000 to U+200A, U+2028, U+2029, U+202F, U+205F and U+3000. *)
Definition space3 (a b c : ascii) : bool :=
  let '(x, y, z) := (byte_of a, byte_of b, byte_of c) in
  ((x =? 0xE1) && (y =? 0x9A) && (z =? 0x80))%N ||
  ((x =? 0xE2)%N && (y =? 0x80)%N &&
     (between 0x80 0x8A z || (z =? 0xA8)%N || (z =? 0xA9)%N || (z =? 0xAF)%N)) ||
  ((x =? 0xE2) && (y =? 0x81) && (z =? 0x9F))%N ||
  ((x =? 0xE3) && (y =? 0x80) && (z =? 0x80))%N.

(** Drop the white space at the front. *)
Fixpoint trim_left (s : string) : string :=
  match s with
  | String a r1 =>
      if space1 a then trim_left r1
      else match r1 with
           | String b r2 =>
               if space2 a b then trim_left r2
               else match r2 with
                    | String c r3 => if space3 a b c then trim_left r3 else s
                    | EmptyString => s
                    end
           | EmptyString => s
           end
  | EmptyString => s
  end.

(** The same on a reversed string: drops the white space at the end. *)
Fixpoint trim_rev (s : string) : string :=
  match s with
  | String a r1 =>
      if space1 a then trim_rev r1
      else match r1 with
           | String b r2 =>
               if space2 b a then trim_rev r2
               else match r2 with
                    | String c r3 => if space3 c b a then trim_rev r3 else s
                    | EmptyString => s
                    end
           | EmptyString => s
           end
  | EmptyString => s
  end.

Definition TrimSpace (s : string) : string :=
  String.rev (trim_rev (String.rev (trim_left s))).

(** [strings.Fields]: the maximal runs without white space. [cur] is the current
    field, reversed. *)
Fixpoint fields_go (cur : string) (s : string) : list string :=
  let flush := match cur with EmptyString => [] | _ => [String.rev cur] end in
  match s with
  | EmptyString => flush
  | String a r1 =>
      if space1 a then flush ++ fields_go "" r1
      else match r1 with
           | String b r2 =>
               if space2 a b then flush ++ fields_go "" r2
               else match r2 with
                    | String c r3 =>
                        if space3 a b c then flush ++ fields_go "" r3
                        else fields_go (String a cur) r1
                    | EmptyString => fields_go (String a cur) r1
                    end
           | EmptyString => fields_go (String a cur) r1
           end
  end.
Definition Fields (s : string) : list string := fields_go "" s.

(** ** Letter case *)

Definition lower1 (a : ascii) : ascii :=
  if between 65 90 (byte_of a) then ascii_of_N (byte_of a + 32) else a.

(** [strings.ToLower] up to the non-ASCII part of the result: ASCII letters, and
    the two other characters whose lower case is ASCII (U+0130 gives i, U+212A
    gives k), are mapped; any other byte is kept. The program only compares the
    result with ASCII text, or keeps it once it is known to be ASCII. *)
Fixpoint ToLower (s : string) : string :=
  match s with
  | EmptyString => EmptyString
  | String a r1 =>
      match r1 with
      | String b r2 =>
          if ((byte_of a =? 0xC4) && (byte_of b =? 0xB0))%N then String "i" (ToLower r2)
          else match r2 with
               | String c r3 =>
                   if ((byte_of a =? 0xE2) && (byte_of b =? 0x84) && (byte_of c =? 0xAA))%N
                   then String "k" (ToLower r3)
                   else String (lower1 a) (ToLower r1)
               | EmptyString => String (lower1 a) (ToLower r1)
               end
      | EmptyString => String (lower1 a) EmptyString
      end
  end.

(** The simple case folding of [strings.EqualFold] against ASCII text: besides
    the ASCII letters, U+017F folds to s and U+212A to k. *)
Fixpoint fold_case (s : string) : string :=
  match s with
  | EmptyString => EmptyString
  | String a r1 =>
      match r1 with
      | String b r2 =>
          if ((byte_of a =? 0xC5) && (byte_of b =? 0xBF))%N then String "s" (fold_case r2)
          else match r2 with
               | String c r3 =>
                   if ((byte_of a =? 0xE2) && (byte_of b =? 0x84) && (byte_of c =? 0xAA))%N
                   then String "k" (fold_case r3)
                   else String (lower1 a) (fold_case r1)
               | EmptyString => String (lower1 a) (fold_case r1)
               end
      | EmptyString => String (lower1 a) EmptyString
      end
  end.

(** [strings.EqualFold s t] where [t] is ASCII, as in every call of the program. *)
Definition EqualFold (s t : string) : bool :=
  bool_decide (fold_case s = fold_case t).

(** ** Searching, splitting and joining *)

Definition HasPrefix (s pre : string) : bool := String.prefix pre s.

Fixpoint Contains (s sub : string) : bool :=
  String.prefix sub s ||
  match s with EmptyString => false | String _ s' => Contains s' sub end.

Definition ContainsByte (s : string) (c : ascii) : bool := Contains s (String c "").

Fixpoint drop_bytes (n : nat) (s : string) : string :=
  match n, s with
  | 0, _ => s
  | S n, String _ s' => drop_bytes n s'
  | S _, EmptyString => EmptyString
  end.

Definition TrimPrefix (s pre : string) : string :=
  if HasPrefix s pre then drop_bytes (String.length pre) s else s.

(** [strings.Split s sep] for a separator of one byte. *)
Fixpoint split_go (sep : ascii) (cur : string) (s : string) : list string :=
  match s with
  | EmptyString => [String.rev cur]
  | String a s' =>
      if Ascii.eqb a sep then String.rev cur :: split_go sep "" s'
      else split_go sep (String a cur) s'
  end.
Definition Split (s : string) (sep : ascii) : list string := split_go sep "" s.

(** [strings.Cut s sep] for a separator of one byte. *)
Fixpoint Cut (s : string) (sep : ascii) : string * string * bool :=
  match s with
  | EmptyString => ("", "", false)
  | String a s' =>
      if Ascii.eqb a sep then ("", s', true)
      else let '(before, after, found) := Cut s' sep in (String a before, after, found)
  end.

Fixpoint Join (l : list string) (sep : string) : string :=
  match l with
  | [] => ""
  | [s] => s
  | s :: l' => s +:+ sep +:+ Join l' sep
  end.

(** [strings.ReplaceAll] for a nonempty [old], from left to right. [skip] counts
    the bytes of the last match still to be passed over. *)
Fixpoint replace_go (old new : string) (skip : nat) (s : string) : string :=
  match s with
  | EmptyString => EmptyString
  | String a s' =>
      match skip with
      | S skip => replace_go old new skip s'
      | 0 =>
          if String.prefix old s
          then new +:+ replace_go old new (Nat.pred (String.length old)) s'
          else String a (replace_go old new 0 s')
      end
  end.
Definition ReplaceAll (s old new : string) : string := replace_go old new 0 s.

(** [strings.TrimRight s cutset] for a cutset of one ASCII byte. *)
Fixpoint drop_while_byte (c : ascii) (s : string) : string :=
  match s with
  | String a s' => if Ascii.eqb a c then drop_while_byte c s' else s
  | EmptyString => s
  end.
Definition TrimRightByte (s : string) (c : ascii) : string :=
  String.rev (drop_while_byte c (String.rev s)).

(** ** Characters *)

(** The byte sequences of UTF-8. *)
Definition cont (a : ascii) : bool := between 0x80 0xBF (byte_of a).
Definition rune2 (a b : ascii) : bool := between 0xC2 0xDF (byte_of a) && cont b.
Definition rune3 (a b c : ascii) : bool :=
  let x := byte_of a in
  between (if (x =? 0xE0)%N then 0xA0 else 0x80) (if (x =? 0xED)%N then 0x9F else 0xBF) (byte_of b)
  && between 0xE0 0xEF x && cont c.
Definition rune4 (a b c d : ascii) : bool :=
  let x := byte_of a in
  between (if (x =? 0xF0)%N then 0x90 else 0x80) (if (x =? 0xF4)%N then 0x8F else 0xBF) (byte_of b)
  && between 0xF0 0xF4 x && cont c && cont d.

(** The characters of a text, each with its bytes; a byte that begins none stands for
    itself. *)
Inductive Rune := Char (bytes : string) | BadByte (a : ascii).

Fixpoint runes (s : string) : list Rune :=
  match s with
  | EmptyString => []
  | String a r1 =>
      if (byte_of a <? 0x80)%N then Char (String a "") :: runes r1
      else
        match r1 with
        | String b r2 =>
            if rune2 a b then Char (String a (String b "")) :: runes r2
            else
              match r2 with
              | String c r3 =>
                  if rune3 a b c then Char (String a (String b (String c ""))) :: runes r3
                  else
                    match r3 with
                    | String d r4 =>
                        if rune4 a b c d
                        then Char (String a (String b (String c (String d "")))) :: runes r4
                        else BadByte a :: runes r1
                    | EmptyString => BadByte a :: runes r1
                    end
              | EmptyString => BadByte a :: runes r1
              end
        | EmptyString => [BadByte a]
        end
  end.

(** [utf8.RuneCountInString] *)
Definition RuneCount (s : string) : nat := length (runes s).

(** ** Numbers *)

Definition Itoa (z : Z) : string := pretty z.

Definition digit_value (a : ascii) : option Z :=
  if between 48 57 (byte_of a) then Some (Z.of_N (byte_of a - 48)%N) else None.

Fixpoint digits_go (acc : Z) (s : string) : option Z :=
  match s with
  | EmptyString => Some acc
  | String a s' =>
      match digit_value a with
      | Some d => digits_go (acc * 10 + d)%Z s'
      | None => None
      end
  end.

(** An optional sign. *)
Definition split_sign (s : string) : bool * string :=
  match s with
  | String "-" rest => (true, rest)
  | String "+" rest => (false, rest)
  | _ => (false, s)
  end.

(** [strconv.ParseInt s 10 64] (and [strconv.Atoi], [int] being 64 bits wide): an
    optional sign and at least one digit, in range. [None] is any error. *)
Definition ParseInt (s : string) : option Z :=
  let '(neg, body) := split_sign s in
  match body with
  | EmptyString => None
  | _ =>
      z ← digits_go 0 body;
      let v := if neg then (- z)%Z else z in
      if decide (- 2 ^ 63 ≤ v < 2 ^ 63)%Z then Some v else None
  end.
Definition Atoi (s : string) : option Z := ParseInt s.

Lemma ParseInt_bound s z : ParseInt s = Some z → (- 2 ^ 63 ≤ z < 2 ^ 63)%Z.
Proof.
  unfold ParseInt. destruct (split_sign s) as [neg body].
  destruct body; [done|]. destruct (digits_go 0 _); [|done]. simpl.
  case_decide; [|done]. intros ?. by simplify_eq.
Qed.

(** Any bytes, by their codes. *)
Definition bytes_of (l : list N) : string := foldr (λ n s, String (ascii_of_N n) s) "" l.

Example trim_space_ascii : TrimSpace (bytes_of [9; 32]%N +:+ "a b" +:+ bytes_of [13; 10]%N) = "a b".
Proof. reflexivity. Qed.
Example trim_space_wide :
  TrimSpace (bytes_of [0xE3; 0x80; 0x80]%N +:+ "x" +:+ bytes_of [0xC2; 0xA0]%N) = "x".
Proof. reflexivity. Qed.
Example fields_ex : Fields "  Basic   dXNlcg== " = ["Basic"; "dXNlcg=="].
Proof. reflexivity. Qed.
Example split_ex : Split "a::b:" ":" = ["a"; ""; "b"; ""].
Proof. reflexivity. Qed.
Example replace_ex : ReplaceAll "aXXbXXX" "XX" "y" = "aybyX".
Proof. reflexivity. Qed.
Example atoi_ex : Atoi "-042" = Some (-42)%Z ∧ Atoi "9223372036854775808" = None ∧ Atoi "+" = None.
Proof. split_and!; vm_compute; reflexivity. Qed.
Example equal_fold_ex : EqualFold "bAſic" "Basic" = true.
Proof. reflexivity. Qed.

(** ** Lemmas *)

Definition without (c : ascii) (s : string) : bool := all_bytes (λ a, negb (Ascii.eqb a c)) s.

Lemma append_nil s : s +:+ "" = s.
Proof. induction s as [|a s IH]; [done|]. change (String a (s +:+ "") = String a s). by rewrite IH. Qed.

Lemma append_assoc s t u : (s +:+ t) +:+ u = s +:+ (t +:+ u).
Proof.
  induction s as [|a s IH]; [done|].
  change (String a ((s +:+ t) +:+ u) = String a (s +:+ (t +:+ u))). by rewrite IH.
Qed.

Lemma rev_app_app s t : String.rev_app s t = String.rev_app s "" +:+ t.
Proof.
  revert t. induction s as [|a s IH]; intros t; [done|]. cbn [String.rev_app].
  by rewrite IH, (IH (String a "")), append_assoc.
Qed.

Lemma rev_cons a s : String.rev (String a s) = String.rev s +:+ String a "".
Proof. unfold String.rev. cbn [String.rev_app]. apply rev_app_app. Qed.

(** Splitting at a byte that a part does not have. *)
Lemma split_go_part sep cur x s :
  without sep x = true →
  split_go sep cur (x +:+ String sep s) = (String.rev cur +:+ x) :: Split s sep ∧
  split_go sep cur x = [String.rev cur +:+ x].
Proof.
  revert cur. induction x as [|a x IH]; intros cur Hx.
  - change ("" +:+ String sep s) with (String sep s). cbn [split_go].
    by rewrite Ascii.eqb_refl, append_nil.
  - unfold without in Hx. cbn [all_bytes] in Hx. apply andb_true_iff in Hx as [Ha Hx].
    apply negb_true_iff in Ha. destruct (IH (String a cur) Hx) as [H1 H2].
    change (String a x +:+ String sep s) with (String a (x +:+ String sep s)). cbn [split_go].
    rewrite Ha, H1, H2, rev_cons, append_assoc. done.
Qed.

Lemma Split_cons sep x s : without sep x = true → Split (x +:+ String sep s) sep = x :: Split s sep.
Proof. intros Hx. by destruct (split_go_part sep "" x s Hx). Qed.

Lemma Split_one sep x : without sep x = true → Split x sep = [x].
Proof. intros Hx. by destruct (split_go_part sep "" x "" Hx). Qed.

Lemma all_bytes_impl (p q : ascii → bool) s :
  (∀ a, p a = true → q a = true) → all_bytes p s = true → all_bytes q s = true.
Proof.
  intros Hpq. induction s as [|a s IH]; [done|]. simpl. rewrite !andb_true_iff. naive_solver.
Qed.

Lemma all_bytes_app p s t : all_bytes p (s +:+ t) = all_bytes p s && all_bytes p t.
Proof. induction s as [|a s IH]; [done|]. simpl. by rewrite IH, andb_assoc. Qed.

Lemma contains_byte_without c s : without c s = true → Contains s (String c "") = false.
Proof.
  induction s as [|a s IH]; [done|]. unfold without. cbn [all_bytes Contains]. intros [Ha Hs]%andb_true_iff.
  apply negb_true_iff in Ha. rewrite IH by done. simpl. destruct (ascii_dec c a) as [->|]; [|done].
  by rewrite Ascii.eqb_refl in Ha.
Qed.

Lemma all_bytes_concat p l : Forall (λ s, all_bytes p s = true) l → all_bytes p (String.concat "" l) = true.
Proof.
  induction 1 as [|s l Hs Hl IH]; [done|]. destruct l as [|t l]; [done|].
  change (all_bytes p (s +:+ String.concat "" (t :: l)) = true).
  by rewrite all_bytes_app, Hs, IH.
Qed.

(** The decimal text of a number: a sign and digits. *)
Lemma Itoa_bytes p z :
  p "-"%char = true → (∀ n, (n < 10)%N → p (pretty_N_char n) = true) → all_bytes p (Itoa z) = true.
Proof.
  intros Hminus Hdigit.
  assert (∀ n s, all_bytes p s = true → all_bytes p (pretty_N_go n s) = true) as Hgo.
  { induction n as [n IH] using (well_founded_induction N.lt_wf_0). intros s Hs.
    destruct (decide (0 < n)%N) as [Hn|Hn].
    - rewrite pretty_N_go_step by done. apply IH; [apply N.div_lt; lia|].
      cbn [all_bytes]. rewrite Hdigit by (apply N.mod_lt; lia). done.
    - replace n with 0%N by lia. by rewrite pretty_N_go_0. }
  assert (∀ n : N, all_bytes p (pretty n) = true) as Hpretty.
  { intros n. unfold pretty, pretty_N. case_decide; [|by apply Hgo].
    specialize (Hdigit 0%N eq_refl). simpl in *. by rewrite Hdigit. }
  unfold Itoa. destruct z as [|z|z]; [apply (Hpretty 0%N)|apply (Hpretty (Npos z))|].
  change (all_bytes p ("-" +:+ pretty (Npos z)) = true). rewrite all_bytes_app, Hpretty.
  simpl. by rewrite Hminus.
Qed.

(** A character is one ASCII byte or has none. *)
Definition good_rune (r : Rune) : Prop :=
  match r with
  | Char bytes => (∃ a, bytes = String a "") ∨ all_bytes (λ a, (128 <=? byte_of a)%N) bytes = true
  | BadByte _ => True
  end.

Lemma runes_good s : Forall good_rune (runes s).
Proof.
  assert (∀ n s, String.length s ≤ n → Forall good_rune (runes s)) as Hall; [|by eapply Hall].
  clear s. induction n as [|n IH]; intros s Hs; [by destruct s; [constructor|simpl in Hs; lia]|].
  destruct s as [|a r1]; [constructor|]. cbn [String.length] in Hs. cbn [runes].
  assert (Forall good_rune (BadByte a :: runes r1)) as Hbad by (constructor; [done|apply IH; lia]).
  destruct (byte_of a <? 0x80)%N eqn:Ha; [constructor; [left; eauto|apply IH; lia]|].
  destruct r1 as [|b r2]; [by repeat constructor|]. cbn [String.length] in Hs.
  assert (∀ c, cont c = true → (128 <=? byte_of c)%N = true) as Hcont.
  { intros c [? ?]%andb_true_iff. done. }
  assert ((128 <=? byte_of a)%N = true) as Ha' by (apply N.ltb_ge in Ha; by apply N.leb_le).
  destruct (rune2 a b) eqn:H2.
  { constructor; [|apply IH; lia]. right. apply andb_true_iff in H2 as [_ H2]. cbn.
    by rewrite Ha', Hcont. }
  destruct r2 as [|c r3]; [done|]. cbn [String.length] in Hs.
  assert (∀ (k : bool) m, (128 ≤ m)%N → ((if k then m else 0x80) <=? byte_of b)%N = true →
    (128 <=? byte_of b)%N = true) as Hb
    by (intros k m Hm Hk%N.leb_le; apply N.leb_le; destruct k; lia).
  destruct (rune3 a b c) eqn:H3.
  { constructor; [|apply IH; lia]. right.
    apply andb_true_iff in H3 as [[H3 _]%andb_true_iff Hc]. apply andb_true_iff in H3 as [H3 _].
    cbn. by rewrite Ha', (Hb _ 0xA0%N ltac:(lia) H3), Hcont. }
  destruct r3 as [|d r4]; [done|]. cbn [String.length] in Hs.
  destruct (rune4 a b c d) eqn:H4; [|done]. constructor; [|apply IH; lia]. right.
  apply andb_true_iff in H4 as [[[H4 _]%andb_true_iff Hc]%andb_true_iff Hd].
  apply andb_true_iff in H4 as [H4 _]. cbn. rewrite Ha', (Hcont c), (Hcont d) by done.
  by rewrite (Hb _ 0x90%N ltac:(lia) H4).
Qed.

Lemma length_append s t : String.length (s +:+ t) = String.length s + String.length t.
Proof. induction s as [|a s IH]; [done|]. change (S (String.length (s +:+ t)) = S (String.length s) + String.length t). lia. Qed.

Lemma rev_append s t : String.rev (s +:+ t) = String.rev t +:+ String.rev s.
Proof.
  induction s as [|a s IH]; [by rewrite append_nil|].
  change (String a s +:+ t) with (String a (s +:+ t)). by rewrite !rev_cons, IH, append_assoc.
Qed.

Lemma rev_involutive s : String.rev (String.rev s) = s.
Proof. induction s as [|a s IH]; [done|]. by rewrite rev_cons, rev_append, IH. Qed.

Lemma trim_rev_suffix s : ∃ seg, s = seg +:+ trim_rev s.
Proof.
  assert (∀ n s, String.length s ≤ n → ∃ seg, s = seg +:+ trim_rev s) as Hall; [|by eapply Hall].
  clear. assert (∀ seg a s t, s = seg +:+ t → String a s = String a seg +:+ t) as Hcons
    by (intros seg a s t ->; done).
  induction n as [|n IH]; intros [|a r1] Hlen; cbn in Hlen; try lia; [by exists ""|by exists ""|].
  cbn [trim_rev]. destruct (space1 a).
  { destruct (IH r1) as [seg Hseg]; [lia|]. exists (String a seg). by apply Hcons. }
  destruct r1 as [|b r2]; [by exists ""|]. cbn in Hlen. destruct (space2 b a).
  { destruct (IH r2) as [seg Hseg]; [lia|]. exists (String a (String b seg)). by do 2 apply Hcons. }
  destruct r2 as [|c r3]; [by exists ""|]. cbn in Hlen. destruct (space3 c b a); [|by exists ""].
  destruct (IH r3) as [seg Hseg]; [lia|]. exists (String a (String b (String c seg))).
  by do 3 apply Hcons.
Qed.
