(* ===== verification/GoTime.v ===== *)
(** * [time.ParseDuration], with its overflow checks and its floating-point
    fractions. *)
From stdpp Require Import strings list numbers.
From Stdlib Require Import Ascii SpecFloat.
From S2P Require Import Prelude.
From S2P Require Import GoStrings.
From stdpp Require Import options.
#[local] Open Scope Z_scope.

(** ** [float64], as far as the function needs it *)

Definition f64_of (z : Z) : spec_float := binary_normalize 53 1024 z 0 false.
Definition f64_mul : spec_float → spec_float → spec_float := SFmul 53 1024.
Definition f64_div : spec_float → spec_float → spec_float := SFdiv 53 1024.

(** [uint64(x)] for a nonnegative [x] in range: truncation. *)
Definition f64_trunc (x : spec_float) : Z :=
  match x with
  | S754_finite _ m e => if 0 <=? e then Z.pos m * 2 ^ e else Z.pos m / 2 ^ (- e)
  | _ => 0
  end.

(** ** Digits *)

(** [leadingInt]: the value, [None] on overflow, and the rest. *)
Fixpoint leadingInt (x : Z) (s : string) : option Z * string :=
  match s with
  | String a rest =>
      match digit_value a with
      | Some d =>
          if 2 ^ 63 / 10 <? x then (None, s)
          else if 2 ^ 63 <? x * 10 + d then (None, s)
          else leadingInt (x * 10 + d) rest
      | None => (Some x, s)
      end
  | EmptyString => (Some x, s)
  end.

(** [leadingFraction]: digits that do not fit any more are passed over. *)
Fixpoint leadingFraction (x : Z) (scale : spec_float) (overflow : bool) (s : string)
    : Z * spec_float * string :=
  match s with
  | String a rest =>
      match digit_value a with
      | Some d =>
          if overflow || ((2 ^ 63 - 1) / 10 <? x) || (2 ^ 63 <? x * 10 + d)
          then leadingFraction x scale true rest
          else leadingFraction (x * 10 + d) (f64_mul scale (f64_of 10)) false rest
      | None => (x, scale, s)
      end
  | EmptyString => (x, scale, s)
  end.

(** The text up to the next digit or point: the unit. *)
Fixpoint span_unit (s : string) : string * string :=
  match s with
  | String a rest =>
      if Ascii.eqb a "." || bool_decide (is_Some (digit_value a)) then ("", s)
      else let '(u, r) := span_unit rest in (String a u, r)
  | EmptyString => ("", "")
  end.

Definition unit_ns (u : string) : option Z :=
  if bool_decide (u = "ns") then Some 1
  else if bool_decide (u ∈ ["us"; bytes_of [0xC2; 0xB5; 0x73]%N; bytes_of [0xCE; 0xBC; 0x73]%N])
  then Some 1000
  else if bool_decide (u = "ms") then Some 1000000
  else if bool_decide (u = "s") then Some 1000000000
  else if bool_decide (u = "m") then Some 60000000000
  else if bool_decide (u = "h") then Some 3600000000000
  else None.

(** ** The loop *)

(** One term of the sum and the rest of the text. *)
Definition duration_term (s : string) : option (Z * string) :=
  match s with
  | EmptyString => None
  | String a _ =>
      if negb (Ascii.eqb a "." || bool_decide (is_Some (digit_value a))) then None
      else
        let '(v, s1) := leadingInt 0 s in
        let pre := negb (bool_decide (String.length s1 = String.length s)) in
        let '(f, scale, s2, post) :=
          match s1 with
          | String "." t =>
              let '(f, scale, t') := leadingFraction 0 (f64_of 1) false t in
              (f, scale, t', negb (bool_decide (String.length t' = String.length t)))
          | _ => (0, f64_of 1, s1, false)
          end in
        v ← v;
        if negb pre && negb post then None
        else
          let '(u, s3) := span_unit s2 in
          unit ← unit_ns u;
          if 2 ^ 63 / unit <? v then None
          else
            let v := v * unit in
            let v := if 0 <? f
                     then wrap64 (v + f64_trunc (f64_mul (f64_of f) (f64_div (f64_of unit) scale)))
                     else v in
            if (0 <? f) && (2 ^ 63 <? v) then None else Some (v, s3)
  end.

Fixpoint duration_terms (fuel : nat) (d : Z) (s : string) : option Z :=
  match s, fuel with
  | EmptyString, _ => Some d
  | _, O => None
  | _, S fuel =>
      match duration_term s with
      | None => None
      | Some (v, rest) =>
          if 2 ^ 63 <? wrap64 (d + v) then None else duration_terms fuel (wrap64 (d + v)) rest
      end
  end.

(** Every term is at least two bytes long, so the length of the text is fuel
    enough. *)
Definition ParseDuration (s : string) : option Z :=
  let '(neg, s) := split_sign s in
  if bool_decide (s = "0") then Some 0
  else if bool_decide (s = "") then None
  else
    d ← duration_terms (String.length s) 0 s;
    if neg then Some (wrap_int64 (- d)) else if 2 ^ 63 - 1 <? d then None else Some d.

Example duration_ex :
  ParseDuration "30m" = Some (30 * 60 * 1000000000) ∧ ParseDuration "1h15m30.918s" = Some 4530918000000 ∧
  ParseDuration "-1.5h" = Some (- 5400000000000) ∧ ParseDuration "1" = None ∧
  ParseDuration "2562047h47m16.854775807s" = Some (2 ^ 63 - 1) ∧
  ParseDuration "2562047h47m16.854775808s" = None ∧ ParseDuration ".s" = None ∧
  ParseDuration "0" = Some 0 ∧ ParseDuration "0.3333333333333333333h" = Some 1200000000000.
Proof. split_and!; vm_compute; reflexivity. Qed.

(** ** Bounds *)

Lemma duration_terms_bound fuel d s r :
  0 <= d <= 2 ^ 63 → duration_terms fuel d s = Some r → 0 <= r <= 2 ^ 63.
Proof.
  revert d s. induction fuel as [|fuel IH]; intros d s Hd Hr.
  { destruct s; simpl in Hr; by simplify_eq. }
  destruct s as [|a s]; cbn [duration_terms] in Hr; [by simplify_eq|].
  destruct (duration_term _) as [[v rest]|]; [|done].
  destruct (2 ^ 63 <? wrap64 (d + v)) eqn:Hb; [done|].
  apply (IH (wrap64 (d + v)) rest); [|done].
  pose proof (Z.mod_pos_bound (d + v) (2 ^ 64) eq_refl). unfold wrap64 in *. lia.
Qed.

(** A parsed duration is an [int64]. *)
Lemma ParseDuration_bound s d : ParseDuration s = Some d → - 2 ^ 63 <= d < 2 ^ 63.
Proof.
  unfold ParseDuration. destruct (split_sign s) as [neg t].
  case_bool_decide; [intros; simplify_eq; lia|]. case_bool_decide; [done|].
  destruct (duration_terms _ 0 t) as [r|] eqn:Hr; [|done]. simpl.
  apply duration_terms_bound in Hr; [|lia]. destruct neg; [|case_match; [done|intros; simplify_eq; lia]].
  intros Hd. simplify_eq. unfold wrap_int64.
  pose proof (Z.mod_pos_bound (- r + 2 ^ 63) (2 ^ 64) eq_refl). lia.
Qed.
