(* ===== verification/GoHash.v ===== *)
(** * [crypto/sha256] and [encoding/hex] (FIPS 180-4), on words of 32 bits kept as
    [N] below [2 ^ 32]. *)
From stdpp Require Import strings list numbers.
From Stdlib Require Import Ascii.
From S2P Require Import Prelude.
From S2P Require Import GoStrings.
From stdpp Require Import options.
#[local] Open Scope N_scope.

Definition w32 (x : N) : N := N.land x 0xFFFFFFFF.
Definition rotr32 (k x : N) : N := N.lor (N.shiftr x k) (w32 (N.shiftl x (32 - k))).
Definition add32 (l : list N) : N := w32 (foldr N.add 0 l).

(** The constants are the first 32 bits of the fractional parts of the cube and
    square roots of the first primes. *)
Definition is_prime (n : N) : bool :=
  (1 <? n) && forallb (λ d, negb (n mod N.of_nat d =? 0)) (seq 2 (N.to_nat n - 2)).
Definition primes (below : nat) : list N := filter (λ n, is_prime n = true) (N.of_nat <$> seq 0 below).

(** The integer cube root, bit by bit from bit [k - 1] down. *)
Fixpoint cube_root (k : nat) (root n : N) : N :=
  match k with
  | O => root
  | S k =>
      let root' := root + 2 ^ N.of_nat k in
      cube_root k (if root' * root' * root' <=? n then root' else root) n
  end.

Definition sha_k : list N :=
  Eval vm_compute in
    (λ p, w32 (cube_root 36 0 (N.shiftl p 96))) <$> take 64 (primes 312).

Definition sha_roots : list N :=
  Eval vm_compute in (λ p, w32 (N.sqrt (N.shiftl p 64))) <$> take 8 (primes 20).

Example sha_k_ends : length sha_k = 64%nat ∧ head sha_k = Some 0x428a2f98 ∧
  sha_k !! 63%nat = Some 0xc67178f2.
Proof. split_and!; vm_compute; reflexivity. Qed.

(** The eight words of the state. *)
Record ShaState := mkSha {
  sh_a : N; sh_b : N; sh_c : N; sh_d : N; sh_e : N; sh_f : N; sh_g : N; sh_h : N;
}.
Definition sha_init : ShaState :=
  let root i := default 0 (sha_roots !! i) in
  mkSha (root 0%nat) (root 1%nat) (root 2%nat) (root 3%nat)
    (root 4%nat) (root 5%nat) (root 6%nat) (root 7%nat).

(** The message schedule, newest word first: [n] further words. *)
Fixpoint sha_expand (n : nat) (w : list N) : list N :=
  match n with
  | O => w
  | S n =>
      let at_ i := default 0 (w !! i) in
      let s0 := let x := at_ 14%nat in N.lxor (rotr32 7 x) (N.lxor (rotr32 18 x) (N.shiftr x 3)) in
      let s1 := let x := at_ 1%nat in N.lxor (rotr32 17 x) (N.lxor (rotr32 19 x) (N.shiftr x 10)) in
      sha_expand n (add32 [at_ 15%nat; s0; at_ 6%nat; s1] :: w)
  end.

Definition sha_round (st : ShaState) (kw : N * N) : ShaState :=
  let '(k, w) := kw in
  let '(mkSha a b c d e f g h) := st in
  let s1 := N.lxor (rotr32 6 e) (N.lxor (rotr32 11 e) (rotr32 25 e)) in
  let ch := N.lxor (N.land e f) (N.land (N.lxor e 0xFFFFFFFF) g) in
  let t1 := add32 [h; s1; ch; k; w] in
  let s0 := N.lxor (rotr32 2 a) (N.lxor (rotr32 13 a) (rotr32 22 a)) in
  let maj := N.lxor (N.land a b) (N.lxor (N.land a c) (N.land b c)) in
  let t2 := add32 [s0; maj] in
  mkSha (add32 [t1; t2]) a b c (add32 [d; t1]) e f g.

Definition sha_block (st : ShaState) (words : list N) : ShaState :=
  let r := foldl sha_round st (zip sha_k (rev (sha_expand 48 (rev words)))) in
  mkSha (add32 [sh_a st; sh_a r]) (add32 [sh_b st; sh_b r]) (add32 [sh_c st; sh_c r])
    (add32 [sh_d st; sh_d r]) (add32 [sh_e st; sh_e r]) (add32 [sh_f st; sh_f r])
    (add32 [sh_g st; sh_g r]) (add32 [sh_h st; sh_h r]).

(** Bytes to words and words to bytes, big-endian. *)
Fixpoint sha_words (bytes : list N) : list N :=
  match bytes with
  | a :: b :: c :: d :: rest => (((a * 256 + b) * 256 + c) * 256 + d) :: sha_words rest
  | _ => []
  end.
Definition word_bytes (w : N) : list N :=
  [N.shiftr w 24 mod 256; N.shiftr w 16 mod 256; N.shiftr w 8 mod 256; w mod 256].

(** The padding: a one bit, zeros, the length in bits on 8 bytes. *)
Definition sha_pad (bytes : list N) : list N :=
  let n := N.of_nat (length bytes) in
  let zeros := (119 - n mod 64) mod 64 in
  let bits := (8 * n) mod 2 ^ 64 in
  bytes ++ 0x80 :: replicate (N.to_nat zeros) 0
    ++ word_bytes (N.shiftr bits 32) ++ word_bytes (w32 bits).

Fixpoint sha_blocks (fuel : nat) (st : ShaState) (words : list N) : ShaState :=
  match fuel, words with
  | S fuel, _ :: _ => sha_blocks fuel (sha_block st (take 16 words)) (drop 16 words)
  | _, _ => st
  end.

Fixpoint string_bytes (s : string) : list N :=
  match s with
  | EmptyString => []
  | String a rest => byte_of a :: string_bytes rest
  end.

(** [sha256.Sum256], as 32 bytes. *)
Definition Sum256 (s : string) : list N :=
  let words := sha_words (sha_pad (string_bytes s)) in
  let '(mkSha a b c d e f g h) := sha_blocks (length words) sha_init words in
  [a; b; c; d; e; f; g; h] ≫= word_bytes.

(** [hex.EncodeToString] *)
Definition hex_char (n : N) : ascii := ascii_of_N (if n <? 10 then n + 48 else n + 87).
Fixpoint hex_encode (bytes : list N) : string :=
  match bytes with
  | [] => ""
  | b :: rest => String (hex_char (b / 16)) (String (hex_char (b mod 16)) (hex_encode rest))
  end.

(** The digest of a string in hexadecimal. *)
Definition sha256_hex (s : string) : string := hex_encode (Sum256 s).

Example sha_empty :
  sha256_hex "" = "e3b0c44298fc1c149afbf4c8996fb92427ae41e4649b934ca495991b7852b855".
Proof. vm_compute. reflexivity. Qed.
Example sha_abc :
  sha256_hex "abc" = "ba7816bf8f01cfea414140de5dae2223b00361a396177a9cb410ff61f20015ad".
Proof. vm_compute. reflexivity. Qed.
Example sha_two_blocks :
  sha256_hex "abcdbcdecdefdefgefghfghighijhijkijkljklmklmnlmnomnopnopq" =
  "248d6a61d20638b8e5c026930c3e6039a33ce45964ff2167f6ecedd419db06c1".
Proof. vm_compute. reflexivity. Qed.

(** ** Shape of a digest *)

#[global] Arguments Sum256 : simpl never.
#[global] Arguments sha256_hex : simpl never.

Definition hex_digit (a : ascii) : bool :=
  between 48 57 (byte_of a) || between 97 102 (byte_of a).

Fixpoint all_hex (s : string) : bool :=
  match s with EmptyString => true | String a rest => hex_digit a && all_hex rest end.

Lemma hex_char_digit n : n < 16 → hex_digit (hex_char n) = true.
Proof.
  intros Hn. assert (N.to_nat n < 16)%nat as Hlt by lia. rewrite <-(N2Nat.id n).
  generalize (N.to_nat n), Hlt. clear. intros k Hk.
  do 16 (destruct k as [|k]; [vm_compute; reflexivity|]). lia.
Qed.

Lemma hex_encode_digits bytes :
  Forall (λ b, b < 256) bytes → all_hex (hex_encode bytes) = true ∧
    String.length (hex_encode bytes) = (2 * length bytes)%nat.
Proof.
  induction 1 as [|b bytes Hb _ [IH1 IH2]]; [done|]. cbn [hex_encode all_hex String.length length].
  assert (b / 16 < 16) by (apply N.Div0.div_lt_upper_bound; lia).
  assert (b mod 16 < 16) by (apply N.mod_lt; lia).
  rewrite !hex_char_digit by done. rewrite IH1, IH2. split; [done|lia].
Qed.

Lemma word_bytes_bound w : Forall (λ b, b < 256) (word_bytes w).
Proof. repeat constructor; by apply N.mod_lt. Qed.

Lemma Sum256_bytes s : length (Sum256 s) = 32%nat ∧ Forall (λ b, b < 256) (Sum256 s).
Proof.
  unfold Sum256. destruct (sha_blocks _ _ _) as [a b c d e f g h]. split; [done|].
  apply Forall_bind, Forall_true. intros w. apply word_bytes_bound.
Qed.
