(* ===== verification/GoCodec.v ===== *)
(** * [encoding/base64] and [net/http]'s header maps, as the program uses them. *)
From stdpp Require Import strings list gmap.
From Stdlib Require Import Ascii.
From S2P Require Import Prelude.
From S2P Require Import GoStrings.
From stdpp Require Import options.

(** ** [base64.StdEncoding] *)

Definition b64_alphabet : list ascii :=
  String.list_ascii_of_string "ABCDEFGHIJKLMNOPQRSTUVWXYZabcdefghijklmnopqrstuvwxyz0123456789+/".

Definition b64_char (n : N) : ascii := default "A"%char (b64_alphabet !! N.to_nat n).

Definition b64_index (a : ascii) : option N :=
  let x := byte_of a in
  if between 65 90 x then Some (x - 65)%N
  else if between 97 122 x then Some (x - 71)%N
  else if between 48 57 x then Some (x + 4)%N
  else if (x =? 43)%N then Some 62%N
  else if (x =? 47)%N then Some 63%N
  else None.

(** [EncodeToString] *)
Fixpoint b64_encode (s : string) : string :=
  match s with
  | EmptyString => ""
  | String a EmptyString =>
      let x := byte_of a in
      String (b64_char (x / 4)) (String (b64_char ((x mod 4) * 16)) "==")
  | String a (String b EmptyString) =>
      let x := byte_of a in let y := byte_of b in
      String (b64_char (x / 4)) (String (b64_char ((x mod 4) * 16 + y / 16))
        (String (b64_char ((y mod 16) * 4)) "="))
  | String a (String b (String c rest)) =>
      let x := byte_of a in let y := byte_of b in let z := byte_of c in
      String (b64_char (x / 4)) (String (b64_char ((x mod 4) * 16 + y / 16))
        (String (b64_char ((y mod 16) * 4 + z / 64)) (String (b64_char (z mod 64))
          (b64_encode rest))))
  end.

(** [DecodeString] ignores line breaks; it accepts padding only where a quantum
    needs it, at the very end; it does not check that the bits it drops are 0. *)
Fixpoint drop_newlines (s : string) : string :=
  match s with
  | EmptyString => ""
  | String a rest =>
      if (byte_of a =? 10)%N || (byte_of a =? 13)%N then drop_newlines rest
      else String a (drop_newlines rest)
  end.

Definition byte (n : N) : ascii := ascii_of_N n.

(** The quanta of four characters; the last one is shorter, or padded. [idx] is
    the alphabet, [padded] whether the encoding uses [=]. *)
Fixpoint b64_quanta (idx : ascii → option N) (padded : bool) (s : string) : option string :=
  match s with
  | EmptyString => Some ""
  | String a (String b (String c (String d rest))) =>
      x ← idx a; y ← idx b;
      let first := byte (x * 4 + y / 16) in
      match idx c, idx d with
      | Some z, Some t =>
          tail ← b64_quanta idx padded rest;
          Some (String first (String (byte ((y mod 16) * 16 + z / 4))
            (String (byte ((z mod 4) * 64 + t)) tail)))
      | Some z, None =>
          if decide (padded = true ∧ d = "="%char ∧ rest = "")
          then Some (String first (String (byte ((y mod 16) * 16 + z / 4)) "")) else None
      | None, _ =>
          if decide (padded = true ∧ c = "="%char ∧ d = "="%char ∧ rest = "")
          then Some (String first "") else None
      end
  | String a (String b (String c EmptyString)) =>
      if padded then None
      else
        x ← idx a; y ← idx b; z ← idx c;
        Some (String (byte (x * 4 + y / 16)) (String (byte ((y mod 16) * 16 + z / 4)) ""))
  | String a (String b EmptyString) =>
      if padded then None
      else x ← idx a; y ← idx b; Some (String (byte (x * 4 + y / 16)) "")
  | String _ EmptyString => None
  end.

(** The encodings [StdEncoding], [RawStdEncoding], [URLEncoding] and
    [RawURLEncoding]. *)
Definition b64_index_url (a : ascii) : option N :=
  let x := byte_of a in
  if (x =? 45)%N then Some 62%N
  else if (x =? 95)%N then Some 63%N
  else if ((x =? 43) || (x =? 47))%N then None
  else b64_index a.

Definition b64_decode (s : string) : option string :=
  b64_quanta b64_index true (drop_newlines s).
Definition b64_decode_raw (s : string) : option string :=
  b64_quanta b64_index false (drop_newlines s).
Definition b64_decode_url (s : string) : option string :=
  b64_quanta b64_index_url true (drop_newlines s).
Definition b64_decode_rawurl (s : string) : option string :=
  b64_quanta b64_index_url false (drop_newlines s).

Example b64_variants_ex : b64_decode_raw "YWI" = Some "ab" ∧ b64_decode_raw "YWI=" = None ∧
  b64_decode_url "_-8=" = b64_decode "/+8=" ∧ b64_decode_url "/+8=" = None ∧
  b64_decode_rawurl "_w" = b64_decode "/w==".
Proof. split_and!; vm_compute; reflexivity. Qed.

Example b64_ex1 : b64_encode "user:pass" = "dXNlcjpwYXNz" ∧ b64_encode "a" = "YQ==" ∧
  b64_decode "dXNlcjpwYXNz" = Some "user:pass" ∧ b64_decode "YWI=" = Some "ab" ∧
  b64_decode "YQ=" = None ∧ b64_decode "YQ==x" = None.
Proof. split_and!; vm_compute; reflexivity. Qed.

Lemma b64_index_char n : (n < 64)%N → b64_index (b64_char n) = Some n.
Proof.
  intros Hn. assert (N.to_nat n < 64) as Hlt by lia. rewrite <-(N2Nat.id n).
  generalize (N.to_nat n), Hlt. clear. intros k Hk.
  do 64 (destruct k as [|k]; [vm_compute; reflexivity|]). lia.
Qed.

Lemma b64_char_plain n : (n < 64)%N →
  (byte_of (b64_char n) =? 10)%N || (byte_of (b64_char n) =? 13)%N = false.
Proof.
  intros Hn. assert (N.to_nat n < 64) as Hlt by lia. rewrite <-(N2Nat.id n).
  generalize (N.to_nat n), Hlt. clear. intros k Hk.
  do 64 (destruct k as [|k]; [vm_compute; reflexivity|]). lia.
Qed.

Lemma byte_byte_of n a : n = byte_of a → byte n = a.
Proof. intros ->. apply ascii_N_embedding. Qed.

(** Decoding arithmetic in euclidean form. *)
#[local] Ltac Zify.zify_post_hook ::= Z.to_euclidean_division_equations.

Lemma b64_roundtrip_quanta (n : nat) (s : string) :
  String.length s ≤ n → drop_newlines (b64_encode s) = b64_encode s ∧
    b64_quanta b64_index true (b64_encode s) = Some s.
Proof.
  revert s. induction n as [|n IH]; intros s Hlen.
  { destruct s; [done|simpl in Hlen; lia]. }
  destruct s as [|a [|b [|c rest]]]; [done|..]; cbn [b64_encode].
  - pose proof (byte_of_lt a). cbn [drop_newlines].
    rewrite !b64_char_plain by lia. split; [done|]. cbn [b64_quanta].
    rewrite !b64_index_char by lia. simpl. do 2 f_equal. apply byte_byte_of. lia.
  - pose proof (byte_of_lt a). pose proof (byte_of_lt b). cbn [drop_newlines].
    rewrite !b64_char_plain by lia. split; [done|]. cbn [b64_quanta].
    rewrite !b64_index_char by lia. simpl. do 2 f_equal; [|f_equal]; apply byte_byte_of; lia.
  - pose proof (byte_of_lt a). pose proof (byte_of_lt b). pose proof (byte_of_lt c).
    destruct (IH rest) as [Hd Hq]; [simpl in Hlen; lia|]. cbn [drop_newlines].
    rewrite !b64_char_plain by lia. rewrite Hd. split; [done|]. cbn [b64_quanta].
    rewrite !b64_index_char by lia. simpl. rewrite Hq. simpl.
    do 2 f_equal; [|f_equal; [|f_equal]]; apply byte_byte_of; lia.
Qed.

Lemma b64_roundtrip s : b64_decode (b64_encode s) = Some s.
Proof.
  destruct (b64_roundtrip_quanta (String.length s) s) as [Hd Hq]; [done|].
  unfold b64_decode. by rewrite Hd.
Qed.

(** ** [http.Header] *)

Abbreviation Header := (gmap string (list string)) (only parsing).

(** [textproto.CanonicalMIMEHeaderKey]: words in capitals, unless some byte is
    not allowed in a field name. *)
Definition token_byte (a : ascii) : bool :=
  let x := byte_of a in
  between 48 57 x || between 65 90 x || between 97 122 x ||
  bool_decide (a ∈ String.list_ascii_of_string "!#$%&'*+-.^_`|~").


Definition upper1 (a : ascii) : ascii :=
  if between 97 122 (byte_of a) then ascii_of_N (byte_of a - 32) else a.

Fixpoint canonical_go (upper : bool) (s : string) : string :=
  match s with
  | EmptyString => ""
  | String a rest =>
      String (if upper then upper1 a else lower1 a) (canonical_go (bool_decide (a = "-"%char)) rest)
  end.

Definition CanonicalHeaderKey (s : string) : string :=
  if all_bytes token_byte s then canonical_go true s else s.

Definition header_Get (key : string) (h : Header) : string :=
  match h !! CanonicalHeaderKey key with Some (v :: _) => v | _ => "" end.
Definition header_Del (key : string) (h : Header) : Header := delete (CanonicalHeaderKey key) h.
Definition header_Set (key value : string) (h : Header) : Header :=
  <[CanonicalHeaderKey key := [value]]> h.
Definition header_Add (key value : string) (h : Header) : Header :=
  <[CanonicalHeaderKey key := default [] (h !! CanonicalHeaderKey key) ++ [value]]> h.

Example canonical_ex : CanonicalHeaderKey "proxy-CONNECTION" = "Proxy-Connection" ∧
  CanonicalHeaderKey "a b" = "a b".
Proof. split; vm_compute; reflexivity. Qed.
