(* ===== verification/NetUrl.v ===== *)
(** * net/url: the parsed form of a URL, and what the program reads off it.

    The parser itself is the standard library's and stays a parameter. *)
From stdpp Require Import gmap strings list.
From Stdlib Require Import Ascii.
From S2P Require Import Prelude.
From S2P Require Import GoStrings.
From stdpp Require Import options.

(** [url_User] is the user name and, if there is one, the password. *)
Record URL := mkURL {
  url_Scheme : string;
  url_User : option (string * option string);
  url_Host : string;
  url_Path : string;
  url_RawQuery : string;
  url_Fragment : string;
}.

(** [url.Parse], [URL.String], and [url.ParseQuery] without the pairs it cannot
    read. *)
Class NetUrl := {
  url_Parse : string → option URL;
  url_String : URL → string;
  url_ParseQuery : string → gmap string (list string);
}.

(** [u.Query().Get(key)] *)
Definition query_Get `{NetUrl} (u : URL) (key : string) : string :=
  default "" (url_ParseQuery (url_RawQuery u) !! key ≫= head).

(** [validOptionalPort] of net/url. *)
Fixpoint all_digits (s : string) : bool :=
  match s with
  | EmptyString => true
  | String a rest => between 48 57 (byte_of a) && all_digits rest
  end.
Definition valid_optional_port (s : string) : bool :=
  match s with
  | EmptyString => true
  | String a rest => Ascii.eqb a ":" && all_digits rest
  end.

(** The text before and after the last colon. *)
Fixpoint cut_last_colon (s : string) : option (string * string) :=
  match s with
  | EmptyString => None
  | String a rest =>
      match cut_last_colon rest with
      | Some (before, after) => Some (String a before, after)
      | None => if Ascii.eqb a ":" then Some ("", rest) else None
      end
  end.

Fixpoint drop_last_bracket (s : string) : option string :=
  match s with
  | EmptyString => None
  | String a EmptyString => if Ascii.eqb a "]" then Some "" else None
  | String a rest => String a <$> drop_last_bracket rest
  end.

Definition strip_brackets (host : string) : string :=
  match host with
  | String a rest =>
      if Ascii.eqb a "[" then default host (drop_last_bracket rest) else host
  | EmptyString => host
  end.

(** [splitHostPort]: [u.Hostname()] and [u.Port()]. *)
Definition split_host_port (hostPort : string) : string * string :=
  match cut_last_colon hostPort with
  | Some (host, port) =>
      if all_digits port then (strip_brackets host, port) else (strip_brackets hostPort, "")
  | None => (strip_brackets hostPort, "")
  end.
Definition Hostname (u : URL) : string := (split_host_port (url_Host u)).1.
Definition Port (u : URL) : string := (split_host_port (url_Host u)).2.

Example split_host_port_ex :
  split_host_port "example.com:443" = ("example.com", "443") ∧
  split_host_port "[::1]:80" = ("::1", "80") ∧ split_host_port "[::1]" = ("::1", "") ∧
  split_host_port "h:x" = ("h:x", "") ∧ split_host_port "h:" = ("h", "").
Proof. split_and!; vm_compute; reflexivity. Qed.

(** [net.ParseIP(s).To4() != nil] for a text without colons: a dotted-decimal
    address. *)
Definition octet (s : string) : option Z :=
  match s with
  | EmptyString => None
  | String a rest =>
      if all_digits s then
        if Ascii.eqb a "0" && bool_decide (rest ≠ "") then None
        else n ← Atoi s; if (n <=? 255)%Z then Some n else None
      else None
  end.
Definition ParseIPv4 (s : string) : option (Z * Z * Z * Z) :=
  match Split s "." with
  | [a; b; c; d] => a ← octet a; b ← octet b; c ← octet c; d ← octet d; Some (a, b, c, d)
  | _ => None
  end.

Example parse_ipv4_ex :
  ParseIPv4 "10.0.255.1" = Some (10, 0, 255, 1)%Z ∧ ParseIPv4 "10.00.1.1" = None ∧
  ParseIPv4 "1.2.3" = None ∧ ParseIPv4 "1.2.3.256" = None ∧ ParseIPv4 "1.2.3.4.5" = None ∧
  ParseIPv4 "1..3.4" = None.
Proof. split_and!; vm_compute; reflexivity. Qed.

(** ** Escaping *)

(** [escape]: every byte but those a mode keeps is written as its number. *)
Definition hex_digit (n : N) : ascii :=
  if (n <? 10)%N then ascii_of_N (48 + n) else ascii_of_N (55 + n).
Fixpoint url_escape (keep : ascii → bool) (s : string) : string :=
  match s with
  | EmptyString => ""
  | String a rest =>
      if keep a then String a (url_escape keep rest)
      else String "%" (String (hex_digit (byte_of a / 16)) (String (hex_digit (byte_of a mod 16))
             (url_escape keep rest)))
  end.

(** [url.PathEscape] *)
Definition segment_byte (a : ascii) : bool :=
  let x := byte_of a in
  between 48 57 x || between 65 90 x || between 97 122 x ||
  bool_decide (a ∈ String.list_ascii_of_string "-_.~$&+:=@").
Definition PathEscape (s : string) : string := url_escape segment_byte s.

Definition hex_digit_value (a : ascii) : option N :=
  let n := byte_of a in
  if between 48 57 n then Some (n - 48)%N
  else if between 97 102 n then Some (n - 87)%N
  else if between 65 70 n then Some (n - 55)%N
  else None.

(** [url.PathUnescape], what a server reads a segment with. *)
Fixpoint PathUnescape (s : string) : option string :=
  match s with
  | EmptyString => Some ""
  | String "%" (String a (String b rest)) =>
      hi ← hex_digit_value a; lo ← hex_digit_value b;
      String (ascii_of_N (16 * hi + lo)) <$> PathUnescape rest
  | String "%" _ => None
  | String a rest => String a <$> PathUnescape rest
  end.

Lemma hex_digit_value_digit n : (n < 16)%N → hex_digit_value (hex_digit n) = Some n.
Proof.
  intros Hn. rewrite <-(N2Nat.id n). assert (N.to_nat n < 16) as Hlt by lia. revert Hlt.
  generalize (N.to_nat n). clear. intros k Hk.
  do 16 (destruct k as [|k]; [reflexivity|]). lia.
Qed.

(** Escaping loses nothing. *)
Lemma unescape_escape keep s : keep "%"%char = false → PathUnescape (url_escape keep s) = Some s.
Proof.
  intros Hkeep. induction s as [|a s IH]; [done|]. cbn [url_escape].
  destruct (keep a) eqn:Ha.
  - assert (a ≠ "%"%char) as Hne by congruence.
    transitivity (String a <$> PathUnescape (url_escape keep s)); [|by rewrite IH].
    destruct a as [[] [] [] [] [] [] [] []]; try reflexivity. by destruct Hne.
  - pose proof (byte_of_lt a) as Hlt. cbn [PathUnescape].
    rewrite !hex_digit_value_digit by (apply N.mod_lt || apply N.Div0.div_lt_upper_bound; lia).
    simpl. rewrite IH. simpl. f_equal. f_equal.
    rewrite <-N.div_mod by lia. apply ascii_N_embedding.
Qed.

(** An escaped text has only the bytes its mode keeps, and those of escapes. *)
Lemma escape_bytes (keep p : ascii → bool) s :
  (∀ a, keep a = true → p a = true) → p "%"%char = true → (∀ n, (n < 16)%N → p (hex_digit n) = true) →
  all_bytes p (url_escape keep s) = true.
Proof.
  intros Hkeep Hpct Hhex. induction s as [|a s IH]; [done|]. cbn [url_escape].
  pose proof (byte_of_lt a) as Hlt. destruct (keep a) eqn:Ha; cbn [all_bytes].
  - by rewrite Hkeep, IH.
  - rewrite Hpct, !Hhex, IH; [done| |].
    + apply N.mod_lt. lia.
    + apply N.Div0.div_lt_upper_bound. lia.
Qed.

(** A segment of a path stays one: no byte of it ends the segment or the path. *)
Lemma segment_plain s :
  all_bytes (λ a, negb (bool_decide (a ∈ String.list_ascii_of_string "/?# "))) (PathEscape s) = true.
Proof.
  apply escape_bytes; [|done|].
  - intros a. destruct a as [[] [] [] [] [] [] [] []]; vm_compute; congruence.
  - intros n Hn. rewrite <-(N2Nat.id n). assert (N.to_nat n < 16) as Hlt by lia. revert Hlt.
    generalize (N.to_nat n). intros k Hk. do 16 (destruct k as [|k]; [vm_compute; reflexivity|]). lia.
Qed.
