(* ===== verification/GoHttp.v ===== *)
(** * net/http: the response writer, requests and responses of a client, and the
    routes of a [ServeMux]. *)
From stdpp Require Import gmap strings list.
From Stdlib Require Import Ascii.
From S2P Require Import Prelude.
From S2P Require Import GoBase.
From S2P Require Import GoStrings.
From S2P Require Import GoCodec.
From S2P Require Import NetUrl.
From stdpp Require Import options.

(** ** [http.ResponseWriter] *)

(** A response as far as it was written; the first status counts. *)
Record ResponseWriter := mkRW {
  rw_Header : Header;
  rw_Status : option Z;
  rw_Body : string;
}.

Definition set_header (h : Header) (rw : ResponseWriter) : ResponseWriter :=
  mkRW h (rw_Status rw) (rw_Body rw).

(** [http.Error] *)
Definition http_Error (msg : string) (code : Z) (rw : ResponseWriter) : ResponseWriter :=
  let h := header_Del "Content-Length" (rw_Header rw) in
  let h := header_Set "Content-Type" "text/plain; charset=utf-8" h in
  let h := header_Set "X-Content-Type-Options" "nosniff" h in
  mkRW h (Some (default code (rw_Status rw))) (rw_Body rw +:+ msg +:+ String "010" "").

(** [WriteHeader], and [Write], which sends a status of 200 if there is none yet. *)
Definition write_header (code : Z) (rw : ResponseWriter) : ResponseWriter :=
  mkRW (rw_Header rw) (Some (default code (rw_Status rw))) (rw_Body rw).
Definition write_body (text : string) (rw : ResponseWriter) : ResponseWriter :=
  mkRW (rw_Header rw) (Some (default 200%Z (rw_Status rw))) (rw_Body rw +:+ text).

(** The status the client sees: a handler that returns without writing sends 200. *)
Definition sent_status (rw : ResponseWriter) : Z := default 200%Z (rw_Status rw).

(** ** The client's side *)

Record FetchRequest := mkFetchRequest { fr_URL : URL; fr_Header : Header }.

(** [resp_Redirect] is where [http.Client] is sent next, if anywhere: the resolved
    [Location], or the error it makes of it; [resp_ReadError] is what reading the body
    ends with after [resp_Body], if not the end of file. *)
Record FetchResponse := mkFetchResponse {
  resp_StatusCode : Z;
  resp_ContentLength : Z;
  resp_Header : Header;
  resp_Body : string;
  resp_ReadError : option GoError;
  resp_Redirect : option (GoError + URL);
}.

(** What [http.Client] sends of a request: credentials in its URL become an Authorization
    header, unless it has one. The request itself stays as it is. *)
Definition basic_auth (user : string * option string) : string :=
  "Basic " +:+ b64_encode (user.1 +:+ ":" +:+ default "" user.2).
Definition wire_request (request : FetchRequest) : FetchRequest :=
  match url_User (fr_URL request) with
  | Some user =>
      if decide (header_Get "Authorization" (fr_Header request) = "")
      then mkFetchRequest (fr_URL request)
             (header_Set "Authorization" (basic_auth user) (fr_Header request))
      else request
  | None => request
  end.

(** [io.ReadAll(io.LimitReader(body, limit))] *)
Definition read_body (limit : Z) (response : FetchResponse) : GoError + string :=
  if (limit <=? Z.of_nat (String.length (resp_Body response)))%Z
  then inr (String.substring 0 (Z.to_nat limit) (resp_Body response))
  else match resp_ReadError response with Some err => inl err | None => inr (resp_Body response) end.

(** [client.Do] of a GET where [CheckRedirect] returns [ErrUseLastResponse]: a redirect
    is not followed, its response is the result. *)
Definition Do_unredirected {W : Type} (get : string → W → W * (GoError + FetchResponse))
    (url : string) (w : W) : W * (GoError + FetchResponse) :=
  match get url w with
  | (w', inl err) => (w', inl err)
  | (w', inr response) =>
      match resp_Redirect response with
      | Some (inl err) => (w', inl err)
      | _ => (w', inr response)
      end
  end.

(** ** [http.ServeMux] *)

(** [path.Clean] of a rooted path: its segments, innermost first. *)
Definition clean_segment (segments : list string) (segment : string) : list string :=
  if decide (segment = "" ∨ segment = ".") then segments
  else if decide (segment = "..") then tail segments
  else segment :: segments.

(** [cleanPath] of net/http keeps a slash at the end. *)
Definition clean_path (path : string) : string :=
  let segments := rev (foldl clean_segment [] (Split path "/")) in
  let np := "/" +:+ Join segments "/" in
  if HasPrefix (String.rev path) "/" && negb (bool_decide (np = "/")) then np +:+ "/" else np.

Example clean_path_ex :
  clean_path "" = "/" ∧ clean_path "//healthz" = "/healthz" ∧ clean_path "/a/../status" = "/status" ∧
  clean_path "/status/" = "/status/" ∧ clean_path "refresh" = "/refresh" ∧ clean_path "/../." = "/".
Proof. split_and!; vm_compute; reflexivity. Qed.

(** A pattern: a method and a path of literal segments. [GET] matches [HEAD] too. *)
Record Route (A : Type) := mkRoute { rt_Method : string; rt_Path : string; rt_Handler : A }.
Arguments mkRoute {_}. Arguments rt_Method {_}. Arguments rt_Path {_}. Arguments rt_Handler {_}.

Definition method_matches (pattern method : string) : bool :=
  bool_decide (pattern = method) || bool_decide (pattern = "GET") && bool_decide (method = "HEAD").
Definition route_methods {A} (route : Route A) : list string :=
  if decide (rt_Method route = "GET") then ["GET"; "HEAD"] else [rt_Method route].

(** What a request is answered by. *)
Inductive Routed (A : Type) :=
  | ToHandler (h : A)
  | ToPath (path : string)
  | NotAllowed (methods : list string)
  | NotFound.
Arguments ToHandler {_}. Arguments ToPath {_}. Arguments NotAllowed {_}. Arguments NotFound {_}.

(** [mux.findHandler] for patterns without wildcards, hosts and final slashes; the
    path of a [CONNECT] is taken as it is. *)
Definition mux_route {A} (routes : list (Route A)) (method path : string) : Routed A :=
  if negb (bool_decide (method = "CONNECT")) && negb (bool_decide (clean_path path = path))
  then ToPath (clean_path path)
  else
    let here := filter (λ route, rt_Path route = path) routes in
    match filter (λ route, method_matches (rt_Method route) method = true) here with
    | route :: _ => ToHandler (rt_Handler route)
    | [] =>
        match sort_strings (here ≫= route_methods) with
        | [] => NotFound
        | methods => NotAllowed methods
        end
    end.

(** A handler only gets the requests of its route. *)
Lemma mux_route_handler {A} (routes : list (Route A)) method path h :
  mux_route routes method path = ToHandler h →
  ∃ route, route ∈ routes ∧ rt_Path route = path ∧
    method_matches (rt_Method route) method = true ∧ rt_Handler route = h.
Proof.
  unfold mux_route. destruct (negb _ && negb _); [done|].
  destruct (filter (λ route, method_matches _ _ = true) _) as [|route routes'] eqn:Hf.
  - by destruct (sort_strings _).
  - intros ?. simplify_eq. exists route.
    assert (route ∈ filter (λ route, method_matches (rt_Method route) method = true)
      (filter (λ route, rt_Path route = path) routes)) as Hin by (rewrite Hf; by left).
    rewrite !list_elem_of_filter in Hin. naive_solver.
Qed.

Lemma http_Error_status msg code rw : rw_Status rw = None → rw_Status (http_Error msg code rw) = Some code.
Proof. intros Hrw. unfold http_Error. cbn. by rewrite Hrw. Qed.
