(* ===== verification/GoNet.v ===== *)
(** * The functions of package net the program calls: [ParseIP], [SplitHostPort]
    and [JoinHostPort]. *)
From stdpp Require Import strings list numbers.
From Stdlib Require Import Ascii.
From S2P Require Import Prelude.
From S2P Require Import GoBase.
From S2P Require Import GoStrings.
From S2P Require Import NetUrl.
From stdpp Require Import options.

(** ** [net.ParseIP] *)

(** A [net.IP] of sixteen bytes, as eight groups of sixteen bits. *)
Abbreviation IP := (list Z) (only parsing).

Definition hex_value (a : ascii) : option Z :=
  let n := byte_of a in
  if between 48 57 n then Some (Z.of_N n - 48)%Z
  else if between 97 102 n then Some (Z.of_N n - 87)%Z
  else if between 65 70 n then Some (Z.of_N n - 55)%Z
  else None.

(** The hexadecimal digits at the front: how many, their value, the rest. *)
Fixpoint hex_group (count : nat) (acc : Z) (s : string) : nat * Z * string :=
  match s with
  | String a rest =>
      match hex_value a with
      | Some d => hex_group (S count) (acc * 16 + d)%Z rest
      | None => (count, acc, s)
      end
  | EmptyString => (count, acc, s)
  end.

(** The loop of [netip.parseIPv6]: [groups] in reverse, [ellipsis] the number of
    groups before [::]. *)
Fixpoint v6_groups (fuel : nat) (groups : list Z) (ellipsis : option nat) (s : string)
    : option (list Z * option nat) :=
  match fuel with
  | 0 => if decide (s = "") then Some (groups, ellipsis) else None
  | S fuel =>
      let '(count, acc, rest) := hex_group 0 0 s in
      if bool_decide (count = 0) || bool_decide (4 < count) then None
      else
        match rest with
        | EmptyString => Some (acc :: groups, ellipsis)
        | String "." _ =>
            if bool_decide (ellipsis = None) && negb (bool_decide (length groups = 6)) then None
            else if bool_decide (6 < length groups) then None
            else
              match ParseIPv4 s with
              | Some (a, b, c, d) => Some ((c * 256 + d)%Z :: (a * 256 + b)%Z :: groups, ellipsis)
              | None => None
              end
        | String ":" EmptyString => None
        | String ":" (String ":" rest) =>
            if bool_decide (is_Some ellipsis) then None
            else if decide (rest = "") then Some (acc :: groups, Some (S (length groups)))
            else v6_groups fuel (acc :: groups) (Some (S (length groups))) rest
        | String ":" rest => v6_groups fuel (acc :: groups) ellipsis rest
        | _ => None
        end
  end.

(** The groups [::] stands for. *)
Definition expand (groups : list Z) (ellipsis : option nat) : option IP :=
  match ellipsis with
  | None => if decide (length groups = 8) then Some groups else None
  | Some n =>
      if decide (length groups < 8)
      then Some (take n groups ++ replicate (8 - length groups) 0%Z ++ drop n groups)
      else None
  end.

Definition ParseIPv6 (s : string) : option IP :=
  let start :=
    match s with
    | String ":" (String ":" EmptyString) => Some ([], Some 0)
    | String ":" (String ":" rest) => v6_groups 8 [] (Some 0) rest
    | _ => v6_groups 8 [] None s
    end in
  '(groups, ellipsis) ← start; expand (rev groups) ellipsis.

(** An address is of the kind its first point or colon tells; one with a zone is
    refused. *)
Fixpoint first_mark (s : string) : option ascii :=
  match s with
  | EmptyString => None
  | String a rest =>
      if Ascii.eqb a "." || Ascii.eqb a ":" || Ascii.eqb a "%" then Some a else first_mark rest
  end.

Definition ParseIP (s : string) : option IP :=
  match first_mark s with
  | Some "."%char =>
      '(a, b, c, d) ← ParseIPv4 s;
      Some [0; 0; 0; 0; 0; 65535; a * 256 + b; c * 256 + d]%Z
  | Some ":"%char => if ContainsByte s "%" then None else ParseIPv6 s
  | _ => None
  end.

(** [ip.IsLoopback()]: 127.0.0.0/8, mapped or not, and ::1. *)
Definition IsLoopback (ip : IP) : bool :=
  match ip with
  | [0; 0; 0; 0; 0; 65535; hi; _]%Z => (hi / 256 =? 127)%Z
  | _ => bool_decide (ip = [0; 0; 0; 0; 0; 0; 0; 1]%Z)
  end.

Example parse_ip_ex :
  ParseIP "127.0.0.1" = Some [0; 0; 0; 0; 0; 65535; 32512; 1]%Z ∧
  ParseIP "::1" = Some [0; 0; 0; 0; 0; 0; 0; 1]%Z ∧ ParseIP "::" = Some (replicate 8 0%Z) ∧
  ParseIP "2001:db8::8:800:200c:417a" = Some [8193; 3512; 0; 0; 8; 2048; 8204; 16762]%Z ∧
  ParseIP "::ffff:10.0.0.1" = Some [0; 0; 0; 0; 0; 65535; 2560; 1]%Z ∧
  ParseIP "1:2:3:4:5:6:7:8" = Some [1; 2; 3; 4; 5; 6; 7; 8]%Z ∧
  ParseIP "1:2:3:4:5:6:7::" = Some [1; 2; 3; 4; 5; 6; 7; 0]%Z ∧
  ParseIP "1:2:3:4:5:6:7:8::" = None ∧ ParseIP "1::2::3" = None ∧ ParseIP "12345::" = None ∧
  ParseIP "fe80::1%eth0" = None ∧ ParseIP "1:2:3:4:5:6:7" = None ∧ ParseIP "localhost" = None ∧
  ParseIP "1:" = None ∧ ParseIP "1:2:3:4:5:6:7:8:9" = None.
Proof. split_and!; vm_compute; reflexivity. Qed.

Example loopback_ex :
  (IsLoopback <$> ParseIP "127.9.9.9") = Some true ∧ (IsLoopback <$> ParseIP "::ffff:127.0.0.1") = Some true ∧
  (IsLoopback <$> ParseIP "::1") = Some true ∧ (IsLoopback <$> ParseIP "10.0.0.1") = Some false ∧
  (IsLoopback <$> ParseIP "::") = Some false.
Proof. split_and!; vm_compute; reflexivity. Qed.

(** ** Hosts and ports *)

(** [net.AddrError], a [net.Error]. *)
Definition addr_error (addr why : string) : GoError :=
  ErrNet (if decide (addr = "") then why else "address " +:+ addr +:+ ": " +:+ why).

Definition missing_port : string := "missing port in address".
Definition too_many_colons : string := "too many colons in address".

(** The last checks: no bracket where none is expected. *)
Definition check_brackets (hostport opening closing : string) (result : string * string)
    : GoError + (string * string) :=
  if ContainsByte opening "[" then inl (addr_error hostport "unexpected '[' in address")
  else if ContainsByte closing "]" then inl (addr_error hostport "unexpected ']' in address")
  else inr result.

(** [net.SplitHostPort] *)
Definition SplitHostPort (hostport : string) : GoError + (string * string) :=
  match cut_last_colon hostport with
  | None => inl (addr_error hostport missing_port)
  | Some (before, port) =>
      match hostport with
      | String "[" rest =>
          let '(host, after, found) := Cut rest "]" in
          if negb found then inl (addr_error hostport "missing ']' in address")
          else if decide (before = String "[" (host +:+ "]"))
          then check_brackets hostport rest after (host, port)
          else
            match after with
            | String ":" _ => inl (addr_error hostport too_many_colons)
            | _ => inl (addr_error hostport missing_port)
            end
      | _ =>
          if ContainsByte before ":" then inl (addr_error hostport too_many_colons)
          else check_brackets hostport hostport hostport (before, port)
      end
  end.

(** [net.JoinHostPort]: a host with a colon is put in brackets. *)
Definition JoinHostPort (host port : string) : string :=
  if ContainsByte host ":" then "[" +:+ host +:+ "]:" +:+ port else host +:+ ":" +:+ port.

Example split_host_ex :
  SplitHostPort "127.0.0.1:80" = inr ("127.0.0.1", "80") ∧ SplitHostPort "[::1]:80" = inr ("::1", "80") ∧
  SplitHostPort "::1:80" = inl (ErrNet "address ::1:80: too many colons in address") ∧
  SplitHostPort "localhost" = inl (ErrNet "address localhost: missing port in address") ∧
  SplitHostPort ":80" = inr ("", "80") ∧ SplitHostPort "[::1]" = inl (addr_error "[::1]" missing_port) ∧
  SplitHostPort "[a]b:1" = inl (addr_error "[a]b:1" missing_port) ∧
  SplitHostPort "[a]:1:2" = inl (addr_error "[a]:1:2" too_many_colons) ∧
  JoinHostPort "::1" "80" = "[::1]:80".
Proof. split_and!; vm_compute; reflexivity. Qed.

(** ** Addresses of the machine *)

(** [ip.To4() != nil] and [ip.IsLinkLocalUnicast()]: 169.254.0.0/16 and fe80::/10. *)
Definition is_v4 (ip : IP) : bool :=
  match ip with [0; 0; 0; 0; 0; 65535; _; _]%Z => true | _ => false end.
Definition IsLinkLocalUnicast (ip : IP) : bool :=
  match ip with
  | [0; 0; 0; 0; 0; 65535; hi; _]%Z => (hi =? 43518)%Z
  | group :: _ => (group / 64 =? 1018)%Z
  | [] => false
  end.

(** [ip.String()] of an address of four bytes. *)
Definition dotted (a b c d : Z) : string :=
  Itoa a +:+ String "." (Itoa b +:+ String "." (Itoa c +:+ String "." (Itoa d))).
Definition IPv4_String (ip : IP) : string :=
  match ip with
  | [_; _; _; _; _; _; hi; lo] => dotted (hi / 256) (hi mod 256) (lo / 256) (lo mod 256)
  | _ => "<nil>"
  end.

Definition is_octet (n : Z) : Prop := (0 ≤ n < 256)%Z.

Lemma octet_digits n :
  is_octet n → octet (Itoa n) = Some n ∧ without "." (Itoa n) = true ∧ all_digits (Itoa n) = true.
Proof.
  intros Hn. assert (Forall (λ k, octet (Itoa (Z.of_nat k)) = Some (Z.of_nat k) ∧
    without "." (Itoa (Z.of_nat k)) = true ∧ all_digits (Itoa (Z.of_nat k)) = true) (seq 0 256)) as Hall.
  { apply (bool_decide_unpack _). vm_compute. exact I. }
  rewrite Forall_forall in Hall. specialize (Hall (Z.to_nat n)).
  rewrite Z2Nat.id in Hall by (unfold is_octet in Hn; lia). apply Hall, list_elem_of_In, elem_of_seq.
  unfold is_octet in Hn. lia.
Qed.

Lemma first_mark_digits s t : all_digits s = true → first_mark (s +:+ String "." t) = Some "."%char.
Proof.
  induction s as [|a s IH]; [done|]. simpl. intros [Ha Hs]%andb_true_iff. rewrite IH by done.
  destruct a as [[] [] [] [] [] [] [] []]; try done.
Qed.

(** The text of an address reads back. *)
Lemma ParseIP_dotted a b c d :
  is_octet a → is_octet b → is_octet c → is_octet d →
  ParseIP (dotted a b c d) = Some [0; 0; 0; 0; 0; 65535; a * 256 + b; c * 256 + d]%Z.
Proof.
  intros Ha Hb Hc Hd. destruct (octet_digits a Ha) as (Ha1 & Ha2 & Ha3).
  destruct (octet_digits b Hb) as (Hb1 & Hb2 & _), (octet_digits c Hc) as (Hc1 & Hc2 & _),
    (octet_digits d Hd) as (Hd1 & Hd2 & _).
  unfold ParseIP, dotted. rewrite first_mark_digits by done. unfold ParseIPv4.
  rewrite !Split_cons, Split_one by done. by rewrite Ha1, Hb1, Hc1, Hd1.
Qed.
