(* ===== verification/Config.v ===== *)
(** * config/config.go: the configuration file and the environment.

    The YAML decoder is third-party code and stays a parameter, as is url.Parse;
    the checks and the defaults are modelled in full. *)
From stdpp Require Import gmap strings list fin_maps.
From Stdlib Require Import Ascii.
From S2P Require Import Prelude.
From S2P Require Import GoBase.
From S2P Require Import GoStrings.
From S2P Require Import GoTime.
From S2P Require Import NetUrl.
From S2P Require Import GoNet.
From stdpp Require Import options.

(** ** Data *)

(** A [Secret] is printed as a fixed text; [Reveal] is the value. *)
Record Secret := mkSecret { Reveal : string }.
Definition redacted : string := "[REDACTED]".
Definition Secret_String (_ : Secret) : string := redacted.

Record Config := mkConfig {
  gc_HTTPListen : string;
  gc_WSListen : string;
  gc_AdminListen : string;
  gc_Username : Secret;
  gc_Password : Secret;
  gc_AdminToken : Secret;
  gc_PushBaseURL : Secret;
  gc_NotifyHostIP : string;
  gc_SubscriptionSeedFile : string;
  gc_WebshareFile : string;
  gc_SubscriptionURLs : list string;
  gc_HTTPSubscriptionAllowlist : list string;
  gc_LowNodeThreshold : Z;
  gc_RefreshInterval : Z;
  gc_ProbeInterval : Z;
  gc_DialTimeout : Z;
  gc_ShutdownDrain : Z;
  gc_MaxSubscriptionSize : Z;
  gc_ProbeURL : string;
}.

Record fileConfig := mkFileConfig {
  fc_HTTPListen : string;
  fc_WSListen : string;
  fc_AdminListen : string;
  fc_RefreshInterval : string;
  fc_ProbeInterval : string;
  fc_DialTimeout : string;
  fc_ShutdownDrain : string;
  fc_MaxSubscriptionSize : string;
  fc_ProbeURL : string;
  fc_LowNodeThreshold : Z;
  fc_SubscriptionSeedFile : string;
  fc_WebshareFile : string;
}.

(** [lookupEnv]: [None] is [exists = false]. *)
Abbreviation Env := (string → option string) (only parsing).

(** [yaml.Unmarshal] into a [fileConfig]. *)
Class ConfigYaml := { yaml_fileConfig : string → GoError + fileConfig }.

(** ** Checks *)

Definition requiredSecret (name : string) (lookupEnv : Env) : option Secret :=
  match lookupEnv name with
  | Some value => if decide (TrimSpace value ≠ "") then Some (mkSecret (TrimSpace value)) else None
  | None => None
  end.

Definition defaultString (value fallback : string) : string :=
  if decide (TrimSpace value = "") then fallback else TrimSpace value.

(** [None] is no error. *)
Definition validateLoopback (address : string) : option GoError :=
  match SplitHostPort address with
  | inl err => Some err
  | inr (host, _) =>
      if EqualFold host "localhost" then None
      else
        match ParseIP host with
        | Some ip => if IsLoopback ip then None else Some (ErrNew "host is not loopback")
        | None => Some (ErrNew "host is not loopback")
        end
  end.

Definition validateProbeURL `{NetUrl} (value : string) : option GoError :=
  match url_Parse value with
  | Some parsed =>
      if bool_decide (url_Scheme parsed = "https") && negb (bool_decide (url_Host parsed = ""))
      then None else Some (ErrNew "probe_url must be an absolute HTTPS URL")
  | None => Some (ErrNew "probe_url must be an absolute HTTPS URL")
  end.

(** The checks [validatePushBaseURL] of config.go and [NewClient] of notify share. *)
Definition http_url (u : URL) : bool :=
  (bool_decide (url_Scheme u = "http") || bool_decide (url_Scheme u = "https"))
  && negb (bool_decide (url_Host u = "")).
Definition bare_url (u : URL) : bool :=
  bool_decide (url_User u = None) && bool_decide (url_RawQuery u = "")
  && bool_decide (url_Fragment u = "").

Definition validatePushBaseURL `{NetUrl} (value : string) : option GoError :=
  match url_Parse value with
  | Some parsed =>
      if negb (http_url parsed) then Some (ErrNew "PUSH_BASE_URL must be an absolute HTTP or HTTPS URL")
      else if negb (bare_url parsed)
      then Some (ErrNew "PUSH_BASE_URL must not contain user information, a query, or a fragment")
      else None
  | None => Some (ErrNew "PUSH_BASE_URL must be an absolute HTTP or HTTPS URL")
  end.

Definition return_err {A} (err : option GoError) (k : GoError + A) : GoError + A :=
  match err with Some err => inl err | None => k end.

(** ** The durations *)

Definition default_durations : gmap string Z :=
  {[ "refresh_interval" := 30 * Minute; "probe_interval" := 30 * Second;
     "dial_timeout" := 10 * Second; "shutdown_drain" := 30 * Second ]}%Z.

Definition duration_texts (file : fileConfig) : gmap string string :=
  {[ "refresh_interval" := fc_RefreshInterval file; "probe_interval" := fc_ProbeInterval file;
     "dial_timeout" := fc_DialTimeout file; "shutdown_drain" := fc_ShutdownDrain file ]}.

(** One turn of the loop over the map of targets. *)
Definition set_duration (file : fileConfig) (cfg : gmap string Z) (name : string)
    : GoError + gmap string Z :=
  let value := default "" (duration_texts file !! name) in
  if decide (value = "") then inr cfg
  else
    match ParseDuration value with
    | Some parsed =>
        if (parsed <=? 0)%Z then inl (ErrNew (name +:+ " must be a positive duration"))
        else inr (<[name := parsed]> cfg)
    | None => inl (ErrNew (name +:+ " must be a positive duration"))
    end.

Definition load_durations (o : RangeOrder) (file : fileConfig) : GoError + gmap string Z :=
  foldl (λ cfg target, err_bind cfg (λ cfg, set_duration file cfg target.1))
    (inr default_durations) (range_items o default_durations).

(** ** The lists of URLs *)

(** [strings.FieldsFunc] at line ends. *)
Definition split_lines (s : string) : list string :=
  filter (λ line, line ≠ "") (Split s "010" ≫= λ line, Split line "013").

Definition nonempty_trimmed (lines : list string) : list string :=
  filter (λ line, line ≠ "") (TrimSpace <$> lines).

Definition explicit_http `{NetUrl} (value : string) : bool :=
  match url_Parse value with
  | Some u => bool_decide (url_Scheme u = "http") && negb (bool_decide (url_Host u = ""))
              && bool_decide (url_User u = None) && bool_decide (url_Fragment u = "")
  | None => false
  end.

Definition load_allowlist `{NetUrl} (lookupEnv : Env) : GoError + list string :=
  match lookupEnv "HTTP_SUBSCRIPTION_ALLOWLIST" with
  | None => inr []
  | Some value =>
      let values := nonempty_trimmed (Split value "010") in
      refuse (negb (forallb explicit_http values))
        "HTTP_SUBSCRIPTION_ALLOWLIST must contain explicit HTTP URLs" (inr values)
  end.

Definition subscription_url `{NetUrl} (allowedHTTP : list string) (trimmed : string) : bool :=
  match url_Parse trimmed with
  | Some parsed =>
      (bool_decide (url_Scheme parsed = "https")
       || bool_decide (url_Scheme parsed = "http") && bool_decide (trimmed ∈ allowedHTTP))
      && negb (bool_decide (url_Host parsed = ""))
  | None => false
  end.

Definition load_urls `{NetUrl} (lookupEnv : Env) (allowedHTTP : list string)
    : GoError + list string :=
  let urlsValue := default "" (lookupEnv "SUBSCRIPTION_URLS") in
  refuse (bool_decide (TrimSpace urlsValue = "")) "SUBSCRIPTION_URLS is required" (
  let urls := nonempty_trimmed (split_lines urlsValue) in
  refuse (negb (forallb (subscription_url allowedHTTP) urls))
    "every SUBSCRIPTION_URLS entry must be an absolute HTTPS URL" (
  refuse (bool_decide (urls = [])) "SUBSCRIPTION_URLS is required" (inr urls))).

(** ** [Load] *)

Definition load_threshold (file : fileConfig) : GoError + Z :=
  if decide (fc_LowNodeThreshold file = 0%Z) then inr 30%Z
  else refuse (fc_LowNodeThreshold file <? 1)%Z "low_node_threshold must be a positive integer"
         (inr (fc_LowNodeThreshold file)).

Definition load_size (file : fileConfig) : GoError + Z :=
  if decide (fc_MaxSubscriptionSize file = "") then inr (4 * 2 ^ 20)%Z
  else
    match ParseInt (fc_MaxSubscriptionSize file) with
    | Some parsed =>
        refuse (parsed <=? 0)%Z "max_subscription_size must be a positive byte count" (inr parsed)
    | None => inl (ErrNew "max_subscription_size must be a positive byte count")
    end.

(** [filepath.IsAbs] on Unix. *)
Definition is_abs (path : string) : bool := HasPrefix path "/".

Definition require_secret {A} (name : string) (lookupEnv : Env) (k : Secret → GoError + A)
    : GoError + A :=
  match requiredSecret name lookupEnv with
  | Some secret => k secret
  | None => inl (ErrNew (name +:+ " is required"))
  end.

Definition load_push_url `{NetUrl} (lookupEnv : Env) : GoError + Secret :=
  let value := TrimSpace (default "" (lookupEnv "PUSH_BASE_URL")) in
  if decide (value = "") then inr (mkSecret "")
  else return_err (validatePushBaseURL value) (inr (mkSecret value)).

Definition load_notify_host (lookupEnv : Env) : GoError + string :=
  let value := TrimSpace (default "" (lookupEnv "NOTIFY_HOST_IP")) in
  refuse (bool_decide (value ≠ "") && bool_decide (ParseIP value = None))
    "NOTIFY_HOST_IP must be an IP address" (inr value).

(** [Load] once the file is read. *)
Definition load_file `{NetUrl} (o : RangeOrder) (file : fileConfig) (lookupEnv : Env)
    : GoError + Config :=
  let httpListen := defaultString (fc_HTTPListen file) "127.0.0.1:18080" in
  let wsListen := defaultString (fc_WSListen file) "127.0.0.1:18081" in
  let adminListen := defaultString (fc_AdminListen file) "127.0.0.1:19090" in
  let probeURL := defaultString (fc_ProbeURL file) "https://cp.cloudflare.com/generate_204" in
  let webshareFile := TrimSpace (fc_WebshareFile file) in
  err_bind (load_threshold file) (λ threshold,
  err_bind (load_durations o file) (λ durations,
  let duration name := default 0%Z (durations !! name) in
  err_bind (load_size file) (λ size,
  refuse (bool_decide (httpListen = wsListen)) "http_listen and ws_listen must differ" (
  refuse (bool_decide (webshareFile ≠ "") && negb (is_abs webshareFile))
    "webshare_file must be an absolute path" (
  return_err (Errorf_w "admin_listen must use a loopback address: " <$> validateLoopback adminListen) (
  return_err (validateProbeURL probeURL) (
  require_secret "PROXY_USERNAME" lookupEnv (λ username,
  require_secret "PROXY_PASSWORD" lookupEnv (λ password,
  require_secret "ADMIN_TOKEN" lookupEnv (λ adminToken,
  err_bind (load_push_url lookupEnv) (λ pushBaseURL,
  err_bind (load_notify_host lookupEnv) (λ notifyHostIP,
  err_bind (load_allowlist lookupEnv) (λ allowlist,
  err_bind (load_urls lookupEnv allowlist) (λ urls,
  inr (mkConfig httpListen wsListen adminListen username password adminToken pushBaseURL
    notifyHostIP (TrimSpace (fc_SubscriptionSeedFile file)) webshareFile urls allowlist threshold
    (duration "refresh_interval") (duration "probe_interval") (duration "dial_timeout")
    (duration "shutdown_drain") size probeURL))))))))))))))).

(** [raw] is the result of [os.ReadFile]. *)
Definition Load `{NetUrl, ConfigYaml} (o : RangeOrder) (raw : GoError + string) (lookupEnv : Env)
    : GoError + Config :=
  match raw with
  | inl err => inl (Errorf_w "read config: " err)
  | inr raw =>
      match yaml_fileConfig raw with
      | inl err => inl (Errorf_w "parse config: " err)
      | inr file => load_file o file lookupEnv
      end
  end.

(** ** What a configuration guarantees *)

Definition positive_int64 (z : Z) : Prop := (0 < z < 2 ^ 63)%Z.

(** What the rest of the program assumes of a configuration. *)
Record config_ok `{NetUrl} (cfg : Config) : Prop := {
  co_listen : gc_HTTPListen cfg ≠ gc_WSListen cfg;
  co_admin : ∃ host port, SplitHostPort (gc_AdminListen cfg) = inr (host, port) ∧
    (EqualFold host "localhost" = true ∨ ∃ ip, ParseIP host = Some ip ∧ IsLoopback ip = true);
  co_durations : Forall positive_int64
    [gc_RefreshInterval cfg; gc_ProbeInterval cfg; gc_DialTimeout cfg; gc_ShutdownDrain cfg];
  co_size : positive_int64 (gc_MaxSubscriptionSize cfg);
  co_threshold : (1 ≤ gc_LowNodeThreshold cfg)%Z;
  co_secrets : Forall (λ s, Reveal s ≠ "") [gc_Username cfg; gc_Password cfg; gc_AdminToken cfg];
  co_trimmed : Forall (λ s, ∃ value, Reveal s = TrimSpace value)
    [gc_Username cfg; gc_Password cfg; gc_AdminToken cfg];
  co_probe : ∃ u, url_Parse (gc_ProbeURL cfg) = Some u ∧ url_Scheme u = "https" ∧ url_Host u ≠ "";
  co_urls : gc_SubscriptionURLs cfg ≠ [] ∧
    Forall (λ url, ∃ u, url_Parse url = Some u ∧ url_Host u ≠ "" ∧
      (url_Scheme u = "https" ∨ url_Scheme u = "http" ∧ url ∈ gc_HTTPSubscriptionAllowlist cfg))
      (gc_SubscriptionURLs cfg);
  co_push : Reveal (gc_PushBaseURL cfg) = "" ∨ ∃ u, url_Parse (Reveal (gc_PushBaseURL cfg)) = Some u ∧
    http_url u = true ∧ bare_url u = true;
  co_notify : gc_NotifyHostIP cfg = "" ∨ is_Some (ParseIP (gc_NotifyHostIP cfg));
  co_webshare : gc_WebshareFile cfg = "" ∨ is_abs (gc_WebshareFile cfg) = true;
}.

Section theorems.
Context `{NetUrl}.

Lemma return_err_inr {A} err (k : GoError + A) a : return_err err k = inr a ↔ err = None ∧ k = inr a.
Proof. destruct err; simpl; naive_solver. Qed.

Lemma require_secret_inr {A} name lookupEnv (k : Secret → GoError + A) a :
  require_secret name lookupEnv k = inr a →
  ∃ secret, requiredSecret name lookupEnv = Some secret ∧
    (Reveal secret ≠ "" ∧ ∃ value, Reveal secret = TrimSpace value) ∧ k secret = inr a.
Proof.
  unfold require_secret, requiredSecret. destruct (lookupEnv name) as [value|]; [|done].
  case_decide; [|done]. intros ?. eexists. split; [done|]. cbn. eauto.
Qed.

Lemma default_duration_positive : map_Forall (λ _, positive_int64) default_durations.
Proof. apply (bool_decide_unpack _). vm_compute. exact I. Qed.

Lemma set_duration_positive file cfg name cfg' :
  map_Forall (λ _, positive_int64) cfg → set_duration file cfg name = inr cfg' →
  map_Forall (λ _, positive_int64) cfg' ∧ dom cfg ⊆ dom cfg'.
Proof.
  unfold set_duration. intros Hcfg Hset. case_decide; [by simplify_eq|].
  destruct (ParseDuration _) as [d|] eqn:Hd; [|done]. destruct (d <=? 0)%Z eqn:Hpos; [done|].
  simplify_eq. split; [|set_solver]. apply map_Forall_insert_2; [|done].
  apply ParseDuration_bound in Hd. unfold positive_int64. lia.
Qed.

Lemma load_durations_positive o file durations name :
  load_durations o file = inr durations → name ∈ dom default_durations →
  positive_int64 (default 0%Z (durations !! name)).
Proof.
  unfold load_durations. generalize (range_items o default_durations). intros targets.
  assert (∀ cfg, map_Forall (λ _, positive_int64) cfg → foldl (λ cfg (target : string * Z),
      err_bind cfg (λ cfg, set_duration file cfg target.1)) (inr cfg) targets = inr durations →
    map_Forall (λ _, positive_int64) durations ∧ dom cfg ⊆ dom durations) as Hloop.
  { induction targets as [|[n z] targets IH]; intros cfg Hcfg Hd; simpl in Hd; [by simplify_eq|].
    destruct (set_duration file cfg n) as [err|cfg'] eqn:Hset.
    { exfalso. clear -Hd. induction targets; [done|by apply IHtargets]. }
    destruct (set_duration_positive _ _ _ _ Hcfg Hset) as [Hpos Hdom].
    destruct (IH _ Hpos Hd). split; [done|]. by etransitivity. }
  intros Hd Hname. destruct (Hloop _ default_duration_positive Hd) as [Hpos Hdom].
  apply Hdom, elem_of_dom in Hname as [d Hname]. rewrite Hname. by apply (Hpos name d).
Qed.

Lemma validateLoopback_ok address :
  validateLoopback address = None → ∃ host port, SplitHostPort address = inr (host, port) ∧
    (EqualFold host "localhost" = true ∨ ∃ ip, ParseIP host = Some ip ∧ IsLoopback ip = true).
Proof.
  unfold validateLoopback. destruct (SplitHostPort address) as [|[host port]]; [done|].
  intros Hv. exists host, port. split; [done|].
  destruct (EqualFold host "localhost") eqn:He; [by left|right].
  destruct (ParseIP host) as [ip|]; [|done]. exists ip. by destruct (IsLoopback ip).
Qed.

Lemma load_urls_ok lookupEnv allowed urls :
  load_urls lookupEnv allowed = inr urls → urls ≠ [] ∧
  Forall (λ url, ∃ u, url_Parse url = Some u ∧ url_Host u ≠ "" ∧
      (url_Scheme u = "https" ∨ url_Scheme u = "http" ∧ url ∈ allowed)) urls.
Proof.
  unfold load_urls. rewrite !refuse_inr. intros (_ & Hall & Hne & Hinr). simplify_eq.
  split; [by apply bool_decide_eq_false in Hne|].
  apply negb_false_iff in Hall. rewrite forallb_forall in Hall.
  apply Forall_forall. intros url Hurl%list_elem_of_In. specialize (Hall url Hurl).
  unfold subscription_url in Hall. destruct (url_Parse url) as [u|]; [|done]. exists u.
  rewrite andb_true_iff, orb_true_iff, andb_true_iff, negb_true_iff, !bool_decide_eq_true,
    bool_decide_eq_false in Hall. naive_solver.
Qed.

Lemma load_size_ok file size : load_size file = inr size → positive_int64 size.
Proof.
  unfold load_size, positive_int64. case_decide; [intros ?; simplify_eq; lia|].
  destruct (ParseInt _) as [z|] eqn:Hz; [|done]. apply ParseInt_bound in Hz.
  rewrite refuse_inr. intros [? ?]. simplify_eq. lia.
Qed.

Lemma load_push_ok lookupEnv secret : load_push_url lookupEnv = inr secret →
  Reveal secret = "" ∨ ∃ u, url_Parse (Reveal secret) = Some u ∧ http_url u = true ∧ bare_url u = true.
Proof.
  unfold load_push_url, validatePushBaseURL. case_decide; [intros ?; simplify_eq; by left|].
  rewrite return_err_inr. intros [Hv ?]. simplify_eq. right. simpl.
  destruct (url_Parse _) as [u|]; [|done]. exists u.
  destruct (http_url u); [|done]. destruct (bare_url u); done.
Qed.

Lemma load_ok `{ConfigYaml} o raw lookupEnv cfg : Load o raw lookupEnv = inr cfg → config_ok cfg.
Proof.
  unfold Load. destruct raw as [|raw]; [done|]. destruct (yaml_fileConfig raw) as [|file]; [done|].
  unfold load_file. cbv zeta.
  intros (threshold & Hthreshold & Hload)%err_bind_inr.
  apply err_bind_inr in Hload as (durations & Hdurations & Hload).
  apply err_bind_inr in Hload as (size & Hsize%load_size_ok & Hload).
  rewrite !refuse_inr, !return_err_inr in Hload. destruct Hload as (Hlisten & Hweb & Hadmin & Hprobe & Hload).
  apply require_secret_inr in Hload as (username & _ & [Hu Hu'] & Hload).
  apply require_secret_inr in Hload as (password & _ & [Hp Hp'] & Hload).
  apply require_secret_inr in Hload as (token & _ & [Ht Ht'] & Hload).
  apply err_bind_inr in Hload as (push & Hpush%load_push_ok & Hload).
  apply err_bind_inr in Hload as (notify & Hnotify & Hload).
  apply err_bind_inr in Hload as (allowlist & _ & Hload).
  apply err_bind_inr in Hload as (urls & Hurls%load_urls_ok & Hload).
  injection Hload as <-. split; cbn -[is_abs]; try done.
  - by apply bool_decide_eq_false in Hlisten.
  - apply validateLoopback_ok. by destruct (validateLoopback _).
  - repeat apply List.Forall_cons; [..|apply List.Forall_nil];
      (apply (load_durations_positive o file); [done|]); apply (bool_decide_unpack _); vm_compute; exact I.
  - revert Hthreshold. unfold load_threshold. destruct (decide (fc_LowNodeThreshold file = 0%Z)); [intros [= <-]; lia|].
    rewrite refuse_inr. intros [? ?]. simplify_eq. lia.
  - by repeat apply List.Forall_cons.
  - by repeat apply List.Forall_cons.
  - unfold validateProbeURL in Hprobe. destruct (url_Parse _) as [u|]; [|done]. exists u.
    destruct (bool_decide (url_Scheme u = "https")) eqn:Hs; [|done].
    destruct (bool_decide (url_Host u = "")) eqn:Hh; [done|].
    by apply bool_decide_eq_true in Hs; apply bool_decide_eq_false in Hh.
  - revert Hnotify. unfold load_notify_host. rewrite refuse_inr. intros [Hn ?]. simplify_eq.
    destruct (decide (TrimSpace (default "" (lookupEnv "NOTIFY_HOST_IP")) = "")); [by left|right].
    rewrite bool_decide_true in Hn by done. apply bool_decide_eq_false in Hn.
    by destruct (ParseIP _).
  - destruct (decide (TrimSpace (fc_WebshareFile file) = "")); [by left|right].
    rewrite bool_decide_true in Hweb by done. by apply negb_false_iff in Hweb.
Qed.

(** ** Errors *)

Definition fixed_error_texts : list string :=
  ["low_node_threshold must be a positive integer";
   "max_subscription_size must be a positive byte count";
   "http_listen and ws_listen must differ"; "webshare_file must be an absolute path";
   "probe_url must be an absolute HTTPS URL"; "PROXY_USERNAME is required";
   "PROXY_PASSWORD is required"; "ADMIN_TOKEN is required";
   "PUSH_BASE_URL must be an absolute HTTP or HTTPS URL";
   "PUSH_BASE_URL must not contain user information, a query, or a fragment";
   "NOTIFY_HOST_IP must be an IP address";
   "HTTP_SUBSCRIPTION_ALLOWLIST must contain explicit HTTP URLs";
   "SUBSCRIPTION_URLS is required"; "every SUBSCRIPTION_URLS entry must be an absolute HTTPS URL"].

(** The texts an error of [load_file] can have. The environment, which holds the
    credentials and the private URLs, is no argument. *)
Definition load_error_texts (file : fileConfig) : list string :=
  fixed_error_texts
  ++ ((λ name, name +:+ " must be a positive duration") <$> (map_to_list default_durations).*1)
  ++ match validateLoopback (defaultString (fc_AdminListen file) "127.0.0.1:19090") with
     | Some err => ["admin_listen must use a loopback address: " +:+ Error err]
     | None => []
     end.

(** The errors of a computation are among some texts. *)
Definition errs {A} (texts : list string) (m : GoError + A) : Prop :=
  ∀ err, m = inl err → Error err ∈ texts.

Lemma errs_inr {A} texts (a : A) : errs texts (inr a).
Proof. by intros err. Qed.
Lemma errs_bind {A B} texts (m : GoError + A) (k : A → GoError + B) :
  errs texts m → (∀ a, errs texts (k a)) → errs texts (err_bind m k).
Proof. intros Hm Hk err. destruct m; simpl; [intros ?; apply Hm; by simplify_eq|apply Hk]. Qed.
Lemma errs_refuse {A} texts b msg (k : GoError + A) :
  msg ∈ texts → errs texts k → errs texts (refuse b msg k).
Proof. intros Hmsg Hk err. destruct b; simpl; [intros ?; by simplify_eq|apply Hk]. Qed.
Lemma errs_return {A} texts e (k : GoError + A) :
  (∀ err, e = Some err → Error err ∈ texts) → errs texts k → errs texts (return_err e k).
Proof. intros He Hk err. destruct e; simpl; [intros ?; simplify_eq; by apply He|apply Hk]. Qed.
Lemma errs_require {A} texts name lookupEnv (k : Secret → GoError + A) :
  name +:+ " is required" ∈ texts → (∀ s, errs texts (k s)) →
  errs texts (require_secret name lookupEnv k).
Proof.
  intros Hmsg Hk err. unfold require_secret. destruct (requiredSecret name lookupEnv); [apply Hk|].
  intros ?. by simplify_eq.
Qed.

Lemma load_durations_errs o file :
  errs ((λ name, name +:+ " must be a positive duration") <$> (map_to_list default_durations).*1)
    (load_durations o file).
Proof.
  unfold load_durations.
  assert (∀ t, t ∈ range_items o default_durations → t.1 ∈ (map_to_list default_durations).*1) as Hin.
  { intros t Ht. rewrite range_perm in Ht. by apply list_elem_of_fmap_2. }
  revert Hin. generalize (range_items o default_durations) as targets.
  induction targets as [|t targets IH] using rev_ind; intros Hin; [apply errs_inr|].
  rewrite foldl_snoc. apply errs_bind; [apply IH; intros; apply Hin, elem_of_app; by left|].
  intros cfg err. unfold set_duration.
  intros Hset. assert (err = ErrNew (t.1 +:+ " must be a positive duration")) as ->.
  { repeat case_match; by simplify_eq. }
  simpl. apply (list_elem_of_fmap_2 (λ name, name +:+ " must be a positive duration")).
  apply Hin, elem_of_app. right. by left.
Qed.

Lemma fixed_error file msg : msg ∈ fixed_error_texts → msg ∈ load_error_texts file.
Proof. intros ?. apply elem_of_app. by left. Qed.

Ltac fixed_text := apply fixed_error, (bool_decide_unpack _); vm_compute; exact I.

Lemma validators_errs value lookupEnv allowed file :
  (∀ err, validateProbeURL value = Some err → Error err ∈ load_error_texts file) ∧
  errs (load_error_texts file) (load_push_url lookupEnv) ∧
  errs (load_error_texts file) (load_notify_host lookupEnv) ∧
  errs (load_error_texts file) (load_allowlist lookupEnv) ∧
  errs (load_error_texts file) (load_urls lookupEnv allowed).
Proof.
  split_and!.
  - intros err. unfold validateProbeURL. repeat case_match; intros; simplify_eq; fixed_text.
  - unfold load_push_url. case_decide; [apply errs_inr|]. apply errs_return; [|apply errs_inr].
    intros err. unfold validatePushBaseURL. repeat case_match; intros; simplify_eq; fixed_text.
  - unfold load_notify_host. apply errs_refuse; [fixed_text|apply errs_inr].
  - unfold load_allowlist. case_match; [|apply errs_inr]. apply errs_refuse; [fixed_text|apply errs_inr].
  - unfold load_urls. repeat (apply errs_refuse; [fixed_text|]). apply errs_inr.
Qed.

Lemma load_file_errs o file lookupEnv : errs (load_error_texts file) (load_file o file lookupEnv).
Proof.
  unfold load_file. cbv zeta. apply errs_bind; [|intros threshold].
  { unfold load_threshold. case_decide; [apply errs_inr|]. apply errs_refuse; [fixed_text|apply errs_inr]. }
  apply errs_bind; [|intros durations].
  { intros err Herr. apply elem_of_app. right. apply elem_of_app. left.
    by apply (load_durations_errs o file). }
  apply errs_bind; [|intros size].
  { unfold load_size. case_decide; [apply errs_inr|]. case_match; [|intros err ?; simplify_eq; fixed_text].
    apply errs_refuse; [fixed_text|apply errs_inr]. }
  do 2 (apply errs_refuse; [fixed_text|]). apply errs_return.
  { intros err Herr. apply elem_of_app. right. apply elem_of_app. right.
    destruct (validateLoopback _); [|done]. simplify_eq/=. by left. }
  apply errs_return; [apply (validators_errs _ lookupEnv [])|].
  do 3 (apply errs_require; [fixed_text|intros ?]).
  apply errs_bind; [apply (validators_errs "" lookupEnv [])|intros push].
  apply errs_bind; [apply (validators_errs "" lookupEnv [])|intros notify].
  apply errs_bind; [apply (validators_errs "" lookupEnv [])|intros allowlist].
  apply errs_bind; [apply (validators_errs "" lookupEnv allowlist)|intros urls]. apply errs_inr.
Qed.

(** C24: no error of [Load] shows a secret. Its text is one of a list that depends on the
    file alone, never on the environment, which is where all credentials and private URLs
    come from. *)
Theorem load_errors_hide_environment `{ConfigYaml} o raw lookupEnv err :
  Load o raw lookupEnv = inl err →
  (∃ cause, raw = inl cause ∧ Error err = "read config: " +:+ Error cause) ∨
  (∃ text cause, raw = inr text ∧ yaml_fileConfig text = inl cause ∧
     Error err = "parse config: " +:+ Error cause) ∨
  (∃ text file, raw = inr text ∧ yaml_fileConfig text = inr file ∧ Error err ∈ load_error_texts file).
Proof.
  unfold Load. destruct raw as [cause|text]; [intros [= <-]; left; by exists cause|].
  destruct (yaml_fileConfig text) as [cause|file] eqn:Hyaml; intros Herr; right.
  - left. exists text, cause. by simplify_eq.
  - right. exists text, file. split; [done|]. split; [done|]. by apply (load_file_errs o file lookupEnv).
Qed.
End theorems.
