(* ===== verification/Redact.v ===== *)
(** * redact/redact.go: removing addresses and secrets from texts.

    The three patterns are written as regular expressions over bytes and matched the
    way package regexp does: leftmost first, alternatives and repetitions tried in
    the order a backtracking search would. A byte of 0x80 or more is never part of
    what an ASCII class matches, so matching bytes and matching runes agree here. *)
From stdpp Require Import strings list numbers.
From Stdlib Require Import Ascii.
From S2P Require Import Prelude.
From S2P Require Import GoStrings.
From stdpp Require Import options.

(** ** Regular expressions *)

Inductive regex :=
  | REmpty
  | RClass (p : ascii → bool)
  | RSeq (r r' : regex)
  | RAlt (r r' : regex)
  | RPlus (r : regex)
  | RWordBoundary.

Definition ROpt (r : regex) : regex := RAlt r REmpty.

(** [r{n}] and [r{n,n+m}]. *)
Fixpoint RTimes (n : nat) (r : regex) : regex :=
  match n with 0 => REmpty | S n => RSeq r (RTimes n r) end.
Fixpoint RUpTo (m : nat) (r : regex) : regex :=
  match m with 0 => REmpty | S m => ROpt (RSeq r (RUpTo m r)) end.
Definition RRange (n m : nat) (r : regex) : regex := RSeq (RTimes n r) (RUpTo (m - n) r).

Definition digit (a : ascii) : bool := between 48 57 (byte_of a).
Definition letter (a : ascii) : bool := between 65 90 (byte_of a) || between 97 122 (byte_of a).
Definition word_char (a : ascii) : bool := digit a || letter a || (byte_of a =? 95)%N.
Definition char_is (c : ascii) (a : ascii) : bool := Ascii.eqb a c.
Definition RChar (c : ascii) : regex := RClass (char_is c).

(** A letter in either case; the long s (U+017F) is a case of s. *)
Definition RFold (c : ascii) : regex :=
  let either := RClass (λ a, Ascii.eqb (lower1 a) c) in
  if Ascii.eqb c "s" then RAlt either (RSeq (RChar "197") (RChar "191")) else either.

Fixpoint RWord (s : string) : regex :=
  match s with
  | EmptyString => REmpty
  | String a rest => RSeq (if letter a then RFold a else RChar a) (RWord rest)
  end.

Definition re_space (a : ascii) : bool :=
  (byte_of a =? 32)%N || between 9 10 (byte_of a) || between 12 13 (byte_of a).

(** [(?i)https?://[^\s]+] *)
Definition urlPattern : regex :=
  RSeq (RWord "http") (RSeq (ROpt (RFold "s")) (RSeq (RWord "://")
    (RPlus (RClass (λ a, negb (re_space a)))))).

Definition port_part : regex := RSeq (RChar ":") (RRange 1 5 (RClass digit)).

(** [\b(?:\d{1,3}\.){3}\d{1,3}(?::\d{1,5})?\b] *)
Definition ipv4PortPattern : regex :=
  RSeq RWordBoundary (RSeq (RTimes 3 (RSeq (RRange 1 3 (RClass digit)) (RChar ".")))
    (RSeq (RRange 1 3 (RClass digit)) (RSeq (ROpt port_part) RWordBoundary))).

(** [\b(?:[a-zA-Z0-9-]+\.)+[a-zA-Z]{2,}(?::\d{1,5})\b] *)
Definition hostPortPattern : regex :=
  let label := RClass (λ a, digit a || letter a || Ascii.eqb a "-") in
  RSeq RWordBoundary (RSeq (RPlus (RSeq (RPlus label) (RChar ".")))
    (RSeq (RSeq (RClass letter) (RPlus (RClass letter))) (RSeq port_part RWordBoundary))).

(** ** Matching *)

(** A position: the byte before it and the text after it. *)
Abbreviation Position := (option ascii * string)%type (only parsing).

Definition at_boundary (pos : Position) : bool :=
  let before := match pos.1 with Some a => word_char a | None => false end in
  let after := match pos.2 with String a _ => word_char a | EmptyString => false end in
  xorb before after.

(** The first way to match [r] from a position and then to continue. *)
Fixpoint rmatch (r : regex) (k : Position → option Position) (pos : Position) : option Position :=
  match r with
  | REmpty => k pos
  | RClass p =>
      match pos.2 with
      | String a rest => if p a then k (Some a, rest) else None
      | EmptyString => None
      end
  | RSeq r r' => rmatch r (rmatch r' k) pos
  | RAlt r r' => match rmatch r k pos with Some res => Some res | None => rmatch r' k pos end
  | RPlus r =>
      (fix more (fuel : nat) (pos : Position) : option Position :=
         rmatch r (λ pos',
           match fuel with
           | 0 => k pos'
           | S fuel => match more fuel pos' with Some res => Some res | None => k pos' end
           end) pos) (String.length pos.2) pos
  | RWordBoundary => if at_boundary pos then k pos else None
  end.

(** [re.ReplaceAllString(s, repl)] for a pattern that does not match the empty text;
    each turn passes at least one byte. *)
Fixpoint replace_matches (fuel : nat) (r : regex) (repl : string) (pos : Position) : string :=
  match fuel with
  | 0 => pos.2
  | S fuel =>
      match rmatch r Some pos with
      | Some pos' => repl +:+ replace_matches fuel r repl pos'
      | None =>
          match pos.2 with
          | String a rest => String a (replace_matches fuel r repl (Some a, rest))
          | EmptyString => ""
          end
      end
  end.
Definition ReplaceAllString (r : regex) (s repl : string) : string :=
  replace_matches (S (String.length s)) r repl (None, s).

(** ** [Text] *)

(** [sort.Slice] by decreasing length: an insertion sort, as Go does it for up to
    twelve elements. *)
Fixpoint insert_secret (secret : string) (sorted : list string) : list string :=
  match sorted with
  | [] => [secret]
  | first :: rest =>
      if decide (String.length first < String.length secret) then secret :: sorted
      else first :: insert_secret secret rest
  end.
Definition sort_secrets (secrets : list string) : list string :=
  foldl (λ sorted secret, insert_secret secret sorted) [] secrets.

Definition Text (input : string) (secrets : list string) : string :=
  let output := ReplaceAllString urlPattern input "[REDACTED_URL]" in
  let output := ReplaceAllString ipv4PortPattern output "[REDACTED_ENDPOINT]" in
  let output := ReplaceAllString hostPortPattern output "[REDACTED_ENDPOINT]" in
  foldl (λ output secret, ReplaceAll output secret "[REDACTED]") output
    (sort_secrets (filter (λ secret, secret ≠ "") secrets)).

Example text_ex :
  Text "get HTTPS://a.b/c?t=1 failed" [] = "get [REDACTED_URL] failed" ∧
  Text "dial 10.0.0.1:443: refused" [] = "dial [REDACTED_ENDPOINT]: refused" ∧
  Text "1.2.3.4567 x1.2.3.4 1.2.3.4.5" [] = "1.2.3.4567 x1.2.3.4 [REDACTED_ENDPOINT].5" ∧
  Text "lookup edge.example.com:8443 no" [] = "lookup [REDACTED_ENDPOINT] no" ∧
  Text "edge.example.com" [] = "edge.example.com" ∧
  Text "user bob pass bobby" ["bob"; ""; "bobby"] = "user [REDACTED] pass [REDACTED]".
Proof. split_and!; vm_compute; reflexivity. Qed.

(** ** No secret is left *)

(** Bytes of a text. *)
Fixpoint has_byte (c : ascii) (s : string) : bool :=
  match s with EmptyString => false | String a rest => Ascii.eqb a c || has_byte c rest end.

(** A secret that cannot be made of what replaces secrets. *)
Definition plain_secret (t : string) : Prop :=
  t ≠ "" ∧ has_byte "[" t = false ∧ has_byte "]" t = false ∧ Contains "REDACTED" t = false.

Lemma prefix_skip c t x y :
  t ≠ "" → has_byte c t = false → String.prefix t (x +:+ String c y) = String.prefix t x.
Proof.
  intros _. revert t. induction x as [|a x IH]; intros t Hc.
  - destruct t as [|b t]; [done|]. simpl in Hc. apply orb_false_iff in Hc as [Hb _].
    simpl. destruct (ascii_dec b c) as [->|]; [by rewrite Ascii.eqb_refl in Hb|done].
  - destruct t as [|b t]; [done|]. simpl in Hc. apply orb_false_iff in Hc as [_ Hc].
    simpl. destruct (ascii_dec b a); [|done]. by apply IH.
Qed.

(** A text without the byte [c] occurs on one side of [c] or on the other. *)
Lemma contains_split c t x y :
  t ≠ "" → has_byte c t = false →
  Contains (x +:+ String c y) t = Contains x t || Contains y t.
Proof.
  intros Ht Hc. induction x as [|a x IH].
  - simpl. destruct t as [|b t]; [done|]. simpl in Hc. apply orb_false_iff in Hc as [Hb _].
    simpl. destruct (ascii_dec b c) as [->|]; [by rewrite Ascii.eqb_refl in Hb|done].
  - change (String a x +:+ String c y) with (String a (x +:+ String c y)). cbn [Contains].
    change (String a (x +:+ String c y)) with (String a x +:+ String c y).
    rewrite prefix_skip, IH by done. by rewrite orb_assoc.
Qed.

Lemma contains_redacted t y :
  plain_secret t → Contains ("[REDACTED]" +:+ y) t = Contains y t.
Proof.
  intros (Ht & Ho & Hc & Hr). change ("[REDACTED]" +:+ y) with ("" +:+ String "[" ("REDACTED" +:+ String "]" y)).
  rewrite (contains_split "["); [|done..].
  rewrite (contains_split "]" t "REDACTED"); [|done..]. rewrite Hr.
  simpl. by destruct t.
Qed.

(** What a replacement starts with, it started with already. *)
Lemma prefix_replace old t s :
  old ≠ "" → has_byte "[" t = false →
  String.prefix t (replace_go old "[REDACTED]" 0 s) = true → String.prefix t s = true.
Proof.
  intros Hold. revert t. induction s as [|a s IH]; intros t Ht; [done|]. cbn [replace_go].
  destruct (String.prefix old (String a s)).
  - destruct t as [|b t]; [done|]. simpl in Ht. apply orb_false_iff in Ht as [Hb _].
    simpl. destruct (ascii_dec b "[") as [->|]; done.
  - destruct t as [|b t]; [done|]. simpl in Ht. apply orb_false_iff in Ht as [_ Ht].
    simpl. destruct (ascii_dec b a); [|done]. by apply IH.
Qed.

Lemma contains_tail a s t : t ≠ "" → Contains (String a s) t = false → Contains s t = false.
Proof. intros _. cbn [Contains]. by intros [_ ?]%orb_false_iff. Qed.

(** Replacing [old] leaves no [old], and brings back no other secret. *)
Lemma contains_replace old t skip s :
  old ≠ "" → plain_secret t → t = old ∨ Contains s t = false →
  Contains (replace_go old "[REDACTED]" skip s) t = false.
Proof.
  intros Hold Hplain. revert skip. pose proof Hplain as (Ht & Ho & _).
  induction s as [|a s IH]; intros skip Hs; [by destruct t|].
  assert (t = old ∨ Contains s t = false) as Hs'
    by (destruct Hs as [?|?%contains_tail]; [by left|by right|done]).
  cbn [replace_go]. destruct skip as [|skip]; [|by apply IH].
  destruct (String.prefix old (String a s)) eqn:Hp; [by rewrite contains_redacted, IH|].
  cbn [Contains]. rewrite (IH 0) by done. rewrite orb_false_r.
  destruct (String.prefix t (String a (replace_go old "[REDACTED]" 0 s))) eqn:Hq; [|done].
  assert (String.prefix t (String a s) = true) as Hts.
  { destruct t as [|b t]; [done|]. simpl in Ho, Hq |- *. apply orb_false_iff in Ho as [_ Ho].
    destruct (ascii_dec b a); [|done]. by apply (prefix_replace old). }
  destruct Hs as [->|Hs]; [congruence|]. cbn [Contains] in Hs. by rewrite Hts in Hs.
Qed.

Lemma elem_of_insert_secret secret sorted x :
  x ∈ insert_secret secret sorted ↔ x = secret ∨ x ∈ sorted.
Proof.
  induction sorted as [|y sorted IH]; simpl; [by rewrite list_elem_of_singleton, elem_of_nil; tauto|].
  case_decide; rewrite !elem_of_cons; [tauto|]. rewrite IH. tauto.
Qed.

Lemma elem_of_sort_secrets secrets x : x ∈ sort_secrets secrets ↔ x ∈ secrets.
Proof.
  unfold sort_secrets. induction secrets as [|y secrets IH] using rev_ind; [done|].
  rewrite foldl_snoc, elem_of_insert_secret, IH, elem_of_app, list_elem_of_singleton. tauto.
Qed.

(** The secrets replaced so far do not occur. *)
Lemma replaced_secrets secrets output t :
  (∀ s, s ∈ secrets → s ≠ "") → plain_secret t → t ∈ secrets ∨ Contains output t = false →
  Contains (foldl (λ output secret, ReplaceAll output secret "[REDACTED]") output secrets) t = false.
Proof.
  intros Hne Ht. revert output. induction secrets as [|s secrets IH]; intros output Hor; simpl.
  { by destruct Hor as [?%elem_of_nil|]. }
  apply IH; [intros; apply Hne; by right|]. destruct (decide (t ∈ secrets)) as [?|Hnot]; [by left|right].
  apply contains_replace; [apply Hne; by left|done|].
  destruct Hor as [[->|?]%elem_of_cons|?]; [by left|done|by right].
Qed.

Lemma text_hides_secrets input secrets t :
  t ∈ secrets → plain_secret t → Contains (Text input secrets) t = false.
Proof.
  intros Hin Ht. unfold Text. apply replaced_secrets; [|done|left].
  - intros s Hs. rewrite elem_of_sort_secrets, list_elem_of_filter in Hs. by destruct Hs.
  - apply elem_of_sort_secrets, list_elem_of_filter. split; [by destruct Ht|done].
Qed.

(** ** No URL is left *)

(** A text in which some segments, each of which begins with a visible byte, have been
    replaced by marks. *)
Definition mark (m : string) : Prop :=
  ∃ rest, m = String "[" rest ∧ all_bytes (λ a, negb (Ascii.eqb (lower1 a) "h")) rest = true.

Inductive marked : string → string → Prop :=
  | marked_nil : marked "" ""
  | marked_byte a s s' : marked s s' → marked (String a s) (String a s')
  | marked_segment a seg s s' m : re_space a = false → mark m → marked s s' →
      marked (String a (seg +:+ s)) (m +:+ s').

Lemma marked_refl s : marked s s.
Proof. induction s; by constructor. Qed.

(** Regular expressions of classes alone, none of which takes the bracket of a mark. *)
Fixpoint flat (r : regex) : Prop :=
  match r with
  | REmpty => True
  | RClass p => p "["%char = false
  | RSeq r r' | RAlt r r' => flat r ∧ flat r'
  | RPlus _ | RWordBoundary => False
  end.

(** What matches in a marked text matched in the text before. *)
Lemma rmatch_marked r :
  flat r → ∀ k k' pos pos', marked pos.2 pos'.2 →
  (∀ q q', marked q.2 q'.2 → is_Some (k' q') → is_Some (k q)) →
  is_Some (rmatch r k' pos') → is_Some (rmatch r k pos).
Proof.
  induction r as [|p|r1 IH1 r2 IH2|r1 IH1 r2 IH2|r IH|]; cbn [flat]; try done; cbn [rmatch].
  - intros _ k k' pos pos' Hm Hk. by apply Hk.
  - intros Hp k k' [b s] [b' s'] Hm Hk. cbn [snd] in *.
    destruct Hm as [|a s s' Hm|a seg s s' m _ (rest & -> & _) Hm]; [done| |].
    + destruct (p a); [|done]. by apply Hk.
    + change (String "[" rest +:+ s') with (String "[" (rest +:+ s')). cbn. rewrite Hp. by intros [? ?].
  - intros [H1 H2] k k' pos pos' Hm Hk. apply IH1; [done..|].
    intros q q' Hq. by apply IH2.
  - intros [H1 H2] k k' pos pos' Hm Hk Hsome.
    destruct (rmatch r1 k pos) eqn:Hr1; [by eexists|].
    destruct (rmatch r1 k' pos') eqn:Hr1'.
    + assert (is_Some (rmatch r1 k pos)) as [? ?]; [|congruence].
      eapply IH1; [done..|]. by eexists.
    + by eapply IH2.
Qed.

Lemma plus_class p b s :
  is_Some (rmatch (RPlus (RClass p)) Some (b, s)) ↔ ∃ a rest, s = String a rest ∧ p a = true.
Proof.
  split.
  - destruct s as [|a s]; cbn; [by intros [? ?]|]. destruct (p a) eqn:Ha; [|by intros [? ?]]. eauto.
  - intros (a & rest & -> & Ha). cbn. rewrite Ha.
    by destruct ((fix more (fuel : nat) (pos : option ascii * string) := _) _ _); eexists.
Qed.

(** A URL is where its pattern matches. *)
Definition url_at (s : string) : Prop := is_Some (rmatch urlPattern Some (None, s)).
Fixpoint url_free (s : string) : Prop :=
  ¬ url_at s ∧ match s with EmptyString => True | String _ rest => url_free rest end.

Lemma url_marked b b' s s' :
  marked s s' → is_Some (rmatch urlPattern Some (b', s')) → is_Some (rmatch urlPattern Some (b, s)).
Proof.
  intros Hm. unfold urlPattern. cbn [rmatch]. apply rmatch_marked; [by vm_compute|done|].
  clear. intros q q' Hq. apply rmatch_marked; [by vm_compute|done|].
  clear. intros q q' Hq. apply rmatch_marked; [by vm_compute|done|].
  clear. intros [b s] [b' s'] Hq. cbn [snd] in Hq. intros Hplus.
  apply (plus_class (λ a, negb (re_space a)) b' s') in Hplus as (a & rest & -> & Ha).
  apply (plus_class (λ a, negb (re_space a)) b s). inversion Hq as [|? s0 ? Hs|a0 seg s0 s0' m Ha0 _ _]; subst; [by eauto|].
  exists a0, (seg +:+ s0). by rewrite Ha0.
Qed.

Lemma url_needs_h b a s : is_Some (rmatch urlPattern Some (b, String a s)) → Ascii.eqb (lower1 a) "h" = true.
Proof.
  unfold urlPattern. cbn [rmatch RWord]. change (letter "h") with true. cbn [rmatch].
  change (RFold "h") with (RClass (λ a, Ascii.eqb (lower1 a) "h")). cbn [rmatch snd].
  destruct (Ascii.eqb (lower1 a) "h"); [done|by intros [? ?]].
Qed.

Lemma url_free_quiet m s :
  all_bytes (λ a, negb (Ascii.eqb (lower1 a) "h")) m = true → url_free s → url_free (m +:+ s).
Proof.
  induction m as [|a m IH]; [done|]. cbn [all_bytes]. intros [Ha Hm]%andb_true_iff Hs.
  change (String a m +:+ s) with (String a (m +:+ s)). split; [|by apply IH].
  intros Hurl%url_needs_h. by rewrite Hurl in Ha.
Qed.

Lemma mark_quiet m : mark m → all_bytes (λ a, negb (Ascii.eqb (lower1 a) "h")) m = true.
Proof. intros (rest & -> & Hrest). cbn [all_bytes]. by rewrite Hrest. Qed.

Lemma url_free_suffix m s : url_free (m +:+ s) → url_free s.
Proof. induction m as [|a m IH]; [done|]. intros [_ Hs]. by apply IH. Qed.

(** Marking makes no URL. *)
Lemma url_free_marked s s' : marked s s' → url_free s → url_free s'.
Proof.
  induction 1 as [|a s s' Hm IH|a seg s s' m Ha Hmark Hm IH]; intros Hs; [done| |].
  - destruct Hs as [Hno Hs]. split; [|by apply IH]. intros Hurl. apply Hno.
    eapply url_marked; [|exact Hurl]. by constructor.
  - apply url_free_quiet; [by apply mark_quiet|]. apply IH. destruct Hs as [_ Hs].
    by apply url_free_suffix in Hs.
Qed.

(** A match consumes a part of the text. *)
Definition suffix_of (s t : string) : Prop := ∃ seg, t = seg +:+ s.

Lemma suffix_refl s : suffix_of s s.
Proof. by exists "". Qed.
Lemma suffix_byte a s t : suffix_of s t → suffix_of s (String a t).
Proof. intros [seg ->]. by exists (String a seg). Qed.
Lemma suffix_trans s t u : suffix_of s t → suffix_of t u → suffix_of s u.
Proof. intros [x ->] [y ->]. exists (y +:+ x). by rewrite append_assoc. Qed.

Lemma rmatch_suffix r : ∀ k pos res, rmatch r k pos = Some res →
  ∃ pos1, suffix_of pos1.2 pos.2 ∧ k pos1 = Some res.
Proof.
  induction r as [|p|r1 IH1 r2 IH2|r1 IH1 r2 IH2|r IH|]; intros k pos res; cbn [rmatch].
  - intros ?. exists pos. by split; [apply suffix_refl|].
  - destruct pos as [b [|a s]]; [done|]. cbn. destruct (p a); [|done]. intros ?.
    exists (Some a, s). split; [|done]. by apply suffix_byte, suffix_refl.
  - intros (pos1 & Hs1 & (pos2 & Hs2 & Hk)%IH2)%IH1. exists pos2. split; [|done].
    by eapply suffix_trans.
  - destruct (rmatch r1 k pos) as [res'|] eqn:H1; [|by apply IH2]. intros [= ->]. by apply IH1.
  - generalize (String.length pos.2). intros fuel. revert pos.
    induction fuel as [|fuel IHf]; intros pos; [by apply IH|].
    intros (pos1 & Hs1 & Hmore)%IH. cbn in Hmore.
    destruct ((fix more (fuel : nat) (pos : option ascii * string) := _) fuel pos1) eqn:Hm.
    + injection Hmore as ->. destruct (IHf pos1 Hm) as (pos2 & Hs2 & Hk). exists pos2.
      split; [by eapply suffix_trans|done].
    + by exists pos1.
  - destruct (at_boundary pos); [|done]. intros ?. exists pos. by split; [apply suffix_refl|].
Qed.

(** Regular expressions whose first byte is of a kind. *)
Fixpoint starts (p : ascii → bool) (r : regex) : Prop :=
  match r with
  | REmpty | RWordBoundary => False
  | RClass q => ∀ a, q a = true → p a = true
  | RSeq RWordBoundary r => starts p r
  | RSeq r _ => starts p r
  | RAlt r r' => starts p r ∧ starts p r'
  | RPlus r => starts p r
  end.

Lemma rmatch_starts p r : starts p r → ∀ k pos res, rmatch r k pos = Some res →
  ∃ a rest pos1, pos.2 = String a rest ∧ p a = true ∧ suffix_of pos1.2 rest ∧ k pos1 = Some res.
Proof.
  assert (∀ r1 r2, (starts p r1 → ∀ k pos res, rmatch r1 k pos = Some res →
      ∃ a rest pos1, pos.2 = String a rest ∧ p a = true ∧ suffix_of pos1.2 rest ∧ k pos1 = Some res) →
    starts p r1 → ∀ k pos res, rmatch (RSeq r1 r2) k pos = Some res →
      ∃ a rest pos1, pos.2 = String a rest ∧ p a = true ∧ suffix_of pos1.2 rest ∧ k pos1 = Some res)
    as Hseq.
  { intros r1 r2 IH Hr k pos res Hm. cbn [rmatch] in Hm.
    destruct (IH Hr _ _ _ Hm) as (a & rest & pos1 & Hpos & Ha & Hs & Hm2).
    apply rmatch_suffix in Hm2 as (pos2 & Hs2 & Hk). exists a, rest, pos2.
    split_and!; [done|done|by eapply suffix_trans|done]. }
  induction r as [|q|r1 IH1 r2 IH2|r1 IH1 r2 IH2|r IH|]; try done.
  - intros Hq k [b [|a s]] res; cbn; [done|]. destruct (q a) eqn:Ha; [|done]. intros ?.
    exists a, s, (Some a, s). split_and!; [done|by apply Hq|apply suffix_refl|done].
  - intros Hr. destruct r1; try exact (Hseq _ r2 IH1 Hr). intros k pos res. cbn [rmatch].
    destruct (at_boundary pos); [|done]. by apply IH2.
  - intros [Hr1 Hr2] k pos res. cbn [rmatch]. destruct (rmatch r1 k pos) eqn:Hm.
    + intros [= <-]. by apply IH1.
    + by apply IH2.
  - intros Hr k pos res. cbn [rmatch]. generalize (String.length pos.2). intros fuel. revert pos.
    induction fuel as [|fuel IHf]; intros pos; [by apply IH|].
    intros (a & rest & pos1 & Hpos & Ha & Hs & Hmore)%(IH Hr). exists a, rest. cbn in Hmore.
    destruct ((fix more (fuel : nat) (pos : option ascii * string) := _) fuel pos1) eqn:Hm.
    + injection Hmore as ->. destruct (IHf pos1 Hm) as (a' & rest' & pos2 & Hpos1 & _ & Hs2 & Hk).
      exists pos2. split_and!; [done|done| |done].
      eapply suffix_trans; [exact Hs2|]. eapply suffix_trans; [|exact Hs]. rewrite Hpos1.
      by apply suffix_byte, suffix_refl.
    + by exists pos1.
Qed.

Definition visible (a : ascii) : bool := negb (re_space a).

(** A pass of the patterns marks. *)
Lemma replace_matches_marked fuel r m pos :
  starts visible r → mark m → marked pos.2 (replace_matches fuel r m pos).
Proof.
  intros Hr Hm. revert pos. induction fuel as [|fuel IH]; intros pos; [apply marked_refl|].
  cbn [replace_matches]. destruct (rmatch r Some pos) as [pos'|] eqn:Hmatch.
  - destruct (rmatch_starts visible r Hr _ _ _ Hmatch) as (a & rest & pos1 & -> & Ha & [seg Hs] & [= ->]).
    rewrite Hs. apply marked_segment; [by apply negb_true_iff|done|apply IH].
  - destruct (pos.2) as [|a rest]; [constructor|]. constructor. apply (IH (Some a, rest)).
Qed.

(** The pass of the URL pattern leaves no URL. *)
Lemma replace_urls fuel m pos :
  mark m → String.length pos.2 < fuel → url_free (replace_matches fuel urlPattern m pos).
Proof.
  intros Hm. revert pos. induction fuel as [|fuel IH]; intros pos Hf; [lia|]. cbn [replace_matches].
  assert (starts visible urlPattern) as Hstarts.
  { cbn. intros a. destruct a as [[] [] [] [] [] [] [] []]; vm_compute; congruence. }
  destruct (rmatch urlPattern Some pos) as [pos'|] eqn:Hmatch.
  - apply url_free_quiet; [by apply mark_quiet|]. apply IH.
    destruct (rmatch_starts visible _ Hstarts _ _ _ Hmatch) as (a & rest & pos1 & Hpos & _ & [seg Hs] & [= ->]).
    rewrite Hpos, Hs in Hf. cbn in Hf. rewrite length_append in Hf. lia.
  - destruct pos as [b [|a rest]]; cbn [snd] in *; [by split; [intros [? ?]|]|].
    split; [|apply IH; cbn in *; lia]. intros Hurl.
    assert (is_Some (rmatch urlPattern Some (b, String a rest))) as [? ?]; [|congruence].
    eapply url_marked; [|exact Hurl]. constructor.
    by apply (replace_matches_marked fuel urlPattern m (Some a, rest)).
Qed.

(** So does the replacement of a secret that begins with a visible byte. *)
Lemma drop_bytes_append old s : drop_bytes (String.length old) (old +:+ s) = s.
Proof. induction old as [|a old IH]; [by destruct s|done]. Qed.

Lemma prefix_split old s : String.prefix old s = true → ∃ rest, s = old +:+ rest.
Proof.
  revert s. induction old as [|a old IH]; intros s; [by exists s|]. destruct s as [|b s]; [done|]. cbn.
  destruct (ascii_dec a b) as [->|]; [|done]. intros [rest ->]%IH. by exists rest.
Qed.

Lemma replace_go_skip old new skip s : replace_go old new skip s = replace_go old new 0 (drop_bytes skip s).
Proof.
  revert skip. induction s as [|a s IH]; intros [|skip]; try done. cbn [replace_go drop_bytes]. apply IH.
Qed.

Lemma replace_all_marked old m s a rest :
  old = String a rest → re_space a = false → mark m → marked s (replace_go old m 0 s).
Proof.
  intros -> Ha Hm. remember (String.length s) as n eqn:Hn.
  assert (String.length s ≤ n) as Hle by lia. clear Hn. revert s Hle.
  induction n as [|n IH]; intros [|b s] Hle; cbn in Hle; try lia; [constructor|constructor|].
  cbn [replace_go]. destruct (String.prefix (String a rest) (String b s)) eqn:Hp.
  - apply prefix_split in Hp as [tail [= -> ->]].
    rewrite replace_go_skip. cbn [String.length Nat.pred]. rewrite drop_bytes_append.
    apply marked_segment; [done|done|]. apply IH. rewrite length_append in Hle. lia.
  - constructor. apply IH. lia.
Qed.

Definition begins_visible (s : string) : Prop :=
  match s with String a _ => re_space a = false | EmptyString => True end.

(** No URL is left in a redacted text, if no secret begins with a blank. *)
Lemma text_hides_urls input secrets :
  Forall begins_visible secrets →
  url_free (Text input secrets).
Proof.
  intros Hsecrets. unfold Text.
  set (urls := ReplaceAllString urlPattern input "[REDACTED_URL]").
  assert (url_free urls) as Hurls by (apply replace_urls; [by eexists|simpl; lia]).
  assert (mark "[REDACTED_ENDPOINT]" ∧ mark "[REDACTED]") as [Hend Hsecret] by (split; by eexists).
  assert (starts visible ipv4PortPattern ∧ starts visible hostPortPattern) as [H4 Hhost].
  { split; cbn; intros a; destruct a as [[] [] [] [] [] [] [] []]; vm_compute; congruence. }
  set (v4 := ReplaceAllString ipv4PortPattern urls "[REDACTED_ENDPOINT]").
  assert (url_free v4) as Hv4
    by (eapply url_free_marked; [|exact Hurls]; by apply (replace_matches_marked _ _ _ (None, urls))).
  set (hosts := ReplaceAllString hostPortPattern v4 "[REDACTED_ENDPOINT]").
  assert (url_free hosts) as Hhosts
    by (eapply url_free_marked; [|exact Hv4]; by apply (replace_matches_marked _ _ _ (None, v4))).
  assert (∀ s, s ∈ sort_secrets (filter (λ s, s ≠ "") secrets) →
    ∃ a rest, s = String a rest ∧ re_space a = false) as Hall.
  { intros s Hs. rewrite elem_of_sort_secrets, list_elem_of_filter in Hs. destruct Hs as [Hne Hin].
    rewrite Forall_forall in Hsecrets. specialize (Hsecrets s).
    destruct s as [|a rest]; [done|]. exists a, rest. split; [done|]. by apply Hsecrets, list_elem_of_In. }
  revert Hall Hhosts. generalize (sort_secrets (filter (λ s, s ≠ "") secrets)) as l. generalize hosts.
  clear -Hsecret. intros output l. revert output.
  induction l as [|s l IH]; intros output Hall Hfree; [done|]. cbn [foldl].
  apply IH; [intros; apply Hall; by right|]. destruct (Hall s ltac:(by left)) as (a & rest & Hs & Ha).
  eapply url_free_marked; [|exact Hfree]. by eapply replace_all_marked.
Qed.

(** A trimmed text does not begin with a blank. *)
Lemma TrimSpace_visible s : begins_visible (TrimSpace s).
Proof.
  assert (begins_visible (trim_left s)) as Hleft.
  { assert (∀ n s, String.length s ≤ n → begins_visible (trim_left s)) as Hall; [|by eapply Hall].
    clear. assert (∀ a, space1 a = false → re_space a = false) as Hspace.
    { intros a. destruct a as [[] [] [] [] [] [] [] []]; vm_compute; congruence. }
    induction n as [|n IH]; intros [|a r1] Hlen; cbn in Hlen; try lia; [done|done|].
    cbn [trim_left]. destruct (space1 a) eqn:Ha; [apply IH; lia|].
    destruct r1 as [|b r2]; [by apply Hspace|]. cbn in Hlen.
    destruct (space2 a b); [apply IH; lia|]. destruct r2 as [|c r3]; [by apply Hspace|]. cbn in Hlen.
    destruct (space3 a b c); [apply IH; lia|by apply Hspace]. }
  destruct (trim_rev_suffix (String.rev (trim_left s))) as [seg Hseg].
  unfold TrimSpace. set (r := trim_rev _) in *.
  assert (trim_left s = String.rev r +:+ String.rev seg) as Hpre
    by by rewrite <-(rev_involutive (trim_left s)), Hseg, rev_append.
  rewrite Hpre in Hleft. by destruct (String.rev r).
Qed.

(** ** What is left of the input

    Each byte of a redacted text is a byte of the input that was kept, or was put there
    by a mark; the first byte of a mark remembers what the mark replaced. *)

Inductive item := Kept (a : ascii) | Put (a : ascii) (replaced : string).

Definition item_out (x : item) : ascii := match x with Kept a | Put a _ => a end.
Definition item_src (x : item) : string := match x with Kept a => String a "" | Put _ r => r end.
Fixpoint out_of (xs : list item) : string :=
  match xs with [] => "" | x :: xs => String (item_out x) (out_of xs) end.
Fixpoint src_of (xs : list item) : string :=
  match xs with [] => "" | x :: xs => item_src x +:+ src_of xs end.
Fixpoint keep_all (s : string) : list item :=
  match s with EmptyString => [] | String a s => Kept a :: keep_all s end.
Fixpoint put_mark (m replaced : string) : list item :=
  match m with EmptyString => [] | String a m => Put a replaced :: put_mark m "" end.

(** The letters of [[REDACTED]], [[REDACTED_URL]] and [[REDACTED_ENDPOINT]]. *)
Definition mark_byte (a : ascii) : bool := has_byte a "[]_ACDEILNOPRTU".
Definition mark_text (m : string) : Prop := m ≠ "" ∧ all_bytes mark_byte m = true.

(** A pass over the text replaces segments of it by marks. *)
Inductive pass : list item → list item → Prop :=
  | pass_nil : pass [] []
  | pass_byte x xs ys : pass xs ys → pass (x :: xs) (x :: ys)
  | pass_mark x seg xs ys m : mark_text m → pass xs ys →
      pass (x :: seg ++ xs) (put_mark m (src_of (x :: seg)) ++ ys).

(** A text begins with kept bytes that spell [t]; some kept bytes in a row spell it. *)
Fixpoint kept_prefix (t : string) (xs : list item) : bool :=
  match t, xs with
  | EmptyString, _ => true
  | String a t, Kept b :: xs => Ascii.eqb a b && kept_prefix t xs
  | _, _ => false
  end.
Fixpoint keeps (t : string) (xs : list item) : bool :=
  kept_prefix t xs || match xs with [] => false | _ :: xs => keeps t xs end.

(** What a mark leaves of the text: its bytes are those of marks, and a mark byte that
    remembers nothing follows another one. *)
Fixpoint marked_well (after_mark : bool) (xs : list item) : Prop :=
  match xs with
  | [] => True
  | Kept _ :: xs => marked_well false xs
  | Put a r :: xs => mark_byte a = true ∧ (r = "" → after_mark = true) ∧ marked_well true xs
  end.

Lemma out_of_app xs ys : out_of (xs ++ ys) = out_of xs +:+ out_of ys.
Proof. induction xs as [|x xs IH]; [done|]. cbn. by rewrite IH. Qed.
Lemma src_of_app xs ys : src_of (xs ++ ys) = src_of xs +:+ src_of ys.
Proof. induction xs as [|x xs IH]; [done|]. cbn. by rewrite IH, append_assoc. Qed.
Lemma keep_all_text s : out_of (keep_all s) = s ∧ src_of (keep_all s) = s.
Proof. induction s as [|a s [IH1 IH2]]; [done|]. cbn. by rewrite IH1, IH2. Qed.
Lemma keep_all_well b s : marked_well b (keep_all s).
Proof. revert b. by induction s as [|a s IH]; intros b; cbn. Qed.
Lemma put_mark_out m r : out_of (put_mark m r) = m.
Proof. revert r. induction m as [|a m IH]; intros r; [done|]. cbn. by rewrite IH. Qed.
Lemma put_mark_src m r : m ≠ "" → src_of (put_mark m r) = r.
Proof.
  assert (∀ m, src_of (put_mark m "") = "") as Hnil by (clear; intros m; by induction m).
  destruct m as [|a m]; [done|]. intros _. cbn. by rewrite Hnil, append_nil.
Qed.

Lemma out_of_split old rest xs :
  out_of xs = old +:+ rest → ∃ l r, xs = l ++ r ∧ out_of l = old ∧ out_of r = rest.
Proof.
  revert xs. induction old as [|a old IH]; intros xs Hxs; [by exists [], xs|].
  destruct xs as [|x xs]; [done|]. injection Hxs as Hx (l & r & -> & <- & <-)%IH.
  exists (x :: l), r. cbn. by rewrite Hx.
Qed.

Lemma pass_refl xs : pass xs xs.
Proof. induction xs; by constructor. Qed.

Lemma pass_src xs ys : pass xs ys → src_of ys = src_of xs.
Proof.
  induction 1 as [|x xs ys Hp IH|x seg xs ys m [Hm _] Hp IH]; [done| |].
  - cbn. by rewrite IH.
  - rewrite src_of_app, put_mark_src, IH by done. cbn. by rewrite src_of_app, append_assoc.
Qed.

(** A pass brings no kept bytes together. *)
Lemma pass_kept_prefix t xs ys : pass xs ys → kept_prefix t ys = true → kept_prefix t xs = true.
Proof.
  intros Hp. revert t. induction Hp as [|x xs ys Hp IH|x seg xs ys m [Hm _] Hp IH]; intros t; [done| |].
  - destruct t as [|a t]; [done|]. destruct x as [b|b r]; [|done]. cbn.
    rewrite !andb_true_iff. intros [? ?]. split; [done|by apply IH].
  - destruct t as [|a t]; [done|]. by destruct m.
Qed.

Lemma keeps_app t xs ys : keeps t (xs ++ ys) = false → keeps t ys = false.
Proof. induction xs as [|x xs IH]; [done|]. cbn. by intros [_ ?%IH]%orb_false_iff. Qed.

Lemma keeps_mark t m r ys : t ≠ "" → keeps t (put_mark m r ++ ys) = keeps t ys.
Proof.
  intros Ht. revert r. induction m as [|a m IH]; intros r; [done|]. cbn.
  destruct t; [done|]. apply IH.
Qed.

Lemma pass_keeps t xs ys : t ≠ "" → pass xs ys → keeps t xs = false → keeps t ys = false.
Proof.
  intros Ht. induction 1 as [|x xs ys Hp IH|x seg xs ys m Hm Hp IH]; [done| |].
  - cbn [keeps]. intros [Hno Hxs]%orb_false_iff. apply orb_false_iff. split; [|by apply IH].
    apply not_true_iff_false. intros Hyes. apply (pass_kept_prefix t (x :: xs)) in Hyes; [congruence|].
    by constructor.
  - change (x :: seg ++ xs) with ((x :: seg) ++ xs). rewrite keeps_mark by done.
    intros Hno%keeps_app. by apply IH.
Qed.

Lemma marked_well_weaken b xs : marked_well b xs → marked_well true xs.
Proof. destruct xs as [|[a|a r] xs]; [done|done|]. cbn. tauto. Qed.

Lemma marked_well_app b xs ys : marked_well b (xs ++ ys) → marked_well true ys.
Proof.
  revert b. induction xs as [|[a|a r] xs IH]; intros b; cbn; [apply marked_well_weaken|apply IH|].
  intros (_ & _ & Hxs). by eapply IH.
Qed.

Lemma marked_well_mark m ys : all_bytes mark_byte m = true → marked_well true ys →
  marked_well true (put_mark m "" ++ ys).
Proof.
  intros Hm Hys. induction m as [|a m IH]; [done|]. cbn in Hm |- *.
  apply andb_true_iff in Hm as [? ?]. split_and!; [done|done|by apply IH].
Qed.

Lemma pass_well b xs ys : pass xs ys → marked_well b xs → marked_well b ys.
Proof.
  intros Hp. revert b. induction Hp as [|x xs ys Hp IH|x seg xs ys m [Hm Hbytes] Hp IH]; intros b; [done| |].
  - destruct x as [a|a r]; cbn; [apply IH|]. intros (? & ? & ?). split_and!; [done|done|by apply IH].
  - intros Hx. assert (marked_well true ys) as Hys.
    { apply IH. by apply (marked_well_app b (x :: seg)). }
    destruct m as [|a m]; [done|]. cbn in Hbytes. apply andb_true_iff in Hbytes as [Ha Hrest].
    cbn [put_mark app marked_well]. split_and!; [done| |by apply marked_well_mark].
    destruct x as [c|c r]; cbn; [done|]. destruct r; [|done]. intros _. by apply Hx.
Qed.

(** The passes of [Text] are passes, and the pass of a secret keeps no bytes that spell it. *)
Lemma replace_matches_pass fuel r m pos xs :
  starts visible r → mark_text m → out_of xs = pos.2 →
  ∃ ys, pass xs ys ∧ out_of ys = replace_matches fuel r m pos.
Proof.
  intros Hr Hm. revert pos xs. induction fuel as [|fuel IH]; intros pos xs Hxs.
  { exists xs. split; [apply pass_refl|done]. }
  cbn [replace_matches]. destruct (rmatch r Some pos) as [pos'|] eqn:Hmatch.
  - destruct (rmatch_starts visible r Hr _ _ _ Hmatch) as (a & rest & pos1 & Hpos & _ & [seg Hs] & [= ->]).
    rewrite Hpos, Hs in Hxs. change (String a (seg +:+ pos'.2)) with (String a seg +:+ pos'.2) in Hxs.
    apply out_of_split in Hxs as ([|x l] & xs' & -> & Hl & Hxs'); [done|].
    destruct (IH pos' xs' Hxs') as (ys & Hp & Hys).
    exists (put_mark m (src_of (x :: l)) ++ ys). split; [by apply pass_mark|].
    by rewrite out_of_app, put_mark_out, Hys.
  - destruct (pos.2) as [|a rest]; destruct xs as [|x xs]; try done.
    { exists []. by split; [constructor|]. }
    injection Hxs as Hx Hrest. destruct (IH (Some a, rest) xs Hrest) as (ys & Hp & Hys).
    exists (x :: ys). split; [by constructor|]. cbn. by rewrite Hx, Hys.
Qed.

Lemma kept_prefix_out t xs : kept_prefix t xs = true → String.prefix t (out_of xs) = true.
Proof.
  revert t. induction xs as [|[b|b r] xs IH]; intros [|a t]; cbn; try done.
  intros [->%Ascii.eqb_eq Ht]%andb_true_iff. destruct (ascii_dec b b); [by apply IH|done].
Qed.

Lemma replace_go_pass old m xs :
  old ≠ "" → mark_text m →
  ∃ ys, pass xs ys ∧ out_of ys = replace_go old m 0 (out_of xs) ∧ keeps old ys = false.
Proof.
  intros Hold Hm. remember (length xs) as n eqn:Hn. assert (length xs ≤ n) as Hle by lia. clear Hn.
  revert xs Hle. induction n as [|n IH]; intros [|x xs] Hle; cbn in Hle; try lia.
  1, 2: exists []; split_and!; [constructor|done|by destruct old].
  cbn [out_of replace_go]. destruct (String.prefix old (String (item_out x) (out_of xs))) eqn:Hp.
  - destruct old as [|a old]; [done|]. pose proof Hp as [tail Hsplit]%prefix_split.
    injection Hsplit as _ Hsplit. rewrite replace_go_skip, Hsplit. cbn [String.length Nat.pred].
    rewrite drop_bytes_append. apply out_of_split in Hsplit as (seg & r & -> & Hseg & <-).
    destruct (IH r) as (ys & Hpass & Hys & Hno); [rewrite length_app in Hle; lia|].
    exists (put_mark m (src_of (x :: seg)) ++ ys). split_and!.
    + by apply pass_mark.
    + by rewrite out_of_app, put_mark_out, Hys.
    + by rewrite keeps_mark.
  - destruct (IH xs) as (ys & Hpass & Hys & Hno); [lia|]. exists (x :: ys).
    assert (pass (x :: xs) (x :: ys)) as Hpx by by constructor.
    split_and!; [done|cbn; by rewrite Hys|]. cbn [keeps]. rewrite Hno, orb_false_r.
    apply not_true_iff_false. intros Hyes. apply (pass_kept_prefix old _ _ Hpx), kept_prefix_out in Hyes.
    cbn [out_of] in Hyes. congruence.
Qed.

(** A piece of a redacted text: what was replaced, what was put there instead and what
    was kept up to the next piece. *)
Record Piece := mkPiece { pc_replaced : string; pc_inserted : string; pc_kept : string }.
Fixpoint pieces_src (ps : list Piece) : string :=
  match ps with [] => "" | p :: ps => pc_replaced p +:+ pc_kept p +:+ pieces_src ps end.
Fixpoint pieces_out (ps : list Piece) : string :=
  match ps with [] => "" | p :: ps => pc_inserted p +:+ pc_kept p +:+ pieces_out ps end.

(** [output] is [input] in which nonempty stretches have been replaced by letters of the
    marks, so that no secret is a part of a stretch that was kept. *)
Definition redaction (secrets : list string) (input output : string) : Prop :=
  ∃ first ps,
    input = first +:+ pieces_src ps ∧ output = first +:+ pieces_out ps ∧
    Forall (λ p, pc_replaced p ≠ "" ∧ pc_inserted p ≠ "" ∧
                 all_bytes mark_byte (pc_inserted p) = true) ps ∧
    ∀ secret, secret ∈ secrets → secret ≠ "" →
      Contains first secret = false ∧ Forall (λ p, Contains (pc_kept p) secret = false) ps.

(** The pieces of a text of items. *)
Fixpoint group (xs : list item) : string * list Piece :=
  match xs with
  | [] => ("", [])
  | Kept a :: xs => let '(first, ps) := group xs in (String a first, ps)
  | Put a r :: xs =>
      match group xs with
      | (EmptyString, p :: ps) =>
          ("", mkPiece (r +:+ pc_replaced p) (String a (pc_inserted p)) (pc_kept p) :: ps)
      | (first, ps) => ("", mkPiece r (String a "") first :: ps)
      end
  end.

Lemma group_texts xs : let '(first, ps) := group xs in
  src_of xs = first +:+ pieces_src ps ∧ out_of xs = first +:+ pieces_out ps.
Proof.
  induction xs as [|[a|a r] xs IH]; [done| |]; cbn; destruct (group xs) as [first ps];
    destruct IH as [-> ->]; [done|].
  destruct first as [|b first]; [destruct ps as [|p ps]|]; cbn; split; try done;
    by rewrite ?append_assoc, ?append_nil.
Qed.

Lemma group_pieces b xs : marked_well b xs → let '(first, ps) := group xs in
  Forall (λ p, pc_inserted p ≠ "" ∧ all_bytes mark_byte (pc_inserted p) = true) ps ∧
  Forall (λ p, pc_replaced p ≠ "") (if b then match first with EmptyString => tail ps | _ => ps end else ps).
Proof.
  revert b. induction xs as [|[a|a r] xs IH]; intros b; [by destruct b| |]; cbn [marked_well group].
  - intros Hw. specialize (IH false Hw). destruct (group xs) as [first ps].
    destruct IH. split; [done|by destruct b].
  - intros (Ha & Hr & Hw). specialize (IH true Hw). destruct (group xs) as [first ps].
    destruct IH as [Hps Hsrc].
    assert (r ≠ "" ∨ b = true) as Hor by (destruct r; [right; by apply Hr|by left]).
    destruct first as [|c first]; [destruct ps as [|p ps]|].
    + split; [constructor; [by cbn [pc_inserted all_bytes]; rewrite Ha|done]|]. destruct b; [done|].
      destruct Hor; [|done]. by constructor.
    + apply Forall_cons_iff in Hps as [[_ Hp] Hps]. split.
      * constructor; [|done]. cbn [pc_inserted all_bytes]. by rewrite Ha, Hp.
      * cbn in Hsrc. destruct b; [done|]. destruct Hor; [|done]. constructor; [|done]. cbn. by destruct r.
    + split; [constructor; [by cbn [pc_inserted all_bytes]; rewrite Ha|done]|]. destruct b; [done|].
      destruct Hor; [|done]. by constructor.
Qed.

Lemma group_keeps t xs : t ≠ "" → keeps t xs = false → let '(first, ps) := group xs in
  Contains first t = false ∧ Forall (λ p, Contains (pc_kept p) t = false) ps.
Proof.
  intros Ht.
  assert (∀ xs t, String.prefix t (group xs).1 = true → kept_prefix t xs = true) as Hprefix.
  { clear. induction xs as [|[a|a r] xs IH]; intros [|b t]; try done.
    - cbn. destruct (group xs) as [first ps] eqn:Hg. cbn. destruct (ascii_dec b a) as [->|]; [|done].
      rewrite Ascii.eqb_refl. cbn. intros ?. apply IH. by rewrite ?Hg.
    - cbn. destruct (group xs) as [[|c first] [|p ps]]; done. }
  induction xs as [|x xs IH]; [by destruct t|]. cbn [keeps]. intros [Hno Hxs]%orb_false_iff.
  specialize (IH Hxs). specialize (Hprefix (x :: xs) t). destruct x as [a|a r]; cbn [group] in *;
    destruct (group xs) as [first ps]; destruct IH as [Hfirst Hps].
  - split; [|done]. cbn [Contains]. rewrite Hfirst, orb_false_r. apply not_true_iff_false.
    intros Hyes. by rewrite Hprefix in Hno.
  - destruct first as [|c first]; [destruct ps as [|p ps]|]; (split; [by destruct t|]).
    + by constructor.
    + apply Forall_cons_iff in Hps as [? ?]. by constructor.
    + by constructor.
Qed.

(** Replacing the secrets one after another keeps no bytes that spell one. *)
Lemma replaced_secrets_pass input l seen xs :
  (∀ t, t ∈ l → t ≠ "") → marked_well false xs → src_of xs = input →
  (∀ t, t ∈ seen → t ≠ "" → keeps t xs = false) →
  ∃ ys, marked_well false ys ∧ src_of ys = input ∧
    out_of ys = foldl (λ output secret, ReplaceAll output secret "[REDACTED]") (out_of xs) l ∧
    ∀ t, t ∈ (seen ++ l : list string) → t ≠ "" → keeps t ys = false.
Proof.
  revert seen xs. induction l as [|t l IH]; intros seen xs Hl Hw Hs Hseen.
  { exists xs. split_and!; [done..|]. intros t. rewrite app_nil_r. apply Hseen. }
  assert (t ≠ "") as Ht by (apply Hl; by left).
  destruct (replace_go_pass t "[REDACTED]" xs Ht) as (ys & Hp & Hys & Hno); [by split|].
  destruct (IH (seen ++ [t]) ys) as (zs & ? & ? & Hzs & Hall).
  - intros. apply Hl. by right.
  - by eapply pass_well.
  - by rewrite (pass_src _ _ Hp).
  - intros t' [Hin| ->%list_elem_of_singleton]%elem_of_app Ht'; [|done]. eapply pass_keeps; eauto.
  - exists zs. rewrite <-app_assoc in Hall. split_and!; [done..| |done].
    rewrite Hzs, Hys. by destruct t.
Qed.

Lemma pattern_pass r m xs :
  starts visible r → mark_text m →
  ∃ ys, pass xs ys ∧ out_of ys = ReplaceAllString r (out_of xs) m.
Proof. intros ? ?. by apply replace_matches_pass. Qed.

(** What is left is free of every secret, whatever the secrets are. *)
Lemma text_is_redaction input secrets : redaction secrets input (Text input secrets).
Proof.
  assert (starts visible urlPattern ∧ starts visible ipv4PortPattern ∧ starts visible hostPortPattern)
    as (H1 & H2 & H3).
  { split_and!; cbn; intros a; destruct a as [[] [] [] [] [] [] [] []]; vm_compute; congruence. }
  destruct (keep_all_text input) as [Hout Hsrc].
  destruct (pattern_pass _ "[REDACTED_URL]" (keep_all input) H1) as (x1 & P1 & O1); [by split|].
  destruct (pattern_pass _ "[REDACTED_ENDPOINT]" x1 H2) as (x2 & P2 & O2); [by split|].
  destruct (pattern_pass _ "[REDACTED_ENDPOINT]" x2 H3) as (x3 & P3 & O3); [by split|].
  destruct (replaced_secrets_pass input (sort_secrets (filter (λ s, s ≠ "") secrets)) [] x3)
    as (ys & Hw & Hs & Ho & Hno).
  - intros s. rewrite elem_of_sort_secrets, list_elem_of_filter. by intros [? _].
  - eapply pass_well, pass_well, pass_well, keep_all_well; eauto.
  - by rewrite (pass_src _ _ P3), (pass_src _ _ P2), (pass_src _ _ P1).
  - by intros t ?%elem_of_nil.
  - assert (out_of ys = Text input secrets) as <- by (unfold Text; by rewrite Ho, O3, O2, O1, Hout).
    assert (∀ t, t ∈ secrets → t ≠ "" → let '(first, ps) := group ys in
      Contains first t = false ∧ Forall (λ p, Contains (pc_kept p) t = false) ps) as Hkept.
    { intros t Hin Ht. apply group_keeps; [done|]. apply Hno; [|done].
      by apply elem_of_sort_secrets, list_elem_of_filter. }
    pose proof (group_texts ys) as Htexts. pose proof (group_pieces _ _ Hw) as Hpieces.
    destruct (group ys) as [first ps]. destruct Htexts as [Hsrc' Hout']. destruct Hpieces as [Ha Hb].
    exists first, ps. split_and!; [congruence|done| |done].
    rewrite Forall_forall in *. intros p Hp. split; [by apply Hb|by apply Ha].
Qed.

(** A secret inside a mark is left there: only stretches of the input are free of it. *)
Example redaction_ex :
  Text "user RED at http://x/RED" ["RED"] = "user [REDACTED] at [[REDACTED]ACTED_URL]" ∧
  Text "by" ["b[RE"; "y"] = "b[REDACTED]".
Proof. split; vm_compute; reflexivity. Qed.
