(* ===== verification/Model.v ===== *)
(** * subscription/model.go: the data subscriptions and the pool exchange. *)
From stdpp Require Import gmap strings list.
From S2P Require Import Prelude.
From stdpp Require Import options.

(** [Format] is a string type with three named values. *)
Abbreviation Format := string (only parsing).
Definition FormatSingBox : Format := "sing-box".
Definition FormatClash : Format := "clash".
Definition FormatURI : Format := "uri".

(** [Options] is a [json.RawMessage]: the bytes, as a string. *)
Record NodeSpec := mkNodeSpec {
  spec_ID : string;
  spec_Tag : string;
  spec_Type : string;
  spec_Format : Format;
  spec_Options : string;
  spec_SourceIDs : list string;
}.

Record Source := mkSource {
  source_ID : string;
  source_URL : string;
}.

(** Reading a nil map is reading an empty one; times are as in GoBase. *)
Record Snapshot := mkSnapshot {
  snap_ExpiresAt : gmap string Z;
  snap_Nodes : list NodeSpec;
  snap_SourceErrors : gmap string string;
}.

#[export] Instance NodeSpec_eq_dec : EqDecision NodeSpec.
Proof. solve_decision. Defined.
#[export] Instance Source_eq_dec : EqDecision Source.
Proof. solve_decision. Defined.
