(* ===== verification/Selector.v ===== *)
(** * pool/selector.go: the round-robin selector and its attempts. *)
From stdpp Require Import gmap strings list fin_maps.
From S2P Require Import Prelude.
From stdpp Require Import options.

(** ** Data *)

(** [pool.Candidate] of registry.go. *)
Record Candidate := mkCandidate {
  cand_ID : string;
  cand_Eligible : bool;
  cand_HalfOpen : bool;
}.

(** A retired reservation: whether it committed, and past which absolute slot. *)
Record reservationResult := mkResult {
  rr_committed : bool;
  rr_target : Z;
}.

Record Selector := mkSelector {
  cursor : Z;
  reservationNext : Z;
  nextTicket : Z;
  retireTicket : Z;
  results : gmap Z reservationResult;
}.

(** The field [selector] of [Attempt] is the selector the operations below take
    as an argument; a nil [returned] map reads like an empty one. *)
Record Attempt := mkAttempt {
  at_candidates : list Candidate;
  at_start : nat;
  at_offset : nat;
  at_returned : gmap string nat;
  at_startAbsolute : Z;
  at_ticket : Z;
  at_reserved : bool;
  at_finished : bool;
}.

(** ** Operations *)

Definition NewSelector : Selector := mkSelector 0 0 0 0 ∅.

Definition Begin (candidates : list Candidate) (s : Selector) : Selector * Attempt :=
  if decide (length candidates = 0) then
    (s, mkAttempt [] 0 0 ∅ 0 0 false false)
  else
    let ticket := nextTicket s in
    let startAbsolute := reservationNext s in
    (mkSelector (cursor s) (wrap64 (reservationNext s + 1)) (wrap64 (nextTicket s + 1))
       (retireTicket s) (results s),
     mkAttempt candidates
       (Z.to_nat (startAbsolute `mod` Z.of_nat (length candidates)))
       0 ∅ startAbsolute ticket true false).

(** The [for attempt.offset < len(attempt.candidates)] loop of [Next]; the fuel
    is the number of candidates not yet visited. *)
Fixpoint next_loop (fuel : nat) (a : Attempt) : Attempt * option string :=
  match fuel with
  | 0 => (a, None)
  | S fuel =>
      if decide (at_offset a < length (at_candidates a)) then
        let offset := at_offset a in
        let index := (at_start a + offset) `mod` length (at_candidates a) in
        let a' returned :=
          mkAttempt (at_candidates a) (at_start a) (S (at_offset a)) returned
            (at_startAbsolute a) (at_ticket a) (at_reserved a) (at_finished a) in
        match at_candidates a !! index with
        | Some candidate =>
            if cand_Eligible candidate then
              (a' (<[cand_ID candidate := offset]> (at_returned a)), Some (cand_ID candidate))
            else next_loop fuel (a' (at_returned a))
        | None => (a, None)
        end
      else (a, None)
  end.

(** [("", false)] is [None]. *)
Definition Next (a : Attempt) : Attempt * option string :=
  if decide (length (at_candidates a) = 0) then (a, None)
  else if at_finished a then (a, None)
  else next_loop (length (at_candidates a) - at_offset a) a.

(** The retiring [for] loop of [finish]; each turn deletes one entry of
    [results], whose size is the fuel. *)
Fixpoint retire_loop (fuel : nat) (s : Selector) : Selector :=
  match fuel with
  | 0 => s
  | S fuel =>
      match results s !! retireTicket s with
      | None => s
      | Some next =>
          let cursor' :=
            if rr_committed next && (cursor s <? rr_target next)%Z
            then rr_target next else cursor s in
          retire_loop fuel
            (mkSelector cursor' (reservationNext s) (nextTicket s)
               (wrap64 (retireTicket s + 1)) (delete (retireTicket s) (results s)))
      end
  end.

Definition finish (ticket : Z) (result : reservationResult) (s : Selector) : Selector :=
  let s1 :=
    mkSelector (cursor s) (reservationNext s) (nextTicket s) (retireTicket s)
      (<[ticket := result]> (results s)) in
  let s2 := retire_loop (size (results s1)) s1 in
  if decide (retireTicket s2 = nextTicket s2) then
    mkSelector (cursor s2) (cursor s2) (nextTicket s2) (retireTicket s2) (results s2)
  else s2.

Definition set_finished (a : Attempt) : Attempt :=
  mkAttempt (at_candidates a) (at_start a) (at_offset a) (at_returned a)
    (at_startAbsolute a) (at_ticket a) (at_reserved a) true.

Definition Commit (id : string) (sa : Selector * Attempt) : Selector * Attempt :=
  let '(s, a) := sa in
  if at_finished a || negb (at_reserved a) then (s, a)
  else
    match at_returned a !! id with
    | None => (s, a)
    | Some offset =>
        let target := wrap64 (at_startAbsolute a + Z.of_nat offset + 1) in
        (finish (at_ticket a) (mkResult true target) s, set_finished a)
    end.

Definition Abort (sa : Selector * Attempt) : Selector * Attempt :=
  let '(s, a) := sa in
  if at_finished a || negb (at_reserved a) then (s, a)
  else (finish (at_ticket a) (mkResult false 0) s, set_finished a).

(** ** What one attempt enumerates *)

(** The candidates [Next] has still to return: the eligible ones of the
    rotation that begins at [start], from the current offset on. *)
Definition pending (a : Attempt) : list Candidate :=
  filter (λ c, cand_Eligible c = true)
    (drop (at_offset a) (rotate (at_start a) (at_candidates a))).

(** The fields no operation but [Commit] and [Abort] changes. *)
Definition same_reservation (a a' : Attempt) : Prop :=
  at_candidates a' = at_candidates a ∧ at_start a' = at_start a ∧
  at_startAbsolute a' = at_startAbsolute a ∧ at_ticket a' = at_ticket a ∧
  at_reserved a' = at_reserved a ∧ at_finished a' = at_finished a.

(** [n] successive calls of [Next]. *)
Fixpoint draws (n : nat) (a : Attempt) : Attempt * list (option string) :=
  match n with
  | 0 => (a, [])
  | S n =>
      let '(a1, o) := Next a in
      let '(a2, os) := draws n a1 in
      (a2, o :: os)
  end.

Lemma rotate_lookup_mod {A} (l : list A) (n i : nat) :
  i < length l → rotate n l !! i = l !! ((n + i) `mod` length l).
Proof.
  intros. rewrite lookup_rotate_r by done.
  unfold rotate_nat_add. rewrite <-Nat2Z.inj_add, <-Nat2Z.inj_mod, Nat2Z.id.
  done.
Qed.

Lemma pending_step (a : Attempt) (c : Candidate) :
  at_candidates a !! ((at_start a + at_offset a) `mod` length (at_candidates a)) = Some c →
  at_offset a < length (at_candidates a) →
  drop (at_offset a) (rotate (at_start a) (at_candidates a)) =
    c :: drop (S (at_offset a)) (rotate (at_start a) (at_candidates a)).
Proof. intros Hc ?. apply drop_S. by rewrite rotate_lookup_mod. Qed.

Lemma next_loop_spec (fuel : nat) (a : Attempt) :
  fuel = length (at_candidates a) - at_offset a →
  match next_loop fuel a with
  | (a', None) =>
      pending a = [] ∧ pending a' = [] ∧ same_reservation a a' ∧
      at_returned a' = at_returned a
  | (a', Some id) =>
      ∃ c pos, pending a = c :: pending a' ∧ cand_ID c = id ∧
        at_returned a' = <[id := pos]> (at_returned a) ∧
        at_offset a ≤ pos < length (at_candidates a) ∧ at_offset a' = S pos ∧
        at_candidates a !! ((at_start a + pos) `mod` length (at_candidates a)) = Some c ∧
        cand_Eligible c = true ∧ same_reservation a a'
  end.
Proof.
  revert a. induction fuel as [|fuel IH]; intros a Hf.
  { simpl. assert (pending a = []) as ->; [|by repeat split].
    unfold pending. rewrite drop_ge; [done|]. rewrite length_rotate. lia. }
  simpl. rewrite decide_True by lia.
  destruct (at_candidates a !! _) as [c|] eqn:Hc; last first.
  { exfalso. apply lookup_ge_None in Hc.
    pose proof (Nat.mod_upper_bound (at_start a + at_offset a) (length (at_candidates a))).
    lia. }
  pose proof (pending_step a c Hc ltac:(lia)) as Hdrop.
  destruct (cand_Eligible c) eqn:He.
  - exists c, (at_offset a). unfold pending at 1. rewrite Hdrop, filter_cons_True by done.
    split; [done|]. repeat (split; [done || lia|]). done.
  - specialize (IH (mkAttempt (at_candidates a) (at_start a) (S (at_offset a)) (at_returned a)
      (at_startAbsolute a) (at_ticket a) (at_reserved a) (at_finished a))).
    simpl in IH. specialize (IH ltac:(lia)).
    assert (pending a = pending (mkAttempt (at_candidates a) (at_start a) (S (at_offset a))
      (at_returned a) (at_startAbsolute a) (at_ticket a) (at_reserved a) (at_finished a)))
      as Hp.
    { unfold pending at 1. rewrite Hdrop, filter_cons_False by congruence. done. }
    destruct (next_loop fuel _) as [a' [id|]].
    + destruct IH as (c' & pos & ?). exists c', pos. rewrite Hp. simpl in *. intuition lia.
    + rewrite Hp. done.
Qed.

Lemma next_spec (a : Attempt) :
  at_finished a = false →
  match Next a with
  | (a', None) =>
      pending a = [] ∧ pending a' = [] ∧ same_reservation a a' ∧
      at_returned a' = at_returned a
  | (a', Some id) =>
      ∃ c pos, pending a = c :: pending a' ∧ cand_ID c = id ∧
        at_returned a' = <[id := pos]> (at_returned a) ∧
        at_offset a ≤ pos < length (at_candidates a) ∧ at_offset a' = S pos ∧
        at_candidates a !! ((at_start a + pos) `mod` length (at_candidates a)) = Some c ∧
        cand_Eligible c = true ∧ same_reservation a a'
  end.
Proof.
  intros Hfin. unfold Next. case_decide as Hlen.
  { assert (pending a = []) as ->; [|by repeat split].
    apply nil_length_inv in Hlen. unfold pending. rewrite Hlen.
    assert (rotate (at_start a) ([] : list Candidate) = []) as ->
      by (apply nil_length_inv; by rewrite length_rotate).
    by rewrite drop_nil. }
  rewrite Hfin. by apply next_loop_spec.
Qed.

Lemma draws_spec (n : nat) (a : Attempt) :
  at_finished a = false →
  (draws n a).2 =
    (Some ∘ cand_ID <$> take n (pending a)) ++ replicate (n - length (pending a)) None ∧
  same_reservation a (draws n a).1.
Proof.
  revert a. induction n as [|n IH]; intros a Hfin; [done|].
  simpl. pose proof (next_spec a Hfin) as Hn.
  destruct (Next a) as [a1 [id|]].
  - destruct Hn as (c & pos & Hp & Hid & _ & _ & _ & _ & _ & Hsame).
    assert (at_finished a1 = false) as Hfin1 by (by destruct Hsame as (_&_&_&_&_&->)).
    destruct (IH a1 Hfin1) as [Hos Hsame'].
    destruct (draws n a1) as [a2 os]; simpl in *. subst.
    rewrite Hp. split; [done|]. unfold same_reservation in *. intuition congruence.
  - destruct Hn as (Hp & Hp' & Hsame & _).
    assert (at_finished a1 = false) as Hfin1 by (by destruct Hsame as (_&_&_&_&_&->)).
    destruct (IH a1 Hfin1) as [Hos Hsame'].
    destruct (draws n a1) as [a2 os]; simpl in *. subst.
    rewrite Hp, Hp', take_nil. simpl. rewrite Nat.sub_0_r.
    split; [done|]. unfold same_reservation in *. intuition congruence.
Qed.

(** The order in which an attempt on [cs] that starts at [start] tries nodes. *)
Definition rotation (start : nat) (cs : list Candidate) : list string :=
  cand_ID <$> filter (λ c, cand_Eligible c = true) (rotate start cs).

Lemma rotation_perm (start : nat) (cs : list Candidate) :
  rotation start cs ≡ₚ cand_ID <$> filter (λ c, cand_Eligible c = true) cs.
Proof.
  unfold rotation, rotate. apply fmap_Permutation.
  rewrite filter_app, (Permutation_app_comm (filter _ _)), <-filter_app.
  by rewrite take_drop.
Qed.

Lemma pending_fresh (cs : list Candidate) (s : Selector) :
  at_finished (Begin cs s).2 = false ∧
  cand_ID <$> pending (Begin cs s).2 = rotation (at_start (Begin cs s).2) cs ∧
  length (pending (Begin cs s).2) ≤ length cs.
Proof.
  unfold Begin, rotation, pending. case_decide as Hlen; simpl.
  - apply nil_length_inv in Hlen as ->. done.
  - split; [done|]. split; [done|].
    rewrite drop_0. etrans; [apply length_filter|]. by rewrite length_rotate.
Qed.

(** One attempt returns every eligible candidate of its snapshot exactly
    once, in round-robin order from its reserved start, and after at most
    [length cs] calls [Next] answers "no candidate" for ever. *)
Theorem attempt_tries_each_eligible_once (cs : list Candidate) (s : Selector) (extra : nat) :
  let a := (Begin cs s).2 in
  let order := rotation (at_start a) cs in
  (draws (length cs + extra) a).2 =
    (Some <$> order) ++ replicate (length cs + extra - length order) None ∧
  order ≡ₚ cand_ID <$> filter (λ c, cand_Eligible c = true) cs ∧
  length order ≤ length cs.
Proof.
  simpl. destruct (pending_fresh cs s) as (Hfin & Hids & Hlen).
  destruct (draws_spec (length cs + extra) _ Hfin) as [Hd _].
  split_and!; [|apply rotation_perm|].
  - rewrite Hd, <-Hids, length_fmap, <-list_fmap_compose, take_ge by lia. done.
  - by rewrite <-Hids, length_fmap.
Qed.

(** ** Concurrent use *)

(** A selector shared by any number of attempts. [sys_done] is a history
    variable: the result every finished ticket was retired with. *)
Record SelSys := mkSelSys {
  sys_sel : Selector;
  sys_attempts : list Attempt;
  sys_done : gmap Z reservationResult;
}.

(** One event is one critical section of the selector's mutex, or a [Next],
    which touches only its own attempt. *)
Inductive SelEvent :=
  | EvBegin (candidates : list Candidate)
  | EvNext (i : nat)
  | EvCommit (i : nat) (id : string)
  | EvAbort (i : nat).

Definition record_done (a a' : Attempt) (r : reservationResult)
    (done : gmap Z reservationResult) : gmap Z reservationResult :=
  if negb (at_finished a) && at_finished a' then <[at_ticket a := r]> done else done.

Definition commit_result (a : Attempt) (id : string) : reservationResult :=
  mkResult true
    (wrap64 (at_startAbsolute a + Z.of_nat (default 0 (at_returned a !! id)) + 1)).

Definition sel_step (e : SelEvent) (y : SelSys) : SelSys :=
  match e with
  | EvBegin cs =>
      let '(s, a) := Begin cs (sys_sel y) in
      mkSelSys s (sys_attempts y ++ [a]) (sys_done y)
  | EvNext i =>
      match sys_attempts y !! i with
      | None => y
      | Some a => mkSelSys (sys_sel y) (<[i := (Next a).1]> (sys_attempts y)) (sys_done y)
      end
  | EvCommit i id =>
      match sys_attempts y !! i with
      | None => y
      | Some a =>
          let '(s, a') := Commit id (sys_sel y, a) in
          mkSelSys s (<[i := a']> (sys_attempts y))
            (record_done a a' (commit_result a id) (sys_done y))
      end
  | EvAbort i =>
      match sys_attempts y !! i with
      | None => y
      | Some a =>
          let '(s, a') := Abort (sys_sel y, a) in
          mkSelSys s (<[i := a']> (sys_attempts y))
            (record_done a a' (mkResult false 0) (sys_done y))
      end
  end.

Definition sel_run (evs : list SelEvent) : SelSys :=
  foldl (λ y e, sel_step e y) (mkSelSys NewSelector [] ∅) evs.

(** What a run adds at most to any of the counters. *)
Definition cost (e : SelEvent) : Z :=
  match e with EvBegin cs => 1 + Z.of_nat (length cs) | _ => 0 end.
Definition budget (evs : list SelEvent) : Z := foldr (λ e z, cost e + z)%Z 0%Z evs.

(** [c] is the largest target a finished ticket satisfying [P] committed, 0 when
    none did. *)
Definition committed_max (P : Z → Prop) (done : gmap Z reservationResult) (c : Z) : Prop :=
  (∀ t r, done !! t = Some r → P t → rr_committed r = true → (rr_target r ≤ c)%Z) ∧
  (c = 0%Z ∨ ∃ t r, done !! t = Some r ∧ P t ∧ rr_committed r = true ∧ rr_target r = c).

(** No reserved attempt is still running. *)
Definition quiescent (y : SelSys) : Prop :=
  ∀ a, a ∈ sys_attempts y → at_reserved a = true → at_finished a = true.

(** *** The retirement frontier *)

Record frontier_ok (done : gmap Z reservationResult) (s : Selector) : Prop := {
  fr_retire : (0 ≤ retireTicket s ≤ nextTicket s)%Z;
  fr_dom : ∀ t r, done !! t = Some r → (0 ≤ t < nextTicket s)%Z ∧ (0 ≤ rr_target r)%Z;
  fr_below : ∀ t, (0 ≤ t < retireTicket s)%Z → is_Some (done !! t);
  fr_results : results s = filter (λ kv, (retireTicket s ≤ kv.1)%Z) done;
  fr_cursor : committed_max (λ t, (t < retireTicket s)%Z) done (cursor s);
  fr_cursor0 : (0 ≤ cursor s)%Z;
}.

Lemma committed_max_extend (done : gmap Z reservationResult) (n c : Z) (r : reservationResult) :
  committed_max (λ t, (t < n)%Z) done c →
  done !! n = Some r →
  committed_max (λ t, (t < n + 1)%Z) done
    (if rr_committed r && (c <? rr_target r)%Z then rr_target r else c).
Proof.
  intros [Hub Hin] Hr. split.
  - intros t r' Hr' Ht Hc.
    destruct (decide (t = n)) as [->|].
    + simplify_eq. rewrite Hc. simpl. destruct (Z.ltb_spec c (rr_target r)); lia.
    + pose proof (Hub t r' Hr' ltac:(lia) Hc).
      destruct (rr_committed r && _) eqn:E; [|lia].
      apply andb_true_iff in E as [_ E%Z.ltb_lt]. lia.
  - destruct (rr_committed r && _) eqn:E.
    + apply andb_true_iff in E as [E _]. right. exists n, r. repeat split; auto; lia.
    + destruct Hin as [->|(t & r' & ? & ? & ? & ?)]; [by left|].
      right. exists t, r'. repeat split; auto; lia.
Qed.

Lemma retire_loop_spec (done : gmap Z reservationResult) (fuel : nat) (s : Selector) :
  frontier_ok done s →
  (nextTicket s < 2 ^ 64)%Z →
  size (results s) ≤ fuel →
  let s' := retire_loop fuel s in
  frontier_ok done s' ∧ done !! retireTicket s' = None ∧
  nextTicket s' = nextTicket s ∧ reservationNext s' = reservationNext s ∧
  (cursor s ≤ cursor s')%Z.
Proof.
  revert s. induction fuel as [|fuel IH]; intros s Hfr Hb Hsize; simpl.
  { split; [done|]. split; [|repeat split; lia].
    destruct (done !! retireTicket s) as [r|] eqn:Hd; [exfalso|done].
    assert (results s !! retireTicket s = Some r) as Hr.
    { rewrite (fr_results _ _ Hfr). apply map_lookup_filter_Some. simpl. split; [done|lia]. }
    assert (results s = ∅) as He by (apply map_size_empty_iff; lia).
    by rewrite He, lookup_empty in Hr. }
  destruct (results s !! retireTicket s) as [r|] eqn:Hr; last first.
  { split; [done|]. split; [|repeat split; lia].
    rewrite (fr_results _ _ Hfr), map_lookup_filter_None in Hr.
    destruct Hr as [|Hr]; [done|].
    destruct (done !! _) as [r|] eqn:Hd; [|done]. exfalso. eapply Hr; [done|]. simpl. lia. }
  assert (done !! retireTicket s = Some r) as Hd.
  { rewrite (fr_results _ _ Hfr) in Hr. by apply map_lookup_filter_Some in Hr as [? _]. }
  destruct (fr_dom _ _ Hfr _ _ Hd) as [? ?]. destruct (fr_retire _ _ Hfr).
  set (c := if _ : bool then _ else _).
  assert (cursor s ≤ c)%Z as Hc.
  { subst c. destruct (rr_committed r && _) eqn:E; [|lia].
    apply andb_true_iff in E as [_ E%Z.ltb_lt]. lia. }
  set (s1 := mkSelector _ _ _ _ _).
  assert (frontier_ok done s1) as Hfr1.
  { subst s1. rewrite wrap64_small by lia. split; simpl.
    - lia.
    - apply (fr_dom _ _ Hfr).
    - intros t Ht. destruct (decide (t = retireTicket s)) as [->|]; [by eexists|].
      apply (fr_below _ _ Hfr). lia.
    - rewrite (fr_results _ _ Hfr). apply map_eq. intros t. apply option_eq. intros r'.
      rewrite lookup_delete_Some, !map_lookup_filter_Some. simpl. intuition lia.
    - by apply committed_max_extend; [apply (fr_cursor _ _ Hfr)|].
    - pose proof (fr_cursor0 _ _ Hfr). lia. }
  destruct (IH s1 Hfr1 ltac:(done)) as (?&?&?&?&?); [|split_and!; auto; simpl in *; lia].
  simpl. rewrite map_size_delete, Hr. simpl. lia.
Qed.

Lemma finish_spec (done : gmap Z reservationResult) (s : Selector) (t : Z)
    (r : reservationResult) :
  frontier_ok done s → (nextTicket s < 2 ^ 64)%Z →
  done !! t = None → (0 ≤ t < nextTicket s)%Z → (0 ≤ rr_target r)%Z →
  let s' := finish t r s in
  frontier_ok (<[t := r]> done) s' ∧ <[t := r]> done !! retireTicket s' = None ∧
  nextTicket s' = nextTicket s ∧ (cursor s ≤ cursor s')%Z ∧
  reservationNext s' =
    if decide (retireTicket s' = nextTicket s') then cursor s' else reservationNext s.
Proof.
  intros Hfr Hb Ht Hrange Htar. unfold finish.
  set (s1 := mkSelector _ _ _ _ _).
  assert (retireTicket s ≤ t)%Z as Hge.
  { destruct (decide (t < retireTicket s)%Z); [|lia].
    destruct (fr_below _ _ Hfr t ltac:(lia)) as [? ?]. congruence. }
  assert (frontier_ok (<[t := r]> done) s1) as Hfr1.
  { subst s1. destruct Hfr as [? Hdom Hbelow Hres [Hub Hin] ?]. split; simpl; [lia|..].
    - intros t' r'. rewrite lookup_insert_Some. intros [[<- <-]|[_ ?]]; eauto.
    - intros t' ?. rewrite lookup_insert_ne by lia. auto.
    - rewrite Hres. symmetry. by apply map_filter_insert_True.
    - split.
      + intros t' r' Hr' ?. rewrite lookup_insert_ne in Hr' by lia. eauto.
      + destruct Hin as [->|(t' & r' & ? & ? & ? & ?)]; [by left|right].
        exists t', r'. rewrite lookup_insert_ne by lia. auto.
    - done. }
  destruct (retire_loop_spec (<[t := r]> done) (size (results s1)) s1 Hfr1 Hb ltac:(done))
    as (Hfr2 & Hnone & Hnext & Hres & Hcur).
  set (s2 := retire_loop _ _) in *.
  case_decide as Hq; simpl.
  - split_and!; auto; [|by rewrite decide_True].
    destruct Hfr2. by split.
  - rewrite decide_False by done. split_and!; auto.
Qed.

(** *** The system invariant *)

(** What holds of every reserved attempt under the counter bound [B]. *)
Record attempt_ok (B : Z) (y : SelSys) (a : Attempt) : Prop := {
  ao_ticket : (0 ≤ at_ticket a < nextTicket (sys_sel y))%Z;
  ao_finished : at_finished a = true ↔ is_Some (sys_done y !! at_ticket a);
  ao_start : (0 ≤ at_startAbsolute a)%Z ∧
    (at_startAbsolute a + Z.of_nat (length (at_candidates a)) ≤ B)%Z;
  ao_returned : ∀ id off, at_returned a !! id = Some off → off < length (at_candidates a);
}.

Record sys_ok (B : Z) (y : SelSys) : Prop := {
  so_next : (nextTicket (sys_sel y) ≤ B)%Z;
  so_frontier : frontier_ok (sys_done y) (sys_sel y);
  so_unfinished : sys_done y !! retireTicket (sys_sel y) = None;
  so_targets : ∀ t r, sys_done y !! t = Some r → (rr_target r ≤ B)%Z;
  so_reservation : (0 ≤ reservationNext (sys_sel y) ≤ B)%Z;
  so_quiet : retireTicket (sys_sel y) = nextTicket (sys_sel y) →
    reservationNext (sys_sel y) = cursor (sys_sel y);
  so_attempts : ∀ i a, sys_attempts y !! i = Some a → at_reserved a = true →
    attempt_ok B y a;
  so_distinct : ∀ i j a b, sys_attempts y !! i = Some a → sys_attempts y !! j = Some b →
    at_reserved a = true → at_reserved b = true → at_ticket a = at_ticket b → i = j;
  so_owned : ∀ t, (0 ≤ t < nextTicket (sys_sel y))%Z →
    ∃ a, a ∈ sys_attempts y ∧ at_reserved a = true ∧ at_ticket a = t;
}.

Lemma sys_ok_cursor (B : Z) (y : SelSys) :
  (0 ≤ B)%Z → sys_ok B y → (0 ≤ cursor (sys_sel y) ≤ B)%Z.
Proof.
  intros ? [? Hfr _ Htar _ _ _ _ _]. split; [apply (fr_cursor0 _ _ Hfr)|].
  destruct (fr_cursor _ _ Hfr) as [_ [->|(t & r & Ht & _ & _ & <-)]]; eauto.
Qed.

Lemma sys_ok_init : sys_ok 0 (mkSelSys NewSelector [] ∅).
Proof.
  split; simpl; try done; try lia.
  split; simpl; try done; try lia.
  split; [done|by left].
Qed.

Lemma sys_ok_begin (B : Z) (y : SelSys) (cs : list Candidate) :
  sys_ok B y → (0 ≤ B)%Z → (B + cost (EvBegin cs) < 2 ^ 64)%Z →
  sys_ok (B + cost (EvBegin cs)) (sel_step (EvBegin cs) y).
Proof.
  intros Hok HB Hlt. pose proof (sys_ok_cursor B y HB Hok) as Hcur.
  destruct Hok as [Hnext Hfr Hunf Htar Hres Hquiet Hatt Hdist Hown].
  simpl in *. unfold Begin. case_decide as Hlen.
  - split; simpl; try done; try lia.
    + intros t r Ht. pose proof (Htar t r Ht). lia.
    + intros i a [Ha|[-> <-]]%lookup_snoc_Some Hr; [|done]. destruct Ha as [? Ha].
      destruct (Hatt i a Ha Hr). split; simpl; auto; lia.
    + intros i j a b Hi Hj ???. apply lookup_snoc_Some in Hi, Hj.
      destruct Hi as [[_ ?]|[-> <-]], Hj as [[_ ?]|[-> <-]]; eauto; done.
    + intros t Ht. destruct (Hown t Ht) as (a & ? & ? & ?). exists a. split; [apply elem_of_app; by left|done].
  - destruct Hfr as [Hretire Hdom Hbelow Hresults Hcursor Hc0].
    rewrite !wrap64_small by lia.
    assert (∀ i a, sys_attempts y !! i = Some a → at_reserved a = true →
      at_ticket a ≠ nextTicket (sys_sel y)) as Hfresh.
    { intros i a Ha Hr. destruct (Hatt i a Ha Hr). lia. }
    split; simpl; try done; try lia.
    + split; simpl; try done; try lia.
      intros t r Ht. destruct (Hdom t r Ht). lia.
    + intros t r Ht. pose proof (Htar t r Ht). lia.
    + intros i a [Ha|[-> <-]]%lookup_snoc_Some Hr.
      * destruct Ha as [? Ha]. destruct (Hatt i a Ha Hr). split; simpl; auto; lia.
      * split; simpl; [lia| |lia|intros id off; by rewrite lookup_empty].
        split; [done|]. intros [r Hd]. destruct (Hdom _ _ Hd). lia.
    + intros i j a b [[_ Ha]|[-> <-]]%lookup_snoc_Some [[_ Hb]|[-> <-]]%lookup_snoc_Some Hra Hrb Heq;
        simpl in *; [eauto| | |done].
      * by destruct (Hfresh i a Ha Hra).
      * by destruct (Hfresh j b Hb Hrb).
    + intros t Ht. destruct (decide (t = nextTicket (sys_sel y))) as [->|].
      * eexists. split; [apply elem_of_app; right; by apply list_elem_of_singleton|done].
      * destruct (Hown t ltac:(lia)) as (a & ? & ? & ?). exists a. split; [apply elem_of_app; by left|done].
Qed.

(** Replacing attempt [i] by one that differs only in its progress. *)
Lemma sys_ok_replace (B : Z) (y : SelSys) (i : nat) (a a' : Attempt) :
  sys_ok B y → sys_attempts y !! i = Some a → same_reservation a a' →
  (∀ id off, at_returned a' !! id = Some off →
     at_returned a !! id = Some off ∨ off < length (at_candidates a)) →
  sys_ok B (mkSelSys (sys_sel y) (<[i := a']> (sys_attempts y)) (sys_done y)).
Proof.
  intros [Hnext Hfr Hunf Htar Hres Hquiet Hatt Hdist Hown] Ha
    (Hc & Hs & Hsa & Ht & Hr & Hf) Hret.
  split; simpl; try done.
  - intros j b Hb Hrb. apply list_lookup_insert_Some in Hb as [(-> & -> & _)|[_ Hb]].
    + rewrite Hr in Hrb. destruct (Hatt j a Ha Hrb) as [? ? ? Hro].
      split; simpl; rewrite ?Hc, ?Hsa, ?Ht, ?Hf; auto.
      intros id off [?|?]%Hret; eauto.
    + destruct (Hatt j b Hb Hrb). by split.
  - intros j k b b' Hj Hk Hrb Hrb' Heq.
    assert (∀ j b, <[i := a']> (sys_attempts y) !! j = Some b →
      at_reserved b = true →
      ∃ b0, sys_attempts y !! j = Some b0 ∧ at_reserved b0 = true ∧
        at_ticket b0 = at_ticket b) as Hback.
    { clear -Ha Hr Ht. intros j b Hb Hrb.
      apply list_lookup_insert_Some in Hb as [(-> & -> & _)|[_ Hb]];
        [exists a; by rewrite <-Hr, Ht|by eauto]. }
    destruct (Hback j b Hj Hrb) as (b0 & ? & ? & ?).
    destruct (Hback k b' Hk Hrb') as (b0' & ? & ? & ?).
    eapply Hdist; eauto. congruence.
  - intros t Htt. destruct (Hown t Htt) as (b & [j Hj]%list_elem_of_lookup & Hrb & Htb).
    destruct (decide (i = j)) as [->|].
    + simplify_eq. exists a'. rewrite Hr, Ht. split; [|done].
      apply list_elem_of_lookup. exists j. apply list_lookup_insert_eq.
      by eapply lookup_lt_Some.
    + exists b. split; [|done]. apply list_elem_of_lookup. exists j.
      by rewrite list_lookup_insert_ne.
Qed.

Lemma sys_ok_next (B : Z) (y : SelSys) (i : nat) :
  sys_ok B y → sys_ok B (sel_step (EvNext i) y).
Proof.
  intros Hok. simpl. destruct (sys_attempts y !! i) as [a|] eqn:Ha; [|done].
  destruct (at_finished a) eqn:Hfin.
  - assert ((Next a).1 = a) as ->; [unfold Next; case_decide; [done|by rewrite Hfin]|].
    eapply sys_ok_replace; eauto. done.
  - pose proof (next_spec a Hfin) as Hn. destruct (Next a) as [a' [id|]]; simpl.
    + destruct Hn as (c & pos & _ & _ & Hret & Hpos & _ & _ & _ & Hsame).
      eapply sys_ok_replace; eauto. intros id' off. rewrite Hret.
      rewrite lookup_insert_Some. intros [[_ <-]|[_ ?]]; [right; lia|by left].
    + destruct Hn as (_ & _ & Hsame & Hret).
      eapply sys_ok_replace; eauto. rewrite Hret. auto.
Qed.

(** Both [Commit] and [Abort] of a running attempt retire its ticket. *)
Lemma sys_ok_finish (B : Z) (y : SelSys) (i : nat) (a : Attempt) (r : reservationResult) :
  sys_ok B y → (B < 2 ^ 64)%Z → sys_attempts y !! i = Some a →
  at_reserved a = true → at_finished a = false → (0 ≤ rr_target r ≤ B)%Z →
  sys_ok B (mkSelSys (finish (at_ticket a) r (sys_sel y))
    (<[i := set_finished a]> (sys_attempts y)) (<[at_ticket a := r]> (sys_done y))).
Proof.
  intros Hok HB Ha Hra Hfa Htar0.
  destruct Hok as [Hnext Hfr Hunf Htar Hres Hquiet Hatt Hdist Hown].
  destruct (Hatt i a Ha Hra) as [Hta Hfina Hsta Hreta].
  assert (sys_done y !! at_ticket a = None) as Hnone.
  { apply eq_None_not_Some. intros ?%Hfina. congruence. }
  destruct (finish_spec (sys_done y) (sys_sel y) (at_ticket a) r Hfr ltac:(lia) Hnone Hta
    ltac:(lia)) as (Hfr' & Hunf' & Hnext' & Hcur' & Hres').
  set (s' := finish _ _ _) in *.
  assert (∀ t r', <[at_ticket a := r]> (sys_done y) !! t = Some r' → (rr_target r' ≤ B)%Z)
    as Htar'.
  { intros t r'. rewrite lookup_insert_Some. intros [[_ <-]|[_ ?]]; [lia|eauto]. }
  assert (∀ j b, <[i := set_finished a]> (sys_attempts y) !! j = Some b →
    (j = i ∧ b = set_finished a) ∨ (j ≠ i ∧ sys_attempts y !! j = Some b)) as Hback.
  { intros j b Hb. apply list_lookup_insert_Some in Hb as [(-> & -> & _)|[? Hb]]; auto. }
  split; simpl; rewrite ?Hnext'; try done.
  - rewrite Hres'. case_decide; [|done]. split; [apply (fr_cursor0 _ _ Hfr')|].
    destruct (fr_cursor _ _ Hfr') as [_ [->|(t & r' & Ht & _ & _ & <-)]]; [lia|eauto].
  - intros Hq. rewrite Hres', Hnext'. by rewrite decide_True.
  - intros j b Hb Hrb. destruct (Hback j b Hb) as [[-> ->]|[Hne Hb0]].
    + split; simpl; rewrite ?Hnext'; auto.
      split; [|done]. intros _. by rewrite lookup_insert_eq.
    + destruct (Hatt j b Hb0 Hrb) as [? Hfb ? ?].
      split; simpl; rewrite ?Hnext'; auto.
      rewrite lookup_insert_ne; [done|]. intros Heq. apply Hne. eauto.
  - intros j k b b' Hj Hk Hrb Hrb' Heq.
    destruct (Hback j b Hj) as [[-> ->]|[Hnj Hj0]], (Hback k b' Hk) as [[-> ->]|[Hnk Hk0]];
      simpl in *; eauto.
  - intros t Ht. destruct (Hown t Ht) as (b & [j Hj]%list_elem_of_lookup & Hrb & Htb).
    destruct (decide (i = j)) as [->|].
    + simplify_eq. exists (set_finished a). split; [|done].
      apply list_elem_of_lookup. exists j. apply list_lookup_insert_eq.
      by eapply lookup_lt_Some.
    + exists b. split; [|done]. apply list_elem_of_lookup. exists j.
      by rewrite list_lookup_insert_ne.
Qed.

Lemma sys_ok_step (B : Z) (y : SelSys) (e : SelEvent) :
  sys_ok B y → (0 ≤ B)%Z → (B + cost e < 2 ^ 64)%Z →
  sys_ok (B + cost e) (sel_step e y).
Proof.
  destruct e as [cs|i|i id|i]; intros Hok HB Hlt.
  - by apply sys_ok_begin.
  - simpl cost. rewrite Z.add_0_r. by apply sys_ok_next.
  - simpl cost in *. rewrite Z.add_0_r. simpl.
    destruct (sys_attempts y !! i) as [a|] eqn:Ha; [|done].
    assert (sys_ok B (mkSelSys (sys_sel y) (<[i := a]> (sys_attempts y)) (sys_done y)))
      as Hsame by (eapply sys_ok_replace; eauto; done).
    destruct (at_finished a) eqn:Hfa; simpl; [unfold record_done; by rewrite Hfa|].
    destruct (at_reserved a) eqn:Hra; simpl; [|unfold record_done; by rewrite Hfa].
    destruct (at_returned a !! id) as [off|] eqn:Hoff; simpl;
      [|unfold record_done; by rewrite Hfa].
    unfold record_done, commit_result. rewrite Hfa, Hoff. simpl.
    destruct (so_attempts _ _ Hok i a Ha Hra) as [_ _ Hst Hret].
    apply Hret in Hoff.
    apply sys_ok_finish; auto; [lia|]. simpl. rewrite wrap64_small; lia.
  - simpl cost in *. rewrite Z.add_0_r. simpl.
    destruct (sys_attempts y !! i) as [a|] eqn:Ha; [|done].
    assert (sys_ok B (mkSelSys (sys_sel y) (<[i := a]> (sys_attempts y)) (sys_done y)))
      as Hsame by (eapply sys_ok_replace; eauto; done).
    destruct (at_finished a) eqn:Hfa; simpl; [unfold record_done; by rewrite Hfa|].
    destruct (at_reserved a) eqn:Hra; simpl; [|unfold record_done; by rewrite Hfa].
    unfold record_done. rewrite Hfa. simpl.
    apply sys_ok_finish; auto; simpl; lia.
Qed.

Lemma budget_nonneg (evs : list SelEvent) : (0 ≤ budget evs)%Z.
Proof. induction evs as [|[]]; simpl; lia. Qed.

Lemma budget_snoc (evs : list SelEvent) (e : SelEvent) :
  budget (evs ++ [e]) = (budget evs + cost e)%Z.
Proof. induction evs; simpl; lia. Qed.

Lemma sel_run_ok (evs : list SelEvent) :
  (budget evs < 2 ^ 64)%Z → sys_ok (budget evs) (sel_run evs).
Proof.
  induction evs as [|e evs IH] using rev_ind; intros Hlt; [apply sys_ok_init|].
  rewrite budget_snoc in *. pose proof (budget_nonneg evs).
  unfold sel_run. rewrite foldl_snoc. apply sys_ok_step; [|done|done].
  apply IH. destruct e; simpl in *; lia.
Qed.

(** Once nothing is in flight, every ticket has been retired. *)
Lemma quiescent_retired (B : Z) (y : SelSys) :
  sys_ok B y → quiescent y →
  retireTicket (sys_sel y) = nextTicket (sys_sel y) ∧ results (sys_sel y) = ∅.
Proof.
  intros Hok Hq.
  assert (retireTicket (sys_sel y) = nextTicket (sys_sel y)) as Heq.
  { destruct (fr_retire _ _ (so_frontier _ _ Hok)).
    destruct (decide (retireTicket (sys_sel y) = nextTicket (sys_sel y))); [done|exfalso].
    destruct (so_owned _ _ Hok (retireTicket (sys_sel y)) ltac:(lia)) as (a & Ha & Hra & Hta).
    pose proof (Hq a Ha Hra) as Hfa.
    apply list_elem_of_lookup in Ha as [i Ha].
    destruct (so_attempts _ _ Hok i a Ha Hra) as [_ [Hf _] _ _].
    destruct (Hf Hfa) as [r Hr]. rewrite Hta in Hr.
    pose proof (so_unfinished _ _ Hok). congruence. }
  split; [done|].
  rewrite (fr_results _ _ (so_frontier _ _ Hok)).
  apply map_empty. intros t. apply map_lookup_filter_None. right. intros r Hr. simpl.
  destruct (fr_dom _ _ (so_frontier _ _ Hok) t r Hr). lia.
Qed.

Lemma committed_max_all (B : Z) (y : SelSys) :
  sys_ok B y → retireTicket (sys_sel y) = nextTicket (sys_sel y) →
  committed_max (λ _, True) (sys_done y) (cursor (sys_sel y)).
Proof.
  intros Hok Heq. destruct (fr_cursor _ _ (so_frontier _ _ Hok)) as [Hub Hin]. split.
  - intros t r Hr _. destruct (fr_dom _ _ (so_frontier _ _ Hok) t r Hr).
    apply (Hub t r Hr). lia.
  - destruct Hin as [->|(t & r & ? & ? & ? & ?)]; [by left|right]. eauto 10.
Qed.

Lemma committed_max_unique (P : Z → Prop) (done : gmap Z reservationResult) (c c' : Z) :
  (0 ≤ c)%Z → (0 ≤ c')%Z →
  committed_max P done c → committed_max P done c' → c = c'.
Proof.
  intros ?? [Hub Hin] [Hub' Hin'].
  destruct Hin as [->|(t & r & ? & ? & ? & <-)],
    Hin' as [->|(t' & r' & ? & ? & ? & <-)]; try done.
  - pose proof (Hub t' r'). naive_solver lia.
  - pose proof (Hub' t r). naive_solver lia.
  - pose proof (Hub t' r'). pose proof (Hub' t r). naive_solver lia.
Qed.

(** C8: in every interleaving of concurrent attempts (whose counters stay
    below 2^64) tickets are retired in ticket order, exactly up to the first
    unfinished one, and the cursor is the largest slot committed by a retired
    ticket; aborted attempts never move it. *)
Theorem selector_cursor_tracks_retired_commits (evs : list SelEvent) :
  (budget evs < 2 ^ 64)%Z →
  let y := sel_run evs in
  let s := sys_sel y in
  (∀ t, (0 ≤ t < retireTicket s)%Z → is_Some (sys_done y !! t)) ∧
  sys_done y !! retireTicket s = None ∧
  (retireTicket s ≤ nextTicket s)%Z ∧
  (∀ t r, results s !! t = Some r ↔ sys_done y !! t = Some r ∧ (retireTicket s ≤ t)%Z) ∧
  committed_max (λ t, (t < retireTicket s)%Z) (sys_done y) (cursor s).
Proof.
  intros Hlt. pose proof (sel_run_ok evs Hlt) as Hok. cbv zeta.
  destruct (so_frontier _ _ Hok) as [? ? Hbelow Hres ? ?].
  split_and!; [done|apply (so_unfinished _ _ Hok)|lia| |done].
  intros t r. by rewrite Hres, map_lookup_filter_Some.
Qed.

(** The order in which concurrent attempts finish is irrelevant. Two
    interleavings that gave every ticket the same result, and in which nothing
    is still running, leave the selector in the same state: all tickets retired,
    the next reservation at the cursor, the cursor past the furthest commit. *)
Theorem selector_finish_order_irrelevant (evs evs' : list SelEvent) :
  (budget evs < 2 ^ 64)%Z → (budget evs' < 2 ^ 64)%Z →
  quiescent (sel_run evs) → quiescent (sel_run evs') →
  nextTicket (sys_sel (sel_run evs)) = nextTicket (sys_sel (sel_run evs')) →
  sys_done (sel_run evs) = sys_done (sel_run evs') →
  sys_sel (sel_run evs) = sys_sel (sel_run evs') ∧
  reservationNext (sys_sel (sel_run evs)) = cursor (sys_sel (sel_run evs)) ∧
  committed_max (λ _, True) (sys_done (sel_run evs)) (cursor (sys_sel (sel_run evs))).
Proof.
  intros Hlt Hlt' Hq Hq' Hnext Hdone.
  pose proof (sel_run_ok evs Hlt) as Hok. pose proof (sel_run_ok evs' Hlt') as Hok'.
  destruct (quiescent_retired _ _ Hok Hq) as [Hr Hres].
  destruct (quiescent_retired _ _ Hok' Hq') as [Hr' Hres'].
  pose proof (committed_max_all _ _ Hok Hr) as Hm.
  pose proof (committed_max_all _ _ Hok' Hr') as Hm'.
  pose proof (so_quiet _ _ Hok Hr) as Hn. pose proof (so_quiet _ _ Hok' Hr') as Hn'.
  destruct (sys_ok_cursor _ _ (budget_nonneg evs) Hok) as [Hc _].
  destruct (sys_ok_cursor _ _ (budget_nonneg evs') Hok') as [Hc' _].
  split; [|by split].
  rewrite Hdone in Hm. pose proof (committed_max_unique _ _ _ _ Hc Hc' Hm Hm') as Hcc.
  destruct (sys_sel (sel_run evs)), (sys_sel (sel_run evs')); simpl in *. congruence.
Qed.

(** ** Sequential use: strict round robin *)

(** Nothing in flight, and the next reservation is at the cursor. *)
Definition idle (s : Selector) : Prop :=
  retireTicket s = nextTicket s ∧ results s = ∅ ∧ reservationNext s = cursor s ∧
  (0 ≤ cursor s)%Z ∧ (0 ≤ nextTicket s)%Z.

Lemma finish_single (s : Selector) (t : Z) (r : reservationResult) :
  t = retireTicket s → results s = ∅ → (0 ≤ retireTicket s)%Z → (nextTicket s < 2 ^ 64)%Z →
  nextTicket s = (retireTicket s + 1)%Z →
  let c := if rr_committed r && (cursor s <? rr_target r)%Z then rr_target r else cursor s in
  finish t r s = mkSelector c c (nextTicket s) (nextTicket s) ∅.
Proof.
  intros -> Hres ? ? Hn. unfold finish. simpl. rewrite Hres.
  rewrite map_size_insert, lookup_empty, map_size_empty. simpl.
  rewrite lookup_insert_eq. simpl. rewrite wrap64_small by lia.
  rewrite <-Hn, decide_True by done. rewrite delete_insert_id; [done|apply lookup_empty].
Qed.

Lemma begin_idle_start (cs : list Candidate) (s : Selector) :
  idle s → length cs ≠ 0 →
  at_start (Begin cs s).2 = Z.to_nat (cursor s `mod` Z.of_nat (length cs)) ∧
  at_startAbsolute (Begin cs s).2 = cursor s.
Proof.
  intros (_ & _ & Hr & _) Hlen. unfold Begin. rewrite decide_False by done.
  simpl. by rewrite Hr.
Qed.

(** Slots of the infinite rotation and positions in the snapshot. *)
Lemma slot_position (c : Z) (off len : nat) :
  (0 ≤ c)%Z → len ≠ 0 →
  (Z.to_nat (c `mod` Z.of_nat len) + off) `mod` len =
    Z.to_nat ((c + Z.of_nat off) `mod` Z.of_nat len).
Proof.
  intros. apply Nat2Z.inj.
  rewrite Nat2Z.inj_mod, Nat2Z.inj_add, !Z2Nat.id by (apply Z.mod_pos; lia).
  by rewrite Z.add_mod_idemp_l by lia.
Qed.

(** On an idle selector, a connection that is served by the node it got
    from its latest [Next] (whatever number of nodes failed before) leaves the
    selector idle with the next connection starting at the node right after the
    one chosen; a connection that gives up leaves the start where it was. *)
Theorem sequential_round_robin (cs : list Candidate) (s : Selector) (k : nat)
    (a : Attempt) (os : list (option string)) :
  idle s → length cs ≠ 0 →
  (cursor s + Z.of_nat (length cs) + 1 < 2 ^ 64)%Z → (nextTicket s + 1 < 2 ^ 64)%Z →
  draws k (Begin cs s).2 = (a, os) →
  (∀ a' id, Next a = (a', Some id) →
     let s' := (Commit id ((Begin cs s).1, a')).1 in
     ∃ pos c, cs !! pos = Some c ∧ cand_ID c = id ∧ cand_Eligible c = true ∧
       idle s' ∧ at_start (Begin cs s').2 = (pos + 1) `mod` length cs) ∧
  let s' := (Abort ((Begin cs s).1, a)).1 in
  idle s' ∧ at_start (Begin cs s').2 = at_start (Begin cs s).2 ∧ cursor s' = cursor s.
Proof.
  intros Hidle Hlen Hb1 Hb2 Hdraws.
  destruct (begin_idle_start cs s Hidle Hlen) as [Hstart Habs].
  destruct (pending_fresh cs s) as (Hfin & _).
  destruct (draws_spec k _ Hfin) as [_ (Hcs & Hst & Hsa & Htk & Hrs & Hfi)].
  rewrite Hdraws in *. simpl in *.
  destruct Hidle as (Hret & Hres & Hrn & Hc & Hn).
  assert (at_candidates (Begin cs s).2 = cs ∧ at_reserved (Begin cs s).2 = true ∧
    at_ticket (Begin cs s).2 = retireTicket s ∧
    (Begin cs s).1 = mkSelector (cursor s) (cursor s + 1) (nextTicket s + 1)
      (retireTicket s) ∅) as (Hcs0 & Hrs0 & Htk0 & Hs1).
  { unfold Begin. rewrite decide_False by done. simpl.
    by rewrite !wrap64_small, Hres, Hrn, Hret by lia. }
  rewrite Hs1. rewrite Hcs0 in Hcs. rewrite Hrs0 in Hrs. rewrite Htk0 in Htk.
  rewrite Hfin in Hfi. split.
  - intros a' id Hnext. pose proof (next_spec a Hfi) as Hspec. rewrite Hnext in Hspec.
    destruct Hspec as (c & pos & _ & Hid & Hretd & Hpos & _ & Hlook & Hel &
      Hcs' & Hst' & Hsa' & Htk' & Hrs' & Hfi').
    simpl. rewrite Hfi', Hfi, Hrs', Hrs, Hretd, lookup_insert_eq, Htk', Htk, Hsa', Hsa, Habs.
    simpl. rewrite wrap64_small by (rewrite Hcs in Hpos; lia).
    rewrite finish_single by (simpl; lia || done). simpl.
    assert ((cursor s <? cursor s + Z.of_nat pos + 1)%Z = true) as -> by (apply Z.ltb_lt; lia).
    rewrite Hcs, Hst, Hstart, slot_position in Hlook by done.
    eexists _, c. split; [exact Hlook|]. split; [done|]. split; [done|].
    assert (idle (mkSelector (cursor s + Z.of_nat pos + 1) (cursor s + Z.of_nat pos + 1)
      (nextTicket s + 1) (nextTicket s + 1) ∅)) as Hidle'
      by (unfold idle; simpl; split_and!; done || lia).
    split; [done|].
    destruct (begin_idle_start cs _ Hidle' Hlen) as [-> _]. simpl.
    rewrite slot_position by lia. done.
  - simpl. rewrite Hfi, Hrs, Htk. simpl.
    rewrite finish_single by (simpl; lia || done). simpl.
    assert (idle (mkSelector (cursor s) (cursor s) (nextTicket s + 1) (nextTicket s + 1) ∅))
      as Hidle' by (unfold idle; simpl; split_and!; done || lia).
    split; [done|]. destruct (begin_idle_start cs _ Hidle' Hlen) as [-> _].
    by rewrite Hstart.
Qed.
