(* ===== verification/Registry.v ===== *)
(** * pool/registry.go: the shared node registry. *)
From stdpp Require Import gmap strings list sorting fin_maps.
From S2P Require Import Prelude.
From S2P Require Import GoBase.
From S2P Require Import Model.
From S2P Require Import Selector.
From stdpp Require Import options.

(** ** Interfaces *)

(** [pool.Factory] and the part of [pool.Dialer] the registry calls, over the
    state [F] of whoever implements them; a nil dialer is [inr None]. *)
Class Factory (F D : Type) := {
  Build : NodeSpec → F → F * (sum GoError (option D));
  DialerClose : D → F → F;
}.

(** What the registry relies on: in the states an implementation can be in
    ([valid], kept by both operations), it tracks a set of live dialers:
    a successful [Build] adds a new one, made for the ID of the spec, a failed one
    adds none, and closing a dialer takes exactly that one away. *)
Class FactoryLaws (F D : Type) `{Factory F D} `{Countable D} := {
  valid : F → Prop;
  live : F → gset D;
  dialer_for : D → string;
  build_valid spec f : valid f → valid (Build spec f).1;
  close_valid d f : valid f → valid (DialerClose d f);
  build_live spec f f' d :
    valid f → Build spec f = (f', inr (Some d)) → (d ∉ live f) ∧ live f' = {[d]} ∪ live f;
  build_for spec f f' d : Build spec f = (f', inr (Some d)) → dialer_for d = spec_ID spec;
  build_failed spec f f' e : Build spec f = (f', inl e) → live f' = live f;
  build_nil spec f f' : Build spec f = (f', inr None) → live f' = live f;
  close_live d f : live (DialerClose d f) = live f ∖ {[d]};
}.

(** ** Data *)

Record Diff := mkDiff { diff_Added : nat; diff_Removed : nat; diff_Kept : nat }.

Record Stats := mkStats {
  st_Total : nat;
  st_Healthy : nat;
  st_Unhealthy : nat;
  st_Quarantined : nat;
  st_ActiveLeases : nat;
}.

Record nodeState (D : Type) := mkNodeState {
  ns_spec : NodeSpec;
  ns_dialer : D;
  ns_healthy : bool;
  ns_removed : bool;
  ns_probing : bool;
  ns_active : nat;
  ns_latency : Z;
  ns_lastFailure : string;
  ns_nextProbe : Z;
}.
Arguments mkNodeState {_} _ _ _ _ _ _ _ _ _.
Arguments ns_spec {_} _.
Arguments ns_dialer {_} _.
Arguments ns_healthy {_} _.
Arguments ns_removed {_} _.
Arguments ns_probing {_} _.
Arguments ns_active {_} _.
Arguments ns_latency {_} _.
Arguments ns_lastFailure {_} _.
Arguments ns_nextProbe {_} _.

(** The field [factory] is the factory state the operations thread. *)
Record Registry (D : Type) := mkRegistry {
  reg_probeInterval : Z;
  reg_nodes : gmap string (nodeState D);
  reg_order : list string;
}.
Arguments mkRegistry {_} _ _ _.
Arguments reg_probeInterval {_} _.
Arguments reg_nodes {_} _.
Arguments reg_order {_} _.

(** A lease without its [registry] and [once] fields, see Leases.v. *)
Record NodeLease (D : Type) := mkLease {
  lease_ID : string;
  lease_Dialer : D;
  lease_gated : bool;
}.
Arguments mkLease {_} _ _ _.
Arguments lease_ID {_} _.
Arguments lease_Dialer {_} _.
Arguments lease_gated {_} _.

Section data.
Context {D : Type}.
Implicit Types (st : nodeState D) (reg : Registry D).

Definition NewRegistry (probeInterval : Z) : Registry D := mkRegistry probeInterval ∅ [].

(** Field updates. *)
Definition set_nodes (nodes : gmap string (nodeState D)) reg : Registry D :=
  mkRegistry (reg_probeInterval reg) nodes (reg_order reg).
Definition set_removed (b : bool) st : nodeState D :=
  mkNodeState (ns_spec st) (ns_dialer st) (ns_healthy st) b (ns_probing st)
    (ns_active st) (ns_latency st) (ns_lastFailure st) (ns_nextProbe st).
Definition set_spec (spec : NodeSpec) st : nodeState D :=
  mkNodeState spec (ns_dialer st) (ns_healthy st) (ns_removed st) (ns_probing st)
    (ns_active st) (ns_latency st) (ns_lastFailure st) (ns_nextProbe st).
Definition set_usage (probing : bool) (active : nat) st : nodeState D :=
  mkNodeState (ns_spec st) (ns_dialer st) (ns_healthy st) (ns_removed st) probing
    active (ns_latency st) (ns_lastFailure st) (ns_nextProbe st).
Definition set_health (healthy : bool) (latency : Z) (lastFailure : string)
    (nextProbe : Z) st : nodeState D :=
  mkNodeState (ns_spec st) (ns_dialer st) healthy (ns_removed st) (ns_probing st)
    (ns_active st) latency lastFailure nextProbe.
Definition fresh_state (spec : NodeSpec) (dialer : D) : nodeState D :=
  mkNodeState spec dialer false false false 0 0 "" 0.
End data.

(** ** [Apply] *)

Section apply.
Context {F D : Type} `{Factory F D}.
Implicit Types (st : nodeState D) (reg : Registry D) (f : F).

(** First loop: the wanted specs, the last one of an ID winning; [None] is the
    empty-ID error. *)
Fixpoint collect_wanted (nodes : list NodeSpec) (wanted : gmap string NodeSpec)
    : option (gmap string NodeSpec) :=
  match nodes with
  | [] => Some wanted
  | spec :: rest =>
      if decide (spec_ID spec = "") then None
      else collect_wanted rest (<[spec_ID spec := spec]> wanted)
  end.

(** [for _, pending := range built { pending.Close() }] *)
Definition close_all (o : RangeOrder) (built : gmap string D) (f : F) : F :=
  foldl (λ f kv, DialerClose kv.2 f) f (range_items o built).

(** Second loop: build what the registry does not hold. Its two [continue]s,
    for a node that is present and for one that is draining, are one case. *)
Fixpoint build_missing (o : RangeOrder) (nodes : gmap string (nodeState D))
    (wanted : list (string * NodeSpec)) (built : gmap string D) (f : F)
    : F * (GoError + gmap string D) :=
  match wanted with
  | [] => (f, inr built)
  | (id, spec) :: rest =>
      match nodes !! id with
      | Some _ => build_missing o nodes rest built f
      | None =>
          match Build spec f with
          | (f', inl err) => (close_all o built f', inl err)
          | (f', inr None) =>
              (close_all o built f', inl (ErrNew "factory returned a nil dialer"))
          | (f', inr (Some dialer)) =>
              build_missing o nodes rest (<[id := dialer]> built) f'
          end
      end
  end.

(** Third loop, one entry: keep, ignore, retire or drop an existing node. *)
Definition sweep_one (wanted : gmap string NodeSpec)
    (acc : gmap string (nodeState D) * F * Diff) (entry : string * nodeState D)
    : gmap string (nodeState D) * F * Diff :=
  let '(nodes, f, diff) := acc in
  let '(id, st) := entry in
  match wanted !! id with
  | Some spec =>
      (<[id := set_spec spec (set_removed false st)]> nodes, f,
       mkDiff (diff_Added diff) (diff_Removed diff) (S (diff_Kept diff)))
  | None =>
      if ns_removed st then (nodes, f, diff)
      else
        let diff' := mkDiff (diff_Added diff) (S (diff_Removed diff)) (diff_Kept diff) in
        if decide (ns_active st = 0) then
          (delete id nodes, DialerClose (ns_dialer st) f, diff')
        else (<[id := set_removed true st]> nodes, f, diff')
  end.

(** Fourth loop, one entry: a built node starts quarantined. *)
Definition add_one (wanted : gmap string NodeSpec)
    (acc : gmap string (nodeState D) * Diff) (entry : string * D)
    : gmap string (nodeState D) * Diff :=
  let '(nodes, diff) := acc in
  let '(id, dialer) := entry in
  match wanted !! id with
  | Some spec =>
      (<[id := fresh_state spec dialer]> nodes,
       mkDiff (S (diff_Added diff)) (diff_Removed diff) (diff_Kept diff))
  | None => (nodes, diff)
  end.

Definition Apply (o : RangeOrder) (snapshot : Snapshot) (reg : Registry D) (f : F)
    : Registry D * F * (GoError + Diff) :=
  match collect_wanted (snap_Nodes snapshot) ∅ with
  | None => (reg, f, inl (ErrNew "node has empty ID"))
  | Some wanted =>
      match build_missing o (reg_nodes reg) (range_items o wanted) ∅ f with
      | (f1, inl err) => (reg, f1, inl err)
      | (f1, inr built) =>
          let '(nodes2, f2, diff2) :=
            foldl (sweep_one wanted) (reg_nodes reg, f1, mkDiff 0 0 0)
              (range_items o (reg_nodes reg)) in
          let '(nodes3, diff3) := foldl (add_one wanted) (nodes2, diff2)
              (range_items o built) in
          (mkRegistry (reg_probeInterval reg) nodes3 (sort_strings (range_keys o wanted)),
           f2, inr diff3)
      end
  end.
End apply.

(** ** The other operations *)

Section operations.
Context {F D : Type} `{Factory F D}.
Implicit Types (st : nodeState D) (reg : Registry D) (f : F) (id : string).

Definition failureClass (err : GoError) : string :=
  if errors_Is err DeadlineExceeded then "timeout"
  else if errors_Is err Canceled then "canceled"
  else if errors_As_net err then "network"
  else "dial".

(** [now] is what [time.Now()] returns; a nil [cause] is [None]. *)
Definition MarkFailure (id : string) (cause : option GoError) (now : Z) (reg : Registry D)
    : Registry D * bool :=
  match reg_nodes reg !! id with
  | None => (reg, false)
  | Some st =>
      let transitioned := ns_healthy st || bool_decide (ns_lastFailure st = "") in
      let lastFailure :=
        match cause with Some err => failureClass err | None => ns_lastFailure st end in
      (set_nodes (<[id := set_health false (ns_latency st) lastFailure
          (now + reg_probeInterval reg) st]> (reg_nodes reg)) reg,
       transitioned)
  end.

Definition MarkSuccess (id : string) (latency : Z) (now : Z) (reg : Registry D)
    : Registry D * bool :=
  match reg_nodes reg !! id with
  | None => (reg, false)
  | Some st =>
      if ns_removed st then (reg, false)
      else
        (set_nodes (<[id := set_health true latency ""
            (now + reg_probeInterval reg) st]> (reg_nodes reg)) reg,
         negb (ns_healthy st))
  end.

Definition SourceIDs (id : string) (reg : Registry D) : list string :=
  match reg_nodes reg !! id with
  | None => []
  | Some st => spec_SourceIDs (ns_spec st)
  end.

Definition RoutingSnapshot (reg : Registry D) : list Candidate :=
  let healthyCount :=
    count (λ id, match reg_nodes reg !! id with
                 | Some st => negb (ns_removed st) && ns_healthy st
                 | None => false
                 end) (reg_order reg) in
  omap (λ id,
    match reg_nodes reg !! id with
    | None => None
    | Some st =>
        if ns_removed st then None
        else if bool_decide (healthyCount = 0) && negb (ns_probing st)
        then Some (mkCandidate id true true)
        else Some (mkCandidate id (ns_healthy st) false)
    end) (reg_order reg).

Definition Acquire (id : string) (allowUnhealthy : bool) (reg : Registry D)
    : Registry D * option (NodeLease D) :=
  match reg_nodes reg !! id with
  | None => (reg, None)
  | Some st =>
      if ns_removed st then (reg, None)
      else
        let halfOpen := negb (ns_healthy st) in
        if halfOpen && negb allowUnhealthy then (reg, None)
        else if halfOpen && ns_probing st then (reg, None)
        else
          let probing := if halfOpen then true else ns_probing st in
          (set_nodes (<[id := set_usage probing (S (ns_active st)) st]> (reg_nodes reg)) reg,
           Some (mkLease id (ns_dialer st) halfOpen))
  end.

(** The loop of [ProbeDue] over [registry.order]. *)
Fixpoint probe_due_loop (order : list string) (now : Z) (reg : Registry D)
    : Registry D * list (NodeLease D) :=
  match order with
  | [] => (reg, [])
  | id :: rest =>
      match reg_nodes reg !! id with
      | None => probe_due_loop rest now reg
      | Some st =>
          if ns_removed st || ns_probing st || time_After (ns_nextProbe st) now
          then probe_due_loop rest now reg
          else
            let reg' :=
              set_nodes (<[id := set_usage true (S (ns_active st)) st]> (reg_nodes reg)) reg in
            let '(reg'', leases) := probe_due_loop rest now reg' in
            (reg'', mkLease id (ns_dialer st) true :: leases)
      end
  end.

Definition ProbeDue (now : Z) (reg : Registry D) : Registry D * list (NodeLease D) :=
  probe_due_loop (reg_order reg) now reg.

(** The [switch] of [Stats] and [StatsBySource]. *)
Definition stats_add (st : nodeState D) (s : Stats) : Stats :=
  let total := S (st_Total s) in
  let leases := st_ActiveLeases s + ns_active st in
  if ns_healthy st then
    mkStats total (S (st_Healthy s)) (st_Unhealthy s) (st_Quarantined s) leases
  else if decide (ns_lastFailure st = "") then
    mkStats total (st_Healthy s) (st_Unhealthy s) (S (st_Quarantined s)) leases
  else
    mkStats total (st_Healthy s) (S (st_Unhealthy s)) (st_Quarantined s) leases.

Definition zero_stats : Stats := mkStats 0 0 0 0 0.

Definition PoolStats (reg : Registry D) : Stats :=
  foldl (λ s id,
    match reg_nodes reg !! id with
    | None => s
    | Some st => if ns_removed st then s else stats_add st s
    end) zero_stats (reg_order reg).

Definition StatsBySource (reg : Registry D) : gmap string Stats :=
  foldl (λ result id,
    match reg_nodes reg !! id with
    | None => result
    | Some st =>
        if ns_removed st then result
        else
          foldl (λ result source,
            <[source := stats_add st (default zero_stats (result !! source))]> result)
            result (spec_SourceIDs (ns_spec st))
    end) ∅ (reg_order reg).

Definition release (id : string) (gated : bool) (reg : Registry D) (f : F)
    : Registry D * F :=
  match reg_nodes reg !! id with
  | None => (reg, f)
  | Some st =>
      let active := Nat.pred (ns_active st) in
      let probing := if gated then false else ns_probing st in
      if ns_removed st && bool_decide (active = 0) then
        (set_nodes (delete id (reg_nodes reg)) reg, DialerClose (ns_dialer st) f)
      else
        (set_nodes (<[id := set_usage probing active st]> (reg_nodes reg)) reg, f)
  end.
End operations.

(** ** [Apply]: lemmas *)

(** What the third loop leaves of an existing node. *)
Definition sweep_state {D} (wanted : gmap string NodeSpec) (id : string)
    (st : nodeState D) : option (nodeState D) :=
  match wanted !! id with
  | Some spec => Some (set_spec spec (set_removed false st))
  | None =>
      if ns_removed st then Some st
      else if decide (ns_active st = 0) then None
      else Some (set_removed true st)
  end.

(** The dialer the third loop closes for an entry, if any. *)
Definition dropped {D} (wanted : gmap string NodeSpec) (entry : string * nodeState D)
    : option D :=
  match wanted !! entry.1 with
  | Some _ => None
  | None =>
      if ns_removed entry.2 then None
      else if decide (ns_active entry.2 = 0) then Some (ns_dialer entry.2) else None
  end.

(** Distinct keys hold distinct dialers. *)
Definition dialers_inj {D} (m : gmap string D) : Prop :=
  ∀ i j d, m !! i = Some d → m !! j = Some d → i = j.

Lemma collect_wanted_spec (nodes : list NodeSpec) (wanted0 wanted : gmap string NodeSpec) :
  collect_wanted nodes wanted0 = Some wanted →
  (∀ id, is_Some (wanted !! id) ↔ is_Some (wanted0 !! id) ∨ ∃ spec, spec ∈ nodes ∧ spec_ID spec = id) ∧
  (∀ id spec, wanted !! id = Some spec →
     wanted0 !! id = Some spec ∨ spec ∈ nodes ∧ spec_ID spec = id) ∧
  (∀ spec, spec ∈ nodes → spec_ID spec ≠ "").
Proof.
  revert wanted0. induction nodes as [|spec nodes IH]; intros wanted0 Hc; simplify_eq/=.
  { split_and!; [|by left|by intros ? ?%not_elem_of_nil].
    intros id. split; [by left|]. intros [?|(? & []%not_elem_of_nil & _)]; done. }
  case_decide as Hne; [done|]. destruct (IH _ Hc) as (Hdom & Hval & Hid). split_and!.
  - intros id. rewrite Hdom, lookup_insert. split.
    + intros [Hi|(s & ? & ?)].
      * case_decide; [right; exists spec; split; [by left|done]|by left].
      * right. exists s. split; [by right|done].
    + intros [Hi|(s & [->|?]%elem_of_cons & <-)].
      * left. case_decide; [by eexists|done].
      * left. rewrite decide_True by done. by eexists.
      * right. eauto.
  - intros id s Hs. destruct (Hval id s Hs) as [Hi|[? ?]].
    + apply lookup_insert_Some in Hi as [[<- <-]|[_ ?]]; [|by left].
      right. split; [by left|done].
    + right. split; [by right|done].
  - intros s [->|?]%elem_of_cons; auto.
Qed.

Lemma collect_wanted_none (nodes : list NodeSpec) (wanted0 : gmap string NodeSpec) :
  collect_wanted nodes wanted0 = None ↔ ∃ spec, spec ∈ nodes ∧ spec_ID spec = "".
Proof.
  revert wanted0. induction nodes as [|spec nodes IH]; intros wanted0; simpl.
  { split; [done|]. by intros (? & ?%not_elem_of_nil & _). }
  case_decide as Hid; [split; [|done]; intros _; exists spec; split; [by left|done]|].
  rewrite IH. split.
  - intros (s & ? & ?). exists s. split; [by right|done].
  - intros (s & [->|?]%elem_of_cons & ?); [done|eauto].
Qed.

(** Whatever [Build] and [Close] preserve, the operations that close or build
    dialers preserve. *)
Section preserve.
Context {F D : Type} `{Factory F D} (P : F → Prop).
Context (HBuild : ∀ spec f, P f → P (Build spec f).1).
Context (HClose : ∀ d f, P f → P (DialerClose d f)).
Implicit Types (st : nodeState D) (reg : Registry D) (f : F).

Lemma close_all_preserves o (built : gmap string D) f : P f → P (close_all o built f).
Proof using HClose.
  unfold close_all. generalize (range_items o built). intros items. revert f.
  induction items as [|kv items IH]; intros f ?; [done|]. by apply IH, HClose.
Qed.

Lemma build_missing_preserves o nodes (items : list (string * NodeSpec)) built f :
  P f → P (build_missing o nodes items built f).1.
Proof using HBuild HClose.
  revert built f. induction items as [|[id spec] items IH]; intros built f Hv; [done|].
  simpl. destruct (nodes !! id); [by apply IH|].
  pose proof (HBuild spec f Hv) as Hv1.
  destruct (Build spec f) as [f1 [e|[d|]]]; simpl in *;
    [by apply close_all_preserves|by apply IH|by apply close_all_preserves].
Qed.

Lemma sweep_preserves wanted (items : list (string * nodeState D)) acc :
  P acc.1.2 → P (foldl (sweep_one wanted) acc items).1.2.
Proof using HClose.
  revert acc. induction items as [|[id st] items IH]; intros [[nodes f] diff] Hv; [done|].
  simpl in *. apply IH. destruct (wanted !! id); [done|]. destruct (ns_removed st); [done|].
  case_decide; [by apply HClose|done].
Qed.

Lemma apply_preserves o snap reg f : P f → P (Apply o snap reg f).1.2.
Proof using HBuild HClose.
  intros Hv. unfold Apply. destruct (collect_wanted _ _) as [wanted|]; [|done].
  pose proof (build_missing_preserves o (reg_nodes reg) (range_items o wanted) ∅ f Hv) as Hv1.
  destruct (build_missing _ _ _ _ _) as [f1 [e1|built]]; [done|].
  pose proof (sweep_preserves wanted (range_items o (reg_nodes reg))
    (reg_nodes reg, f1, mkDiff 0 0 0) Hv1) as Hv2.
  destruct (foldl (sweep_one wanted) _ _) as [[nodes2 f2] diff2].
  by destruct (foldl (add_one wanted) _ _) as [nodes3 diff3].
Qed.

Lemma release_preserves id gated reg f : P f → P (release id gated reg f).2.
Proof using HClose. intros Hf. unfold release. repeat case_match; simpl; [by apply HClose|done..]. Qed.
End preserve.

Section apply_lemmas.
Context {F D : Type} `{FactoryLaws F D}.
Implicit Types (st : nodeState D) (reg : Registry D) (f : F).

Lemma close_list_live (items : list (string * D)) f :
  live (foldl (λ f kv, DialerClose kv.2 f) f items) = live f ∖ list_to_set items.*2.
Proof.
  revert f. induction items as [|[k d] items IH]; intros f; simpl; [set_solver|].
  rewrite IH, close_live. set_solver.
Qed.

Lemma close_all_live o (built : gmap string D) f :
  live (close_all o built f) = live f ∖ map_img built.
Proof.
  unfold close_all. rewrite close_list_live. f_equal. apply set_eq. intros d.
  rewrite elem_of_list_to_set, list_elem_of_fmap, elem_of_map_img. split.
  - intros ([k d'] & -> & Hin%elem_of_range). eauto.
  - intros [k Hk%(elem_of_range o)]. by exists (k, d).
Qed.

Lemma apply_valid o snap reg f : valid f → valid (Apply o snap reg f).1.2.
Proof. apply apply_preserves; [apply build_valid|apply close_valid]. Qed.

(** The second loop either builds exactly the missing nodes, or leaves no
    dialer of its own behind. *)
Lemma build_missing_spec o nodes (items : list (string * NodeSpec)) built f L :
  valid f → NoDup items.*1 →
  (∀ id, id ∈ items.*1 → built !! id = None) →
  (∀ id spec, (id, spec) ∈ items → spec_ID spec = id) →
  (∀ id d, built !! id = Some d → dialer_for d = id) →
  dialers_inj built → live f = L ∪ map_img built → L ## map_img built →
  match build_missing o nodes items built f with
  | (f', inl _) => live f' = L
  | (f', inr built') =>
      (∀ id, is_Some (built' !! id) ↔
         is_Some (built !! id) ∨ id ∈ items.*1 ∧ nodes !! id = None) ∧
      (∀ id d, built' !! id = Some d → dialer_for d = id) ∧
      dialers_inj built' ∧ live f' = L ∪ map_img built' ∧ L ## map_img built'
  end.
Proof.
  revert built f. induction items as [|[id spec] items IH];
    intros built f Hv Hnd Hfresh Hids Hfor Hinj Hlive Hdisj; simpl in *.
  { split_and!; try done. intros id. split; [by left|]. intros [?|[?%not_elem_of_nil _]]; done. }
  apply NoDup_cons in Hnd as [Hnot Hnd].
  assert (∀ id spec, (id, spec) ∈ items → spec_ID spec = id) as Hids'
    by (intros; apply Hids; by right).
  destruct (nodes !! id) as [st|] eqn:Hid.
  - specialize (IH built f Hv Hnd ltac:(intros; apply Hfresh; by right) Hids' Hfor Hinj
      Hlive Hdisj).
    destruct (build_missing o nodes items built f) as [f' [e|built']]; [done|].
    destruct IH as (Hdom & ? & ? & ? & ?). split_and!; try done.
    intros id'. rewrite Hdom, elem_of_cons. split; [naive_solver|].
    intros [?|[[->|?] ?]]; [by left|congruence|by right].
  - pose proof (build_valid spec f Hv) as Hv1.
    destruct (Build spec f) as [f1 [e|[d|]]] eqn:HB; simpl in Hv1.
    + rewrite close_all_live, (build_failed _ _ _ _ HB), Hlive. set_solver.
    + destruct (build_live _ _ _ _ Hv HB) as [Hnew Hlive1].
      assert (built !! id = None) as Hbid by (apply Hfresh; by left).
      assert (map_img (<[id := d]> built) = {[d]} ∪ map_img (SA := gset D) built) as Himg
        by (by apply map_img_insert_notin_L).
      assert (∀ id', id' ∈ items.*1 → <[id := d]> built !! id' = None) as Hfresh'.
      { intros id' Hin. rewrite lookup_insert_ne by (by intros ->).
        apply Hfresh. by right. }
      assert (dialers_inj (<[id := d]> built)) as Hinj'.
      { intros i j d' Hi Hj. apply lookup_insert_Some in Hi, Hj.
        assert (∀ k, built !! k = Some d → False) as Hcontra.
        { intros k Hk. apply Hnew. rewrite Hlive. apply elem_of_union_r.
          by eapply elem_of_map_img_2. }
        naive_solver. }
      assert (live f1 = L ∪ map_img (<[id := d]> built)) as Hlive'
        by (rewrite Himg, Hlive1, Hlive; set_solver).
      assert (∀ id' d', <[id := d]> built !! id' = Some d' → dialer_for d' = id') as Hfor'.
      { intros id' d' [[<- <-]|[_ ?]]%lookup_insert_Some; [|by apply Hfor].
        rewrite (build_for _ _ _ _ HB). apply Hids. by left. }
      destruct (build_missing o nodes items (<[id := d]> built) f1) as [f' [e|built']] eqn:Hb;
        specialize (IH (<[id := d]> built) f1 Hv1 Hnd); rewrite Hb in IH.
      * apply IH; [by apply Hfresh'|done..|set_solver].
      * destruct IH as (Hdom & ? & ? & ? & ?); [by apply Hfresh'|done..|set_solver|].
        split_and!; try done. intros id'. rewrite Hdom, elem_of_cons.
        destruct (decide (id = id')) as [->|].
        -- rewrite lookup_insert_eq. split; [|by left; eexists]. by right; split; [left|].
        -- rewrite lookup_insert_ne by done. naive_solver.
    + rewrite close_all_live, (build_nil _ _ _ HB), Hlive. set_solver.
Qed.
End apply_lemmas.

Section sweep_lemmas.
Context {F D : Type} `{FactoryLaws F D}.
Implicit Types (st : nodeState D) (reg : Registry D) (f : F) (wanted : gmap string NodeSpec).

Lemma sweep_one_spec wanted nodes f diff id st :
  nodes !! id = Some st →
  let acc := sweep_one wanted (nodes, f, diff) (id, st) in
  (∀ id', acc.1.1 !! id' =
     if decide (id' = id) then sweep_state wanted id st else nodes !! id') ∧
  live acc.1.2 = live f ∖ list_to_set (option_list (dropped wanted (id, st))) ∧
  diff_Added acc.2 = diff_Added diff ∧
  diff_Kept acc.2 =
    (if decide (is_Some (wanted !! id)) then 1 else 0) + diff_Kept diff ∧
  diff_Removed acc.2 =
    (if decide (wanted !! id = None ∧ ns_removed st = false) then 1 else 0) +
      diff_Removed diff.
Proof.
  intros Hst. unfold sweep_one, sweep_state, dropped. simpl.
  destruct (wanted !! id) as [spec|] eqn:Hw; simpl.
  { split_and!; try done; [|set_solver].
    intros id'. rewrite lookup_insert. repeat case_decide; naive_solver. }
  destruct (ns_removed st) eqn:Hr; simpl.
  { split_and!; try done; [|set_solver]. intros id'. case_decide; congruence. }
  case_decide; simpl; split_and!; try done.
  - intros id'. rewrite lookup_delete. repeat case_decide; naive_solver.
  - rewrite close_live. set_solver.
  - intros id'. rewrite lookup_insert. repeat case_decide; naive_solver.
  - set_solver.
Qed.

Lemma sweep_fold_spec wanted (items : list (string * nodeState D)) nodes f diff :
  NoDup items.*1 →
  (∀ id st, (id, st) ∈ items → nodes !! id = Some st) →
  let acc := foldl (sweep_one wanted) (nodes, f, diff) items in
  (∀ id, acc.1.1 !! id =
     if decide (id ∈ items.*1) then nodes !! id ≫= sweep_state wanted id
     else nodes !! id) ∧
  live acc.1.2 = live f ∖ list_to_set (omap (dropped wanted) items) ∧
  diff_Added acc.2 = diff_Added diff ∧
  diff_Kept acc.2 =
    count (λ kv, bool_decide (is_Some (wanted !! kv.1))) items + diff_Kept diff ∧
  diff_Removed acc.2 =
    count (λ kv, bool_decide (wanted !! kv.1 = None ∧ ns_removed kv.2 = false)) items +
      diff_Removed diff.
Proof.
  revert nodes f diff. induction items as [|[id st] items IH]; intros nodes f diff Hnd Hin.
  { simpl. split_and!; try done. set_solver. }
  rewrite fmap_cons in *. simpl fst in *.
  apply NoDup_cons in Hnd as [Hnot Hnd].
  pose proof (Hin id st ltac:(by left)) as Hst.
  pose proof (sweep_one_spec wanted nodes f diff id st Hst) as Hone.
  destruct (sweep_one wanted (nodes, f, diff) (id, st)) as [[nodes1 f1] diff1] eqn:E.
  simpl in Hone. destruct Hone as (Hn1 & Hl1 & Ha1 & Hk1 & Hr1).
  assert (∀ id' st', (id', st') ∈ items → id' ≠ id) as Hne.
  { intros id' st' Hin' ->. apply Hnot. apply list_elem_of_fmap. by exists (id, st'). }
  destruct (IH nodes1 f1 diff1 Hnd) as (Hn & Hl & Ha & Hk & Hr).
  { intros id' st' Hin'. rewrite Hn1, decide_False by eauto. apply Hin. by right. }
  change (foldl (sweep_one wanted) (nodes, f, diff) ((id, st) :: items)) with
    (foldl (sweep_one wanted) (sweep_one wanted (nodes, f, diff) (id, st)) items).
  rewrite E. split_and!.
  - intros id'. rewrite Hn, Hn1. destruct (decide (id' = id)) as [->|].
    + rewrite decide_False by done. rewrite (decide_True (P := id ∈ id :: items.*1))
        by (by left). by rewrite Hst.
    + destruct (decide (id' ∈ items.*1)).
      * by rewrite (decide_True (P := id' ∈ id :: items.*1)) by (by right).
      * rewrite (decide_False (P := id' ∈ id :: items.*1)); [done|].
        intros [?|?]%elem_of_cons; done.
  - rewrite Hl, Hl1. simpl. destruct (dropped wanted (id, st)); set_solver.
  - congruence.
  - rewrite Hk, Hk1, count_cons. simpl. repeat (case_decide || case_bool_decide); done || lia.
  - rewrite Hr, Hr1, count_cons. simpl. repeat (case_decide || case_bool_decide); done || lia.
Qed.

(** The third loop over a whole registry, in any order. *)
Lemma sweep_range_spec wanted (o : RangeOrder) nodes f :
  let acc := foldl (sweep_one wanted) (nodes, f, mkDiff 0 0 0) (range_items o nodes) in
  (∀ id, acc.1.1 !! id = nodes !! id ≫= sweep_state wanted id) ∧
  (∀ d, d ∈ live acc.1.2 ↔ d ∈ live f ∧
     ∀ id st, nodes !! id = Some st → dropped wanted (id, st) ≠ Some d) ∧
  diff_Added acc.2 = 0 ∧
  diff_Kept acc.2 = size (filter (λ kv, is_Some (wanted !! kv.1)) nodes) ∧
  diff_Removed acc.2 =
    size (filter (λ kv, wanted !! kv.1 = None ∧ ns_removed kv.2 = false) nodes).
Proof.
  destruct (sweep_fold_spec wanted (range_items o nodes) nodes f (mkDiff 0 0 0))
    as (Hn & Hl & Ha & Hk & Hr).
  { apply range_keys_nodup. }
  { intros id st. by rewrite elem_of_range. }
  assert (∀ (P : string * nodeState D → Prop) `{∀ x, Decision (P x)},
    count (λ kv, bool_decide (P kv)) (range_items o nodes) = size (filter P nodes)) as Hcount.
  { intros P ?. rewrite <-(range_count o P). unfold count. f_equal.
    apply list_filter_iff. intros x. apply bool_decide_eq_true. }
  split_and!.
  - intros id. rewrite Hn. case_decide as Hin; [done|].
    destruct (nodes !! id) as [st|] eqn:Hid; [|done]. destruct Hin.
    apply list_elem_of_fmap. exists (id, st). by rewrite elem_of_range.
  - intros d. rewrite Hl, elem_of_difference, elem_of_list_to_set, list_elem_of_omap.
    split.
    + intros [? Hno]. split; [done|]. intros id st Hst Hd. apply Hno.
      exists (id, st). by rewrite elem_of_range.
    + intros [? Hno]. split; [done|]. intros ([id st] & Hin%elem_of_range & Hd).
      by apply (Hno id st).
  - done.
  - rewrite Hk. simpl. rewrite Nat.add_0_r. apply Hcount.
  - rewrite Hr. simpl. rewrite Nat.add_0_r. apply Hcount.
Qed.

(** The fourth loop inserts one quarantined node per built dialer. *)
Lemma add_range_spec wanted (o : RangeOrder) nodes (built : gmap string D) diff :
  (∀ id, is_Some (built !! id) → is_Some (wanted !! id)) →
  let acc := foldl (add_one wanted) (nodes, diff) (range_items o built) in
  (∀ id, acc.1 !! id =
     match built !! id, wanted !! id with
     | Some d, Some spec => Some (fresh_state spec d)
     | _, _ => nodes !! id
     end) ∧
  diff_Added acc.2 = size built + diff_Added diff ∧
  diff_Kept acc.2 = diff_Kept diff ∧ diff_Removed acc.2 = diff_Removed diff.
Proof.
  intros Hdom. rewrite <-(range_length o).
  assert (∀ id d, (id, d) ∈ range_items o built ↔ built !! id = Some d) as Hin
    by (intros; apply elem_of_range).
  pose proof (range_keys_nodup o built) as Hnd. unfold range_keys in Hnd.
  revert Hin Hnd. generalize (range_items o built) as items. clear o.
  intros items. revert nodes diff built Hdom.
  induction items as [|[id d] items IH]; intros nodes diff built Hdom Hin Hnd; simpl.
  { split_and!; try done. intros id. destruct (built !! id) as [d|] eqn:Hd; [|done].
    apply Hin, not_elem_of_nil in Hd. done. }
  simpl in Hnd. apply NoDup_cons in Hnd as [Hnot Hnd].
  assert (built !! id = Some d) as Hid by (apply Hin; by left).
  destruct (Hdom id ltac:(by eexists)) as [spec Hspec]. rewrite Hspec.
  destruct (IH (<[id := fresh_state spec d]> nodes)
    (mkDiff (S (diff_Added diff)) (diff_Removed diff) (diff_Kept diff))
    (delete id built)) as (Hl & Ha & Hk & Hr); [| |done|].
  - intros id' [d' [_ ?]%lookup_delete_Some]. apply Hdom. by eexists.
  - intros id' d'. rewrite lookup_delete_Some, <-Hin, elem_of_cons. split; [|naive_solver].
    intros Hin'. split; [|by right]. intros <-. apply Hnot, list_elem_of_fmap.
    by exists (id, d').
  - split_and!; [|simpl in *; lia|done|done].
    intros id'. rewrite Hl. destruct (decide (id = id')) as [<-|].
    + by rewrite lookup_delete_eq, lookup_insert_eq, Hid, Hspec.
    + by rewrite lookup_delete_ne, lookup_insert_ne by done.
Qed.
End sweep_lemmas.

(** ** Well-formed registries *)

(** The IDs that receive traffic: the nodes not marked as removed. *)
Definition routed {D} (nodes : gmap string (nodeState D)) : gset string :=
  dom (filter (λ kv, ns_removed kv.2 = false) nodes).

Lemma elem_of_routed {D} (nodes : gmap string (nodeState D)) (id : string) :
  id ∈ routed nodes ↔ ∃ st, nodes !! id = Some st ∧ ns_removed st = false.
Proof.
  unfold routed. rewrite elem_of_dom. unfold is_Some.
  setoid_rewrite map_lookup_filter_Some. done.
Qed.

Section invariant.
Context {F D : Type} `{FactoryLaws F D}.

(** The registry invariant, relative to the factory it builds from: the routing
    order is exactly the sorted list of the nodes not removed, a removed node
    is still in use, and the live dialers are those of the registered nodes,
    one each. *)
Record reg_ok (reg : Registry D) (f : F) : Prop := {
  ro_valid : valid f;
  ro_order : reg_order reg = sort_strings (elements (routed (reg_nodes reg)));
  ro_drain : ∀ id st, reg_nodes reg !! id = Some st → ns_removed st = true →
    0 < ns_active st;
  ro_id : ∀ id st, reg_nodes reg !! id = Some st → spec_ID (ns_spec st) = id ∧ id ≠ "";
  ro_inj : ∀ id id' st st', reg_nodes reg !! id = Some st → reg_nodes reg !! id' = Some st' →
    ns_dialer st = ns_dialer st' → id = id';
  ro_for : ∀ id st, reg_nodes reg !! id = Some st → dialer_for (ns_dialer st) = id;
  ro_live : ∀ d, d ∈ live f ↔ ∃ id st, reg_nodes reg !! id = Some st ∧ ns_dialer st = d;
}.

Lemma ro_order_elem (reg : Registry D) (f : F) (id : string) :
  reg_ok reg f →
  id ∈ reg_order reg ↔ ∃ st, reg_nodes reg !! id = Some st ∧ ns_removed st = false.
Proof.
  intros Hok. rewrite (ro_order _ _ Hok), sort_strings_elem, elem_of_elements.
  apply elem_of_routed.
Qed.

Lemma ro_order_nodup (reg : Registry D) (f : F) : reg_ok reg f → NoDup (reg_order reg).
Proof.
  intros Hok. rewrite (ro_order _ _ Hok), sort_strings_nodup. apply NoDup_elements.
Qed.

(** One live dialer per registered node. *)
Lemma ro_live_size (reg : Registry D) (f : F) :
  reg_ok reg f → size (live f) = size (reg_nodes reg).
Proof.
  intros Hok. set (l := (λ kv, ns_dialer kv.2) <$> map_to_list (reg_nodes reg)).
  assert (live f = list_to_set l) as ->.
  { apply set_eq. intros d. rewrite (ro_live _ _ Hok), elem_of_list_to_set.
    unfold l. rewrite list_elem_of_fmap. split.
    - intros (id & st & Hst%elem_of_map_to_list & <-). by exists (id, st).
    - intros ([id st] & -> & Hst%elem_of_map_to_list). eauto. }
  rewrite size_list_to_set; [by unfold l; rewrite length_fmap, length_map_to_list|].
  apply NoDup_fmap_2_strong; [|apply NoDup_map_to_list].
  intros [i s] [j s'] Hi%elem_of_map_to_list Hj%elem_of_map_to_list Hd. simpl in Hd.
  assert (i = j) as -> by (by eapply ro_inj). congruence.
Qed.

Lemma new_registry_ok (interval : Z) (f : F) :
  valid f → live f = ∅ → reg_ok (NewRegistry interval) f.
Proof.
  intros Hv Hf. split; simpl; try done.
  intros d. rewrite Hf. split; [set_solver|]. intros (? & ? & ? & _); done.
Qed.

(** Two states of one node that differ in bookkeeping only. *)
Definition same_node (st st' : nodeState D) : Prop :=
  ns_spec st' = ns_spec st ∧ ns_dialer st' = ns_dialer st ∧
  ns_removed st' = ns_removed st ∧ (ns_removed st = true → 0 < ns_active st').

(** Changing bookkeeping keeps the invariant. *)
Lemma reg_ok_similar (reg reg' : Registry D) (f : F) :
  reg_ok reg f → reg_order reg' = reg_order reg →
  (∀ id, option_Forall2 same_node (reg_nodes reg !! id) (reg_nodes reg' !! id)) →
  reg_ok reg' f.
Proof.
  intros Hok Hord Hsim.
  assert (∀ i s, reg_nodes reg' !! i = Some s →
    ∃ s0, reg_nodes reg !! i = Some s0 ∧ same_node s0 s) as Hback.
  { intros i s Hs. specialize (Hsim i). rewrite Hs in Hsim. inversion Hsim; eauto. }
  assert (∀ i s, reg_nodes reg !! i = Some s →
    ∃ s', reg_nodes reg' !! i = Some s' ∧ same_node s s') as Hforth.
  { intros i s Hs. specialize (Hsim i). rewrite Hs in Hsim. inversion Hsim; eauto. }
  split.
  - apply Hok.
  - rewrite Hord, (ro_order _ _ Hok). apply sort_strings_proper.
    assert (routed (reg_nodes reg') = routed (reg_nodes reg)) as ->; [|done].
    apply set_eq. intros i. rewrite !elem_of_routed. split.
    + intros (s & (s0 & ? & _ & _ & Hr & _)%Hback & ?). exists s0. split; congruence.
    + intros (s & (s' & ? & _ & _ & Hr & _)%Hforth & ?). exists s'. split; congruence.
  - intros i s (s0 & Hi & _ & _ & Hr & Hact)%Hback Hrem. apply Hact. congruence.
  - intros i s (s0 & Hi & -> & _)%Hback. by eapply ro_id.
  - intros i j s s' (s0 & Hi & _ & -> & _)%Hback (s0' & Hj & _ & -> & _)%Hback.
    by eapply ro_inj.
  - intros i s (s0 & Hi & _ & -> & _)%Hback. by eapply ro_for.
  - intros d. rewrite (ro_live _ _ Hok). split.
    + intros (i & s & (s' & Hi & _ & Hd & _)%Hforth & <-). eauto.
    + intros (i & s & (s0 & Hi & _ & -> & _)%Hback & <-). eauto.
Qed.

(** The same for one node. *)
Lemma reg_ok_update (reg : Registry D) (f : F) (id : string) (st st' : nodeState D) :
  reg_ok reg f → reg_nodes reg !! id = Some st → same_node st st' →
  reg_ok (set_nodes (<[id := st']> (reg_nodes reg)) reg) f.
Proof.
  intros Hok Hid Hsame. apply (reg_ok_similar reg); [done..|]. simpl. intros i.
  destruct (decide (id = i)) as [<-|].
  - rewrite lookup_insert_eq, Hid. by constructor.
  - rewrite lookup_insert_ne by done.
    destruct (reg_nodes reg !! i) as [s|] eqn:Hi; [|by constructor].
    constructor. split_and!; try done. intros. by eapply ro_drain.
Qed.

(** Dropping a drained node closes its dialer and nothing else. *)
Lemma reg_ok_drop (reg : Registry D) (f : F) (id : string) (st : nodeState D) :
  reg_ok reg f → reg_nodes reg !! id = Some st → ns_removed st = true →
  reg_ok (set_nodes (delete id (reg_nodes reg)) reg) (DialerClose (ns_dialer st) f).
Proof.
  intros Hok Hid Hrem. split; simpl.
  - apply close_valid, Hok.
  - rewrite (ro_order _ _ Hok). apply sort_strings_proper.
    assert (routed (delete id (reg_nodes reg)) = routed (reg_nodes reg)) as ->; [|done].
    apply set_eq. intros i. rewrite !elem_of_routed.
    destruct (decide (i = id)) as [->|].
    + rewrite lookup_delete_eq, Hid. naive_solver congruence.
    + by rewrite lookup_delete_ne by done.
  - intros i s [_ Hi]%lookup_delete_Some. by eapply ro_drain.
  - intros i s [_ Hi]%lookup_delete_Some. by eapply ro_id.
  - intros i j s s' [_ Hi]%lookup_delete_Some [_ Hj]%lookup_delete_Some.
    by eapply ro_inj.
  - intros i s [_ Hi]%lookup_delete_Some. by eapply ro_for.
  - intros d. rewrite close_live, elem_of_difference, (ro_live _ _ Hok). split.
    + intros [(i & s & Hi & <-) Hne]. exists i, s. split; [|done].
      apply lookup_delete_Some. split; [|done]. intros <-.
      apply Hne. set_solver.
    + intros (i & s & [Hne Hi]%lookup_delete_Some & <-). split; [by eauto|].
      intros Hd%elem_of_singleton. by apply Hne, (ro_inj _ _ Hok id i st s).
Qed.
End invariant.

(** ** [Apply]: theorems *)

Section apply_theorems.
Context {F D : Type} `{FactoryLaws F D}.
Implicit Types (st : nodeState D) (reg : Registry D) (f : F).

(** The state of node [id] after a successful [Apply]. *)
Definition applied (wanted : gmap string NodeSpec) (nodes : gmap string (nodeState D))
    (built : gmap string D) (id : string) : option (nodeState D) :=
  match nodes !! id with
  | Some st => sweep_state wanted id st
  | None => spec ← wanted !! id; fresh_state spec <$> built !! id
  end.

Lemma build_wanted_spec o reg f (wanted : gmap string NodeSpec) :
  valid f → (∀ id spec, wanted !! id = Some spec → spec_ID spec = id) →
  match build_missing o (reg_nodes reg) (range_items o wanted) ∅ f with
  | (f', inl _) => live f' = live f
  | (f', inr built) =>
      (∀ id, is_Some (built !! id) ↔
         is_Some (wanted !! id) ∧ reg_nodes reg !! id = None) ∧
      (∀ id d, built !! id = Some d → dialer_for d = id) ∧
      dialers_inj built ∧ live f' = live f ∪ map_img built ∧ live f ## map_img built
  end.
Proof.
  intros Hv Hid.
  pose proof (build_missing_spec o (reg_nodes reg) (range_items o wanted) ∅ f (live f))
    as Hb.
  destruct (build_missing _ _ _ _ _) as [f' [e|built]].
  - apply Hb; [done|apply range_keys_nodup|done| |done..|set_solver|set_solver].
    intros id spec. rewrite elem_of_range. apply Hid.
  - destruct Hb as (Hdom & ? & ? & ? & ?);
      [done|apply range_keys_nodup|done| |done..|set_solver|set_solver|].
    { intros id spec. rewrite elem_of_range. apply Hid. }
    split_and!; try done. intros id. rewrite Hdom, lookup_empty.
    fold (range_keys o wanted). rewrite elem_of_range_keys.
    split; [intros [[? ?]|?]; done|by right].
Qed.

Lemma collected_ids nodes wanted :
  collect_wanted nodes ∅ = Some wanted →
  ∀ id spec, wanted !! id = Some spec → spec_ID spec = id.
Proof.
  intros Hw id spec Hspec. destruct (collect_wanted_spec _ _ _ Hw) as (_ & Hval & _).
  by destruct (Hval id spec Hspec) as [?|[_ ?]].
Qed.

Lemma apply_error o snap reg f reg' f' e :
  valid f → Apply o snap reg f = (reg', f', inl e) → reg' = reg ∧ live f' = live f.
Proof.
  intros Hv. unfold Apply. destruct (collect_wanted _ _) as [wanted|] eqn:Hw; [|by intros; simplify_eq].
  pose proof (build_wanted_spec o reg f wanted Hv (collected_ids _ _ Hw)) as Hb.
  destruct (build_missing _ _ _ _ _) as [f1 [e1|built]]; [by intros; simplify_eq|].
  destruct (foldl (sweep_one wanted) _ _) as [[nodes2 f2] diff2].
  destruct (foldl (add_one wanted) _ _) as [nodes3 diff3]. done.
Qed.

Lemma apply_success o snap reg f reg' f' diff :
  valid f → Apply o snap reg f = (reg', f', inr diff) →
  ∃ wanted built,
    collect_wanted (snap_Nodes snap) ∅ = Some wanted ∧
    (∀ id, is_Some (built !! id) ↔
       is_Some (wanted !! id) ∧ reg_nodes reg !! id = None) ∧
    (∀ id d, built !! id = Some d → dialer_for d = id) ∧
    dialers_inj built ∧ live f ## map_img built ∧
    (∀ id, reg_nodes reg' !! id = applied wanted (reg_nodes reg) built id) ∧
    reg_order reg' = sort_strings (elements (dom wanted)) ∧
    reg_probeInterval reg' = reg_probeInterval reg ∧
    (∀ d, d ∈ live f' ↔ (d ∈ live f ∨ d ∈ map_img (SA := gset D) built) ∧
       ∀ id st, reg_nodes reg !! id = Some st → dropped wanted (id, st) ≠ Some d) ∧
    diff_Added diff = size built ∧
    diff_Kept diff = size (filter (λ kv, is_Some (wanted !! kv.1)) (reg_nodes reg)) ∧
    diff_Removed diff =
      size (filter (λ kv, wanted !! kv.1 = None ∧ ns_removed kv.2 = false) (reg_nodes reg)).
Proof.
  intros Hv. unfold Apply. destruct (collect_wanted _ _) as [wanted|] eqn:Hw; [|by intros; simplify_eq].
  pose proof (build_wanted_spec o reg f wanted Hv (collected_ids _ _ Hw)) as Hb.
  destruct (build_missing _ _ _ _ _) as [f1 [e1|built]]; [by intros; simplify_eq|].
  destruct Hb as (Hdom & Hfor & Hinj & Hl1 & Hdisj).
  pose proof (sweep_range_spec wanted o (reg_nodes reg) f1) as Hs.
  destruct (foldl (sweep_one wanted) _ _) as [[nodes2 f2] diff2].
  destruct Hs as (Hn2 & Hl2 & Ha2 & Hk2 & Hr2). simpl in *.
  pose proof (add_range_spec wanted o nodes2 built diff2) as Hadd.
  destruct (foldl (add_one wanted) _ _) as [nodes3 diff3].
  destruct Hadd as (Hn3 & Ha3 & Hk3 & Hr3); [naive_solver|]. simpl in *.
  intros ?; simplify_eq. exists wanted, built. split_and!; try done; try lia.
  - intros id. simpl. rewrite Hn3, Hn2. unfold applied.
    destruct (built !! id) as [d|] eqn:Hbid.
    + destruct (proj1 (Hdom id) ltac:(by eexists)) as [[spec Hspec] Hnone].
      by rewrite Hspec, Hnone.
    + destruct (reg_nodes reg !! id) as [st|]; [done|].
      by destruct (wanted !! id).
  - simpl. apply sort_strings_proper, range_keys_perm.
  - intros d. rewrite Hl2, Hl1, elem_of_union. done.
Qed.

(** Where the nodes of the new registry come from. *)
Lemma applied_cases wanted nodes (built : gmap string D) id (st' : nodeState D) :
  applied wanted nodes built id = Some st' →
  (∃ st, nodes !! id = Some st ∧ sweep_state wanted id st = Some st' ∧
     ns_dialer st' = ns_dialer st) ∨
  (∃ spec d, nodes !! id = None ∧ wanted !! id = Some spec ∧
     built !! id = Some d ∧ st' = fresh_state spec d).
Proof.
  unfold applied. destruct (nodes !! id) as [st|].
  - intros Hs. left. exists st. split_and!; [done..|].
    unfold sweep_state in Hs. repeat case_match; simplify_eq; done.
  - destruct (wanted !! id) as [spec|]; [|done]. simpl.
    destruct (built !! id) as [d|]; [|done]. intros ?; simplify_eq/=. eauto 10.
Qed.

Lemma applied_routed wanted nodes (built : gmap string D) id :
  (is_Some (built !! id) ↔ is_Some (wanted !! id) ∧ nodes !! id = None) →
  is_Some (wanted !! id) ↔
    ∃ st, applied wanted nodes built id = Some st ∧ ns_removed st = false.
Proof.
  intros Hdom. unfold applied. split.
  - intros [spec Hspec]. destruct (nodes !! id) as [st|] eqn:Hid.
    + unfold sweep_state. rewrite Hspec. eauto.
    + destruct (proj2 Hdom) as [d Hd]; [by split; [eexists|]|].
      rewrite Hspec, Hd. simpl. eauto.
  - intros (st' & Hst' & Hr). destruct (nodes !! id) as [st|] eqn:Hid.
    + unfold sweep_state in Hst'. repeat case_match; simplify_eq/=; try done; congruence.
    + by destruct (wanted !! id).
Qed.

(** The dialers closed by [Apply] are exactly those of the nodes it forgets. *)
Lemma dropped_iff wanted id st :
  (sweep_state wanted id st = None ↔ dropped wanted (id, st) = Some (ns_dialer st)) ∧
  (∀ d, dropped wanted (id, st) = Some d → d = ns_dialer st).
Proof.
  unfold sweep_state, dropped. simpl. repeat case_match; naive_solver.
Qed.

Lemma applied_live reg f wanted (built : gmap string D) :
  reg_ok reg f → live f ## map_img built →
  (∀ id, is_Some (built !! id) ↔
     is_Some (wanted !! id) ∧ reg_nodes reg !! id = None) →
  ∀ d, (d ∈ live f ∨ d ∈ map_img (SA := gset D) built) ∧
    (∀ id st, reg_nodes reg !! id = Some st → dropped wanted (id, st) ≠ Some d) ↔
    ∃ id st, applied wanted (reg_nodes reg) built id = Some st ∧ ns_dialer st = d.
Proof.
  intros Hok Hdisj Hdom d. rewrite (ro_live _ _ Hok), elem_of_map_img. split.
  - intros [[(id & st & Hid & <-)|[id Hd]] Hnd].
    + specialize (Hnd id st Hid). destruct (dropped_iff wanted id st) as [Hdrop _].
      destruct (sweep_state wanted id st) as [st'|] eqn:Hs; [|naive_solver].
      assert (applied wanted (reg_nodes reg) built id = Some st') as Ha
        by (unfold applied; by rewrite Hid).
      exists id, st'. split; [done|].
      destruct (applied_cases _ _ _ _ _ Ha) as [(s & ? & _ & ->)|(? & ? & ? & _)];
        congruence.
    + destruct (proj1 (Hdom id) ltac:(by eexists)) as [[spec Hspec] Hnone].
      exists id, (fresh_state spec d). unfold applied. by rewrite Hnone, Hspec, Hd.
  - intros (id & st' & Ha & <-).
    destruct (applied_cases _ _ _ _ _ Ha) as [(st & Hid & Hs & Hd)|(spec & d & Hnone & _ & Hb & Hd)].
    + rewrite Hd. split; [left; eauto|]. intros id0 st0 Hid0 Hdrop.
      destruct (dropped_iff wanted id0 st0) as [Hiff Hd0].
      pose proof (Hd0 _ Hdrop) as Heq.
      assert (id0 = id) as -> by (eapply ro_inj; eauto).
      simplify_eq. destruct Hiff as [_ Hiff]. by rewrite Hiff in Hs.
    + rewrite Hd. simpl. split; [right; eauto|]. intros id0 st0 Hid0 Hdrop.
      destruct (dropped_iff wanted id0 st0) as [_ Hd0]. apply Hd0 in Hdrop as ->.
      apply (Hdisj (ns_dialer st0)); [apply (ro_live _ _ Hok); eauto|].
      by eapply elem_of_map_img_2.
Qed.

Lemma apply_ok o snap reg f reg' f' diff :
  reg_ok reg f → Apply o snap reg f = (reg', f', inr diff) → reg_ok reg' f'.
Proof.
  intros Hok Happ.
  destruct (apply_success _ _ _ _ _ _ _ (ro_valid _ _ Hok) Happ)
    as (wanted & built & Hw & Hdom & Hfor & Hinj & Hdisj & Hn & Hord & _ & Hlive & _).
  destruct (collect_wanted_spec _ _ _ Hw) as (_ & Hval & Hne).
  assert (∀ id d, built !! id = Some d → ∀ id0 st0, reg_nodes reg !! id0 = Some st0 →
    ns_dialer st0 ≠ d) as Hnew.
  { intros id d Hd id0 st0 Hid0 <-. apply (Hdisj (ns_dialer st0)).
    - apply (ro_live _ _ Hok). eauto.
    - by eapply elem_of_map_img_2. }
  split.
  - pose proof (apply_valid o snap reg f (ro_valid _ _ Hok)) as Hv. by rewrite Happ in Hv.
  - rewrite Hord. apply sort_strings_proper.
    assert (dom wanted = routed (reg_nodes reg')) as ->; [|done].
    apply set_eq. intros id. rewrite elem_of_dom, elem_of_routed. setoid_rewrite Hn.
    by apply applied_routed.
  - intros id st' Hst' Hr. rewrite Hn in Hst'.
    destruct (applied_cases _ _ _ _ _ Hst') as [(st & Hid & Hs & _)|(?&?&_&_&_&->)]; [|done].
    unfold sweep_state in Hs. repeat case_match; simplify_eq/=; [|lia].
    by eapply ro_drain.
  - intros id st' Hst'. rewrite Hn in Hst'.
    assert (∀ spec, wanted !! id = Some spec → spec_ID spec = id ∧ id ≠ "") as Hwid.
    { intros spec Hspec. destruct (Hval id spec Hspec) as [?|[Hin <-]]; [done|].
      split; [done|]. by apply Hne. }
    destruct (applied_cases _ _ _ _ _ Hst') as [(st & Hid & Hs & _)|(?&?&_&?&_&->)];
      [|by apply Hwid].
    unfold sweep_state in Hs.
    repeat case_match; simplify_eq/=; eauto; by eapply ro_id.
  - intros id id' st st' Hst Hst' Hd. rewrite Hn in Hst, Hst'.
    destruct (applied_cases _ _ _ _ _ Hst) as [(s & Hid & _ & Hs)|(?&?&_&_&Hb&->)],
      (applied_cases _ _ _ _ _ Hst') as [(s' & Hid' & _ & Hs')|(?&?&_&_&Hb'&->)];
      simpl in *.
    + eapply ro_inj; eauto; congruence.
    + by destruct (Hnew _ _ Hb' _ _ Hid); congruence.
    + by destruct (Hnew _ _ Hb _ _ Hid'); congruence.
    + subst. by eapply Hinj.
  - intros id st' Hst'. rewrite Hn in Hst'.
    destruct (applied_cases _ _ _ _ _ Hst') as [(st & Hid & _ & ->)|(?&?&_&_&?&->)];
      [by eapply ro_for|by apply Hfor].
  - intros d. rewrite Hlive. setoid_rewrite Hn. by apply applied_live.
Qed.
End apply_theorems.

(** ** Counters *)

Section counters.
Context {D : Type}.
Implicit Types (st : nodeState D) (reg : Registry D).

(** The states of the routed nodes, in routing order. *)
Definition routed_states reg : list (nodeState D) :=
  omap (λ id, st ← reg_nodes reg !! id; if ns_removed st then None else Some st)
    (reg_order reg).

Definition stats_of (sts : list (nodeState D)) : Stats :=
  foldl (λ s st, stats_add st s) zero_stats sts.

Lemma stats_fold_omap (g : string → option (nodeState D)) (ids : list string) (s : Stats) :
  foldl (λ s id, match g id with Some st => stats_add st s | None => s end) s ids =
  foldl (λ s st, stats_add st s) s (omap g ids).
Proof.
  revert s. induction ids as [|id ids IH]; intros s; [done|].
  simpl. rewrite IH. by destruct (g id).
Qed.

Lemma pool_stats_eq reg : PoolStats reg = stats_of (routed_states reg).
Proof.
  unfold PoolStats, stats_of, routed_states. rewrite <-stats_fold_omap.
  generalize zero_stats as s. induction (reg_order reg) as [|id ids IH]; intros s; [done|].
  simpl. destruct (reg_nodes reg !! id) as [st|]; [|apply IH]. simpl.
  destruct (ns_removed st); apply IH.
Qed.

(** Each class of nodes is counted once, and the classes are exhaustive. *)
Lemma stats_of_spec (sts : list (nodeState D)) :
  let s := stats_of sts in
  st_Total s = length sts ∧
  st_Healthy s = count ns_healthy sts ∧
  st_Quarantined s =
    count (λ st, negb (ns_healthy st) && bool_decide (ns_lastFailure st = "")) sts ∧
  st_Unhealthy s =
    count (λ st, negb (ns_healthy st) && negb (bool_decide (ns_lastFailure st = ""))) sts ∧
  st_ActiveLeases s = sum_list_with ns_active sts ∧
  st_Total s = st_Healthy s + st_Unhealthy s + st_Quarantined s.
Proof.
  unfold stats_of. induction sts as [|st sts IH] using rev_ind; [done|].
  rewrite foldl_snoc, length_app, !count_app, sum_list_with_app.
  set (s := foldl _ _ sts) in *. rewrite !count_cons, !count_nil.
  unfold stats_add. simpl in *. destruct (ns_healthy st); simpl; [lia|].
  case_decide; [rewrite bool_decide_true by done|rewrite bool_decide_false by done];
    simpl; lia.
Qed.

Lemma source_fold_lookup st (sources : list string) (m : gmap string Stats) src :
  NoDup sources →
  foldl (λ m source, <[source := stats_add st (default zero_stats (m !! source))]> m) m sources
    !! src =
  if decide (src ∈ sources) then Some (stats_add st (default zero_stats (m !! src)))
  else m !! src.
Proof.
  revert m. induction sources as [|x sources IH]; intros m Hnd; [done|].
  apply NoDup_cons in Hnd as [Hx Hnd]. simpl. rewrite (IH _ Hnd).
  destruct (decide (src = x)) as [->|].
  - rewrite decide_False, lookup_insert_eq by done. by rewrite decide_True by (by left).
  - rewrite lookup_insert_ne by done.
    destruct (decide (src ∈ sources)).
    + by rewrite decide_True by (by right).
    + rewrite decide_False; [done|]. by intros [?|?]%elem_of_cons.
Qed.

Lemma stats_by_source_eq reg src :
  (∀ id st, reg_nodes reg !! id = Some st → NoDup (spec_SourceIDs (ns_spec st))) →
  default zero_stats (StatsBySource reg !! src) =
  stats_of (filter (λ st, src ∈ spec_SourceIDs (ns_spec st)) (routed_states reg)).
Proof.
  intros Hnd. unfold StatsBySource, stats_of, routed_states.
  change zero_stats with (default zero_stats ((∅ : gmap string Stats) !! src)) at 3.
  generalize (∅ : gmap string Stats) as m.
  induction (reg_order reg) as [|id ids IH]; intros m; [done|]. simpl.
  destruct (reg_nodes reg !! id) as [st|] eqn:Hid; [|apply IH]. simpl.
  destruct (ns_removed st); [apply IH|]. rewrite IH, source_fold_lookup by eauto.
  rewrite filter_cons. by case_decide.
Qed.
End counters.

(** The wanted IDs are the built ones and the kept ones. *)
Lemma wanted_size {D} (wanted : gmap string NodeSpec) (nodes : gmap string (nodeState D))
    (built : gmap string D) :
  (∀ id, is_Some (built !! id) ↔ is_Some (wanted !! id) ∧ nodes !! id = None) →
  size wanted = size built + size (filter (λ kv, is_Some (wanted !! kv.1)) nodes).
Proof.
  intros Hdom. rewrite <-!(size_dom (D := gset string)), <-size_union.
  - f_equal. apply set_eq. intros id.
    rewrite elem_of_union, !elem_of_dom, Hdom. unfold is_Some.
    setoid_rewrite map_lookup_filter_Some. simpl.
    destruct (nodes !! id) as [st|]; naive_solver.
  - intros id. rewrite !elem_of_dom, Hdom. unfold is_Some.
    setoid_rewrite map_lookup_filter_Some. naive_solver.
Qed.

(** ** Theorems about routing, health and counters *)

Section theorems.
Context {F D : Type} `{FactoryLaws F D}.
Implicit Types (st : nodeState D) (reg : Registry D) (f : F).

(** A refused snapshot changes nothing. Whatever order the maps are
    visited in, if [Apply] fails (an empty node ID, a factory error, a nil
    dialer), the registry is the one before, and every dialer built on the way
    has been closed again. *)
Theorem apply_failure_is_atomic (o : RangeOrder) (snap : Snapshot) reg f reg' f' e :
  valid f → Apply o snap reg f = (reg', f', inl e) →
  reg' = reg ∧ live f' = live f ∧
  ((∃ spec, spec ∈ snap_Nodes snap ∧ spec_ID spec = "") →
    f' = f ∧ e = ErrNew "node has empty ID").
Proof.
  intros Hv Happ. destruct (apply_error _ _ _ _ _ _ _ Hv Happ) as [-> Hl].
  split_and!; [done..|]. intros Hempty%(collect_wanted_none _ ∅).
  unfold Apply in Happ. rewrite Hempty in Happ. by simplify_eq.
Qed.

(** C5: a snapshot that is accepted replaces the routed set by exactly its
    IDs, sorted; a node already known keeps its dialer, health history, probe
    gate and leases (a draining one is revived); a new node starts quarantined
    with a dialer of its own; a node no longer wanted is dropped and its dialer
    closed if idle, and left to drain otherwise; the invariant is kept. *)
Theorem apply_reconciles (o : RangeOrder) (snap : Snapshot) reg f reg' f' diff :
  reg_ok reg f → Apply o snap reg f = (reg', f', inr diff) →
  reg_ok reg' f' ∧
  (∀ id, id ∈ reg_order reg' ↔ ∃ spec, spec ∈ snap_Nodes snap ∧ spec_ID spec = id) ∧
  (∀ id, id ∈ reg_order reg' → ∃ spec st', spec ∈ snap_Nodes snap ∧ spec_ID spec = id ∧
     reg_nodes reg' !! id = Some st' ∧
     match reg_nodes reg !! id with
     | Some st => st' = mkNodeState spec (ns_dialer st) (ns_healthy st) false
         (ns_probing st) (ns_active st) (ns_latency st) (ns_lastFailure st) (ns_nextProbe st)
     | None => ∃ d, st' = mkNodeState spec d false false false 0 0 "" 0 ∧
         (d ∉ live f) ∧ d ∈ live f'
     end) ∧
  (∀ id st, id ∉ reg_order reg' → reg_nodes reg !! id = Some st →
     if decide (ns_active st = 0)
     then reg_nodes reg' !! id = None ∧ ns_dialer st ∉ live f'
     else reg_nodes reg' !! id = Some (set_removed true st) ∧ ns_dialer st ∈ live f') ∧
  (∀ id, id ∉ reg_order reg' → reg_nodes reg !! id = None → reg_nodes reg' !! id = None) ∧
  length (reg_order reg') = diff_Added diff + diff_Kept diff.
Proof.
  intros Hok Happ. pose proof (apply_ok _ _ _ _ _ _ _ Hok Happ) as Hok'.
  destruct (apply_success _ _ _ _ _ _ _ (ro_valid _ _ Hok) Happ)
    as (wanted & built & Hw & Hdom & Hfor & Hinj & Hdisj & Hn & Hord & _ & Hlive & Ha & Hk & _).
  destruct (collect_wanted_spec _ _ _ Hw) as (Hwdom & Hwval & _).
  assert (∀ id, id ∈ reg_order reg' ↔ is_Some (wanted !! id)) as Hmem.
  { intros id. by rewrite Hord, sort_strings_elem, elem_of_elements, elem_of_dom. }
  split_and!; [done|..].
  - intros id. rewrite Hmem, Hwdom, lookup_empty. split; [intros [[? ?]|?]; done|by right].
  - intros id [spec Hspec]%Hmem.
    destruct (Hwval id spec Hspec) as [?|[? ?]]; [done|]. exists spec.
    specialize (Hn id). unfold applied in Hn.
    destruct (reg_nodes reg !! id) as [st|] eqn:Hid.
    + exists (set_spec spec (set_removed false st)). split_and!; try done.
      rewrite Hn. unfold sweep_state. by rewrite Hspec.
    + destruct (proj2 (Hdom id)) as [d Hd]; [by split; [eexists|]|].
      rewrite Hspec, Hd in Hn. exists (fresh_state spec d). split_and!; try done.
      exists d. split_and!; [done| |apply (ro_live _ _ Hok'); by eauto].
      intros Hl. apply (Hdisj d Hl). by eapply elem_of_map_img_2.
  - intros id st Hnot Hid.
    assert (wanted !! id = None) as Hnone
      by (apply eq_None_not_Some; by rewrite <-Hmem).
    specialize (Hn id). unfold applied, sweep_state in Hn. rewrite Hid, Hnone in Hn.
    pose proof (ro_drain _ _ Hok id st Hid) as Hdrain.
    case_decide as Hact.
    + destruct (ns_removed st) eqn:Hr; [specialize (Hdrain eq_refl); lia|].
      split; [done|]. rewrite Hlive. intros [_ Hnd]. apply (Hnd id st Hid).
      unfold dropped. simpl. by rewrite Hnone, Hr, decide_True.
    + assert (reg_nodes reg' !! id = Some (set_removed true st)) as Hst'.
      { rewrite Hn. destruct (ns_removed st) eqn:Hr; [|done]. f_equal.
        destruct st; simpl in *; by subst. }
      split; [done|]. apply (ro_live _ _ Hok'). by exists id, (set_removed true st).
  - intros id Hnot Hid. rewrite Hn. unfold applied. rewrite Hid.
    assert (wanted !! id = None) as ->; [|done].
    apply eq_None_not_Some. by rewrite <-Hmem.
  - rewrite Hord, sort_strings_perm, Ha, Hk.
    rewrite <-(wanted_size wanted) by done. apply size_dom.
Qed.

(** *** Routing *)

Definition some_healthy reg : Prop :=
  ∃ id st, reg_nodes reg !! id = Some st ∧ ns_removed st = false ∧ ns_healthy st = true.

Lemma routing_candidate reg f c :
  reg_ok reg f → c ∈ RoutingSnapshot reg →
  ∃ st, reg_nodes reg !! cand_ID c = Some st ∧ ns_removed st = false ∧
    (some_healthy reg → cand_Eligible c = ns_healthy st ∧ cand_HalfOpen c = false) ∧
    (¬ some_healthy reg → ns_healthy st = false ∧
       cand_Eligible c = negb (ns_probing st) ∧ cand_HalfOpen c = negb (ns_probing st)).
Proof.
  intros Hok Hc. unfold RoutingSnapshot in Hc.
  apply list_elem_of_omap in Hc as (id & Hid & Hc).
  destruct (reg_nodes reg !! id) as [st|] eqn:Hst; [|done].
  destruct (ns_removed st) eqn:Hrem; [done|].
  set (n := count _ _) in Hc.
  assert (0 < n ↔ some_healthy reg) as Hn.
  { unfold n. rewrite count_pos. split.
    - intros (i & _ & Hi). destruct (reg_nodes reg !! i) as [s|] eqn:Hs; [|done].
      apply andb_true_iff in Hi as [Hr%negb_true_iff Hh]. by exists i, s.
    - intros (i & s & Hi & Hr & Hh). exists i. split; [eapply ro_order_elem; eauto|].
      by rewrite Hi, Hr, Hh. }
  assert (some_healthy reg ∨ ns_healthy st = false) as Hcase.
  { destruct (ns_healthy st) eqn:?; [left; by exists id, st|by right]. }
  case_bool_decide as Hzero; simpl in Hc.
  - assert (¬ some_healthy reg) as Hno by (rewrite <-Hn; lia).
    assert (ns_healthy st = false) as Hh by tauto.
    destruct (ns_probing st) eqn:Hp; simplify_eq/=; exists st; rewrite ?Hp; naive_solver.
  - assert (some_healthy reg) as Hs by (apply Hn; lia).
    simplify_eq/=. exists st. naive_solver.
Qed.

Lemma routing_ids reg f :
  reg_ok reg f → cand_ID <$> RoutingSnapshot reg = reg_order reg.
Proof.
  intros Hok. unfold RoutingSnapshot. set (n := count _ _). clearbody n.
  assert (∀ id, id ∈ reg_order reg → ∃ st, reg_nodes reg !! id = Some st ∧
    ns_removed st = false) as Hall by (intros id; by apply ro_order_elem with f).
  induction (reg_order reg) as [|id ids IH]; [done|]. simpl.
  destruct (Hall id ltac:(by left)) as (st & -> & ->).
  assert (∀ id, id ∈ ids → ∃ st, reg_nodes reg !! id = Some st ∧ ns_removed st = false)
    as Hrest by (intros; apply Hall; by right).
  destruct (bool_decide (n = 0) && negb (ns_probing st)); simpl; f_equal; by apply IH.
Qed.

(** C29: a routing snapshot lists exactly the routed nodes, in order. While
    any of them is healthy only healthy ones are eligible, and when none is, the
    eligible ones are those with no probe in progress, as half-open candidates;
    in the same state [Acquire], called as the proxy calls it, grants a lease on
    exactly the eligible candidates. *)
Theorem routing_agrees_with_acquire reg f :
  reg_ok reg f →
  cand_ID <$> RoutingSnapshot reg = reg_order reg ∧
  ∀ c, c ∈ RoutingSnapshot reg → ∃ st, reg_nodes reg !! cand_ID c = Some st ∧
    (some_healthy reg → cand_Eligible c = ns_healthy st ∧ cand_HalfOpen c = false) ∧
    (¬ some_healthy reg →
       cand_Eligible c = negb (ns_probing st) ∧ cand_HalfOpen c = negb (ns_probing st)) ∧
    (cand_Eligible c = true ↔
       (Acquire (cand_ID c) (cand_HalfOpen c) reg).2 =
         Some (mkLease (cand_ID c) (ns_dialer st) (cand_HalfOpen c))) ∧
    (cand_Eligible c = false ↔ Acquire (cand_ID c) (cand_HalfOpen c) reg = (reg, None)).
Proof.
  intros Hok. split; [by eapply routing_ids|]. intros c Hc.
  destruct (routing_candidate reg f c Hok Hc) as (st & Hst & Hrem & Hsome & Hnone).
  exists st. split; [done|]. split; [done|]. split; [naive_solver|].
  unfold Acquire. rewrite Hst, Hrem.
  destruct (ns_healthy st) eqn:Hh.
  - destruct (Hsome ltac:(by exists (cand_ID c), st)) as [He Ho]. rewrite He, Ho. done.
  - destruct (cand_HalfOpen c) eqn:Ho; simpl.
    + destruct (cand_Eligible c) eqn:He, (ns_probing st) eqn:Hp; simpl; try done;
        exfalso; naive_solver.
    + destruct (cand_Eligible c) eqn:He; [|done]. exfalso.
      assert (¬¬ some_healthy reg ∧ ¬ some_healthy reg) as [Hnn Hn]; [|done].
      split; intros Hs; [destruct (Hnone Hs) as (_ & ? & ?)|destruct (Hsome Hs)]; congruence.
Qed.

(** *** Health *)

Lemma failureClass_nonempty err : failureClass err ≠ "".
Proof. unfold failureClass. by repeat case_match. Qed.

(** A reported failure makes a known node unhealthy with a class, a
    reported success makes a known node that is not draining healthy, both
    schedule the next probe one interval ahead and touch nothing else; the
    result tells whether the health changed (the first failure of a node that
    never reported counts), so repeating a report never tells a change. *)
Theorem health_reports_are_transitions reg id err latency now now' :
  (∀ st, reg_nodes reg !! id = Some st →
     let '(reg1, changed) := MarkFailure id (Some err) now reg in
     reg_nodes reg1 = <[id := set_health false (ns_latency st) (failureClass err)
       (now + reg_probeInterval reg) st]> (reg_nodes reg) ∧
     reg_order reg1 = reg_order reg ∧
     (changed = true ↔ ns_healthy st = true ∨ ns_lastFailure st = "") ∧
     (MarkFailure id (Some err) now' reg1).2 = false) ∧
  (∀ st, reg_nodes reg !! id = Some st → ns_removed st = false →
     let '(reg1, changed) := MarkSuccess id latency now reg in
     reg_nodes reg1 = <[id := set_health true latency ""
       (now + reg_probeInterval reg) st]> (reg_nodes reg) ∧
     reg_order reg1 = reg_order reg ∧
     (changed = true ↔ ns_healthy st = false) ∧
     (MarkSuccess id latency now' reg1).2 = false) ∧
  ((reg_nodes reg !! id = None ∨
      ∃ st, reg_nodes reg !! id = Some st ∧ ns_removed st = true) →
     MarkSuccess id latency now reg = (reg, false)) ∧
  (reg_nodes reg !! id = None → MarkFailure id (Some err) now reg = (reg, false)).
Proof.
  unfold MarkFailure, MarkSuccess. split_and!.
  - intros st Hst. rewrite Hst. simpl. rewrite lookup_insert_eq. simpl.
    split_and!; [done..| |by rewrite bool_decide_false by apply failureClass_nonempty].
    by rewrite orb_true_iff, bool_decide_eq_true.
  - intros st Hst Hr. rewrite Hst, Hr. simpl. rewrite lookup_insert_eq. simpl. rewrite Hr.
    split_and!; [done..|by rewrite negb_true_iff|done].
  - by intros [->|(st & -> & ->)].
  - by intros ->.
Qed.

(** *** Probing *)

Definition due (now : Z) st : bool :=
  negb (ns_removed st) && negb (ns_probing st) && negb (time_After (ns_nextProbe st) now).

Definition due_at (now : Z) reg (id : string) : bool :=
  match reg_nodes reg !! id with Some st => due now st | None => false end.

Lemma due_at_true now reg id :
  due_at now reg id = true → ∃ st, reg_nodes reg !! id = Some st ∧ due now st = true.
Proof. unfold due_at. destruct (reg_nodes reg !! id); naive_solver. Qed.

Lemma due_negb now st :
  due now st = negb (ns_removed st || ns_probing st || time_After (ns_nextProbe st) now).
Proof. unfold due. by rewrite !negb_orb. Qed.

Lemma probe_due_skip id order now reg :
  due_at now reg id = false →
  probe_due_loop (id :: order) now reg = probe_due_loop order now reg.
Proof.
  unfold due_at. simpl. destruct (reg_nodes reg !! id) as [st|]; [|done].
  rewrite due_negb, negb_false_iff. by intros ->.
Qed.

Lemma probe_due_now id order now reg :
  due_at now reg id = true →
  probe_due_loop (id :: order) now reg =
  match reg_nodes reg !! id with
  | None => (reg, [])
  | Some st =>
      let '(reg', leases) := probe_due_loop order now
        (set_nodes (<[id := set_usage true (S (ns_active st)) st]> (reg_nodes reg)) reg) in
      (reg', mkLease id (ns_dialer st) true :: leases)
  end.
Proof.
  unfold due_at. simpl. destruct (reg_nodes reg !! id) as [st|]; [|done].
  rewrite due_negb, negb_true_iff. by intros ->.
Qed.

Lemma probe_due_loop_spec order now reg :
  NoDup order →
  let '(reg', leases) := probe_due_loop order now reg in
  lease_ID <$> leases = filter (λ id, due_at now reg id = true) order ∧
  (∀ l, l ∈ leases → lease_gated l = true ∧
     ∃ st, reg_nodes reg !! lease_ID l = Some st ∧ ns_dialer st = lease_Dialer l) ∧
  (∀ id, reg_nodes reg' !! id =
     if decide (id ∈ order ∧ due_at now reg id = true)
     then (λ st, set_usage true (S (ns_active st)) st) <$> reg_nodes reg !! id
     else reg_nodes reg !! id) ∧
  reg_order reg' = reg_order reg ∧ reg_probeInterval reg' = reg_probeInterval reg.
Proof.
  revert reg. induction order as [|id order IH]; intros reg Hnd.
  { simpl. split_and!; try done. by intros ? ?%not_elem_of_nil. }
  apply NoDup_cons in Hnd as [Hnot Hnd]. rewrite filter_cons.
  destruct (due_at now reg id) eqn:Hd.
  - rewrite probe_due_now by done.
    destruct (due_at_true _ _ _ Hd) as (st & Hst & _). rewrite Hst.
    set (reg1 := set_nodes _ reg).
    assert (∀ i, i ≠ id → reg_nodes reg1 !! i = reg_nodes reg !! i) as Hother
      by (intros i ?; apply lookup_insert_ne; done).
    assert (∀ i, i ∈ order → due_at now reg1 i = due_at now reg i) as Hsame
      by (intros i Hi; unfold due_at; by rewrite Hother by (by intros ->)).
    specialize (IH reg1 Hnd).
    destruct (probe_due_loop order now reg1) as [reg' leases].
    destruct IH as (Hids & Hl & Hn & Ho & Hp). split_and!; [..|by rewrite Ho|by rewrite Hp].
    + rewrite decide_True, fmap_cons by done. f_equal. etrans; [exact Hids|].
      apply list_filter_ext_elem. intros i Hi. by rewrite Hsame.
    + intros l [->|Hin]%elem_of_cons; [split; [done|by exists st]|].
      destruct (Hl l Hin) as (? & s & Hs & Hds). split; [done|].
      destruct (decide (lease_ID l = id)) as [He|]; [|rewrite Hother in Hs by done; eauto].
      rewrite He in *. unfold reg1 in Hs. simpl in Hs. rewrite lookup_insert_eq in Hs.
      simplify_eq/=. eauto.
    + intros i. rewrite Hn. destruct (decide (i = id)) as [->|Hne].
      * rewrite decide_False by naive_solver. rewrite decide_True by (split; [by left|done]).
        unfold reg1. simpl. by rewrite lookup_insert_eq, Hst.
      * rewrite Hother by done. apply decide_ext. rewrite elem_of_cons. split.
        -- intros [? Hdi]. split; [by right|]. by rewrite <-Hsame.
        -- intros [[?|?] ?]; [done|]. split; [done|]. by rewrite Hsame.
  - rewrite probe_due_skip by done. specialize (IH reg Hnd).
    destruct (probe_due_loop order now reg) as [reg' leases].
    destruct IH as (Hids & Hl & Hn & Ho & Hp). split_and!; try done.
    intros i. rewrite Hn. apply decide_ext. rewrite elem_of_cons. split; [naive_solver|].
    intros [[->|?] ?]; [congruence|done].
Qed.

(** *** Counters *)

Lemma elem_of_routed_states reg f st :
  reg_ok reg f → st ∈ routed_states reg ↔
    ∃ id, reg_nodes reg !! id = Some st ∧ ns_removed st = false.
Proof.
  intros Hok. unfold routed_states. rewrite list_elem_of_omap. split.
  - intros (id & Hid & Hst). destruct (reg_nodes reg !! id) as [s|] eqn:Hs; [|done].
    simpl in Hst. destruct (ns_removed s) eqn:?; simplify_eq. eauto.
  - intros (id & Hid & Hr). exists id. split; [eapply ro_order_elem; eauto|].
    rewrite Hid. simpl. by rewrite Hr.
Qed.

Lemma healthy_count_pos reg f :
  reg_ok reg f → 0 < st_Healthy (PoolStats reg) ↔ some_healthy reg.
Proof.
  intros Hok. rewrite pool_stats_eq.
  destruct (stats_of_spec (routed_states reg)) as (_ & -> & _).
  rewrite count_pos. unfold some_healthy. split.
  - intros (st & Hst & Hh). eapply elem_of_routed_states in Hst as (id & ? & ?); eauto.
  - intros (id & st & ? & ? & ?). exists st. split; [|done].
    eapply elem_of_routed_states; eauto.
Qed.

(** The status counters classify every routed node exactly once as
    healthy, unhealthy or quarantined, count a healthy node exactly when one
    exists, and the per-source counters are the same counters restricted to the
    nodes of that source. *)
Theorem stats_classify_nodes reg f :
  reg_ok reg f →
  let s := PoolStats reg in
  st_Total s = length (reg_order reg) ∧
  st_Total s = st_Healthy s + st_Unhealthy s + st_Quarantined s ∧
  (0 < st_Healthy s ↔ some_healthy reg) ∧
  st_ActiveLeases s = sum_list_with ns_active (routed_states reg) ∧
  (∀ src,
    (∀ id st, reg_nodes reg !! id = Some st → NoDup (spec_SourceIDs (ns_spec st))) →
    default zero_stats (StatsBySource reg !! src) =
      stats_of (filter (λ st, src ∈ spec_SourceIDs (ns_spec st)) (routed_states reg))).
Proof.
  intros Hok. cbv zeta. rewrite pool_stats_eq.
  destruct (stats_of_spec (routed_states reg)) as (Ht & Hh & _ & _ & Hl & Hsum).
  split_and!; [|done| |done|].
  - rewrite Ht. unfold routed_states.
    assert (∀ id, id ∈ reg_order reg → ∃ st, reg_nodes reg !! id = Some st ∧
      ns_removed st = false) as Hall by (intros id; by apply ro_order_elem with f).
    induction (reg_order reg) as [|id ids IH]; [done|]. simpl.
    destruct (Hall id ltac:(by left)) as (st & -> & Hr). simpl. rewrite Hr. simpl.
    f_equal. apply IH. intros; apply Hall; by right.
  - rewrite <-pool_stats_eq. by eapply healthy_count_pos.
  - intros src. apply stats_by_source_eq.
Qed.
End theorems.
