(* ===== verification/Leases.v ===== *)
(** * The registry under concurrent use: leases and dialers.

    Every method of [Registry] holds its mutex for its whole body, so any
    concurrent execution of the pool is a sequence of the atomic events below,
    issued by connections, probes and refreshes in any interleaving. *)
From stdpp Require Import gmap strings list fin_maps.
From S2P Require Import Prelude.
From S2P Require Import GoBase.
From S2P Require Import Model.
From S2P Require Import Selector.
From S2P Require Import Registry.
From stdpp Require Import options.

Section leases.
Context {F D : Type} `{FactoryLaws F D}.

(** Every lease handed out so far, with its [once]: [true] once closed. *)
Record Pool := mkPool {
  pl_reg : Registry D;
  pl_fac : F;
  pl_leases : list (NodeLease D * bool);
}.

Inductive PoolEvent :=
  | PvApply (o : RangeOrder) (snapshot : Snapshot)
  | PvMarkFailure (id : string) (cause : option GoError) (now : Z)
  | PvMarkSuccess (id : string) (latency now : Z)
  | PvAcquire (id : string) (allowUnhealthy : bool)
  | PvProbeDue (now : Z)
  | PvClose (i : nat).

(** [NodeLease.Close]: the [sync.Once] releases the lease the first time. *)
Definition lease_Close (i : nat) (p : Pool) : Pool :=
  match pl_leases p !! i with
  | Some (l, false) =>
      let '(reg', f') := release (lease_ID l) (lease_gated l) (pl_reg p) (pl_fac p) in
      mkPool reg' f' (<[i := (l, true)]> (pl_leases p))
  | _ => p
  end.

Definition pool_step (e : PoolEvent) (p : Pool) : Pool :=
  match e with
  | PvApply o snap =>
      let '(reg', f', _) := Apply o snap (pl_reg p) (pl_fac p) in
      mkPool reg' f' (pl_leases p)
  | PvMarkFailure id cause now =>
      mkPool (MarkFailure id cause now (pl_reg p)).1 (pl_fac p) (pl_leases p)
  | PvMarkSuccess id latency now =>
      mkPool (MarkSuccess id latency now (pl_reg p)).1 (pl_fac p) (pl_leases p)
  | PvAcquire id allow =>
      match Acquire id allow (pl_reg p) with
      | (reg', Some l) => mkPool reg' (pl_fac p) (pl_leases p ++ [(l, false)])
      | (reg', None) => mkPool reg' (pl_fac p) (pl_leases p)
      end
  | PvProbeDue now =>
      let '(reg', ls) := ProbeDue now (pl_reg p) in
      mkPool reg' (pl_fac p) (pl_leases p ++ ((λ l, (l, false)) <$> ls))
  | PvClose i => lease_Close i p
  end.

Definition pool_run (p : Pool) (evs : list PoolEvent) : Pool :=
  foldl (λ p e, pool_step e p) p evs.

Definition new_pool (interval : Z) (f : F) : Pool := mkPool (NewRegistry interval) f [].

(** No event touches the factory but through [Build] and [Close]. *)
Lemma pool_run_preserves (P : F → Prop) p evs :
  (∀ spec f, P f → P (Build spec f).1) → (∀ d f, P f → P (DialerClose d f)) →
  P (pl_fac p) → P (pl_fac (pool_run p evs)).
Proof.
  intros HB HC. revert p. induction evs as [|e evs IH]; intros p Hp; [done|].
  apply IH. clear IH. destruct e as [o snap|id cause now|id latency now|id allow|now|i];
    simpl; try done.
  - pose proof (apply_preserves P HB HC o snap (pl_reg p) (pl_fac p) Hp).
    by destruct (Apply _ _ _ _) as [[??]?].
  - by destruct (Acquire _ _ _) as [? [?|]].
  - by destruct (ProbeDue _ _).
  - unfold lease_Close. destruct (pl_leases p !! i) as [[l [|]]|]; [done| |done].
    pose proof (release_preserves P HC (lease_ID l) (lease_gated l) (pl_reg p) (pl_fac p) Hp).
    by destruct (release _ _ _ _).
Qed.

(** Open leases on a node, and open half-open or probe leases on it. *)
Definition open_on (id : string) (lc : NodeLease D * bool) : bool :=
  negb lc.2 && bool_decide (lease_ID lc.1 = id).
Definition gated_on (id : string) (lc : NodeLease D * bool) : bool :=
  open_on id lc && lease_gated lc.1.

(** ** The invariant *)

Record pool_ok (p : Pool) : Prop := {
  po_reg : reg_ok (pl_reg p) (pl_fac p);
  po_active : ∀ id st, reg_nodes (pl_reg p) !! id = Some st →
    ns_active st = count (open_on id) (pl_leases p);
  po_probing : ∀ id st, reg_nodes (pl_reg p) !! id = Some st →
    count (gated_on id) (pl_leases p) = if ns_probing st then 1 else 0;
  po_lease : ∀ l, (l, false) ∈ pl_leases p →
    ∃ st, reg_nodes (pl_reg p) !! lease_ID l = Some st ∧ ns_dialer st = lease_Dialer l;
}.

Lemma open_on_true id l c : open_on id (l, c) = true ↔ c = false ∧ lease_ID l = id.
Proof. unfold open_on. simpl. by rewrite andb_true_iff, negb_true_iff, bool_decide_eq_true. Qed.

Lemma open_on_true_1 id d g : open_on id (mkLease id d g, false) = true.
Proof. by apply open_on_true. Qed.

Lemma open_on_self l : open_on (lease_ID l) (l, false) = true.
Proof. by apply open_on_true. Qed.

Lemma open_on_other id l : lease_ID l ≠ id → open_on id (l, false) = false.
Proof. intros. apply not_true_is_false. by intros [_ ?]%open_on_true. Qed.

(** No lease is open on a node the registry does not hold. *)
Lemma no_node_no_lease p id :
  pool_ok p → reg_nodes (pl_reg p) !! id = None →
  count (open_on id) (pl_leases p) = 0 ∧ count (gated_on id) (pl_leases p) = 0.
Proof.
  intros Hok Hnone.
  assert (∀ lc, lc ∈ pl_leases p → open_on id lc = false) as Hno.
  { intros [l c] Hin. apply not_true_is_false. intros [-> <-]%open_on_true.
    destruct (po_lease _ Hok l Hin) as (st & ? & _). congruence. }
  split; apply count_zero; [done|]. intros lc Hin. unfold gated_on. by rewrite Hno.
Qed.

Lemma open_lease_active p l st :
  pool_ok p → (l, false) ∈ pl_leases p →
  reg_nodes (pl_reg p) !! lease_ID l = Some st → 0 < ns_active st.
Proof.
  intros Hok Hin Hst. rewrite (po_active _ Hok _ _ Hst). apply count_pos.
  exists (l, false). split; [done|]. apply open_on_self.
Qed.

Lemma new_pool_ok interval f : valid f → live f = ∅ → pool_ok (new_pool interval f).
Proof.
  intros. split; simpl; [by apply new_registry_ok|done|done|].
  by intros l ?%not_elem_of_nil.
Qed.

(** Changing one node's bookkeeping, with the leases changed to match. *)
Lemma pool_ok_update p id st st' leases' :
  pool_ok p → reg_nodes (pl_reg p) !! id = Some st →
  same_node st st' → ns_active st' = count (open_on id) leases' →
  count (gated_on id) leases' = (if ns_probing st' then 1 else 0) →
  (∀ id', id' ≠ id → count (open_on id') leases' = count (open_on id') (pl_leases p) ∧
     count (gated_on id') leases' = count (gated_on id') (pl_leases p)) →
  (∀ l, (l, false) ∈ leases' →
     (l, false) ∈ pl_leases p ∨ lease_ID l = id ∧ lease_Dialer l = ns_dialer st) →
  pool_ok (mkPool (set_nodes (<[id := st']> (reg_nodes (pl_reg p))) (pl_reg p))
    (pl_fac p) leases').
Proof.
  intros Hok Hid Hsame Hact Hprob Hother Hleases. split; simpl.
  - by eapply reg_ok_update; [apply Hok|..].
  - intros i s [[<- <-]|[Hne Hi]]%lookup_insert_Some; [done|].
    destruct (Hother i ltac:(congruence)) as [-> _]. by apply (po_active _ Hok).
  - intros i s [[<- <-]|[Hne Hi]]%lookup_insert_Some; [done|].
    destruct (Hother i ltac:(congruence)) as [_ ->]. by apply (po_probing _ Hok).
  - intros l Hin.
    assert (∃ s, reg_nodes (pl_reg p) !! lease_ID l = Some s ∧ ns_dialer s = lease_Dialer l)
      as (s & Hs & Hd).
    { destruct (Hleases l Hin) as [?|[-> ->]]; [by apply (po_lease _ Hok)|eauto]. }
    destruct (decide (lease_ID l = id)) as [He|].
    + rewrite He in *. exists st'. rewrite lookup_insert_eq. destruct Hsame as (_ & ? & _). split; congruence.
    + exists s. by rewrite lookup_insert_ne by congruence.
Qed.

Lemma pool_ok_health p id st healthy latency lastFailure nextProbe :
  pool_ok p → reg_nodes (pl_reg p) !! id = Some st →
  pool_ok (mkPool (set_nodes
    (<[id := set_health healthy latency lastFailure nextProbe st]> (reg_nodes (pl_reg p)))
    (pl_reg p)) (pl_fac p) (pl_leases p)).
Proof.
  intros Hok Hid. eapply pool_ok_update; eauto; simpl.
  - split_and!; try done. by apply (ro_drain _ _ (po_reg _ Hok) id).
  - by apply (po_active _ Hok).
  - by apply (po_probing _ Hok).
Qed.

Lemma pool_ok_apply p o snap : pool_ok p → pool_ok (pool_step (PvApply o snap) p).
Proof.
  intros Hok. simpl.
  destruct (Apply o snap (pl_reg p) (pl_fac p)) as [[reg' f'] [e|diff]] eqn:Happ.
  { pose proof (ro_valid _ _ (po_reg _ Hok)) as Hv.
    destruct (apply_error _ _ _ _ _ _ _ Hv Happ) as [-> Hl].
    pose proof (apply_valid o snap (pl_reg p) (pl_fac p) Hv) as Hv'.
    rewrite Happ in Hv'. simpl in Hv'.
    destruct Hok as [[_ ? ? ? ? ? Hlive] ? ? ?]. split; simpl; try done. split; try done.
    intros d. by rewrite Hl. }
  pose proof (apply_ok _ _ _ _ _ _ _ (po_reg _ Hok) Happ) as Hreg'.
  destruct (apply_success _ _ _ _ _ _ _ (ro_valid _ _ (po_reg _ Hok)) Happ)
    as (wanted & built & _ & _ & _ & _ & _ & Hn & _).
  assert (∀ id st', reg_nodes reg' !! id = Some st' →
    (∃ st, reg_nodes (pl_reg p) !! id = Some st ∧ ns_active st' = ns_active st ∧
       ns_probing st' = ns_probing st) ∨
    reg_nodes (pl_reg p) !! id = None ∧ ns_active st' = 0 ∧ ns_probing st' = false)
    as Hcases.
  { intros id st' Hst'. rewrite Hn in Hst'.
    destruct (applied_cases _ _ _ _ _ Hst') as [(st & Hid & Hs & _)|(?&?&?&_&_&->)];
      [left; exists st|by right].
    unfold sweep_state in Hs. repeat case_match; simplify_eq; done. }
  split; simpl; [done|..].
  - intros id st' [(st & Hid & -> & _)|(Hid & -> & _)]%Hcases.
    + by apply (po_active _ Hok).
    + symmetry. by apply no_node_no_lease.
  - intros id st' [(st & Hid & _ & ->)|(Hid & _ & ->)]%Hcases.
    + by apply (po_probing _ Hok).
    + by apply no_node_no_lease.
  - intros l Hin. destruct (po_lease _ Hok l Hin) as (st & Hst & Hd).
    pose proof (open_lease_active _ _ _ Hok Hin Hst) as Hact.
    rewrite Hn. unfold applied, sweep_state. rewrite Hst.
    repeat case_match; try lia; eexists; (split; [done|]); done.
Qed.

Lemma pool_ok_acquire p id allow : pool_ok p → pool_ok (pool_step (PvAcquire id allow) p).
Proof.
  intros Hok. simpl. unfold Acquire.
  assert (pool_ok (mkPool (pl_reg p) (pl_fac p) (pl_leases p))) as Hsame by (by destruct p).
  destruct (reg_nodes (pl_reg p) !! id) as [st|] eqn:Hid; [|done].
  destruct (ns_removed st) eqn:Hr; [done|].
  destruct (negb (ns_healthy st) && negb allow); [done|].
  destruct (negb (ns_healthy st) && ns_probing st) eqn:Hgate; [done|].
  pose proof (po_active _ Hok _ _ Hid) as Ha. pose proof (po_probing _ Hok _ _ Hid) as Hp.
  eapply pool_ok_update; eauto; simpl.
  - split_and!; try done. simpl. lia.
  - rewrite count_app, count_cons, count_nil, open_on_true_1 by done. lia.
  - rewrite count_app, count_cons, count_nil, Hp. unfold gated_on.
    rewrite open_on_true_1 by done. simpl.
    destruct (ns_healthy st), (ns_probing st); simpl in *; done.
  - intros id' Hne. rewrite !count_app, !count_cons, !count_nil. unfold gated_on.
    rewrite open_on_other by (simpl; congruence). simpl. lia.
  - intros l [?|Hl]%elem_of_app; [by left|].
    apply list_elem_of_singleton in Hl. simplify_eq/=. by right.
Qed.

Lemma count_new_leases (P : NodeLease D → bool) id (ls : list (NodeLease D)) :
  NoDup (lease_ID <$> ls) → (∀ l, l ∈ ls → P l = true) →
  count (λ lc, open_on id lc && P lc.1) ((λ l, (l, false)) <$> ls) =
    if decide (id ∈ lease_ID <$> ls) then 1 else 0.
Proof.
  intros Hnd HP. induction ls as [|l ls IH]; [done|].
  rewrite fmap_cons in *. apply NoDup_cons in Hnd as [Hnot Hnd].
  rewrite count_cons, (IH Hnd) by (intros; apply HP; by right). simpl.
  rewrite HP, andb_true_r by (by left).
  destruct (decide (lease_ID l = id)) as [<-|Hne].
  - rewrite open_on_self, decide_False by done. by rewrite decide_True by (by left).
  - rewrite open_on_other by done. apply decide_ext.
    rewrite elem_of_cons. naive_solver.
Qed.

Lemma pool_ok_probe_due p now : pool_ok p → pool_ok (pool_step (PvProbeDue now) p).
Proof.
  intros Hok. simpl. unfold ProbeDue.
  pose proof (ro_order_nodup _ _ (po_reg _ Hok)) as Hnd.
  pose proof (probe_due_loop_spec (reg_order (pl_reg p)) now (pl_reg p) Hnd) as Hspec.
  destruct (probe_due_loop _ now _) as [reg' ls].
  destruct Hspec as (Hids & Hls & Hn & Ho & _).
  assert (NoDup (lease_ID <$> ls)) as Hndl by (rewrite Hids; by apply NoDup_filter).
  assert (∀ id, count (open_on id) ((λ l, (l, false)) <$> ls) =
      if decide (id ∈ lease_ID <$> ls) then 1 else 0) as Hopen.
  { intros id. rewrite <-(count_new_leases (λ _, true)) by done.
    apply count_ext. intros lc _. by rewrite andb_true_r. }
  assert (∀ id, count (gated_on id) ((λ l, (l, false)) <$> ls) =
      if decide (id ∈ lease_ID <$> ls) then 1 else 0) as Hgated
    by (intros id; apply (count_new_leases lease_gated); [done|]; intros; by apply Hls).
  assert (∀ id, id ∈ lease_ID <$> ls ↔
    id ∈ reg_order (pl_reg p) ∧ due_at now (pl_reg p) id = true) as Hmem
    by (intros id; rewrite Hids, list_elem_of_filter; tauto).
  assert (∀ id, id ∈ lease_ID <$> ls → ∃ st, reg_nodes (pl_reg p) !! id = Some st ∧
    reg_nodes reg' !! id = Some (set_usage true (S (ns_active st)) st)) as Hnew.
  { intros id Hid%Hmem. destruct (due_at_true _ _ _ (proj2 Hid)) as (st & Hst & _).
    exists st. by rewrite Hn, decide_True, Hst. }
  split; simpl.
  - eapply reg_ok_similar; [apply Hok|done|]. intros id. rewrite Hn.
    destruct (reg_nodes (pl_reg p) !! id) as [st|] eqn:Hid;
      [|case_decide; by constructor].
    pose proof (ro_drain _ _ (po_reg _ Hok) id st Hid).
    case_decide; simpl; constructor; split_and!; try done; simpl; lia.
  - intros id st'. rewrite Hn, count_app, Hopen.
    rewrite (decide_ext (id ∈ lease_ID <$> ls) _ _ _ (Hmem id)).
    case_decide as Hdue.
    + destruct (reg_nodes (pl_reg p) !! id) as [st|] eqn:Hid; [|done].
      intros ?; simplify_eq/=. rewrite (po_active _ Hok _ _ Hid). lia.
    + intros Hst'. rewrite (po_active _ Hok _ _ Hst'). lia.
  - intros id st'. rewrite Hn, count_app, Hgated.
    rewrite (decide_ext (id ∈ lease_ID <$> ls) _ _ _ (Hmem id)).
    case_decide as Hdue.
    + destruct (reg_nodes (pl_reg p) !! id) as [st|] eqn:Hid; [|done].
      intros ?; simplify_eq/=. rewrite (po_probing _ Hok _ _ Hid).
      destruct (due_at_true _ _ _ (proj2 Hdue)) as (s & Hs & Hd).
      assert (s = st) as -> by congruence.
      unfold due in Hd. by destruct (ns_removed st), (ns_probing st).
    + intros Hst'. rewrite (po_probing _ Hok _ _ Hst'). lia.
  - intros l [Hin|Hin]%elem_of_app.
    + destruct (po_lease _ Hok l Hin) as (st & Hst & Hd). rewrite Hn.
      case_decide; rewrite Hst; simpl; eauto.
    + apply list_elem_of_fmap in Hin as (l' & ? & Hin). simplify_eq.
      destruct (Hls _ Hin) as (_ & st & Hst & Hd).
      destruct (Hnew (lease_ID l')) as (s & Hs & ->).
      { apply list_elem_of_fmap. eauto. }
      eexists. split; [done|]. simpl. congruence.
Qed.

Lemma pool_ok_close p i : pool_ok p → pool_ok (pool_step (PvClose i) p).
Proof.
  intros Hok. simpl. unfold lease_Close.
  destruct (pl_leases p !! i) as [[l [|]]|] eqn:Hi; [done| |done].
  assert ((l, false) ∈ pl_leases p) as Hin by (apply list_elem_of_lookup; eauto).
  destruct (po_lease _ Hok l Hin) as (st & Hst & Hd).
  pose proof (open_lease_active _ _ _ Hok Hin Hst) as Hact.
  pose proof (po_active _ Hok _ _ Hst) as Ha. pose proof (po_probing _ Hok _ _ Hst) as Hp.
  assert (∀ P, P (l, true) = false → count P (<[i := (l, true)]> (pl_leases p)) +
    (if P (l, false) then 1 else 0) = count P (pl_leases p)) as Hcount.
  { intros P HP. rewrite (count_insert P _ _ _ (l, true) Hi), HP. lia. }
  assert (∀ id, gated_on id (l, true) = false ∧ open_on id (l, true) = false) as Hclosed
    by done.
  set (leases' := <[i := (l, true)]> (pl_leases p)) in *.
  assert (∀ id', id' ≠ lease_ID l →
    count (open_on id') leases' = count (open_on id') (pl_leases p) ∧
    count (gated_on id') leases' = count (gated_on id') (pl_leases p)) as Hother.
  { intros id' Hne. rewrite <-(Hcount (open_on id')), <-(Hcount (gated_on id')) by done.
    unfold gated_on. rewrite open_on_other by congruence. simpl. lia. }
  pose proof (Hcount (open_on (lease_ID l)) eq_refl) as Ho.
  rewrite open_on_self, <-Ha in Ho.
  pose proof (Hcount (gated_on (lease_ID l)) eq_refl) as Hg.
  unfold gated_on in Hg at 2. rewrite open_on_self in Hg. simpl in Hg.
  assert (∀ l', (l', false) ∈ leases' → (l', false) ∈ pl_leases p) as Hsub.
  { intros l' [j Hj]%list_elem_of_lookup.
    apply list_lookup_insert_Some in Hj as [(_ & ? & _)|[_ Hj]]; [done|].
    apply list_elem_of_lookup. eauto. }
  unfold release. rewrite Hst.
  destruct (ns_removed st && bool_decide (Nat.pred (ns_active st) = 0)) eqn:Hdrop.
  - apply andb_true_iff in Hdrop as [Hr Hz%bool_decide_eq_true].
    assert (∀ l', (l', false) ∈ leases' → lease_ID l' ≠ lease_ID l) as Hgone.
    { intros l' Hin' He. assert (0 < count (open_on (lease_ID l)) leases'); [|lia].
      apply count_pos. exists (l', false). split; [done|]. by apply open_on_true. }
    split; simpl.
    + by apply reg_ok_drop; [apply Hok|..].
    + intros id s [Hne Hs]%lookup_delete_Some. destruct (Hother id) as [-> _]; [done|].
      by apply (po_active _ Hok).
    + intros id s [Hne Hs]%lookup_delete_Some. destruct (Hother id) as [_ ->]; [done|].
      by apply (po_probing _ Hok).
    + intros l' Hin'. destruct (po_lease _ Hok l' (Hsub _ Hin')) as (s & Hs & ?).
      exists s. split; [|done]. apply lookup_delete_Some. split; [|done].
      intros He. by apply (Hgone l' Hin').
  - eapply pool_ok_update; eauto; simpl.
    + split_and!; try done. simpl. intros Hr. rewrite Hr in Hdrop. simpl in Hdrop.
      apply bool_decide_eq_false in Hdrop. lia.
    + lia.
    + rewrite Hp in Hg. destruct (lease_gated l), (ns_probing st); lia.
Qed.

Lemma pool_ok_step p e : pool_ok p → pool_ok (pool_step e p).
Proof.
  intros Hok. assert (pool_ok (mkPool (pl_reg p) (pl_fac p) (pl_leases p))) as Hsame
    by (by destruct p).
  destruct e as [o snap|id cause now|id latency now|id allow|now|i].
  - by apply pool_ok_apply.
  - simpl. unfold MarkFailure. destruct (reg_nodes _ !! id) as [st|] eqn:Hid; [|done].
    by apply pool_ok_health.
  - simpl. unfold MarkSuccess. destruct (reg_nodes _ !! id) as [st|] eqn:Hid; [|done].
    destruct (ns_removed st); [done|]. by apply pool_ok_health.
  - by apply pool_ok_acquire.
  - by apply pool_ok_probe_due.
  - by apply pool_ok_close.
Qed.

Lemma pool_ok_run p evs : pool_ok p → pool_ok (pool_run p evs).
Proof.
  revert p. induction evs as [|e evs IH]; intros p Hok; [done|].
  apply IH. by apply pool_ok_step.
Qed.

(** Leases are never forgotten and never opened again; a lease that nobody
    closes stays open. *)
Lemma pool_step_lease e p i l c :
  pl_leases p !! i = Some (l, c) →
  ∃ c', pl_leases (pool_step e p) !! i = Some (l, c') ∧ (c = true → c' = true) ∧
    (e ≠ PvClose i → c' = c).
Proof.
  intros Hi. assert (∀ ls, (pl_leases p ++ ls) !! i = Some (l, c)) as Happ
    by (intros; by apply lookup_app_l_Some).
  destruct e as [o snap|id cause now|id latency now|id allow|now|j]; simpl;
    try (by exists c).
  - destruct (Apply _ _ _ _) as [[??]?]. by exists c.
  - destruct (Acquire _ _ _) as [? [?|]]; exists c; split; simpl; auto.
  - destruct (ProbeDue _ _) as [? ?]. exists c; split; simpl; auto.
  - unfold lease_Close. destruct (decide (j = i)) as [->|Hne].
    + rewrite Hi. destruct c; [by exists true|]. destruct (release _ _ _ _) as [? ?].
      exists true. simpl. rewrite list_lookup_insert_eq by by eapply lookup_lt_Some. done.
    + destruct (pl_leases p !! j) as [[l' [|]]|]; [by exists c| |by exists c].
      destruct (release _ _ _ _) as [? ?]. exists c. simpl. by rewrite list_lookup_insert_ne.
Qed.

Lemma pool_run_lease evs p i l c :
  pl_leases p !! i = Some (l, c) →
  ∃ c', pl_leases (pool_run p evs) !! i = Some (l, c') ∧ (c = true → c' = true) ∧
    (PvClose i ∈ evs → c' = true).
Proof.
  revert p c. induction evs as [|e evs IH]; intros p c Hi; simpl.
  { exists c. split_and!; [done|done|by intros ?%not_elem_of_nil]. }
  destruct (pool_step_lease e _ _ _ _ Hi) as (c1 & Hi1 & Hm1 & _).
  destruct (IH (pool_step e p) c1 Hi1) as (c2 & Hi2 & Hm2 & Hc2). exists c2.
  split_and!; [done|by auto|]. intros [<-|Hin]%elem_of_cons; [|by apply Hc2].
  apply Hm2. simpl in Hi1. unfold lease_Close in Hi1. rewrite Hi in Hi1.
  destruct c; [by apply Hm1|]. destruct (release _ _ _ _). simpl in Hi1.
  rewrite list_lookup_insert_eq in Hi1 by (by eapply lookup_lt_Some). by simplify_eq.
Qed.

(** ** Theorems *)

(** C1: whatever connections, probes, health reports and refreshes do and
    in whatever order, a connection never loses the dialer it runs on: while a
    lease is open its node is registered with the lease's own dialer, and that
    dialer has not been closed, even if the node has since been removed. *)
Theorem open_lease_protects_dialer interval (f : F) evs l :
  valid f → live f = ∅ →
  let p := pool_run (new_pool interval f) evs in
  (l, false) ∈ pl_leases p →
  lease_Dialer l ∈ live (pl_fac p) ∧
  ∃ st, reg_nodes (pl_reg p) !! lease_ID l = Some st ∧ ns_dialer st = lease_Dialer l.
Proof.
  intros Hv Hf p Hin. pose proof (pool_ok_run _ evs (new_pool_ok interval f Hv Hf)) as Hok.
  destruct (po_lease _ Hok l Hin) as (st & Hst & Hd). split; [|by eauto].
  apply (ro_live _ _ (po_reg _ Hok)). eauto.
Qed.

(** C4: the bookkeeping of every node is exact at all times: its active
    count is the number of its open leases, its probe gate is shut exactly while
    one half-open or probe lease on it is open, and there is never a second one. *)
Theorem lease_accounting_exact interval (f : F) evs id st :
  valid f → live f = ∅ →
  let p := pool_run (new_pool interval f) evs in
  reg_nodes (pl_reg p) !! id = Some st →
  ns_active st = count (open_on id) (pl_leases p) ∧
  (ns_probing st = true ↔ ∃ lc, lc ∈ pl_leases p ∧ gated_on id lc = true) ∧
  count (gated_on id) (pl_leases p) ≤ 1 ∧
  (ns_removed st = true → ∃ l, (l, false) ∈ pl_leases p ∧ lease_ID l = id).
Proof.
  intros Hv Hf p Hst. pose proof (pool_ok_run _ evs (new_pool_ok interval f Hv Hf)) as Hok.
  pose proof (po_active _ Hok _ _ Hst) as Ha.
  pose proof (po_probing _ Hok _ _ Hst) as Hp. split_and!; [done|..].
  - rewrite <-count_pos. fold p in Hp. rewrite Hp. destruct (ns_probing st); split; (done || lia).
  - fold p in Hp. rewrite Hp. destruct (ns_probing st); lia.
  - intros Hr. pose proof (ro_drain _ _ (po_reg _ Hok) _ _ Hst Hr) as Hpos.
    rewrite Ha in Hpos. apply count_pos in Hpos as ([l c] & Hin & [-> <-]%open_on_true).
    eauto.
Qed.

(** C9: nothing leaks. Once every lease has been closed, the registry holds
    only routed nodes, idle and ungated, and the dialers still open are exactly
    theirs, one each. *)
Theorem closed_leases_leave_no_dialer interval (f : F) evs :
  valid f → live f = ∅ →
  let p := pool_run (new_pool interval f) evs in
  (∀ l, (l, false) ∉ pl_leases p) →
  (∀ id st, reg_nodes (pl_reg p) !! id = Some st →
     id ∈ reg_order (pl_reg p) ∧ ns_active st = 0 ∧ ns_probing st = false) ∧
  size (live (pl_fac p)) = length (reg_order (pl_reg p)) ∧
  (∀ d, d ∈ live (pl_fac p) ↔ ∃ id st, id ∈ reg_order (pl_reg p) ∧
     reg_nodes (pl_reg p) !! id = Some st ∧ ns_dialer st = d).
Proof.
  intros Hv Hf p Hclosed. pose proof (pool_ok_run _ evs (new_pool_ok interval f Hv Hf)) as Hok.
  fold p in Hok. pose proof (po_reg _ Hok) as Hreg.
  assert (∀ id st, reg_nodes (pl_reg p) !! id = Some st →
     id ∈ reg_order (pl_reg p) ∧ ns_active st = 0 ∧ ns_probing st = false) as Hidle.
  { intros id st Hst.
    assert (count (open_on id) (pl_leases p) = 0) as Hzero.
    { apply count_zero. intros [l c] Hin. apply not_true_is_false.
      intros [-> _]%open_on_true. by destruct (Hclosed l). }
    pose proof (po_active _ Hok _ _ Hst) as Ha. rewrite Hzero in Ha.
    split_and!; [|done|].
    - eapply ro_order_elem; [done|]. exists st. split; [done|].
      apply not_true_is_false. intros Hr%(ro_drain _ _ Hreg _ _ Hst). lia.
    - apply not_true_is_false. intros Hp. pose proof (po_probing _ Hok _ _ Hst) as Hc.
      rewrite Hp in Hc.
      assert (0 < count (gated_on id) (pl_leases p)) as (lc & Hin & Hg)%count_pos by lia.
      unfold gated_on in Hg. apply andb_true_iff in Hg as [Ho _].
      assert (0 < count (open_on id) (pl_leases p)); [apply count_pos; eauto|lia]. }
  assert (∀ d, d ∈ live (pl_fac p) ↔ ∃ id st, id ∈ reg_order (pl_reg p) ∧
     reg_nodes (pl_reg p) !! id = Some st ∧ ns_dialer st = d) as Hlive.
  { intros d. rewrite (ro_live _ _ Hreg). split; [|naive_solver].
    intros (id & st & Hst & <-). exists id, st. split; [|done]. by eapply Hidle. }
  split_and!; [done| |done].
  rewrite (ro_live_size _ _ Hreg), (ro_order _ _ Hreg), sort_strings_perm.
  rewrite <-(size_dom (D := gset string)).
  assert (dom (reg_nodes (pl_reg p)) = routed (reg_nodes (pl_reg p))) as ->; [|done].
  apply set_eq. intros id. rewrite elem_of_dom, elem_of_routed. split; [|naive_solver].
  intros [st Hst]. destruct (Hidle id st Hst) as [Hin _].
  by eapply ro_order_elem in Hin.
Qed.
End leases.
