(* ===== verification/Engine.v ===== *)
(** * proxycore/engine.go: the sing-box engine as the pool's dialer factory.

    sing-box itself (its outbound manager, its JSON decoder) is third-party code
    and stays a parameter; the engine's own bookkeeping is modelled in full. *)
From stdpp Require Import gmap strings list fin_maps.
From S2P Require Import Prelude.
From S2P Require Import GoBase.
From S2P Require Import GoStrings.
From S2P Require Import Model.
From S2P Require Import Selector.
From S2P Require Import Registry.
From S2P Require Import Leases.
From stdpp Require Import options.

Definition nonProxyTypes : gset string :=
  {[ "block"; "direct"; "dns"; "selector"; "urltest" ]}.

(** A [*nodeDialer]: which allocation it is, and its tag. Its [engine] is the
    engine the operations thread. *)
Record nodeDialer := mkNodeDialer { nd_serial : nat; nd_tag : string }.

#[export] Instance nodeDialer_eq_dec : EqDecision nodeDialer.
Proof. solve_decision. Defined.
#[export] Instance nodeDialer_countable : Countable nodeDialer.
Proof.
  refine (inj_countable' (λ d, (nd_serial d, nd_tag d))
    (λ '(n, t), mkNodeDialer n t) _).
  by intros [].
Defined.

(** The sing-box API the engine calls: [json.UnmarshalContext] into an
    [option.Outbound], the outbound manager's [Create], [Outbound] and [Remove],
    [Box.Close]; and the [%q] verb of [fmt], used in error texts. *)
Class SingBox (Box Options : Type) := {
  sb_unmarshal : string → option (string * Options);
  sb_create : string → string → Options → Box → Box * option GoError;
  sb_lookup : string → Box → bool;
  sb_remove : string → Box → Box * option GoError;
  sb_close : Box → Box * option GoError;
  fmt_q : string → string;
}.

Section engine.
Context {Box Options : Type} `{!SingBox Box Options}.

(** [eng_open] holds the dialers whose [once] has not fired, [eng_serial] the
    next allocation. *)
Record Engine := mkEngine {
  eng_box : Box;
  eng_closed : bool;
  eng_builtBy : gmap string string;
  eng_serial : nat;
  eng_open : gset nodeDialer;
}.

(** The engine [NewEngine] returns around a started box. *)
Definition NewEngine (box : Box) : Engine := mkEngine box false ∅ 0 ∅.

Definition set_box (box : Box) (e : Engine) : Engine :=
  mkEngine box (eng_closed e) (eng_builtBy e) (eng_serial e) (eng_open e).

Definition engine_Build (spec : NodeSpec) (e : Engine)
    : Engine * (GoError + option nodeDialer) :=
  if eng_closed e then (e, inl (ErrNew "sing-box engine is closed"))
  else
    let typeName := ToLower (TrimSpace (spec_Type spec)) in
    if decide (typeName = "" ∨ typeName ∈ nonProxyTypes) then
      (e, inl (ErrNew ("outbound type " +:+ fmt_q typeName +:+ " is not a proxy node")))
    else if decide (spec_Format spec ≠ FormatSingBox) then
      (e, inl (ErrNew ("outbound format " +:+ fmt_q (spec_Format spec)
               +:+ " is not yet normalized to sing-box")))
    else
      match sb_unmarshal (spec_Options spec) with
      | None => (e, inl (ErrNew ("invalid " +:+ typeName +:+ " outbound options")))
      | Some (type, opts) =>
          if decide (type ≠ typeName ∨ type ∈ nonProxyTypes) then
            (e, inl (ErrNew ("outbound type " +:+ fmt_q type +:+ " is not a proxy node")))
          else
            let tag := "node-" +:+ spec_ID spec in
            match eng_builtBy e !! tag with
            | Some previousID =>
                (e, inl (ErrNew ("outbound " +:+ previousID +:+ " already exists")))
            | None =>
                match sb_create tag type opts (eng_box e) with
                | (box', Some cause) =>
                    (set_box box' e,
                     inl (ErrWrap ("create " +:+ typeName +:+ " outbound "
                                   +:+ spec_ID spec) cause))
                | (box', None) =>
                    if sb_lookup tag box' then
                      let d := mkNodeDialer (eng_serial e) tag in
                      (mkEngine box' (eng_closed e)
                         (<[tag := spec_ID spec]> (eng_builtBy e))
                         (S (eng_serial e)) ({[d]} ∪ eng_open e),
                       inr (Some d))
                    else (set_box box' e, inl (ErrNew "created outbound is unavailable"))
                end
            end
      end.

(** [nodeDialer.Close]; its result, the error of the removal, has no caller
    that looks at it. *)
Definition engine_DialerClose (d : nodeDialer) (e : Engine) : Engine :=
  if decide (d ∈ eng_open e) then
    let open' := eng_open e ∖ {[d]} in
    if eng_closed e then
      mkEngine (eng_box e) (eng_closed e) (eng_builtBy e) (eng_serial e) open'
    else
      mkEngine (sb_remove (nd_tag d) (eng_box e)).1 (eng_closed e)
        (delete (nd_tag d) (eng_builtBy e)) (eng_serial e) open'
  else e.

Definition engine_Close (e : Engine) : Engine * option GoError :=
  if eng_closed e then (e, None)
  else
    let '(box', err) := sb_close (eng_box e) in
    (mkEngine box' true ∅ (eng_serial e) (eng_open e), err).

#[export] Instance engine_factory : Factory Engine nodeDialer := {|
  Build := engine_Build;
  DialerClose := engine_DialerClose;
|}.

(** ** The engine keeps its promise to the registry *)

Lemma node_tag_id id : TrimPrefix ("node-" +:+ id) "node-" = id.
Proof. by destruct id. Qed.

(** The states an engine can be in: every open dialer was allocated before, has
    the tag of a node, and no two share a tag; while the engine is not closed,
    [builtBy] holds exactly the tags of the open dialers. *)
Record engine_valid (e : Engine) : Prop := {
  ev_serial : ∀ d, d ∈ eng_open e → nd_serial d < eng_serial e;
  ev_tag : ∀ d, d ∈ eng_open e → nd_tag d = "node-" +:+ TrimPrefix (nd_tag d) "node-";
  ev_inj : ∀ d d', d ∈ eng_open e → d' ∈ eng_open e → nd_tag d = nd_tag d' → d = d';
  ev_built : eng_closed e = false → ∀ tag id, eng_builtBy e !! tag = Some id ↔
    tag = "node-" +:+ id ∧ ∃ d, d ∈ eng_open e ∧ nd_tag d = tag;
}.

Lemma engine_valid_box box e : engine_valid e → engine_valid (set_box box e).
Proof. by intros [? ? ? ?]. Qed.

Lemma new_engine_valid box : engine_valid (NewEngine box).
Proof.
  split; simpl; [set_solver..|]. intros _ tag id. rewrite lookup_empty. set_solver.
Qed.

(** Every branch of [Build]: an error changes nothing but the box; a dialer is
    the next allocation, under a tag that was not built. *)
Lemma engine_build_cases spec e e' r :
  engine_Build spec e = (e', r) →
  (∃ err box, r = inl err ∧ e' = set_box box e) ∨
  (∃ box, let tag := "node-" +:+ spec_ID spec in let d := mkNodeDialer (eng_serial e) tag in
   eng_closed e = false ∧ eng_builtBy e !! tag = None ∧ r = inr (Some d) ∧
   e' = mkEngine box false (<[tag := spec_ID spec]> (eng_builtBy e))
          (S (eng_serial e)) ({[d]} ∪ eng_open e)).
Proof.
  assert (set_box (eng_box e) e = e) as Hsame by by destruct e.
  unfold engine_Build. intros Hb. repeat case_match; simplify_eq;
    try (left; eexists _, (eng_box _); split; [done|]; symmetry; exact Hsame);
    try (left; eexists _, _; split; reflexivity).
  right. destruct (eng_closed e); [done|]. by eexists.
Qed.

Lemma engine_build_valid spec e : engine_valid e → engine_valid (engine_Build spec e).1.
Proof.
  intros Hv. destruct (engine_Build spec e) as [e' r] eqn:Hb.
  apply engine_build_cases in Hb as [(? & box & _ & ->)|(box & Hc & Hnew & _ & ->)];
    [by apply engine_valid_box|].
  destruct Hv as [Hs Ht Hi Hb]. specialize (Hb Hc).
  assert (∀ d, d ∈ eng_open e → nd_tag d ≠ "node-" +:+ spec_ID spec) as Hfresh.
  { intros d Hd Heq. assert (is_Some (eng_builtBy e !! ("node-" +:+ spec_ID spec))) as [??].
    { eexists. apply Hb. eauto. } congruence. }
  split; simpl.
  - intros d [->%elem_of_singleton|?%Hs]%elem_of_union; simpl; lia.
  - intros d [->%elem_of_singleton|?]%elem_of_union; [|by apply Ht].
    cbn [nd_tag]. by rewrite node_tag_id.
  - intros d d' [->%elem_of_singleton|Hd]%elem_of_union
      [->%elem_of_singleton|Hd']%elem_of_union Heq; simpl in *.
    + done.
    + by destruct (Hfresh d').
    + by destruct (Hfresh d).
    + by apply Hi.
  - intros _ tag id. rewrite lookup_insert_Some, Hb. split.
    + intros [[<- <-]|(_ & ? & d & ? & ?)]; (split; [done|]); [|set_solver].
      eexists. split; [by apply elem_of_union_l, elem_of_singleton|done].
    + intros (-> & d & [->%elem_of_singleton|Hd]%elem_of_union & Heq); simpl in *;
        [left; by simplify_eq|]. right. split; [|eauto].
      intros Heq'. apply (Hfresh d Hd). by rewrite Heq.
Qed.

Lemma engine_close_valid d e : engine_valid e → engine_valid (engine_DialerClose d e).
Proof.
  intros [Hs Ht Hi Hb]. unfold engine_DialerClose. case_decide as Hd; [|by split].
  assert (∀ d', d' ∈ eng_open e ∖ {[d]} → d' ∈ eng_open e) as Hsub by set_solver.
  destruct (eng_closed e) eqn:Hc; split; simpl; try done; auto.
  intros _ tag id. rewrite lookup_delete_Some, Hb by done. split.
  - intros (Hne & -> & d' & Hd' & Htag). split; [done|]. exists d'. split; [|done].
    apply elem_of_difference. split; [done|]. intros ->%elem_of_singleton. by apply Hne.
  - intros (-> & d' & [Hd' Hne]%elem_of_difference & Htag). split_and!; [|done|eauto].
    intros Heq. apply Hne, elem_of_singleton, Hi; [done..|]. by rewrite Htag.
Qed.

Lemma engine_close_open d e : eng_open (engine_DialerClose d e) = eng_open e ∖ {[d]}.
Proof. unfold engine_DialerClose. case_decide; [by destruct (eng_closed e)|set_solver]. Qed.

#[export, program] Instance engine_laws : FactoryLaws Engine nodeDialer := {|
  valid := engine_valid;
  live := eng_open;
  dialer_for := λ d, TrimPrefix (nd_tag d) "node-";
|}.
Next Obligation. apply engine_build_valid. Qed.
Next Obligation. apply engine_close_valid. Qed.
Next Obligation.
  intros spec e e' d Hv Hb.
  apply engine_build_cases in Hb as [(?&?&?&?)|(box & _ & _ & ? & ->)]; simplify_eq/=.
  split; [|done]. intros Hd%(ev_serial _ Hv). simpl in Hd. lia.
Qed.
Next Obligation.
  intros spec e e' d Hb.
  apply engine_build_cases in Hb as [(?&?&?&?)|(box & _ & _ & ? & _)]; simplify_eq.
  apply node_tag_id.
Qed.
Next Obligation.
  intros spec e e' err Hb.
  by apply engine_build_cases in Hb as [(?&?&?&->)|(box & _ & _ & ? & _)]; simplify_eq/=.
Qed.
Next Obligation.
  intros spec e e' Hb.
  by apply engine_build_cases in Hb as [(?&?&?&?)|(box & _ & _ & ? & _)]; simplify_eq/=.
Qed.
Next Obligation. apply engine_close_open. Qed.

(** ** Theorems *)

(** C31: over the engine, whatever the pool goes through, the outbounds the
    engine believes it has built are exactly those of the registered nodes, under
    the tag of their ID; so a node the registry misses is never refused as a
    duplicate: [Build] succeeds if it is a sing-box proxy node that sing-box
    decodes and creates. *)
Theorem engine_tags_match_registry (box : Box) interval evs :
  let p := pool_run (new_pool interval (NewEngine box)) evs in
  let e := pl_fac p in
  (∀ tag id, eng_builtBy e !! tag = Some id ↔
     tag = "node-" +:+ id ∧ is_Some (reg_nodes (pl_reg p) !! id)) ∧
  (∀ spec type opts, reg_nodes (pl_reg p) !! spec_ID spec = None →
     type = ToLower (TrimSpace (spec_Type spec)) → type ≠ "" → type ∉ nonProxyTypes →
     spec_Format spec = FormatSingBox → sb_unmarshal (spec_Options spec) = Some (type, opts) →
     let tag := "node-" +:+ spec_ID spec in
     let '(box', err) := sb_create tag type opts (eng_box e) in
     err = None → sb_lookup tag box' = true →
     ∃ d, (engine_Build spec e).2 = inr (Some d) ∧ nd_tag d = tag).
Proof.
  intros p e.
  pose proof (pool_ok_run _ evs (new_pool_ok interval (NewEngine box)
    (new_engine_valid box) eq_refl)) as Hok. fold p in Hok.
  pose proof (po_reg _ Hok) as Hreg. pose proof (ro_valid _ _ Hreg) as Hv. fold e in Hv.
  assert (eng_closed e = false) as Hc.
  { apply (pool_run_preserves (λ e, eng_closed e = false)); [| |done].
    - intros spec e0 He0. destruct (engine_Build spec e0) as [e1 r] eqn:Hbuild. simpl.
      rewrite Hbuild. by apply engine_build_cases in Hbuild as [(?&?&_&->)|(?&_&_&_&->)].
    - intros d e0 He0. simpl. unfold engine_DialerClose. by case_decide; [rewrite He0|]. }
  assert (∀ tag id, eng_builtBy e !! tag = Some id ↔
     tag = "node-" +:+ id ∧ is_Some (reg_nodes (pl_reg p) !! id)) as Hb.
  { intros tag id. rewrite (ev_built _ Hv Hc). split; intros [-> Hd]; (split; [done|]).
    - destruct Hd as (d & (id' & st & Hst & <-)%(ro_live _ _ Hreg) & Htag).
      pose proof (ro_for _ _ Hreg _ _ Hst) as Hfor. simpl in Hfor.
      rewrite Htag, node_tag_id in Hfor. subst. eauto.
    - destruct Hd as [st Hst]. exists (ns_dialer st).
      assert (ns_dialer st ∈ eng_open e) as Hd by (apply (ro_live _ _ Hreg); eauto).
      split; [done|]. rewrite (ev_tag _ Hv _ Hd). f_equal. apply (ro_for _ _ Hreg _ _ Hst). }
  split; [done|]. intros spec type opts Hmiss Htype Hne Hproxy Hfmt Hjson tag.
  destruct (sb_create _ _ _ _) as [box' err] eqn:Hcreate. intros -> Hlookup.
  assert (eng_builtBy e !! tag = None) as Hnew.
  { destruct (eng_builtBy e !! tag) as [id|] eqn:Ht; [|done].
    apply Hb in Ht as [Htag [st Hst]]. unfold tag in Htag. simplify_eq. }
  unfold engine_Build. rewrite Hc, <-Htype, Hjson. rewrite !decide_False by naive_solver.
  fold tag. rewrite Hnew, Hcreate, Hlookup. eauto.
Qed.

Lemma closed_build_fails spec e :
  eng_closed e = true → engine_Build spec e = (e, inl (ErrNew "sing-box engine is closed")).
Proof. intros Hc. unfold engine_Build. by rewrite Hc. Qed.

Lemma closed_build_missing o (nodes : gmap string (nodeState nodeDialer)) items e :
  eng_closed e = true → (∃ id, id ∈ items.*1 ∧ nodes !! id = None) →
  build_missing o nodes items ∅ e = (e, inl (ErrNew "sing-box engine is closed")).
Proof.
  intros Hc. induction items as [|[id spec] items IH]; intros (id' & Hin & Hnone); simpl in *.
  { by apply not_elem_of_nil in Hin. }
  destruct (nodes !! id) eqn:Hid.
  - apply IH. exists id'. split; [|done]. apply elem_of_cons in Hin as [->|?]; [congruence|done].
  - rewrite closed_build_fails by done. unfold close_all. by rewrite range_items_empty.
Qed.

(** Closing the engine is final and idempotent: no node can be built
    any more, closing dialers no longer touches sing-box, a second [Close] does
    nothing, and a refresh that brings a new node fails and leaves the registry
    as it was. *)
Theorem engine_close_is_final (e : Engine) :
  let '(e', err) := engine_Close e in
  eng_closed e' = true ∧ engine_Close e' = (e', None) ∧
  (∀ spec, engine_Build spec e' = (e', inl (ErrNew "sing-box engine is closed"))) ∧
  (∀ d, eng_box (engine_DialerClose d e') = eng_box e') ∧
  (∀ o snap (reg : Registry nodeDialer) wanted, collect_wanted (snap_Nodes snap) ∅ = Some wanted →
     (∃ id, is_Some (wanted !! id) ∧ reg_nodes reg !! id = None) →
     Apply o snap reg e' = (reg, e', inl (ErrNew "sing-box engine is closed"))).
Proof.
  unfold engine_Close.
  set (p := if eng_closed e then (e, None) else _).
  assert (eng_closed p.1 = true) as Hc.
  { unfold p. destruct (eng_closed e) eqn:?; [done|]. by destruct (sb_close _). }
  destruct p as [e' err]. simpl in Hc. rewrite Hc. split_and!; [done..| | |].
  - intros spec. by apply closed_build_fails.
  - intros d. unfold engine_DialerClose. rewrite Hc. by case_decide.
  - intros o snap reg wanted Hw (id & Hwid & Hid). unfold Apply. rewrite Hw.
    rewrite closed_build_missing; [done|done|]. exists id. split; [|done].
    by apply elem_of_range_keys.
Qed.
End engine.
Arguments Engine : clear implicits.
