(* ===== verification/MemFactory.v ===== *)
(** * A concrete factory, on which the theorems about the pool are evaluated: it
    numbers its dialers, refuses nodes of type "bad" and returns a nil dialer for
    nodes of type "nil". *)
From stdpp Require Import gmap strings list.
From S2P Require Import Prelude.
From S2P Require Import GoBase.
From S2P Require Import Model.
From S2P Require Import Selector.
From S2P Require Import Registry.
From S2P Require Import Leases.
From stdpp Require Import options.

Record Mem := mkMem { mem_next : nat; mem_open : gset (nat * string) }.

Definition mem_empty : Mem := mkMem 0 ∅.

Definition mem_Build (spec : NodeSpec) (f : Mem) : Mem * (GoError + option (nat * string)) :=
  if decide (spec_Type spec = "bad") then (f, inl (ErrNew "bad node"))
  else if decide (spec_Type spec = "nil") then (f, inr None)
  else
    let d := (mem_next f, spec_ID spec) in
    (mkMem (S (mem_next f)) ({[d]} ∪ mem_open f), inr (Some d)).

#[export] Instance mem_factory : Factory Mem (nat * string) := {|
  Build := mem_Build;
  DialerClose := λ d f, mkMem (mem_next f) (mem_open f ∖ {[d]});
|}.

#[export, program] Instance mem_laws : FactoryLaws Mem (nat * string) := {|
  valid := λ f, ∀ d, d ∈ mem_open f → d.1 < mem_next f;
  live := mem_open;
  dialer_for := snd;
|}.
Next Obligation.
  intros spec f Hf. simpl. unfold mem_Build. repeat case_decide; simpl; [done..|].
  intros d [->%elem_of_singleton|Hd%Hf]%elem_of_union; simpl; lia.
Qed.
Next Obligation. intros d f Hf d' [Hd _]%elem_of_difference. by apply Hf. Qed.
Next Obligation.
  intros spec f f' d Hf. simpl. unfold mem_Build. intros Hb. repeat case_decide; simplify_eq/=.
  split; [|done]. intros Hd%Hf. simpl in Hd. lia.
Qed.
Next Obligation.
  intros spec f f' d. simpl. unfold mem_Build. intros Hb. by repeat case_decide; simplify_eq/=.
Qed.
Next Obligation.
  intros spec f f' e. simpl. unfold mem_Build. intros Hb. by repeat case_decide; simplify_eq/=.
Qed.
Next Obligation.
  intros spec f f'. simpl. unfold mem_Build. intros Hb. by repeat case_decide; simplify_eq/=.
Qed.
Next Obligation. done. Qed.

Lemma mem_empty_valid : valid mem_empty.
Proof. by intros d ?%not_elem_of_empty. Qed.

(** Sample data. *)
Definition node (id type : string) (sources : list string) : NodeSpec :=
  mkNodeSpec id id type FormatSingBox "{}" sources.
Definition two_nodes : Snapshot := mkSnapshot ∅ [node "b" "vless" ["1"]; node "a" "trojan" ["1"; "2"]] ∅.
Definition one_bad : Snapshot := mkSnapshot ∅ [node "c" "vless" ["1"]; node "d" "bad" ["1"]] ∅.
