(* ===== verification/Manager.v ===== *)
(** * subscription/manager.go and the loading half of seed.go: the node store that
    merges the subscription sources and keeps the last good result of each. *)
From stdpp Require Import gmap strings list sorting fin_maps.
From S2P Require Import Prelude.
From S2P Require Import GoBase.
From S2P Require Import GoStrings.
From S2P Require Import GoHash.
From S2P Require Import Model.
From stdpp Require Import options.

(** ** Interfaces *)

(** [subscription.Parse] (parse.go): a body and a content-type hint to nodes. *)
Class Parser := {
  Parse : string → string → GoError + list NodeSpec;
}.

(** A [Fetcher] over the state [W] of the outside world. [FetchWithMetadata] is
    the method the manager looks for with a type assertion; it also returns the
    expiry of the subscription. *)
Record Fetcher (W : Type) := mkFetcher {
  Fetch : Source → W → W * (GoError + (string * string));
  FetchWithMetadata : option (Source → W → W * (GoError + (string * string * Z)));
}.
Arguments mkFetcher {_} _ _.
Arguments Fetch {_} _ _ _.
Arguments FetchWithMetadata {_} _.

(** ** Data *)

Record Manager := mkManager {
  mg_sources : list Source;
  mg_bySource : gmap string (list NodeSpec);
  mg_last : Snapshot;
  mg_expiresAt : gmap string Z;
}.

Definition NewManager (sources : list Source) : Manager :=
  mkManager sources ∅ (mkSnapshot ∅ [] ∅) ∅.

(** [node.SourceIDs = ids], on a copy of the node. *)
Definition set_SourceIDs (ids : list string) (n : NodeSpec) : NodeSpec :=
  mkNodeSpec (spec_ID n) (spec_Tag n) (spec_Type n) (spec_Format n) (spec_Options n) ids.

(** ** Operations *)

Fixpoint contains (values : list string) (wanted : string) : bool :=
  match values with
  | [] => false
  | value :: rest => if decide (value = wanted) then true else contains rest wanted
  end.

(** The body of the two nested loops of [mergeSources]. *)
Definition merge_node (sourceID : string) (merged : gmap string NodeSpec) (node : NodeSpec)
    : gmap string NodeSpec :=
  match merged !! spec_ID node with
  | None => <[spec_ID node := set_SourceIDs [sourceID] node]> merged
  | Some existing =>
      if contains (spec_SourceIDs existing) sourceID then merged
      else <[spec_ID node :=
        set_SourceIDs (sort_strings (spec_SourceIDs existing ++ [sourceID])) existing]> merged
  end.

Definition merge_source (merged : gmap string NodeSpec) (entry : string * list NodeSpec)
    : gmap string NodeSpec :=
  foldl (merge_node entry.1) merged entry.2.

(** [result[i].ID < result[j].ID], as the total preorder a sort by it realises. *)
Definition by_ID (n n' : NodeSpec) : Prop := String.le (spec_ID n) (spec_ID n').
#[export] Instance by_ID_dec n n' : Decision (by_ID n n').
Proof. unfold by_ID. apply _. Defined.

Definition mergeSources (o : RangeOrder) (bySource : gmap string (list NodeSpec))
    : list NodeSpec :=
  let merged := foldl merge_source ∅ (range_items o bySource) in
  merge_sort by_ID (range_items o merged).*2.

Definition cloneSnapshot (o : RangeOrder) (input : Snapshot) : Snapshot :=
  mkSnapshot (range_store o (snap_ExpiresAt input) ∅)
    ((λ n, mkNodeSpec (spec_ID n) (spec_Tag n) (spec_Type n) (spec_Format n)
             (spec_Options n) (spec_SourceIDs n)) <$> snap_Nodes input)
    (range_store o (snap_SourceErrors input) ∅).

Section operations.
Context {W : Type} `{Parser} (fetcher : Fetcher W).

(** The choice of method at the head of the loop; the zero time without metadata. *)
Definition fetch_source (source : Source) (w : W) : W * (GoError + (string * string * Z)) :=
  match FetchWithMetadata fetcher with
  | Some f => f source w
  | None =>
      let '(w', r) := Fetch fetcher source w in
      (w', match r with
           | inl err => inl err
           | inr (body, hint) => inr (body, hint, 0%Z)
           end)
  end.

(** The local variables of [Refresh]. *)
Record refreshAcc := mkRefreshAcc {
  ra_sourceErrors : gmap string string;
  ra_updates : gmap string (list NodeSpec);
  ra_expiries : gmap string Z;
}.

(** What the loop body does with the outcome of a fetch. *)
Definition refresh_result (source : Source) (r : GoError + (string * string * Z))
    (acc : refreshAcc) : refreshAcc :=
  let id := source_ID source in
  match r with
  | inl err =>
      mkRefreshAcc (<[id := Error err]> (ra_sourceErrors acc)) (ra_updates acc)
        (ra_expiries acc)
  | inr (body, hint, expiry) =>
      let expiries := <[id := expiry]> (ra_expiries acc) in
      match Parse body hint with
      | inl err =>
          mkRefreshAcc (<[id := Error err]> (ra_sourceErrors acc)) (ra_updates acc) expiries
      | inr [] =>
          mkRefreshAcc (<[id := "subscription contains no proxy nodes"]>
            (ra_sourceErrors acc)) (ra_updates acc) expiries
      | inr nodes =>
          mkRefreshAcc (ra_sourceErrors acc)
            (<[id := set_SourceIDs [id] <$> nodes]> (ra_updates acc)) expiries
      end
  end.

Fixpoint refresh_loop (sources : list Source) (w : W) (acc : refreshAcc) : W * refreshAcc :=
  match sources with
  | [] => (w, acc)
  | source :: rest =>
      let '(w', r) := fetch_source source w in
      refresh_loop rest w' (refresh_result source r acc)
  end.

Definition Refresh (o : RangeOrder) (m : Manager) (w : W)
    : Manager * W * (Snapshot * option GoError) :=
  let '(w', acc) := refresh_loop (mg_sources m) w (mkRefreshAcc ∅ ∅ ∅) in
  let expiresAt := range_store o (ra_expiries acc) (mg_expiresAt m) in
  let bySource := range_store o (ra_updates acc) (mg_bySource m) in
  let last := mkSnapshot expiresAt (mergeSources o bySource) (ra_sourceErrors acc) in
  let m' := mkManager (mg_sources m) bySource last expiresAt in
  let result := cloneSnapshot o last in
  if decide (0 < size (ra_sourceErrors acc)) then
    let ids := sort_strings (range_keys o (ra_sourceErrors acc)) in
    (m', w', (result, Some (ErrNew ("subscription refresh failed for source(s): "
                                    +:+ Join ids ","))))
  else (m', w', (result, None)).

Definition manager_Snapshot (o : RangeOrder) (m : Manager) : Snapshot :=
  cloneSnapshot o (mg_last m).
End operations.
Arguments refresh_result {_} _ _ _.

(** ** Seeds *)

Record Seed := mkSeed {
  seed_SourceSHA256 : string;
  seed_Body : string;
  seed_Hint : string;
  seed_ExpiresAt : Z;
}.

(** [json.Unmarshal] into a [[]Seed]. *)
Class SeedCodec := {
  unmarshal_seeds : string → option (list Seed);
}.

(** A file as [LoadSeed] sees it: what [os.Lstat] reports (is it regular, and its
    permission bits), whether [os.Open] works, the bytes, whether reading works. *)
Record FileView := mkFileView {
  fv_stat : option (bool * Z);
  fv_open : bool;
  fv_content : string;
  fv_readable : bool;
}.

(** [io.ReadAll(io.LimitReader(f, limit))] *)
Definition read_limited (f : FileView) (limit : Z) : option string :=
  if fv_readable f then Some (String.substring 0 (Z.to_nat limit) (fv_content f)) else None.

Section seed.
Context `{Parser, SeedCodec}.

Fixpoint seed_entries (sources : gmap string string) (entries : list Seed)
    (nodes : gmap string (list NodeSpec)) (expiries : gmap string Z)
    : GoError + (gmap string (list NodeSpec) * gmap string Z) :=
  match entries with
  | [] => inr (nodes, expiries)
  | entry :: rest =>
      match sources !! seed_SourceSHA256 entry with
      | None => inl (ErrNew "subscription seed does not match configured sources")
      | Some id =>
          match nodes !! id with
          | Some _ => inl (ErrNew "duplicate subscription seed")
          | None =>
              match Parse (seed_Body entry) (seed_Hint entry) with
              | inl _ | inr [] => inl (ErrNew "invalid nodes in subscription seed")
              | inr parsed =>
                  seed_entries sources rest (<[id := set_SourceIDs [id] <$> parsed]> nodes)
                    (<[id := seed_ExpiresAt entry]> expiries)
              end
          end
      end
  end.

Definition seed_sources (sources : list Source) : gmap string string :=
  foldl (λ m s, <[sha256_hex (source_URL s) := source_ID s]> m) ∅ sources.

Definition LoadSeed (o : RangeOrder) (file : FileView) (maxBytes : Z) (m : Manager)
    : Manager * option GoError :=
  if (maxBytes <=? 0)%Z then (m, Some (ErrNew "invalid seed size limit"))
  else
    match fv_stat file with
    | None => (m, Some (ErrNew "subscription seed must be a private regular file"))
    | Some (regular, perm) =>
        if negb regular || negb (Z.land perm 7 =? 0)%Z
        then (m, Some (ErrNew "subscription seed must be a private regular file"))
        else if negb (fv_open file) then (m, Some (ErrNew "cannot read subscription seed"))
        else
          match read_limited file (wrap_int64 (maxBytes + 1)) with
          | None => (m, Some (ErrNew "subscription seed exceeds size limit or cannot be read"))
          | Some b =>
              if (maxBytes <? Z.of_nat (String.length b))%Z
              then (m, Some (ErrNew "subscription seed exceeds size limit or cannot be read"))
              else
                match unmarshal_seeds b with
                | None => (m, Some (ErrNew "invalid subscription seed document"))
                | Some entries =>
                    if decide (length entries = 0 ∨ length (mg_sources m) < length entries)
                    then (m, Some (ErrNew "invalid subscription seed document"))
                    else
                      match seed_entries (seed_sources (mg_sources m)) entries ∅ ∅ with
                      | inl err => (m, Some err)
                      | inr (nodes, expiries) =>
                          let bySource := range_store o nodes (mg_bySource m) in
                          let expiresAt :=
                            foldl (λ dst kv, <[kv.1 := default 0%Z (expiries !! kv.1)]> dst)
                              (mg_expiresAt m) (range_items o nodes) in
                          (mkManager (mg_sources m) bySource
                             (mkSnapshot expiresAt (mergeSources o bySource) ∅) expiresAt,
                           None)
                      end
                end
          end
    end.

Lemma load_seed_sources o file maxBytes m : mg_sources (LoadSeed o file maxBytes m).1 = mg_sources m.
Proof. unfold LoadSeed. by repeat case_match. Qed.
End seed.

(** ** Merging: lemmas *)

(** The first node of a list with the given ID. *)
Definition first_with (id : string) (nodes : list NodeSpec) : option NodeSpec :=
  head (filter (λ n, spec_ID n = id) nodes).

Lemma first_with_cons id n nodes :
  first_with id (n :: nodes) = if decide (spec_ID n = id) then Some n else first_with id nodes.
Proof. unfold first_with. rewrite filter_cons. by case_decide. Qed.

Lemma first_with_is_Some id nodes : is_Some (first_with id nodes) ↔ id ∈ spec_ID <$> nodes.
Proof.
  induction nodes as [|n nodes IH].
  - unfold first_with. simpl. split; [by intros [? ?]|by intros ?%not_elem_of_nil].
  - rewrite first_with_cons, fmap_cons, elem_of_cons, <-IH. case_decide; naive_solver.
Qed.

Lemma first_with_Some id nodes n : first_with id nodes = Some n → n ∈ nodes ∧ spec_ID n = id.
Proof.
  intros Hh%head_Some_elem_of. by apply list_elem_of_filter in Hh as [? ?].
Qed.

Lemma contains_spec values wanted : contains values wanted = bool_decide (wanted ∈ values).
Proof.
  induction values as [|v values IH]; [done|]. simpl. rewrite IH.
  destruct (decide (v = wanted)) as [->|Hv]; [symmetry; apply bool_decide_eq_true; by left|].
  apply bool_decide_ext. rewrite elem_of_cons. naive_solver.
Qed.

Lemma sort_strings_singleton x : sort_strings [x] = [x].
Proof. apply Permutation_singleton_r. apply sort_strings_perm. Qed.

(** One source's contribution to the entry of an ID. *)
Definition merge_entry (sourceID : string) (old new : option NodeSpec) : option NodeSpec :=
  match old, new with
  | Some e, Some _ =>
      if decide (sourceID ∈ spec_SourceIDs e) then Some e
      else Some (set_SourceIDs (sort_strings (spec_SourceIDs e ++ [sourceID])) e)
  | Some e, None => Some e
  | None, Some n => Some (set_SourceIDs [sourceID] n)
  | None, None => None
  end.

Lemma merge_source_lookup merged sid nodes id :
  merge_source merged (sid, nodes) !! id = merge_entry sid (merged !! id) (first_with id nodes).
Proof.
  unfold merge_source. simpl. revert merged.
  induction nodes as [|n nodes IH]; intros merged.
  { simpl. by destruct (merged !! id). }
  simpl. rewrite IH. clear IH. rewrite first_with_cons. unfold merge_node.
  case_decide as Hid; [subst id|].
  - destruct (merged !! spec_ID n) as [e|] eqn:He.
    + simpl. rewrite contains_spec. case_bool_decide as Hin.
      * rewrite He, decide_True by done.
        destruct (first_with _ nodes); simpl; [by rewrite decide_True|done].
      * rewrite lookup_insert_eq, decide_False by done.
        destruct (first_with _ nodes); simpl; [|done].
        rewrite decide_True; [done|]. apply sort_strings_elem, elem_of_app. right. by left.
    + rewrite lookup_insert_eq. destruct (first_with _ nodes); simpl; [|done].
      by rewrite decide_True by (by left).
  - destruct (merged !! spec_ID n) as [e|]; [|by rewrite lookup_insert_ne by done].
    rewrite contains_spec. case_bool_decide; [done|]. by rewrite lookup_insert_ne by done.
Qed.

Definition holds (id : string) (nodes : list NodeSpec) : Prop := id ∈ spec_ID <$> nodes.
#[export] Instance holds_dec id nodes : Decision (holds id nodes).
Proof. unfold holds. apply _. Defined.

(** The sources that deliver a node, and the IDs of all nodes. *)
Definition holders (id : string) (bySource : gmap string (list NodeSpec)) : gset string :=
  dom (filter (λ kv, holds id kv.2) bySource).
Definition all_ids (bySource : gmap string (list NodeSpec)) : gset string :=
  list_to_set (map_to_list bySource ≫= λ kv, spec_ID <$> kv.2).

Lemma elem_of_holders id m s : s ∈ holders id m ↔ ∃ nodes, m !! s = Some nodes ∧ holds id nodes.
Proof.
  unfold holders. rewrite elem_of_dom. split.
  - intros [nodes [? ?]%map_lookup_filter_Some]. eauto.
  - intros (nodes & ? & ?). exists nodes. by apply map_lookup_filter_Some.
Qed.

Lemma elem_of_all_ids id m : id ∈ all_ids m ↔ ∃ s nodes, m !! s = Some nodes ∧ holds id nodes.
Proof.
  unfold all_ids. rewrite elem_of_list_to_set, list_elem_of_bind. split.
  - intros ([s nodes] & ? & ?%elem_of_map_to_list). eauto.
  - intros (s & nodes & ? & ?). exists (s, nodes). split; [done|]. by apply elem_of_map_to_list.
Qed.

Lemma set_SourceIDs_twice ids ids' n : set_SourceIDs ids (set_SourceIDs ids' n) = set_SourceIDs ids n.
Proof. done. Qed.

(** The merged map after some sources: each ID holds the first node met, with the
    sorted list of the sources that hold it. *)
Lemma merge_items_lookup (items : list (string * list NodeSpec)) id :
  NoDup items.*1 →
  foldl merge_source ∅ items !! id =
    set_SourceIDs (sort_strings (filter (λ kv, holds id kv.2) items).*1) <$>
      head (omap (λ kv, first_with id kv.2) items).
Proof.
  induction items as [|[s nodes] items IH] using rev_ind; intros Hnd; [done|].
  rewrite fmap_app in Hnd. apply NoDup_app in Hnd as (Hnd & Hnot & _).
  rewrite foldl_snoc, merge_source_lookup, IH by done. clear IH.
  rewrite omap_app, filter_app, fmap_app, filter_cons. simpl. unfold holds at 3.
  destruct (first_with id nodes) as [n|] eqn:Hfirst.
  - rewrite decide_True by (apply first_with_is_Some; by eexists). simpl.
    destruct (omap (λ kv, first_with id kv.2) items) as [|e rest] eqn:Hom; simpl.
    + assert (filter (λ kv, holds id kv.2) items = []) as ->; [|simpl; by rewrite sort_strings_singleton].
      apply elem_of_nil_inv. intros [s' nodes'] [Hh%first_with_is_Some Hin]%list_elem_of_filter.
      destruct Hh as [n' Hn'].
      assert (n' ∈ omap (λ kv, first_with id kv.2) items) as Hn; [|rewrite Hom in Hn; by apply not_elem_of_nil in Hn].
      apply list_elem_of_omap. by exists (s', nodes').
    + rewrite decide_False.
      * rewrite set_SourceIDs_twice. do 2 f_equal. apply sort_strings_proper.
        by rewrite sort_strings_perm.
      * rewrite sort_strings_elem. intros ([s' nodes'] & -> & [_ Hin]%list_elem_of_filter)%list_elem_of_fmap.
        destruct (Hnot s'); [|by left]. apply list_elem_of_fmap. by exists (s', nodes').
  - rewrite decide_False; [|intros []%first_with_is_Some; congruence].
    simpl. rewrite !(right_id_L [] (++)). by destruct (head _).
Qed.

Definition merged_map (o : RangeOrder) (m : gmap string (list NodeSpec)) : gmap string NodeSpec :=
  foldl merge_source ∅ (range_items o m).

Lemma merged_map_spec o m id :
  match merged_map o m !! id with
  | Some n => spec_ID n = id ∧ spec_SourceIDs n = sort_strings (elements (holders id m)) ∧
      ∃ s nodes n0, m !! s = Some nodes ∧ first_with id nodes = Some n0 ∧
        n = set_SourceIDs (spec_SourceIDs n) n0
  | None => id ∉ all_ids m
  end.
Proof.
  unfold merged_map. rewrite merge_items_lookup by apply range_keys_nodup.
  destruct (omap _ _) as [|n0 rest] eqn:Hom; simpl.
  - intros (s & nodes & Hs & [n Hn]%first_with_is_Some)%elem_of_all_ids.
    assert (n ∈ omap (λ kv, first_with id kv.2) (range_items o m)) as Hin;
      [|rewrite Hom in Hin; by apply not_elem_of_nil in Hin].
    apply list_elem_of_omap. exists (s, nodes). by rewrite elem_of_range.
  - assert (n0 ∈ omap (λ kv, first_with id kv.2) (range_items o m)) as Hin
      by (rewrite Hom; by left).
    apply list_elem_of_omap in Hin as ([s nodes] & Hin%elem_of_range & Hfirst).
    split_and!; [by eapply first_with_Some| |by eauto 10].
    apply sort_strings_proper, NoDup_Permutation.
    + eapply sublist_NoDup; [apply (range_keys_nodup o m)|].
      apply fmap_sublist, sublist_filter.
    + apply NoDup_elements.
    + intros s'. rewrite list_elem_of_fmap, elem_of_elements, elem_of_holders. split.
      * intros ([? nodes'] & -> & [? ?%elem_of_range]%list_elem_of_filter). eauto.
      * intros (nodes' & ? & ?). exists (s', nodes'). split; [done|].
        apply list_elem_of_filter. by rewrite elem_of_range.
Qed.

(** The sources agree on what a shared node is. *)
Definition sources_agree (m : gmap string (list NodeSpec)) : Prop :=
  ∀ s s' nodes nodes' id n n', m !! s = Some nodes → m !! s' = Some nodes' →
    first_with id nodes = Some n → first_with id nodes' = Some n' →
    set_SourceIDs [] n = set_SourceIDs [] n'.

Lemma merged_map_order o o' m : sources_agree m → merged_map o' m = merged_map o m.
Proof.
  intros Hagree. apply map_eq. intros id.
  pose proof (merged_map_spec o' m id) as H1. pose proof (merged_map_spec o m id) as H2.
  assert (∀ s nodes n, m !! s = Some nodes → first_with id nodes = Some n → id ∈ all_ids m) as Hin.
  { intros s nodes n ? ?. apply elem_of_all_ids. exists s, nodes. split; [done|].
    apply first_with_is_Some. by eexists. }
  destruct (merged_map o' m !! id) as [n1|], (merged_map o m !! id) as [n2|]; [|naive_solver..|done].
  destruct H1 as (_ & Hs1 & s1 & l1 & x1 & ? & ? & ->).
  destruct H2 as (_ & Hs2 & s2 & l2 & x2 & ? & ? & ->).
  rewrite Hs1, Hs2. f_equal.
  assert (set_SourceIDs [] x1 = set_SourceIDs [] x2) as Hx by eauto.
  destruct x1, x2. by simplify_eq/=.
Qed.

#[export] Instance by_ID_total : Total by_ID.
Proof. intros n n'. unfold by_ID. apply (total String.le). Qed.
#[export] Instance by_ID_trans : Transitive by_ID.
Proof. intros n n' n''. unfold by_ID. apply (transitivity (R := String.le)). Qed.

Lemma mergeSources_perm o m : mergeSources o m ≡ₚ (range_items o (merged_map o m)).*2.
Proof. apply merge_sort_Permutation. Qed.

Lemma elem_of_mergeSources o m n :
  n ∈ mergeSources o m ↔ merged_map o m !! spec_ID n = Some n.
Proof.
  rewrite mergeSources_perm, list_elem_of_fmap. split.
  - intros ([id n'] & -> & Hin%elem_of_range). simpl.
    pose proof (merged_map_spec o m id) as Hm. rewrite Hin in Hm.
    by destruct Hm as (-> & _).
  - intros Hn. exists (spec_ID n, n). by rewrite elem_of_range.
Qed.

Lemma mergeSources_origin o m n :
  n ∈ mergeSources o m →
  spec_SourceIDs n = sort_strings (elements (holders (spec_ID n) m)) ∧
  ∃ s nodes n0, m !! s = Some nodes ∧ first_with (spec_ID n) nodes = Some n0 ∧
    n = set_SourceIDs (spec_SourceIDs n) n0.
Proof.
  intros Hn%elem_of_mergeSources. pose proof (merged_map_spec o m (spec_ID n)) as Hm.
  rewrite Hn in Hm. by destruct Hm as (_ & ? & ?).
Qed.

Lemma mergeSources_ids o m :
  spec_ID <$> mergeSources o m = sort_strings (elements (all_ids m)).
Proof.
  apply sorted_strings_unique; [|apply sort_strings_sorted|].
  - apply (StronglySorted_fmap spec_ID by_ID); [done|].
    apply (StronglySorted_merge_sort by_ID).
  - rewrite sort_strings_perm, mergeSources_perm, <-list_fmap_compose.
    assert ((spec_ID ∘ snd) <$> range_items o (merged_map o m) = range_keys o (merged_map o m)) as ->.
    { unfold range_keys. apply list_fmap_ext. intros i [id n] Hi%list_elem_of_lookup_2.
      simpl. apply elem_of_range in Hi. pose proof (merged_map_spec o m id) as Hm.
      rewrite Hi in Hm. by destruct Hm. }
    rewrite range_keys_perm. apply NoDup_Permutation; [apply NoDup_elements..|].
    intros id. rewrite !elem_of_elements, elem_of_dom.
    pose proof (merged_map_spec o m id) as Hm.
    destruct (merged_map o m !! id) as [n|].
    + destruct Hm as (_ & _ & s & nodes & n0 & Hs & Hn & _). split; [intros _|by eexists].
      apply elem_of_all_ids. exists s, nodes. split; [done|].
      apply first_with_is_Some. by eexists.
    + split; [by intros [? ?]|done].
Qed.

(** ** Refreshing: lemmas *)

Lemma cloneSnapshot_id o snap : cloneSnapshot o snap = snap.
Proof.
  destruct snap as [e n s]. unfold cloneSnapshot. simpl.
  rewrite !range_store_union, !(right_id_L ∅ (∪)). f_equal.
  rewrite <-(list_fmap_id n) at 2. apply list_fmap_ext. by intros ? [].
Qed.

Section refresh.
Context {W : Type} `{Parser} (fetcher : Fetcher W).

(** The fetches of one refresh, in order. *)
Fixpoint fetch_all (sources : list Source) (w : W)
    : W * list (GoError + (string * string * Z)) :=
  match sources with
  | [] => (w, [])
  | source :: rest =>
      let '(w1, r) := fetch_source fetcher source w in
      let '(w2, rs) := fetch_all rest w1 in
      (w2, r :: rs)
  end.

(** What the manager makes of the fetch of one source: its new nodes, its error
    text, the expiry it reports. *)
Definition outcome_nodes (id : string) (r : GoError + (string * string * Z))
    : option (list NodeSpec) :=
  match r with
  | inr (body, hint, _) =>
      match Parse body hint with
      | inr (n :: rest) => Some (set_SourceIDs [id] <$> (n :: rest))
      | _ => None
      end
  | inl _ => None
  end.
Definition outcome_error (r : GoError + (string * string * Z)) : option string :=
  match r with
  | inl err => Some (Error err)
  | inr (body, hint, _) =>
      match Parse body hint with
      | inl err => Some (Error err)
      | inr [] => Some "subscription contains no proxy nodes"
      | inr _ => None
      end
  end.
Definition outcome_expiry (r : GoError + (string * string * Z)) : option Z :=
  match r with inr (_, _, expiry) => Some expiry | inl _ => None end.

Lemma outcome_error_nodes id r : outcome_error r = None ↔ is_Some (outcome_nodes id r).
Proof.
  unfold outcome_error, outcome_nodes. split.
  - destruct r as [|[[??]?]]; [done|]. destruct (Parse _ _) as [|[|]]; [done..|]. by eexists.
  - intros [? Hn]. destruct r as [|[[??]?]]; [done|]. by destruct (Parse _ _) as [|[|]].
Qed.

Lemma fetch_all_length sources w : length (fetch_all sources w).2 = length sources.
Proof.
  revert w. induction sources as [|s sources IH]; intros w; simpl; [done|].
  destruct (fetch_source fetcher s w) as [w1 r]. specialize (IH w1).
  destruct (fetch_all sources w1). simpl in *. by rewrite IH.
Qed.

Lemma refresh_result_eq source r acc :
  let id := source_ID source in
  refresh_result source r acc = mkRefreshAcc
    (partial_alter (λ old, outcome_error r ∪ old) id (ra_sourceErrors acc))
    (partial_alter (λ old, outcome_nodes id r ∪ old) id (ra_updates acc))
    (partial_alter (λ old, outcome_expiry r ∪ old) id (ra_expiries acc)).
Proof.
  assert (∀ A (m : gmap string A) i, partial_alter (λ old, None ∪ old) i m = m) as Hnone.
  { intros A m i. rewrite <-(partial_alter_self m i) at 2. apply partial_alter_ext.
    intros x <-. by rewrite (left_id_L None (∪)). }
  assert (∀ A (m : gmap string A) i v, partial_alter (λ old, Some v ∪ old) i m = <[i := v]> m)
    as Hsome.
  { intros A m i v. apply partial_alter_ext. by intros [|]. }
  unfold refresh_result, outcome_error, outcome_nodes, outcome_expiry.
  destruct r as [err|[[body hint] expiry]]; [|destruct (Parse body hint) as [err|[|n rest]]];
    by rewrite ?Hnone, ?Hsome.
Qed.

(** The loop is the fetches, then the results applied in order. *)
Lemma refresh_loop_eq sources w acc :
  let '(w', rs) := fetch_all sources w in
  refresh_loop fetcher sources w acc =
    (w', foldl (λ acc sr, refresh_result sr.1 sr.2 acc) acc (zip sources rs)).
Proof.
  revert w acc. induction sources as [|s sources IH]; intros w acc; simpl; [done|].
  destruct (fetch_source fetcher s w) as [w1 r].
  specialize (IH w1 (refresh_result s r acc)).
  by destruct (fetch_all sources w1) as [w2 rs].
Qed.

Lemma refresh_fold_other id (results : list (Source * (GoError + (string * string * Z)))) acc :
  id ∉ source_ID <$> results.*1 →
  let acc' := foldl (λ acc sr, refresh_result sr.1 sr.2 acc) acc results in
  ra_sourceErrors acc' !! id = ra_sourceErrors acc !! id ∧
  ra_updates acc' !! id = ra_updates acc !! id ∧
  ra_expiries acc' !! id = ra_expiries acc !! id.
Proof.
  revert acc. induction results as [|[s r] results IH]; intros acc Hid; [done|].
  rewrite !fmap_cons, not_elem_of_cons in Hid. destruct Hid as [Hne Hid]. simpl in *.
  destruct (IH (refresh_result s r acc) Hid) as (-> & -> & ->).
  rewrite refresh_result_eq. simpl. by rewrite !lookup_partial_alter_ne by done.
Qed.

Lemma refresh_fold_spec (results : list (Source * (GoError + (string * string * Z)))) acc s r :
  NoDup (source_ID <$> results.*1) → (s, r) ∈ results →
  let acc' := foldl (λ acc sr, refresh_result sr.1 sr.2 acc) acc results in
  let id := source_ID s in
  ra_sourceErrors acc' !! id = outcome_error r ∪ ra_sourceErrors acc !! id ∧
  ra_updates acc' !! id = outcome_nodes id r ∪ ra_updates acc !! id ∧
  ra_expiries acc' !! id = outcome_expiry r ∪ ra_expiries acc !! id.
Proof.
  revert acc. induction results as [|[s' r'] results IH]; intros acc Hnd Hin;
    [by apply not_elem_of_nil in Hin|].
  rewrite !fmap_cons, NoDup_cons in Hnd. destruct Hnd as [Hnot Hnd]. simpl in *.
  apply elem_of_cons in Hin as [?|Hin]; simplify_eq.
  - destruct (refresh_fold_other (source_ID s') results (refresh_result s' r' acc) Hnot)
      as (-> & -> & ->).
    rewrite refresh_result_eq. simpl. by rewrite !lookup_partial_alter_eq.
  - destruct (IH (refresh_result s' r' acc) Hnd Hin) as (-> & -> & ->).
    assert (source_ID s' ≠ source_ID s) as Hne.
    { intros Heq. apply Hnot. rewrite Heq. apply list_elem_of_fmap. exists s. split; [done|].
      apply list_elem_of_fmap. by exists (s, r). }
    rewrite refresh_result_eq. simpl. by rewrite !lookup_partial_alter_ne by done.
Qed.
End refresh.

Section seed_lemmas.
Context `{Parser, SeedCodec}.

Lemma seed_sources_lookup sources h id :
  seed_sources sources !! h = Some id →
  ∃ s, s ∈ sources ∧ sha256_hex (source_URL s) = h ∧ source_ID s = id.
Proof.
  unfold seed_sources. induction sources as [|s sources IH] using rev_ind; [done|].
  rewrite foldl_snoc. intros [[<- <-]|[_ Hin]]%lookup_insert_Some.
  - exists s. rewrite elem_of_app, list_elem_of_singleton. auto.
  - destruct (IH Hin) as (s' & ? & ?). exists s'. rewrite elem_of_app. auto.
Qed.

(** What a seed entry installs. *)
Definition entry_installed (sources : gmap string string) (nodes : gmap string (list NodeSpec))
    (expiries : gmap string Z) (e : Seed) : Prop :=
  ∃ id parsed, sources !! seed_SourceSHA256 e = Some id ∧
    Parse (seed_Body e) (seed_Hint e) = inr parsed ∧ parsed ≠ [] ∧
    nodes !! id = Some (set_SourceIDs [id] <$> parsed) ∧ expiries !! id = Some (seed_ExpiresAt e).

Lemma seed_entries_spec sources entries nodes expiries nodes' expiries' :
  seed_entries sources entries nodes expiries = inr (nodes', expiries') →
  nodes ⊆ nodes' ∧ (dom expiries = dom nodes → dom expiries' = dom nodes' ∧
    expiries ⊆ expiries') ∧
  (dom expiries = dom nodes → ∀ e, e ∈ entries → entry_installed sources nodes' expiries' e) ∧
  (∀ id, is_Some (nodes' !! id) → is_Some (nodes !! id) ∨
     ∃ e, e ∈ entries ∧ sources !! seed_SourceSHA256 e = Some id) ∧
  size nodes' = size nodes + length entries.
Proof.
  revert nodes expiries. induction entries as [|e entries IH]; intros nodes expiries Hs; simpl in Hs.
  { simplify_eq. split_and!; [done|done|by intros _ ? ?%not_elem_of_nil|by left|simpl; lia]. }
  destruct (sources !! _) as [id|] eqn:Hid; [|done].
  destruct (nodes !! id) eqn:Hfresh; [done|].
  destruct (Parse _ _) as [|[|n rest]] eqn:Hparse; [done..|].
  destruct (IH _ _ Hs) as (Hsub & Hexp & Hall & Hkeys & Hsize). clear IH.
  assert (dom expiries = dom nodes →
    dom (<[id := seed_ExpiresAt e]> expiries) =
    dom (<[id := set_SourceIDs [id] <$> n :: rest]> nodes) ∧
    expiries ⊆ <[id := seed_ExpiresAt e]> expiries) as Hdom.
  { intros Hd. split; [by rewrite !dom_insert_L, Hd|]. apply insert_subseteq.
    apply not_elem_of_dom. rewrite Hd. by apply not_elem_of_dom. }
  split_and!.
  - etrans; [|done]. by apply insert_subseteq.
  - intros Hd. destruct (Hdom Hd) as [Hd' Hs']. destruct (Hexp Hd') as [??].
    split; [done|]. by etrans.
  - intros Hd. destruct (Hdom Hd) as [Hd' Hs']. destruct (Hexp Hd') as [_ Hsub'].
    intros e' [->|Hin]%elem_of_cons; [|by apply Hall].
    exists id, (n :: rest). split_and!; [done..| |].
    + eapply lookup_weaken; [|done]. apply lookup_insert_eq.
    + eapply lookup_weaken; [|done]. apply lookup_insert_eq.
  - intros id' Hid'. destruct (Hkeys id' Hid') as [[x Hx]|(e' & ? & ?)].
    + apply lookup_insert_Some in Hx as [[<- _]|[_ ?]]; [right|left; by eexists].
      exists e. split; [by left|done].
    + right. exists e'. split; [by right|done].
  - rewrite Hsize, map_size_insert_None by done. simpl. lia.
Qed.

Lemma substring_whole (n m : nat) (s : string) :
  String.length (String.substring n m s) < m → n = 0 → String.substring n m s = s.
Proof.
  intros Hlt ->. revert m Hlt. induction s as [|a s IH]; intros [|m] Hlt; simpl in *; [lia|done|lia|].
  f_equal. apply IH. lia.
Qed.

(** Storing the expiry of every seeded source is a union. *)
Lemma store_expiries o (nodes : gmap string (list NodeSpec)) (expiries dst : gmap string Z) :
  dom expiries = dom nodes →
  foldl (λ dst kv, <[kv.1 := default 0%Z (expiries !! kv.1)]> dst) dst (range_items o nodes) =
    expiries ∪ dst.
Proof.
  intros Hdom.
  set (items := (λ kv : string * list NodeSpec, (kv.1, default 0%Z (expiries !! kv.1))) <$>
    range_items o nodes).
  transitivity (foldl (λ dst kv, <[kv.1 := kv.2]> dst) dst items).
  { unfold items. generalize dst, (range_items o nodes). clear. intros dst l. revert dst.
    induction l as [|kv l IH]; intros dst; [done|]. apply IH. }
  assert (items.*1 = range_keys o nodes) as Hkeys
    by (unfold items; by rewrite <-list_fmap_compose).
  assert (NoDup items.*1) as Hnd by (rewrite Hkeys; apply range_keys_nodup).
  rewrite foldl_insert_union by done. f_equal. apply map_eq. intros id.
  destruct (expiries !! id) as [x|] eqn:Hid.
  - apply elem_of_list_to_map; [done|]. unfold items. apply list_elem_of_fmap.
    assert (is_Some (nodes !! id)) as [n Hn] by (apply elem_of_dom; rewrite <-Hdom; by apply elem_of_dom_2 in Hid).
    exists (id, n). simpl. by rewrite Hid, elem_of_range.
  - apply not_elem_of_list_to_map. rewrite Hkeys, elem_of_range_keys, <-elem_of_dom, <-Hdom.
    by apply not_elem_of_dom.
Qed.
End seed_lemmas.

(** ** Theorems *)

Inductive MgrEvent :=
  | MvRefresh (o : RangeOrder)
  | MvLoadSeed (o : RangeOrder) (file : FileView) (maxBytes : Z).

Section theorems.
Context {W : Type} `{Parser, SeedCodec} (fetcher : Fetcher W).

Definition mgr_step (e : MgrEvent) (mw : Manager * W) : Manager * W :=
  match e with
  | MvRefresh o => let '(m', w', _) := Refresh fetcher o mw.1 mw.2 in (m', w')
  | MvLoadSeed o file maxBytes => ((LoadSeed o file maxBytes mw.1).1, mw.2)
  end.

Definition mgr_run (evs : list MgrEvent) (mw : Manager * W) : Manager * W :=
  foldl (λ mw e, mgr_step e mw) mw evs.

(** C28: the merged list is a set of nodes: its IDs are exactly those any
    source delivers, strictly sorted, once each; each node lists exactly the
    sources that deliver it, sorted, and is otherwise the first node with its ID
    of one of them. Where the sources agree on the content of a shared node, the
    order in which Go visits the map does not matter. *)
Theorem merge_sources_exact (o : RangeOrder) (m : gmap string (list NodeSpec)) :
  (spec_ID <$> mergeSources o m) = sort_strings (elements (all_ids m)) ∧
  (∀ n, n ∈ mergeSources o m →
     spec_SourceIDs n = sort_strings (elements (holders (spec_ID n) m)) ∧
     ∃ s nodes n0, m !! s = Some nodes ∧ first_with (spec_ID n) nodes = Some n0 ∧
       n = set_SourceIDs (spec_SourceIDs n) n0) ∧
  (sources_agree m → ∀ o', mergeSources o' m = mergeSources o m).
Proof.
  split_and!.
  - apply mergeSources_ids.
  - apply mergeSources_origin.
  - intros Hagree o'.
    apply (StronglySorted_unique_strong by_ID);
      [|apply (StronglySorted_merge_sort by_ID)..|].
    + intros n n' Hn%elem_of_mergeSources Hn'%elem_of_mergeSources Hle Hle'.
      assert (spec_ID n = spec_ID n') as Hid by (by apply (anti_symm String.le)).
      rewrite Hid, (merged_map_order o o') in Hn by done. congruence.
    + rewrite !mergeSources_perm, (merged_map_order o o'), !range_perm by done. done.
Qed.

Lemma refresh_parts o (m : Manager) w :
  let '(w', rs) := fetch_all fetcher (mg_sources m) w in
  let acc := foldl (λ acc sr, refresh_result sr.1 sr.2 acc) (mkRefreshAcc ∅ ∅ ∅)
    (zip (mg_sources m) rs) in
  let expiresAt := ra_expiries acc ∪ mg_expiresAt m in
  let bySource := ra_updates acc ∪ mg_bySource m in
  let last := mkSnapshot expiresAt (mergeSources o bySource) (ra_sourceErrors acc) in
  Refresh fetcher o m w = (mkManager (mg_sources m) bySource last expiresAt, w', (last,
    if decide (ra_sourceErrors acc = ∅) then None
    else Some (ErrNew ("subscription refresh failed for source(s): " +:+
           Join (sort_strings (elements (dom (ra_sourceErrors acc)))) ",")))).
Proof.
  pose proof (refresh_loop_eq fetcher (mg_sources m) w (mkRefreshAcc ∅ ∅ ∅)) as Hloop.
  unfold Refresh. destruct (fetch_all _ _ _) as [w' rs]. simpl in *. rewrite Hloop.
  set (acc := foldl _ _ _). rewrite !range_store_union, cloneSnapshot_id.
  rewrite (sort_strings_proper _ _ (range_keys_perm o (ra_sourceErrors acc))).
  destruct (decide (ra_sourceErrors acc = ∅)) as [He|He].
  - by rewrite decide_False by (rewrite He, map_size_empty; lia).
  - rewrite decide_True; [done|]. apply map_size_non_empty_iff in He. lia.
Qed.

(** C12: one refresh, source by source. A source that was fetched and
    parsed to at least one node replaces its previous nodes; any other source
    keeps them and gets its own error text; the expiry of every source whose
    fetch worked is recorded, even when its body then fails to parse; the result
    is the merge of what is now held, it is what [Snapshot] returns from then on,
    and it comes with an error exactly when some source failed, naming the failed
    sources in order. *)
Theorem refresh_source_by_source (o : RangeOrder) (m : Manager) (w : W) :
  NoDup (source_ID <$> mg_sources m) →
  let '(w1, rs) := fetch_all fetcher (mg_sources m) w in
  let '(m', w2, (snap, err)) := Refresh fetcher o m w in
  w2 = w1 ∧ mg_sources m' = mg_sources m ∧ (∀ o', manager_Snapshot o' m' = snap) ∧
  snap_Nodes snap = mergeSources o (mg_bySource m') ∧ snap_ExpiresAt snap = mg_expiresAt m' ∧
  (∀ i s r, mg_sources m !! i = Some s → rs !! i = Some r →
     snap_SourceErrors snap !! source_ID s = outcome_error r ∧
     mg_bySource m' !! source_ID s =
       outcome_nodes (source_ID s) r ∪ mg_bySource m !! source_ID s ∧
     mg_expiresAt m' !! source_ID s = outcome_expiry r ∪ mg_expiresAt m !! source_ID s) ∧
  (∀ id, id ∉ source_ID <$> mg_sources m →
     snap_SourceErrors snap !! id = None ∧ mg_bySource m' !! id = mg_bySource m !! id ∧
     mg_expiresAt m' !! id = mg_expiresAt m !! id) ∧
  err = (if decide (snap_SourceErrors snap = ∅) then None
         else Some (ErrNew ("subscription refresh failed for source(s): " +:+
           Join (sort_strings (elements (dom (snap_SourceErrors snap)))) ","))).
Proof.
  intros Hnd. pose proof (refresh_parts o m w) as Hr.
  pose proof (fetch_all_length fetcher (mg_sources m) w) as Hlen.
  destruct (fetch_all _ _ _) as [w1 rs]. simpl in *. rewrite Hr. clear Hr.
  set (acc := foldl _ _ _).
  assert ((zip (mg_sources m) rs).*1 = mg_sources m) as Hfst by (apply fst_zip; lia).
  split_and!; try done.
  - intros o'. apply cloneSnapshot_id.
  - intros i s r Hs Hi. simpl.
    destruct (refresh_fold_spec (zip (mg_sources m) rs) (mkRefreshAcc ∅ ∅ ∅) s r)
      as (He & Hn & Hx); [by rewrite Hfst| |].
    { apply list_elem_of_lookup. exists i. by rewrite lookup_zip_with, Hs, Hi. }
    fold acc in He, Hn, Hx. simpl in He, Hn, Hx. rewrite !lookup_union, He, Hn, Hx.
    by rewrite !lookup_empty, !(right_id_L None (∪)).
  - intros id Hid. simpl.
    destruct (refresh_fold_other id (zip (mg_sources m) rs) (mkRefreshAcc ∅ ∅ ∅))
      as (He & Hn & Hx); [by rewrite Hfst|].
    fold acc in He, Hn, Hx. simpl in He, Hn, Hx. rewrite !lookup_union, He, Hn, Hx.
    by rewrite !lookup_empty, !(left_id_L None (∪)).
Qed.

(** C40: loading a seed is all or nothing. On an error the manager is as it
    was; on success the file was private and regular, was read whole within the
    limit, and each of its entries matched a configured source by the hash of the
    URL and installed its nodes and expiry there; the entries went to distinct
    sources, no other source changed, and the snapshot is their merge. *)
Theorem load_seed_all_or_nothing (o : RangeOrder) (file : FileView) (maxBytes : Z)
    (m m' : Manager) (err : option GoError) :
  (maxBytes < 2 ^ 63 - 1)%Z → LoadSeed o file maxBytes m = (m', err) →
  match err with
  | Some _ => m' = m
  | None => ∃ perm entries,
      fv_stat file = Some (true, perm) ∧ Z.land perm 7 = 0%Z ∧ fv_open file = true ∧
      (Z.of_nat (String.length (fv_content file)) ≤ maxBytes)%Z ∧
      unmarshal_seeds (fv_content file) = Some entries ∧
      1 ≤ length entries ≤ length (mg_sources m) ∧
      (∀ e, e ∈ entries → ∃ s parsed, s ∈ mg_sources m ∧
         sha256_hex (source_URL s) = seed_SourceSHA256 e ∧
         Parse (seed_Body e) (seed_Hint e) = inr parsed ∧ parsed ≠ [] ∧
         mg_bySource m' !! source_ID s = Some (set_SourceIDs [source_ID s] <$> parsed) ∧
         mg_expiresAt m' !! source_ID s = Some (seed_ExpiresAt e)) ∧
      (∃ changed : gset string, size changed = length entries ∧ ∀ id, id ∉ changed →
         mg_bySource m' !! id = mg_bySource m !! id ∧
         mg_expiresAt m' !! id = mg_expiresAt m !! id) ∧
      mg_sources m' = mg_sources m ∧
      mg_last m' = mkSnapshot (mg_expiresAt m') (mergeSources o (mg_bySource m')) ∅
  end.
Proof.
  intros Hmax. unfold LoadSeed.
  destruct (Z.leb_spec maxBytes 0) as [|Hpos]; [by intros; simplify_eq|].
  destruct (fv_stat file) as [[regular perm]|]; [|by intros; simplify_eq/=].
  destruct (negb regular || _) eqn:Hpriv; [by intros; simplify_eq|].
  destruct (fv_open file); [|by intros; simplify_eq/=]. simpl.
  destruct (read_limited _ _) as [b|] eqn:Hread; [|by intros; simplify_eq/=].
  destruct (Z.ltb_spec maxBytes (Z.of_nat (String.length b))) as [|Hlen]; [by intros; simplify_eq|].
  destruct (unmarshal_seeds b) as [entries|] eqn:Hjson; [|by intros; simplify_eq/=].
  case_decide as Hcount; [by intros; simplify_eq|].
  destruct (seed_entries _ _ _ _) as [|[nodes expiries]] eqn:Hseed; intros; simplify_eq; [done|].
  apply orb_false_iff in Hpriv as [Hreg%negb_false_iff Hperm%negb_false_iff].
  apply Z.eqb_eq in Hperm. subst regular. exists perm, entries.
  destruct (seed_entries_spec _ _ _ _ _ _ Hseed) as (_ & Hdom & Hall & _ & Hsize).
  destruct Hdom as [Hdom _]; [by rewrite !dom_empty_L|].
  specialize (Hall ltac:(by rewrite !dom_empty_L)).
  assert (fv_content file = b) as ->.
  { unfold read_limited in Hread. destruct (fv_readable file); simplify_eq.
    rewrite wrap_int64_small in Hlen by lia. rewrite wrap_int64_small by lia.
    symmetry. apply substring_whole; [lia|done]. }
  rewrite store_expiries by done.
  split_and!; simpl; try done; try lia.
  - intros e (id & parsed & Hs & Hp & Hne & Hn & Hx)%Hall.
    apply seed_sources_lookup in Hs as (s & ? & ? & <-). exists s, parsed.
    rewrite range_store_union, !lookup_union, Hn, Hx.
    split_and!; try done.
    + apply union_Some_l.
    + apply union_Some_l.
  - exists (dom nodes). rewrite size_dom, Hsize, map_size_empty. split; [done|].
    intros id Hid. rewrite range_store_union, !lookup_union.
    rewrite (not_elem_of_dom_1 nodes), (not_elem_of_dom_1 expiries) by congruence.
    by rewrite !(left_id_L None (∪)).
Qed.

(** What every history keeps: the snapshot is the merge of what is held, and
    what is held for a source is a nonempty list of nodes of a configured source,
    parsed from some text and stamped with it. *)
Definition held_ok (sources : list Source) (s : string) (nodes : list NodeSpec) : Prop :=
  nodes ≠ [] ∧ s ∈ source_ID <$> sources ∧ (∀ n, n ∈ nodes → spec_SourceIDs n = [s]) ∧
  ∃ body hint parsed, Parse body hint = inr parsed ∧ nodes = set_SourceIDs [s] <$> parsed.

Record mgr_ok (m : Manager) : Prop := {
  mo_last : ∃ o, snap_Nodes (mg_last m) = mergeSources o (mg_bySource m);
  mo_expires : snap_ExpiresAt (mg_last m) = mg_expiresAt m;
  mo_held : ∀ s nodes, mg_bySource m !! s = Some nodes → held_ok (mg_sources m) s nodes;
}.

Lemma new_manager_ok sources : mgr_ok (NewManager sources).
Proof. split; [by exists canonical_order|done|done]. Qed.

Lemma stamped_ok sources s body hint parsed :
  parsed ≠ [] → s ∈ source_ID <$> sources → Parse body hint = inr parsed →
  held_ok sources s (set_SourceIDs [s] <$> parsed).
Proof.
  intros Hne Hs Hp. split_and!; [by destruct parsed|done| |by eauto].
  by intros n (n' & -> & _)%list_elem_of_fmap.
Qed.

Lemma refresh_updates_ok all (results : list (Source * (GoError + (string * string * Z)))) acc :
  (∀ sr, sr ∈ results → sr.1 ∈ all) →
  (∀ s nodes, ra_updates acc !! s = Some nodes → held_ok all s nodes) →
  ∀ s nodes, ra_updates (foldl (λ acc sr, refresh_result sr.1 sr.2 acc) acc results) !! s =
    Some nodes → held_ok all s nodes.
Proof.
  revert acc. induction results as [|[s r] results IH]; intros acc Hall Hacc; [done|].
  simpl. apply IH; [intros sr ?; apply Hall; by right|].
  intros id nodes. rewrite refresh_result_eq. simpl.
  destruct (decide (source_ID s = id)) as [<-|Hne];
    [rewrite lookup_partial_alter_eq|rewrite lookup_partial_alter_ne by done; apply Hacc].
  destruct (outcome_nodes (source_ID s) r) as [nodes'|] eqn:Hout;
    [|rewrite (left_id_L None (∪)); apply Hacc].
  rewrite union_Some_l. intros ?; simplify_eq. unfold outcome_nodes in Hout.
  destruct r as [|[[body hint] expiry]]; [done|].
  destruct (Parse body hint) as [|[|n rest]] eqn:Hp; [done..|]. simplify_eq.
  apply (stamped_ok _ _ body hint (n :: rest)); [done| |done].
  apply list_elem_of_fmap. exists s. split; [done|].
  apply (Hall (s, inr (body, hint, expiry))). by left.
Qed.

(** The shape of a step: the held lists are overridden by good ones. *)
Lemma mgr_step_shape e mw :
  let m := mw.1 in let m' := (mgr_step e mw).1 in
  mg_sources m' = mg_sources m ∧
  (m' = m ∨ (∃ o, snap_Nodes (mg_last m') = mergeSources o (mg_bySource m')) ∧
    snap_ExpiresAt (mg_last m') = mg_expiresAt m') ∧
  ∃ updates, mg_bySource m' = updates ∪ mg_bySource m ∧
    ∀ s nodes, updates !! s = Some nodes → held_ok (mg_sources m) s nodes.
Proof.
  destruct mw as [m w]. destruct e as [o|o file maxBytes]; simpl.
  - pose proof (refresh_parts o m w) as Hr.
    destruct (fetch_all fetcher (mg_sources m) w) as [w1 rs]. rewrite Hr. simpl.
    split_and!; [done|right; by eauto|]. eexists. split; [done|].
    apply refresh_updates_ok; [|done]. intros [s r] Hin%elem_of_zip_l. done.
  - unfold LoadSeed. repeat case_match; simpl;
      try (split_and!; [done|by left|]; exists ∅; split; [by rewrite (left_id_L ∅ (∪))|done]).
    split_and!; [done|right; by eauto|]. eexists. split; [apply range_store_union|].
    match goal with Hs : seed_entries _ _ _ _ = _ |- _ =>
      destruct (seed_entries_spec _ _ _ _ _ _ Hs) as (_ & _ & Hall & Hkeys & _) end.
    specialize (Hall ltac:(by rewrite !dom_empty_L)). intros sid nodes Hnodes.
    destruct (Hkeys sid ltac:(by eexists)) as [[? ?]|(e & He & Hid)]; [done|].
    destruct (Hall e He) as (id & parsed & Hid' & Hp & Hne & Hn & _).
    assert (id = sid) as -> by congruence. rewrite Hn in Hnodes. simplify_eq.
    eapply stamped_ok; [done| |exact Hp]. apply seed_sources_lookup in Hid as (src & ? & _ & <-).
    apply list_elem_of_fmap. by exists src.
Qed.

Lemma mgr_step_ok e mw : mgr_ok mw.1 → mgr_ok (mgr_step e mw).1.
Proof.
  intros [Hlast Hexp Hheld].
  destruct (mgr_step_shape e mw) as (Hsrc & Hkeep & updates & Hby & Hup). split.
  - by destruct Hkeep as [->|[? _]].
  - by destruct Hkeep as [->|[_ ?]].
  - intros s nodes. rewrite Hby, Hsrc.
    intros [?|[_ ?]]%lookup_union_Some_raw; [by apply Hup|by apply Hheld].
Qed.

Lemma mgr_run_ok evs mw : mgr_ok mw.1 → mgr_ok (mgr_run evs mw).1.
Proof.
  revert mw. induction evs as [|e evs IH]; intros mw Hok; [done|]. by apply IH, mgr_step_ok.
Qed.

Lemma mgr_run_sources evs mw : mg_sources (mgr_run evs mw).1 = mg_sources mw.1.
Proof.
  revert mw. induction evs as [|e evs IH]; intros mw; [done|]. simpl. rewrite IH.
  by destruct (mgr_step_shape e mw) as [-> _].
Qed.

Lemma mgr_run_keeps evs mw s :
  is_Some (mg_bySource mw.1 !! s) → is_Some (mg_bySource (mgr_run evs mw).1 !! s).
Proof.
  revert mw. induction evs as [|e evs IH]; intros mw Hs; [done|]. apply IH.
  destruct (mgr_step_shape e mw) as (_ & _ & updates & -> & _).
  destruct Hs as [nodes Hs]. destruct (updates !! s) as [n|] eqn:Hu.
  - exists n. by apply lookup_union_Some_l.
  - exists nodes. by rewrite lookup_union_r.
Qed.

(** C18: the last known good nodes never vanish. After any history of
    refreshes and seeds, whatever failed in it, a source that ever delivered
    nodes still has a node in the snapshot, every node of the snapshot comes
    from configured sources only, and the snapshot is the merge of the nonempty
    lists the manager holds. *)
Theorem sources_never_vanish (sources : list Source) (w : W) (evs evs' : list MgrEvent) :
  let m1 := (mgr_run evs (NewManager sources, w)).1 in
  let m2 := (mgr_run (evs ++ evs') (NewManager sources, w)).1 in
  (∀ s, is_Some (mg_bySource m1 !! s) →
     ∃ n, n ∈ snap_Nodes (mg_last m2) ∧ s ∈ spec_SourceIDs n) ∧
  (∀ n, n ∈ snap_Nodes (mg_last m2) → spec_SourceIDs n ≠ [] ∧
     ∀ s, s ∈ spec_SourceIDs n → s ∈ source_ID <$> sources) ∧
  (∃ o, snap_Nodes (mg_last m2) = mergeSources o (mg_bySource m2)) ∧
  snap_ExpiresAt (mg_last m2) = mg_expiresAt m2 ∧
  (∀ s nodes, mg_bySource m2 !! s = Some nodes → nodes ≠ []).
Proof.
  intros m1 m2.
  assert (mg_sources m2 = sources) as Hsrc by apply mgr_run_sources.
  destruct (mgr_run_ok (evs ++ evs') (NewManager sources, w) (new_manager_ok sources))
    as [[o Hlast] Hexp Hheld]. fold m2 in Hlast, Hexp, Hheld.
  rewrite Hlast. rewrite Hsrc in Hheld. split_and!; [| |by eauto|done|naive_solver].
  - intros s Hs.
    assert (is_Some (mg_bySource m2 !! s)) as [nodes Hn].
    { unfold m2, mgr_run. rewrite foldl_app. by apply mgr_run_keeps. }
    destruct (Hheld _ _ Hn) as (Hne & _). destruct nodes as [|n rest]; [done|].
    pose proof (merged_map_spec o (mg_bySource m2) (spec_ID n)) as Hm.
    assert (holds (spec_ID n) (n :: rest)) as Hh by by left.
    destruct (merged_map _ _ !! _) as [n'|] eqn:Hn'.
    + destruct Hm as (Hid & Hs' & _). exists n'. rewrite elem_of_mergeSources, Hid. split; [done|].
      rewrite Hs', sort_strings_elem, elem_of_elements, elem_of_holders. eauto.
    + destruct Hm. apply elem_of_all_ids. eauto.
  - intros n Hn%elem_of_mergeSources.
    pose proof (merged_map_spec o (mg_bySource m2) (spec_ID n)) as Hm. rewrite Hn in Hm.
    destruct Hm as (_ & Hs' & s & nodes & n0 & Hs & Hn0 & _). split.
    + intros Hnil. apply (not_elem_of_nil s). rewrite <-Hnil, Hs', sort_strings_elem,
        elem_of_elements, elem_of_holders. exists nodes. split; [done|].
      apply first_with_is_Some. by eexists.
    + intros s'. rewrite Hs', sort_strings_elem, elem_of_elements, elem_of_holders.
      intros (nodes' & Hs1 & _). by destruct (Hheld _ _ Hs1) as (_ & ? & _).
Qed.
End theorems.
