(* ===== verification/JsonValue.v ===== *)
(** * Go's [any] as encoding/json and yaml.v3 fill it, and [json.Marshal].

    A decoded document is a tree of dynamic values. [json.Marshal] is modelled in
    full but for the texts of floating-point numbers and of the values only yaml.v3
    yields, which are parameters. *)
From stdpp Require Import gmap strings list sorting fin_maps pretty.
From Stdlib Require Import Ascii SpecFloat.
From S2P Require Import Prelude.
From S2P Require Import GoStrings.
From S2P Require Import GoHash.
From stdpp Require Import options.

(** [nil], [bool], [int] and [int64], [float64], [string], [[]any] and
    [map[string]any]; [VOther] is what else yaml.v3 yields (a [uint64], a
    [time.Time], a [map[any]any]), named by some text. *)
Inductive Value :=
  | VNil
  | VBool (b : bool)
  | VInt (n : Z)
  | VFloat (f : spec_float)
  | VString (s : string)
  | VArr (l : list Value)
  | VMap (m : gmap string Value)
  | VOther (text : string).

Abbreviation GoMap := (gmap string Value) (only parsing).

(** ** Induction over values *)

(** The number of values in a tree, the root included, and the number of edges on
    its longest path. *)
Fixpoint value_size (v : Value) : nat :=
  S match v with
    | VArr l => foldr (λ x n, value_size x + n) 0 l
    | VMap m => map_fold (λ _ x n, value_size x + n) 0 m
    | _ => 0
    end.

Fixpoint value_depth (v : Value) : nat :=
  match v with
  | VArr l => foldr (λ x n, S (value_depth x) `max` n) 0 l
  | VMap m => map_fold (λ _ x n, S (value_depth x) `max` n) 0 m
  | _ => 0
  end.

(** The values one step below. *)
Definition children (v : Value) : list Value :=
  match v with
  | VArr l => l
  | VMap m => (map_to_list m).*2
  | _ => []
  end.

Definition total_size (l : list Value) : nat := foldr (λ x n, value_size x + n) 0 l.

#[export] Instance total_size_Proper : Proper ((≡ₚ) ==> (=)) total_size.
Proof. induction 1; unfold total_size in *; simpl; lia. Qed.

Lemma value_size_children v : value_size v = S (total_size (children v)).
Proof.
  destruct v; try done. simpl. f_equal. rewrite map_fold_foldr. unfold total_size.
  generalize (map_to_list m). intros l. induction l as [|[? ?] ? IH]; simpl; [done|by rewrite IH].
Qed.

Lemma value_depth_le v n :
  value_depth v ≤ S n ↔ Forall (λ x, value_depth x ≤ n) (children v).
Proof.
  assert (∀ l, foldr (λ x n, S (value_depth x) `max` n) 0 l ≤ S n ↔
               Forall (λ x, value_depth x ≤ n) l) as Hl.
  { intros l. induction l as [|x l IH]; simpl; [split; [constructor|lia]|].
    rewrite Forall_cons, <-IH. lia. }
  destruct v; simpl; try (split; [intros _; constructor|lia]); [apply Hl|].
  rewrite <-Hl, map_fold_foldr. generalize (map_to_list m). intros l.
  replace (foldr (λ x n, S (value_depth x) `max` n) 0 l.*2)
    with (foldr (uncurry (λ (_ : string) x n, S (value_depth x) `max` n)) 0 l); [done|].
  by induction l as [|[??] ? IH]; simpl; [|rewrite IH].
Qed.

Lemma value_depth_zero v : value_depth v = 0 ↔ children v = [].
Proof.
  destruct v as [| | | | |l|m|]; try done; simpl.
  - destruct l as [|x l]; [done|]. simpl. split; [lia|done].
  - rewrite map_fold_foldr. destruct (map_to_list m) as [|[??] ?]; [done|]. simpl. split; [lia|done].
Qed.

Lemma total_size_elem x l : x ∈ l → value_size x ≤ total_size l.
Proof. induction 1; unfold total_size in *; simpl; lia. Qed.

Lemma value_tree_ind (P : Value → Prop) :
  (∀ v, Forall P (children v) → P v) → ∀ v, P v.
Proof.
  intros Hstep v. remember (value_size v) as n eqn:Hn.
  assert (value_size v ≤ n) as Hle by lia. clear Hn. revert v Hle.
  induction n as [|n IH]; intros v Hle; rewrite value_size_children in Hle; [lia|].
  apply Hstep, Forall_forall. intros x Hx%total_size_elem. apply IH. lia.
Qed.

(** ** [json.Marshal] *)

(** [strconv]'s shortest text of a [float64], [None] for NaN and the infinities; and the
    encoding of the values only yaml.v3 yields: the digits of a [uint64], the quoted time
    of a [time.Time], [None] for a [map[any]any], which JSON cannot express. *)
Class FloatText := {
  float_text : spec_float → option string;
  other_text : string → option string;
}.

Definition backslash : ascii := "092".
Definition dquote : ascii := "034".
Definition escaped (text : string) : string := String backslash text.

(** One ASCII byte: quotes, backslashes and control characters are escaped, and so
    are the three characters HTML gives a meaning. *)
Definition escape_ascii (a : ascii) : string :=
  let n := byte_of a in
  if (n =? 34)%N || (n =? 92)%N then escaped (String a "")
  else if (n =? 8)%N then escaped "b"
  else if (n =? 12)%N then escaped "f"
  else if (n =? 10)%N then escaped "n"
  else if (n =? 13)%N then escaped "r"
  else if (n =? 9)%N then escaped "t"
  else if (n <? 32)%N || (n =? 60)%N || (n =? 62)%N || (n =? 38)%N
  then escaped ("u00" +:+ hex_encode [n])
  else String a "".

(** U+2028 and U+2029 are escaped, other characters kept, other bytes replaced. *)
Definition escape3 (a b c : ascii) : string :=
  if (byte_of a =? 0xE2)%N && (byte_of b =? 0x80)%N && between 0xA8 0xA9 (byte_of c)
  then escaped ("u202" +:+ String (ascii_of_N (byte_of c - 112)) "")
  else String a (String b (String c "")).

Definition bad_byte : string := escaped "ufffd".

Fixpoint json_escape (s : string) : string :=
  match s with
  | EmptyString => ""
  | String a r1 =>
      if (byte_of a <? 0x80)%N then escape_ascii a +:+ json_escape r1
      else
        match r1 with
        | String b r2 =>
            if rune2 a b then String a (String b (json_escape r2))
            else
              match r2 with
              | String c r3 =>
                  if rune3 a b c then escape3 a b c +:+ json_escape r3
                  else
                    match r3 with
                    | String d r4 =>
                        if rune4 a b c d
                        then String a (String b (String c (String d (json_escape r4))))
                        else bad_byte +:+ json_escape r1
                    | EmptyString => bad_byte +:+ json_escape r1
                    end
              | EmptyString => bad_byte +:+ json_escape r1
              end
        | EmptyString => bad_byte
        end
  end.

Definition json_quote (s : string) : string :=
  String dquote (json_escape s) +:+ String dquote "".

Definition brackets (l : list string) : string := "[" +:+ Join l "," +:+ "]".
Definition braces (l : list string) : string := "{" +:+ Join l "," +:+ "}".
Definition sorted_keys {V} (m : gmap string V) : list string := sort_strings (elements (dom m)).

(** [None] is the error of a value JSON cannot express. *)
Fixpoint Marshal `{FloatText} (v : Value) : option string :=
  match v with
  | VNil => Some "null"
  | VBool b => Some (if b then "true" else "false")
  | VInt n => Some (Itoa n)
  | VFloat f => float_text f
  | VString s => Some (json_quote s)
  | VArr l => brackets <$> mapM Marshal l
  | VMap m =>
      let texts := Marshal <$> m in
      braces <$> mapM (λ k, text ← texts !! k; (λ t, json_quote k +:+ ":" +:+ t) <$> text)
        (sorted_keys m)
  | VOther t => other_text t
  end.

Example marshal_ex `{FloatText} :
  Marshal (VMap {[ "b" := VArr [VInt 3; VBool true; VNil]; "a<" := VString (String dquote "x") ]}) =
    Some (braces [json_quote "a<" +:+ ":" +:+ json_quote (String dquote "x");
                  json_quote "b" +:+ ":[3,true,null]"]) ∧
  json_quote "a<" = String dquote (String "a" (escaped "u003c") +:+ String dquote "") ∧
  Marshal (VArr [VInt 1; VOther "18446744073709551615"]) =
    (λ t, brackets ["1"; t]) <$> other_text "18446744073709551615".
Proof.
  split_and!; [vm_compute; reflexivity..|]. cbn. by destruct (other_text _).
Qed.

(** What JSON can express: values all of whose leaves have a text. *)
Inductive expressible `{FloatText} : Value → Prop :=
  | expressible_value v :
      match v with VFloat f => is_Some (float_text f) 
      | VOther t => is_Some (other_text t) | _ => True end →
      Forall expressible (children v) → expressible v.

Lemma Marshal_expressible `{FloatText} v : expressible v → is_Some (Marshal v).
Proof.
  revert v. apply (value_tree_ind (λ v, expressible v → is_Some (Marshal v))).
  intros v IH Hv. inversion Hv as [? Hleaf Hsub]; subst.
  destruct v as [| | | | |l|m|]; simpl in *; try done; try by eexists.
  - assert (is_Some (mapM Marshal l)) as [? ->]; [|by eexists].
    apply mapM_is_Some. apply Forall_forall. intros x Hx.
    rewrite Forall_forall in IH, Hsub. auto.
  - assert (is_Some (mapM (λ k, text ← (Marshal <$> m) !! k;
      (λ t, json_quote k +:+ ":" +:+ t) <$> text) (sorted_keys m))) as [? ->]; [|by eexists].
    apply mapM_is_Some, Forall_forall. intros k Hk.
    unfold sorted_keys in Hk. rewrite sort_strings_elem, elem_of_elements, elem_of_dom in Hk.
    destruct Hk as [x Hx]. unfold compose. rewrite lookup_fmap, Hx. simpl.
    assert (x ∈ (map_to_list m).*2) as Hin.
    { apply list_elem_of_fmap. exists (k, x). by rewrite elem_of_map_to_list. }
    rewrite Forall_forall in IH, Hsub. destruct (IH x Hin (Hsub x Hin)) as [t ->]. by eexists.
Qed.
