(* ===== verification/Fetch.v ===== *)
(** * subscription/fetch.go: downloading a subscription.

    The network is a parameter: what a server answers to one request, and where the
    answer redirects to. The loop that follows redirects is [http.Client]'s, with
    the policy [NewHTTPFetcher] installs. *)
From stdpp Require Import gmap strings list fin_maps pretty.
From Stdlib Require Import Ascii.
From S2P Require Import Prelude.
From S2P Require Import GoBase.
From S2P Require Import GoStrings.
From S2P Require Import GoCodec.
From S2P Require Import GoHash.
From S2P Require Import NetUrl.
From S2P Require Import GoHttp.
From S2P Require Import Model.
From S2P Require Import Manager.
From stdpp Require Import options.

(** ** [ParseExpiry] *)

(** [time.Unix(seconds, 0).UTC()]; 1970 is so many seconds after year 1. *)
Definition time_Unix (seconds : Z) : Z := ((62135596800 + seconds) * Second)%Z.

Fixpoint expiry_field (fields : list string) : Z :=
  match fields with
  | [] => 0%Z
  | field :: rest =>
      let '(key, value, ok) := Cut (TrimSpace field) "=" in
      if ok && EqualFold (TrimSpace key) "expire" then
        match ParseInt (TrimSpace value) with
        | Some seconds =>
            if (0 <? seconds)%Z && (seconds <=? 253402300799)%Z then time_Unix seconds
            else expiry_field rest
        | None => expiry_field rest
        end
      else expiry_field rest
  end.

Definition ParseExpiry (header : string) : Z := expiry_field (Split header ";").

Example parse_expiry_ex :
  ParseExpiry "upload=1; download=2; Expire = 1700000000" = time_Unix 1700000000 ∧
  ParseExpiry "expire=-5;expire=7" = time_Unix 7 ∧ ParseExpiry "expires=7" = 0%Z.
Proof. split_and!; vm_compute; reflexivity. Qed.

(** ** The download *)

Record HTTPFetcher := mkHTTPFetcher {
  hf_maxBytes : Z;
  hf_allowedHTTP : gset string;
}.

Definition NewHTTPFetcher (maxBytes : Z) (httpAllowlist : list string) : HTTPFetcher :=
  mkHTTPFetcher maxBytes (list_to_set httpAllowlist).

Section fetch.
Context `{NetUrl} {W : Type}.
Context (send : FetchRequest → W → W * (GoError + FetchResponse)).

(** The headers [http.Client] gives the next request, and the [CheckRedirect] the
    client had before. *)
Context (redirect_header : FetchRequest → list FetchRequest → Header).
Context (previousRedirect : option (FetchRequest → list FetchRequest → option GoError)).

(** The policy of [NewHTTPFetcher]; it edits the headers of the request. [via] holds
    the requests made so far, oldest first. *)
Definition CheckRedirect (allowed : gset string) (request : FetchRequest) (via : list FetchRequest)
    : GoError + FetchRequest :=
  let scheme := url_Scheme (fr_URL request) in
  let optedIn :=
    match via with
    | first :: _ => bool_decide (scheme = "http") && bool_decide (url_String (fr_URL first) ∈ allowed)
    | [] => false
    end in
  if bool_decide (scheme ≠ "https") && negb optedIn
  then inl (ErrNew "subscription redirect must use HTTPS")
  else if match via with
          | first :: _ => bool_decide (scheme ≠ url_Scheme (fr_URL first))
                          || bool_decide (url_Host (fr_URL request) ≠ url_Host (fr_URL first))
          | [] => false
          end
  then inl (ErrNew "subscription redirect must remain on the original origin")
  else
    let header := header_Del "Proxy-Authorization" (header_Del "Authorization"
      (header_Del "Cookie" (header_Del "Referer" (fr_Header request)))) in
    let request := mkFetchRequest (fr_URL request) header in
    match previousRedirect with
    | Some check => match check request via with Some err => inl err | None => inr request end
    | None =>
        if decide (10 ≤ length via) then inl (ErrNew "too many subscription redirects")
        else inr request
    end.

(** The loop of [http.Client.Do]; [send] gets the requests as they go over the wire. *)
Fixpoint client_Do (fuel : nat) (allowed : gset string) (request : FetchRequest)
    (via : list FetchRequest) (w : W) : option (W * (GoError + FetchResponse)) :=
  match fuel with
  | 0 => None
  | S fuel =>
      let '(w, result) := send (wire_request request) w in
      match result with
      | inl err => Some (w, inl err)
      | inr response =>
          match resp_Redirect response with
          | None => Some (w, inr response)
          | Some (inl err) => Some (w, inl err)
          | Some (inr target) =>
              let via := via ++ [request] in
              match CheckRedirect allowed
                (mkFetchRequest target (redirect_header request via)) via with
              | inl err => Some (w, inl err)
              | inr next => client_Do fuel allowed next via w
              end
          end
      end
  end.

(** Ten requests are enough (theorem [client_Do_returns]): the policy refuses the
    tenth redirect. *)
Definition max_requests : nat := 10.

(** The file system, and [ctx.Err()]. *)
Context (fs : string → FileView) (ctx_Err : option GoError).

(** [filepath.IsAbs] on Unix. *)
Definition IsAbs (path : string) : bool := HasPrefix path "/".

Definition fetchFile (fetcher : HTTPFetcher) (parsed : URL) : GoError + (string * string) :=
  match ctx_Err with
  | Some err => inl err
  | None =>
      if bool_decide (url_Host parsed ≠ "") || bool_decide (url_RawQuery parsed ≠ "")
         || bool_decide (url_Fragment parsed ≠ "") || negb (IsAbs (url_Path parsed))
         || (hf_maxBytes fetcher <=? 0)%Z
      then inl (ErrNew "invalid private proxy file source")
      else
        let file := fs (url_Path parsed) in
        match fv_stat file with
        | None => inl (ErrNew "private proxy file is unavailable or exposed")
        | Some (regular, perm) =>
            if negb regular || negb (Z.land perm 7 =? 0)%Z
            then inl (ErrNew "private proxy file is unavailable or exposed")
            else if negb (fv_open file) then inl (ErrNew "private proxy file cannot be opened")
            else
              match read_limited file (wrap_int64 (hf_maxBytes fetcher + 1)) with
              | None => inl (ErrNew "private proxy file exceeds size limit or cannot be read")
              | Some body =>
                  if (hf_maxBytes fetcher <? Z.of_nat (String.length body))%Z
                  then inl (ErrNew "private proxy file exceeds size limit or cannot be read")
                  else inr (body, "text/plain")
              end
        end
  end.

(** [http.NewRequest] drops the colon of an empty port. *)
Definition request_URL (parsed : URL) : URL :=
  let host := url_Host parsed in
  let trimmed :=
    match cut_last_colon host with Some (before, "") => before | _ => host end in
  mkURL (url_Scheme parsed) (url_User parsed) trimmed (url_Path parsed) (url_RawQuery parsed)
    (url_Fragment parsed).

Definition first_request (parsed : URL) : FetchRequest :=
  mkFetchRequest (request_URL parsed)
    (header_Set "Accept" "application/json, application/yaml, text/yaml, text/plain;q=0.9"
      (header_Set "User-Agent" "sing-box" ∅)).

(** From the response to the result of [fetch]. *)
Definition read_response (fetcher : HTTPFetcher) (source : Source) (response : FetchResponse)
    : GoError + (string * string * Z) :=
  let exceeds := ErrNew ("source " +:+ source_ID source +:+ " response exceeds byte limit") in
  if (resp_StatusCode response <? 200)%Z || (300 <=? resp_StatusCode response)%Z
  then inl (ErrNew ("source " +:+ source_ID source +:+ " returned HTTP "
                    +:+ Itoa (resp_StatusCode response)))
  else if (hf_maxBytes fetcher <? resp_ContentLength response)%Z then inl exceeds
  else
    match read_body (wrap_int64 (hf_maxBytes fetcher + 1)) response with
    | inl err => inl (Errorf_w ("read source " +:+ source_ID source +:+ " response: ") err)
    | inr body =>
        if (hf_maxBytes fetcher <? Z.of_nat (String.length body))%Z then inl exceeds
        else
          inr (body,
               TrimSpace (default "" (head (Split (header_Get "Content-Type" (resp_Header response)) ";"))),
               ParseExpiry (header_Get "Subscription-Userinfo" (resp_Header response)))
    end.

(** [fetch] with the expiry it stores through its pointer. *)
Definition fetch (fetcher : HTTPFetcher) (source : Source) (w : W)
    : W * (GoError + (string * string * Z)) :=
  let refused :=
    (w, inl (ErrNew ("source " +:+ source_ID source +:+ " must be an absolute HTTPS URL"))) in
  match url_Parse (source_URL source) with
  | None => refused
  | Some parsed =>
      if decide (url_Scheme parsed = "file") then
        (w, match fetchFile fetcher parsed with
            | inl err => inl err
            | inr (body, hint) => inr (body, hint, 0%Z)
            end)
      else
        let secure := bool_decide (url_Scheme parsed = "https")
          || bool_decide (url_Scheme parsed = "http")
             && bool_decide (source_URL source ∈ hf_allowedHTTP fetcher) in
        if negb secure || bool_decide (url_Host parsed = "") then refused
        else if (hf_maxBytes fetcher <=? 0)%Z
        then (w, inl (ErrNew "subscription response limit must be positive"))
        else
          match client_Do max_requests (hf_allowedHTTP fetcher) (first_request parsed) [] w with
          | None => (w, inl (ErrNew "unreachable"))
          | Some (w, inl err) =>
              (w, inl (ErrWrap ("source " +:+ source_ID source +:+ " fetch failed") err))
          | Some (w, inr response) => (w, read_response fetcher source response)
          end
  end.

(** The two methods, as the fetcher of the manager. *)
Definition go_fetcher (fetcher : HTTPFetcher) : Fetcher W :=
  mkFetcher
    (λ source w,
      let '(w, result) := fetch fetcher source w in
      (w, match result with
          | inl err => inl err
          | inr (body, hint, _) => inr (body, hint)
          end))
    (Some (fetch fetcher)).
End fetch.

(** ** Theorems *)

Section theorems.
Context `{NetUrl}.
Context (oracle : list FetchRequest → FetchRequest → GoError + FetchResponse).
Context (redirect_header : FetchRequest → list FetchRequest → Header).

(** A network that keeps a log of the requests it gets and answers in any way. *)
Definition log_send (request : FetchRequest) (log : list FetchRequest)
    : list FetchRequest * (GoError + FetchResponse) :=
  (log ++ [request], oracle log request).

(** A request, as it is sent, that follows a redirect of [first]: same origin, without the
    URL it comes from, without cookies, and with no credentials but those its own URL
    holds, the target of the redirect. *)
Record follows (allowed : gset string) (first request : FetchRequest) : Prop := {
  fo_scheme : url_Scheme (fr_URL request) = url_Scheme (fr_URL first);
  fo_host : url_Host (fr_URL request) = url_Host (fr_URL first);
  fo_secure : url_Scheme (fr_URL request) = "https" ∨
    url_Scheme (fr_URL request) = "http" ∧ url_String (fr_URL first) ∈ allowed;
  fo_headers : ∀ name, name ∈ ["Referer"; "Cookie"; "Proxy-Authorization"] →
    fr_Header request !! name = None;
  fo_credentials : fr_Header request !! "Authorization" =
    match url_User (fr_URL request) with
    | Some (user, password) => Some ["Basic " +:+ b64_encode (user +:+ ":" +:+ default "" password)]
    | None => None
    end;
}.

Lemma wire_request_URL request : fr_URL (wire_request request) = fr_URL request.
Proof.
  unfold wire_request. destruct (url_User _); [|done]. by destruct (decide _).
Qed.

Lemma wire_request_header request name :
  fr_Header request !! "Authorization" = None →
  fr_Header (wire_request request) !! name =
    if decide (name = "Authorization") then (λ user, [basic_auth user]) <$> url_User (fr_URL request)
    else fr_Header request !! name.
Proof.
  clear oracle redirect_header. intros Hnone. unfold wire_request. destruct (url_User _) as [user|].
  - rewrite decide_True by (unfold header_Get; change (CanonicalHeaderKey "Authorization") with "Authorization"; by rewrite Hnone).
    cbn [fr_Header]. unfold header_Set. change (CanonicalHeaderKey "Authorization") with "Authorization".
    destruct (decide (name = "Authorization")) as [->|Hne]; [by rewrite lookup_insert_eq|].
    by rewrite lookup_insert_ne.
  - destruct (decide (name = "Authorization")) as [->|]; [done|done].
Qed.

(** A request without credentials in its headers gets those of its URL on the wire. *)
Lemma wire_follows allowed first request :
  url_Scheme (fr_URL request) = url_Scheme (fr_URL first) →
  url_Host (fr_URL request) = url_Host (fr_URL first) →
  url_Scheme (fr_URL request) = "https" ∨
    url_Scheme (fr_URL request) = "http" ∧ url_String (fr_URL first) ∈ allowed →
  (∀ name, name ∈ ["Referer"; "Cookie"; "Authorization"; "Proxy-Authorization"] →
    fr_Header request !! name = None) →
  follows allowed first (wire_request request).
Proof.
  clear oracle redirect_header. intros Hscheme Hhost Hsecure Hnone.
  assert (fr_Header request !! "Authorization" = None) as Hauth
    by (apply Hnone; rewrite !elem_of_cons; tauto).
  split; rewrite ?wire_request_URL; [done..| |].
  - intros name Hin. rewrite wire_request_header by done. rewrite decide_False.
    + apply Hnone. rewrite !elem_of_cons in *. tauto.
    + intros ->. revert Hin. apply (bool_decide_unpack _). vm_compute. exact I.
  - rewrite wire_request_header by done. rewrite decide_True by done.
    by destruct (url_User _) as [[user password]|].
Qed.

Lemma CheckRedirect_follows previous allowed request first via next :
  CheckRedirect previous allowed request (first :: via) = inr next →
  follows allowed first (wire_request next) ∧ (previous = None → length (first :: via) < 10).
Proof.
  unfold CheckRedirect. intros Hc.
  destruct (bool_decide (url_Scheme (fr_URL request) ≠ "https") && _) eqn:Hs; [done|].
  destruct (_ || _) eqn:Ho; [done|].
  apply orb_false_iff in Ho as [Hscheme%bool_decide_eq_false Hhost%bool_decide_eq_false].
  apply dec_stable in Hscheme, Hhost.
  assert (next = mkFetchRequest (fr_URL request) (header_Del "Proxy-Authorization"
    (header_Del "Authorization" (header_Del "Cookie" (header_Del "Referer" (fr_Header request))))) ∧
    (previous = None → length (first :: via) < 10)) as [-> Hlen].
  { destruct previous as [check|]; [by destruct (check _ _); simplify_eq|].
    case_decide; simplify_eq. split; [done|]. lia. }
  split; [|done]. apply wire_follows; cbn; [done..| |].
  - apply andb_false_iff in Hs as [Hs%bool_decide_eq_false|Hs%negb_false_iff].
    + left. by apply dec_stable.
    + right. apply andb_true_iff in Hs as [?%bool_decide_eq_true ?%bool_decide_eq_true]. done.
  - intros name. rewrite !elem_of_cons, elem_of_nil. unfold header_Del.
    change (CanonicalHeaderKey "Proxy-Authorization") with "Proxy-Authorization".
    change (CanonicalHeaderKey "Authorization") with "Authorization".
    change (CanonicalHeaderKey "Cookie") with "Cookie".
    change (CanonicalHeaderKey "Referer") with "Referer".
    intros [->|[->|[->|[->|[]]]]]; by simplify_map_eq.
Qed.

(** The policy removes an Authorization header from a redirected request, but not the
    credentials in its URL, which the client then sends. *)
Example redirect_keeps_userinfo :
  let first := mkFetchRequest (mkURL "https" None "sub.example" "/list" "" "") ∅ in
  let target := mkURL "https" (Some ("bob", Some "pw")) "sub.example" "/moved" "" "" in
  match CheckRedirect None ∅ (mkFetchRequest target {["Authorization" := ["Bearer t"]]}) [first] with
  | inr next => header_Get "Authorization" (fr_Header next) = "" ∧
      header_Get "Authorization" (fr_Header (wire_request next)) = "Basic Ym9iOnB3"
  | inl _ => False
  end.
Proof. split; vm_compute; reflexivity. Qed.

Lemma follows_wire allowed first request :
  follows allowed first request → follows allowed (wire_request first) request.
Proof. intros []. by split; rewrite ?wire_request_URL. Qed.

(** What one run of the loop sends. *)
Lemma client_Do_sends previous fuel allowed request via log log' result :
  client_Do log_send redirect_header previous fuel allowed request via log = Some (log', result) →
  ∃ rest, log' = log ++ wire_request request :: rest ∧
    Forall (follows allowed (default request (head via))) rest ∧
    (previous = None → length via < 10 → length via + S (length rest) ≤ 10).
Proof.
  revert request via log. induction fuel as [|fuel IH]; intros request via log; [done|].
  cbn [client_Do log_send]. intros Hdo.
  assert (∀ result', Some (log ++ [wire_request request], result') = Some (log', result) →
    ∃ rest, log' = log ++ wire_request request :: rest ∧
      Forall (follows allowed (default request (head via))) rest ∧
      (previous = None → length via < 10 → length via + S (length rest) ≤ 10)) as Hstop.
  { intros r' ?. simplify_eq. exists []. split_and!; [done..|]. simpl. lia. }
  destruct (oracle log (wire_request request)) as [|response]; [by eapply Hstop|].
  destruct (resp_Redirect response) as [[|target]|]; [by eapply Hstop| |by eapply Hstop].
  destruct (CheckRedirect _ _ _ _) as [|next] eqn:Hc; [by eapply Hstop|].
  destruct (IH _ _ _ Hdo) as (rest & -> & Hrest & Hlen).
  assert (∃ via', via ++ [request] = default request (head via) :: via') as [via' Hvia]
    by (destruct via; simpl; eauto).
  rewrite Hvia in Hc. destruct (CheckRedirect_follows _ _ _ _ _ _ Hc) as [Hf Hten].
  exists (wire_request next :: rest). rewrite <-app_assoc. split_and!; [done| |].
  - constructor; [done|]. by rewrite Hvia in Hrest.
  - intros Hprev Hlt. specialize (Hten Hprev). rewrite <-Hvia in Hten.
    specialize (Hlen Hprev Hten). rewrite length_app in Hlen. simpl in *. lia.
Qed.

(** The loop ends: the policy refuses the tenth redirect. *)
Lemma client_Do_returns {W} (send : FetchRequest → W → W * (GoError + FetchResponse))
    fuel allowed request via w :
  10 ≤ fuel + length via → length via < 10 →
  is_Some (client_Do send redirect_header None fuel allowed request via w).
Proof.
  clear oracle. revert request via w. induction fuel as [|fuel IH]; intros request via w Hf Hv; [lia|].
  cbn [client_Do]. destruct (send (wire_request request) w) as [w' [|response]]; [by eexists|].
  destruct (resp_Redirect response) as [[|target]|]; [by eexists| |by eexists].
  destruct (CheckRedirect _ _ _ _) as [|next] eqn:Hc; [by eexists|].
  assert (length (via ++ [request]) < 10) as Hlen.
  { destruct (via ++ [request]) as [|first via'] eqn:Hvia; [simpl; lia|].
    by destruct (CheckRedirect_follows _ _ _ _ _ _ Hc) as [_ ?]; auto. }
  apply IH; [|done]. rewrite length_app. simpl. lia.
Qed.

Lemma time_Unix_expiry fields :
  expiry_field fields = 0%Z ∨
  ∃ seconds, (0 < seconds ≤ 253402300799)%Z ∧ expiry_field fields = time_Unix seconds.
Proof.
  induction fields as [|field rest IH]; [by left|]. cbn [expiry_field].
  destruct (Cut (TrimSpace field) "=") as [[key value] ok].
  destruct (ok && _); [|done]. destruct (ParseInt _) as [seconds|]; [|done].
  destruct (_ && _) eqn:Hb; [|done]. right. exists seconds. split; [lia|done].
Qed.

Lemma read_response_bounded fetcher source response body hint expiry :
  read_response fetcher source response = inr (body, hint, expiry) →
  (200 ≤ resp_StatusCode response < 300)%Z ∧
  (Z.of_nat (String.length body) ≤ hf_maxBytes fetcher)%Z ∧
  (expiry = 0%Z ∨ ∃ seconds, (0 < seconds ≤ 253402300799)%Z ∧ expiry = time_Unix seconds).
Proof.
  clear oracle redirect_header. unfold read_response. intros Hr.
  destruct (_ || _) eqn:Hstatus; [done|].
  destruct (_ <? resp_ContentLength _)%Z; [done|].
  destruct (read_body _ _) as [|b]; [done|]. destruct (_ <? Z.of_nat _)%Z eqn:Hlen; [done|].
  simplify_eq. split; [lia|]. split; [lia|]. apply time_Unix_expiry.
Qed.

Lemma fetchFile_bounded fs ctx_Err fetcher parsed body hint :
  fetchFile fs ctx_Err fetcher parsed = inr (body, hint) →
  url_Host parsed = "" ∧ IsAbs (url_Path parsed) = true ∧
  (∃ perm, fv_stat (fs (url_Path parsed)) = Some (true, perm) ∧ Z.land perm 7 = 0%Z) ∧
  (Z.of_nat (String.length body) ≤ hf_maxBytes fetcher)%Z.
Proof.
  unfold fetchFile. intros Hf. destruct ctx_Err; [done|].
  destruct (bool_decide (url_Host parsed ≠ "") || _ || _ || _ || _) eqn:Hg; [done|].
  rewrite !orb_false_iff in Hg. destruct Hg as [[[[Hh _] _] Ha%negb_false_iff] _].
  apply bool_decide_eq_false, dec_stable in Hh.
  destruct (fv_stat _) as [[regular perm]|]; [|done]. destruct regular; [|done]. simpl in Hf.
  destruct (Z.land perm 7 =? 0)%Z eqn:Hp; [|done]. destruct (fv_open _); [|done]. simpl in Hf.
  destruct (read_limited _ _) as [b|]; [|done]. destruct (_ <? _)%Z eqn:Hlen; [done|].
  simplify_eq. split_and!; [done..| |lia]. exists perm. split; [done|lia].
Qed.

(** C17: a download stays where the configuration points. Whatever servers answer,
    [fetch] returns after at most ten requests; each, as it is sent, goes to the scheme and
    host of the source's own URL, which is HTTPS or an HTTP URL on the allow list. Those
    after the first carry no cookie, no proxy credentials and no referring URL, and their
    only Authorization header is the one the client makes of the credentials in the URL the
    redirect itself points to, if it holds any. A [file] URL causes no request. A body is
    returned only from a response of class 2xx or from a private regular file, and is never
    longer than the limit. *)
Theorem fetch_stays_on_origin fs ctx_Err fetcher source log :
  let '(log', result) := fetch log_send redirect_header None fs ctx_Err fetcher source log in
  (∃ sent, log' = log ++ sent ∧ length sent ≤ 10 ∧
     ∀ first rest, sent = first :: rest →
       (∃ parsed, url_Parse (source_URL source) = Some parsed ∧
          first = wire_request (first_request parsed) ∧
          (url_Scheme parsed = "https" ∨
           url_Scheme parsed = "http" ∧ source_URL source ∈ hf_allowedHTTP fetcher)) ∧
       Forall (follows (hf_allowedHTTP fetcher) first) rest) ∧
  (∀ body hint expiry, result = inr (body, hint, expiry) →
     (Z.of_nat (String.length body) ≤ hf_maxBytes fetcher)%Z ∧
     (expiry = 0%Z ∨ ∃ seconds, (0 < seconds ≤ 253402300799)%Z ∧ expiry = time_Unix seconds) ∧
     ((∃ response, (200 ≤ resp_StatusCode response < 300)%Z ∧
         read_response fetcher source response = result) ∨
      (∃ parsed perm, url_Parse (source_URL source) = Some parsed ∧ url_Scheme parsed = "file" ∧
         log' = log ∧ fv_stat (fs (url_Path parsed)) = Some (true, perm) ∧ Z.land perm 7 = 0%Z))) ∧
  (∀ parsed, is_Some (client_Do log_send redirect_header None max_requests
     (hf_allowedHTTP fetcher) (first_request parsed) [] log)).
Proof.
  assert (∀ parsed, is_Some (client_Do log_send redirect_header None max_requests
    (hf_allowedHTTP fetcher) (first_request parsed) [] log)) as Hends
    by (intros parsed; apply client_Do_returns; unfold max_requests; simpl; lia).
  set (origin := λ first, ∃ parsed, url_Parse (source_URL source) = Some parsed ∧
    first = wire_request (first_request parsed) ∧ (url_Scheme parsed = "https" ∨
      url_Scheme parsed = "http" ∧ source_URL source ∈ hf_allowedHTTP fetcher)).
  assert (∃ sent, log = log ++ sent ∧ length sent ≤ 10 ∧ ∀ first rest, sent = first :: rest →
    origin first ∧ Forall (follows (hf_allowedHTTP fetcher) first) rest) as Hnone.
  { exists []. rewrite app_nil_r. split_and!; [done|simpl; lia|done]. }
  unfold fetch. destruct (url_Parse (source_URL source)) as [parsed|] eqn:Hp; [|done].
  case_decide as Hfile.
  { split_and!; [done| |done]. destruct (fetchFile _ _ _ _) as [|[b h]] eqn:Hf; [done|].
    intros body hint expiry ?. simplify_eq.
    destruct (fetchFile_bounded _ _ _ _ _ _ Hf) as (_ & _ & (perm & ? & ?) & ?).
    split_and!; [done|by left|]. right. by exists parsed, perm. }
  destruct (negb _ || _) eqn:Hsecure; [done|]. destruct (_ <=? 0)%Z; [done|].
  apply orb_false_iff in Hsecure as [Hsecure%negb_false_iff _].
  rewrite orb_true_iff, andb_true_iff, !bool_decide_eq_true in Hsecure.
  destruct (client_Do _ _ _ _ _ _ _ _) as [[log' result]|] eqn:Hdo; [|done].
  destruct (client_Do_sends _ _ _ _ _ _ _ _ Hdo) as (rest & -> & Hrest & Hlen).
  specialize (Hlen eq_refl ltac:(simpl; lia)). simpl in Hlen, Hrest.
  assert (∃ sent, log ++ wire_request (first_request parsed) :: rest = log ++ sent ∧ length sent ≤ 10 ∧
    ∀ first rest, sent = first :: rest →
      origin first ∧ Forall (follows (hf_allowedHTTP fetcher) first) rest) as Hsent.
  { exists (wire_request (first_request parsed) :: rest). split; [done|]. split; [done|].
    intros first rest' ?. simplify_eq. split; [by exists parsed|].
    eapply Forall_impl; [exact Hrest|]. intros request Hf. by apply follows_wire. }
  destruct result as [|response]; (split_and!; [exact Hsent| |exact Hends]); [done|].
  intros body hint expiry Hr.
  destruct (read_response_bounded _ _ _ _ _ _ Hr) as (? & ? & ?). split_and!; [done..|]. left.
  by exists response.
Qed.

Lemma substring_all (n : nat) s : String.length s ≤ n → String.substring 0 n s = s.
Proof.
  clear oracle redirect_header. revert n. induction s as [|a s IH]; intros [|n] Hn; simpl in *; try done; [lia|].
  rewrite IH; [done|lia].
Qed.

Lemma substring_length (n : nat) s : n ≤ String.length s → String.length (String.substring 0 n s) = n.
Proof.
  clear oracle redirect_header. revert n. induction s as [|a s IH]; intros [|n] Hn; simpl in *; try done; [lia|].
  rewrite IH; [done|lia].
Qed.

(** C23: the limit on a response is exact below the largest integer and fails at it. A
    2xx response that can be read and announces no more than the limit is passed on whole
    if it is not longer than the limit, and refused if it is. With a limit of 2^63-1,
    which the configuration accepts, the limit plus one wraps round to a negative number:
    every body is then read as the empty text. *)
Theorem response_limit_exact fetcher source response :
  (200 ≤ resp_StatusCode response < 300)%Z → resp_ReadError response = None →
  (resp_ContentLength response ≤ hf_maxBytes fetcher)%Z → (0 < hf_maxBytes fetcher < 2 ^ 63)%Z →
  let body result := match result with inr (body, _, _) => Some body | inl _ => None end in
  let length := Z.of_nat (String.length (resp_Body response)) in
  ((hf_maxBytes fetcher < 2 ^ 63 - 1)%Z →
     body (read_response fetcher source response) =
       (if (length <=? hf_maxBytes fetcher)%Z then Some (resp_Body response) else None)) ∧
  (hf_maxBytes fetcher = (2 ^ 63 - 1)%Z →
     body (read_response fetcher source response) = Some "").
Proof.
  clear oracle redirect_header. intros Hstatus Hread Hlength Hmax. cbv zeta. unfold read_response.
  replace ((resp_StatusCode response <? 200)%Z || (300 <=? resp_StatusCode response)%Z) with false by lia.
  replace (hf_maxBytes fetcher <? resp_ContentLength response)%Z with false by lia.
  unfold read_body. rewrite Hread. split; intros Hm.
  - rewrite wrap_int64_small by lia.
    destruct (Z.leb_spec (hf_maxBytes fetcher + 1) (Z.of_nat (String.length (resp_Body response)))) as [Hl|Hl].
    + rewrite substring_length by lia. rewrite Z2Nat.id by lia.
      replace (hf_maxBytes fetcher <? hf_maxBytes fetcher + 1)%Z with true by lia.
      by replace (Z.of_nat (String.length (resp_Body response)) <=? hf_maxBytes fetcher)%Z with false by lia.
    + replace (hf_maxBytes fetcher <? Z.of_nat (String.length (resp_Body response)))%Z with false by lia.
      by replace (Z.of_nat (String.length (resp_Body response)) <=? hf_maxBytes fetcher)%Z with true by lia.
  - rewrite Hm. replace (wrap_int64 (2 ^ 63 - 1 + 1)) with (- 2 ^ 63)%Z by reflexivity.
    rewrite (proj2 (Z.leb_le (- 2 ^ 63) _)) by (pose proof (Nat2Z.is_nonneg (String.length (resp_Body response))); lia).
    replace (Z.to_nat (- 2 ^ 63)) with 0 by reflexivity.
    by destruct (resp_Body response).
Qed.
End theorems.
