(* ===== verification/ParseNodes.v ===== *)
(** * subscription/parse.go: from the text of a subscription to proxy nodes.

    The decoders of encoding/json and of yaml.v3 are parameters, and so is the
    parser of net/url (NetUrl.v); everything parse.go does with their results is
    modelled, down to the bytes of a node's options and of its ID. *)
From stdpp Require Import gmap strings list sorting fin_maps pretty.
From Stdlib Require Import Ascii SpecFloat.
From S2P Require Import Prelude.
From S2P Require Import GoBase.
From S2P Require Import GoStrings.
From S2P Require Import GoCodec.
From S2P Require Import GoHash.
From S2P Require Import JsonValue.
From S2P Require Import NetUrl.
From S2P Require Import Model.
From S2P Require Import Manager.
From stdpp Require Import options.

Definition ignoredOutboundTypes : list string :=
  ["block"; "direct"; "dns"; "selector"; "urltest"].
Definition supportedRuntimeTypes : list string :=
  ["anytls"; "http"; "hysteria2"; "trojan"; "vless"; "shadowsocks"].
Definition supportedNormalizedTypes : list string := ["http"; "vless"; "anytls"].

Definition MaxNodesPerSource : nat := 512.
Definition MaxStructureDepth : nat := 32.
Definition maxStructureValues : Z := 100000.

(** [json.Unmarshal] into an [any], [yaml.Unmarshal] into a [map[string]any]. *)
Class Decoders := {
  json_Unmarshal : string → option Value;
  yaml_Unmarshal : string → option GoMap;
}.

(** ** Reading dynamic values *)

Definition oneOf (value : string) (allowed : list string) : bool :=
  existsb (λ candidate, bool_decide (value = candidate)) allowed.

Definition stringValue (input : GoMap) (key : string) : string :=
  match input !! key with Some (VString value) => TrimSpace value | _ => "" end.

(** The integer a [float64] is equal to, if there is one and it is an [int64]. *)
Definition float_int (f : spec_float) : option Z :=
  let bounded z := if decide (- 2 ^ 63 ≤ z < 2 ^ 63)%Z then Some z else None in
  match f with
  | S754_zero _ => Some 0%Z
  | S754_finite s m e =>
      let signed z := if s then Z.opp z else z in
      if (0 <=? e)%Z then bounded (signed (Z.pos m * 2 ^ e)%Z)
      else if (Z.pos m mod 2 ^ (- e) =? 0)%Z
      then bounded (signed (Z.pos m / 2 ^ (- e))%Z) else None
  | _ => None
  end.

(** [None] is the result [ok = false]; the number next to it is never used. *)
Definition intValue (value : option Value) : option Z :=
  match value with
  | Some (VInt number) => Some number
  | Some (VFloat number) => float_int number
  | Some (VString number) => Atoi number
  | _ => None
  end.

Definition boolValue (value : option Value) : bool :=
  match value with
  | Some (VBool typed) => typed
  | Some (VString typed) => EqualFold typed "true" || bool_decide (typed = "1")
  | _ => false
  end.

(** [destination] after [copyString(destination, source, key)]. *)
Definition copyString (destination source : GoMap) (key : string) : GoMap :=
  let value := stringValue source key in
  if decide (value ≠ "") then <[key := VString value]> destination else destination.

Fixpoint firstNonEmpty (values : list string) : string :=
  match values with
  | [] => ""
  | value :: rest => if decide (TrimSpace value ≠ "") then TrimSpace value else firstNonEmpty rest
  end.

Definition queryTruthy `{NetUrl} (query : URL) (key : string) : bool :=
  let value := query_Get query key in
  bool_decide (value = "1") || EqualFold value "true".

Definition as_map (value : option Value) : option GoMap :=
  match value with Some (VMap m) => Some m | _ => None end.

(** ** Bounding the structure *)

Definition too_complex : GoError := ErrNew "subscription structure is too complex".

(** The closure [walk] of [validateStructure]: [budget] is one more than the
    depths still allowed, [count] the variable it shares with itself. *)
Fixpoint walk (o : RangeOrder) (budget : nat) (value : Value) (count : Z) : GoError + Z :=
  match budget with
  | 0 => inl too_complex
  | S budget =>
      let count := (count + 1)%Z in
      let visit acc child :=
        match acc with inl err => inl err | inr count => walk o budget child count end in
      if (maxStructureValues <? count)%Z then inl too_complex
      else
        match value with
        | VMap typed => foldl (λ acc entry, visit acc entry.2) (inr count) (range_items o typed)
        | VArr typed => foldl visit (inr count) typed
        | _ => inr count
        end
  end.

(** [None] is no error. *)
Definition validateStructure (o : RangeOrder) (root : Value) : option GoError :=
  match walk o (S MaxStructureDepth) root 0 with inl err => Some err | inr _ => None end.

(** The first unsupported type, or the empty string. *)
Fixpoint unsupportedType (entries : list Value) (allowed : list string) : string :=
  match entries with
  | [] => ""
  | VMap item :: rest =>
      let typeName := ToLower (stringValue item "type") in
      if decide (typeName ≠ "" ∧ (typeName ∉ ignoredOutboundTypes) ∧ (typeName ∉ allowed))
      then typeName else unsupportedType rest allowed
  | _ :: rest => unsupportedType rest allowed
  end.

(** ** Identity *)

(** The first twelve bytes of the SHA-256 digest. *)
Definition digest (value : string) : string := hex_encode (take 12 (Sum256 value)).

(** What identifies a node: its options without the names, and with one name for
    the port. [cloneMap] copies the map. *)
Definition canonical_map (input : GoMap) : GoMap :=
  let canonical := delete "name" (delete "tag" input) in
  match canonical !! "port" with
  | Some port => delete "port" (<["server_port" := port]> canonical)
  | None => canonical
  end.

(** A failed [json.Marshal] yields no bytes. *)
Definition marshal_or_empty `{FloatText} (m : GoMap) : string := default "" (Marshal (VMap m)).

Definition stableMapID `{FloatText} (input : GoMap) : string :=
  digest (marshal_or_empty (canonical_map input)).

(** ** sing-box documents *)

Definition str (s : string) : Value := VString s.
Definition enabled : GoMap := {[ "enabled" := VBool true ]}.

Definition normalizeSingBoxVLESS (input : GoMap) : GoMap :=
  match as_map (input !! "tls") with
  | None => input
  | Some tlsOptions =>
      match as_map (tlsOptions !! "reality") with
      | None => input
      | Some reality =>
          if negb (boolValue (reality !! "enabled")) then input
          else
            match tlsOptions !! "utls" with
            | Some _ => input
            | None =>
                <["tls" := VMap (<["utls" := VMap (<["fingerprint" := str "chrome"]> enabled)]>
                  tlsOptions)]> input
            end
      end
  end.

(** The body of the loop of [nodesFromMaps], [None] where it continues. *)
Definition node_from_map `{FloatText} (format nameKey : string) (entry : Value) : option NodeSpec :=
  match entry with
  | VMap item =>
      let typeName := ToLower (stringValue item "type") in
      if decide (typeName = "" ∨ typeName ∈ ignoredOutboundTypes ∨ (typeName ∉ supportedRuntimeTypes))
      then None
      else
        let item :=
          if decide (format = FormatSingBox ∧ typeName = "vless")
          then normalizeSingBoxVLESS item else item in
        let tag := match item !! nameKey with Some (VString t) => t | _ => "" end in
        raw ← Marshal (VMap item);
        Some (mkNodeSpec (stableMapID item) tag typeName format raw [])
  | _ => None
  end.

Definition nodesFromMaps `{FloatText} (entries : list Value) (format nameKey : string)
    : list NodeSpec :=
  omap (node_from_map format nameKey) entries.

(** The second result of [parseJSON], [recognized], is whether there is a result. *)
Definition parseJSON `{FloatText, Decoders} (o : RangeOrder) (body : string)
    : option (GoError + list NodeSpec) :=
  match json_Unmarshal body with
  | None => None
  | Some root =>
      match validateStructure o root with
      | Some err => Some (inl err)
      | None =>
          let from entries :=
            if decide (unsupportedType entries supportedRuntimeTypes ≠ "")
            then inl (ErrNew "subscription contains an unsupported proxy protocol")
            else inr (nodesFromMaps entries FormatSingBox "tag") in
          match root with
          | VMap value =>
              match value !! "outbounds" with
              | Some (VArr outbounds) => Some (from outbounds)
              | _ => Some (inl (ErrNew "JSON subscription has no outbounds array"))
              end
          | VArr value => Some (from value)
          | _ => Some (inl (ErrNew "JSON subscription root must be an object or array"))
          end
      end
  end.

(** ** Clash documents *)

Definition session_keys : list string :=
  ["idle-session-check-interval"; "idle-session-timeout"; "min-idle-session"].

Definition bad_session_option (input : GoMap) (key : string) : bool :=
  match input !! key with
  | None => false
  | raw => match intValue raw with Some n => (n <? 0)%Z | None => true end
  end.

Definition validateClashNode (input : GoMap) : option GoError :=
  if decide (ToLower (stringValue input "type") = "anytls") then
    if decide (stringValue input "password" = "") then Some (ErrNew "AnyTLS password is required")
    else if existsb (bad_session_option input) session_keys
    then Some (ErrNew "invalid AnyTLS session option")
    else None
  else if decide (ToLower (stringValue input "type") ≠ "vless") then None
  else
    let security := ToLower (stringValue input "security") in
    let network := ToLower (stringValue input "network") in
    let realityValue := input !! "reality-opts" in
    let reality := as_map realityValue in
    let incomplete := bool_decide (stringValue (default ∅ reality) "public-key" = "") in
    if negb (oneOf security [""; "none"; "tls"; "reality"])
    then Some (ErrNew "subscription contains unsupported VLESS security")
    else if negb (oneOf network [""; "tcp"; "ws"; "websocket"; "grpc"; "http"; "h2"])
    then Some (ErrNew "subscription contains unsupported VLESS transport")
    else if bool_decide (is_Some realityValue) && negb (bool_decide (is_Some reality))
    then Some (ErrNew "subscription contains unsupported malformed VLESS Reality options")
    else if bool_decide (security = "reality") && (negb (bool_decide (is_Some reality)) || incomplete)
    then Some (ErrNew "subscription contains unsupported incomplete VLESS Reality options")
    else if bool_decide (is_Some reality) && incomplete
    then Some (ErrNew "subscription contains unsupported incomplete VLESS Reality options")
    else None.

Definition clashTLS (input : GoMap) : GoMap :=
  let serverName := firstNonEmpty [stringValue input "servername"; stringValue input "sni"] in
  let fingerprint := stringValue input "client-fingerprint" in
  let tls1 := if decide (serverName ≠ "") then <["server_name" := str serverName]> enabled
              else enabled in
  let tls2 := if boolValue (input !! "skip-cert-verify") then <["insecure" := VBool true]> tls1
              else tls1 in
  let tls3 := if decide (fingerprint ≠ "")
              then <["utls" := VMap (<["fingerprint" := str fingerprint]> enabled)]> tls2
              else tls2 in
  match as_map (input !! "reality-opts") with
  | Some reality =>
      let key := stringValue reality "public-key" in
      let shortID := stringValue reality "short-id" in
      let r1 := if decide (key ≠ "") then <["public_key" := str key]> enabled else enabled in
      let r2 := if decide (shortID ≠ "") then <["short_id" := str shortID]> r1 else r1 in
      <["reality" := VMap r2]> tls3
  | None => tls3
  end.

Definition transport_of (type : string) : GoMap := {[ "type" := str type ]}.

Definition clashTransport (input : GoMap) : option GoMap :=
  let network := ToLower (stringValue input "network") in
  if oneOf network ["ws"; "websocket"] then
    match as_map (input !! "ws-opts") with
    | Some options =>
        let transport := copyString (transport_of "ws") options "path" in
        match as_map (options !! "headers") with
        | Some headers => Some (<["headers" := VMap headers]> transport)
        | None => Some transport
        end
    | None => Some (transport_of "ws")
    end
  else if decide (network = "grpc") then
    match as_map (input !! "grpc-opts") with
    | Some options =>
        let value := firstNonEmpty [stringValue options "grpc-service-name";
                                    stringValue options "service-name"] in
        Some (if decide (value ≠ "") then <["service_name" := str value]> (transport_of "grpc")
              else transport_of "grpc")
    | None => Some (transport_of "grpc")
    end
  else if oneOf network ["http"; "h2"] then Some (transport_of "http")
  else None.

Definition set_transport (transport : option GoMap) (output : GoMap) : GoMap :=
  match transport with Some t => <["transport" := VMap t]> output | None => output end.

Definition session_options (input : GoMap) (output : GoMap) : GoMap :=
  foldl (λ output key,
    match input !! key with
    | None => output
    | raw =>
        let n := default 0%Z (intValue raw) in
        <[ReplaceAll key "-" "_" :=
          if decide (key = "min-idle-session") then VInt n else str (Itoa n +:+ "s")]> output
    end) output session_keys.

(** The entries every normalized node starts with. *)
Definition base_node (type tag server : string) (port : Z) : GoMap :=
  {[ "type" := str type; "tag" := str tag; "server" := str server; "server_port" := VInt port ]}.

Definition valid_port (port : Z) : bool := ((1 <=? port) && (port <=? 65535))%Z.

Definition normalizeClashNode (input : GoMap) : option GoMap :=
  let typeName := ToLower (stringValue input "type") in
  let server := stringValue input "server" in
  if decide (typeName ∉ supportedNormalizedTypes) then None
  else
    match intValue (input !! "port") with
    | None => None
    | Some port =>
        if bool_decide (server = "") || negb (valid_port port) then None
        else
          let output := base_node typeName (stringValue input "name") server port in
          if decide (typeName = "anytls") then
            Some (session_options input
              (<["tls" := VMap (clashTLS input)]> (copyString output input "password")))
          else if decide (typeName = "http") then
            let output := copyString (copyString output input "username") input "password" in
            Some (if boolValue (input !! "tls") then <["tls" := VMap (clashTLS input)]> output
                  else output)
          else
            let uuid := stringValue input "uuid" in
            if decide (uuid = "") then None
            else
              let output := copyString (<["uuid" := str uuid]> output) input "flow" in
              let tls := boolValue (input !! "tls")
                || oneOf (ToLower (stringValue input "security")) ["tls"; "reality"]
                || bool_decide (is_Some (as_map (input !! "reality-opts"))) in
              let output := if tls then <["tls" := VMap (clashTLS input)]> output else output in
              Some (set_transport (clashTransport input) output)
    end.

(** The node a normalized map becomes; the type assertions fail to the empty
    string. *)
Definition value_string (value : option Value) : string :=
  match value with Some (VString s) => s | _ => "" end.

Definition node_from_clash `{FloatText} (entry : Value) : option NodeSpec :=
  match entry with
  | VMap item =>
      normalized ← normalizeClashNode item;
      Some (mkNodeSpec (stableMapID normalized) (value_string (normalized !! "tag"))
        (value_string (normalized !! "type")) FormatSingBox (marshal_or_empty normalized) [])
  | _ => None
  end.

Definition nodesFromClash `{FloatText} (entries : list Value) : list NodeSpec :=
  omap node_from_clash entries.

Fixpoint first_clash_error (entries : list Value) : option GoError :=
  match entries with
  | [] => None
  | VMap item :: rest =>
      match validateClashNode item with Some err => Some err | None => first_clash_error rest end
  | _ :: rest => first_clash_error rest
  end.

Definition parseClash `{FloatText, Decoders} (o : RangeOrder) (body : string)
    : option (GoError + list NodeSpec) :=
  match yaml_Unmarshal body with
  | None => None
  | Some root =>
      match validateStructure o (VMap root) with
      | Some err => Some (inl err)
      | None =>
          match root !! "proxies" with
          | Some (VArr proxies) =>
              if decide (unsupportedType proxies supportedNormalizedTypes ≠ "")
              then Some (inl (ErrNew "subscription contains an unsupported proxy protocol"))
              else
                match first_clash_error proxies with
                | Some err => Some (inl err)
                | None => Some (inr (nodesFromClash proxies))
                end
          | _ => None
          end
      end
  end.

(** ** Webshare lists *)

Definition newline : ascii := "010".
Definition crlf_text : string := bytes_of [13; 10]%N.

(** [strings.Split(strings.ReplaceAll(text, "\r\n", "\n"), "\n")], trimmed. *)
Definition trimmed_lines (text : string) : list string :=
  TrimSpace <$> Split (ReplaceAll text crlf_text (String newline "")) newline.

(** [strings.ContainsAny(s, " \t\r\n")] *)
Fixpoint has_blank (s : string) : bool :=
  match s with
  | EmptyString => false
  | String a rest =>
      (byte_of a =? 32)%N || (byte_of a =? 9)%N || (byte_of a =? 13)%N || (byte_of a =? 10)%N
      || has_blank rest
  end.

Definition http_outbound (server username password : string) (port : Z) : GoMap :=
  {[ "type" := str "http"; "server" := str server; "server_port" := VInt port;
     "username" := str username; "password" := str password ]}.

Definition webshare_record `{FloatText} (line : string) : GoError + NodeSpec :=
  match Split line ":" with
  | [server; port; username; password] =>
      if negb (bool_decide (is_Some (ParseIPv4 server))) || bool_decide (username = "")
         || bool_decide (password = "") || has_blank (username +:+ password)
      then inl (ErrNew "invalid Webshare proxy record")
      else
        match Atoi port with
        | None => inl (ErrNew "invalid Webshare proxy port")
        | Some port =>
            if negb (valid_port port) then inl (ErrNew "invalid Webshare proxy port")
            else
              let outbound := http_outbound server username password port in
              inr (mkNodeSpec (stableMapID outbound) "" "http" FormatSingBox
                     (marshal_or_empty outbound) [])
        end
  | _ => inl (ErrNew "invalid Webshare proxy record")
  end.

Fixpoint webshare_records `{FloatText} (lines : list string) : GoError + list NodeSpec :=
  match lines with
  | [] => inr []
  | line :: rest =>
      if decide (line = "") then webshare_records rest
      else
        match webshare_record line with
        | inl err => inl err
        | inr node =>
            match webshare_records rest with
            | inl err => inl err
            | inr nodes => inr (node :: nodes)
            end
        end
  end.

Definition first_line (lines : list string) : string :=
  default "" (head (filter (λ line, line ≠ "") lines)).

Definition parseWebshare `{FloatText} (text : string) : option (GoError + list NodeSpec) :=
  let lines := trimmed_lines text in
  match Split (first_line lines) ":" with
  | [server; _; _; _] =>
      match ParseIPv4 server with Some _ => Some (webshare_records lines) | None => None end
  | _ => None
  end.

(** ** URI lists *)

Definition decodeBase64 (text : string) : option string :=
  let compact := Join (Fields text) "" in
  head (omap (λ decode : string → option string,
      decoded ← decode compact; if Contains decoded "://" then Some decoded else None)
    [b64_decode; b64_decode_raw; b64_decode_url; b64_decode_rawurl]).

Definition validateVLESSURI `{NetUrl} (parsed : URL) : option GoError :=
  let security := ToLower (query_Get parsed "security") in
  if negb (oneOf security [""; "none"; "tls"; "reality"])
  then Some (ErrNew "subscription contains unsupported VLESS security")
  else if negb (oneOf (ToLower (query_Get parsed "type"))
    [""; "tcp"; "ws"; "websocket"; "grpc"; "http"; "h2"])
  then Some (ErrNew "subscription contains unsupported VLESS transport")
  else if bool_decide (security = "reality") && bool_decide (query_Get parsed "pbk" = "")
  then Some (ErrNew "subscription contains unsupported incomplete VLESS Reality options")
  else None.

Definition uriTransport `{NetUrl} (query : URL) : option GoMap :=
  let type := ToLower (query_Get query "type") in
  if oneOf type ["ws"; "websocket"] then
    let path := query_Get query "path" in
    let host := query_Get query "host" in
    let t1 := if decide (path ≠ "") then <["path" := str path]> (transport_of "ws")
              else transport_of "ws" in
    Some (if decide (host ≠ "") then <["headers" := VMap {[ "Host" := str host ]}]> t1 else t1)
  else if decide (type = "grpc") then
    let serviceName := firstNonEmpty [query_Get query "serviceName"; query_Get query "service_name"] in
    Some (if decide (serviceName ≠ "") then <["service_name" := str serviceName]> (transport_of "grpc")
          else transport_of "grpc")
  else if oneOf type ["http"; "h2"] then Some (transport_of "http")
  else None.

Definition uri_tls `{NetUrl} (query : URL) (security : string) : GoMap :=
  let serverName :=
    firstNonEmpty [query_Get query "sni"; query_Get query "servername"; query_Get query "peer"] in
  let fingerprint := firstNonEmpty [query_Get query "fp"; query_Get query "fingerprint"] in
  let tls1 := if decide (serverName ≠ "") then <["server_name" := str serverName]> enabled
              else enabled in
  let tls2 := if queryTruthy query "allowInsecure" || queryTruthy query "insecure"
              then <["insecure" := VBool true]> tls1 else tls1 in
  let tls3 := if decide (fingerprint ≠ "")
              then <["utls" := VMap (<["fingerprint" := str fingerprint]> enabled)]> tls2
              else tls2 in
  if decide (security = "reality") then
    <["reality" := VMap (<["public_key" := str (query_Get query "pbk")]>
      (<["short_id" := str (query_Get query "sid")]> enabled))]> tls3
  else tls3.

Definition set_user (user : option (string * option string)) (output : GoMap) : GoMap :=
  match user with
  | Some (username, password) =>
      let output := <["username" := str username]> output in
      match password with
      | Some password => <["password" := str password]> output
      | None => output
      end
  | None => output
  end.

Definition normalizeURINode `{NetUrl} (parsed : URL) : option GoMap :=
  let scheme := ToLower (url_Scheme parsed) in
  match Atoi (Port parsed) with
  | None => None
  | Some port =>
      if negb (valid_port port) || bool_decide (Hostname parsed = "") then None
      else if oneOf scheme ["http"; "https"] then
        let output := set_user (url_User parsed)
          (base_node "http" (url_Fragment parsed) (Hostname parsed) port) in
        Some (if decide (scheme = "https")
              then <["tls" := VMap (<["server_name" := str (Hostname parsed)]> enabled)]> output
              else output)
      else
        match url_User parsed with
        | Some (username, _) =>
            if decide (scheme ≠ "vless" ∨ username = "") then None
            else
              let output := <["uuid" := str username]>
                (base_node "vless" (url_Fragment parsed) (Hostname parsed) port) in
              let flow := query_Get parsed "flow" in
              let output := if decide (flow ≠ "") then <["flow" := str flow]> output else output in
              let security := ToLower (query_Get parsed "security") in
              let output := if oneOf security ["tls"; "reality"]
                            then <["tls" := VMap (uri_tls parsed security)]> output else output in
              Some (set_transport (uriTransport parsed) output)
        | None => None
        end
  end.

(** One line of [parseURIs]: a node, nothing, or nothing and [unsupported]. *)
Definition uri_line `{FloatText, NetUrl} (line : string) : GoError + (option NodeSpec * bool) :=
  match url_Parse line with
  | None => inr (None, false)
  | Some parsed =>
      if bool_decide (url_Scheme parsed = "") || bool_decide (url_Host parsed = "")
      then inr (None, false)
      else
        match (if EqualFold (url_Scheme parsed) "vless" then validateVLESSURI parsed else None) with
        | Some err => inl err
        | None =>
            match normalizeURINode parsed with
            | None =>
                inr (None, negb (oneOf (ToLower (url_Scheme parsed)) ["vless"; "http"; "https"]))
            | Some normalized =>
                inr (Some (mkNodeSpec (stableMapID normalized) (url_Fragment parsed)
                  (ToLower (stringValue normalized "type")) FormatSingBox
                  (marshal_or_empty normalized) []), false)
            end
        end
  end.

Fixpoint uri_lines `{FloatText, NetUrl} (lines : list string)
    (acc : list NodeSpec * bool) : GoError + (list NodeSpec * bool) :=
  match lines with
  | [] => inr acc
  | line :: rest =>
      if decide (line = "") then uri_lines rest acc
      else
        match uri_line line with
        | inl err => inl err
        | inr (node, unsupported) =>
            uri_lines rest (acc.1 ++ option_list node, acc.2 || unsupported)
        end
  end.

Definition parseURIs `{FloatText, NetUrl} (text : string) : GoError + list NodeSpec :=
  match uri_lines (trimmed_lines text) ([], false) with
  | inl err => inl err
  | inr (nodes, unsupported) =>
      if unsupported then inl (ErrNew "subscription contains an unsupported proxy protocol")
      else if decide (nodes = []) then inl (ErrNew "subscription contains no supported proxy nodes")
      else inr nodes
  end.

(** ** [Parse] *)

Definition enforceNodeLimit (result : GoError + list NodeSpec) : GoError + list NodeSpec :=
  match result with
  | inl err => inl err
  | inr nodes =>
      if decide (MaxNodesPerSource < length nodes)
      then inl (ErrNew ("subscription exceeds node limit of " +:+ Itoa (Z.of_nat MaxNodesPerSource)))
      else inr nodes
  end.

Definition parse_subscription `{FloatText, Decoders, NetUrl} (o : RangeOrder)
    (body _hint : string) : GoError + list NodeSpec :=
  let trimmed := TrimSpace body in
  if decide (trimmed = "") then inl (ErrNew "subscription is empty")
  else
    match parseJSON o trimmed with
    | Some result => enforceNodeLimit result
    | None =>
        match parseClash o trimmed with
        | Some result => enforceNodeLimit result
        | None =>
            match parseWebshare trimmed with
            | Some result => enforceNodeLimit result
            | None => enforceNodeLimit (parseURIs (default trimmed (decodeBase64 trimmed)))
            end
        end
    end.

(** What the manager calls. *)
Definition go_parser `{FloatText, Decoders, NetUrl} (o : RangeOrder) : Parser :=
  {| Parse := parse_subscription o |}.

(** ** The structure bound *)

(** A visit of some children, in whatever order. *)
Definition visit_all (o : RangeOrder) (budget : nat) (l : list Value) (count : Z) : GoError + Z :=
  foldl (λ acc child, match acc with inl err => inl err | inr count => walk o budget child count end)
    (inr count) l.

Lemma walk_step o budget v count :
  walk o (S budget) v count =
    if (maxStructureValues <? count + 1)%Z then inl too_complex
    else visit_all o budget
      (match v with VMap m => (range_items o m).*2 | _ => children v end) (count + 1).
Proof.
  cbn [walk]. destruct (maxStructureValues <? count + 1)%Z; [done|].
  destruct v; try done. unfold visit_all. generalize (range_items o m). intros l.
  generalize (inr (count + 1)%Z : GoError + Z). induction l as [|[k x] l IH]; intros acc; [done|].
  simpl. apply IH.
Qed.

Lemma visit_all_error o budget l err :
  foldl (λ acc child, match acc with inl err => inl err | inr count => walk o budget child count end)
    (inl err) l = inl err.
Proof. by induction l. Qed.

Lemma range_values o (m : GoMap) : (range_items o m).*2 ≡ₚ children (VMap m).
Proof. simpl. by rewrite range_perm. Qed.

(** What a walk returns, in terms of size and depth alone. *)
Definition walk_result (budget : nat) (l : list Value) (count : Z) : GoError + Z :=
  if decide (Forall (λ x, value_depth x < budget) l ∧
             (count + Z.of_nat (total_size l) ≤ maxStructureValues)%Z)
  then inr (count + Z.of_nat (total_size l))%Z else inl too_complex.

Lemma visit_all_spec o budget l count :
  (∀ x c, x ∈ l → (c ≤ maxStructureValues)%Z → walk o budget x c = walk_result budget [x] c) →
  (count ≤ maxStructureValues)%Z →
  visit_all o budget l count = walk_result budget l count.
Proof.
  revert count. induction l as [|x l IH]; intros count Hwalk Hc.
  { unfold walk_result. simpl. rewrite decide_True by (split; [constructor|lia]).
    unfold visit_all. simpl. f_equal. lia. }
  unfold visit_all. simpl. rewrite (Hwalk x count) by (done || by left).
  unfold walk_result at 1. unfold total_size. cbn [foldr].
  rewrite Nat.add_0_r. case_decide as Hx.
  - destruct Hx as [Hd Hs]. fold (visit_all o budget l (count + Z.of_nat (value_size x))).
    rewrite IH; [|intros; apply Hwalk; [by right|done]|done].
    unfold walk_result, total_size. cbn [foldr].
    rewrite Forall_singleton in Hd. destruct (decide (Forall _ l ∧ _)) as [[H1 H2]|Hn].
    + rewrite decide_True by (split; [by apply Forall_cons|lia]). f_equal. lia.
    + rewrite decide_False; [done|]. intros [[_ H1]%Forall_cons H2]. apply Hn. split; [done|lia].
  - rewrite visit_all_error. unfold walk_result. rewrite decide_False; [done|].
    intros [[H1 _]%Forall_cons H2]. apply Hx. rewrite Forall_singleton. split; [done|].
    unfold total_size in *. simpl in H2. lia.
Qed.

Lemma walk_result_perm budget l l' count :
  l ≡ₚ l' → walk_result budget l count = walk_result budget l' count.
Proof.
  intros Hl. unfold walk_result. assert (total_size l = total_size l') as -> by (by rewrite Hl).
  apply decide_ext. by rewrite Hl.
Qed.

Lemma walk_spec o budget v count :
  (count ≤ maxStructureValues)%Z → walk o budget v count = walk_result budget [v] count.
Proof.
  revert v count. induction budget as [|budget IH]; intros v count Hc.
  { unfold walk_result. rewrite decide_False; [done|]. intros [H _]. rewrite Forall_singleton in H. lia. }
  rewrite walk_step. set (l := match v with VMap m => (range_items o m).*2 | _ => children v end).
  assert (l ≡ₚ children v) as Hl by (destruct v; try done; apply range_values).
  assert (value_depth v < S budget ↔ Forall (λ x, value_depth x < budget) (children v)) as Hdepth.
  { destruct budget as [|budget].
    - rewrite Nat.lt_1_r, value_depth_zero. split; [by intros ->|].
      destruct (children v); [done|]. intros [??]%Forall_cons. lia.
    - rewrite Nat.lt_succ_r, value_depth_le. apply Forall_iff. lia. }
  destruct (Z.ltb_spec maxStructureValues (count + 1)) as [Hlt|Hge].
  { unfold walk_result. rewrite decide_False; [done|]. intros [_ Hs]. unfold total_size in Hs.
    cbn [foldr] in Hs. rewrite value_size_children in Hs. lia. }
  rewrite visit_all_spec by (auto || lia). rewrite (walk_result_perm _ _ _ _ Hl). unfold walk_result.
  replace (count + Z.of_nat (total_size [v]))%Z
    with (count + 1 + Z.of_nat (total_size (children v)))%Z
    by (unfold total_size at 2; cbn [foldr]; rewrite value_size_children; lia).
  apply decide_ext. by rewrite Forall_singleton, Hdepth.
Qed.

(** C25: [validateStructure] accepts exactly the documents whose nesting is at most
    [MaxStructureDepth] and that hold at most [maxStructureValues] values, whatever
    order the maps are visited in; it always returns, since the recursion is cut
    where the depth bound is exceeded. *)
Theorem validate_structure_exact o v :
  validateStructure o v = None ↔
  value_depth v ≤ MaxStructureDepth ∧ (Z.of_nat (value_size v) ≤ maxStructureValues)%Z.
Proof.
  unfold validateStructure. rewrite walk_spec by done. unfold walk_result, total_size.
  cbn [foldr]. case_decide as Hd; rewrite Forall_singleton in Hd.
  - split; [intros _|done]. destruct Hd. split; lia.
  - split; [done|]. intros [??]. destruct Hd. split; lia.
Qed.

(** ** Well-formed nodes *)

(** What the rest of the gateway relies on: a node is loadable by the engine's first
    checks, and its ID is a digest of what it is, its options. *)
Record well_formed `{FloatText} (node : NodeSpec) : Prop := {
  wf_format : spec_Format node = FormatSingBox;
  wf_type : spec_Type node ∈ supportedRuntimeTypes;
  wf_id : String.length (spec_ID node) = 24 ∧ all_hex (spec_ID node) = true;
  wf_sources : spec_SourceIDs node = [];
  wf_options : ∃ m, spec_Options node = marshal_or_empty m ∧ spec_ID node = stableMapID m ∧
    spec_Type node = ToLower (stringValue m "type");
}.

Lemma digest_shape s : String.length (digest s) = 24 ∧ all_hex (digest s) = true.
Proof.
  destruct (Sum256_bytes s) as [Hlen Hall]. unfold digest.
  destruct (hex_encode_digits (take 12 (Sum256 s))) as [Hhex Hl]; [by apply Forall_take|].
  split; [|done]. rewrite Hl, length_take, Hlen. done.
Qed.

Lemma supported_normalized t : t ∈ supportedNormalizedTypes → t ∈ supportedRuntimeTypes.
Proof. unfold supportedNormalizedTypes, supportedRuntimeTypes. rewrite !elem_of_cons. tauto. Qed.

Section types.
Context `{FloatText, Decoders, NetUrl}.

(** The entry ["type"] survives the later insertions. *)
Definition typed (t : string) (m : GoMap) : Prop := m !! "type" = Some (str t).

Lemma typed_insert t m k v : k ≠ "type" → typed t m → typed t (<[k := v]> m).
Proof. intros Hk Ht. unfold typed. by rewrite lookup_insert_ne. Qed.

Lemma typed_copyString t m src k : k ≠ "type" → typed t m → typed t (copyString m src k).
Proof. intros Hk Ht. unfold copyString. case_decide; [by apply typed_insert|done]. Qed.

Lemma typed_set_transport t m tr : typed t m → typed t (set_transport tr m).
Proof. destruct tr; [by apply typed_insert|done]. Qed.

Lemma typed_set_user t m u : typed t m → typed t (set_user u m).
Proof.
  intros Ht. destruct u as [[? [|]]|]; simpl; [|by apply typed_insert|done].
  by repeat apply typed_insert.
Qed.

Lemma typed_session_options t input m : typed t m → typed t (session_options input m).
Proof.
  intros Ht. unfold session_options, session_keys. cbn [foldl].
  repeat (case_match; try apply typed_insert; try done).
Qed.

Lemma typed_base t tag server port : typed t (base_node t tag server port).
Proof. unfold typed, base_node. by simplify_map_eq. Qed.

Lemma typed_stringValue t m : typed t m → stringValue m "type" = TrimSpace t.
Proof. intros Ht. unfold stringValue. by rewrite Ht. Qed.
End types.

Create HintDb typed.
#[export] Hint Resolve typed_copyString typed_set_transport typed_set_user
  typed_session_options typed_base : typed.
#[export] Hint Extern 1 (typed _ (<[_ := _]> _)) => apply typed_insert; [discriminate|] : typed.
#[export] Hint Extern 1 (_ ≠ "type") => discriminate : typed.

Section well_formed.
Context `{FloatText, Decoders, NetUrl}.

Lemma normalizeClashNode_typed input m :
  normalizeClashNode input = Some m →
  ToLower (stringValue input "type") ∈ supportedNormalizedTypes ∧
  typed (ToLower (stringValue input "type")) m.
Proof.
  unfold normalizeClashNode. case_decide as Ht; [done|]. intros Hm.
  split; [by destruct (decide (ToLower (stringValue input "type") ∈ supportedNormalizedTypes))|].
  destruct (intValue _) as [port|]; [|done]. case_match; [done|].
  repeat case_decide; try done; injection Hm as <-; try case_match; eauto 8 with typed.
Qed.

Lemma normalizeURINode_typed u m :
  normalizeURINode u = Some m → ∃ t, (t = "http" ∨ t = "vless") ∧ typed t m.
Proof.
  unfold normalizeURINode. intros Hm. destruct (Atoi _) as [port|]; [|done].
  destruct (negb _ || _); [done|]. destruct (oneOf _ ["http"; "https"]).
  - injection Hm as <-. exists "http". split; [by left|]. case_decide; eauto 8 with typed.
  - destruct (url_User u) as [[username ?]|]; [|done]. case_decide; [done|].
    injection Hm as <-. exists "vless". split; [by right|].
    apply typed_set_transport. repeat case_match; eauto 8 with typed.
Qed.

Lemma node_from_map_wf entry node :
  node_from_map FormatSingBox "tag" entry = Some node → well_formed node.
Proof.
  unfold node_from_map. destruct entry as [| | | | | |item|]; try done.
  case_decide as Ht; [done|]. set (item' := if decide _ then _ else _).
  intros Hn. destruct (Marshal (VMap item')) as [raw|] eqn:Hraw; [|done]. simpl in Hn.
  injection Hn as <-.
  assert (item' !! "type" = item !! "type") as Htype.
  { subst item'. case_decide; [|done]. unfold normalizeSingBoxVLESS.
    repeat case_match; try done. by rewrite lookup_insert_ne. }
  split; cbn -[marshal_or_empty]; [done|apply dec_stable; tauto|apply digest_shape|done|].
  exists item'. unfold stringValue. rewrite Htype. split_and!; [|done..].
  unfold marshal_or_empty. by rewrite Hraw.
Qed.

Lemma node_from_clash_wf entry node : node_from_clash entry = Some node → well_formed node.
Proof.
  unfold node_from_clash. destruct entry as [| | | | | |item|]; try done. intros Hn.
  destruct (normalizeClashNode item) as [m|] eqn:Hm; [|done]. injection Hn as <-.
  apply normalizeClashNode_typed in Hm as [Hin Ht].
  assert (value_string (m !! "type") = ToLower (stringValue item "type")) as Hv by (by rewrite Ht).
  split; cbn; rewrite ?Hv; [done|by apply supported_normalized|apply digest_shape|done|].
  exists m. split_and!; [done..|]. rewrite (typed_stringValue _ _ Ht).
  unfold supportedNormalizedTypes in Hin. rewrite !elem_of_cons, elem_of_nil in Hin.
  destruct Hin as [->|[->|[->|[]]]]; reflexivity.
Qed.

Lemma webshare_record_wf line node : webshare_record line = inr node → well_formed node.
Proof.
  unfold webshare_record. intros Hn. repeat case_match; try done. injection Hn as <-.
  split; cbn; [done| |apply digest_shape|done|].
  - unfold supportedRuntimeTypes. rewrite !elem_of_cons. tauto.
  - eexists. split_and!; [reflexivity..|]. unfold stringValue, http_outbound. by simplify_map_eq.
Qed.

Lemma webshare_records_wf lines nodes :
  webshare_records lines = inr nodes → Forall well_formed nodes.
Proof.
  revert nodes. induction lines as [|line rest IH]; intros nodes Hn; simpl in Hn; simplify_eq; [done|].
  case_decide; [by apply IH|]. destruct (webshare_record line) as [|node] eqn:Hr; [done|].
  destruct (webshare_records rest) as [|ns]; [done|]. simplify_eq.
  constructor; [by eapply webshare_record_wf|by apply IH].
Qed.

Lemma uri_line_wf line node u : uri_line line = inr (Some node, u) → well_formed node.
Proof.
  unfold uri_line. intros Hn. destruct (url_Parse line) as [parsed|]; [|done].
  case_match; [done|]. case_match; [done|].
  destruct (normalizeURINode parsed) as [m|] eqn:Hm; [|done]. simplify_eq.
  apply normalizeURINode_typed in Hm as (t & Ht & Htm).
  assert (ToLower (stringValue m "type") = t) as Hv.
  { rewrite (typed_stringValue _ _ Htm). by destruct Ht as [-> | ->]. }
  split; cbn; rewrite ?Hv; [done| |apply digest_shape|done|by exists m].
  unfold supportedRuntimeTypes. rewrite !elem_of_cons. destruct Ht as [-> | ->]; tauto.
Qed.

Lemma uri_lines_wf lines acc nodes u :
  uri_lines lines acc = inr (nodes, u) → Forall well_formed acc.1 → Forall well_formed nodes.
Proof.
  revert acc. induction lines as [|line rest IH]; intros acc Hn Hacc; simpl in Hn; simplify_eq/=; [done|].
  case_decide; [by eapply IH|]. destruct (uri_line line) as [|[node u']] eqn:Hl; [done|].
  apply IH in Hn; [done|]. simpl. apply Forall_app. split; [done|].
  destruct node as [node|]; constructor; [by eapply uri_line_wf|constructor].
Qed.

Lemma enforceNodeLimit_inr result nodes :
  enforceNodeLimit result = inr nodes → result = inr nodes ∧ length nodes ≤ MaxNodesPerSource.
Proof.
  unfold enforceNodeLimit. destruct result as [|ns]; [done|]. case_decide; [done|].
  intros Hn. simplify_eq. split; [done|lia].
Qed.

Lemma omap_Forall {A B} (f : A → option B) (P : B → Prop) l :
  (∀ x y, f x = Some y → P y) → Forall P (omap f l).
Proof.
  intros Hf. apply Forall_forall. intros y (x & _ & Hx)%list_elem_of_omap. eauto.
Qed.
End well_formed.

Section theorems.
Context `{FloatText, Decoders, NetUrl}.

Lemma parseJSON_wf o body nodes : parseJSON o body = Some (inr nodes) → Forall well_formed nodes.
Proof.
  unfold parseJSON. intros Hn. destruct (json_Unmarshal body) as [root|]; [|done].
  destruct (validateStructure o root); [done|].
  repeat case_match; simplify_eq; by apply omap_Forall, node_from_map_wf.
Qed.

Lemma parseClash_wf o body nodes : parseClash o body = Some (inr nodes) → Forall well_formed nodes.
Proof.
  unfold parseClash. intros Hn. destruct (yaml_Unmarshal body) as [root|]; [|done].
  destruct (validateStructure o (VMap root)); [done|].
  repeat case_match; simplify_eq; by apply omap_Forall, node_from_clash_wf.
Qed.

Lemma parseURIs_wf text nodes : parseURIs text = inr nodes → Forall well_formed nodes.
Proof.
  unfold parseURIs. intros Hn. destruct (uri_lines _ _) as [|[ns u]] eqn:Hl; [done|].
  repeat case_match; simplify_eq. by eapply uri_lines_wf.
Qed.

(** Whatever the text of a subscription, [Parse] terminates with an error or
    with at most 512 nodes that the gateway can load: each is in sing-box format, of
    a type the engine registers, identified by 24 hexadecimal digits that digest its
    own options, and without sources of its own. *)
Lemma parse_yields_loadable_nodes o body hint :
  match parse_subscription o body hint with
  | inl _ => True
  | inr nodes => length nodes ≤ MaxNodesPerSource ∧ Forall well_formed nodes
  end.
Proof.
  destruct (parse_subscription o body hint) as [|nodes] eqn:Hp; [done|].
  unfold parse_subscription in Hp. case_decide; [done|].
  destruct (parseJSON o _) as [r|] eqn:Hj; [|destruct (parseClash o _) as [r|] eqn:Hc;
    [|destruct (parseWebshare _) as [r|] eqn:Hw]];
    apply enforceNodeLimit_inr in Hp as [Hr Hlen]; subst; (split; [done|]).
  - by eapply parseJSON_wf.
  - by eapply parseClash_wf.
  - unfold parseWebshare in Hw. repeat case_match; simplify_eq. by eapply webshare_records_wf.
  - by eapply parseURIs_wf.
Qed.

(** *** Identity *)

(** The port of a node map, under either name. *)
Definition port_entry (m : GoMap) : option Value :=
  match m !! "port" with Some p => Some p | None => m !! "server_port" end.

Lemma canonical_lookup m k :
  canonical_map m !! k =
    if decide (k = "tag" ∨ k = "name" ∨ k = "port") then None
    else if decide (k = "server_port") then port_entry m else m !! k.
Proof.
  unfold canonical_map, port_entry.
  destruct (delete "name" (delete "tag" m) !! "port") as [p|] eqn:Hp;
    rewrite !lookup_delete_ne in Hp by done; rewrite Hp.
  - repeat case_decide; destruct_or?; subst; simplify_map_eq; try done.
  - repeat case_decide; destruct_or?; subst; simplify_map_eq; try done.
Qed.

(** The ID is a function of the entries other than names, with one port. *)
Lemma canonical_map_eq m m' :
  (∀ k, k ∉ ["tag"; "name"; "port"; "server_port"] → m !! k = m' !! k) →
  port_entry m = port_entry m' → canonical_map m = canonical_map m'.
Proof.
  intros Hm Hp. apply map_eq. intros k. rewrite !canonical_lookup.
  repeat case_decide; try done. apply Hm. rewrite !elem_of_cons, elem_of_nil. tauto.
Qed.

Lemma stable_id_eq m m' :
  (∀ k, k ∉ ["tag"; "name"; "port"; "server_port"] → m !! k = m' !! k) →
  port_entry m = port_entry m' → stableMapID m = stableMapID m'.
Proof. intros Hm Hp. unfold stableMapID. by rewrite (canonical_map_eq m m'). Qed.

(** A valid record of a Webshare list. *)
Lemma webshare_record_valid line server port username password node :
  Split line ":" = [server; port; username; password] → webshare_record line = inr node →
  is_Some (ParseIPv4 server) ∧ username ≠ "" ∧ password ≠ "" ∧
  ∃ n, Atoi port = Some n ∧ valid_port n = true ∧
    node = mkNodeSpec (stableMapID (http_outbound server username password n)) "" "http"
             FormatSingBox (marshal_or_empty (http_outbound server username password n)) [].
Proof.
  intros Hsplit. unfold webshare_record. rewrite Hsplit. intros Hn.
  destruct (bool_decide (is_Some (ParseIPv4 server))) eqn:Hip; [|done].
  destruct (bool_decide (username = "")) eqn:Hu; [done|].
  destruct (bool_decide (password = "")) eqn:Hp; [done|].
  apply bool_decide_eq_true in Hip. apply bool_decide_eq_false in Hu, Hp. simpl in Hn.
  destruct (has_blank _); [done|]. destruct (Atoi port) as [n|]; [|done].
  destruct (valid_port n) eqn:Hv; [|done]. simpl in Hn. simplify_eq. eauto 10.
Qed.

(** C26: one HTTP proxy has one ID, whichever kind of subscription lists it: a line
    of a Webshare list, a URI with the same host, port and credentials, and a Clash
    entry with them and without TLS all become nodes with the same ID, whatever
    their names. The manager therefore merges them into one node. *)
Theorem http_proxy_identity line server port username password node :
  Split line ":" = [server; port; username; password] →
  webshare_record line = inr node →
  (∀ uri u, url_Parse uri = Some u → url_Scheme u = "http" → Hostname u = server →
     Atoi (Port u) = Atoi port → url_User u = Some (username, Some password) →
     ∃ node', uri_line uri = inr (Some node', false) ∧ spec_ID node' = spec_ID node ∧
       spec_Tag node' = url_Fragment u) ∧
  (∀ item, ToLower (stringValue item "type") = "http" → stringValue item "server" = server →
     intValue (item !! "port") = Atoi port → stringValue item "username" = username →
     stringValue item "password" = password → boolValue (item !! "tls") = false →
     ∃ node', node_from_clash (VMap item) = Some node' ∧ spec_ID node' = spec_ID node ∧
       spec_Tag node' = stringValue item "name").
Proof.
  intros Hsplit Hnode.
  destruct (webshare_record_valid _ _ _ _ _ _ Hsplit Hnode) as (Hip & Hu & Hp & n & Hn & Hv & ->).
  assert (server ≠ "") as Hs by (intros ->; by destruct Hip). split.
  - intros uri u Huri Hscheme Hhost Hport Huser. unfold uri_line. rewrite Huri.
    rewrite Hscheme. rewrite bool_decide_false by done.
    rewrite bool_decide_false by (intros Hh; apply Hs; rewrite <-Hhost; unfold Hostname; by rewrite Hh).
    cbn [orb]. unfold normalizeURINode. rewrite Hport, Hn, Hv, Hhost, Hscheme, Huser.
    rewrite bool_decide_false by done. eexists. split; [reflexivity|]. split; reflexivity.
  - intros item Htype Hserver Hport Huser Hpass Htls. unfold node_from_clash, normalizeClashNode.
    rewrite Htype, Hserver, Hport, Hn, Hv, Htls.
    rewrite decide_False by (apply (bool_decide_unpack _); vm_compute; exact I).
    rewrite bool_decide_false by done. cbn [orb negb]. unfold copyString. rewrite Huser, Hpass.
    rewrite decide_False by done. rewrite decide_True by done. rewrite !decide_True by done.
    eexists. split; [reflexivity|]. split; reflexivity.
Qed.

(** *** JSON documents *)

Lemma expressible_child v x : expressible v → x ∈ children v → expressible x.
Proof. intros Hv. inversion Hv as [? _ Hsub]; subst. rewrite Forall_forall in Hsub. auto. Qed.

Lemma expressible_lookup m k x : expressible (VMap m) → m !! k = Some x → expressible x.
Proof.
  intros Hm Hk. apply (expressible_child _ _ Hm). simpl. apply list_elem_of_fmap.
  exists (k, x). by rewrite elem_of_map_to_list.
Qed.

Lemma expressible_map m : (∀ k x, m !! k = Some x → expressible x) → expressible (VMap m).
Proof.
  intros Hm. constructor; [done|]. simpl. apply Forall_forall.
  intros x ([k y] & -> & Hk%elem_of_map_to_list)%list_elem_of_fmap. eauto.
Qed.

Lemma expressible_insert m k x :
  expressible (VMap m) → expressible x → expressible (VMap (<[k := x]> m)).
Proof.
  intros Hm Hx. apply expressible_map. intros k' y [[-> ->]|[_ Hy]]%lookup_insert_Some; [done|].
  by eapply expressible_lookup.
Qed.

Lemma expressible_singleton k x : expressible x → expressible (VMap {[ k := x ]}).
Proof.
  intros Hx. apply expressible_map. by intros k' y [-> ->]%lookup_singleton_Some.
Qed.

Lemma expressible_leaf s : expressible (str s).
Proof. by constructor. Qed.

Lemma expressible_normalized item :
  expressible (VMap item) → expressible (VMap (normalizeSingBoxVLESS item)).
Proof.
  intros Hi. unfold normalizeSingBoxVLESS.
  destruct (item !! "tls") as [[| | | | | |tls|]|] eqn:Htls; simpl; try done.
  repeat case_match; try done. apply expressible_insert; [done|].
  apply expressible_insert; [by eapply expressible_lookup|].
  apply expressible_map. intros k x Hx.
  unfold enabled in Hx. rewrite lookup_insert_Some, lookup_singleton_Some in Hx.
  destruct Hx as [[_ <-]|[_ [_ <-]]]; by repeat constructor.
Qed.

(** The types the entries of a document name. *)
Definition entry_type (entry : Value) : option string :=
  match entry with VMap item => Some (ToLower (stringValue item "type")) | _ => None end.
Definition entry_types (entries : list Value) : list string := omap entry_type entries.

Definition unsupported (allowed : list string) (t : string) : Prop :=
  t ≠ "" ∧ (t ∉ ignoredOutboundTypes) ∧ (t ∉ allowed).

Lemma unsupportedType_spec entries allowed :
  if decide (unsupportedType entries allowed = "")
  then ∀ t, t ∈ entry_types entries → ¬ unsupported allowed t
  else unsupportedType entries allowed ∈ entry_types entries ∧
       unsupported allowed (unsupportedType entries allowed).
Proof.
  induction entries as [|entry entries IH].
  { rewrite decide_True by done. by intros t ?%elem_of_nil. }
  destruct entry as [| | | | | |item|]; try exact IH.
  unfold entry_types. cbn [unsupportedType omap list_omap entry_type].
  fold (entry_types entries). set (t := ToLower (stringValue item "type")).
  destruct (decide (t ≠ "" ∧ _)) as [Ht|Ht].
  - rewrite decide_False by tauto. split; [by left|done].
  - case_decide as He.
    + intros t' [->|Hin]%elem_of_cons; [done|]. by apply IH.
    + destruct IH as [??]. split; [by right|done].
Qed.

(** An entry of a type the engine knows. *)
Definition supported_entry (entry : Value) : Prop :=
  match entry_type entry with Some t => t ∈ supportedRuntimeTypes | None => False end.
#[export] Instance supported_entry_dec entry : Decision (supported_entry entry).
Proof. unfold supported_entry. destruct (entry_type entry); apply _. Defined.

(** The TLS options of a VLESS entry that enable Reality and name no browser to pose as. *)
Definition lacks_fingerprint (item tls : GoMap) : Prop :=
  ToLower (stringValue item "type") = "vless" ∧ item !! "tls" = Some (VMap tls) ∧
  tls !! "utls" = None ∧
  ∃ reality, tls !! "reality" = Some (VMap reality) ∧ boolValue (reality !! "enabled") = true.

(** What is handed on of an entry: the entry, in which such options name Chrome. *)
Definition handed_on (item sent : GoMap) : Prop :=
  (∃ tls, lacks_fingerprint item tls ∧
     sent = <["tls" := VMap (<["utls" := VMap {["enabled" := VBool true; "fingerprint" := VString "chrome"]}]>
       tls)]> item) ∨
  (sent = item ∧ ∀ tls, ¬ lacks_fingerprint item tls).

(** What identifies it: all but its names, the port under either of its names. *)
Definition identifying (sent c : GoMap) : Prop :=
  c !! "tag" = None ∧ c !! "name" = None ∧ c !! "port" = None ∧
  c !! "server_port" = (match sent !! "port" with Some port => Some port | None => sent !! "server_port" end) ∧
  ∀ k, (k ∉ ["tag"; "name"; "port"; "server_port"]) → c !! k = sent !! k.

(** The node an entry becomes. *)
Definition json_node (entry : Value) (node : NodeSpec) : Prop :=
  ∃ item sent c text id_text,
    entry = VMap item ∧ handed_on item sent ∧ identifying sent c ∧
    Marshal (VMap sent) = Some text ∧ Marshal (VMap c) = Some id_text ∧
    node = mkNodeSpec (hex_encode (take 12 (Sum256 id_text)))
      (match item !! "tag" with Some (VString t) => t | _ => "" end)
      (ToLower (stringValue item "type")) "sing-box" text [].

Lemma normalize_handed_on item :
  let sent := if decide (ToLower (stringValue item "type") = "vless")
    then normalizeSingBoxVLESS item else item in
  handed_on item sent ∧ sent !! "tag" = item !! "tag" ∧
  (expressible (VMap item) → expressible (VMap sent)).
Proof.
  cbv zeta. destruct (decide _) as [Ht|Ht].
  - split_and!; [| |apply expressible_normalized]; unfold normalizeSingBoxVLESS, as_map.
    + destruct (item !! "tls") as [[| | | | | |tls|]|] eqn:Htls;
        try (right; split; [done|]; intros tls' (_ & Htls' & _); congruence).
      destruct (tls !! "reality") as [[| | | | | |reality|]|] eqn:Hr;
        try (right; split; [done|]; intros tls' (_ & Htls' & _ & ? & ? & _); congruence).
      destruct (boolValue (reality !! "enabled")) eqn:Hen; cbn [negb];
        [|right; split; [done|]; intros tls' (_ & Htls' & _ & ? & ? & ?); congruence].
      destruct (tls !! "utls") eqn:Hutls.
      { right. split; [done|]. intros tls' (_ & Htls' & ? & _). congruence. }
      left. exists tls. split; [by split_and!; [..|exists reality]|].
      assert (<["fingerprint" := str "chrome"]> enabled =
        {["enabled" := VBool true; "fingerprint" := VString "chrome"]}) as -> by reflexivity. done.
    + repeat case_match; try done. by rewrite lookup_insert_ne.
  - split_and!; [|done|done]. right. split; [done|]. by intros tls (? & _).
Qed.

Lemma canonical_identifying sent : identifying sent (canonical_map sent).
Proof.
  unfold identifying, canonical_map.
  assert (delete "name" (delete "tag" sent) !! "port" = sent !! "port") as ->
    by (by rewrite !lookup_delete_ne).
  assert (∀ k, (k ∉ ["tag"; "name"; "port"; "server_port"]) →
    k ≠ "tag" ∧ k ≠ "name" ∧ k ≠ "port" ∧ k ≠ "server_port") as Hne.
  { intros k. rewrite !elem_of_cons, elem_of_nil. tauto. }
  destruct (sent !! "port") as [port|] eqn:Hport; split_and!;
    try (intros k (? & ? & ? & ?)%Hne; by simplify_map_eq); try by simplify_map_eq.
Qed.

Lemma expressible_identifying sent c :
  expressible (VMap sent) → identifying sent c → expressible (VMap c).
Proof.
  intros Hs (Htag & Hname & Hport & Hserver & Hrest). apply expressible_map. intros k x Hk.
  destruct (decide (k ∈ ["tag"; "name"; "port"; "server_port"])) as [Hin|Hin].
  - rewrite !elem_of_cons, elem_of_nil in Hin.
    destruct Hin as [->|[->|[->|[->|[]]]]]; try congruence. rewrite Hserver in Hk.
    destruct (sent !! "port") eqn:Hp; simplify_eq; by eapply expressible_lookup.
  - rewrite Hrest in Hk by done. by eapply expressible_lookup.
Qed.

Lemma node_from_map_json item :
  expressible (VMap item) → supported_entry (VMap item) →
  ∃ node, node_from_map FormatSingBox "tag" (VMap item) = Some node ∧ json_node (VMap item) node.
Proof.
  intros Hx Hin. unfold supported_entry in Hin. cbn [entry_type] in Hin.
  destruct (normalize_handed_on item) as (Hsent & Htag & Hxs). specialize (Hxs Hx).
  unfold node_from_map. set (t := ToLower (stringValue item "type")) in *.
  rewrite (decide_False (P := t = "" ∨ _)).
  2:{ intros [Ht|[Ht|Ht]]; [..|done].
      - rewrite Ht in Hin. revert Hin. apply (bool_decide_unpack _). vm_compute. exact I.
      - revert Hin. unfold ignoredOutboundTypes in Ht. rewrite !elem_of_cons, elem_of_nil in Ht.
        destruct Ht as [->|[->|[->|[->|[->|[]]]]]]; apply (bool_decide_unpack _); vm_compute; exact I. }
  set (sent := if decide (t = "vless") then _ else _) in *.
  assert ((if decide (FormatSingBox = FormatSingBox ∧ t = "vless")
    then normalizeSingBoxVLESS item else item) = sent) as ->.
  { unfold sent. by destruct (decide (t = "vless")); [rewrite decide_True|rewrite decide_False by tauto]. }
  destruct (Marshal_expressible _ Hxs) as [text Htext]. rewrite Htext, Htag.
  cbn [mbind option_bind]. eexists. split; [reflexivity|].
  pose proof (canonical_identifying sent) as Hc.
  destruct (Marshal_expressible _ (expressible_identifying _ _ Hxs Hc)) as [id_text Hid].
  exists item, sent, (canonical_map sent), text, id_text. split_and!; [done..|].
  unfold stableMapID, digest, marshal_or_empty. by rewrite Hid.
Qed.

Lemma nodesFromMaps_nodes entries :
  Forall expressible entries →
  Forall2 json_node (filter supported_entry entries) (nodesFromMaps entries FormatSingBox "tag").
Proof.
  unfold nodesFromMaps. induction 1 as [|entry entries He _ IH]; [constructor|].
  rewrite filter_cons. case_decide as Hs.
  - unfold supported_entry in Hs. destruct entry as [| | | | | |item|]; try done.
    destruct (node_from_map_json item He Hs) as (node & Hn & Hj). cbn [omap list_omap].
    rewrite Hn. by constructor.
  - destruct entry as [| | | | | |item|]; try exact IH. cbn [omap list_omap].
    destruct (node_from_map _ _ (VMap item)) eqn:Hn; [|exact IH]. destruct Hs.
    revert Hn. unfold node_from_map. case_decide as Ht; [done|]. intros _.
    unfold supported_entry. cbn [entry_type]. apply dec_stable. tauto.
Qed.

(** C27: a JSON document within the structure bound, whose root is an array of entries or
    an object that holds one under outbounds, is either refused, because one of its entries
    names a type the engine does not know, or yields, in order, exactly one node for each
    entry of a supported type: its options are the JSON text of the entry (in which a VLESS
    entry with Reality and no browser fingerprint names Chrome), its ID the first 24
    hexadecimal digits of the SHA-256 digest of the entry without its names and with one
    name for the port, its type and tag those of the entry, and it has no sources yet. (The
    decoded values are such that JSON can express them, as those of a JSON text are.) *)
Theorem json_subscription_complete o body root entries :
  json_Unmarshal body = Some root → expressible root → validateStructure o root = None →
  root = VArr entries ∨ (∃ m, root = VMap m ∧ m !! "outbounds" = Some (VArr entries)) →
  match parseJSON o body with
  | None => False
  | Some (inl err) => err = ErrNew "subscription contains an unsupported proxy protocol" ∧
      ∃ t, t ∈ entry_types entries ∧ unsupported supportedRuntimeTypes t
  | Some (inr nodes) =>
      Forall2 json_node (filter supported_entry entries) nodes ∧
      ∀ t, t ∈ entry_types entries → ¬ unsupported supportedRuntimeTypes t
  end.
Proof.
  intros Hj Hx Hv Hroot. unfold parseJSON. rewrite Hj, Hv.
  assert (Forall expressible entries) as Hall.
  { apply Forall_forall. intros x Hin.
    assert (expressible (VArr entries)) as Harr
      by (destruct Hroot as [->|(m & -> & Hm)]; [done|by eapply expressible_lookup]).
    by apply (expressible_child _ _ Harr). }
  pose proof (unsupportedType_spec entries supportedRuntimeTypes) as Hu.
  pose proof (nodesFromMaps_nodes entries Hall) as Ht.
  assert (∀ from : list Value → GoError + list NodeSpec, match root with
    | VMap value => match value !! "outbounds" with
        | Some (VArr outbounds) => Some (from outbounds)
        | _ => Some (inl (ErrNew "JSON subscription has no outbounds array")) end
    | VArr value => Some (from value)
    | _ => Some (inl (ErrNew "JSON subscription root must be an object or array")) end =
    Some (from entries)) as ->.
  { intros from. destruct Hroot as [->|(m & -> & Hm)]; [done|by rewrite Hm]. }
  destruct (decide (unsupportedType entries supportedRuntimeTypes ≠ "")) as [Hne|He].
  - rewrite decide_False in Hu by done. destruct Hu as [Hin Hun]. split; [done|]. eauto.
  - rewrite decide_True in Hu by (by apply dec_stable). done.
Qed.
End theorems.
