(* ===== verification/Supply.v ===== *)
(** * From subscription text to the registry: the manager over parse.go feeding
    [Registry.Apply] and the engine. *)
From stdpp Require Import gmap strings list sorting fin_maps.
From S2P Require Import Prelude.
From S2P Require Import GoBase.
From S2P Require Import GoStrings.
From S2P Require Import GoHash.
From S2P Require Import JsonValue.
From S2P Require Import NetUrl.
From S2P Require Import Model.
From S2P Require Import Selector.
From S2P Require Import Registry.
From S2P Require Import Engine.
From S2P Require Import Manager.
From S2P Require Import ParseNodes.
From stdpp Require Import options.

(** A node of a snapshot: parsed, then given its sources. *)
Definition loadable `{FloatText} (node : NodeSpec) : Prop := well_formed (set_SourceIDs [] node).

(** ** What the engine does with well-formed nodes *)

Section engine.
Context {Box Options : Type} `{!SingBox Box Options, FloatText}.

Lemma supported_is_proxy t :
  t ∈ supportedRuntimeTypes → ToLower (TrimSpace t) = t ∧ t ≠ "" ∧ (t ∉ nonProxyTypes).
Proof.
  unfold supportedRuntimeTypes. rewrite !elem_of_cons, elem_of_nil.
  intros [->|[->|[->|[->|[->|[->|[]]]]]]]; (split_and!; [reflexivity|done|]);
    apply (bool_decide_unpack _); vm_compute; exact I.
Qed.




(** Whatever state the engine is in, a node whose type is not read back is refused. *)
Lemma engine_refuses node text opts (e : Engine Box) :
  loadable node → sb_unmarshal (spec_Options node) = Some (text, opts) → text ≠ spec_Type node →
  ∃ err, (engine_Build node e).2 = inl err.
Proof.
  intros Hw Hu Hne. pose proof (wf_type _ Hw) as Hty. cbn in Hty.
  apply supported_is_proxy in Hty as (Hlow & _).
  unfold engine_Build. destruct (eng_closed e); [by eexists|].
  case_decide; [by eexists|]. case_decide; [by eexists|].
  rewrite Hu, Hlow. rewrite decide_True by (by left). by eexists.
Qed.

(** nodesFromMaps compares the type of an entry in lower case and without the
    blanks around it, but hands the entry on as it is: where sing-box reads back the
    text of the entry, the engine refuses a type that was not normalized already. *)
Lemma unnormalized_type_refused item text node (e : Engine Box) :
  item !! "type" = Some (str text) → ToLower (TrimSpace text) ≠ text →
  node_from_map FormatSingBox "tag" (VMap item) = Some node →
  (∀ type opts, sb_unmarshal (spec_Options node) = Some (type, opts) → type = text) →
  spec_Type node = ToLower (TrimSpace text) ∧ ∃ err, (engine_Build node e).2 = inl err.
Proof.
  intros Htext Hne Hnode Hu.
  assert (spec_Type node = ToLower (TrimSpace text)) as Hty.
  { revert Hnode. unfold node_from_map, stringValue. rewrite Htext. simpl.
    destruct (decide _); [done|]. destruct (mbind _ _) eqn:Hm; [|done]. intros; simplify_eq.
    revert Hm. destruct (_ <$> _); simpl; [|done]. intros; by simplify_eq. }
  split; [done|]. assert (loadable node) as Hw.
  { destruct (node_from_map_wf _ _ Hnode). by split. }
  destruct (sb_unmarshal (spec_Options node)) as [[type opts]|] eqn:Hread.
  - apply (engine_refuses _ type opts); [done|done|]. rewrite (Hu type opts), Hty by done. congruence.
  - unfold engine_Build. destruct (eng_closed e); [by eexists|].
    case_decide; [by eexists|]. case_decide; [by eexists|]. rewrite Hread. by eexists.
Qed.
End engine.

(** ** What a snapshot holds *)








Section supply.
Context {W Box Options : Type} `{!SingBox Box Options, FloatText, Decoders, NetUrl, SeedCodec}.
Context (o : RangeOrder) (fetcher : Fetcher W).
#[local] Existing Instance go_parser.


End supply.
