(* ===== verification/Monitor.v ===== *)
(** * alert/monitor.go: edge-triggered alerts on failing subscriptions, on too few
    nodes and on expiring subscriptions. *)
From stdpp Require Import gmap strings list fin_maps.
From S2P Require Import Prelude.
From S2P Require Import GoBase.
From S2P Require Import GoStrings.
From S2P Require Import NetUrl.
From S2P Require Import Model.
From S2P Require Import Selector.
From S2P Require Import Registry.
From stdpp Require Import options.

(** ** [time.Time.Format "2006-01-02 15:04"] in UTC+8 *)

(** Days since 0001-01-01 to a civil date, by eras of 400 years starting in March. *)
Definition civil_of_days (days : Z) : Z * Z * Z :=
  let z := (days + 306)%Z in
  let era := (z `div` 146097)%Z in
  let doe := (z `mod` 146097)%Z in
  let yoe := ((doe - doe `div` 1460 + doe `div` 36524 - doe `div` 146096) `div` 365)%Z in
  let doy := (doe - (365 * yoe + yoe `div` 4 - yoe `div` 100))%Z in
  let mp := ((5 * doy + 2) `div` 153)%Z in
  let d := (doy - (153 * mp + 2) `div` 5 + 1)%Z in
  let m := (if mp <? 10 then mp + 3 else mp - 9)%Z in
  (yoe + era * 400 + (if m <=? 2 then 1 else 0), m, d)%Z.

Definition pad (width : nat) (n : Z) : string :=
  let s := Itoa n in
  String.concat "" (replicate (width - String.length s) "0") +:+ s.

Definition FormatMinuteCST (t : Z) : string :=
  let seconds := (t `div` Second + 8 * 3600)%Z in
  let '(y, m, d) := civil_of_days (seconds `div` 86400)%Z in
  let rest := (seconds `mod` 86400)%Z in
  pad 4 y +:+ "-" +:+ pad 2 m +:+ "-" +:+ pad 2 d +:+ " " +:+
  (pad 2 (rest `div` 3600)%Z +:+ ":" +:+ pad 2 ((rest `mod` 3600) `div` 60)%Z).

Example format_epoch : FormatMinuteCST (62135596800 * Second) = "1970-01-01 08:00".
Proof. vm_compute. reflexivity. Qed.
Example format_leap : FormatMinuteCST ((62135596800 + 1709222340) * Second) = "2024-02-29 23:59".
Proof. vm_compute. reflexivity. Qed.

(** ** Data *)

(** A [Sender] over the state [W] of the outside world; [None] is a nil error. *)
Abbreviation Sender W := (string → string → W → W * option GoError).

Record Monitor := mkMonitor {
  mon_threshold : Z;
  mon_sourceLabels : gmap string string;
  mon_alertedSources : gset string;
  mon_lowNodesAlerted : bool;
  mon_expiryAlerted : gmap string Z;
}.

(** [alertedSources] is a [map[string]bool] that only ever holds [true]. *)
Definition NewMonitor (threshold : Z) (sourceLabels : gmap string string) : Monitor :=
  mkMonitor (if (threshold <? 1)%Z then 30 else threshold) sourceLabels ∅ false ∅.

(** The label of a source is where it comes from, never its full URL. *)
Definition SourceLabels `{NetUrl} (subscriptionURLs : list string) : gmap string string :=
  list_to_map (imap (λ index rawURL,
    (Itoa (Z.of_nat index + 1),
     match url_Parse rawURL with
     | Some parsed =>
         if decide (url_Scheme parsed = "file") then "Webshare 文件"
         else if decide (Hostname parsed ≠ "") then Hostname parsed
         else "未知域名"
     | None => "未知域名"
     end)) subscriptionURLs).

Section operations.
Context {W : Type} (sender : option (Sender W)).

(** [monitor.sender == nil || monitor.sender.Send(ctx, title, body) != nil], negated. *)
Definition deliver (title body : string) (w : W) : W * bool :=
  match sender with
  | None => (w, false)
  | Some send =>
      match send title body w with
      | (w', None) => (w', true)
      | (w', Some _) => (w', false)
      end
  end.

Definition source_body (mon : Monitor) (stats : Stats) (id : string) : string :=
  let label0 := default "" (mon_sourceLabels mon !! id) in
  let label := if decide (label0 = "") then "未知域名" else label0 in
  "订阅 " +:+ id +:+ "（" +:+ label +:+
  "）刷新失败，请检查订阅是否失效或网络是否异常。如有上次成功的节点缓存，网关会继续使用。当前可用节点 "
  +:+ Itoa (Z.of_nat (st_Healthy stats)) +:+ "/" +:+ Itoa (Z.of_nat (st_Total stats)) +:+ "。".

Definition low_nodes_body (mon : Monitor) (stats : Stats) : string :=
  "可用代理节点仅 " +:+ Itoa (Z.of_nat (st_Healthy stats)) +:+ " 个，已低于告警阈值 " +:+
  Itoa (mon_threshold mon) +:+ " 个。总节点 " +:+ Itoa (Z.of_nat (st_Total stats)) +:+
  " 个，不可用 " +:+ Itoa (Z.of_nat (st_Unhealthy stats)) +:+ " 个，请检查订阅和节点状态。".

Definition source_title : string := "代理订阅异常".
Definition low_nodes_title : string := "代理可用节点不足".
Definition expiry_title : string := "代理订阅续费提醒".

(** [for id := range alertedSources { if _, failed := ...; !failed { delete } }] *)
Definition rearm (sourceErrors : gmap string string) (alerted : gset string) : gset string :=
  filter (λ id, is_Some (sourceErrors !! id)) alerted.

(** The loop over the sorted failed sources. *)
Fixpoint alert_sources (mon : Monitor) (stats : Stats) (failedIDs : list string)
    (alerted : gset string) (w : W) : W * gset string * list GoError :=
  match failedIDs with
  | [] => (w, alerted, [])
  | id :: rest =>
      if decide (id ∈ alerted) then alert_sources mon stats rest alerted w
      else
        match deliver source_title (source_body mon stats id) w with
        | (w', false) =>
            let '(w'', alerted', failures) := alert_sources mon stats rest alerted w' in
            (w'', alerted',
             ErrNew ("subscription alert delivery failed for source " +:+ id) :: failures)
        | (w', true) => alert_sources mon stats rest ({[id]} ∪ alerted) w'
        end
  end.

Definition Evaluate (o : RangeOrder) (sourceErrors : gmap string string) (stats : Stats)
    (mon : Monitor) (w : W) : Monitor * W * list GoError :=
  let failedIDs := sort_strings (range_keys o sourceErrors) in
  let '(w1, alerted, failures) :=
    alert_sources mon stats failedIDs (rearm sourceErrors (mon_alertedSources mon)) w in
  if (mon_threshold mon <=? Z.of_nat (st_Healthy stats))%Z then
    (mkMonitor (mon_threshold mon) (mon_sourceLabels mon) alerted false
       (mon_expiryAlerted mon), w1, failures)
  else if negb (mon_lowNodesAlerted mon) then
    match deliver low_nodes_title (low_nodes_body mon stats) w1 with
    | (w2, false) =>
        (mkMonitor (mon_threshold mon) (mon_sourceLabels mon) alerted false
           (mon_expiryAlerted mon), w2,
         failures ++ [ErrNew "low-node alert delivery failed"])
    | (w2, true) =>
        (mkMonitor (mon_threshold mon) (mon_sourceLabels mon) alerted true
           (mon_expiryAlerted mon), w2, failures)
    end
  else
    (mkMonitor (mon_threshold mon) (mon_sourceLabels mon) alerted true
       (mon_expiryAlerted mon), w1, failures).

Definition expiry_body (mon : Monitor) (id : string) (expiry now : Z) : string :=
  "订阅 " +:+ id +:+ "（" +:+ default "" (mon_sourceLabels mon !! id) +:+ "）" +:+
  (if time_After expiry now then "将在一周内到期，请及时续费" else "已到期，请尽快续费") +:+
  "。到期时间：" +:+ FormatMinuteCST expiry +:+ "（北京时间）。".

Definition expiry_skipped (alerted : gmap string Z) (now : Z) (id : string) (expiry : Z) : bool :=
  time_IsZero expiry || time_After expiry (now + 7 * 24 * Hour)
  || time_Equal (default 0%Z (alerted !! id)) expiry.

Fixpoint alert_expiries (mon : Monitor) (now : Z) (expiries : list (string * Z))
    (alerted : gmap string Z) (w : W) : W * gmap string Z * list GoError :=
  match expiries with
  | [] => (w, alerted, [])
  | (id, expiry) :: rest =>
      if expiry_skipped alerted now id expiry then alert_expiries mon now rest alerted w
      else
        match deliver expiry_title (expiry_body mon id expiry now) w with
        | (w', false) =>
            let '(w'', alerted', failures) := alert_expiries mon now rest alerted w' in
            (w'', alerted', ErrNew "expiry alert delivery failed" :: failures)
        | (w', true) => alert_expiries mon now rest (<[id := expiry]> alerted) w'
        end
  end.

Definition EvaluateExpiry (o : RangeOrder) (expiries : gmap string Z) (now : Z)
    (mon : Monitor) (w : W) : Monitor * W * list GoError :=
  let '(w', alerted, failures) :=
    alert_expiries mon now (range_items o expiries) (mon_expiryAlerted mon) w in
  (mkMonitor (mon_threshold mon) (mon_sourceLabels mon) (mon_alertedSources mon)
     (mon_lowNodesAlerted mon) alerted, w', failures).
End operations.

(** ** Plans: what an evaluation sends, as a list *)

Section plans.
Context {W : Type} (sender : option (Sender W)).

(** Delivering messages one after the other; [true] is a delivery. *)
Fixpoint deliver_all (msgs : list (string * string)) (w : W) : W * list bool :=
  match msgs with
  | [] => (w, [])
  | (title, body) :: rest =>
      let '(w1, ok) := deliver sender title body w in
      let '(w2, oks) := deliver_all rest w1 in
      (w2, ok :: oks)
  end.

Lemma deliver_all_app msgs msgs' w :
  deliver_all (msgs ++ msgs') w =
    let '(w1, oks) := deliver_all msgs w in
    let '(w2, oks') := deliver_all msgs' w1 in (w2, oks ++ oks').
Proof.
  revert w. induction msgs as [|[title body] msgs IH]; intros w; simpl.
  - by destruct (deliver_all msgs' w).
  - destruct (deliver sender title body w) as [w1 ok]. rewrite IH.
    destruct (deliver_all msgs w1) as [w2 oks]. by destruct (deliver_all msgs' w2).
Qed.

Lemma deliver_all_length msgs w : length (deliver_all msgs w).2 = length msgs.
Proof.
  revert w. induction msgs as [|[title body] msgs IH]; intros w; simpl; [done|].
  destruct (deliver sender title body w) as [w1 ok]. specialize (IH w1).
  destruct (deliver_all msgs w1). simpl in *. by rewrite IH.
Qed.

(** The items of a plan whose delivery worked. *)
Definition delivered {A} (items : list A) (oks : list bool) : list A :=
  omap (λ io : A * bool, if io.2 then Some io.1 else None) (zip items oks).

Lemma delivered_elem {A} (items : list A) oks x : x ∈ delivered items oks → x ∈ items.
Proof.
  intros ([y [|]] & Hin & ?)%list_elem_of_omap; simplify_eq/=. by eapply elem_of_zip_l.
Qed.

Lemma delivered_sublist {A} (items : list A) oks : delivered items oks `sublist_of` items.
Proof.
  unfold delivered. revert oks. induction items as [|x items IH]; intros [|[|] oks]; simpl;
    [done|done|done|..|]; [apply sublist_nil_l|by constructor|by constructor].
Qed.

Lemma delivered_app {A} (items : list A) oks oks' :
  length oks = length items → delivered items (oks ++ oks') = delivered items oks.
Proof.
  intros Hlen. unfold delivered. f_equal.
  by rewrite <-(right_id_L [] (++) items) at 1; rewrite zip_with_app, zip_with_nil_l, (right_id_L [] (++)).
Qed.

Definition source_messages (mon : Monitor) (stats : Stats) (ids : list string)
    : list (string * string) :=
  (λ id, (source_title, source_body mon stats id)) <$> ids.

Lemma alert_sources_plan mon stats ids alerted w :
  NoDup ids →
  let pending := filter (λ id, id ∉ alerted) ids in
  let '(w', oks) := deliver_all (source_messages mon stats pending) w in
  ∃ failures, alert_sources sender mon stats ids alerted w =
    (w', list_to_set (delivered pending oks) ∪ alerted, failures) ∧
    length failures = count negb oks.
Proof.
  revert alerted w. induction ids as [|id ids IH]; intros alerted w Hnd; simpl.
  { exists []. by rewrite (left_id_L ∅ (∪)). }
  apply NoDup_cons in Hnd as [Hid Hnd]. rewrite filter_cons.
  destruct (decide (id ∈ alerted)) as [Hin|Hin].
  { rewrite decide_False by (intros ?; done). by apply IH. }
  rewrite decide_True by done. simpl.
  destruct (deliver sender source_title (source_body mon stats id) w) as [w1 [|]].
  - specialize (IH ({[id]} ∪ alerted) w1 Hnd); cbv zeta in IH.
    rewrite (list_filter_ext_elem _ (λ id, id ∉ alerted)) in IH.
    2: { intros x Hx. rewrite elem_of_union, elem_of_singleton. naive_solver. }
    destruct (deliver_all _ w1) as [w2 oks]. destruct IH as (failures & Heq & Hlen).
    exists failures. rewrite count_cons, <-Hlen. split; [|done]. rewrite Heq. f_equal. f_equal.
    simpl. set_solver.
  - specialize (IH alerted w1 Hnd); cbv zeta in IH. destruct (deliver_all _ w1) as [w2 oks].
    destruct IH as (failures & Heq & Hlen). rewrite Heq. eexists. split; [done|].
    rewrite count_cons. simpl. by rewrite Hlen.
Qed.

Definition expiry_messages (mon : Monitor) (now : Z) (items : list (string * Z))
    : list (string * string) :=
  (λ kv, (expiry_title, expiry_body mon kv.1 kv.2 now)) <$> items.

Lemma alert_expiries_plan mon now items alerted w :
  NoDup items.*1 →
  let due := filter (λ kv, expiry_skipped alerted now kv.1 kv.2 = false) items in
  let '(w', oks) := deliver_all (expiry_messages mon now due) w in
  ∃ failures, alert_expiries sender mon now items alerted w =
    (w', list_to_map (delivered due oks) ∪ alerted, failures) ∧
    length failures = count negb oks.
Proof.
  revert alerted w. induction items as [|[id expiry] items IH]; intros alerted w Hnd; simpl.
  { exists []. by rewrite (left_id_L ∅ (∪)). }
  apply NoDup_cons in Hnd as [Hid Hnd]. rewrite filter_cons. simpl in *.
  destruct (expiry_skipped alerted now id expiry); [by apply IH|]. simpl.
  destruct (deliver sender expiry_title (expiry_body mon id expiry now) w) as [w1 [|]].
  - specialize (IH (<[id := expiry]> alerted) w1 Hnd); cbv zeta in IH.
    rewrite (list_filter_ext_elem _ (λ kv, expiry_skipped alerted now kv.1 kv.2 = false)) in IH.
    2: { intros [id' x] Hx. unfold expiry_skipped. simpl. rewrite lookup_insert_ne; [done|].
         intros <-. apply Hid. apply list_elem_of_fmap. by exists (id, x). }
    destruct (deliver_all _ w1) as [w2 oks]. destruct IH as (failures & Heq & Hlen).
    exists failures. rewrite count_cons, <-Hlen. split; [|done]. rewrite Heq. f_equal. f_equal.
    rewrite <-insert_union_r; [by rewrite insert_union_l|].
    apply not_elem_of_list_to_map. intros Hin. apply Hid.
    apply list_elem_of_fmap in Hin as ([k v] & -> & Hin).
    apply list_elem_of_omap in Hin as ([kv ok] & Hin%elem_of_zip_l & Hok). simpl in *.
    destruct ok; [|done]. simplify_eq. apply list_elem_of_filter in Hin as [_ Hin].
    apply list_elem_of_fmap. by exists (k, v).
  - specialize (IH alerted w1 Hnd); cbv zeta in IH. destruct (deliver_all _ w1) as [w2 oks].
    destruct IH as (failures & Heq & Hlen). rewrite Heq. eexists. split; [done|].
    rewrite count_cons. simpl. by rewrite Hlen.
Qed.
End plans.

(** ** Theorems *)

Section theorems.
Context {W : Type} (sender : option (Sender W)).

(** The sources an evaluation alerts on, in order, and whether it alerts on the
    number of nodes. *)
Definition pending_sources (mon : Monitor) (sourceErrors : gmap string string) : list string :=
  filter (λ id, id ∉ mon_alertedSources mon) (sort_strings (elements (dom sourceErrors))).
Definition low_nodes (mon : Monitor) (stats : Stats) : bool :=
  (Z.of_nat (st_Healthy stats) <? mon_threshold mon)%Z.
Definition low_pending (mon : Monitor) (stats : Stats) : bool :=
  low_nodes mon stats && negb (mon_lowNodesAlerted mon).

Lemma alert_sources_rearmed (o : RangeOrder) mon stats errors w :
  let pending := pending_sources mon errors in
  let '(w', oks) := deliver_all sender (source_messages mon stats pending) w in
  ∃ failures, alert_sources sender mon stats (sort_strings (range_keys o errors))
      (rearm errors (mon_alertedSources mon)) w =
    (w', list_to_set (delivered pending oks) ∪ rearm errors (mon_alertedSources mon), failures) ∧
    length failures = count negb oks.
Proof.
  rewrite (sort_strings_proper _ _ (range_keys_perm o errors)).
  pose proof (alert_sources_plan sender mon stats (sort_strings (elements (dom errors)))
    (rearm errors (mon_alertedSources mon)) w) as Hplan. cbv zeta in *.
  rewrite (list_filter_ext_elem _ (λ id, id ∉ mon_alertedSources mon)) in Hplan.
  - apply Hplan. apply sort_strings_nodup, NoDup_elements.
  - intros id Hid. unfold rearm. rewrite elem_of_filter.
    rewrite sort_strings_elem, elem_of_elements, elem_of_dom in Hid. tauto.
Qed.

Lemma rearmed_alerted mon (errors : gmap string string) oks id :
  id ∈ (list_to_set (delivered (pending_sources mon errors) oks)
      ∪ rearm errors (mon_alertedSources mon)) ↔ is_Some (errors !! id) ∧
    (id ∈ mon_alertedSources mon ∨ id ∈ delivered (pending_sources mon errors) oks).
Proof.
  unfold rearm. rewrite elem_of_union, elem_of_list_to_set, elem_of_filter.
  split; [|naive_solver]. intros [Hd|[? ?]]; [|naive_solver]. split; [|by right].
  apply delivered_elem in Hd. unfold pending_sources in Hd.
  apply list_elem_of_filter in Hd as [_ Hd].
  by rewrite sort_strings_elem, elem_of_elements, elem_of_dom in Hd.
Qed.

(** C38: an evaluation is a plan followed by its deliveries. It sends one
    message for each failing source not yet alerted, in sorted order, then one if
    the healthy nodes are below the threshold and that was not yet alerted;
    whatever could not be delivered is reported and stays due; a source that
    recovered, or a number of nodes that did, is armed again; nothing else of the
    monitor changes, and the order of the maps does not matter. *)
Theorem evaluate_follows_plan (o : RangeOrder) mon errors stats w :
  let pending := pending_sources mon errors in
  let low := low_pending mon stats in
  let msgs := source_messages mon stats pending ++
    (if low then [(low_nodes_title, low_nodes_body mon stats)] else []) in
  let '(w', oks) := deliver_all sender msgs w in
  let '(mon', w'', failures) := Evaluate sender o errors stats mon w in
  w'' = w' ∧ length oks = length msgs ∧ length failures = count negb oks ∧
  (∀ id, id ∈ mon_alertedSources mon' ↔ is_Some (errors !! id) ∧
     (id ∈ mon_alertedSources mon ∨ id ∈ delivered pending oks)) ∧
  mon_lowNodesAlerted mon' =
    low_nodes mon stats && (mon_lowNodesAlerted mon || default false (last oks)) ∧
  mon_threshold mon' = mon_threshold mon ∧ mon_sourceLabels mon' = mon_sourceLabels mon ∧
  mon_expiryAlerted mon' = mon_expiryAlerted mon.
Proof.
  cbv zeta. pose proof (alert_sources_rearmed o mon stats errors w) as Hsrc. cbv zeta in Hsrc.
  pose proof (deliver_all_length sender (source_messages mon stats (pending_sources mon errors)) w)
    as Hlen.
  rewrite deliver_all_app. unfold Evaluate, low_pending, low_nodes.
  destruct (deliver_all sender (source_messages _ _ _) w) as [w1 oks].
  destruct Hsrc as (failures & -> & Hfail). simpl in Hlen.
  assert (length oks = length (pending_sources mon errors)) as Hlen'
    by (rewrite Hlen; apply length_fmap).
  pose proof (rearmed_alerted mon errors oks) as Halerted.
  destruct (Z.leb_spec (mon_threshold mon) (Z.of_nat (st_Healthy stats)));
    [rewrite (proj2 (Z.ltb_ge _ _)) by lia|rewrite (proj2 (Z.ltb_lt _ _)) by lia]; simpl.
  { rewrite !(right_id_L [] (++)). done. }
  destruct (mon_lowNodesAlerted mon); simpl; [by rewrite !(right_id_L [] (++))|].
  destruct (deliver sender low_nodes_title _ w1) as [w2 [|]]; simpl;
    rewrite last_snoc, delivered_app by done; simpl;
    rewrite !length_app, count_app, Hfail, Hlen; split_and!; try done; simpl; lia.
Qed.

(** Whether an evaluation tries to alert on a source, and with what success. *)
Definition attempt_on (id : string) mon (errors : gmap string string) stats w : option bool :=
  let pending := pending_sources mon errors in
  let '(_, oks) := deliver_all sender (source_messages mon stats pending) w in
  (list_to_map (zip pending oks) : gmap string bool) !! id.

(** The attempts on a source over a history of evaluations. *)
Fixpoint attempts_on (o : RangeOrder) (id : string)
    (evals : list (gmap string string * Stats)) mon w : list (option bool) :=
  match evals with
  | [] => []
  | (errors, stats) :: rest =>
      let '(mon', w', _) := Evaluate sender o errors stats mon w in
      attempt_on id mon errors stats w :: attempts_on o id rest mon' w'
  end.

Lemma attempt_step o id mon errors stats w :
  is_Some (errors !! id) →
  let alerted' := mon_alertedSources (Evaluate sender o errors stats mon w).1.1 in
  match attempt_on id mon errors stats w with
  | None => id ∈ mon_alertedSources mon ∧ id ∈ alerted'
  | Some ok => (id ∉ mon_alertedSources mon) ∧ (id ∈ alerted' ↔ ok = true)
  end.
Proof.
  intros Herr. pose proof (alert_sources_rearmed o mon stats errors w) as Hsrc.
  pose proof (deliver_all_length sender (source_messages mon stats (pending_sources mon errors)) w)
    as Hlen. unfold attempt_on. cbv zeta in *.
  destruct (deliver_all sender _ w) as [w1 oks] eqn:Hall.
  destruct Hsrc as (failures & Heq & _). simpl in Hlen. unfold source_messages in Hlen.
  rewrite length_fmap in Hlen.
  assert (mon_alertedSources (Evaluate sender o errors stats mon w).1.1 =
    (list_to_set (delivered (pending_sources mon errors) oks)
      ∪ rearm errors (mon_alertedSources mon))) as ->.
  { unfold Evaluate. rewrite Heq. destruct (_ <=? _)%Z; [done|].
    destruct (negb _); [|done]. by destruct (deliver sender _ _ _) as [? [|]]. }
  pose proof (rearmed_alerted mon errors oks id) as Hal.
  assert (NoDup (zip (pending_sources mon errors) oks).*1) as Hnd.
  { rewrite fst_zip by lia. apply NoDup_filter, sort_strings_nodup, NoDup_elements. }
  destruct (list_to_map _ !! id) as [ok|] eqn:Hid.
  - apply elem_of_list_to_map_2 in Hid as Hin.
    assert (id ∈ pending_sources mon errors) as Hp by (by eapply elem_of_zip_l).
    apply list_elem_of_filter in Hp as [Hnot _]. split; [done|]. rewrite Hal.
    split; [|intros ->; split; [done|right]; apply list_elem_of_omap; by exists (id, true)].
    intros [_ [?|Hd]]; [done|].
    apply list_elem_of_omap in Hd as ([id' [|]] & Hin' & ?); simplify_eq/=.
    apply (elem_of_list_to_map_1 (M := gmap string)) in Hin'; [congruence|done].
  - apply not_elem_of_list_to_map_2 in Hid. rewrite fst_zip in Hid by lia.
    assert (id ∈ mon_alertedSources mon); [|by rewrite Hal; auto].
    apply dec_stable. intros Hnot. apply Hid, list_elem_of_filter. split; [done|].
    by apply sort_strings_elem, elem_of_elements, elem_of_dom.
Qed.

Lemma attempts_alerted o id evals mon w :
  (∀ errors stats, (errors, stats) ∈ evals → is_Some (errors !! id)) →
  id ∈ mon_alertedSources mon → attempts_on o id evals mon w = replicate (length evals) None.
Proof.
  revert mon w. induction evals as [|[errors stats] evals IH]; intros mon w Hfail Hin; [done|].
  simpl. pose proof (attempt_step o id mon errors stats w
    (Hfail errors stats ltac:(by left))) as Hstep.
  destruct (Evaluate sender o errors stats mon w) as [[mon' w'] failures]. simpl in Hstep.
  destruct (attempt_on id mon errors stats w); [naive_solver|]. f_equal.
  apply IH; [|by apply Hstep]. intros e s ?. apply (Hfail e s). by right.
Qed.

(** C37: through a stretch of evaluations in which a source keeps failing,
    the monitor tries to alert on it at every one until a delivery succeeds, and
    never again after that, whatever happens to the other alerts; the first
    evaluation without the failure ends the stretch. *)
Theorem one_alert_per_failure (o : RangeOrder) id evals mon w :
  (∀ errors stats, (errors, stats) ∈ evals → is_Some (errors !! id)) →
  id ∉ mon_alertedSources mon →
  (attempts_on o id evals mon w = replicate (length evals) (Some false) ∨
   ∃ k n, attempts_on o id evals mon w =
     replicate k (Some false) ++ Some true :: replicate n None) ∧
  (∀ errors stats, errors !! id = None →
     id ∉ mon_alertedSources (Evaluate sender o errors stats mon w).1.1).
Proof.
  intros Hfail Hnot. split.
  - revert mon w Hnot. induction evals as [|[errors stats] evals IH]; intros mon w Hnot; [by left|].
    simpl. pose proof (attempt_step o id mon errors stats w
      (Hfail errors stats ltac:(by left))) as Hstep.
    destruct (Evaluate sender o errors stats mon w) as [[mon' w'] failures]. simpl in Hstep.
    destruct (attempt_on id mon errors stats w) as [[|]|]; [..|naive_solver].
    + right. exists 0, (length evals). simpl. f_equal.
      apply attempts_alerted; [|by apply Hstep]. intros e s ?. apply (Hfail e s). by right.
    + destruct (IH ltac:(intros e s ?; apply (Hfail e s); by right) mon' w') as [->|(k & n & ->)];
        [naive_solver|by left|]. right. by exists (S k), n.
  - intros errors stats Hnone Hin.
    pose proof (alert_sources_rearmed o mon stats errors w) as Hsrc. cbv zeta in Hsrc.
    destruct (deliver_all sender _ w) as [w1 oks]. destruct Hsrc as (failures & Heq & _).
    unfold Evaluate in Hin. rewrite Heq in Hin.
    assert (id ∈ (list_to_set (delivered (pending_sources mon errors) oks)
      ∪ rearm errors (mon_alertedSources mon))) as [[? ?] _]%rearmed_alerted; [|congruence].
    destruct (_ <=? _)%Z; [done|]. destruct (negb _); [|done].
    by destruct (deliver sender _ _ _) as [? [|]].
Qed.

Lemma expiry_due_iff alerted now id expiry :
  expiry_skipped alerted now id expiry = false ↔ expiry ≠ 0%Z ∧
    (expiry ≤ now + 7 * 24 * Hour)%Z ∧ alerted !! id ≠ Some expiry.
Proof.
  unfold expiry_skipped, time_IsZero, time_After, time_Equal.
  rewrite !orb_false_iff, Z.eqb_neq, Z.ltb_ge, Z.eqb_neq.
  destruct (alerted !! id) as [x|]; simpl; naive_solver lia.
Qed.

(** A subscription is due when its expiry is known, is at most a week
    away and has not been alerted yet; each due one gets one message, in the
    order of the map, and those delivered are remembered with the very date. A
    later evaluation of the same expiries, whatever the time, sends nothing for
    them; a subscription renewed to another date is judged anew. *)
Theorem expiry_follows_plan (o : RangeOrder) mon expiries now w :
  let due := filter (λ kv, expiry_skipped (mon_expiryAlerted mon) now kv.1 kv.2 = false)
    (range_items o expiries) in
  let '(w', oks) := deliver_all sender (expiry_messages mon now due) w in
  let '(mon', w'', failures) := EvaluateExpiry sender o expiries now mon w in
  w'' = w' ∧ length failures = count negb oks ∧
  (∀ id expiry, (id, expiry) ∈ due ↔ expiries !! id = Some expiry ∧ expiry ≠ 0%Z ∧
     (expiry ≤ now + 7 * 24 * Hour)%Z ∧ mon_expiryAlerted mon !! id ≠ Some expiry) ∧
  (∀ id expiry, (id, expiry) ∈ delivered due oks → mon_expiryAlerted mon' !! id = Some expiry ∧
     ∀ now', expiry_skipped (mon_expiryAlerted mon') now' id expiry = true) ∧
  (∀ id, id ∉ (delivered due oks).*1 → mon_expiryAlerted mon' !! id = mon_expiryAlerted mon !! id).
Proof.
  cbv zeta. pose proof (alert_expiries_plan sender mon now (range_items o expiries)
    (mon_expiryAlerted mon) w (range_keys_nodup o expiries)) as Hplan. cbv zeta in Hplan.
  unfold EvaluateExpiry. destruct (deliver_all sender _ w) as [w' oks].
  destruct Hplan as (failures & -> & Hlen). simpl.
  set (due := filter _ (range_items o expiries)).
  assert (NoDup (delivered due oks).*1) as Hnd.
  { eapply sublist_NoDup; [apply (range_keys_nodup o expiries)|]. apply fmap_sublist.
    etrans; [apply delivered_sublist|apply sublist_filter]. }
  assert (∀ id expiry, (id, expiry) ∈ delivered due oks →
    (list_to_map (delivered due oks) ∪ mon_expiryAlerted mon) !! id = Some expiry) as Hin.
  { intros id expiry Hd. apply lookup_union_Some_l. by apply elem_of_list_to_map. }
  split_and!; [done|done|..].
  - intros id expiry. unfold due. rewrite list_elem_of_filter, elem_of_range. simpl.
    rewrite expiry_due_iff. tauto.
  - intros id expiry Hd. split; [by apply Hin|]. intros now'. unfold expiry_skipped.
    rewrite (Hin id expiry Hd). simpl. unfold time_Equal. by rewrite Z.eqb_refl, orb_true_r.
  - intros id Hid. rewrite lookup_union, not_elem_of_list_to_map_1 by done.
    by rewrite (left_id_L None (∪)).
Qed.
End theorems.
