(* ===== verification/Notify.v ===== *)
(** * notify/client.go: sending one notification.

    The network and the parser of a JSON answer are parameters. *)
From stdpp Require Import gmap strings list.
From Stdlib Require Import Ascii.
From S2P Require Import Prelude.
From S2P Require Import GoBase.
From S2P Require Import GoStrings.
From S2P Require Import GoCodec.
From S2P Require Import NetUrl.
From S2P Require Import GoHttp.
From S2P Require Import GoNet.
From S2P Require Import Config.
From stdpp Require Import options.

Definition maxResponseBytes : Z := 4 * 2 ^ 10.

Record Client := mkClient {
  nc_baseURL : string;
  nc_Timeout : Z;
  nc_hostIP : string;
}.

(** [net.InterfaceAddrs()], empty on an error. *)
Inductive InterfaceAddr := IPNet (ip : list Z) | OtherAddr.

Fixpoint localIP (addresses : list InterfaceAddr) : string :=
  match addresses with
  | [] => "127.0.0.1"
  | IPNet ip :: rest =>
      if is_v4 ip && negb (IsLoopback ip) && negb (IsLinkLocalUnicast ip)
      then IPv4_String ip else localIP rest
  | OtherAddr :: rest => localIP rest
  end.

(** The address the titles begin with; empty if none is given. *)
Definition host_address (hostIPs : list string) (addresses : list InterfaceAddr) : GoError + string :=
  match hostIPs with
  | [] => inr ""
  | given :: _ =>
      let hostIP := if decide (given = "") then localIP addresses else given in
      refuse (bool_decide (ParseIP hostIP = None)) "notification host must be an IP address"
        (inr hostIP)
  end.

(** [httpTimeout] is [None] for a nil HTTP client, else that client's timeout. *)
Definition NewClient `{NetUrl} (baseURL : string) (httpTimeout : option Z) (hostIPs : list string)
    (addresses : list InterfaceAddr) : GoError + Client :=
  err_bind (host_address hostIPs addresses) (λ hostIP,
    match url_Parse baseURL with
    | None => inl (ErrNew "notification base URL must be an absolute HTTP or HTTPS URL")
    | Some parsed =>
        refuse (negb (http_url parsed)) "notification base URL must be an absolute HTTP or HTTPS URL" (
        refuse (negb (bare_url parsed))
          "notification base URL must not contain user information, a query, or a fragment" (
        let timeout := default 0%Z httpTimeout in
        inr (mkClient (TrimRightByte (url_String parsed) "/")
          (if (timeout <=? 0)%Z then 10 * Second else timeout)%Z hostIP)))
    end).

(** [json.Unmarshal] into a struct with one optional field [code]. *)
Class CodeJson := { json_code : string → option (option Z) }.

Section send.
Context `{NetUrl, CodeJson} {W : Type}.

(** What a server answers to a GET of a URL. *)
Context (get : string → W → W * (GoError + FetchResponse)).

Definition decorate (client : Client) (title message : string) : string * string :=
  if decide (nc_hostIP client = "") then (title, message)
  else ("[" +:+ nc_hostIP client +:+ "] " +:+ title,
        "本机 IP：" +:+ nc_hostIP client +:+ String "010" message).

Definition endpoint_url (client : Client) (title message : string) : string :=
  nc_baseURL client +:+ String "/" (PathEscape title +:+ String "/" (PathEscape message)).

Definition json_answer (response : FetchResponse) (body : string) : bool :=
  Contains (header_Get "Content-Type" (resp_Header response)) "json"
  || HasPrefix (TrimSpace body) "{".

(** From the response to the result; [None] is no error. *)
Definition check_response (response : FetchResponse) : option GoError :=
  let invalid := Some (ErrNew "invalid notification response") in
  if (resp_StatusCode response <? 200)%Z || (300 <=? resp_StatusCode response)%Z
  then Some (ErrNew ("notification returned HTTP " +:+ Itoa (resp_StatusCode response)))
  else
    match read_body (maxResponseBytes + 1) response with
    | inl _ => invalid
    | inr body =>
        if (maxResponseBytes <? Z.of_nat (String.length body))%Z then invalid
        else if decide (TrimSpace body = "") then None
        else if json_answer response body then
          match json_code body with
          | None => invalid
          | Some (Some code) =>
              if (code =? 200)%Z then None
              else Some (ErrNew "notification service rejected message")
          | Some None => None
          end
        else None
    end.

Definition Send (client : Client) (title message : string) (w : W) : W * option GoError :=
  let '(title, message) := decorate client title message in
  let endpoint := endpoint_url client title message in
  match url_Parse endpoint with
  | None => (w, Some (ErrNew "build notification request"))
  | Some _ =>
      match Do_unredirected get endpoint w with
      | (w', inl _) => (w', Some (ErrNew "notification request failed"))
      | (w', inr response) => (w', check_response response)
      end
  end.
End send.

(** ** Theorems *)

(** The machine's own address always passes. *)
Lemma localIP_parses addresses :
  Forall (λ a, match a with IPNet ip => Forall (λ g, 0 ≤ g < 65536)%Z ip | OtherAddr => True end) addresses →
  is_Some (ParseIP (localIP addresses)).
Proof.
  induction 1 as [|[ip|] addresses Hip Hall IH]; [by eexists| |done]. cbn [localIP].
  destruct (is_v4 ip) eqn:Hv; [|done]. destruct (IsLoopback ip); [done|].
  destruct (IsLinkLocalUnicast ip); [done|]. cbn [andb negb].
  assert (∃ hi lo, ip = [0; 0; 0; 0; 0; 65535; hi; lo]%Z) as (hi & lo & ->).
  { unfold is_v4 in Hv. repeat case_match; try done. eauto. }
  rewrite !Forall_cons in Hip. destruct Hip as (_ & _ & _ & _ & _ & _ & Hhi & Hlo & _).
  assert (∀ g, (0 ≤ g < 65536)%Z → is_octet (g / 256) ∧ is_octet (g mod 256)) as Ho.
  { intros g Hg. unfold is_octet. pose proof (Z.mod_pos_bound g 256).
    pose proof (Z.div_lt_upper_bound g 256 256). pose proof (Z.div_pos g 256). lia. }
  unfold IPv4_String. destruct (Ho hi Hhi), (Ho lo Hlo). rewrite ParseIP_dotted by done. by eexists.
Qed.

(** The texts an error of [Send] can have: none holds the URL, which is a secret,
    or anything a server sent. *)
Definition send_error_texts (code : Z) : list string :=
  ["build notification request"; "notification request failed"; "invalid notification response";
   "notification service rejected message"; "notification returned HTTP " +:+ Itoa code].

Section theorems.
Context `{NetUrl, CodeJson} (oracle : list string → string → GoError + FetchResponse).

(** A network that keeps a log of the URLs it is asked for. *)
Definition log_get (url : string) (log : list string) : list string * (GoError + FetchResponse) :=
  (log ++ [url], oracle log url).

(** When a response is an acceptance. *)
Definition accepted (response : FetchResponse) : Prop :=
  (200 ≤ resp_StatusCode response < 300)%Z ∧
  ∃ body, read_body (maxResponseBytes + 1) response = inr body ∧
    (Z.of_nat (String.length body) ≤ maxResponseBytes)%Z ∧
    (TrimSpace body ≠ "" → json_answer response body = true →
       json_code body = Some None ∨ json_code body = Some (Some 200%Z)).

Lemma check_response_accepted response : check_response response = None ↔ accepted response.
Proof.
  unfold check_response, accepted. destruct (_ || _) eqn:Hs.
  { split; [done|]. lia. }
  destruct (read_body _ _) as [err|body]; [split; [done|intros (_ & ? & ? & _); done]|].
  destruct (maxResponseBytes <? _)%Z eqn:Hlen.
  { split; [done|]. intros (_ & ? & ? & ? & _). simplify_eq. lia. }
  destruct (decide (TrimSpace body = "")) as [He|He].
  { split; [|done]. intros _. split; [lia|]. exists body. split_and!; [done|lia|done]. }
  destruct (json_answer response body) eqn:Hj.
  2: { split; [|done]. intros _. split; [lia|]. exists body. rewrite Hj. split_and!; [done|lia|done]. }
  destruct (json_code body) as [[code|]|] eqn:Hc.
  - destruct (Z.eqb_spec code 200) as [->|Hne].
    + split; [|done]. intros _. split; [lia|]. exists body. split_and!; [done|lia|]. by right.
    + split; [done|]. intros (_ & ? & ? & _ & Hcode). simplify_eq.
      destruct (Hcode He Hj); congruence.
  - split; [|done]. intros _. split; [lia|]. exists body. split_and!; [done|lia|]. by left.
  - split; [done|]. intros (_ & ? & ? & _ & Hcode). simplify_eq.
    destruct (Hcode He Hj); congruence.
Qed.

Lemma check_response_texts response e :
  check_response response = Some e → Error e ∈ send_error_texts (resp_StatusCode response).
Proof.
  unfold check_response, send_error_texts. intros He. rewrite !elem_of_cons.
  repeat case_match; simplify_eq; cbn [Error]; tauto.
Qed.

(** C16: one notification is at most one request, it carries title and message
    unharmed, and it counts as delivered only when accepted. The URL is the base URL
    and two segments, from which unescaping recovers the title and the message, with the
    host's address, if one is set, in brackets before the title and on a line of its own
    before the message; neither segment can end the path or become two. There is no
    error exactly if the server's answer was an acceptance; a redirect is not one. The
    errors quote neither the URL nor the answer. *)
Theorem send_delivers_exactly (client : Client) title message log :
  let '(log', err) := Send log_get client title message log in
  let ip := nc_hostIP client in
  let fullTitle := if decide (ip = "") then title else "[" +:+ ip +:+ "] " +:+ title in
  let fullMessage :=
    if decide (ip = "") then message else "本机 IP：" +:+ ip +:+ String "010" message in
  let endpoint := endpoint_url client fullTitle fullMessage in
  (∃ t m, endpoint = nc_baseURL client +:+ String "/" (t +:+ String "/" m) ∧
     PathUnescape t = Some fullTitle ∧ PathUnescape m = Some fullMessage ∧
     Split (t +:+ String "/" m) "/" = [t; m] ∧ Contains (t +:+ String "/" m) "?" = false) ∧
  log' = (match url_Parse endpoint with Some _ => log ++ [endpoint] | None => log end) ∧
  (err = None ↔ is_Some (url_Parse endpoint) ∧ ∃ response,
     oracle log endpoint = inr response ∧ (∀ e, resp_Redirect response ≠ Some (inl e)) ∧
     accepted response) ∧
  (∀ e, err = Some e → ∃ code, Error e ∈ send_error_texts code).
Proof.
  cbv zeta. set (t := if decide _ then title else _). set (m := if decide _ then message else _).
  unfold Send. assert (decorate client title message = (t, m)) as ->
    by (unfold decorate, t, m; by destruct (decide _)).
  set (endpoint := endpoint_url client t m). clearbody t m.
  assert (∀ c s, c ∈ String.list_ascii_of_string "/?# " → without c (PathEscape s) = true) as Hwithout.
  { intros c s Hc. eapply all_bytes_impl; [|apply segment_plain]. intros a.
    destruct (Ascii.eqb_spec a c) as [->|]; [|done]. by rewrite bool_decide_true. }
  assert (∃ t' m', endpoint = nc_baseURL client +:+ String "/" (t' +:+ String "/" m') ∧
     PathUnescape t' = Some t ∧ PathUnescape m' = Some m ∧
     Split (t' +:+ String "/" m') "/" = [t'; m'] ∧ Contains (t' +:+ String "/" m') "?" = false) as Hurl.
  { exists (PathEscape t), (PathEscape m). split; [done|].
    split; [by apply unescape_escape|]. split; [by apply unescape_escape|]. split.
    - by rewrite Split_cons, Split_one by (apply Hwithout, (bool_decide_unpack _); vm_compute; exact I).
    - apply contains_byte_without. unfold without.
      change (String "/" (PathEscape m)) with ("/" +:+ PathEscape m). rewrite !all_bytes_app.
      apply andb_true_iff. split; [|apply andb_true_iff; split; [done|]];
        apply Hwithout, (bool_decide_unpack _); vm_compute; exact I. }
  destruct (url_Parse endpoint) as [u|] eqn:Hparse.
  2: { split; [done|]. split; [done|]. split; [split; [done|intros [[? ?] _]; done]|].
       intros e [= <-]. exists 0%Z. by left. }
  unfold Do_unredirected, log_get. destruct (oracle log endpoint) as [err|response] eqn:Ho.
  { split; [done|]. split; [done|]. split; [split; [done|intros (_ & ? & ? & _); done]|].
    intros e [= <-]. exists 0%Z. right; by left. }
  destruct (resp_Redirect response) as [[err|target]|] eqn:Hr.
  { split; [done|]. split; [done|]. split.
    - split; [done|]. intros (_ & ? & ? & Hno & _). simplify_eq. by destruct (Hno err).
    - intros e [= <-]. exists 0%Z. right; by left. }
  all: split; [done|]; split; [done|]; split;
    [rewrite check_response_accepted; split;
      [intros ?; split; [by eexists|]; exists response; split_and!; [done|congruence|done]
      |by intros (_ & ? & ? & _ & ?); simplify_eq]
    |intros e He; exists (resp_StatusCode response); by apply check_response_texts].
Qed.
End theorems.
