(* ===== verification/Admin.v ===== *)
(** * admin/server.go: the management endpoints.

    What the program behind them promises is the interface [Provider]; the handlers
    are modelled over any provider. *)
From stdpp Require Import gmap strings list fin_maps.
From Stdlib Require Import Ascii.
From S2P Require Import Prelude.
From S2P Require Import GoBase.
From S2P Require Import GoStrings.
From S2P Require Import GoCodec.
From S2P Require Import GoHttp.
From S2P Require Import Redact.
From S2P Require Import Selector.
From S2P Require Import Registry.
From S2P Require Import JsonValue.
From stdpp Require Import options.

(** ** Data *)

Record SubscriptionStatus := mkSubscriptionStatus {
  sub_ID : string;
  sub_Address : string;
  sub_ExpiresAt : Z;
  sub_RefreshState : string;
  sub_ParsedNodes : nat;
  sub_Nodes : Stats;
}.

Record Status := mkStatus {
  sta_Subscriptions : list SubscriptionStatus;
  sta_ExpiresAt : gmap string Z;
  sta_Ready : bool;
  sta_Nodes : Stats;
  sta_HTTPActive : Z;
  sta_WSActive : Z;
  sta_LastRefresh : Z;
  sta_SourceErrors : gmap string string;
}.

(** [Provider] over the state [W] of the program; reading the status changes nothing. *)
Class Provider (W : Type) := {
  provider_Status : W → Status;
  provider_Refresh : W → W * option GoError;
}.

(** The three handlers of the multiplexer. *)
Inductive Endpoint := Health | StatusEndpoint | RefreshEndpoint.

Record Handler := mkHandler {
  ah_token : string;
  ah_secrets : list string;
  ah_mux : list (Route Endpoint);
}.

Definition NewHandler (token : string) (secrets : list string) : Handler :=
  mkHandler token secrets
    [mkRoute "GET" "/healthz" Health; mkRoute "GET" "/status" StatusEndpoint;
     mkRoute "POST" "/refresh" RefreshEndpoint].

Record AdminRequest := mkAdminRequest {
  ar_Method : string;
  ar_Path : string;
  ar_Header : Header;
}.

(** ** The encoding of a status *)

Section encoding.
(** [time.Time.MarshalJSON]; it fails beyond the year 9999. *)
Context (time_text : Z → option string).

Definition json_field (name value : string) : string := json_quote name +:+ ":" +:+ value.
Definition encode_map {V} (text : V → option string) (m : gmap string V) : option string :=
  braces <$> mapM (λ k, v ← m !! k; json_field k <$> text v) (sorted_keys m).
(** The tag [omitempty] of a list or a map. *)
Definition omit_empty (empty : bool) (field : string) : list string :=
  if empty then [] else [field].

Definition encode_stats (s : Stats) : string :=
  let count name n := json_field name (Itoa (Z.of_nat n)) in
  braces [count "total" (st_Total s); count "healthy" (st_Healthy s);
          count "unhealthy" (st_Unhealthy s); count "quarantined" (st_Quarantined s);
          count "active_leases" (st_ActiveLeases s)].

Definition encode_subscription (s : SubscriptionStatus) : option string :=
  expires ← time_text (sub_ExpiresAt s);
  Some (braces
    [json_field "id" (json_quote (sub_ID s)); json_field "address" (json_quote (sub_Address s));
     json_field "expires_at" expires;
     json_field "refresh_state" (json_quote (sub_RefreshState s));
     json_field "parsed_nodes" (Itoa (Z.of_nat (sub_ParsedNodes s)));
     json_field "nodes" (encode_stats (sub_Nodes s))]).

Definition encode_status (s : Status) : option string :=
  subscriptions ← mapM encode_subscription (sta_Subscriptions s);
  expiries ← encode_map time_text (sta_ExpiresAt s);
  refreshed ← time_text (sta_LastRefresh s);
  errors ← encode_map (λ text, Some (json_quote text)) (sta_SourceErrors s);
  Some (braces (
    omit_empty (bool_decide (sta_Subscriptions s = []))
      (json_field "subscriptions" (brackets subscriptions)) ++
    omit_empty (bool_decide (sta_ExpiresAt s = ∅)) (json_field "subscription_expires_at" expiries) ++
    [json_field "ready" (if sta_Ready s then "true" else "false");
     json_field "nodes" (encode_stats (sta_Nodes s));
     json_field "http_active_connections" (Itoa (sta_HTTPActive s));
     json_field "ws_active_connections" (Itoa (sta_WSActive s));
     json_field "last_refresh" refreshed] ++
    omit_empty (bool_decide (sta_SourceErrors s = ∅)) (json_field "source_errors" errors))).

(** [json.NewEncoder(response).Encode(v)]: the text and a line end, or nothing. *)
Definition encode_to (text : option string) (rw : ResponseWriter) : ResponseWriter :=
  match text with
  | Some text => write_body (text +:+ String "010" "") rw
  | None => rw
  end.
End encoding.

(** ** The handlers *)

Definition cloneAndRedact (o : RangeOrder) (input : gmap string string) (secrets : list string)
    : gmap string string :=
  if decide (input = ∅) then ∅
  else foldl (λ output entry, <[entry.1 := Text entry.2 secrets]> output) ∅ (range_items o input).

Definition set_source_errors (errors : gmap string string) (s : Status) : Status :=
  mkStatus (sta_Subscriptions s) (sta_ExpiresAt s) (sta_Ready s) (sta_Nodes s) (sta_HTTPActive s)
    (sta_WSActive s) (sta_LastRefresh s) errors.

Definition set_json (rw : ResponseWriter) : ResponseWriter :=
  set_header (header_Set "Content-Type" "application/json" (rw_Header rw)) rw.

Section handlers.
Context {W : Type} `{Provider W} (o : RangeOrder) (time_text : Z → option string).

(** [http.RedirectHandler] with status 301. *)
Context (redirect : string → AdminRequest → ResponseWriter → ResponseWriter).

Definition health (w : W) (rw : ResponseWriter) : ResponseWriter :=
  let ready := sta_Ready (provider_Status w) in
  let rw := set_json rw in
  let rw := if ready then rw else write_header 503 rw in
  encode_to (Some (braces [json_field "ready" (if ready then "true" else "false")])) rw.

Definition served_status (handler : Handler) (w : W) : Status :=
  let s := provider_Status w in
  set_source_errors (cloneAndRedact o (sta_SourceErrors s) (ah_secrets handler)) s.

Definition status (handler : Handler) (w : W) (rw : ResponseWriter) : ResponseWriter :=
  encode_to (encode_status time_text (served_status handler w)) (set_json rw).

(** The bearer token of a request, compared in constant time. *)
Definition token_matches (handler : Handler) (rq : AdminRequest) : bool :=
  bool_decide (TrimPrefix (header_Get "Authorization" (ar_Header rq)) "Bearer " = ah_token handler).

Definition refresh (handler : Handler) (rq : AdminRequest) (w : W) (rw : ResponseWriter)
    : W * ResponseWriter :=
  if negb (token_matches handler rq) then (w, http_Error "unauthorized" 401 rw)
  else
    match provider_Refresh w with
    | (w', Some _) => (w', http_Error "refresh failed" 502 rw)
    | (w', None) => (w', write_header 204 rw)
    end.

Definition admin_ServeHTTP (handler : Handler) (rq : AdminRequest) (w : W) (rw : ResponseWriter)
    : W * ResponseWriter :=
  match mux_route (ah_mux handler) (ar_Method rq) (ar_Path rq) with
  | ToHandler Health => (w, health w rw)
  | ToHandler StatusEndpoint => (w, status handler w rw)
  | ToHandler RefreshEndpoint => refresh handler rq w rw
  | ToPath path => (w, redirect path rq rw)
  | NotAllowed methods =>
      (w, http_Error "Method Not Allowed" 405
            (set_header (header_Set "Allow" (Join methods ", ") (rw_Header rw)) rw))
  | NotFound => (w, http_Error "404 page not found" 404 rw)
  end.
End handlers.

(** ** Theorems *)

(** The texts a status shows. *)
Lemma cloneAndRedact_fmap o input secrets :
  cloneAndRedact o input secrets = (λ text, Text text secrets) <$> input.
Proof.
  unfold cloneAndRedact. case_decide as Hm; [by rewrite Hm, fmap_empty|].
  assert (∀ items (output : gmap string string),
    foldl (λ output (entry : string * string), <[entry.1 := Text entry.2 secrets]> output) output items =
    foldl (λ output entry, <[entry.1 := entry.2]> output) output
      (prod_map id (λ text, Text text secrets) <$> items)) as Hfold.
  { induction items as [|[k text] items IH]; intros output; [done|]. simpl. by rewrite IH. }
  assert ((prod_map id (λ text, Text text secrets) <$> range_items o input).*1 = range_keys o input)
    as Hkeys by (unfold range_keys; rewrite <-list_fmap_compose; by apply list_fmap_ext).
  rewrite Hfold, foldl_insert_union, (right_id_L ∅ (∪)); [|rewrite Hkeys; apply range_keys_nodup].
  apply map_eq. intros k. rewrite lookup_fmap. apply option_eq. intros text.
  rewrite <-elem_of_list_to_map by (rewrite Hkeys; apply range_keys_nodup).
  rewrite list_elem_of_fmap. split.
  - intros ([k' text'] & [= -> ->] & Hin%elem_of_range). cbn in *. by rewrite Hin.
  - destruct (input !! k) as [text'|] eqn:Hk; [|done]. intros [= <-]. exists (k, text').
    split; [done|]. by apply elem_of_range.
Qed.

Lemma bearer_token token :
  TrimPrefix (header_Get "Authorization" {["Authorization" := ["Bearer " +:+ token]]}) "Bearer " = token.
Proof.
  unfold header_Get. change (CanonicalHeaderKey "Authorization") with "Authorization".
  rewrite lookup_singleton_eq. simpl. unfold TrimPrefix, HasPrefix.
  assert (String.prefix "Bearer " ("Bearer " +:+ token) = true) as -> by (by destruct token).
  reflexivity.
Qed.

Section theorems.
Context {W : Type} `{Provider W} (o : RangeOrder) (time_text : Z → option string).
Context (redirect : string → AdminRequest → ResponseWriter → ResponseWriter).
Abbreviation serve token secrets :=
  (admin_ServeHTTP o time_text redirect (NewHandler token secrets)) (only parsing).

(** Without an Authorization header nothing happens, if there is a token. *)
Lemma admin_without_header token secrets rq w rw :
  token ≠ "" → ar_Header rq !! "Authorization" = None → (serve token secrets rq w rw).1 = w.
Proof.
  intros Ht Hnone. unfold admin_ServeHTTP. cbn [ah_mux NewHandler].
  destruct (mux_route _ _ _) as [[| |]| | |]; try done.
  unfold refresh, token_matches, header_Get. cbn [ah_token].
  change (CanonicalHeaderKey "Authorization") with "Authorization". rewrite Hnone.
  by rewrite bool_decide_false.
Qed.

(** Only a refresh with the token does anything. A request changes the program
    only if it is a POST of exactly /refresh whose bearer token is the configured one;
    then it is one refresh, and the answer is 204 if that succeeded and 502 if not.
    With a wrong token the answer is 401; with a nonempty token a request without an
    Authorization header never gets past. *)
Lemma admin_refresh_needs_token token secrets rq w rw :
  rw_Status rw = None →
  let '(w', rw') := serve token secrets rq w rw in
  let isRefresh := ar_Method rq = "POST" ∧ ar_Path rq = "/refresh" in
  let authorized := TrimPrefix (header_Get "Authorization" (ar_Header rq)) "Bearer " = token in
  (w' = w ∨ isRefresh ∧ authorized ∧ w' = (provider_Refresh w).1) ∧
  (isRefresh → authorized → w' = (provider_Refresh w).1 ∧
     rw_Status rw' = Some (match (provider_Refresh w).2 with Some _ => 502 | None => 204 end)%Z) ∧
  (isRefresh → ¬ authorized → w' = w ∧ rw_Status rw' = Some 401%Z) ∧
  (token ≠ "" → ar_Header rq !! "Authorization" = None → ¬ authorized).
Proof.
  intros Hrw. cbv zeta.
  assert (token ≠ "" → ar_Header rq !! "Authorization" = None →
    TrimPrefix (header_Get "Authorization" (ar_Header rq)) "Bearer " ≠ token) as Hempty.
  { intros Ht Hnone. unfold header_Get.
    change (CanonicalHeaderKey "Authorization") with "Authorization". by rewrite Hnone. }
  assert (∀ w', refresh (NewHandler token secrets) rq w rw = w' →
    (TrimPrefix (header_Get "Authorization" (ar_Header rq)) "Bearer " = token →
       w'.1 = (provider_Refresh w).1 ∧
       rw_Status w'.2 = Some (match (provider_Refresh w).2 with Some _ => 502 | None => 204 end)%Z) ∧
    (TrimPrefix (header_Get "Authorization" (ar_Header rq)) "Bearer " ≠ token →
       w'.1 = w ∧ rw_Status w'.2 = Some 401%Z)) as Hrefresh.
  { intros w' <-. unfold refresh, token_matches. cbn [ah_token].
    destruct (decide (TrimPrefix (header_Get "Authorization" (ar_Header rq)) "Bearer " = token)) as [Ha|Ha].
    - rewrite bool_decide_true by done. cbn [negb]. split; [|done]. intros _.
      destruct (provider_Refresh w) as [w' [err|]]; cbn; by rewrite Hrw.
    - rewrite bool_decide_false by done. cbn [negb]. split; [done|]. intros _.
      split; [done|]. by apply http_Error_status. }
  specialize (Hrefresh _ eq_refl) as [Hyes Hno].
  unfold admin_ServeHTTP. cbn [ah_mux NewHandler].
  destruct (decide (ar_Method rq = "POST" ∧ ar_Path rq = "/refresh")) as [[Hm Hp]|Hnot].
  - rewrite Hm, Hp. change (mux_route _ "POST" "/refresh") with (ToHandler RefreshEndpoint).
    cbv iota beta. destruct (refresh _ _ _ _) as [w' rw']. cbn [fst snd] in *.
    split_and!; [|by intros _|by intros _|done].
    destruct (decide (TrimPrefix (header_Get "Authorization" (ar_Header rq)) "Bearer " = token)).
    + right. split; [done|]. split; [done|]. by apply Hyes.
    + left. by apply Hno.
  - destruct (mux_route _ _ _) as [h| | |] eqn:Hroute;
      [|split_and!; [by left|by intros ?..|done]..].
    apply mux_route_handler in Hroute as (route & Hin & Hpath & Hmethod & Hh).
    destruct h; [split_and!; [by left|by intros ?..|done]..|]. exfalso. apply Hnot.
    rewrite !elem_of_cons, elem_of_nil in Hin.
    destruct Hin as [->|[->|[->|[]]]]; try discriminate Hh. split; [|done].
    unfold method_matches in Hmethod. cbn in Hmethod. rewrite orb_false_r in Hmethod.
    by apply bool_decide_eq_true in Hmethod.
Qed.

(** C15: the status page shows no credential. [GET /status] answers with the
    provider's status in which each source keeps its place and only the texts of the
    source errors change. Each text shown is the source's error with nonempty stretches
    replaced by letters of the marks, so that no configured secret, whatever it is, occurs
    in a stretch of the error that was kept; a secret that cannot overlap a mark (it has no
    bracket and is not a part of REDACTED) does not occur in the text at all. If no secret
    begins with a blank, the text contains no HTTP or HTTPS URL. [GET /healthz] says
    ready, with 200, exactly if the program is, and otherwise answers 503. *)
Theorem admin_status_hides_secrets token secrets header w :
  let s := served_status o (NewHandler token secrets) w in
  let rw := mkRW ∅ None "" in
  s = set_source_errors (sta_SourceErrors s) (provider_Status w) ∧
  dom (sta_SourceErrors s) = dom (sta_SourceErrors (provider_Status w)) ∧
  (∀ id text, sta_SourceErrors s !! id = Some text →
     (∃ original, sta_SourceErrors (provider_Status w) !! id = Some original ∧
        redaction secrets original text) ∧
     ∀ secret, secret ∈ secrets → plain_secret secret → Contains text secret = false) ∧
  (∀ id text, sta_SourceErrors s !! id = Some text → Forall begins_visible secrets → url_free text) ∧
  (∀ text, encode_status time_text s = Some text →
     serve token secrets (mkAdminRequest "GET" "/status" header) w rw =
       (w, mkRW {["Content-Type" := ["application/json"]]} (Some 200%Z)
             (text +:+ String "010" ""))) ∧
  (let '(w', rw') := serve token secrets (mkAdminRequest "GET" "/healthz" header) w rw in
   w' = w ∧ sent_status rw' = (if sta_Ready (provider_Status w) then 200 else 503)%Z).
Proof.
  cbv zeta. split_and!.
  - done.
  - unfold served_status. cbn [set_source_errors sta_SourceErrors].
    by rewrite cloneAndRedact_fmap, dom_fmap_L.
  - intros id text. unfold served_status. cbn [set_source_errors sta_SourceErrors ah_secrets NewHandler].
    rewrite cloneAndRedact_fmap, lookup_fmap_Some. intros (original & <- & Horiginal).
    split; [|intros secret; by apply text_hides_secrets].
    exists original. split; [exact Horiginal|apply text_is_redaction].
  - intros id text Htext Hsecrets. revert Htext. unfold served_status.
    cbn [set_source_errors sta_SourceErrors ah_secrets NewHandler].
    rewrite cloneAndRedact_fmap, lookup_fmap_Some. intros (original & <- & _).
    by apply text_hides_urls.
  - intros text Hs. unfold admin_ServeHTTP. cbn [ah_mux NewHandler ar_Method ar_Path].
    change (mux_route _ "GET" "/status") with (ToHandler StatusEndpoint). cbv iota beta.
    unfold status. rewrite Hs. done.
  - unfold admin_ServeHTTP. cbn [ah_mux NewHandler ar_Method ar_Path].
    change (mux_route _ "GET" "/healthz") with (ToHandler Health). cbv iota beta.
    split; [done|]. unfold health. by destruct (sta_Ready _).
Qed.
End theorems.
