(* ===== verification/Inspect.v ===== *)
(** * inspect/subscriptions.go: the operator's view of the subscriptions.

    The network, the JSON decoder and the output are parameters; package
    text/tabwriter is modelled for lines that all have the same number of cells. *)
From stdpp Require Import gmap strings list.
From Stdlib Require Import Ascii.
From S2P Require Import Prelude.
From S2P Require Import GoBase.
From S2P Require Import GoStrings.
From S2P Require Import GoCodec.
From S2P Require Import NetUrl.
From S2P Require Import GoHttp.
From S2P Require Import GoNet.
From S2P Require Import Selector.
From S2P Require Import Registry.
From S2P Require Import Monitor.
From S2P Require Import Fetch.
From S2P Require Import Admin.
From stdpp Require Import options.

(** ** [clean] *)

Definition control (a : ascii) : bool := (byte_of a <? 32)%N || (byte_of a =? 127)%N.
(** U+FFFD, which [strings.Map] writes for a byte that is no text. *)
Definition replacement_char : string := bytes_of [0xEF; 0xBF; 0xBD]%N.
Definition clean_rune (r : Rune) : string :=
  match r with
  | Char (String a EmptyString) => if control a then " " else String a ""
  | Char bytes => bytes
  | BadByte _ => replacement_char
  end.
Definition clean (s : string) : string := String.concat "" (clean_rune <$> runes s).

Example clean_ex :
  clean (bytes_of [27; 91; 50; 74; 9; 0xE8; 0xAE; 0xA2; 0xFF; 127]%N) =
    " [2J 订" +:+ replacement_char +:+ " ".
Proof. vm_compute. reflexivity. Qed.

(** Only the ASCII control characters are replaced: U+009B, which a terminal takes for the
    beginning of a control sequence, is kept. *)
Example clean_keeps_c1 : clean (bytes_of [0xC2; 0x9B; 50; 74]%N) = bytes_of [0xC2; 0x9B; 50; 74]%N.
Proof. vm_compute. reflexivity. Qed.

(** ** The table *)

Definition spaces (n : nat) : string := String.concat "" (replicate n " ").

(** [tabwriter.NewWriter(out, 0, 4, 2, ' ', 0)]: every cell but the last is followed by
    spaces up to the width of the column, which is two more than its widest text. *)
Definition column_width (rows : list (list string)) (j : nat) : nat :=
  foldr (λ row n, (RuneCount (default "" (row !! j)) + 2) `max` n) 0 rows.
Fixpoint table_line (rows : list (list string)) (j : nat) (cells : list string) : string :=
  match cells with
  | [] => String "010" ""
  | [cell] => cell +:+ String "010" ""
  | cell :: rest =>
      cell +:+ spaces (column_width rows j - RuneCount cell) +:+ table_line rows (S j) rest
  end.
Definition tabulate (rows : list (list string)) : string :=
  String.concat "" (table_line rows 0 <$> rows).

Example tabulate_ex :
  tabulate [["a"; "订"; "x"]; ["bcd"; ""; "yy"]] =
    "a    订  x" +:+ String "010" "bcd     yy" +:+ String "010" "".
Proof. vm_compute. reflexivity. Qed.

Definition table_header : list string :=
  ["编号"; "订阅地址（脱敏）"; "刷新状态"; "生效状态"; "到期时间（北京时间）"; "解析节点"; "加载节点"; "可用";
   "不可用"; "待检测"].

Definition refresh_text (s : SubscriptionStatus) : string :=
  if decide (sub_RefreshState s = "ok") then "成功"
  else if decide (sub_RefreshState s = "failed") then
    if decide (0 < st_Total (sub_Nodes s)) then "失败（使用缓存）" else "失败"
  else "待刷新".

Definition effective_text (s : SubscriptionStatus) : string :=
  if decide (0 < st_Total (sub_Nodes s)) then
    if decide (0 < st_Healthy (sub_Nodes s)) then "生效" else "已加载，无可用节点"
  else "未加载".

Definition expiry_text (now : Z) (s : SubscriptionStatus) : string :=
  let t := sub_ExpiresAt s in
  if time_IsZero t then "未知"
  else
    FormatMinuteCST t +:+
    (if negb (time_After t now) then "（已过期）"
     else if negb (time_After t (now + 7 * 24 * Hour)) then "（7天内到期）" else "").

Definition table_row (now : Z) (s : SubscriptionStatus) : list string :=
  let count n := Itoa (Z.of_nat n) in
  [clean (sub_ID s); clean (sub_Address s); refresh_text s; effective_text s; expiry_text now s;
   count (sub_ParsedNodes s); count (st_Total (sub_Nodes s)); count (st_Healthy (sub_Nodes s));
   count (st_Unhealthy (sub_Nodes s)); count (st_Quarantined (sub_Nodes s))].

Definition summary_line (nodes : Stats) : string :=
  String "010" ("去重后的总池：" +:+ Itoa (Z.of_nat (st_Total nodes)) +:+ " 个节点，可用 " +:+
    Itoa (Z.of_nat (st_Healthy nodes)) +:+
    " 个。共享节点会计入所属的每条订阅，分项数量不能直接相加。" +:+ String "010" "").

Definition table_text (now : Z) (s : Status) : string :=
  tabulate (table_header :: (table_row now <$> sta_Subscriptions s)).

(** ** [Subscriptions] *)

(** [json.Unmarshal] into a status; [false]: the list of subscriptions is nil. *)
Class StatusJson := { unmarshal_status : string → option (bool * Status) }.

Definition local_endpoint (u : URL) : option string :=
  if bool_decide (url_Scheme u ≠ "http") || negb (bool_decide (url_User u = None))
     || bool_decide (url_RawQuery u ≠ "") || bool_decide (url_Fragment u ≠ "")
     || (bool_decide (url_Path u ≠ "") && bool_decide (url_Path u ≠ "/"))
  then Some "管理地址必须为本机 HTTP 地址，例如 http://127.0.0.1:19090"
  else if bool_decide (Hostname u ≠ "localhost")
          && negb (match ParseIP (Hostname u) with Some ip => IsLoopback ip | None => false end)
  then Some "管理地址必须为本机回环地址"
  else None.

Definition status_url (u : URL) : URL :=
  mkURL (url_Scheme u) (url_User u) (url_Host u) "/status" (url_RawQuery u) (url_Fragment u).

Definition max_status_bytes : Z := 2 * 2 ^ 20.

Section subscriptions.
Context `{NetUrl, StatusJson} {W O : Type}.
Context (get : string → W → W * (GoError + FetchResponse)).

(** [out]; the writes of one flush of the table are taken together. *)
Context (write : string → O → O * option GoError).

Definition print_status (now : Z) (s : Status) (out : O) : O * option GoError :=
  match write (table_text now s) out with
  | (out, Some err) => (out, Some err)
  | (out, None) => write (summary_line (sta_Nodes s)) out
  end.

Definition read_status (response : FetchResponse) : GoError + Status :=
  refuse (negb (resp_StatusCode response =? 200)%Z)
    ("管理接口返回 HTTP " +:+ Itoa (resp_StatusCode response)) (
  match read_body (max_status_bytes + 1) response with
  | inl _ => inl (ErrNew "读取状态失败或响应过大")
  | inr body =>
      refuse (max_status_bytes <? Z.of_nat (String.length body))%Z "读取状态失败或响应过大" (
      match unmarshal_status body with
      | None => inl (ErrNew "管理接口返回了无效状态")
      | Some (listed, s) =>
          refuse (negb listed)
            "运行中的网关尚不支持逐订阅查询；请在允许维护时更新并重启网关。本命令未修改运行状态" (inr s)
      end)
  end).

Definition Subscriptions (endpoint : string) (now : Z) (w : W) (out : O)
    : W * O * option GoError :=
  match url_Parse endpoint with
  | None => (w, out, Some (ErrNew "管理地址必须为本机 HTTP 地址，例如 http://127.0.0.1:19090"))
  | Some u =>
      match local_endpoint u with
      | Some msg => (w, out, Some (ErrNew msg))
      | None =>
          let url := url_String (status_url u) in
          match url_Parse url with
          | None => (w, out, Some (ErrNew "管理地址无效"))
          | Some _ =>
              match Do_unredirected get url w with
              | (w, inl _) =>
                  (w, out, Some (ErrNew "无法连接管理接口，请确认网关运行状态和管理端口"))
              | (w, inr response) =>
                  match read_status response with
                  | inl err => (w, out, Some err)
                  | inr s =>
                      let '(out, err) := print_status now s out in (w, out, err)
                  end
              end
          end
      end
  end.
End subscriptions.

(** ** Theorems *)

(** Bytes that are no ASCII control characters. *)
Definition shown (a : ascii) : bool := negb (control a).

Lemma clean_shown s : all_bytes shown (clean s) = true.
Proof.
  apply all_bytes_concat, Forall_fmap. eapply Forall_impl; [apply runes_good|].
  intros [bytes|a]; [|done]. intros [[a ->]|Hbytes]; cbn.
  - destruct (control a) eqn:Ha; [done|]. cbn. unfold shown. by rewrite Ha.
  - assert (all_bytes shown bytes = true) as Hshown.
    { eapply all_bytes_impl; [|exact Hbytes]. intros a Ha%N.leb_le. unfold shown, control.
      apply negb_true_iff, orb_false_iff. split; [apply N.ltb_ge|apply N.eqb_neq]; lia. }
    destruct bytes as [|a [|b bytes]]; try done.
    cbn in Hbytes. apply andb_true_iff in Hbytes as [Ha%N.leb_le _].
    destruct (control a) eqn:Hc; [|done]. unfold control in Hc.
    apply orb_true_iff in Hc as [Hc%N.ltb_lt|Hc%N.eqb_eq]; lia.
Qed.

Lemma Itoa_shown z : all_bytes shown (Itoa z) = true.
Proof.
  apply Itoa_bytes; [done|]. intros n Hn. rewrite <-(N2Nat.id n).
  assert (N.to_nat n < 10) as Hlt by lia. revert Hlt. generalize (N.to_nat n). intros k Hk.
  do 10 (destruct k as [|k]; [reflexivity|]). lia.
Qed.

Lemma repeat_shown n c : all_bytes shown c = true → all_bytes shown (String.concat "" (replicate n c)) = true.
Proof. intros Hc. apply all_bytes_concat. by apply Forall_replicate. Qed.

Lemma format_shown t : all_bytes shown (FormatMinuteCST t) = true.
Proof.
  assert (∀ width n, all_bytes shown (pad width n) = true) as Hpad.
  { intros width n. unfold pad. rewrite all_bytes_app, Itoa_shown, repeat_shown; done. }
  unfold FormatMinuteCST. destruct (civil_of_days _) as [[y m] d].
  by rewrite !all_bytes_app, !Hpad.
Qed.

Lemma table_row_shown now s : Forall (λ cell, all_bytes shown cell = true) (table_row now s).
Proof.
  unfold table_row. repeat apply List.Forall_cons; try apply List.Forall_nil;
    try apply clean_shown; try apply Itoa_shown.
  - unfold refresh_text. by repeat case_decide.
  - unfold effective_text. by repeat case_decide.
  - unfold expiry_text. destruct (time_IsZero _); [done|]. rewrite all_bytes_app, format_shown.
    by repeat case_match.
Qed.

(** A line of the table without its end. *)
Lemma table_line_shown rows j cells :
  Forall (λ cell, all_bytes shown cell = true) cells →
  ∃ line, table_line rows j cells = line +:+ String "010" "" ∧ all_bytes shown line = true.
Proof.
  intros Hcells. revert j. induction Hcells as [|cell cells Hcell Hcells IH]; intros j; [by exists ""|].
  destruct cells as [|cell' cells]; [by exists cell|].
  destruct (IH (S j)) as (line & Hline & Hshown).
  exists (cell +:+ spaces (column_width rows j - RuneCount cell) +:+ line).
  cbn [table_line] in Hline |- *. rewrite Hline, !append_assoc. split; [done|].
  rewrite !all_bytes_app, Hcell, Hshown. unfold spaces. by rewrite repeat_shown.
Qed.

Lemma shown_line s : all_bytes shown s = true → without "010" s = true.
Proof. apply all_bytes_impl. intros a. destruct (Ascii.eqb_spec a "010") as [->|]; [done|done]. Qed.

Lemma concat_lines (texts : list string) :
  Forall (λ text, ∃ line, text = line +:+ String "010" "" ∧ all_bytes shown line = true) texts →
  ∃ lines, Split (String.concat "" texts) "010" = lines ++ [""] ∧ length lines = length texts ∧
    Forall (λ line, all_bytes shown line = true) lines.
Proof.
  induction 1 as [|text texts (line & -> & Hline) Htexts (lines & IH & Hlen & Hlines)]; [by exists []|].
  exists (line :: lines). split; [|split; [simpl; by rewrite Hlen|by constructor]].
  replace (String.concat "" ((line +:+ String "010" "") :: texts))
    with (line +:+ String "010" (String.concat "" texts)).
  - rewrite Split_cons by by apply shown_line. by rewrite IH.
  - destruct texts; [done|]. change (String.concat "" (?x :: s :: texts)) with (x +:+ String.concat "" (s :: texts)).
    by rewrite append_assoc.
Qed.

Lemma table_text_lines now s :
  ∃ lines, Split (table_text now s) "010" = lines ++ [""] ∧
    length lines = S (length (sta_Subscriptions s)) ∧
    Forall (λ line, all_bytes shown line = true) lines.
Proof.
  unfold table_text, tabulate. set (rows := table_header :: (table_row now <$> sta_Subscriptions s)).
  assert (Forall (λ row, Forall (λ cell, all_bytes shown cell = true) row) rows) as Hrows.
  { apply Forall_cons. split.
    - repeat apply List.Forall_cons; try apply List.Forall_nil; vm_compute; reflexivity.
    - apply Forall_fmap, Forall_true. intros st. apply table_row_shown. }
  assert (length rows = S (length (sta_Subscriptions s))) as Hlen
    by (unfold rows; cbn; by rewrite length_fmap).
  destruct (concat_lines (table_line rows 0 <$> rows)) as (lines & Hl & Hn & Hshown).
  { apply Forall_fmap. eapply Forall_impl; [exact Hrows|]. intros row Hrow. by apply table_line_shown. }
  exists lines. split; [exact Hl|]. split; [|exact Hshown]. by rewrite Hn, length_fmap.
Qed.

(** An answer the command accepts: 200, a body of at most two mebibytes that can be read
    to its end, and that is a status with a list of subscriptions. *)
Lemma read_status_spec `{StatusJson} response s :
  read_status response = inr s ↔
  resp_StatusCode response = 200%Z ∧ resp_ReadError response = None ∧
  (Z.of_nat (String.length (resp_Body response)) ≤ 2097152)%Z ∧
  unmarshal_status (resp_Body response) = Some (true, s).
Proof.
  unfold read_status, read_body. rewrite refuse_inr, negb_false_iff, Z.eqb_eq.
  change (max_status_bytes + 1)%Z with 2097153%Z. change max_status_bytes with 2097152%Z.
  set (n := String.length (resp_Body response)).
  destruct (Z.leb_spec 2097153 (Z.of_nat n)) as [Hlong|Hshort].
  - rewrite refuse_inr. rewrite substring_length by lia. rewrite Z2Nat.id by lia.
    split; [by intros (_ & ? & _)|]. intros (_ & _ & ? & _). lia.
  - destruct (resp_ReadError response); [by split; [intros [_ ?]|intros (_ & ? & _)]|].
    fold n. rewrite refuse_inr. destruct (unmarshal_status _) as [[listed s']|];
      [rewrite refuse_inr, negb_false_iff|].
    + split; [intros (? & _ & -> & [= ->])|intros (? & _ & _ & [= -> ->])]; split_and!; try done; lia.
    + split; [by intros (_ & _ & ?)|by intros (_ & _ & _ & ?)].
Qed.

Section theorems.
Context `{NetUrl, StatusJson} (oracle : list string → string → GoError + FetchResponse).

Definition log_GET (url : string) (log : list string) : list string * (GoError + FetchResponse) :=
  (log ++ [url], oracle log url).

(** A terminal that keeps what is written to it, and takes everything. *)
Definition terminal (text : string) (out : list string) : list string * option GoError :=
  (out ++ [text], None).

Lemma local_endpoint_ok u : local_endpoint u = None →
  url_Scheme u = "http" ∧ url_User u = None ∧
  (Hostname u = "localhost" ∨ ∃ ip, ParseIP (Hostname u) = Some ip ∧ IsLoopback ip = true).
Proof.
  clear oracle. intros Hlocal. unfold local_endpoint in Hlocal. destruct (_ || _) eqn:Hb in Hlocal; [done|].
  rewrite !orb_false_iff, negb_false_iff in Hb. destruct Hb as [[[[Hs Hn] _] _] _].
  apply bool_decide_eq_false, dec_stable in Hs. apply bool_decide_eq_true in Hn.
  split_and!; [done..|]. destruct (decide (Hostname u = "localhost")) as [|Hh]; [by left|right].
  rewrite bool_decide_true in Hlocal by done.
  destruct (ParseIP (Hostname u)) as [ip|]; [|done]. exists ip. by destruct (IsLoopback ip).
Qed.

(** C21: the command only reads from this machine and shows only plain lines. It sends at
    most one request, to the path /status of an HTTP URL without credentials whose host is
    localhost or a loopback address, and never follows an answer elsewhere. It prints
    exactly if the answer is usable: status 200, a body of at most two mebibytes that can be
    read to its end and decodes to a status with a list of subscriptions; otherwise it
    prints nothing and fails. What it prints is a table of one line per subscription under
    the header, and the totals. Whatever the server sent, the lines hold no ASCII control
    characters, so that it cannot add lines to the table or send an escape byte to the
    terminal (the control characters from U+0080 to U+009F do pass). *)
Theorem inspect_is_local_and_plain endpoint now log out :
  let '(log', out', err) := Subscriptions log_GET terminal endpoint now log out in
  let usable response s := resp_StatusCode response = 200%Z ∧ resp_ReadError response = None ∧
    (Z.of_nat (String.length (resp_Body response)) ≤ 2097152)%Z ∧
    unmarshal_status (resp_Body response) = Some (true, s) in
  (log' = log ∨ ∃ u, url_Parse endpoint = Some u ∧ log' = log ++ [url_String (status_url u)] ∧
     url_Scheme u = "http" ∧ url_User u = None ∧
     (Hostname u = "localhost" ∨ ∃ ip, ParseIP (Hostname u) = Some ip ∧ IsLoopback ip = true)) ∧
  match err with
  | Some _ => out' = out ∧ ∀ url response s, log' = log ++ [url] → oracle log url = inr response →
      usable response s → ∃ e, resp_Redirect response = Some (inl e)
  | None => ∃ url response s lines, oracle log url = inr response ∧ log' = log ++ [url] ∧
      usable response s ∧
      out' = out ++ [table_text now s; summary_line (sta_Nodes s)] ∧
      Split (table_text now s) "010" = lines ++ [""] ∧
      length lines = S (length (sta_Subscriptions s)) ∧
      Forall (λ line, all_bytes shown line = true) lines
  end.
Proof.
  cbv zeta.
  assert (∀ url, log = log ++ [url] → False) as Hlog.
  { intros url Heq. apply (f_equal length) in Heq. rewrite length_app in Heq. cbn in Heq. lia. }
  unfold Subscriptions. destruct (url_Parse endpoint) as [u|]; [|split; [by left|split; [done|by intros ? ? ? []%Hlog]]].
  destruct (local_endpoint u) as [msg|] eqn:Hlocal; [split; [by left|split; [done|by intros ? ? ? []%Hlog]]|].
  destruct (url_Parse (url_String _)); [|split; [by left|split; [done|by intros ? ? ? []%Hlog]]].
  pose proof (local_endpoint_ok u Hlocal) as (Hscheme & Huser & Hhost).
  unfold Do_unredirected, log_GET. set (url := url_String (status_url u)).
  assert (log ++ [url] = log ∨ ∃ u', Some u = Some u' ∧ log ++ [url] = log ++ [url_String (status_url u')] ∧
     url_Scheme u' = "http" ∧ url_User u' = None ∧
     (Hostname u' = "localhost" ∨ ∃ ip, ParseIP (Hostname u') = Some ip ∧ IsLoopback ip = true))
    as Hsent by (right; by exists u).
  destruct (oracle log url) as [err|response] eqn:Ho.
  { split; [exact Hsent|]. split; [done|]. intros url' response s [= <-]%(inj (log ++.)). congruence. }
  destruct (resp_Redirect response) as [[err|target]|] eqn:Hredirect.
  { split; [exact Hsent|]. split; [done|]. intros url' response' s [= <-]%(inj (log ++.)).
    rewrite Ho. intros [= <-] _. by exists err. }
  all: destruct (read_status response) as [err|s] eqn:Hs; (split; [exact Hsent|]).
  1, 3: split; [done|]; intros url' response' s [= <-]%(inj (log ++.));
    rewrite Ho; intros [= <-] Husable%read_status_spec; congruence.
  all: destruct (table_text_lines now s) as (lines & Hl & Hn & Hshown);
    exists url, response, s, lines; rewrite <-(assoc_L (++)); apply read_status_spec in Hs as (? & ? & ? & ?);
    split_and!; done.
Qed.
End theorems.
