(* ===== verification/Probe.v ===== *)
(** * proxycore/probe.go: one health probe through one node.

    The connection, TLS and the HTTP codec are an interface, [ProbeNet]; platform.go, a
    stub of a third-party interface without behaviour, is not modelled. *)
From stdpp Require Import gmap strings list.
From S2P Require Import Prelude.
From S2P Require Import GoBase.
From S2P Require Import GoStrings.
From S2P Require Import GoCodec.
From S2P Require Import NetUrl.
From S2P Require Import GoNet.
From stdpp Require Import options.

(** The fields of a [tls.Config] the program looks at. *)
Record tlsConfig := mkTlsConfig {
  tls_MinVersion : Z;
  tls_ServerName : string;
  tls_InsecureSkipVerify : bool;
}.
Definition VersionTLS12 : Z := 0x0303.

Record Prober := mkProber {
  prb_target : URL;
  prb_expectedStatus : Z;
  prb_tlsConfig : tlsConfig;
}.

Definition NewProber `{NetUrl} (target : string) (expectedStatus : Z) (config : option tlsConfig)
    : GoError + Prober :=
  match url_Parse target with
  | None => inl (ErrNew "probe target must be an absolute HTTPS URL")
  | Some parsed =>
      refuse (bool_decide (url_Scheme parsed ≠ "https") || bool_decide (Hostname parsed = ""))
        "probe target must be an absolute HTTPS URL" (
      refuse ((expectedStatus <? 100)%Z || (599 <? expectedStatus)%Z)
        "expected probe status is invalid" (
      let config := default (mkTlsConfig VersionTLS12 "" false) config in
      refuse (tls_InsecureSkipVerify config) "probe TLS verification cannot be disabled" (
      inr (mkProber parsed expectedStatus
        (mkTlsConfig (tls_MinVersion config `max` VersionTLS12) (tls_ServerName config)
           (tls_InsecureSkipVerify config))))))
  end.

Record ProbeRequest := mkProbeRequest {
  pq_Method : string;
  pq_URL : URL;
  pq_Host : string;
  pq_Header : Header;
}.

(** What a probe does to the world [W] through a dialer [D]; [pn_read] reads the head of
    a response and gives its status code. *)
Class ProbeNet (W D Conn : Type) := {
  pn_dial : D → string → string → W → W * (GoError + Conn);
  pn_SetDeadline : Conn → Z → W → W;
  pn_Handshake : tlsConfig → Conn → W → W * option GoError;
  pn_write : ProbeRequest → Conn → W → W * option GoError;
  pn_read : Conn → W → W * (GoError + Z);
  pn_close_body : Conn → W → W;
  pn_close : Conn → W → W;
  pn_now : W → Z;
}.

Definition probe_address (prober : Prober) : string :=
  let port := Port (prb_target prober) in
  JoinHostPort (Hostname (prb_target prober)) (if decide (port = "") then "443" else port).

Definition probe_tls (prober : Prober) : tlsConfig :=
  let config := prb_tlsConfig prober in
  if decide (tls_ServerName config = "")
  then mkTlsConfig (tls_MinVersion config) (Hostname (prb_target prober)) (tls_InsecureSkipVerify config)
  else config.

Definition probe_request (prober : Prober) : ProbeRequest :=
  mkProbeRequest "GET" (prb_target prober) (url_Host (prb_target prober))
    (header_Set "Connection" "close" {["User-Agent" := ["dual-egress-gateway/health"]]}).

Section probe.
Context {W D Conn : Type} `{ProbeNet W D Conn}.

(** From the connection to the result; the connection is closed by [Probe]. *)
Definition probe_exchange (prober : Prober) (deadline : option Z) (started : Z) (conn : Conn) (w : W)
    : W * (GoError + Z) :=
  let w := match deadline with Some t => pn_SetDeadline conn t w | None => w end in
  match pn_Handshake (probe_tls prober) conn w with
  | (w, Some err) => (w, inl err)
  | (w, None) =>
      match pn_write (probe_request prober) conn w with
      | (w, Some err) => (w, inl err)
      | (w, None) =>
          match pn_read conn w with
          | (w, inl err) => (w, inl err)
          | (w, inr status) =>
              let result :=
                if (status =? prb_expectedStatus prober)%Z then inr (pn_now w - started)%Z
                else inl (ErrNew ("unexpected HTTP status " +:+ Itoa status +:+ ", want "
                                  +:+ Itoa (prb_expectedStatus prober))) in
              (pn_close_body conn w, result)
          end
      end
  end.

Definition Probe (prober : Prober) (deadline : option Z) (dialer : D) (w : W) : W * (GoError + Z) :=
  let started := pn_now w in
  match pn_dial dialer "tcp" (probe_address prober) w with
  | (w, inl err) => (w, inl err)
  | (w, inr conn) =>
      let '(w, result) := probe_exchange prober deadline started conn w in
      (pn_close conn w, result)
  end.
End probe.

(** ** Theorems *)

Section theorems.
Context {D Conn : Type} `{NetUrl}.

Inductive ProbeEvent :=
  | PbDial (dialer : D) (network address : string)
  | PbSetDeadline (conn : Conn) (t : Z)
  | PbHandshake (config : tlsConfig) (conn : Conn)
  | PbWrite (request : ProbeRequest) (conn : Conn)
  | PbRead (conn : Conn)
  | PbCloseBody (conn : Conn)
  | PbClose (conn : Conn).
Abbreviation Log := (list ProbeEvent) (only parsing).

(** A network that keeps a log and answers in any way. *)
Context (dial_oracle : Log → GoError + Conn) (step_oracle : Log → option GoError).
Context (read_oracle : Log → GoError + Z) (clock : nat → Z).

#[local] Instance log_net : ProbeNet Log D Conn := {|
  pn_dial := λ d network address log, (log ++ [PbDial d network address], dial_oracle log);
  pn_SetDeadline := λ conn t log, log ++ [PbSetDeadline conn t];
  pn_Handshake := λ config conn log, (log ++ [PbHandshake config conn], step_oracle log);
  pn_write := λ rq conn log, (log ++ [PbWrite rq conn], step_oracle log);
  pn_read := λ conn log, (log ++ [PbRead conn], read_oracle log);
  pn_close_body := λ conn log, log ++ [PbCloseBody conn];
  pn_close := λ conn log, log ++ [PbClose conn];
  pn_now := λ log, clock (length log);
|}.

(** The steps on a connection, in order. *)
Definition probe_script (prober : Prober) (deadline : option Z) (conn : Conn) : Log :=
  match deadline with Some t => [PbSetDeadline conn t] | None => [] end ++
  [PbHandshake (probe_tls prober) conn; PbWrite (probe_request prober) conn; PbRead conn;
   PbCloseBody conn].

Lemma NewProber_ok target expected config prober :
  NewProber target expected config = inr prober →
  url_Parse target = Some (prb_target prober) ∧ url_Scheme (prb_target prober) = "https" ∧
  Hostname (prb_target prober) ≠ "" ∧ prb_expectedStatus prober = expected ∧
  (100 ≤ expected ≤ 599)%Z ∧ tls_InsecureSkipVerify (prb_tlsConfig prober) = false ∧
  (VersionTLS12 ≤ tls_MinVersion (prb_tlsConfig prober))%Z.
Proof.
  unfold NewProber. destruct (url_Parse target) as [u|]; [|done]. rewrite !refuse_inr.
  rewrite !orb_false_iff. intros ([Hs Hh] & Hstatus & Hverify & [= <-]). cbn.
  apply bool_decide_eq_false, dec_stable in Hs. apply bool_decide_eq_false in Hh.
  split_and!; try done; lia.
Qed.

(** What a step ends with in a world of this log; a step that is no handshake, request or
    response always works. *)
Definition step_error (log : Log) (event : ProbeEvent) : option GoError :=
  match event with
  | PbHandshake _ _ | PbWrite _ _ => step_oracle log
  | PbRead _ => match read_oracle log with inl err => Some err | inr _ => None end
  | _ => None
  end.

(** Some steps, one after another up to the first that fails. *)
Fixpoint play (log script : Log) : Log * option GoError :=
  match script with
  | [] => (log, None)
  | event :: rest =>
      match step_error log event with
      | Some err => (log ++ [event], Some err)
      | None => play (log ++ [event]) rest
      end
  end.

(** What the step number [i] of a script ends with. *)
Definition outcome (log script : Log) (i : nat) : option GoError :=
  script !! i ≫= step_error (log ++ take i script).

Lemma outcome_cons log event script i :
  outcome log (event :: script) (S i) = outcome (log ++ [event]) script i.
Proof. unfold outcome. cbn. by rewrite <-(assoc_L (++)). Qed.

Lemma play_spec log script :
  script ≠ [] →
  let '(log', result) := play log script in
  ∃ k, 0 < k ≤ length script ∧ log' = log ++ take k script ∧
    (∀ i, S i < k → outcome log script i = None) ∧ outcome log script (k - 1) = result ∧
    (result = None → k = length script).
Proof.
  revert log. induction script as [|event script IH]; intros log Hne; [done|]. cbn [play].
  assert (outcome log (event :: script) 0 = step_error log event) as Hzero
    by (unfold outcome; cbn; by rewrite app_nil_r).
  destruct (step_error log event) as [err|] eqn:Hstep.
  { exists 1. cbn. split_and!; [lia|lia|done|intros; lia|done|done]. }
  destruct script as [|event' script].
  { exists 1. cbn. split_and!; [lia|lia|done|intros; lia|done|done]. }
  specialize (IH (log ++ [event]) ltac:(done)). destruct (play _ _) as [log' result].
  destruct IH as (k & Hk & -> & Hbefore & Hlast & Hall). exists (S k).
  split_and!; [lia|cbn in *; lia| | | |].
  - by rewrite <-(assoc_L (++)).
  - intros [|i] Hi; [done|]. rewrite outcome_cons. apply Hbefore. lia.
  - replace (S k - 1) with (S (k - 1)) by lia. by rewrite outcome_cons.
  - intros Hnone. by rewrite (Hall Hnone).
Qed.

(** The exchange plays its script, and judges the response it read. *)
Lemma probe_exchange_plays prober deadline started conn log :
  let script := probe_script prober deadline conn in
  probe_exchange prober deadline started conn log =
  match play log script with
  | (log', Some err) => (log', inl err)
  | (log', None) =>
      (log',
       match read_oracle (log ++ take (length script - 2) script) with
       | inl err => inl err
       | inr status =>
           if (status =? prb_expectedStatus prober)%Z
           then inr (clock (length log + length script - 1) - started)%Z
           else inl (ErrNew ("unexpected HTTP status " +:+ Itoa status +:+ ", want "
                             +:+ Itoa (prb_expectedStatus prober)))
       end)
  end.
Proof.
  cbv zeta. unfold probe_exchange, probe_script. destruct deadline as [t|];
    cbn [pn_SetDeadline log_net pn_Handshake pn_write pn_read pn_close_body pn_now play step_error
      app length Nat.sub take]; rewrite ?app_nil_r, <-?(assoc_L (++)); cbn [app].
  all: repeat (destruct (step_oracle _); [done|]).
  all: destruct (read_oracle _) as [|status]; [done|]; rewrite <-?(assoc_L (++)); cbn [app].
  all: do 2 f_equal; destruct (status =? _)%Z; [|done]; do 3 f_equal; rewrite length_app; cbn; lia.
Qed.

(** C19: a probe is one verified request on one connection, which it always closes. It
    dials the host of the target, at its port or 443. If that works it sets the deadline
    there is, shakes hands, writes a GET of the target, reads a response and closes its
    body, in this order: each step is taken only if all before it worked; if one fails, its
    error is the result and nothing follows but the one close of the connection; if none
    fails, the result is the time since the start if the response has the expected status,
    and else an error that names both. The handshake verifies the certificate against the
    target's name with TLS 1.2 or later. *)
Theorem probe_verifies_and_closes target expected config prober deadline dialer log :
  NewProber target expected config = inr prober →
  tls_ServerName (prb_tlsConfig prober) = "" →
  let '(log', result) := Probe prober deadline dialer log in
  let u := prb_target prober in
  let address := JoinHostPort (Hostname u) (if decide (Port u = "") then "443" else Port u) in
  let log0 := log ++ [PbDial dialer "tcp" address] in
  let tls := mkTlsConfig (tls_MinVersion (prb_tlsConfig prober)) (Hostname u) false in
  let request := mkProbeRequest "GET" u (url_Host u)
    {["Connection" := ["close"]; "User-Agent" := ["dual-egress-gateway/health"]]} in
  url_Parse target = Some u ∧ url_Scheme u = "https" ∧ (VersionTLS12 ≤ tls_MinVersion tls)%Z ∧
  match dial_oracle log with
  | inl err => result = inl err ∧ log' = log0
  | inr conn =>
      let script := match deadline with Some t => [PbSetDeadline conn t] | None => [] end ++
        [PbHandshake tls conn; PbWrite request conn; PbRead conn; PbCloseBody conn] in
      ∃ k, 0 < k ≤ length script ∧ log' = log0 ++ take k script ++ [PbClose conn] ∧
        (∀ i, S i < k → outcome log0 script i = None) ∧
        match outcome log0 script (k - 1) with
        | Some err => result = inl err
        | None => k = length script ∧
            ∃ status, read_oracle (log0 ++ take (k - 2) script) = inr status ∧
              result = (if (status =? expected)%Z
                then inr (clock (length log + k) - clock (length log))%Z
                else inl (ErrNew ("unexpected HTTP status " +:+ Itoa status +:+ ", want " +:+ Itoa expected)))
        end
  end.
Proof.
  intros Hnew Hname.
  destruct (NewProber_ok _ _ _ _ Hnew) as (Hparse & Hscheme & _ & Hexpected & _ & Hverify & Hmin).
  unfold Probe. cbn [pn_dial pn_now pn_close log_net]. unfold probe_address.
  set (address := JoinHostPort _ _). cbv zeta.
  destruct (dial_oracle log) as [err|conn]; [by split_and!|].
  rewrite probe_exchange_plays. cbv zeta. set (log0 := log ++ [_]). set (script := probe_script _ _ _).
  match goal with |- context [outcome log0 ?s] => assert (s = script) as -> end.
  { unfold script, probe_script, probe_tls. rewrite decide_True by done. by rewrite Hverify. }
  assert (script ≠ []) as Hne by (unfold script, probe_script; by destruct deadline).
  pose proof (play_spec log0 script Hne) as Hplay. destruct (play log0 script) as [log' [err|]].
  - split_and!; [done..|]. destruct Hplay as (k & Hk & -> & Hbefore & Hlast & _). exists k.
    rewrite Hlast. by rewrite <-(assoc_L (++)).
  - split_and!; [done..|]. destruct Hplay as (k & Hk & -> & Hbefore & Hlast & Hall).
    specialize (Hall eq_refl). exists k. rewrite Hlast, Hall, <-(assoc_L (++)). split_and!; [lia|lia|done| |done|].
    { intros i. rewrite <-Hall. apply Hbefore. }
    rewrite <-Hexpected. destruct (read_oracle _) as [err|status] eqn:Hread.
    + exfalso.
      assert (outcome log0 script (length script - 2) = Some err) as Herr.
      { assert (script !! (length script - 2) = Some (PbRead conn)) as Hget
          by (unfold script, probe_script; by destruct deadline).
        unfold outcome. rewrite Hget. cbn [mbind option_bind step_error]. by rewrite Hread. }
      rewrite Hbefore in Herr; [done|]. rewrite Hall.
      unfold script, probe_script. destruct deadline; cbn; lia.
    + exists status. split; [done|]. destruct (status =? _)%Z; [|done]. do 3 f_equal.
      unfold log0. rewrite length_app. cbn. lia.
Qed.
End theorems.
