(* ===== verification/Session.v ===== *)
(** * httpproxy/server.go: a client connection's session and its dial loop.

    A session runs while other connections, probes and refreshes use the same
    registry and selector. Its code is a sequence of atomic actions (a critical
    section of the registry or of the selector); before each of them the schedule
    lets any number of foreign events happen. Every theorem holds for every
    schedule, every outcome of the network and every clock. *)
From stdpp Require Import gmap strings list fin_maps.
From S2P Require Import Prelude.
From S2P Require Import GoBase.
From S2P Require Import Model.
From S2P Require Import Selector.
From S2P Require Import Registry.
From S2P Require Import Leases.
From stdpp Require Import options.

Inductive WEvent :=
  | WvPool (e : PoolEvent)
  | WvSel (e : SelEvent).

Section session.
Context {F D : Type} `{FactoryLaws F D} {Conn : Type}.

(** A dial the session made: on which lease and dialer, how it ended, and the
    pool it was made in. A history variable. *)
Record DialRecord := mkDialRecord {
  dr_lease : nat;
  dr_dialer : D;
  dr_ok : bool;
  dr_pool : Pool (F := F) (D := D);
}.

(** The shared registry and selector, the dials of the session so far, and the
    number of actions so far, which indexes the schedule, the clock and the
    network. *)
Record World := mkWorld {
  w_pool : Pool (F := F) (D := D);
  w_sel : SelSys;
  w_log : list DialRecord;
  w_time : nat;
}.

Definition do_pool (e : PoolEvent) (w : World) : World :=
  mkWorld (pool_step e (w_pool w)) (w_sel w) (w_log w) (w_time w).
Definition do_sel (e : SelEvent) (w : World) : World :=
  mkWorld (w_pool w) (sel_step e (w_sel w)) (w_log w) (w_time w).
Definition w_step (e : WEvent) (w : World) : World :=
  match e with WvPool e => do_pool e w | WvSel e => do_sel e w end.
Definition w_run (w : World) (evs : list WEvent) : World := foldl (λ w e, w_step e w) w evs.

(** Environment: what the others do before an action, what a dial with a timeout
    yields, and the time. *)
Context (sched : nat → list WEvent).
Context (net : nat → D → option Z → string → string → GoError + Conn).
Context (clock : nat → Z).

(** A session's lease and attempt are its own: nobody else holds a reference. *)
Definition foreign (attempt lease : option nat) (e : WEvent) : bool :=
  match e with
  | WvPool (PvClose i) => bool_decide (lease ≠ Some i)
  | WvSel (EvNext i) | WvSel (EvCommit i _) | WvSel (EvAbort i) =>
      bool_decide (attempt ≠ Some i)
  | _ => true
  end.

Definition others (attempt lease : option nat) (w : World) : World :=
  let w' := w_run w (filter (λ e, foreign attempt lease e = true) (sched (w_time w))) in
  mkWorld (w_pool w') (w_sel w') (w_log w') (S (w_time w')).

(** [connectionSession]: [ss_selected] is the number of the lease held. *)
Record Session := mkSession {
  ss_selected : option nat;
  ss_transport : bool;
  ss_released : bool;
}.

Definition new_session : Session := mkSession None false false.

(** [lease.Dialer.DialContext] *)
Definition dial_on (li : nat) (l : NodeLease D) (timeout : option Z) (network address : string)
    (w : World) : World * (GoError + Conn) :=
  let r := net (w_time w) (lease_Dialer l) timeout network address in
  (mkWorld (w_pool w) (w_sel w)
     (w_log w ++ [mkDialRecord li (lease_Dialer l)
        (match r with inl _ => false | inr _ => true end) (w_pool w)]) (w_time w), r).

(** The [for] loop of [dial]; [ai] is the attempt. [None]: out of fuel. *)
Fixpoint dial_loop (fuel : nat) (dialTimeout : Z) (halfOpen : gmap string bool) (ai : nat)
    (network address : string) (ss : Session) (w : World)
    : option (World * Session * (GoError + Conn)) :=
  match fuel with
  | 0 => None
  | S fuel =>
      match sys_attempts (w_sel w) !! ai with
      | None => None
      | Some a =>
          let w1 := do_sel (EvNext ai) w in
          match (Next a).2 with
          | None =>
              let w2 := do_sel (EvAbort ai) (others (Some ai) None w1) in
              Some (w2, ss, inl (ErrNew "all proxy nodes failed"))
          | Some id =>
              let w2 := others (Some ai) None w1 in
              let allow := default false (halfOpen !! id) in
              let li := length (pl_leases (w_pool w2)) in
              let w3 := do_pool (PvAcquire id allow) w2 in
              match (Acquire id allow (pl_reg (w_pool w2))).2 with
              | None => dial_loop fuel dialTimeout halfOpen ai network address ss w3
              | Some lease =>
                  let timeout :=
                    if (0 <? dialTimeout)%Z then Some dialTimeout else None in
                  let '(w4, r) := dial_on li lease timeout network address w3 in
                  let w5 := others (Some ai) (Some li) w4 in
                  match r with
                  | inl err =>
                      let w6 := do_pool (PvMarkFailure id (Some err) (clock (w_time w5))) w5 in
                      let w7 := do_pool (PvClose li) (others (Some ai) (Some li) w6) in
                      dial_loop fuel dialTimeout halfOpen ai network address ss w7
                  | inr conn =>
                      let w6 := do_pool (PvMarkSuccess id 0 (clock (w_time w5))) w5 in
                      let w7 := do_sel (EvCommit ai id) (others (Some ai) (Some li) w6) in
                      Some (w7, mkSession (Some li) (ss_transport ss) (ss_released ss), inr conn)
                  end
              end
          end
      end
  end.

Definition session_dial (dialTimeout : Z) (network address : string) (ss : Session) (w : World)
    : option (World * Session * (GoError + Conn)) :=
  match ss_selected ss with
  | Some li =>
      match pl_leases (w_pool w) !! li with
      | None => None
      | Some (lease, _) =>
          let '(w1, r) := dial_on li lease None network address w in
          match r with
          | inl err =>
              let w2 := others None (Some li) w1 in
              Some (do_pool (PvMarkFailure (lease_ID lease) (Some err) (clock (w_time w2))) w2,
                    ss, inl err)
          | inr conn => Some (w1, ss, inr conn)
          end
      end
  | None =>
      let w1 := others None None w in
      let candidates := RoutingSnapshot (pl_reg (w_pool w1)) in
      let halfOpen := foldl (λ m c, <[cand_ID c := cand_HalfOpen c]> m) ∅ candidates in
      let w2 := others None None w1 in
      let ai := length (sys_attempts (w_sel w2)) in
      dial_loop (S (length candidates)) dialTimeout halfOpen ai network address ss
        (do_sel (EvBegin candidates) w2)
  end.

(** [release], without the closing of the transport's idle connections and the
    decrement of [active], which Proxy.v does. *)
Definition session_release (ss : Session) (w : World) : World * Session :=
  if ss_released ss then (w, ss)
  else
    match ss_selected ss with
    | None => (w, mkSession None (ss_transport ss) true)
    | Some li =>
        (do_pool (PvClose li) (others None (Some li) w), mkSession None (ss_transport ss) true)
    end.

(** ** Interference *)

(** One world evolves into another by atomic events of the registry and the
    selector. *)
Definition evolves (w w' : World) : Prop :=
  ∃ evs, w_pool w' = w_pool (w_run w evs) ∧ w_sel w' = w_sel (w_run w evs).

Lemma w_run_same w v evs :
  w_pool w = w_pool v → w_sel w = w_sel v →
  w_pool (w_run w evs) = w_pool (w_run v evs) ∧ w_sel (w_run w evs) = w_sel (w_run v evs).
Proof.
  revert w v. induction evs as [|[e|e] evs IH]; intros w v Hp Hs; simpl; [done|..];
    apply IH; simpl; congruence.
Qed.

#[global] Instance evolves_preorder : PreOrder evolves.
Proof.
  split.
  - intros w. by exists [].
  - intros w1 w2 w3 (evs & Hp & Hs) (evs' & Hp' & Hs'). exists (evs ++ evs').
    unfold w_run. rewrite foldl_app. fold (w_run w1 evs).
    destruct (w_run_same w2 (w_run w1 evs) evs' Hp Hs) as [Hp2 Hs2].
    unfold w_run in *. split; congruence.
Qed.

Lemma evolves_pool e w : evolves w (do_pool e w).
Proof. by exists [WvPool e]. Qed.
Lemma evolves_sel e w : evolves w (do_sel e w).
Proof. by exists [WvSel e]. Qed.
Lemma evolves_others att li w : evolves w (others att li w).
Proof. by eexists. Qed.
Lemma evolves_dial li l timeout network address w :
  evolves w (dial_on li l timeout network address w).1.
Proof. by exists []. Qed.

Lemma evolves_pool_ok w w' : evolves w w' → pool_ok (w_pool w) → pool_ok (w_pool w').
Proof.
  intros (evs & -> & _). revert w. induction evs as [|[e|e] evs IH]; intros w Hok; simpl; [done|..];
    apply IH; simpl; [by apply pool_ok_step|done].
Qed.

Lemma sel_step_attempt e y i a :
  sys_attempts y !! i = Some a →
  (match e with EvNext j | EvCommit j _ | EvAbort j => i ≠ j | EvBegin _ => True end) →
  sys_attempts (sel_step e y) !! i = Some a.
Proof.
  intros Hi He. destruct e as [cs|j|j id|j]; unfold sel_step.
  - destruct (Begin _ _) as [s b]. simpl. by apply lookup_app_l_Some.
  - destruct (sys_attempts y !! j) as [b|]; [|done]. simpl. by rewrite list_lookup_insert_ne.
  - destruct (sys_attempts y !! j) as [b|]; [|done].
    destruct (Commit id (sys_sel y, b)) as [??]. simpl. by rewrite list_lookup_insert_ne.
  - destruct (sys_attempts y !! j) as [b|]; [|done].
    destruct (Abort (sys_sel y, b)) as [??]. simpl. by rewrite list_lookup_insert_ne.
Qed.

Lemma w_run_lease evs w i l c :
  pl_leases (w_pool w) !! i = Some (l, c) →
  ∃ c', pl_leases (w_pool (w_run w evs)) !! i = Some (l, c') ∧ (c = true → c' = true) ∧
    (WvPool (PvClose i) ∉ evs → c' = c).
Proof.
  revert w c. induction evs as [|[e|e] evs IH]; intros w c Hi; simpl.
  - by exists c.
  - destruct (pool_step_lease e _ _ _ _ Hi) as (c1 & Hi1 & Hm1 & He1).
    destruct (IH (do_pool e w) c1 Hi1) as (c2 & Hi2 & Hm2 & He2). exists c2. split_and!; auto.
    intros Hnot. rewrite He2, He1; [done|..].
    + intros ->. apply Hnot. by left.
    + intros Hin. apply Hnot. by right.
  - destruct (IH (do_sel e w) c Hi) as (c2 & Hi2 & Hm2 & He2). exists c2. split_and!; auto.
    intros Hnot. apply He2. intros Hin. apply Hnot. by right.
Qed.

Lemma others_lease att li w i l c :
  pl_leases (w_pool w) !! i = Some (l, c) → li = Some i ∨ c = true →
  pl_leases (w_pool (others att li w)) !! i = Some (l, c).
Proof.
  intros Hi Hown. unfold others.
  set (evs := filter _ _). destruct (w_run_lease evs w i l c Hi) as (c' & Hi' & Hm & He).
  simpl. rewrite Hi'. destruct Hown as [->| ->]; [|by rewrite Hm].
  rewrite He; [done|]. subst evs. intros [Hf _]%list_elem_of_filter. simpl in Hf.
  by apply bool_decide_eq_true in Hf.
Qed.

Lemma w_run_attempt evs w i a :
  sys_attempts (w_sel w) !! i = Some a →
  (∀ e, e ∈ evs → foreign (Some i) None e = true) →
  sys_attempts (w_sel (w_run w evs)) !! i = Some a.
Proof.
  revert w. induction evs as [|e evs IH]; intros w Hi Hf; [done|].
  simpl. apply IH; [|intros; apply Hf; by right].
  specialize (Hf e ltac:(by left)). destruct e as [e|e]; simpl; [done|].
  apply sel_step_attempt; [done|].
  destruct e; simpl in Hf; try done; apply bool_decide_eq_true in Hf; congruence.
Qed.

Lemma others_attempt i li w a :
  sys_attempts (w_sel w) !! i = Some a → sys_attempts (w_sel (others (Some i) li w)) !! i = Some a.
Proof.
  intros Hi. apply w_run_attempt; [done|]. intros e [Hf _]%list_elem_of_filter.
  by destruct e as [[]|[]].
Qed.

Lemma w_run_log evs w : w_log (w_run w evs) = w_log w.
Proof. revert w. induction evs as [|[e|e] evs IH]; intros w; simpl; [done|by rewrite IH..]. Qed.

Lemma others_log att li w : w_log (others att li w) = w_log w.
Proof. apply w_run_log. Qed.

(** ** The dial loop *)

(** Record [r] is a dial on node [id], made while its dialer was live, that ended
    as [ok]; its lease is by now closed or still open. *)
Definition used_lease (w : World) (closed ok : bool) (r : DialRecord) (id : string) : Prop :=
  dr_ok r = ok ∧ dr_dialer r ∈ live (pl_fac (dr_pool r)) ∧
  ∃ l, pl_leases (w_pool w) !! dr_lease r = Some (l, closed) ∧
    lease_ID l = id ∧ lease_Dialer l = dr_dialer r.

Lemma used_closed_evolves w w' ok r id :
  evolves w w' → used_lease w true ok r id → used_lease w' true ok r id.
Proof.
  intros (evs & Hp & _) (? & ? & l & Hl & ? & ?). split_and!; [done..|].
  destruct (w_run_lease evs w _ _ _ Hl) as (c' & Hl' & Hm & _).
  exists l. rewrite Hp, Hl', Hm; done.
Qed.

Lemma used_same_pool w w' closed ok r id :
  w_pool w = w_pool w' → used_lease w closed ok r id → used_lease w' closed ok r id.
Proof. intros Heq. unfold used_lease. by rewrite Heq. Qed.

Definition attempt_done (ai : nat) (w : World) : Prop :=
  ∃ a, sys_attempts (w_sel w) !! ai = Some a ∧ (at_reserved a = true → at_finished a = true).

(** What the loop leaves behind when the candidates [order] were still to be
    tried: every failed dial's lease is closed, and only the lease of a
    successful last dial is open and selected. *)
Definition dial_outcome (order : list string) (ai : nat) (ss : Session) (w : World)
    (out : World * Session * (GoError + Conn)) : Prop :=
  let '(w', ss', r) := out in
  evolves w w' ∧ attempt_done ai w' ∧
  ∃ failed ids, Forall2 (used_lease w' true false) failed ids ∧
  match r with
  | inl err => err = ErrNew "all proxy nodes failed" ∧ ss' = ss ∧
      w_log w' = w_log w ++ failed ∧ ids `sublist_of` order
  | inr _ => ∃ rec id, used_lease w' false true rec id ∧
      w_log w' = w_log w ++ failed ++ [rec] ∧ (ids ++ [id]) `sublist_of` order ∧
      ss' = mkSession (Some (dr_lease rec)) (ss_transport ss) (ss_released ss)
  end.

(** Prefixing a step that used at most one lease, closed by now. *)
Lemma dial_outcome_skip order order' ai ss w w1 out :
  evolves w w1 → w_log w1 = w_log w → order' `sublist_of` order →
  dial_outcome order' ai ss w1 out → dial_outcome order ai ss w out.
Proof.
  intros Hev Hlog Hsub. destruct out as [[w' ss'] r].
  intros (Hev' & Hdone & failed & ids & Hf & Hr).
  split; [by etrans|]. split; [done|]. exists failed, ids. split; [done|].
  rewrite <-Hlog. destruct r as [err|conn].
  - destruct Hr as (? & ? & ? & ?). split_and!; try done. by etrans.
  - destruct Hr as (rec & id & ? & ? & ? & ?). exists rec, id. split_and!; try done. by etrans.
Qed.

Lemma dial_outcome_failed order id ai ss w w1 rec out :
  evolves w w1 → w_log w1 = w_log w ++ [rec] → used_lease w1 true false rec id →
  dial_outcome order ai ss w1 out → dial_outcome (id :: order) ai ss w out.
Proof.
  intros Hev Hlog Hused. destruct out as [[w' ss'] r].
  intros (Hev' & Hdone & failed & ids & Hf & Hr).
  split; [by etrans|]. split; [done|]. exists (rec :: failed), (id :: ids).
  split; [constructor; [by eapply used_closed_evolves|done]|].
  rewrite Hlog in Hr. destruct r as [err|conn].
  - destruct Hr as (? & ? & Hl & ?). rewrite <-(assoc_L (++)) in Hl. split_and!; try done.
    by constructor.
  - destruct Hr as (rec' & id' & ? & Hl & ? & ?). exists rec', id'.
    rewrite <-(assoc_L (++)) in Hl. split_and!; try done. by constructor.
Qed.

Lemma acquire_lease_id id allow reg (l : NodeLease D) :
  (Acquire id allow reg).2 = Some l → lease_ID l = id.
Proof. unfold Acquire. intros Ha. repeat case_match; by simplify_eq/=. Qed.

Lemma pool_step_acquired id allow p l :
  (Acquire id allow (pl_reg p)).2 = Some l →
  pl_leases (pool_step (PvAcquire id allow) p) = pl_leases p ++ [(l, false)].
Proof. simpl. destruct (Acquire _ _ _) as [reg' [?|]]; intros; by simplify_eq/=. Qed.

Lemma finished_attempt ai e w a :
  sys_attempts (w_sel w) !! ai = Some a → at_finished a = false →
  (e = EvAbort ai ∨
   ∃ id, e = EvCommit ai id ∧ at_reserved a = true ∧ is_Some (at_returned a !! id)) →
  attempt_done ai (do_sel e w).
Proof.
  intros Ha Hfin He. unfold attempt_done, do_sel. simpl.
  assert (ai < length (sys_attempts (w_sel w))) as Hlt by by eapply lookup_lt_Some.
  destruct He as [->|(id & -> & Hres & [off Hoff])]; unfold sel_step; rewrite Ha.
  - unfold Abort. rewrite Hfin. destruct (at_reserved a) eqn:Hres; simpl;
      rewrite list_lookup_insert_eq by done; eexists; split; [done| |done|congruence]; done.
  - unfold Commit. rewrite Hfin, Hres, Hoff. simpl. rewrite list_lookup_insert_eq by done.
    by eexists.
Qed.

Lemma sel_step_next ai w a :
  sys_attempts (w_sel w) !! ai = Some a →
  sys_attempts (w_sel (do_sel (EvNext ai) w)) !! ai = Some (Next a).1.
Proof.
  intros Ha. simpl. rewrite Ha. simpl. apply list_lookup_insert_eq. by eapply lookup_lt_Some.
Qed.

(** A lease just acquired: after the dial it is still open, and its dialer was
    live. *)
Lemma dialed_lease w id allow (l : NodeLease D) timeout network address ai :
  pool_ok (w_pool w) → (Acquire id allow (pl_reg (w_pool w))).2 = Some l →
  let li := length (pl_leases (w_pool w)) in
  let w3 := do_pool (PvAcquire id allow) w in
  let '(w4, r) := dial_on li l timeout network address w3 in
  let w5 := others (Some ai) (Some li) w4 in
  ∃ rec, w_log w5 = w_log w ++ [rec] ∧ dr_lease rec = li ∧
    used_lease w5 false (match r with inl _ => false | inr _ => true end) rec id.
Proof.
  intros Hok Hacq li w3. unfold dial_on.
  set (r := net _ _ _ _ _). set (w4 := mkWorld _ _ _ _). cbv beta iota zeta.
  eexists. split; [by rewrite others_log|]. split; [done|].
  assert (pl_leases (w_pool w3) !! li = Some (l, false)) as Hl.
  { unfold w3, do_pool. cbn [w_pool]. rewrite (pool_step_acquired _ _ _ _ Hacq).
    by apply list_lookup_middle. }
  assert (pool_ok (w_pool w3)) as Hok3 by by apply pool_ok_step.
  split; [done|]. cbn [dr_dialer dr_pool dr_lease]. split.
  - destruct (po_lease _ Hok3 l) as (st & ? & ?);
      [apply list_elem_of_lookup; by eexists|].
    apply (ro_live _ _ (po_reg _ Hok3)). eauto.
  - exists l. split_and!; [|by eapply acquire_lease_id|done].
    apply others_lease; [done|by left].
Qed.

(** Closing the lease of a failed dial. *)
Lemma closed_lease w att rec id ok e :
  used_lease w false ok rec id → (∀ i, e ≠ PvClose i) →
  used_lease (do_pool (PvClose (dr_lease rec))
    (others att (Some (dr_lease rec)) (do_pool e w))) true ok rec id.
Proof.
  intros (? & ? & l & Hl & ? & ?) He. split_and!; [done..|]. exists l. split_and!; [|done..].
  destruct (pool_step_lease e _ _ _ _ Hl) as (c & Hl1 & _ & Hc).
  rewrite Hc in Hl1 by done. clear c Hc.
  assert (pl_leases (w_pool (others att (Some (dr_lease rec)) (do_pool e w))) !! dr_lease rec
    = Some (l, false)) as Hl2 by (apply others_lease; [done|by left]).
  set (w2 := others _ _ _) in *. clearbody w2.
  unfold do_pool. cbn [w_pool pool_step]. unfold lease_Close. rewrite Hl2.
  destruct (release _ _ _ _). simpl. apply list_lookup_insert_eq. by eapply lookup_lt_Some.
Qed.

Lemma do_pool_attempt e w i : sys_attempts (w_sel (do_pool e w)) !! i = sys_attempts (w_sel w) !! i.
Proof. done. Qed.

(** The successful end of the loop. *)
Lemma selected_outcome order ai ss w w5 rec id a (conn : Conn) now :
  evolves w w5 → w_log w5 = w_log w ++ [rec] → used_lease w5 false true rec id →
  sys_attempts (w_sel w5) !! ai = Some a → at_finished a = false →
  at_reserved a = true → is_Some (at_returned a !! id) →
  let w6 := others (Some ai) (Some (dr_lease rec)) (do_pool (PvMarkSuccess id 0 now) w5) in
  dial_outcome (id :: order) ai ss w
    (do_sel (EvCommit ai id) w6,
     mkSession (Some (dr_lease rec)) (ss_transport ss) (ss_released ss), inr conn).
Proof.
  intros Hev Hlog (Hok & Hlive & l & Hl & Hid & Hd) Ha Hfin Hres Hret w6.
  assert (evolves w5 w6) as Hev6 by (etrans; [apply evolves_pool|apply evolves_others]).
  split_and!.
  - etrans; [exact Hev|]. etrans; [exact Hev6|apply evolves_sel].
  - eapply finished_attempt; [by apply others_attempt|done|right; eauto].
  - exists [], []. split; [constructor|]. exists rec, id. split_and!; [|..|done].
    + split_and!; [done..|]. exists l. split_and!; [|done..].
      apply others_lease; [|by left].
      destruct (pool_step_lease (PvMarkSuccess id 0 now) _ _ _ _ Hl) as (c & Hl' & _ & Hc).
      rewrite Hc in Hl'; done.
    + change ([] ++ [rec]) with [rec]. rewrite <-Hlog. unfold w6. unfold do_sel. cbn [w_log]. by rewrite others_log.
    + simpl. apply sublist_skip, sublist_nil_l.
Qed.

Lemma dial_loop_spec fuel dialTimeout halfOpen ai network address ss w a :
  pool_ok (w_pool w) → sys_attempts (w_sel w) !! ai = Some a →
  at_finished a = false → (at_candidates a ≠ [] → at_reserved a = true) →
  length (pending a) < fuel →
  ∃ out, dial_loop fuel dialTimeout halfOpen ai network address ss w = Some out ∧
    dial_outcome (cand_ID <$> pending a) ai ss w out.
Proof.
  revert w a. induction fuel as [|fuel IH]; intros w a Hok Ha Hfin Hres Hfuel; [lia|].
  cbn [dial_loop]. rewrite Ha.
  pose proof (next_spec a Hfin) as Hnext.
  pose proof (sel_step_next _ _ _ Ha) as Ha1.
  set (w1 := do_sel (EvNext ai) w) in *.
  assert (evolves w w1) as Hev1 by apply evolves_sel.
  set (w2 := others (Some ai) None w1).
  assert (evolves w w2) as Hev2 by (etrans; [done|apply evolves_others]).
  assert (sys_attempts (w_sel w2) !! ai = Some (Next a).1) as Ha2 by by apply others_attempt.
  assert (w_log w2 = w_log w) as Hlog2 by (unfold w2; by rewrite others_log).
  assert (pool_ok (w_pool w2)) as Hok2 by by eapply evolves_pool_ok.
  destruct (Next a) as [a' [id|]]; cbn [fst snd] in *.
  - destruct Hnext as (c & pos & Hp & Hid & Hret & _ & _ & Hlook & _ & Hsame).
    destruct Hsame as (Hc' & _ & _ & _ & Hres' & Hfin').
    assert (at_reserved a = true) as Hr.
    { apply Hres. intros Hnil. by rewrite Hnil in Hlook. }
    assert (at_finished a' = false) as Hfa' by congruence.
    rewrite Hp in Hfuel. simpl in Hfuel. rewrite Hp, fmap_cons, Hid.
    set (allow := default false (halfOpen !! id)).
    set (li := length (pl_leases (w_pool w2))).
    destruct (Acquire id allow (pl_reg (w_pool w2))).2 as [l|] eqn:Hacq.
    + pose proof (dialed_lease w2 id allow l (if (0 <? dialTimeout)%Z then Some dialTimeout else None)
        network address ai Hok2 Hacq) as Hdial. cbv zeta in Hdial. fold li in Hdial.
      pose proof (evolves_dial li l (if (0 <? dialTimeout)%Z then Some dialTimeout else None)
        network address (do_pool (PvAcquire id allow) w2)) as Hev4.
      assert (sys_attempts (w_sel (dial_on li l (if (0 <? dialTimeout)%Z then Some dialTimeout else None)
        network address (do_pool (PvAcquire id allow) w2)).1) !! ai = Some a') as Ha4 by done.
      destruct (dial_on li l _ network address _) as [w4 r]. cbn [fst] in Hev4, Ha4.
      set (w5 := others (Some ai) (Some li) w4) in *.
      assert (evolves w w5) as Hev5.
      { etrans; [exact Hev2|]. etrans; [apply (evolves_pool (PvAcquire id allow))|].
        etrans; [done|apply evolves_others]. }
      assert (sys_attempts (w_sel w5) !! ai = Some a') as Ha5 by by apply others_attempt.
      destruct Hdial as (rec & Hlog5 & Hli & Hused). rewrite Hlog2 in Hlog5.
      destruct r as [err|conn].
      * set (w7 := do_pool (PvClose li) _).
        assert (evolves w5 w7) as Hev57.
        { etrans; [apply evolves_pool|]. etrans; [apply evolves_others|apply evolves_pool]. }
        assert (evolves w w7) as Hev7 by by etrans.
        destruct (IH w7 a') as (out & Hout & Hspec); [by eapply evolves_pool_ok| |done| |lia|].
        { unfold w7. rewrite do_pool_attempt. by apply others_attempt. }
        { rewrite Hc', Hres'. done. }
        exists out. split; [done|]. eapply dial_outcome_failed; [done| | |done].
        -- rewrite <-Hlog5. unfold w7, do_pool. cbn [w_log]. by rewrite others_log.
        -- unfold w7. rewrite <-Hli. by apply closed_lease.
      * eexists. split; [done|]. rewrite <-Hli.
        eapply selected_outcome; try done; [congruence|].
        rewrite Hret, lookup_insert_eq. by eexists.
    + destruct (IH (do_pool (PvAcquire id allow) w2) a') as (out & Hout & Hspec);
        [by apply pool_ok_step|done|done|by rewrite Hc', Hres'|lia|].
      exists out. split; [done|]. eapply dial_outcome_skip; [| | |done].
      * etrans; [done|apply evolves_pool].
      * done.
      * by apply sublist_cons.
  - destruct Hnext as (Hp & _ & (_ & _ & _ & _ & _ & Hfin') & _).
    eexists. split; [done|]. rewrite Hp. split_and!.
    + etrans; [exact Hev2|apply evolves_sel].
    + eapply finished_attempt; [done|congruence|by left].
    + exists [], []. split; [constructor|]. split_and!; try done.
      rewrite (right_id_L [] (++)). done.
Qed.

(** ** A session's life *)

(** What a session goes through: dials for its requests, the closing of its
    connection, and waiting while others act. *)
Inductive SessionOp :=
  | OpDial (dialTimeout : Z) (network address : string)
  | OpRelease
  | OpWait.

Definition session_step (op : SessionOp) (ws : World * Session) : option (World * Session) :=
  let '(w, ss) := ws in
  match op with
  | OpDial dialTimeout network address =>
      match session_dial dialTimeout network address ss w with
      | Some (w', ss', _) => Some (w', ss')
      | None => None
      end
  | OpRelease => Some (session_release ss w)
  | OpWait => Some (others None (ss_selected ss) w, ss)
  end.

Fixpoint session_run (ops : list SessionOp) (ws : World * Session) : option (World * Session) :=
  match ops with
  | [] => Some ws
  | op :: rest =>
      match session_step op ws with Some ws' => session_run rest ws' | None => None end
  end.

(** A world the program can be in when a session starts. *)
Definition reachable_world (interval : Z) (f : F) (w : World) : Prop :=
  evolves (mkWorld (new_pool interval f) (mkSelSys NewSelector [] ∅) [] 0) w ∧ w_log w = [].

Lemma reachable_pool_ok interval f w :
  valid f → live f = ∅ → reachable_world interval f w → pool_ok (w_pool w).
Proof. intros Hv Hf [Hev _]. eapply evolves_pool_ok; [done|]. by apply new_pool_ok. Qed.

Lemma routing_nodup reg f : reg_ok reg f → NoDup (cand_ID <$> RoutingSnapshot reg).
Proof.
  intros Hok. rewrite (routing_ids reg f Hok). by eapply ro_order_nodup.
Qed.

Lemma rotation_sublist_nodup start cs ids :
  NoDup (cand_ID <$> cs) → ids `sublist_of` rotation start cs → NoDup ids.
Proof.
  intros Hnd Hsub. eapply sublist_NoDup; [|done]. rewrite rotation_perm.
  eapply sublist_NoDup; [done|]. apply fmap_sublist, sublist_filter.
Qed.

(** The first dial of a session, in terms of the loop. *)
Lemma first_dial_spec dialTimeout network address ss w :
  pool_ok (w_pool w) → ss_selected ss = None →
  ∃ out cs start ai w0, session_dial dialTimeout network address ss w = Some out ∧
    evolves w w0 ∧ w_log w0 = w_log w ∧ cs = RoutingSnapshot (pl_reg (w_pool w0)) ∧
    NoDup (cand_ID <$> cs) ∧ dial_outcome (rotation start cs) ai ss w out.
Proof.
  intros Hok Hsel. unfold session_dial. rewrite Hsel.
  set (w1 := others None None w). set (cs := RoutingSnapshot _).
  set (w2 := others None None w1). set (ai := length (sys_attempts _)).
  assert (evolves w w1) as Hev1 by apply evolves_others.
  assert (evolves w w2) as Hev2 by (etrans; [exact Hev1|apply evolves_others]).
  assert (w_log w2 = w_log w) as Hlog2 by (unfold w2, w1; by rewrite !others_log).
  assert (pool_ok (w_pool w1)) as Hok1 by by eapply evolves_pool_ok.
  destruct (pending_fresh cs (sys_sel (w_sel w2))) as (Hfin & Hids & Hlen).
  set (a := (Begin cs (sys_sel (w_sel w2))).2) in *.
  destruct (dial_loop_spec (S (length cs)) dialTimeout
    (foldl (λ m c, <[cand_ID c := cand_HalfOpen c]> m) ∅ cs) ai network address ss
    (do_sel (EvBegin cs) w2) a) as (out & Hout & Hspec).
  - simpl. by eapply evolves_pool_ok.
  - unfold a, ai. clear. clearbody w2. unfold do_sel. simpl.
    destruct (Begin cs (sys_sel (w_sel w2))) as [s b]. simpl. by apply list_lookup_middle.
  - done.
  - unfold a, Begin. case_decide; done.
  - lia.
  - exists out, cs, (at_start a), ai, w1. rewrite Hids in Hspec. split_and!; try done.
    + unfold w1. by rewrite others_log.
    + eapply routing_nodup. apply Hok1.
    + eapply dial_outcome_skip; [| | |exact Hspec]; [|exact Hlog2|done].
      etrans; [exact Hev2|apply evolves_sel].
Qed.

(** Between its operations a session holds at most its selected lease: every
    other lease it ever dialed on is closed. *)
Record session_ok (w : World) (ss : Session) : Prop := {
  sn_pool : pool_ok (w_pool w);
  sn_log : ∀ r, r ∈ w_log w → ∃ l c, pl_leases (w_pool w) !! dr_lease r = Some (l, c) ∧
    (c = true ∨ ss_selected ss = Some (dr_lease r));
  sn_selected : ∀ li, ss_selected ss = Some li →
    ∃ l, pl_leases (w_pool w) !! li = Some (l, false);
  sn_live : ∀ r, r ∈ w_log w → dr_dialer r ∈ live (pl_fac (dr_pool r));
}.

(** Evolving with the selected lease protected keeps the invariant. *)
Lemma session_ok_others w ss : session_ok w ss → session_ok (others None (ss_selected ss) w) ss.
Proof.
  intros [Hok Hlog Hsel Hlive]. split.
  - eapply evolves_pool_ok; [apply evolves_others|done].
  - intros r Hr. rewrite others_log in Hr. destruct (Hlog r Hr) as (l & c & Hl & Hc).
    exists l, c. split; [|done]. apply others_lease; [done|]. tauto.
  - intros li Hli. destruct (Hsel li Hli) as [l Hl]. exists l.
    apply others_lease; [done|by left].
  - intros r. rewrite others_log. apply Hlive.
Qed.

(** So does an event that closes nothing. *)
Lemma session_ok_event e w ss :
  (∀ i, e ≠ PvClose i) → session_ok w ss → session_ok (do_pool e w) ss.
Proof.
  intros He [Hok Hlog Hsel Hlive].
  assert (∀ i l c, pl_leases (w_pool w) !! i = Some (l, c) →
    pl_leases (w_pool (do_pool e w)) !! i = Some (l, c)) as Hkeep.
  { intros i l c Hi. destruct (pool_step_lease e _ _ _ _ Hi) as (c' & Hi' & _ & Hc).
    by rewrite Hc in Hi'. }
  split; [by apply pool_ok_step|..|done].
  - intros r Hr. destruct (Hlog r Hr) as (l & c & Hl & Hc). exists l, c. auto.
  - intros li Hli. destruct (Hsel li Hli) as [l Hl]. eauto.
Qed.

Lemma session_ok_dial_on li l timeout network address w ss :
  session_ok w ss → ss_selected ss = Some li → pl_leases (w_pool w) !! li = Some (l, false) →
  session_ok (dial_on li l timeout network address w).1 ss.
Proof.
  intros [Hok Hlog Hsel Hlive] Hli Hl. split; simpl; [done| |done|].
  - intros r [Hr|Hr%list_elem_of_singleton]%elem_of_app; [by apply Hlog|]. subst r.
    exists l, false. auto.
  - intros r [Hr|Hr%list_elem_of_singleton]%elem_of_app; [by apply Hlive|]. subst r. simpl.
    destruct (po_lease _ Hok l) as (st & ? & ?); [apply list_elem_of_lookup; eauto|].
    apply (ro_live _ _ (po_reg _ Hok)). eauto.
Qed.

Lemma used_records w closed ok recs ids r :
  Forall2 (used_lease w closed ok) recs ids → r ∈ recs →
  dr_dialer r ∈ live (pl_fac (dr_pool r)) ∧
  ∃ l, pl_leases (w_pool w) !! dr_lease r = Some (l, closed).
Proof.
  intros Hall Hr. apply list_elem_of_lookup in Hr as [i Hi].
  destruct (Forall2_lookup_l _ _ _ _ _ Hall Hi) as (id & _ & _ & ? & l & ? & _). eauto.
Qed.

Lemma session_ok_first order ai ss w out :
  session_ok w ss → ss_selected ss = None → dial_outcome order ai ss w out →
  session_ok out.1.1 out.1.2.
Proof.
  clear sched net clock. intros [Hok Hlog Hsel Hlive] Hnone. destruct out as [[w' ss'] res].
  intros ((evs & Hp & Hs) & _ & failed & ids & Hfailed & Hres). simpl.
  assert (pool_ok (w_pool w')) as Hok' by (eapply evolves_pool_ok; [|done]; by exists evs).
  assert (∀ r, r ∈ w_log w → ∃ l, pl_leases (w_pool w') !! dr_lease r = Some (l, true)) as Hold.
  { intros r Hr. destruct (Hlog r Hr) as (l & c & Hl & [->|]); [|congruence].
    destruct (w_run_lease evs w _ _ _ Hl) as (c' & Hl' & Hm & _). exists l.
    by rewrite Hp, Hl', Hm. }
  destruct res as [err|conn].
  - destruct Hres as (_ & -> & Hl & _). split; [done|..].
    + rewrite Hl. intros r [Hr%Hold|Hr]%elem_of_app; [naive_solver|].
      destruct (used_records _ _ _ _ _ _ Hfailed Hr) as (_ & l & ?). naive_solver.
    + rewrite Hnone. done.
    + rewrite Hl. intros r [Hr|Hr]%elem_of_app; [by apply Hlive|].
      by destruct (used_records _ _ _ _ _ _ Hfailed Hr).
  - destruct Hres as (rec & id & (_ & Hrl & l & Hli & _) & Hl & _ & ->).
    assert (∀ r, r ∈ w_log w' → r ∈ w_log w ∨ r ∈ failed ∨ r = rec) as Hcases.
    { intros r. rewrite Hl, !elem_of_app, list_elem_of_singleton. tauto. }
    split; [done|..]; simpl.
    + intros r [Hr%Hold|[Hr| ->]]%Hcases; [naive_solver| |by exists l, false; auto].
      destruct (used_records _ _ _ _ _ _ Hfailed Hr) as (_ & l' & ?). naive_solver.
    + intros li [= <-]. eauto.
    + intros r [Hr|[Hr| ->]]%Hcases; [by apply Hlive| |done].
      by destruct (used_records _ _ _ _ _ _ Hfailed Hr).
Qed.

Lemma session_ok_release w ss :
  session_ok w ss → ss_released ss = false →
  session_ok (session_release ss w).1 (session_release ss w).2 ∧
  ss_selected (session_release ss w).2 = None.
Proof.
  clear net clock Conn. intros Hok Hrel. unfold session_release. rewrite Hrel.
  destruct (ss_selected ss) as [li|] eqn:Hli; simpl; (split; [|done]).
  - pose proof (session_ok_others w ss Hok) as Hok'. rewrite Hli in Hok'.
    destruct Hok' as [Hp Hlog Hsel Hlive]. set (w1 := others None (Some li) w) in *. clearbody w1.
    destruct (Hsel li Hli) as [l Hl].
    assert (∀ r l c, pl_leases (w_pool w1) !! r = Some (l, c) → c = true ∨ r = li →
      pl_leases (w_pool (do_pool (PvClose li) w1)) !! r = Some (l, true)) as Hclosed.
    { intros r l' c Hr [->| ->].
      - destruct (pool_step_lease (PvClose li) _ _ _ _ Hr) as (c' & Hr' & Hm & _).
        unfold do_pool. cbn [w_pool]. by rewrite Hr', Hm.
      - unfold do_pool. cbn [w_pool pool_step]. unfold lease_Close. rewrite Hl. simplify_eq.
        destruct (release _ _ _ _). simpl. apply list_lookup_insert_eq. by eapply lookup_lt_Some. }
    split; [by apply pool_ok_step| |done|done].
    intros r Hr. destruct (Hlog r Hr) as (l' & c & Hl' & Hc). exists l', true.
    split; [|by left]. eapply Hclosed; [done|]. rewrite Hli in Hc. naive_solver.
  - destruct Hok as [Hp Hlog Hsel Hlive]. split; try done. simpl. intros r Hr.
    destruct (Hlog r Hr) as (l & c & Hl & Hc). exists l, c. split; [done|]. rewrite Hli in Hc.
    by left; destruct Hc.
Qed.

Lemma session_dial_ok dialTimeout network address ss w :
  session_ok w ss →
  ∃ out, session_dial dialTimeout network address ss w = Some out ∧
    session_ok out.1.1 out.1.2 ∧ ss_released out.1.2 = ss_released ss.
Proof.
  intros Hok. destruct (ss_selected ss) as [li|] eqn:Hsel.
  - destruct (sn_selected _ _ Hok li Hsel) as [l Hl].
    unfold session_dial. rewrite Hsel, Hl.
    pose proof (session_ok_dial_on li l None network address w ss Hok Hsel Hl) as Hok1.
    destruct (dial_on li l None network address w) as [w1 [err|conn]]; [|by eexists].
    eexists. split; [done|]. split; [|done]. cbn [fst snd] in *.
    apply session_ok_event; [done|]. rewrite <-Hsel. by apply session_ok_others.
  - destruct (first_dial_spec dialTimeout network address ss w (sn_pool _ _ Hok) Hsel)
      as (out & cs & start & ai & w0 & Hout & _ & _ & _ & _ & Hspec).
    exists out. split; [done|]. split; [by eapply session_ok_first|].
    destruct out as [[w' ss'] [err|conn]]; destruct Hspec as (_ & _ & ? & ? & _ & Hr).
    + by destruct Hr as (_ & -> & _).
    + by destruct Hr as (? & ? & _ & _ & _ & ->).
Qed.

Lemma new_session_ok interval f w :
  valid f → live f = ∅ → reachable_world interval f w → session_ok w new_session.
Proof.
  intros Hv Hf Hreach. split.
  - by eapply reachable_pool_ok.
  - destruct Hreach as [_ ->]. by intros r ?%not_elem_of_nil.
  - done.
  - destruct Hreach as [_ ->]. by intros r ?%not_elem_of_nil.
Qed.

Lemma session_run_ok ops w ss :
  session_ok w ss → ss_released ss = false → (∀ op, op ∈ ops → op ≠ OpRelease) →
  ∃ w' ss', session_run ops (w, ss) = Some (w', ss') ∧ session_ok w' ss' ∧
    ss_released ss' = false.
Proof.
  revert w ss. induction ops as [|op ops IH]; intros w ss Hok Hrel Hops; [by eauto|].
  assert (∀ op', op' ∈ ops → op' ≠ OpRelease) as Hops' by (intros; apply Hops; by right).
  simpl. destruct op as [dialTimeout network address| |]; simpl.
  - destruct (session_dial_ok dialTimeout network address ss w Hok)
      as ([[w1 ss1] r] & -> & Hok1 & Hrel1).
    simpl in *. apply IH; [done|congruence|done].
  - by destruct (Hops OpRelease ltac:(by left)).
  - apply IH; [by apply session_ok_others|done|done].
Qed.

(** ** Theorems *)

(** C2: the first dial of a connection, whatever others do meanwhile, always
    returns, after trying distinct eligible nodes of one routing snapshot in
    round-robin order. If it fails, every lease it took is closed again, its
    attempt is retired and the session is as before; if it succeeds, exactly the
    lease of the node that answered stays open, selected by the session, and the
    attempt is retired. Each dial was made on a dialer that was live. *)
Theorem first_dial_tries_each_node_once interval f w dialTimeout network address :
  valid f → live f = ∅ → reachable_world interval f w →
  ∃ w' ss' r cs start ai w0 failed ids,
    session_dial dialTimeout network address new_session w = Some (w', ss', r) ∧
    evolves w w0 ∧ cs = RoutingSnapshot (pl_reg (w_pool w0)) ∧ evolves w w' ∧
    attempt_done ai w' ∧ NoDup ids ∧
    Forall2 (used_lease w' true false) failed ids ∧
    match r with
    | inl err => err = ErrNew "all proxy nodes failed" ∧ ss' = new_session ∧
        w_log w' = failed ∧ ids `sublist_of` rotation start cs
    | inr _ => ∃ rec id, w_log w' = failed ++ [rec] ∧ (id ∉ ids) ∧
        (ids ++ [id]) `sublist_of` rotation start cs ∧
        used_lease w' false true rec id ∧ ss' = mkSession (Some (dr_lease rec)) false false
    end.
Proof.
  intros Hv Hf Hreach. pose proof (reachable_pool_ok _ _ _ Hv Hf Hreach) as Hok.
  destruct (first_dial_spec dialTimeout network address new_session w Hok eq_refl)
    as ([[w' ss'] r] & cs & start & ai & w0 & Hout & Hev & _ & Hcs & Hnd & Hspec).
  destruct Hreach as [_ Hlog]. destruct Hspec as (Hev' & Hdone & failed & ids & Hfailed & Hr).
  rewrite Hlog in Hr. exists w', ss', r, cs, start, ai, w0, failed, ids.
  destruct r as [err|conn].
  - destruct Hr as (? & ? & ? & ?). split_and!; try done. by eapply rotation_sublist_nodup.
  - destruct Hr as (rec & id & ? & ? & Hsub & ?).
    pose proof (rotation_sublist_nodup _ _ _ Hnd Hsub) as Hnd'.
    apply NoDup_app in Hnd' as (? & Hnot & _). split_and!; try done.
    exists rec, id. split_and!; try done. intros Hin. apply (Hnot id Hin). by left.
Qed.

(** C30: once a node is selected, every further dial of the connection goes
    to that very node, once, with no timeout of its own: no lease is taken or
    closed, the selection stays, the outcome is passed on, and only a failure is
    reported to the registry. *)
Theorem later_dials_stick_to_the_node interval f w ops w1 ss1 li dialTimeout network address :
  valid f → live f = ∅ → reachable_world interval f w →
  (∀ op, op ∈ ops → op ≠ OpRelease) → session_run ops (w, new_session) = Some (w1, ss1) →
  ss_selected ss1 = Some li →
  ∃ l w2, pl_leases (w_pool w1) !! li = Some (l, false) ∧
    lease_Dialer l ∈ live (pl_fac (w_pool w1)) ∧
    let r := net (w_time w1) (lease_Dialer l) None network address in
    let rec := mkDialRecord li (lease_Dialer l)
      (match r with inl _ => false | inr _ => true end) (w_pool w1) in
    session_dial dialTimeout network address ss1 w1 = Some (w2, ss1, r) ∧
    w_log w2 = w_log w1 ++ [rec] ∧
    match r with
    | inl err => ∃ w', w' = others None (Some li) (mkWorld (w_pool w1) (w_sel w1) (w_log w1 ++ [rec]) (w_time w1)) ∧
        w2 = do_pool (PvMarkFailure (lease_ID l) (Some err) (clock (w_time w'))) w' ∧
        pl_leases (w_pool w2) !! li = Some (l, false)
    | inr _ => w_pool w2 = w_pool w1 ∧ w_sel w2 = w_sel w1
    end.
Proof.
  intros Hv Hf Hreach Hops Hrun Hli.
  destruct (session_run_ok ops w new_session (new_session_ok _ _ _ Hv Hf Hreach) eq_refl Hops)
    as (w1' & ss1' & Hrun' & Hok & _).
  rewrite Hrun in Hrun'. simplify_eq.
  destruct (sn_selected _ _ Hok li Hli) as [l Hl]. exists l.
  assert (lease_Dialer l ∈ live (pl_fac (w_pool w1'))) as Hlive.
  { pose proof (sn_pool _ _ Hok) as Hp.
    destruct (po_lease _ Hp l) as (st & ? & ?); [apply list_elem_of_lookup; eauto|].
    apply (ro_live _ _ (po_reg _ Hp)). eauto. }
  unfold session_dial. rewrite Hli, Hl. unfold dial_on.
  destruct (net (w_time w1') (lease_Dialer l) None network address) as [err|conn];
    eexists; (split; [done|]); (split; [done|]); cbv zeta; (split; [done|]).
  - unfold do_pool at 1. cbn [w_log]. rewrite others_log. split; [done|].
    eexists. split; [done|]. split; [done|].
    set (w' := others _ _ _).
    assert (pl_leases (w_pool w') !! li = Some (l, false)) as Hl'
      by (apply others_lease; [done|by left]).
    destruct (pool_step_lease (PvMarkFailure (lease_ID l) (Some err) (clock (w_time w')))
      _ _ _ _ Hl') as (c & Hc & _ & Hkeep). unfold do_pool. cbn [w_pool].
    by rewrite Hc, Hkeep.
  - done.
Qed.

(** C3: a connection never holds more than its selected node and gives
    it back. Through any dials in any interleaving with the others, every lease
    it took but the selected one is closed; releasing it closes that one too,
    exactly once, and a second release does nothing. *)
Theorem session_returns_every_lease interval f w ops :
  valid f → live f = ∅ → reachable_world interval f w →
  (∀ op, op ∈ ops → op ≠ OpRelease) →
  ∃ w1 ss1, session_run ops (w, new_session) = Some (w1, ss1) ∧
    (∀ r, r ∈ w_log w1 → dr_dialer r ∈ live (pl_fac (dr_pool r)) ∧
       ∃ l c, pl_leases (w_pool w1) !! dr_lease r = Some (l, c) ∧
         (c = true ∨ ss_selected ss1 = Some (dr_lease r))) ∧
    let '(w2, ss2) := session_release ss1 w1 in
    (∀ r, r ∈ w_log w1 → ∃ l, pl_leases (w_pool w2) !! dr_lease r = Some (l, true)) ∧
    ss_selected ss2 = None ∧ session_release ss2 w2 = (w2, ss2).
Proof.
  intros Hv Hf Hreach Hops.
  destruct (session_run_ok ops w new_session (new_session_ok _ _ _ Hv Hf Hreach) eq_refl Hops)
    as (w1 & ss1 & Hrun & Hok & Hrel).
  exists w1, ss1. split; [done|]. split.
  { intros r Hr. split; [by eapply sn_live|]. by apply (sn_log _ _ Hok). }
  destruct (session_ok_release w1 ss1 Hok Hrel) as [Hok2 Hnone].
  assert (w_log (session_release ss1 w1).1 = w_log w1 ∧
    ss_released (session_release ss1 w1).2 = true) as [Hlog2 Hrel2].
  { unfold session_release. rewrite Hrel. destruct (ss_selected ss1); [|done].
    simpl. by rewrite w_run_log. }
  destruct (session_release ss1 w1) as [w2 ss2]. simpl in *. split_and!; [|done|].
  - intros r Hr. destruct (sn_log _ _ Hok2 r) as (l & c & Hl & Hc); [by rewrite Hlog2|].
    rewrite Hnone in Hc. destruct Hc as [->|]; [by exists l|done].
  - unfold session_release. by rewrite Hrel2.
Qed.

(** Releasing is final, so a dial that succeeds after the release (the
    HTTP transport dials in a goroutine of its own) keeps its lease open: no
    later release closes it. *)
Lemma dial_after_release_leaks interval f w dialTimeout network address w' ss' conn :
  valid f → live f = ∅ → reachable_world interval f w →
  let '(w1, ss1) := session_release new_session w in
  session_dial dialTimeout network address ss1 w1 = Some (w', ss', inr conn) →
  ∃ rec l, rec ∈ w_log w' ∧ pl_leases (w_pool w') !! dr_lease rec = Some (l, false) ∧
    session_release ss' w' = (w', ss').
Proof.
  intros Hv Hf Hreach. unfold session_release. simpl. intros Hdial.
  pose proof (reachable_pool_ok _ _ _ Hv Hf Hreach) as Hok.
  destruct (first_dial_spec dialTimeout network address (mkSession None false true) w Hok eq_refl)
    as (out & cs & start & ai & w0 & Hout & _ & _ & _ & _ & Hspec).
  rewrite Hdial in Hout. simplify_eq.
  destruct Hspec as (_ & _ & failed & ids & _ & rec & id & (_ & _ & l & Hl & _) & Hlog & _ & ->).
  exists rec, l. split_and!; [|done|done]. rewrite Hlog, !elem_of_app. right. right. by left.
Qed.
End session.
