(* ===== verification/HttpProxy.v ===== *)
(** * httpproxy: authentication, header hygiene and the request handlers. *)
From stdpp Require Import gmap strings list fin_maps.
From Stdlib Require Import Ascii.
From S2P Require Import Prelude.
From S2P Require Import GoBase.
From S2P Require Import GoStrings.
From S2P Require Import GoCodec.
From S2P Require Import GoHttp.
From stdpp Require Import options.

Record Config := mkConfig {
  cfg_Username : string;
  cfg_Password : string;
  cfg_DialTimeout : Z;
}.

(** The parts of an [http.Request] the handlers read; [rq_URL] is scheme and host
    of a parsed request URI. *)
Record Request := mkRequest {
  rq_Method : string;
  rq_Host : string;
  rq_URL : option (string * string);
  rq_RequestURI : string;
  rq_Header : Header;
}.

(** A response of the upstream; [up_Duplex]: its body is an [io.ReadWriteCloser]. *)
Record UpResponse := mkUpResponse {
  up_StatusCode : Z;
  up_Header : Header;
  up_Body : string;
  up_Duplex : bool;
}.

Definition quoted (s : string) : string := String "034" (s +:+ String "034" "").

(** ** auth.go *)

Definition credentials (cfg : Config) : string := cfg_Username cfg +:+ ":" +:+ cfg_Password cfg.

(** [subtle.ConstantTimeCompare] returns 1 exactly on equal byte strings. *)
Definition authorized (cfg : Config) (rq : Request) : bool :=
  match Fields (header_Get "Proxy-Authorization" (rq_Header rq)) with
  | [scheme; token] =>
      if EqualFold scheme "Basic" then
        match b64_decode token with
        | Some decoded => bool_decide (decoded = credentials cfg)
        | None => false
        end
      else false
  | _ => false
  end.

(** ** Headers of forward.go *)

Definition hopByHopHeaders : list string :=
  ["Connection"; "Proxy-Connection"; "Keep-Alive"; "Proxy-Authenticate";
   "Proxy-Authorization"; "Te"; "Trailer"; "Transfer-Encoding"; "Upgrade"].

Definition headerContainsToken (value wanted : string) : bool :=
  existsb (λ token, EqualFold (TrimSpace token) wanted) (Split value ",").

Definition removeHopByHop (header : Header) : Header :=
  let header1 :=
    foldl (λ h token,
      let token := TrimSpace token in
      if decide (token = "") then h else header_Del token h)
      header (Split (header_Get "Connection" header) ",") in
  foldl (λ h name, header_Del name h) header1 hopByHopHeaders.

Definition copyHeaders (o : RangeOrder) (destination source : Header) : Header :=
  foldl (λ dst entry, foldl (λ dst value, header_Add entry.1 value dst) dst entry.2)
    destination (range_items o source).

(** What [copyHeadersForUpgrade] writes to the client. *)
Definition upgrade_lines (o : RangeOrder) (source : Header) : list string :=
  range_items o source ≫= λ entry,
    (λ value, entry.1 +:+ ": " +:+ value +:+ String "013" (String "010" "")) <$> entry.2.

Definition wants_upgrade (header : Header) : bool :=
  bool_decide (header_Get "Upgrade" header ≠ "") &&
  headerContainsToken (header_Get "Connection" header) "upgrade".

(** The request [handleForward] hands to the transport. *)
Definition outbound_request (rq : Request) : Request :=
  let upgradeProtocol := header_Get "Upgrade" (rq_Header rq) in
  let header := removeHopByHop (rq_Header rq) in
  let header :=
    if wants_upgrade (rq_Header rq)
    then header_Set "Upgrade" upgradeProtocol (header_Set "Connection" "Upgrade" header)
    else header in
  mkRequest (rq_Method rq) (rq_Host rq) (rq_URL rq) "" header.

(** ** The handlers *)

(** What a handler does to the connections it holds, in order. [Tunnel]: the two
    copying goroutines, until both end. *)
Inductive Effect :=
  | WriteClient (s : string)
  | CopyBuffered
  | Tunnel
  | CloseClient
  | CloseUpstream
  | ReleaseSession
  | ForgetSession.

(** Hijacking and writing: is the writer a [Hijacker], does [Hijack] work, which
    writes to the client work, is there buffered input, does copying it work. *)
Record HijackEnv := mkHijackEnv {
  hj_hijacker : bool;
  hj_hijack : bool;
  hj_write : nat → bool;
  hj_buffered : nat;
  hj_copy : bool;
}.

Section handlers.
Context {S Conn : Type} (cfg : Config) (hijack : HijackEnv) (o : RangeOrder).

(** The session's [dial] and the transport's [RoundTrip] over the state [S] of
    the session and the world. *)
Context (dial : string → S → S * (GoError + Conn)).
Context (roundTrip : Request → S → S * (GoError + UpResponse)).
Context (hasSession : bool).

(** The deferred cleanup both tunnels share. *)
Definition cleanup : list Effect := [CloseClient; CloseUpstream; ReleaseSession; ForgetSession].

Definition buffered_then_tunnel : list Effect :=
  if decide (0 < hj_buffered hijack) then
    CopyBuffered :: (if hj_copy hijack then [Tunnel] else [])
  else [Tunnel].

Definition connect_target (rq : Request) : string :=
  if Contains (rq_Host rq) ":" then rq_Host rq else rq_Host rq +:+ ":443".

Definition crlf : string := String "013" (String "010" "").

Definition handleConnect (rq : Request) (rw : ResponseWriter) (s : S)
    : S * ResponseWriter * list Effect :=
  if negb hasSession then (s, http_Error "connection state unavailable" 500 rw, [])
  else
    match dial (connect_target rq) s with
    | (s', inl _) => (s', http_Error "upstream unavailable" 502 rw, [])
    | (s', inr _) =>
        if negb (hj_hijacker hijack) then
          (s', http_Error "tunneling unavailable" 500 rw, [CloseUpstream])
        else if negb (hj_hijack hijack) then (s', rw, [CloseUpstream])
        else
          let established :=
            WriteClient ("HTTP/1.1 200 Connection Established" +:+ crlf +:+ crlf) in
          (s', rw,
           established :: (if hj_write hijack 0 then buffered_then_tunnel else []) ++ cleanup)
    end.

(** [handleUpgrade]; the header lines' own write errors are ignored. The last
    [CloseUpstream] is the one [handleForward] defers. *)
Definition handleUpgrade (up : UpResponse) (rw : ResponseWriter)
    : ResponseWriter * list Effect :=
  if negb (up_Duplex up) then
    (http_Error "upstream upgrade unavailable" 502 rw, [CloseUpstream])
  else if negb (hj_hijacker hijack) then
    (http_Error "client upgrade unavailable" 500 rw, [CloseUpstream])
  else if negb (hj_hijack hijack) then (rw, [CloseUpstream])
  else
    let lines := upgrade_lines o (up_Header up) in
    (rw,
     WriteClient ("HTTP/1.1 101 Switching Protocols" +:+ crlf) ::
     (if hj_write hijack 0 then
        (WriteClient <$> lines) ++ WriteClient crlf ::
        (if hj_write hijack (length lines + 1) then buffered_then_tunnel else [])
      else []) ++ cleanup ++ [CloseUpstream]).

Definition handleForward (rq : Request) (rw : ResponseWriter) (s : S)
    : S * ResponseWriter * list Effect :=
  match rq_URL rq with
  | None => (s, http_Error "absolute proxy URL required" 400 rw, [])
  | Some (scheme, host) =>
      if decide (scheme = "" ∨ host = "") then
        (s, http_Error "absolute proxy URL required" 400 rw, [])
      else if decide (scheme ≠ "http") then
        (s, http_Error "use CONNECT for HTTPS" 400 rw, [])
      else if negb hasSession then (s, http_Error "connection state unavailable" 500 rw, [])
      else
        match roundTrip (outbound_request rq) s with
        | (s', inl _) => (s', http_Error "upstream unavailable" 502 rw, [])
        | (s', inr up) =>
            if wants_upgrade (rq_Header rq) && (up_StatusCode up =? 101)%Z then
              let '(rw', effects) := handleUpgrade up rw in (s', rw', effects)
            else
              let h := removeHopByHop (copyHeaders o (rw_Header rw) (up_Header up)) in
              (s', mkRW h (Some (default (up_StatusCode up) (rw_Status rw)))
                     (rw_Body rw +:+ up_Body up), [CloseUpstream])
        end
  end.

Definition ServeHTTP (rq : Request) (rw : ResponseWriter) (s : S)
    : S * ResponseWriter * list Effect :=
  if negb (authorized cfg rq) then
    (s, http_Error "proxy authentication required" 407
          (set_header (header_Set "Proxy-Authenticate" ("Basic realm=" +:+ quoted "dual-egress-gateway") (rw_Header rw)) rw),
     [])
  else
    let rq := mkRequest (rq_Method rq) (rq_Host rq) (rq_URL rq) (rq_RequestURI rq)
                (header_Del "Proxy-Authorization" (rq_Header rq)) in
    if decide (rq_Method rq = "CONNECT") then handleConnect rq rw s
    else handleForward rq rw s.
End handlers.

(** ** Lemmas *)

Definition plain_byte (a : ascii) : bool := between 33 126 (byte_of a).

Lemma plain_not_space a : plain_byte a = true → space1 a = false ∧
  (∀ b, space2 a b = false) ∧ ∀ b c, space3 a b c = false.
Proof.
  unfold plain_byte, between. intros Ha.
  apply andb_true_iff in Ha as [H1%N.leb_le H2%N.leb_le].
  assert (∀ n : N, (126 < n)%N → (byte_of a =? n)%N = false) as Hne
    by (intros n ?; apply N.eqb_neq; lia).
  unfold space1, space2, space3, between. split_and!.
  - apply orb_false_iff. split; [apply andb_false_iff; right; apply N.leb_gt; lia|].
    apply N.eqb_neq. lia.
  - intros b. by rewrite Hne by lia.
  - intros b c. by rewrite (Hne 0xE1%N), (Hne 0xE2%N), (Hne 0xE3%N) by lia.
Qed.

(** A nonempty string of plain bytes is one field. *)
Lemma fields_plain cur s :
  all_bytes plain_byte s = true →
  fields_go cur s = match String.rev_app s cur with EmptyString => [] | r => [String.rev r] end.
Proof.
  revert cur. induction s as [|a s IH]; intros cur Hs; simpl in *; [by destruct cur|].
  apply andb_true_iff in Hs as [Ha Hs].
  destruct (plain_not_space a Ha) as (H1 & H2 & H3). rewrite H1.
  rewrite IH by done. destruct s as [|b [|c s]]; [done|..].
  - by rewrite H2.
  - by rewrite H2, H3.
Qed.

Lemma rev_app_rev s t : String.rev (String.rev_app s t) = String.rev_app t s.
Proof.
  unfold String.rev. revert t.
  induction s as [|a s IH]; intros t; simpl; [done|]. by rewrite IH.
Qed.

Lemma fields_two (scheme token : string) :
  all_bytes plain_byte scheme = true → all_bytes plain_byte token = true →
  scheme ≠ "" → token ≠ "" → Fields (scheme +:+ " " +:+ token) = [scheme; token].
Proof.
  intros Hs Ht Hs' Ht'. unfold Fields.
  assert (∀ cur s, all_bytes plain_byte s = true → fields_go cur (s +:+ String " " token) =
    match String.rev_app s cur with EmptyString => [] | r => [String.rev r] end ++
    fields_go "" token) as Hgo.
  { clear scheme Hs Hs'. intros cur s. revert cur.
    induction s as [|a s IH]; intros cur Hs; simpl in *; [by destruct cur|].
    apply andb_true_iff in Hs as [Ha Hs].
    destruct (plain_not_space a Ha) as (H1 & H2 & H3). rewrite H1, IH by done.
    destruct (s +:+ String " " token) as [|b [|c s']]; [done|by rewrite H2|by rewrite H2, H3]. }
  change (scheme +:+ " " +:+ token) with (scheme +:+ String " " token).
  rewrite Hgo, fields_plain by done.
  assert (∀ s, s ≠ "" → match String.rev_app s "" with EmptyString => [] | r => [String.rev r] end
    = [s]) as Hone.
  { intros s Hne. pose proof (rev_app_rev s "") as Hrev. simpl in Hrev.
    destruct (String.rev_app s "") as [|b r] eqn:Hr; [|by rewrite Hrev].
    by rewrite <-Hrev in Hne. }
  by rewrite !Hone by done.
Qed.

Lemma b64_char_plain_byte n : (n < 64)%N → plain_byte (b64_char n) = true.
Proof.
  intros Hn. assert (N.to_nat n < 64) as Hlt by lia. rewrite <-(N2Nat.id n).
  generalize (N.to_nat n), Hlt. clear. intros k Hk.
  do 64 (destruct k as [|k]; [vm_compute; reflexivity|]). lia.
Qed.

Lemma b64_encode_plain (n : nat) s :
  String.length s ≤ n → all_bytes plain_byte (b64_encode s) = true.
Proof.
  revert s. induction n as [|n IH]; intros s Hlen.
  { destruct s; [done|simpl in Hlen; lia]. }
  assert (∀ x : N, (x < 256)%N → (x / 4 < 64)%N) as Hd4
    by (intros; apply N.Div0.div_lt_upper_bound; lia).
  assert (∀ x y : N, (y < 256)%N → (x mod 4 * 16 + y / 16 < 64)%N) as H16.
  { intros x y ?. pose proof (N.mod_lt x 4). pose proof (N.Div0.div_lt_upper_bound y 16 16). lia. }
  assert (∀ y z : N, (z < 256)%N → (y mod 16 * 4 + z / 64 < 64)%N) as H64.
  { intros x y ?. pose proof (N.mod_lt x 16). pose proof (N.Div0.div_lt_upper_bound y 64 4). lia. }
  assert (∀ z : N, (z mod 64 < 64)%N) as Hm by (intros; apply N.mod_lt; lia).
  destruct s as [|a [|b [|c rest]]]; [done|..]; cbn [b64_encode];
    pose proof (byte_of_lt a); try pose proof (byte_of_lt b); try pose proof (byte_of_lt c);
    cbn [all_bytes]; rewrite !b64_char_plain_byte; try done; auto.
  - specialize (H16 (byte_of a) 0%N ltac:(lia)). rewrite N.Div0.div_0_l in H16. lia.
  - specialize (H64 (byte_of b) 0%N ltac:(lia)). rewrite N.Div0.div_0_l in H64. lia.
  - apply IH. simpl in Hlen. lia.
Qed.

Lemma header_del_lookup key h k :
  header_Del key h !! k = if decide (k = CanonicalHeaderKey key) then None else h !! k.
Proof.
  unfold header_Del. case_decide as Hk; [subst; apply lookup_delete_eq|].
  by apply lookup_delete_ne.
Qed.

(** The field names the first [Connection] line nominates, the only one the code looks at,
    and all the names [removeHopByHop] takes away. *)
Definition nominated (header : Header) : list string :=
  CanonicalHeaderKey <$> filter (λ t, t ≠ "")
    (TrimSpace <$> Split (header_Get "Connection" header) ",").
Definition removed_names (header : Header) : list string := nominated header ++ hopByHopHeaders.

Lemma removeHopByHop_lookup header k :
  removeHopByHop header !! k =
    if decide (k ∈ removed_names header) then None else header !! k.
Proof.
  unfold removeHopByHop, removed_names, nominated.
  generalize (Split (header_Get "Connection" header) ","). intros tokens.
  assert (∀ names h, foldl (λ h name, header_Del name h) h names !! k =
    if decide (k ∈ CanonicalHeaderKey <$> names) then None else h !! k) as Hdel.
  { intros names. induction names as [|n names IH]; intros h; [done|].
    simpl. rewrite IH, header_del_lookup.
    rewrite (decide_ext (k ∈ CanonicalHeaderKey n :: _) (k = CanonicalHeaderKey n ∨
      k ∈ CanonicalHeaderKey <$> names)) by apply elem_of_cons.
    repeat case_decide; naive_solver. }
  rewrite Hdel. change (CanonicalHeaderKey <$> hopByHopHeaders) with hopByHopHeaders.
  assert (∀ h, foldl (λ h token, let token := TrimSpace token in
      if decide (token = "") then h else header_Del token h) h tokens =
    foldl (λ h name, header_Del name h) h (filter (λ t, t ≠ "") (TrimSpace <$> tokens))) as ->.
  { induction tokens as [|t tokens IH]; intros h; [done|]. simpl. rewrite IH, filter_cons.
    repeat case_decide; done. }
  rewrite Hdel. rewrite (decide_ext (k ∈ _ ++ hopByHopHeaders) (k ∈ CanonicalHeaderKey <$>
    filter (λ t, t ≠ "") (TrimSpace <$> tokens) ∨ k ∈ hopByHopHeaders)) by apply elem_of_app.
  repeat case_decide; naive_solver.
Qed.

Lemma b64_encode_nonempty s : s ≠ "" → b64_encode s ≠ "".
Proof. by destruct s as [|a [|b [|c s]]]. Qed.

(** ** Theorems *)

(** C35: the proxy accepts exactly the configured credentials: a client that
    sends them the standard way (Basic, base64) is always let in, whatever bytes
    they consist of, and whoever is let in sent a Basic token that decodes to the
    configured user name and password. *)
Theorem authorized_iff_credentials (cfg : Config) (rq : Request) :
  (header_Get "Proxy-Authorization" (rq_Header rq) =
     "Basic" +:+ " " +:+ b64_encode (credentials cfg) → authorized cfg rq = true) ∧
  (authorized cfg rq = true → ∃ scheme token,
     Fields (header_Get "Proxy-Authorization" (rq_Header rq)) = [scheme; token] ∧
     EqualFold scheme "Basic" = true ∧ b64_decode token = Some (credentials cfg)) ∧
  (∀ cfg' rq', rq_Header rq' = <["Proxy-Authorization" :=
       ["Basic" +:+ " " +:+ b64_encode (credentials cfg')]]> (rq_Header rq) →
     authorized cfg rq' = true → credentials cfg' = credentials cfg).
Proof.
  assert (∀ cfg', Fields ("Basic" +:+ " " +:+ b64_encode (credentials cfg')) =
    ["Basic"; b64_encode (credentials cfg')]) as Hfields.
  { intros cfg'. apply fields_two; [done| |done|].
    - by eapply b64_encode_plain.
    - apply b64_encode_nonempty. unfold credentials. by destruct (cfg_Username cfg'). }
  unfold authorized. split_and!.
  - intros ->. rewrite Hfields, b64_roundtrip. change (EqualFold "Basic" "Basic") with true.
    by apply bool_decide_eq_true.
  - destruct (Fields _) as [|scheme [|token [|]]]; [done|done| |done].
    destruct (EqualFold scheme "Basic") eqn:Hfold; [|done].
    destruct (b64_decode token) as [decoded|] eqn:Hd; [|done].
    intros ->%bool_decide_eq_true. eauto.
  - intros cfg' rq' Hh. unfold header_Get. rewrite Hh.
    change (CanonicalHeaderKey "Proxy-Authorization") with "Proxy-Authorization".
    rewrite lookup_insert_eq, Hfields, b64_roundtrip.
    change (EqualFold "Basic" "Basic") with true. apply bool_decide_eq_true.
Qed.

(** The first value of a field, empty if there is none. *)
Definition first_value (key : string) (header : Header) : string :=
  match header !! key with Some (v :: _) => v | _ => "" end.

Lemma nominated_spec header k :
  k ∈ nominated header ↔ ∃ token, token ∈ Split (first_value "Connection" header) "," ∧
    TrimSpace token ≠ "" ∧ k = CanonicalHeaderKey (TrimSpace token).
Proof.
  unfold nominated. rewrite list_elem_of_fmap.
  change (header_Get "Connection" header) with (first_value "Connection" header). split.
  - intros (t & -> & Ht). rewrite list_elem_of_filter, list_elem_of_fmap in Ht.
    destruct Ht as (Hne & token & -> & Hin). eauto.
  - intros (token & Hin & Hne & ->). exists (TrimSpace token). split; [done|].
    rewrite list_elem_of_filter, list_elem_of_fmap. eauto.
Qed.

Lemma wants_upgrade_spec header :
  wants_upgrade header = true ↔ first_value "Upgrade" header ≠ "" ∧
    ∃ token, token ∈ Split (first_value "Connection" header) "," ∧
      EqualFold (TrimSpace token) "upgrade" = true.
Proof.
  unfold wants_upgrade, headerContainsToken. rewrite andb_true_iff, bool_decide_eq_true, existsb_exists.
  change (header_Get "Upgrade" header) with (first_value "Upgrade" header).
  change (header_Get "Connection" header) with (first_value "Connection" header).
  by setoid_rewrite list_elem_of_In.
Qed.

(** C32: the request handed to the transport is the client's without the hop-by-hop
    fields. The fields Connection, Proxy-Connection, Keep-Alive, Proxy-Authenticate,
    Proxy-Authorization, Te, Trailer, Transfer-Encoding and Upgrade are taken away, and so
    is each field the client's first Connection line nominates (further Connection lines
    are not looked at); every other field, the method, host and URL are kept. Only a
    request with a nonempty Upgrade field whose first Connection line holds the token
    upgrade gets Connection and Upgrade back, in their canonical form. *)
Theorem outbound_request_is_clean (rq : Request) :
  let out := rq_Header (outbound_request rq) in
  let protocol := first_value "Upgrade" (rq_Header rq) in
  let tokens := Split (first_value "Connection" (rq_Header rq)) "," in
  let upgrade := protocol ≠ "" ∧
    ∃ token, token ∈ tokens ∧ EqualFold (TrimSpace token) "upgrade" = true in
  (∀ k, k ∈ ["Proxy-Connection"; "Keep-Alive"; "Proxy-Authenticate"; "Proxy-Authorization"; "Te";
              "Trailer"; "Transfer-Encoding"] → out !! k = None) ∧
  (∀ token, token ∈ tokens → TrimSpace token ≠ "" →
     let k := CanonicalHeaderKey (TrimSpace token) in
     k ≠ "Connection" → k ≠ "Upgrade" → out !! k = None) ∧
  (∀ k, (k ∉ ["Connection"; "Proxy-Connection"; "Keep-Alive"; "Proxy-Authenticate";
              "Proxy-Authorization"; "Te"; "Trailer"; "Transfer-Encoding"; "Upgrade"]) →
     (∀ token, token ∈ tokens → TrimSpace token ≠ "" → k ≠ CanonicalHeaderKey (TrimSpace token)) →
     out !! k = rq_Header rq !! k) ∧
  (upgrade → out !! "Connection" = Some ["Upgrade"] ∧ out !! "Upgrade" = Some [protocol]) ∧
  (¬ upgrade → out !! "Connection" = None ∧ out !! "Upgrade" = None) ∧
  rq_Method (outbound_request rq) = rq_Method rq ∧ rq_Host (outbound_request rq) = rq_Host rq ∧
  rq_URL (outbound_request rq) = rq_URL rq ∧ rq_RequestURI (outbound_request rq) = "".
Proof.
  cbv zeta. rewrite <-wants_upgrade_spec.
  assert (∀ k, rq_Header (outbound_request rq) !! k =
    if wants_upgrade (rq_Header rq) && bool_decide (k = "Upgrade")
    then Some [first_value "Upgrade" (rq_Header rq)]
    else if wants_upgrade (rq_Header rq) && bool_decide (k = "Connection") then Some ["Upgrade"]
    else if decide (k ∈ removed_names (rq_Header rq)) then None else rq_Header rq !! k) as Hout.
  { intros k. rewrite <-removeHopByHop_lookup. unfold outbound_request. cbn [rq_Header].
    unfold header_Set. change (CanonicalHeaderKey "Upgrade") with "Upgrade".
    change (CanonicalHeaderKey "Connection") with "Connection".
    destruct (wants_upgrade (rq_Header rq)); cbn [andb]; [|done].
    destruct (decide (k = "Upgrade")) as [->|Hu];
      [by rewrite lookup_insert_eq, bool_decide_true|].
    rewrite lookup_insert_ne, (bool_decide_false (k = "Upgrade")) by done.
    destruct (decide (k = "Connection")) as [->|Hc];
      [by rewrite lookup_insert_eq, bool_decide_true|].
    by rewrite lookup_insert_ne, bool_decide_false. }
  assert (∀ k, k ≠ "Connection" → k ≠ "Upgrade" → rq_Header (outbound_request rq) !! k =
    if decide (k ∈ removed_names (rq_Header rq)) then None else rq_Header rq !! k) as Hother.
  { intros k Hc Hu. rewrite Hout, !bool_decide_false by done. by rewrite andb_false_r. }
  assert (∀ k, k ∈ hopByHopHeaders → k ∈ removed_names (rq_Header rq)) as Hhop
    by (intros k Hk; apply elem_of_app; by right).
  split_and!; try done.
  - intros k Hk. rewrite Hother.
    + rewrite decide_True; [done|]. apply Hhop. unfold hopByHopHeaders.
      rewrite !elem_of_cons in *. tauto.
    + intros ->. revert Hk. apply (bool_decide_unpack _). vm_compute. exact I.
    + intros ->. revert Hk. apply (bool_decide_unpack _). vm_compute. exact I.
  - intros token Hin Hne Hc Hu. rewrite Hother by done. rewrite decide_True; [done|].
    apply elem_of_app. left. apply nominated_spec. eauto.
  - intros k Hk Hnot. rewrite Hother by (intros ->; apply Hk, (bool_decide_unpack _); vm_compute; exact I).
    rewrite decide_False; [done|]. intros [(token & Hin & Hne & ->)%nominated_spec|Hin]%elem_of_app.
    + by apply (Hnot token).
    + by apply Hk.
  - intros Hup. split; rewrite Hout, Hup; reflexivity.
  - intros Hup%not_true_iff_false. rewrite !Hout, Hup. cbn [andb].
    rewrite !decide_True; [done|..]; apply Hhop; apply (bool_decide_unpack _); vm_compute; done.
Qed.

(** Copying headers appends the values, whatever the order of the map. *)
Lemma copyHeaders_lookup o dst src k :
  (∀ k, is_Some (src !! k) → CanonicalHeaderKey k = k) →
  copyHeaders o dst src !! k =
    match src !! k with
    | Some (v :: vs) => Some (default [] (dst !! k) ++ v :: vs)
    | _ => dst !! k
    end.
Proof.
  intros Hcanon. unfold copyHeaders.
  assert (∀ key vs d, CanonicalHeaderKey key = key →
    foldl (λ d v, header_Add key v d) d vs !! k =
      if decide (k = key ∧ vs ≠ []) then Some (default [] (d !! k) ++ vs) else d !! k) as Hadd.
  { intros key vs d Hkey. revert d. induction vs as [|v vs IH]; intros d; simpl.
    { rewrite decide_False by tauto. done. }
    rewrite IH. clear IH. unfold header_Add. rewrite Hkey.
    destruct (decide (k = key)) as [->|Hne].
    - rewrite lookup_insert_eq, (decide_True _ _ (P := key = key ∧ v :: vs ≠ [])) by done.
      destruct vs as [|v' vs]; [by rewrite decide_False by tauto|].
      rewrite decide_True by done. simpl. by rewrite <-(assoc_L (++)).
    - rewrite !decide_False by tauto. by rewrite lookup_insert_ne. }
  assert (∀ items : list (string * list string), NoDup items.*1 →
    (∀ kv, kv ∈ items → CanonicalHeaderKey kv.1 = kv.1) →
    foldl (λ d e, foldl (λ d v, header_Add e.1 v d) d e.2) dst items !! k =
      match (list_to_map items : Header) !! k with
      | Some (v :: vs) => Some (default [] (dst !! k) ++ v :: vs)
      | _ => dst !! k
      end) as Hfold.
  { intros items. induction items as [|[key vs] items IH] using rev_ind; intros Hnd Hc.
    { simpl. by rewrite lookup_empty. }
    rewrite fmap_app in Hnd. apply NoDup_app in Hnd as (Hnd & Hnot & _).
    assert (key ∉ items.*1) as Hkey by (intros Hin; apply (Hnot key Hin); by left).
    rewrite foldl_snoc. simpl.
    rewrite Hadd by (apply (Hc (key, vs)); apply elem_of_app; right; by left).
    rewrite list_to_map_app, lookup_union. simpl. rewrite insert_empty.
    destruct (decide (k = key)) as [->|Hne].
    - rewrite lookup_singleton_eq, not_elem_of_list_to_map_1 by done.
      rewrite IH, not_elem_of_list_to_map_1 by (try done; intros; apply Hc, elem_of_app; by left).
      simpl. destruct vs; [by rewrite decide_False by tauto|by rewrite decide_True].
    - rewrite lookup_singleton_ne, (right_id_L None (∪)), decide_False by (try tauto; congruence).
      apply IH; [done|]. intros; apply Hc, elem_of_app; by left. }
  rewrite Hfold.
  - by rewrite (list_to_map_proper _ (map_to_list src)), list_to_map_to_list
      by (try apply range_perm; apply range_keys_nodup).
  - apply range_keys_nodup.
  - intros [key vs] Hin%elem_of_range. apply Hcanon. by eexists.
Qed.

Section handler_theorems.
Context {S Conn : Type} (cfg : Config) (hijack : HijackEnv) (o : RangeOrder).
Context (dial : string → S → S * (GoError + Conn)).
Context (roundTrip : Request → S → S * (GoError + UpResponse)).

(** C11: authentication comes first. A request without the credentials gets a
    407 with a challenge and nothing else happens: nothing is dialed or sent. An
    authenticated one is served, and the upstream never sees the credentials:
    what the transport would do with a request that carries them, or with one
    that is not absolute plain HTTP, does not matter. *)
Theorem authentication_gates_everything hasSession rq h body s :
  let rw := mkRW h None body in
  let '(s', rw', effects) := ServeHTTP cfg hijack o dial roundTrip hasSession rq rw s in
  (authorized cfg rq = false → s' = s ∧ rw_Status rw' = Some 407%Z ∧ effects = [] ∧
     rw_Header rw' !! "Proxy-Authenticate" =
       Some ["Basic realm=" +:+ quoted "dual-egress-gateway"]) ∧
  (∀ roundTrip', (∀ out t, rq_Header out !! "Proxy-Authorization" = None →
      (∃ host, rq_URL out = Some ("http", host) ∧ host ≠ "") →
      roundTrip' out t = roundTrip out t) →
   ServeHTTP cfg hijack o dial roundTrip' hasSession rq rw s = (s', rw', effects)).
Proof.
  cbv zeta. unfold ServeHTTP. destruct (authorized cfg rq); simpl.
  - destruct (decide (rq_Method rq = "CONNECT")).
    + destruct (handleConnect _ _ _ _ _ _) as [[? ?] ?]. split; [done|]. done.
    + set (rq1 := mkRequest _ _ _ _ _).
      destruct (handleForward hijack o roundTrip hasSession rq1 (mkRW h None body) s)
        as [[s' rw'] effects] eqn:Hf.
      split; [done|]. intros roundTrip' Hrt. rewrite <-Hf. unfold handleForward.
      destruct (rq_URL rq1) as [[scheme host]|] eqn:Hurl; [|done].
      case_decide as H1; [done|]. case_decide as H2; [done|].
      destruct (negb hasSession); [done|]. rewrite Hrt; [done| |].
      * unfold outbound_request. cbn [rq_Header]. unfold header_Set.
        change (CanonicalHeaderKey "Upgrade") with "Upgrade".
        change (CanonicalHeaderKey "Connection") with "Connection".
        assert (removeHopByHop (rq_Header rq1) !! "Proxy-Authorization" = None) as Hn.
        { rewrite removeHopByHop_lookup, decide_True; [done|]. apply elem_of_app. right.
          apply (bool_decide_unpack _). vm_compute. done. }
        destruct (wants_upgrade _); [|done]. by rewrite !lookup_insert_ne.
      * exists host. unfold outbound_request. cbn [rq_URL]. rewrite Hurl.
        rewrite H2. split; [done|]. tauto.
  - split; [|done]. intros _. split_and!; [done..|].
    unfold header_Set. cbn [rw_Header].
    by rewrite !lookup_insert_ne, header_del_lookup, decide_False, lookup_insert_eq.
Qed.

(** C34: a CONNECT never leaves a connection behind. If the dial fails the
    client gets a 502 and nothing is left open; if it succeeds the upstream
    connection is closed on every path; once the client connection is hijacked,
    it is closed, the session is released and forgotten too, whatever fails; and
    the tunnel runs only after the client was told the connection stands. *)
Theorem connect_never_leaks rq rw s :
  let '(s', rw', effects) := handleConnect hijack dial true rq rw s in
  let '(s1, r) := dial (connect_target rq) s in
  s' = s1 ∧
  match r with
  | inl _ => effects = [] ∧ (rw_Status rw = None → rw_Status rw' = Some 502%Z)
  | inr _ =>
      CloseUpstream ∈ effects ∧
      (hj_hijacker hijack = true → hj_hijack hijack = true →
         rw' = rw ∧ ∃ used, effects = used ++ cleanup ∧
         (Tunnel ∈ used ↔ hj_write hijack 0 = true ∧
           (hj_buffered hijack = 0 ∨ hj_copy hijack = true)) ∧
         (CopyBuffered ∈ used → 0 < hj_buffered hijack) ∧
         ∃ rest, used = WriteClient ("HTTP/1.1 200 Connection Established"
           +:+ crlf +:+ crlf) :: rest) ∧
      (hj_hijacker hijack && hj_hijack hijack = false →
         (Tunnel ∉ effects) ∧ (ReleaseSession ∉ effects))
  end.
Proof.
  clear roundTrip cfg o. unfold handleConnect. simpl. destruct (dial (connect_target rq) s) as [s1 [err|conn]].
  { split; [done|]. split; [done|]. simpl. by intros ->. }
  destruct (hj_hijacker hijack); simpl; [destruct (hj_hijack hijack); simpl|].
  - split; [done|]. split.
    { right. apply elem_of_app. right. right. by left. }
    split; [|done]. intros _ _. split; [done|].
    exists (WriteClient ("HTTP/1.1 200 Connection Established" +:+ crlf +:+ crlf) ::
      (if hj_write hijack 0 then buffered_then_tunnel hijack else [])).
    split; [done|]. unfold buffered_then_tunnel.
    destruct (decide (0 < hj_buffered hijack)), (hj_write hijack 0), (hj_copy hijack);
      split_and!;
      rewrite ?elem_of_cons, ?elem_of_nil; try (by eexists); try intuition (congruence || lia).
  - split; [done|]. split; [by left|]. split; [done|]. intros _.
    by split; intros [?|?%not_elem_of_nil]%elem_of_cons.
  - split; [done|]. split; [by left|]. split; [done|]. intros _.
    by split; intros [?|?%not_elem_of_nil]%elem_of_cons.
Qed.

(** The line of a header field. *)
Definition field_line (key value : string) : string := key +:+ ": " +:+ value +:+ crlf.

(** The lines of an upgrade are those of the upstream's fields, those of one field
    together and in order. *)
Lemma upgrade_lines_spec (header : Header) :
  upgrade_lines o header ≡ₚ (map_to_list header ≫= λ kv, field_line kv.1 <$> kv.2) ∧
  ∀ k vs, header !! k = Some vs → ∃ before after,
    upgrade_lines o header = before ++ (field_line k <$> vs) ++ after.
Proof.
  clear roundTrip dial hijack cfg Conn. unfold upgrade_lines. split.
  - assert (∀ l l' : list (string * list string), l ≡ₚ l' →
      (l ≫= λ kv, field_line kv.1 <$> kv.2) ≡ₚ (l' ≫= λ kv, field_line kv.1 <$> kv.2)) as Hperm.
    { intros l l' Hl. by rewrite Hl. }
    apply (Hperm (range_items o header)), range_perm.
  - intros k vs Hk. assert ((k, vs) ∈ range_items o header) as Hin by by apply elem_of_range.
    apply list_elem_of_split in Hin as (l1 & l2 & ->). rewrite bind_app, bind_cons.
    by eexists _, _.
Qed.

(** The steps of an upgrade that succeeds. *)
Definition upgrade_script (lines : list string) : list Effect :=
  WriteClient ("HTTP/1.1 101 Switching Protocols" +:+ crlf) :: (WriteClient <$> lines) ++
  WriteClient crlf :: (if decide (0 < hj_buffered hijack) then [CopyBuffered] else []) ++ [Tunnel].

Lemma handleUpgrade_script up rw :
  up_Duplex up = true → hj_hijacker hijack = true → hj_hijack hijack = true →
  let lines := upgrade_lines o (up_Header up) in
  ∃ used, handleUpgrade hijack o up rw = (rw, used ++ cleanup ++ [CloseUpstream]) ∧
    (hj_write hijack 0 = false → used = take 1 (upgrade_script lines)) ∧
    (hj_write hijack 0 = true → hj_write hijack (length lines + 1) = false →
       used = take (length lines + 2) (upgrade_script lines)) ∧
    (hj_write hijack 0 = true → hj_write hijack (length lines + 1) = true →
       (0 < hj_buffered hijack → hj_copy hijack = false →
          used = take (length lines + 3) (upgrade_script lines)) ∧
       (hj_buffered hijack = 0 ∨ hj_copy hijack = true → used = upgrade_script lines)).
Proof.
  clear roundTrip dial cfg Conn. intros Hduplex Hhijacker Hhijack. cbv zeta.
  unfold handleUpgrade. rewrite Hduplex, Hhijacker, Hhijack. cbn [negb].
  set (lines := upgrade_lines o (up_Header up)). set (first := WriteClient (_ +:+ _)).
  assert (∀ n rest, take (length lines + Datatypes.S n) (first :: (WriteClient <$> lines) ++ rest) =
    first :: (WriteClient <$> lines) ++ take n rest) as Htake.
  { intros n rest. rewrite Nat.add_succ_r. cbn [take]. by rewrite <-(length_fmap WriteClient), take_app_add. }
  eexists (first :: (if hj_write hijack 0 then (WriteClient <$> lines) ++ WriteClient crlf ::
    (if hj_write hijack (length lines + 1) then buffered_then_tunnel hijack else []) else [])).
  split; [by rewrite <-app_comm_cons|]. unfold upgrade_script, buffered_then_tunnel. fold first.
  split_and!.
  - by intros ->.
  - intros -> ->. by rewrite Htake.
  - intros -> ->. split.
    + intros Hb ->. rewrite !decide_True by done. by rewrite Htake.
    + intros [Hb| ->]; [by rewrite !decide_False by lia|]. by case_decide.
Qed.

(** C33: a plain request is answered by what the upstream said, cleaned. A failed round
    trip is a 502; otherwise the client gets the upstream's status and body and its header
    fields in order, without the nine hop-by-hop fields and those its first Connection line
    nominates, and the response body is closed. A request that asked for an upgrade and got
    101 is tunneled: the client is sent the 101 line, every header line of the upstream as
    it is, and the blank line; then the input that was buffered goes to the upstream and
    the two sides are copied to each other. A failed write of the first or the last of
    these lines, or of the buffered input, ends this there, and nothing else does. Whatever
    fails, the upstream is closed, and once the client connection is hijacked so is that,
    and the session is released and forgotten. *)
Theorem forward_relays_response rq h body s host :
  rq_URL rq = Some ("http", host) → host ≠ "" →
  let rw := mkRW h None body in
  let '(s', rw', effects) := handleForward hijack o roundTrip true rq rw s in
  let '(s1, r) := roundTrip (outbound_request rq) s in
  let hop_by_hop := ["Connection"; "Proxy-Connection"; "Keep-Alive"; "Proxy-Authenticate";
    "Proxy-Authorization"; "Te"; "Trailer"; "Transfer-Encoding"; "Upgrade"] in
  s' = s1 ∧
  match r with
  | inl _ => rw_Status rw' = Some 502%Z ∧ effects = []
  | inr up =>
      (wants_upgrade (rq_Header rq) && (up_StatusCode up =? 101)%Z = false →
       (∀ k, is_Some (up_Header up !! k) → CanonicalHeaderKey k = k) →
       rw_Status rw' = Some (up_StatusCode up) ∧ rw_Body rw' = body +:+ up_Body up ∧
       effects = [CloseUpstream] ∧
       (∀ k, k ∈ hop_by_hop → rw_Header rw' !! k = None) ∧
       (h = ∅ → ∀ k, k ∉ hop_by_hop →
          rw_Header rw' !! k =
            if decide (k ∈ nominated (up_Header up)) then None
            else match up_Header up !! k with Some [] => None | vs => vs end)) ∧
      (wants_upgrade (rq_Header rq) && (up_StatusCode up =? 101)%Z = true →
       (up_Duplex up && hj_hijacker hijack && hj_hijack hijack = false → effects = [CloseUpstream]) ∧
       (up_Duplex up && hj_hijacker hijack && hj_hijack hijack = true → rw' = rw ∧
          ∃ lines used,
            (lines ≡ₚ map_to_list (up_Header up) ≫= λ kv,
               (λ v, kv.1 +:+ ": " +:+ v +:+ String "013" (String "010" "")) <$> kv.2) ∧
            (∀ k vs, up_Header up !! k = Some vs → ∃ before after, lines = before ++
               ((λ v, k +:+ ": " +:+ v +:+ String "013" (String "010" "")) <$> vs) ++ after) ∧
            effects = used ++ [CloseClient; CloseUpstream; ReleaseSession; ForgetSession; CloseUpstream] ∧
            let script := WriteClient ("HTTP/1.1 101 Switching Protocols" +:+ String "013" (String "010" "")) ::
              (WriteClient <$> lines) ++ WriteClient (String "013" (String "010" "")) ::
              (if decide (0 < hj_buffered hijack) then [CopyBuffered] else []) ++ [Tunnel] in
            (hj_write hijack 0 = false → used = take 1 script) ∧
            (hj_write hijack 0 = true → hj_write hijack (length lines + 1) = false →
               used = take (length lines + 2) script) ∧
            (hj_write hijack 0 = true → hj_write hijack (length lines + 1) = true →
               (0 < hj_buffered hijack → hj_copy hijack = false → used = take (length lines + 3) script) ∧
               (hj_buffered hijack = 0 ∨ hj_copy hijack = true → used = script))))
  end.
Proof.
  clear dial cfg Conn. intros Hurl Hhost. cbv zeta. unfold handleForward. rewrite Hurl.
  rewrite !decide_False by naive_solver. simpl.
  destruct (roundTrip (outbound_request rq) s) as [s1 [err|up]]; [done|].
  destruct (wants_upgrade (rq_Header rq) && (up_StatusCode up =? 101)%Z).
  - destruct (handleUpgrade hijack o up (mkRW h None body)) as [rw' effects] eqn:Hup.
    split; [done|]. split; [done|]. intros _. split; intros Hok.
    + unfold handleUpgrade in Hup.
      destruct (up_Duplex up), (hj_hijacker hijack), (hj_hijack hijack); cbn in Hok, Hup; by simplify_eq.
    + apply andb_true_iff in Hok as [[? ?]%andb_true_iff ?].
      destruct (handleUpgrade_script up (mkRW h None body)) as (used & Heq & Hused); [done..|].
      rewrite Heq in Hup. injection Hup as <- <-. split; [done|].
      exists (upgrade_lines o (up_Header up)), used. do 2 (split; [apply upgrade_lines_spec|]).
      split; [done|exact Hused].
  - split; [done|]. split; [|done]. intros _ Hcanon. simpl.
    assert (∀ k, copyHeaders o h (up_Header up) !! k =
      match up_Header up !! k with
      | Some (v :: vs) => Some (default [] (h !! k) ++ v :: vs) | _ => h !! k end) as Hcopy
      by (intros; by apply copyHeaders_lookup).
    split_and!; try done.
    + intros k Hk. rewrite removeHopByHop_lookup, decide_True; [done|]. apply elem_of_app. by right.
    + intros -> k Hk. rewrite removeHopByHop_lookup.
      assert (nominated (copyHeaders o ∅ (up_Header up)) = nominated (up_Header up)) as Hnom.
      { unfold nominated. do 4 f_equal. unfold header_Get. rewrite Hcopy, lookup_empty.
        by destruct (up_Header up !! _) as [[|]|]. }
      unfold removed_names. rewrite Hnom, Hcopy, lookup_empty.
      rewrite (decide_ext (k ∈ _ ++ _) (k ∈ nominated (up_Header up)))
        by (rewrite elem_of_app; unfold hopByHopHeaders; tauto).
      case_decide; [done|]. by destruct (up_Header up !! k) as [[|]|].
Qed.
End handler_theorems.

(** Only the first [Connection] line is looked at: a field that a second line
    nominates is forwarded. *)
Example second_connection_line_ignored :
  let header : Header := {[ "Connection" := ["close"; "X-Private"]; "X-Private" := ["v"] ]} in
  removeHopByHop header !! "X-Private" = Some ["v"].
Proof. vm_compute. reflexivity. Qed.
