(* ===== verification/Lifecycle.v ===== *)
(** * httpproxy/server.go: the table of sessions and the count of connections. *)
From stdpp Require Import gmap strings list fin_sets relations fin_maps.
From S2P Require Import Prelude.
From S2P Require Import GoBase.
From stdpp Require Import options.

(** The state the callbacks of one [Server] share. A connection is named by a
    number; [sv_released] holds the sessions whose [once] has fired, [sv_opened]
    (a history variable) all connections ever accepted. *)
Record Server := mkServer {
  sv_sessions : gset nat;
  sv_active : Z;
  sv_released : gset nat;
  sv_opened : gset nat;
}.

Definition New : Server := mkServer ∅ 0 ∅ ∅.

Definition ActiveConnections (sv : Server) : Z := sv_active sv.

(** [ConnContext] *)
Definition ConnContext (c : nat) (sv : Server) : Server :=
  mkServer ({[c]} ∪ sv_sessions sv) (sv_active sv + 1) (sv_released sv) ({[c]} ∪ sv_opened sv).

(** [connectionSession.release], as far as the server's counter goes. *)
Definition release (c : nat) (sv : Server) : Server :=
  if decide (c ∈ sv_released sv) then sv
  else mkServer (sv_sessions sv) (sv_active sv - 1) ({[c]} ∪ sv_released sv) (sv_opened sv).

Definition forget (c : nat) (sv : Server) : Server :=
  mkServer (sv_sessions sv ∖ {[c]}) (sv_active sv) (sv_released sv) (sv_opened sv).

(** [ConnState] with [StateClosed]; other states do nothing. *)
Definition ConnStateClosed (c : nat) (sv : Server) : Server :=
  if decide (c ∈ sv_sessions sv) then release c (forget c sv) else sv.

(** The deferred cleanup of a tunnel on connection [c]. *)
Definition TunnelEnd (c : nat) (sv : Server) : Server := forget c (release c sv).

(** net/http accepts each connection once, and only a served one is hijacked. *)
Inductive server_step : Server → Server → Prop :=
  | step_accept c sv : c ∉ sv_opened sv → server_step sv (ConnContext c sv)
  | step_closed c sv : server_step sv (ConnStateClosed c sv)
  | step_tunnel c sv : c ∈ sv_opened sv → server_step sv (TunnelEnd c sv).

(** The polling loop of [Shutdown]: what a poll sees is the count and whether the
    context is done; [true] in the result means the connections were forced. *)
Fixpoint shutdown_poll (shutdownErr : option GoError) (ctxErr : GoError)
    (polls : list (Z * bool)) : option (bool * option GoError) :=
  match polls with
  | [] => None
  | (active, cancelled) :: rest =>
      if (active <=? 0)%Z then Some (false, shutdownErr)
      else if cancelled then
        Some (true, match shutdownErr with Some err => Some err | None => Some ctxErr end)
      else shutdown_poll shutdownErr ctxErr rest
  end.

(** ** The invariant *)

Record server_ok (sv : Server) : Prop := {
  ok_released : sv_released sv ⊆ sv_opened sv;
  ok_sessions : sv_sessions sv ⊆ sv_opened sv;
  ok_reach : sv_opened sv ∖ sv_released sv ⊆ sv_sessions sv;
  ok_active : sv_active sv = Z.of_nat (size (sv_opened sv ∖ sv_released sv));
}.

Lemma server_ok_release c sv :
  c ∈ sv_opened sv → server_ok sv →
  let sv' := forget c (release c sv) in
  server_ok sv'.
Proof.
  intros Hc [Hr Hs Hreach Ha]. unfold release, forget. case_decide as Hin; split; simpl.
  - done.
  - set_solver.
  - set_solver.
  - done.
  - set_solver.
  - set_solver.
  - set_solver.
  - rewrite Ha.
    assert (sv_opened sv ∖ sv_released sv = {[c]} ∪ sv_opened sv ∖ ({[c]} ∪ sv_released sv)) as ->.
    { apply set_eq. intros x. destruct (decide (x = c)); set_solver. }
    rewrite (size_union {[c]}), size_singleton by set_solver. lia.
Qed.

Lemma release_forget c sv : release c (forget c sv) = forget c (release c sv).
Proof. unfold release, forget. simpl. by case_decide. Qed.

Lemma server_step_ok sv sv' : server_step sv sv' → server_ok sv → server_ok sv'.
Proof.
  intros Hstep Hok. destruct Hstep as [c sv Hc|c sv|c sv Hc].
  - destruct Hok as [Hr Hs Hreach Ha]. split; simpl; [set_solver|set_solver| |].
    + set_solver.
    + rewrite Ha.
      assert (({[c]} ∪ sv_opened sv) ∖ sv_released sv = {[c]} ∪ sv_opened sv ∖ sv_released sv) as ->.
      { apply set_eq. intros x. destruct (decide (x = c)); set_solver. }
      rewrite (size_union {[c]}), size_singleton by set_solver. lia.
  - unfold ConnStateClosed. case_decide as Hin; [|done]. rewrite release_forget.
    apply server_ok_release; [|done]. by apply (ok_sessions _ Hok).
  - by apply server_ok_release.
Qed.

Lemma server_reachable_ok sv : rtc server_step New sv → server_ok sv.
Proof.
  revert sv. apply rtc_ind_r.
  - split; simpl; set_solver.
  - intros sv sv' _ Hstep Hok. by eapply server_step_ok.
Qed.

(** ** Theorems *)

(** Whatever connections are accepted, closed, hijacked and torn down,
    in any order and even when a connection's end is reported twice, the counter
    is the number of connections not yet released, so it is never negative and is
    0 exactly when all are; and each of those is still in the table, so that a
    forced shutdown reaches every one of them. *)
Theorem active_counts_unreleased (sv : Server) :
  rtc server_step New sv →
  sv_active sv = Z.of_nat (size (sv_opened sv ∖ sv_released sv)) ∧
  (sv_active sv = 0%Z ↔ sv_opened sv = sv_released sv) ∧
  (∀ c, c ∈ sv_opened sv → c ∉ sv_released sv → c ∈ sv_sessions sv) ∧
  (∀ c, c ∈ sv_opened sv → TunnelEnd c (TunnelEnd c sv) = TunnelEnd c sv ∧
     ConnStateClosed c (TunnelEnd c sv) = TunnelEnd c sv ∧
     c ∈ sv_released (TunnelEnd c sv)).
Proof.
  intros Hrtc. destruct (server_reachable_ok _ Hrtc) as [Hr Hs Hreach Ha]. split_and!.
  - done.
  - rewrite Ha. split; [|intros ->; by rewrite difference_diag_L, size_empty].
    intros H0. apply set_eq. intros c. split; [|apply Hr].
    intros Hc. apply dec_stable. intros Hn.
    assert (c ∈ sv_opened sv ∖ sv_released sv) as Hin by set_solver.
    assert (sv_opened sv ∖ sv_released sv ≡ ∅) as He by (apply size_empty_inv; lia).
    set_solver.
  - intros c Hc Hn. apply Hreach. set_solver.
  - intros c Hc. unfold TunnelEnd, ConnStateClosed, release, forget.
    destruct (decide (c ∈ sv_released sv)) as [Hin|Hin]; simpl.
    + rewrite !decide_True by done. rewrite (decide_False (P := c ∈ _ ∖ _)) by set_solver. simpl.
      split_and!; [|done|done]. f_equal. set_solver.
    + rewrite (decide_True (P := c ∈ {[c]} ∪ _)) by set_solver.
      rewrite (decide_False (P := c ∈ _ ∖ _)) by set_solver. simpl.
      split_and!; [|done|set_solver]. f_equal. set_solver.
Qed.

(** [Shutdown] returns as soon as it sees no connection, with the
    error of the HTTP server's own shutdown; it forces the connections only if the
    context ends while some are left, and then never returns nil. *)
Theorem shutdown_waits_then_forces (shutdownErr : option GoError) (ctxErr : GoError)
    (waiting : list Z) (active : Z) (cancelled : bool) (rest : list (Z * bool)) :
  (∀ n, n ∈ waiting → (0 < n)%Z) → (active ≤ 0)%Z ∨ cancelled = true →
  ∃ forced err, shutdown_poll shutdownErr ctxErr
      (((λ n, (n, false)) <$> waiting) ++ (active, cancelled) :: rest) = Some (forced, err) ∧
    (forced = true ↔ (0 < active)%Z) ∧
    (forced = false → err = shutdownErr) ∧ (forced = true → is_Some err).
Proof.
  intros Hw Hend. induction waiting as [|n waiting IH]; simpl.
  - destruct (Z.leb_spec active 0).
    + eexists _, _. split; [done|]. split; [split; [done|lia]|]. done.
    + destruct Hend as [| ->]; [lia|]. eexists _, _. split; [done|].
      split; [done|]. split; [done|]. by destruct shutdownErr.
  - destruct (Z.leb_spec n 0); [specialize (Hw n ltac:(by left)); lia|].
    apply IH. intros; apply Hw; by right.
Qed.
