(* ===== verification/App.v ===== *)
(** * app/app.go: wiring the subscriptions, the registry, the probes and the
    alerts together. *)
From stdpp Require Import gmap strings list sorting fin_maps pretty relations.
From Stdlib Require Import Ascii.
From S2P Require Import Prelude.
From S2P Require Import GoBase.
From S2P Require Import GoStrings.
From S2P Require Import NetUrl.
From S2P Require Import Lifecycle.
From S2P Require Import Admin.
From S2P Require Import Model.
From S2P Require Import Selector.
From S2P Require Import Registry.
From S2P Require Import Leases.
From S2P Require Import Manager.
From S2P Require Import Monitor.
From stdpp Require Import options.

(** ** [listenAll] *)

Section listen.
Context {W Listener : Type} (listen : string → W → W * (GoError + Listener)).
Context (close : Listener → W → W).

(** The loop, with the listeners opened so far. *)
Fixpoint listenAll_loop (addresses : list string) (listeners : list Listener) (w : W)
    : W * (GoError + list Listener) :=
  match addresses with
  | [] => (w, inr listeners)
  | address :: rest =>
      match listen address w with
      | (w', inl err) =>
          (foldl (λ w l, close l w) w' listeners,
           inl (Errorf_w "listen on configured address: " err))
      | (w', inr listener) => listenAll_loop rest (listeners ++ [listener]) w'
      end
  end.
Definition listenAll (addresses : list string) (w : W) : W * (GoError + list Listener) :=
  listenAll_loop addresses [] w.
End listen.

(** ** [sourceURLs] *)

(** [shouldEscape] of net/url for a path, and the escaping of [EscapedPath]. *)
Definition path_byte (a : ascii) : bool :=
  let x := byte_of a in
  between 48 57 x || between 65 90 x || between 97 122 x ||
  bool_decide (a ∈ String.list_ascii_of_string "-_.~$&+,/:;=@").
Definition escape_path (s : string) : string := url_escape path_byte s.

(** [(&url.URL{Scheme: "file", Path: path}).String()] for a nonempty path. *)
Definition file_url (path : string) : string :=
  "file://" +:+ (if decide (path = "*") then "*" else escape_path path).

Definition sourceURLs (subscriptionURLs : list string) (webshareFile : string) : list string :=
  if decide (webshareFile = "") then subscriptionURLs
  else subscriptionURLs ++ [file_url webshareFile].

(** The sources [New] makes of them: numbered from 1. *)
Definition make_sources (urls : list string) : list Source :=
  imap (λ i url, mkSource (Itoa (Z.of_nat i + 1)) url) urls.

(** ** [probeDue] *)

Section probe.
Context {F D : Type} `{Factory F D}.

(** What the goroutine of lease number [i] does to the registry: report the
    outcome of the probe, then close the lease. *)
Definition probe_events (i : nat) (l : NodeLease D) (outcome : GoError + Z) (now : Z)
    : list PoolEvent :=
  [match outcome with
   | inl err => PvMarkFailure (lease_ID l) (Some err) now
   | inr latency => PvMarkSuccess (lease_ID l) latency now
   end; PvClose i].

(** [evs] is an interleaving of the goroutines' events with foreign ones. *)
Inductive interleaving : list (list PoolEvent) → list PoolEvent → Prop :=
  | il_done progs : Forall (λ p, p = []) progs → interleaving progs []
  | il_mine progs j e p evs : progs !! j = Some (e :: p) →
      interleaving (<[j := p]> progs) evs → interleaving progs (e :: evs)
  | il_foreign progs e evs : interleaving progs evs → interleaving progs (e :: evs).

(** The semaphore of [probeDue]: at most [concurrency] goroutines hold a slot. *)
Definition probe_concurrency (concurrency : Z) : Z := if (concurrency <? 1)%Z then 1 else concurrency.
Definition probe_timeout (timeout : Z) : Z := if (timeout <=? 0)%Z then 10 * Second else timeout.
End probe.

(** ** The application's state and [Refresh] *)

Section app.
Context {F D W : Type} `{Factory F D} `{Parser} (fetcher : Fetcher W).

Record App := mkApp {
  app_manager : Manager;
  app_pool : Pool (F := F) (D := D);
  app_lastRefresh : Z;
}.

(** The probes of one round: their outcomes and the times they are reported at. *)
Record ProbeRound := mkProbeRound {
  pr_outcome : nat → NodeLease D → GoError + Z;
  pr_clock : nat → Z;
}.

(** The programs of all goroutines of a round whose leases start at [base]. *)
Definition probe_programs (base : nat) (leases : list (NodeLease D)) (pr : ProbeRound)
    : list (list PoolEvent) :=
  imap (λ i l, probe_events (base + i) l (pr_outcome pr i l) (pr_clock pr i)) leases.

(** [probeDue], the goroutines running one after the other. *)
Definition probeDue (now : Z) (pr : ProbeRound) (p : Pool (F := F) (D := D)) : Pool :=
  let base := length (pl_leases p) in
  let leases := (ProbeDue now (pl_reg p)).2 in
  foldl (λ p evs, pool_run p evs) (pool_step (PvProbeDue now) p)
    (probe_programs base leases pr).

(** [App.Refresh]: [now] and [later] are the readings of the clock. *)
Definition app_Refresh (o : RangeOrder) (now later : Z) (pr : ProbeRound) (a : App) (w : W)
    : App * W * option GoError :=
  let '(m', w', (snapshot, refreshErr)) := Refresh fetcher o (app_manager a) w in
  if decide (0 < length (snap_Nodes snapshot)) then
    match (Apply o snapshot (pl_reg (app_pool a)) (pl_fac (app_pool a))).2 with
    | inl applyErr =>
        (mkApp m' (pool_step (PvApply o snapshot) (app_pool a)) (app_lastRefresh a), w',
         Some (Errorf_w "apply subscription snapshot: " applyErr))
    | inr _ =>
        (mkApp m' (probeDue now pr (pool_step (PvApply o snapshot) (app_pool a))) later, w',
         refreshErr)
    end
  else (mkApp m' (app_pool a) later, w', refreshErr).

(** One tick of [alertLoop], once a refresh has completed. *)
Definition alert_tick {V} (sender : option (Sender V)) (o : RangeOrder) (now : Z)
    (a : App) (mon : Monitor) (v : V) : Monitor * V * list GoError :=
  if time_IsZero (app_lastRefresh a) then (mon, v, [])
  else
    let snapshot := manager_Snapshot o (app_manager a) in
    let '(mon1, v1, failures) :=
      Evaluate sender o (snap_SourceErrors snapshot) (PoolStats (pl_reg (app_pool a))) mon v in
    let '(mon2, v2, failures') :=
      EvaluateExpiry sender o (snap_ExpiresAt snapshot) now mon1 v1 in
    (mon2, v2, failures ++ failures').
End app.

(** ** [Status] *)

Section status.
Context {F D : Type} `{NetUrl}.

Definition node_counts (nodes : list NodeSpec) : gmap string nat :=
  foldl (λ counts node,
    foldl (λ counts id, <[id := S (default 0 (counts !! id))]> counts) counts
      (spec_SourceIDs node)) ∅ nodes.

Definition source_address (raw : string) : string :=
  match url_Parse raw with
  | Some u =>
      if decide (url_Scheme u = "file") then "Webshare 文件"
      else url_Scheme u +:+ "://" +:+ url_Host u +:+ "/[已隐藏路径和密钥]"
  | None => "[隐藏]"
  end.

Definition subscriptionStatuses (urls : list string) (snapshot : Snapshot) (reg : Registry D)
    : list SubscriptionStatus :=
  let stats := StatsBySource reg in
  let counts := node_counts (snap_Nodes snapshot) in
  imap (λ i raw,
    let id := Itoa (Z.of_nat i + 1) in
    let state :=
      if decide (default "" (snap_SourceErrors snapshot !! id) ≠ "") then "failed"
      else if decide (0 < default 0 (counts !! id)) then "ok"
      else "pending" in
    mkSubscriptionStatus id (source_address raw)
      (default 0%Z (snap_ExpiresAt snapshot !! id)) state
      (default 0 (counts !! id)) (default zero_stats (stats !! id))) urls.

(** The two proxies are on [http] and [ws]. *)
Definition app_Status (o : RangeOrder) (urls : list string) (http ws : Server)
    (a : App (F := F) (D := D)) : Status :=
  let stats := PoolStats (pl_reg (app_pool a)) in
  let snapshot := manager_Snapshot o (app_manager a) in
  mkStatus (subscriptionStatuses urls snapshot (pl_reg (app_pool a)))
    (snap_ExpiresAt snapshot) (bool_decide (0 < st_Healthy stats)) stats (ActiveConnections http)
    (ActiveConnections ws) (app_lastRefresh a) (snap_SourceErrors snapshot).
End status.

(** ** Lemmas *)

Section listen_log.
Context {Listener : Type}.

(** Listeners over a world that records what was opened and closed. *)
Inductive ListenEvent := LvOpened (l : Listener) | LvClosed (l : Listener).

Definition log_listen (oracle : nat → string → GoError + Listener) (address : string)
    (log : list ListenEvent) : list ListenEvent * (GoError + Listener) :=
  match oracle (length log) address with
  | inl err => (log, inl err)
  | inr l => (log ++ [LvOpened l], inr l)
  end.
Definition log_close (l : Listener) (log : list ListenEvent) : list ListenEvent := log ++ [LvClosed l].

Lemma close_all_log (ls : list Listener) log :
  foldl (λ log l, log_close l log) log ls = log ++ (LvClosed <$> ls).
Proof.
  revert log. induction ls as [|l ls IH]; intros log; simpl; [by rewrite (right_id_L [] (++))|].
  rewrite IH. unfold log_close. by rewrite <-(assoc_L (++)).
Qed.

Lemma listenAll_loop_log oracle addresses (ls : list Listener) log :
  let '(log', r) := listenAll_loop (log_listen oracle) log_close addresses ls log in
  match r with
  | inr ls' => ∃ new, ls' = ls ++ new ∧ length new = length addresses ∧
      log' = log ++ (LvOpened <$> new)
  | inl err => ∃ new cause, err = Errorf_w "listen on configured address: " cause ∧
      length new < length addresses ∧
      log' = log ++ (LvOpened <$> new) ++ (LvClosed <$> ls ++ new)
  end.
Proof.
  revert ls log. induction addresses as [|address addresses IH]; intros ls log; simpl.
  { exists []. simpl. split_and!; [by rewrite app_nil_r|done|by rewrite app_nil_r]. }
  unfold log_listen at 1. destruct (oracle (length log) address) as [err|l].
  - exists [], err. rewrite close_all_log, !app_nil_r. simpl. split_and!; [done|lia|done].
  - specialize (IH (ls ++ [l]) (log ++ [LvOpened l])).
    destruct (listenAll_loop _ _ _ _ _) as [log' [err|ls']].
    + destruct IH as (new & cause & -> & Hlen & ->). exists (l :: new), cause.
      split_and!; [done|simpl; lia|]. by rewrite <-!(assoc_L (++)).
    + destruct IH as (new & -> & Hlen & ->). exists (l :: new).
      rewrite <-!(assoc_L (++)). simpl. by rewrite Hlen.
Qed.

(** The listeners are opened all or nothing. On success there is one
    per address, in order, all open; on a failure every listener opened before
    has been closed, once, in the order of opening. *)
Lemma listen_all_or_nothing (oracle : nat → string → GoError + Listener) addresses :
  let '(log, r) := listenAll (log_listen oracle) log_close addresses [] in
  match r with
  | inr ls => length ls = length addresses ∧ log = LvOpened <$> ls
  | inl err => ∃ opened cause, err = Errorf_w "listen on configured address: " cause ∧
      length opened < length addresses ∧ log = (LvOpened <$> opened) ++ (LvClosed <$> opened)
  end.
Proof.
  pose proof (listenAll_loop_log oracle addresses [] []) as Hloop. unfold listenAll.
  destruct (listenAll_loop _ _ _ _ _) as [log [err|ls]]; [done|].
  destruct Hloop as (new & -> & ? & ->). done.
Qed.
End listen_log.

Section probe_lemmas.
Context {F D : Type} `{FactoryLaws F D}.
Implicit Types p : Pool (F := F) (D := D).

Lemma pool_step_order e p :
  (∀ o snap, e ≠ PvApply o snap) → reg_order (pl_reg (pool_step e p)) = reg_order (pl_reg p).
Proof.
  intros He. destruct e as [o snap|id cause now|id latency now|id allow|now|i]; simpl.
  - by destruct (He o snap).
  - unfold MarkFailure. by destruct (reg_nodes _ !! id).
  - unfold MarkSuccess. destruct (reg_nodes _ !! id) as [st|]; [|done]. by destruct (ns_removed st).
  - unfold Acquire. destruct (reg_nodes _ !! id) as [st|]; [|done].
    destruct (ns_removed st); [done|]. destruct (negb (ns_healthy st) && negb allow); [done|].
    by destruct (negb (ns_healthy st) && ns_probing st).
  - unfold ProbeDue. generalize (reg_order (pl_reg p)) at 1. intros order.
    assert (reg_order (probe_due_loop order now (pl_reg p)).1 = reg_order (pl_reg p)) as Ho.
    { generalize (pl_reg p). induction order as [|id order IH]; intros reg; simpl; [done|].
      destruct (reg_nodes reg !! id) as [st|]; [|apply IH].
      destruct (ns_removed st || _ || _); [apply IH|].
      specialize (IH (set_nodes (<[id := set_usage true (S (ns_active st)) st]> (reg_nodes reg)) reg)).
      by destruct (probe_due_loop _ _ _). }
    by destruct (probe_due_loop _ _ _).
  - unfold lease_Close. destruct (pl_leases p !! i) as [[l [|]]|]; [done| |done].
    unfold release. destruct (reg_nodes _ !! lease_ID l) as [st|]; [|done].
    by destruct (ns_removed st && _).
Qed.
End probe_lemmas.

Lemma interleaving_elem progs evs j p e :
  interleaving progs evs → progs !! j = Some p → e ∈ p → e ∈ evs.
Proof.
  intros Hil. revert p. induction Hil as [progs Hnil|progs k e' p' evs Hk Hil IH|progs e' evs Hil IH];
    intros p Hj He.
  - rewrite Forall_lookup in Hnil. rewrite (Hnil _ _ Hj) in He. by apply not_elem_of_nil in He.
  - destruct (decide (k = j)) as [->|Hne].
    + rewrite Hk in Hj. simplify_eq. apply elem_of_cons in He as [->|He]; [by left|right].
      apply (IH p'); [|done]. apply list_lookup_insert_eq. by eapply lookup_lt_Some.
    + right. apply (IH p); [|done]. by rewrite list_lookup_insert_ne.
  - right. eauto.
Qed.

Lemma interleaving_nil progs evs : interleaving progs evs → interleaving ([] :: progs) evs.
Proof.
  induction 1 as [progs Hnil|progs k e p evs Hk Hil IH|progs e evs Hil IH].
  - apply il_done. by constructor.
  - apply (il_mine _ (S k) e p); [done|]. done.
  - by apply il_foreign.
Qed.

(** Running the goroutines one after the other is one interleaving. *)
Lemma interleaving_concat progs : interleaving progs (concat progs).
Proof.
  induction progs as [|p progs IH]; [by apply il_done|]. simpl.
  induction p as [|e p IHp]; simpl; [by apply interleaving_nil|].
  apply (il_mine _ 0 e p); [done|]. done.
Qed.

Section app_theorems.
Context {F D : Type} `{FactoryLaws F D}.
Implicit Types p : Pool (F := F) (D := D).

Lemma foldl_runs p (progs : list (list PoolEvent)) :
  foldl (λ p evs, pool_run p evs) p progs = pool_run p (concat progs).
Proof.
  revert p. induction progs as [|evs progs IH]; intros p; simpl; [done|].
  rewrite IH. unfold pool_run. by rewrite foldl_app.
Qed.

Lemma probe_leases_step now p :
  pl_leases (pool_step (PvProbeDue now) p) =
    pl_leases p ++ ((λ l, (l, false)) <$> (ProbeDue now (pl_reg p)).2).
Proof. simpl. by destruct (ProbeDue now (pl_reg p)). Qed.

(** The reports of a round close each of its leases. *)
Lemma probe_lease_closed now (pr : ProbeRound) evs p i l :
  let leases := (ProbeDue now (pl_reg p)).2 in
  let base := length (pl_leases p) in
  interleaving (probe_programs base leases pr) evs → leases !! i = Some l →
  pl_leases (pool_run (pool_step (PvProbeDue now) p) evs) !! (base + i) = Some (l, true).
Proof.
  intros leases base Hil Hi.
  assert (pl_leases (pool_step (PvProbeDue now) p) !! (base + i) = Some (l, false)) as Hopen.
  { rewrite probe_leases_step, lookup_app_r by (unfold base; lia). fold leases.
    replace (base + i - length (pl_leases p)) with i by (unfold base; lia).
    by rewrite list_lookup_fmap, Hi. }
  destruct (pool_run_lease evs _ _ _ _ Hopen) as (c & Hc & _ & Hin).
  rewrite Hc. rewrite Hin; [done|]. eapply (interleaving_elem _ _ i); [exact Hil| |].
  - unfold probe_programs. by rewrite list_lookup_imap, Hi.
  - right. by left.
Qed.

(** The events of a round only report and close. *)
Definition reports_or_closes (e : PoolEvent) : Prop :=
  match e with PvMarkFailure _ _ _ | PvMarkSuccess _ _ _ | PvClose _ => True | _ => False end.

Lemma probe_programs_event base (leases : list (NodeLease D)) (pr : ProbeRound) e :
  e ∈ concat (probe_programs base leases pr) → reports_or_closes e.
Proof.
  intros He. apply list_elem_of_In, in_concat in He as (evs & Hevs & He).
  apply list_elem_of_In in Hevs, He. apply list_elem_of_lookup in Hevs as [i Hi].
  unfold probe_programs in Hi. rewrite list_lookup_imap in Hi.
  destruct (leases !! i) as [l|]; [|done]. simplify_eq/=. unfold probe_events in He.
  apply elem_of_cons in He as [->|He%list_elem_of_singleton]; [|by subst].
  by destruct (pr_outcome pr i l).
Qed.

Lemma pool_run_closing_length evs p :
  (∀ e, e ∈ evs → reports_or_closes e) →
  length (pl_leases (pool_run p evs)) = length (pl_leases p).
Proof.
  revert p. induction evs as [|e evs IH]; intros p He; [done|]. simpl.
  rewrite IH by (intros; apply He; by right). specialize (He e ltac:(by left)).
  destruct e as [o snap|id cause now|id latency now|id allow|now|i]; try done. simpl.
  unfold lease_Close. destruct (pl_leases p !! i) as [[l [|]]|]; [done| |done].
  destruct (release _ _ _ _). simpl. apply length_insert.
Qed.

(** So they take no lease. *)
Lemma probed_leases now (pr : ProbeRound) p j l :
  let leases := (ProbeDue now (pl_reg p)).2 in
  let base := length (pl_leases p) in
  let evs := concat (probe_programs base leases pr) in
  pl_leases (pool_run (pool_step (PvProbeDue now) p) evs) !! j = Some (l, false) →
  pl_leases p !! j = Some (l, false).
Proof.
  intros leases base evs Hj.
  assert (length (pl_leases (pool_run (pool_step (PvProbeDue now) p) evs)) =
    base + length leases) as Hlen.
  { rewrite pool_run_closing_length.
    - rewrite probe_leases_step, length_app, length_fmap. done.
    - intros e He. by eapply probe_programs_event. }
  pose proof (lookup_lt_Some _ _ _ Hj) as Hlt. rewrite Hlen in Hlt.
  destruct (decide (j < base)) as [Hb|Hb].
  - destruct (pl_leases p !! j) as [[l' c]|] eqn:Hp; [|apply lookup_ge_None in Hp; unfold base in Hb; lia].
    assert (pl_leases (pool_step (PvProbeDue now) p) !! j = Some (l', c)) as Hp1
      by (rewrite probe_leases_step; by apply lookup_app_l_Some).
    destruct (pool_run_lease evs _ _ _ _ Hp1) as (c' & Hc & Hm & _).
    rewrite Hc in Hj. simplify_eq. destruct c; [|done]. by specialize (Hm eq_refl).
  - exfalso. destruct (lookup_lt_is_Some_2 leases (j - base)) as [l' Hl']; [lia|].
    pose proof (probe_lease_closed now pr evs p (j - base) l' (interleaving_concat _) Hl') as Hc.
    fold base in Hc. replace (base + (j - base)) with j in Hc by lia. congruence.
Qed.

(** C36: a round of probes takes one lease on each routed node that is due
    and not being probed, and on no other, on a live dialer; whatever the probes
    find and however their reports interleave with each other and with the rest
    of the program, every one of these leases is closed in the end, and a gate
    still shut afterwards belongs to a lease of somebody else. *)
Theorem probe_round_returns_every_lease interval (f : F) evs0 now (pr : ProbeRound) evs :
  valid f → live f = ∅ →
  let p := pool_run (new_pool interval f) evs0 in
  let p1 := pool_step (PvProbeDue now) p in
  let leases := (ProbeDue now (pl_reg p)).2 in
  let base := length (pl_leases p) in
  interleaving (probe_programs base leases pr) evs →
  (lease_ID <$> leases) = filter (λ id, due_at now (pl_reg p) id = true) (reg_order (pl_reg p)) ∧
  (∀ i l, leases !! i = Some l → lease_Dialer l ∈ live (pl_fac p1) ∧
     pl_leases (pool_run p1 evs) !! (base + i) = Some (l, true)) ∧
  (∀ id st, reg_nodes (pl_reg (pool_run p1 evs)) !! id = Some st → ns_probing st = true →
     ∃ j l, pl_leases (pool_run p1 evs) !! j = Some (l, false) ∧ lease_ID l = id ∧
       (j < base ∨ base + length leases ≤ j)) ∧
  (∃ evs', interleaving (probe_programs base leases pr) evs' ∧
     probeDue now pr p = pool_run p1 evs').
Proof.
  intros Hv Hf p p1 leases base Hil.
  pose proof (pool_ok_run _ evs0 (new_pool_ok interval f Hv Hf)) as Hok. fold p in Hok.
  assert (pool_ok p1) as Hok1 by by apply pool_ok_step.
  pose proof (probe_leases_step now p) as Hl1. fold p1 leases in Hl1.
  assert (∀ i l, leases !! i = Some l →
    pl_leases (pool_run p1 evs) !! (base + i) = Some (l, true)) as Hclosed
    by (intros i l Hi; by apply probe_lease_closed with pr).
  split_and!.
  - pose proof (probe_due_loop_spec (reg_order (pl_reg p)) now (pl_reg p)
      (ro_order_nodup _ _ (po_reg _ Hok))) as Hspec.
    unfold leases, ProbeDue. destruct (probe_due_loop _ _ _) as [reg' ls]. by destruct Hspec.
  - intros i l Hi. split; [|by apply Hclosed].
    destruct (po_lease _ Hok1 l) as (st & ? & ?).
    { rewrite Hl1. apply elem_of_app. right. apply list_elem_of_fmap. exists l.
      split; [done|]. by eapply list_elem_of_lookup_2. }
    apply (ro_live _ _ (po_reg _ Hok1)). eauto.
  - intros id st Hst Hp. pose proof (pool_ok_run _ evs Hok1) as Hok2.
    pose proof (po_probing _ Hok2 _ _ Hst) as Hc. rewrite Hp in Hc.
    assert (0 < count (gated_on id) (pl_leases (pool_run p1 evs)))
      as ([l c] & [j Hj]%list_elem_of_lookup & Hg)%count_pos by lia.
    unfold gated_on in Hg. apply andb_true_iff in Hg as [Ho _].
    apply open_on_true in Ho as [-> Hid]. exists j, l. split_and!; [done..|].
    destruct (decide (base ≤ j < base + length leases)) as [[Hge Hlt]|]; [|lia]. exfalso.
    destruct (lookup_lt_is_Some_2 leases (j - base)) as [l' Hl']; [lia|].
    pose proof (Hclosed _ _ Hl') as Hj'. replace (base + (j - base)) with j in Hj' by lia.
    congruence.
  - eexists. split; [apply interleaving_concat|]. unfold probeDue. apply foldl_runs.
Qed.

(** Probing leaves the routing order alone. *)
Lemma probe_programs_order base (leases : list (NodeLease D)) (pr : ProbeRound) p :
  reg_order (pl_reg (pool_run p (concat (probe_programs base leases pr)))) = reg_order (pl_reg p).
Proof.
  assert (∀ e, e ∈ concat (probe_programs base leases pr) → ∀ o snap, e ≠ PvApply o snap) as Hno
    by (intros e He%probe_programs_event o snap ->; done).
  revert p Hno. generalize (concat (probe_programs base leases pr)). intros evs.
  induction evs as [|e evs IH]; intros p Hno; [done|].
  simpl. rewrite IH by (intros; apply Hno; by right).
  apply pool_step_order, Hno. by left.
Qed.

Context {W : Type} `{Parser} (fetcher : Fetcher W).

Lemma app_refresh_cases o now later (pr : ProbeRound) a w :
  pool_ok (app_pool a) →
  let '(a', w', err) := app_Refresh fetcher o now later pr a w in
  let '(m', w1, (snapshot, refreshErr)) := Refresh fetcher o (app_manager a) w in
  app_manager a' = m' ∧ w' = w1 ∧ pool_ok (app_pool a') ∧
  ((snap_Nodes snapshot = [] ∧ app_pool a' = app_pool a ∧ err = refreshErr ∧
      app_lastRefresh a' = later) ∨
   (snap_Nodes snapshot ≠ [] ∧ (∃ cause, err = Some (Errorf_w "apply subscription snapshot: " cause)) ∧
      pl_reg (app_pool a') = pl_reg (app_pool a) ∧
      live (pl_fac (app_pool a')) = live (pl_fac (app_pool a)) ∧
      pl_leases (app_pool a') = pl_leases (app_pool a) ∧
      app_lastRefresh a' = app_lastRefresh a) ∨
   (snap_Nodes snapshot ≠ [] ∧ err = refreshErr ∧ app_lastRefresh a' = later ∧
      reg_order (pl_reg (app_pool a')) = spec_ID <$> snap_Nodes snapshot ∧
      ∀ j l, pl_leases (app_pool a') !! j = Some (l, false) →
        pl_leases (app_pool a) !! j = Some (l, false))).
Proof.
  intros Hok. unfold app_Refresh.
  assert (snap_Nodes (Refresh fetcher o (app_manager a) w).2.1 =
    mergeSources o (mg_bySource (Refresh fetcher o (app_manager a) w).1.1)) as Hmerge.
  { pose proof (refresh_parts fetcher o (app_manager a) w) as Hr.
    destruct (fetch_all _ _ _) as [w1 rs]. by rewrite Hr. }
  destruct (Refresh fetcher o (app_manager a) w) as [[m' w1] [snapshot refreshErr]].
  simpl in Hmerge. case_decide as Hlen.
  2: { split_and!; [done..|]. left. split_and!; try done.
       destruct (snap_Nodes snapshot); [done|simpl in Hlen; lia]. }
  assert (snap_Nodes snapshot ≠ []) as Hne by (intros Hnil; rewrite Hnil in Hlen; simpl in Hlen; lia).
  pose proof (pool_ok_step _ (PvApply o snapshot) Hok) as Hok1.
  assert (pl_leases (pool_step (PvApply o snapshot) (app_pool a)) = pl_leases (app_pool a)) as Hsame
    by (simpl; by destruct (Apply _ _ _ _) as [[??]?]).
  pose proof (ro_valid _ _ (po_reg _ Hok)) as Hv.
  destruct (Apply o snapshot (pl_reg (app_pool a)) (pl_fac (app_pool a)))
    as [[reg' f'] [applyErr|diff]] eqn:Happ; cbn [snd].
  - split_and!; [done..|]. right. left.
    destruct (apply_error _ _ _ _ _ _ _ Hv Happ) as [-> Hlive].
    split_and!; try done; [by eexists|..]; simpl; by rewrite Happ.
  - set (p1 := pool_step (PvApply o snapshot) (app_pool a)) in *.
    destruct (apply_success _ _ _ _ _ _ _ Hv Happ)
      as (wanted & built & Hw & _ & _ & _ & _ & _ & Hord & _).
    assert (reg_order (pl_reg p1) = spec_ID <$> snap_Nodes snapshot) as Hord1.
    { unfold p1. simpl. rewrite Happ. simpl. rewrite Hord, Hmerge, mergeSources_ids.
      apply sort_strings_proper, NoDup_Permutation; [apply NoDup_elements..|].
      intros id. rewrite !elem_of_elements, elem_of_dom.
      destruct (collect_wanted_spec _ _ _ Hw) as (Hdom & _). rewrite Hdom.
      rewrite lookup_empty, <-(elem_of_elements (all_ids _)), <-sort_strings_elem,
        <-(mergeSources_ids o), <-Hmerge, list_elem_of_fmap. naive_solver. }
    split_and!; [done|done| |].
    { cbn [app_pool]. unfold probeDue. rewrite foldl_runs.
      apply pool_ok_run. by apply (pool_ok_step _ (PvProbeDue now)). }
    right. right. split_and!; try done; cbn [app_pool].
    + unfold probeDue. rewrite foldl_runs, probe_programs_order, pool_step_order; done.
    + unfold probeDue. rewrite foldl_runs. intros j l Hj.
      rewrite <-Hsame. by eapply probed_leases.
Qed.

(** C13: a refresh of the application. When the subscriptions hold no node,
    the pool is left alone. When the new snapshot cannot be applied, the registry
    and the live dialers are as they were, the error says so, and the time of the
    last refresh does not move. Otherwise the routed nodes are exactly the nodes
    of the snapshot the manager now serves, whatever sources failed, every probe
    lease has been returned, and the refresh is stamped; the error of a partly
    failed refresh is passed on. *)
Theorem app_refresh_routes_the_snapshot o now later (pr : ProbeRound) a w :
  pool_ok (app_pool a) →
  let '(a', w', err) := app_Refresh fetcher o now later pr a w in
  let '(m', w1, (snapshot, refreshErr)) := Refresh fetcher o (app_manager a) w in
  app_manager a' = m' ∧ w' = w1 ∧ pool_ok (app_pool a') ∧
  ((snap_Nodes snapshot = [] ∧ app_pool a' = app_pool a ∧ err = refreshErr ∧
      app_lastRefresh a' = later) ∨
   (snap_Nodes snapshot ≠ [] ∧ (∃ cause, err = Some (Errorf_w "apply subscription snapshot: " cause)) ∧
      pl_reg (app_pool a') = pl_reg (app_pool a) ∧
      live (pl_fac (app_pool a')) = live (pl_fac (app_pool a)) ∧
      pl_leases (app_pool a') = pl_leases (app_pool a) ∧
      app_lastRefresh a' = app_lastRefresh a) ∨
   (snap_Nodes snapshot ≠ [] ∧ err = refreshErr ∧ app_lastRefresh a' = later ∧
      reg_order (pl_reg (app_pool a')) = spec_ID <$> snap_Nodes snapshot ∧
      ∀ j l, pl_leases (app_pool a') !! j = Some (l, false) →
        pl_leases (app_pool a) !! j = Some (l, false))).
Proof. apply app_refresh_cases. Qed.
End app_theorems.

(** ** Status *)

Lemma source_counts_lookup (ids : list string) (counts : gmap string nat) id :
  NoDup ids →
  default 0 (foldl (λ counts id, <[id := S (default 0 (counts !! id))]> counts) counts ids !! id) =
    default 0 (counts !! id) + if bool_decide (id ∈ ids) then 1 else 0.
Proof.
  revert counts. induction ids as [|i ids IH]; intros counts Hnd; [simpl; lia|].
  apply NoDup_cons in Hnd as [Hnot Hnd]. simpl. rewrite IH by done.
  destruct (decide (i = id)) as [->|Hne].
  - rewrite lookup_insert_eq. simpl. rewrite bool_decide_false by done.
    rewrite bool_decide_true by (by left). lia.
  - rewrite lookup_insert_ne by done. do 2 f_equal.
    rewrite (bool_decide_ext (id ∈ i :: ids) (id ∈ ids)); [done|].
    rewrite elem_of_cons. naive_solver.
Qed.

Lemma node_counts_lookup nodes id :
  (∀ n, n ∈ nodes → NoDup (spec_SourceIDs n)) →
  default 0 (node_counts nodes !! id) = count (λ n, bool_decide (id ∈ spec_SourceIDs n)) nodes.
Proof.
  unfold node_counts. induction nodes as [|n nodes IH] using rev_ind; intros Hnd.
  { simpl. by rewrite lookup_empty. }
  rewrite foldl_snoc, source_counts_lookup by (apply Hnd, elem_of_app; right; by left).
  rewrite IH by (intros; apply Hnd, elem_of_app; by left).
  rewrite count_app, count_cons, count_nil. lia.
Qed.

Lemma make_sources_nodup urls : NoDup (source_ID <$> make_sources urls).
Proof.
  apply NoDup_alt. intros i j id. unfold make_sources.
  rewrite !list_lookup_fmap, !list_lookup_imap.
  destruct (urls !! i); [|done]. destruct (urls !! j); [|done]. simpl. intros Hi Hj.
  assert (Z.of_nat i + 1 = Z.of_nat j + 1)%Z; [|lia].
  apply (inj pretty). unfold Itoa in *. congruence.
Qed.

Lemma make_sources_complete urls url :
  url ∈ urls → ∃ source, source ∈ make_sources urls ∧ source_URL source = url.
Proof.
  intros [i Hi]%list_elem_of_lookup. exists (mkSource (Itoa (Z.of_nat i + 1)) url). split; [|done].
  apply list_elem_of_lookup. exists i. unfold make_sources. by rewrite list_lookup_imap, Hi.
Qed.

Section status_theorem.
Context {F D W : Type} `{FactoryLaws F D} `{Parser} (fetcher : Fetcher W) `{SeedCodec, NetUrl}.

(** C39: the status tells the truth. It lists the configured sources in
    order under distinct numbers; a source shows as failed exactly if its last
    refresh left an error text, else as ok exactly if the snapshot holds a node
    of it, and its parsed nodes are those of the snapshot that name it; the
    gateway is ready exactly if some routed node is healthy, and the counts of
    connections are those of the connections accepted and not yet released. *)
Theorem status_reports_truthfully o urls http ws evs w a :
  app_manager a = (mgr_run fetcher evs (NewManager (make_sources urls), w)).1 →
  pool_ok (app_pool a) → rtc server_step New http → rtc server_step New ws →
  let snapshot := manager_Snapshot o (app_manager a) in
  let status := app_Status o urls http ws a in
  NoDup (source_ID <$> make_sources urls) ∧
  (sub_ID <$> sta_Subscriptions status) = (source_ID <$> make_sources urls) ∧
  (∀ st, st ∈ sta_Subscriptions status →
     sub_ParsedNodes st =
       count (λ n, bool_decide (sub_ID st ∈ spec_SourceIDs n)) (snap_Nodes snapshot) ∧
     (sub_RefreshState st = "failed" ↔
        ∃ text, snap_SourceErrors snapshot !! sub_ID st = Some text ∧ text ≠ "") ∧
     (sub_RefreshState st = "ok" ↔ sub_RefreshState st ≠ "failed" ∧
        ∃ n, n ∈ snap_Nodes snapshot ∧ sub_ID st ∈ spec_SourceIDs n)) ∧
  (sta_Ready status = true ↔ some_healthy (pl_reg (app_pool a))) ∧
  sta_HTTPActive status = Z.of_nat (size (sv_opened http ∖ sv_released http)) ∧
  sta_WSActive status = Z.of_nat (size (sv_opened ws ∖ sv_released ws)).
Proof.
  intros Hm Hok Hhttp%server_reachable_ok Hws%server_reachable_ok. cbv zeta.
  assert (∀ n, n ∈ snap_Nodes (manager_Snapshot o (app_manager a)) → NoDup (spec_SourceIDs n))
    as Hnd.
  { unfold manager_Snapshot. rewrite cloneSnapshot_id, Hm.
    destruct (mgr_run_ok fetcher evs (NewManager (make_sources urls), w) (new_manager_ok _))
      as [[o' ->] _ _].
    generalize (mg_bySource (mgr_run fetcher evs (NewManager (make_sources urls), w)).1).
    intros m n Hn%elem_of_mergeSources.
    pose proof (merged_map_spec o' m (spec_ID n)) as Hspec. rewrite Hn in Hspec.
    destruct Hspec as (_ & -> & _). apply sort_strings_nodup, NoDup_elements. }
  unfold app_Status. cbn [sta_Subscriptions sta_Ready sta_HTTPActive sta_WSActive].
  set (snapshot := manager_Snapshot o (app_manager a)) in *. clearbody snapshot.
  split_and!.
  - apply make_sources_nodup.
  - unfold make_sources. unfold subscriptionStatuses.
    by rewrite !fmap_imap.
  - intros st. unfold subscriptionStatuses. intros [i Hi]%list_elem_of_lookup.
    rewrite list_lookup_imap in Hi. destruct (urls !! i) as [raw|]; [|done]. simplify_eq/=.
    set (id := Itoa (Z.of_nat i + 1)).
    rewrite !node_counts_lookup by done. split; [done|].
    assert (default "" (snap_SourceErrors snapshot !! id) ≠ "" ↔
      ∃ text, snap_SourceErrors snapshot !! id = Some text ∧ text ≠ "") as Herr.
    { destruct (snap_SourceErrors snapshot !! id); simpl; naive_solver. }
    assert (0 < count (λ n, bool_decide (id ∈ spec_SourceIDs n)) (snap_Nodes snapshot) ↔
      ∃ n, n ∈ snap_Nodes snapshot ∧ id ∈ spec_SourceIDs n) as Hcount.
    { rewrite count_pos. by setoid_rewrite bool_decide_eq_true. }
    rewrite <-Herr, <-Hcount.
    destruct (decide (default "" (snap_SourceErrors snapshot !! id) ≠ "")) as [He|He];
      [naive_solver|].
    destruct (decide (0 < count _ _)); naive_solver.
  - rewrite bool_decide_eq_true. apply (healthy_count_pos _ _ (po_reg _ Hok)).
  - by apply ok_active.
  - by apply ok_active.
Qed.
End status_theorem.
