(* ===== verification/Gateway.v ===== *)
(** * app/app.go: from a configuration to a running gateway. *)
From stdpp Require Import gmap strings list fin_maps.
From S2P Require Import Prelude.
From S2P Require Import GoBase.
From S2P Require Import GoStrings.
From S2P Require Import GoCodec.
From S2P Require Import NetUrl.
From S2P Require Import GoHttp.
From S2P Require Import GoNet.
From S2P Require Import Lifecycle.
From S2P Require Import HttpProxy.
From S2P Require Import Config.
From S2P Require Import Redact.
From S2P Require Import Model.
From S2P Require Import Selector.
From S2P Require Import Registry.
From S2P Require Import Leases.
From S2P Require Import Engine.
From S2P Require Import Manager.
From S2P Require Import Fetch.
From S2P Require Import Monitor.
From S2P Require Import Notify.
From S2P Require Import Admin.
From S2P Require Import Probe.
From S2P Require Import App.
From stdpp Require Import options.

(** ** [New] *)

Section new.
Context {Box Options : Type} `{!SingBox Box Options, NetUrl, !Parser, !SeedCodec}.

(** An [App]: the state of App.v and what else [New] puts together. The selectors of the
    two proxies start empty. *)
Record Application := mkApplication {
  ga_config : Config.Config;
  ga_fetcher : HTTPFetcher;
  ga_prober : Prober;
  ga_app : App (F := Engine Box) (D := nodeDialer);
  ga_proxyConfig : HttpProxy.Config;
  ga_httpProxy : Server;
  ga_wsProxy : Server;
  ga_alerts : option (Client * Monitor);
  ga_adminHandler : Handler;
}.

Definition config_urls (cfg : Config.Config) : list string :=
  sourceURLs (gc_SubscriptionURLs cfg) (gc_WebshareFile cfg).

(** [manager.LoadSeed], if a seed file is configured. *)
Definition load_seed (o : RangeOrder) (fs : string → FileView) (cfg : Config.Config)
    : Manager * option GoError :=
  let manager := NewManager (make_sources (config_urls cfg)) in
  if decide (gc_SubscriptionSeedFile cfg = "") then (manager, None)
  else LoadSeed o (fs (gc_SubscriptionSeedFile cfg)) (gc_MaxSubscriptionSize cfg) manager.

Definition new_alerts (cfg : Config.Config) (addresses : list InterfaceAddr)
    : GoError + option (Client * Monitor) :=
  if decide (Reveal (gc_PushBaseURL cfg) = "") then inr None
  else
    err_bind (NewClient (Reveal (gc_PushBaseURL cfg)) None [gc_NotifyHostIP cfg] addresses) (λ client,
      inr (Some (client, NewMonitor (gc_LowNodeThreshold cfg) (SourceLabels (config_urls cfg))))).

(** [boxed] is the box [NewEngine] starts. On an error the engine, if there is one, has
    been closed; it is the first component. *)
Definition app_New (o : RangeOrder) (boxed : GoError + Box) (fs : string → FileView)
    (addresses : list InterfaceAddr) (cfg : Config.Config)
    : option (Engine Box) * (GoError + Application) :=
  match boxed with
  | inl err => (None, inl err)
  | inr box =>
      let engine := NewEngine box in
      let failed err := (Some (engine_Close engine).1, inl err) in
      let fetcher := NewHTTPFetcher (gc_MaxSubscriptionSize cfg) (gc_HTTPSubscriptionAllowlist cfg) in
      match load_seed o fs cfg with
      | (_, Some err) => failed err
      | (manager, None) =>
          match NewProber (gc_ProbeURL cfg) 204 (Some (mkTlsConfig VersionTLS12 "" false)) with
          | inl err => failed err
          | inr prober =>
              let proxyConfig := HttpProxy.mkConfig (Reveal (gc_Username cfg))
                (Reveal (gc_Password cfg)) (gc_DialTimeout cfg) in
              match new_alerts cfg addresses with
              | inl err => failed err
              | inr alerts =>
                  let handler := NewHandler (Reveal (gc_AdminToken cfg))
                    [Reveal (gc_Username cfg); Reveal (gc_Password cfg); Reveal (gc_AdminToken cfg)] in
                  (None, inr (mkApplication cfg fetcher prober
                    (mkApp manager (new_pool (gc_ProbeInterval cfg) engine) 0)
                    proxyConfig Lifecycle.New Lifecycle.New alerts handler))
              end
          end
      end
  end.
End new.

(** ** The background loops *)

Section loops.
Context {F D W : Type} `{Factory F D} `{Parser} (fetcher : Fetcher W) (o : RangeOrder).

(** What a loop is woken by: its context, or a ticker. *)
Inductive Tick :=
  | TickDone
  | TickRefresh (now later : Z) (pr : ProbeRound (D := D))
  | TickProbe (now : Z) (pr : ProbeRound (D := D)).

(** One turn, under the refresh lock: the new state and the error that is logged. *)
Definition background_step (tick : Tick) (a : App (F := F) (D := D)) (w : W)
    : App (F := F) (D := D) * W * option GoError :=
  match tick with
  | TickDone => (a, w, None)
  | TickRefresh now later pr => app_Refresh fetcher o now later pr a w
  | TickProbe now pr =>
      (mkApp (app_manager a) (probeDue now pr (app_pool a)) (app_lastRefresh a), w, None)
  end.

(** [true]: the loop has returned. *)
Fixpoint backgroundLoop (ticks : list Tick) (a : App (F := F) (D := D)) (w : W)
    : App (F := F) (D := D) * W * list GoError * bool :=
  match ticks with
  | [] => (a, w, [], false)
  | TickDone :: _ => (a, w, [], true)
  | tick :: rest =>
      let '(a, w, err) := background_step tick a w in
      let '(a, w, logged, done) := backgroundLoop rest a w in
      (a, w, option_list err ++ logged, done)
  end.

(** The loop of the alerts, woken by its context ([None]) or its ticker; it returns at
    once without alerts. Between two ticks the application may change: each tick comes
    with the state it finds. *)
Fixpoint alertLoop {V} (alerts : option (Sender V * Monitor))
    (ticks : list (option (App (F := F) (D := D) * Z))) (v : V)
    : option Monitor * V * list GoError * bool :=
  match alerts with
  | None => (None, v, [], true)
  | Some (sender, mon) =>
      match ticks with
      | [] => (Some mon, v, [], false)
      | None :: _ => (Some mon, v, [], true)
      | Some (a, now) :: rest =>
          let '(mon, v, failures) := alert_tick (Some sender) o now a mon v in
          let '(mon, v, failures', done) := alertLoop (Some (sender, mon)) rest v in
          (mon, v, failures ++ failures', done)
      end
  end.
End loops.

(** ** [Run] *)

(** What [Run] and [shutdown] do, in order; a goroutine is named when it starts and when
    it is waited for. *)
Inductive RunEvent :=
  | RvServe (name : string)
  | RvStart (name : string)
  | RvCancel
  | RvShutdown (name : string)
  | RvCloseEngine
  | RvWait (name : string).

Definition shutdown (closed : bool) : bool * list RunEvent :=
  if closed then (true, [])
  else (true, [RvShutdown "http"; RvShutdown "ws"; RvShutdown "admin"; RvCloseEngine]).

(** What a serving goroutine reports of the error its server returned. *)
Definition serve_result (err : GoError) : option GoError :=
  if errors_Is err ErrServerClosed then None else Some err.

Section run.
Context {W Listener : Type} (listen : string → W → W * (GoError + Listener)).
Context (close : Listener → W → W).

(** [woken] is what the [select] receives: [None] from the context, else the error with
    which one of the servers stopped. *)
Definition Run (cfg : Config.Config) (woken : option GoError) (w : W)
    : W * list RunEvent * option GoError :=
  match listenAll listen close [gc_HTTPListen cfg; gc_WSListen cfg; gc_AdminListen cfg] w with
  | (w, inl err) => (w, [], Some err)
  | (w, inr listeners) =>
      (w,
       [RvServe "http"; RvServe "ws"; RvServe "admin"; RvStart "refresh"; RvStart "background";
        RvStart "alerts"; RvCancel] ++ (shutdown false).2 ++ [RvWait "background"; RvWait "alerts"],
       woken ≫= serve_result)
  end.
End run.

(** ** Theorems *)

(** A URL the configuration lists is really requested: no check of the fetcher refuses it. *)
Lemma configured_url_requested `{NetUrl} cfg source send_oracle redirect_header fs ctx_Err log :
  config_ok cfg → source_URL source ∈ gc_SubscriptionURLs cfg →
  ∃ parsed rest, url_Parse (source_URL source) = Some parsed ∧
    (fetch (log_send send_oracle) redirect_header None fs ctx_Err
       (NewHTTPFetcher (gc_MaxSubscriptionSize cfg) (gc_HTTPSubscriptionAllowlist cfg)) source log).1 =
      log ++ wire_request (first_request parsed) :: rest.
Proof.
  intros Hcfg Hin. destruct (co_urls _ Hcfg) as [_ Hurls]. rewrite Forall_forall in Hurls.
  destruct (Hurls (source_URL source)) as (u & Hu & Hhost & Hscheme); [done|].
  exists u. unfold fetch. rewrite Hu.
  rewrite decide_False by (destruct Hscheme as [->|[-> _]]; discriminate).
  assert (bool_decide (url_Scheme u = "https") || bool_decide (url_Scheme u = "http")
    && bool_decide (source_URL source ∈ hf_allowedHTTP (NewHTTPFetcher (gc_MaxSubscriptionSize cfg)
         (gc_HTTPSubscriptionAllowlist cfg))) = true) as ->.
  { rewrite orb_true_iff, andb_true_iff, !bool_decide_eq_true. cbn.
    rewrite elem_of_list_to_set. naive_solver. }
  rewrite bool_decide_false by done. cbn [negb orb hf_maxBytes NewHTTPFetcher].
  pose proof (co_size _ Hcfg) as [Hsize _].
  replace (gc_MaxSubscriptionSize cfg <=? 0)%Z with false by lia.
  destruct (client_Do_returns redirect_header (log_send send_oracle) max_requests
    (hf_allowedHTTP (NewHTTPFetcher (gc_MaxSubscriptionSize cfg) (gc_HTTPSubscriptionAllowlist cfg)))
    (first_request u) [] log) as [[log' result] Hdo]; [unfold max_requests; simpl; lia|simpl; lia|].
  cbn [hf_allowedHTTP NewHTTPFetcher] in Hdo |- *. rewrite Hdo.
  destruct (client_Do_sends _ _ _ _ _ _ _ _ _ _ Hdo) as (rest & -> & _).
  exists rest. split; [done|]. by destruct result.
Qed.

(** The addresses of the machine's interfaces are made of sixteen-bit groups. *)
Definition addresses_ok (addresses : list InterfaceAddr) : Prop :=
  Forall (λ a, match a with IPNet ip => Forall (λ g, 0 ≤ g < 65536)%Z ip | OtherAddr => True end)
    addresses.

(** The notification client of a loaded configuration is never refused. *)
Lemma new_alerts_ok `{NetUrl} cfg addresses :
  config_ok cfg → addresses_ok addresses → ∃ alerts, new_alerts cfg addresses = inr alerts ∧
    (alerts = None ↔ Reveal (gc_PushBaseURL cfg) = "") ∧
    (∀ client mon, alerts = Some (client, mon) → mon_threshold mon = gc_LowNodeThreshold cfg).
Proof.
  intros Hcfg Haddr. unfold new_alerts. case_decide as Hpush; [by exists None|].
  destruct (co_push _ Hcfg) as [|(u & Hu & Hhttp & Hbare)]; [done|].
  unfold NewClient, host_address. rewrite Hu.
  assert (bool_decide (ParseIP (if decide (gc_NotifyHostIP cfg = "") then localIP addresses
    else gc_NotifyHostIP cfg) = None) = false) as ->.
  { apply bool_decide_eq_false. case_decide as Hip.
    - by destruct (localIP_parses addresses Haddr) as [ip ->].
    - by destruct (co_notify _ Hcfg) as [|[ip ->]]. }
  cbn [refuse err_bind]. rewrite Hhttp, Hbare. cbn [negb refuse err_bind]. eexists.
  split; [done|]. split; [done|]. intros client mon [= <- <-]. unfold NewMonitor. cbn.
  pose proof (co_threshold _ Hcfg). by destruct (Z.ltb_spec (gc_LowNodeThreshold cfg) 1); [lia|].
Qed.

Section start.
Context {Box Options : Type} `{!SingBox Box Options, NetUrl, !ConfigYaml, !Parser, !SeedCodec}.

(** C6: what the configuration accepts, the gateway can run on. Once [Load] has
    succeeded, [New] fails only if sing-box does not start, if the configured seed file
    is refused, or if the probe URL has a port but no host, and then leaves no open
    engine behind. A gateway that starts asks for a nonempty user name, password and
    admin token, verifies the certificate of its probe target, requests every
    subscription URL of the configuration, begins with an empty pool in a valid state,
    and sends alerts, below the configured threshold, exactly if a push URL is set. *)
Theorem loaded_config_starts o o' raw lookupEnv cfg (boxed : GoError + Box) fs addresses :
  Load o raw lookupEnv = inr cfg → addresses_ok addresses →
  let '(leftover, result) := app_New o' boxed fs addresses cfg in
  match result with
  | inl err =>
      match leftover with Some engine => eng_closed engine = true | None => boxed = inl err end ∧
      (boxed = inl err ∨ (gc_SubscriptionSeedFile cfg ≠ "" ∧ (load_seed o' fs cfg).2 = Some err) ∨
       ∃ u, url_Parse (gc_ProbeURL cfg) = Some u ∧ url_Host u ≠ "" ∧ Hostname u = "")
  | inr a =>
      leftover = None ∧
      cfg_Username (ga_proxyConfig a) ≠ "" ∧ cfg_Password (ga_proxyConfig a) ≠ "" ∧
      ah_token (ga_adminHandler a) ≠ "" ∧
      tls_InsecureSkipVerify (prb_tlsConfig (ga_prober a)) = false ∧
      pool_ok (app_pool (ga_app a)) ∧ reg_order (pl_reg (app_pool (ga_app a))) = [] ∧
      (∀ url, url ∈ gc_SubscriptionURLs cfg → ∃ source, source ∈ mg_sources (app_manager (ga_app a)) ∧
         source_URL source = url ∧
         ∀ oracle rh fs' ctx log, ∃ parsed rest, url_Parse url = Some parsed ∧
           (fetch (log_send oracle) rh None fs' ctx (ga_fetcher a) source log).1 =
             log ++ wire_request (first_request parsed) :: rest) ∧
      (ga_alerts a = None ↔ Reveal (gc_PushBaseURL cfg) = "") ∧
      (∀ client mon, ga_alerts a = Some (client, mon) → mon_threshold mon = gc_LowNodeThreshold cfg)
  end.
Proof.
  intros Hload%load_ok Haddr. unfold app_New. destruct boxed as [err|box]; [by split; [|left]|].
  assert (eng_closed (engine_Close (NewEngine box)).1 = true) as Hclosed
    by (unfold engine_Close; cbn; by destruct (sb_close box)).
  destruct (load_seed o' fs cfg) as [manager seedErr] eqn:Hseed.
  assert (mg_sources manager = make_sources (config_urls cfg)) as Hsources.
  { transitivity (mg_sources (load_seed o' fs cfg).1); [by rewrite Hseed|].
    unfold load_seed. case_decide; [done|]. apply load_seed_sources. }
  destruct seedErr as [err|].
  { split; [done|]. right; left. split; [|done]. intros He. unfold load_seed in Hseed.
    by rewrite decide_True in Hseed. }
  destruct (co_probe _ Hload) as (u & Hu & Hscheme & Hhost).
  destruct (NewProber (gc_ProbeURL cfg) 204 _) as [err|prober] eqn:Hprober.
  { split; [done|]. right; right. exists u. split; [done|]. split; [done|].
    unfold NewProber in Hprober. rewrite Hu, bool_decide_false in Hprober by (by intros []).
    destruct (decide (Hostname u = "")) as [|Hne]; [done|]. by rewrite bool_decide_false in Hprober. }
  destruct (new_alerts_ok cfg addresses Hload Haddr) as (alerts & -> & Halerts & Hthreshold).
  pose proof (co_secrets _ Hload) as Hsecrets. rewrite !Forall_cons in Hsecrets.
  destruct Hsecrets as (Huser & Hpass & Htoken & _).
  destruct (NewProber_ok _ _ _ _ Hprober) as (_ & _ & _ & _ & _ & Hverify & _).
  cbn [ga_proxyConfig ga_adminHandler ga_prober ga_app app_pool app_manager ga_fetcher ga_alerts
    cfg_Username cfg_Password ah_token NewHandler].
  split_and!; try done.
  - apply new_pool_ok; [apply new_engine_valid|done].
  - intros url Hurl.
    destruct (make_sources_complete (config_urls cfg) url) as (source & Hin & Hsource).
    { unfold config_urls, sourceURLs. case_decide; [done|]. apply elem_of_app. by left. }
    exists source. rewrite Hsources. split; [done|]. split; [done|]. intros oracle rh fs' ctx log.
    rewrite <-Hsource. apply configured_url_requested; [done|]. by rewrite Hsource.
Qed.
End start.

(** ** The running gateway *)

Section running.
Context {F D W : Type} `{FactoryLaws F D} `{Parser} (fetcher : Fetcher W) (o : RangeOrder).

(** What happens while the gateway runs: a turn of the background loop, a refresh asked
    for over the admin endpoint (the same turn), or what connections do to the pool. *)
Inductive GwEvent :=
  | GwTick (tick : Tick (D := D))
  | GwClient (e : PoolEvent).

Definition gw_step (aw : App (F := F) (D := D) * W) (e : GwEvent) : App (F := F) (D := D) * W :=
  let '(a, w) := aw in
  match e with
  | GwTick tick => (background_step fetcher o tick a w).1
  | GwClient e => (mkApp (app_manager a) (pool_step e (app_pool a)) (app_lastRefresh a), w)
  end.
Definition gw_run (evs : list GwEvent) (aw : App * W) : App * W := foldl gw_step aw evs.

(** Only refreshes apply snapshots. *)
Definition client_event (e : GwEvent) : Prop :=
  match e with GwClient (PvApply _ _) => False | _ => True end.

Lemma probeDue_order now (pr : ProbeRound) (p : Pool (F := F) (D := D)) :
  pool_ok p → pool_ok (probeDue now pr p) ∧ reg_order (pl_reg (probeDue now pr p)) = reg_order (pl_reg p).
Proof.
  intros Hok. unfold probeDue. rewrite foldl_runs. split.
  - by apply pool_ok_run, pool_ok_step.
  - by rewrite probe_programs_order, pool_step_order.
Qed.

Lemma gw_step_routed aw e :
  pool_ok (app_pool aw.1) → client_event e →
  pool_ok (app_pool (gw_step aw e).1) ∧
  (reg_order (pl_reg (app_pool aw.1)) ≠ [] → reg_order (pl_reg (app_pool (gw_step aw e).1)) ≠ []).
Proof.
  destruct aw as [a w]. intros Hok Hclient. cbn [fst] in *. destruct e as [[|now later pr|now pr]|e]; cbn [gw_step].
  - done.
  - cbn [background_step]. pose proof (app_refresh_cases fetcher o now later pr a w Hok) as Hcases.
    destruct (app_Refresh _ _ _ _ _ _ _) as [[a' w'] err].
    destruct (Refresh _ _ _ _) as [[m' w1] [snapshot refreshErr]].
    destruct Hcases as (_ & _ & Hok' & Hcase). cbn [fst]. split; [done|]. intros Hne.
    destruct Hcase as [(_ & -> & _)|[(_ & _ & -> & _)|(Hnodes & _ & _ & -> & _)]]; [done|done|].
    by destruct (snap_Nodes snapshot).
  - cbn [background_step fst app_pool]. destruct (probeDue_order now pr _ Hok) as [? ->]. done.
  - cbn [fst app_pool]. split; [by apply pool_ok_step|].
    rewrite pool_step_order; [done|]. intros o' snap ->. done.
Qed.

(** C7: a gateway that routes keeps routing. Through any sequence of refreshes, whatever
    their outcome, rounds of probes, and anything connections do, the pool stays in a
    valid state, and once some node is routed some node always is: no refresh, however
    it fails, ever empties the routing order. *)
Theorem routed_stays_routed a w evs evs' :
  pool_ok (app_pool a) → Forall client_event (evs ++ evs') →
  let aw := gw_run evs (a, w) in
  let aw' := gw_run evs' aw in
  pool_ok (app_pool aw.1) ∧ pool_ok (app_pool aw'.1) ∧
  (reg_order (pl_reg (app_pool aw.1)) ≠ [] → reg_order (pl_reg (app_pool aw'.1)) ≠ []).
Proof.
  intros Hok [Hevs Hevs']%Forall_app.
  assert (∀ evs aw, pool_ok (app_pool aw.1) → Forall client_event evs →
    pool_ok (app_pool (gw_run evs aw).1) ∧
    (reg_order (pl_reg (app_pool aw.1)) ≠ [] → reg_order (pl_reg (app_pool (gw_run evs aw).1)) ≠ []))
    as Hrun.
  { clear. induction evs as [|e evs IH]; intros aw Hok Hevs; [done|].
    apply Forall_cons in Hevs as [He Hevs]. destruct (gw_step_routed aw e Hok He) as [Hok' Hne].
    destruct (IH _ Hok' Hevs). split; [done|]. auto. }
  destruct (Hrun evs (a, w) Hok Hevs) as [Hok' _]. cbv zeta. split; [done|]. by apply Hrun.
Qed.
End running.

(** ** The admin endpoint of a gateway *)

Section admin.
Context {F D W : Type} `{FactoryLaws F D} `{Parser, NetUrl} (fetcher : Fetcher W) (o : RangeOrder).

(** The application as the provider of the admin handlers: the clocks and probes of a
    refresh are fixed, [http] and [ws] are the two proxies. *)
Context (urls : list string) (http ws : Server) (now later : Z) (pr : ProbeRound (D := D)).
#[local] Instance app_provider : Provider (App (F := F) (D := D) * W) := {|
  provider_Status := λ aw, app_Status o urls http ws aw.1;
  provider_Refresh := λ aw, app_Refresh fetcher o now later pr aw.1 aw.2;
|}.
Context (time_text : Z → option string)
  (redirect : string → AdminRequest → ResponseWriter → ResponseWriter).

(** The program after some requests to its admin endpoint. *)
Definition admin_requests (handler : Handler) (rqs : list AdminRequest) (aw : App * W) : App * W :=
  foldl (λ aw rq, (admin_ServeHTTP o time_text redirect handler rq aw (mkRW ∅ None "")).1) aw rqs.

(** C10: over the network nobody without the token moves the gateway. The handler [New]
    makes of a loaded configuration leaves application, pool and sources alone through any
    number of requests without an Authorization header; a POST of /refresh with the admin
    token is exactly one [Refresh], after which the pool is still in a valid state. What
    the status shows of an error of a source contains no HTTP or HTTPS URL, and it is the
    error with nonempty stretches replaced by letters of the marks, so that none of the
    three credentials, whatever they are, occurs in a stretch that was kept; a credential
    that cannot overlap a mark (it has no bracket and is not a part of REDACTED) does not
    occur in the text at all. *)
Theorem gateway_admin_is_guarded `{ConfigYaml} oc raw lookupEnv cfg rqs aw :
  Load oc raw lookupEnv = inr cfg → pool_ok (app_pool aw.1) →
  Forall (λ rq, ar_Header rq !! "Authorization" = None) rqs →
  let handler := NewHandler (Reveal (gc_AdminToken cfg))
    [Reveal (gc_Username cfg); Reveal (gc_Password cfg); Reveal (gc_AdminToken cfg)] in
  let authorized := mkAdminRequest "POST" "/refresh"
    {["Authorization" := ["Bearer " +:+ Reveal (gc_AdminToken cfg)]]} in
  admin_requests handler rqs aw = aw ∧
  admin_requests handler (rqs ++ [authorized]) aw =
    (app_Refresh fetcher o now later pr aw.1 aw.2).1 ∧
  pool_ok (app_pool (admin_requests handler (rqs ++ [authorized]) aw).1) ∧
  (∀ id text, sta_SourceErrors (served_status o handler aw) !! id = Some text → url_free text ∧
     (∃ original, sta_SourceErrors (app_Status o urls http ws aw.1) !! id = Some original ∧
        redaction (ah_secrets handler) original text) ∧
     ∀ secret, secret ∈ ah_secrets handler → plain_secret secret → Contains text secret = false).
Proof.
  intros Hload%load_ok Hok Hrqs. cbv zeta.
  pose proof (co_secrets _ Hload) as Hsecrets. rewrite !Forall_cons in Hsecrets.
  destruct Hsecrets as (_ & _ & Htoken & _).
  set (handler := NewHandler _ _).
  assert (admin_requests handler rqs aw = aw) as Hsame.
  { unfold admin_requests. induction Hrqs as [|rq rqs Hrq _ IH]; [done|]. cbn [foldl].
    unfold handler in *. by rewrite admin_without_header. }
  assert (admin_requests handler (rqs ++ [mkAdminRequest "POST" "/refresh"
      {["Authorization" := ["Bearer " +:+ Reveal (gc_AdminToken cfg)]]}]) aw =
    (app_Refresh fetcher o now later pr aw.1 aw.2).1) as Hrefresh.
  { unfold admin_requests in *. rewrite foldl_snoc, Hsame. unfold admin_ServeHTTP.
    cbn [ah_mux handler NewHandler ar_Method ar_Path].
    change (mux_route _ "POST" "/refresh") with (ToHandler RefreshEndpoint). cbv iota beta.
    unfold refresh, token_matches. cbn [ar_Header ah_token handler NewHandler].
    rewrite bool_decide_true by apply bearer_token. cbn [negb provider_Refresh app_provider].
    by destruct (app_Refresh _ _ _ _ _ _ _) as [aw' [err|]]. }
  split; [done|]. split; [done|]. split; cycle 1.
  { intros id text. unfold served_status. cbn [set_source_errors sta_SourceErrors].
    rewrite cloneAndRedact_fmap, lookup_fmap_Some. intros (original & <- & Horiginal).
    split; [|split; [exists original; split; [exact Horiginal|apply text_is_redaction]|]; intros secret;
      by apply text_hides_secrets]. apply text_hides_urls.
    pose proof (co_trimmed _ Hload) as Htrim. rewrite !Forall_cons in Htrim.
    destruct Htrim as ([u Hu] & [p Hp] & [t Ht] & _). unfold handler. cbn [ah_secrets NewHandler].
    rewrite Hu, Hp, Ht. repeat apply List.Forall_cons; try apply List.Forall_nil;
      apply TrimSpace_visible. }
  rewrite Hrefresh. pose proof (app_refresh_cases fetcher o now later pr aw.1 aw.2 Hok) as Hcases.
  destruct (app_Refresh _ _ _ _ _ _ _) as [[a' w'] err].
  destruct (Refresh _ _ _ _) as [[m' w1] [snapshot refreshErr]]. apply Hcases.
Qed.
End admin.

(** ** Stopping *)

(** C20: the gateway serves on all of its addresses or on none, and stops in order. If an
    address cannot be opened, the ones opened before are closed again, nothing was
    started, and the error says so. Otherwise it serves on three distinct servers; when
    it stops, for a signal or because a server did, the loops are cancelled, then the
    proxies and the admin server are shut down, and only then is the engine closed, once,
    so that no connection being drained loses its outbound; the loops are waited for, and
    the error is nil unless a server stopped for another reason than being closed. *)
Theorem run_all_or_nothing {Listener} (oracle : nat → string → GoError + Listener) cfg woken :
  let '(log, trace, err) := Run (log_listen oracle) log_close cfg woken [] in
  (trace = [] ∧ ∃ opened cause, err = Some (Errorf_w "listen on configured address: " cause) ∧
     length opened < 3 ∧ log = (LvOpened <$> opened) ++ (LvClosed <$> opened)) ∨
  (∃ http ws admin before after,
     log = [LvOpened http; LvOpened ws; LvOpened admin] ∧
     trace = before ++ RvCloseEngine :: after ∧
     (∀ name, name ∈ ["http"; "ws"; "admin"] → RvServe name ∈ before ∧ RvShutdown name ∈ before) ∧
     RvCancel ∈ before ∧ (RvCloseEngine ∉ before ++ after) ∧
     (∀ name, (RvServe name ∉ after) ∧ (RvStart name ∉ after)) ∧
     (∀ name, RvStart name ∈ before → name = "refresh" ∨ RvWait name ∈ after) ∧
     (shutdown (shutdown false).1).2 = [] ∧
     (err = None ↔ ∀ e, woken = Some e → errors_Is e ErrServerClosed = true)).
Proof.
  unfold Run.
  pose proof (listen_all_or_nothing oracle [gc_HTTPListen cfg; gc_WSListen cfg; gc_AdminListen cfg])
    as Hlisten.
  destruct (listenAll _ _ _ _) as [log [err|ls]].
  { left. split; [done|]. destruct Hlisten as (opened & cause & -> & ? & ->). eauto. }
  right. destruct Hlisten as [Hlen ->].
  destruct ls as [|http [|ws [|admin [|]]]]; try discriminate Hlen.
  exists http, ws, admin,
    [RvServe "http"; RvServe "ws"; RvServe "admin"; RvStart "refresh"; RvStart "background";
     RvStart "alerts"; RvCancel; RvShutdown "http"; RvShutdown "ws"; RvShutdown "admin"],
    [RvWait "background"; RvWait "alerts"].
  split; [done|]. split; [done|]. split.
  { intros name Hname. rewrite !elem_of_cons, elem_of_nil in Hname. rewrite !elem_of_cons. naive_solver. }
  split; [rewrite !elem_of_cons; naive_solver|].
  split; [intros Hin; rewrite elem_of_app, !elem_of_cons, !elem_of_nil in Hin; naive_solver|].
  split; [intros name; split; intros Hin; rewrite !elem_of_cons, elem_of_nil in Hin; naive_solver|].
  split; [intros name Hin; rewrite !elem_of_cons, elem_of_nil in Hin; rewrite !elem_of_cons; naive_solver|].
  split; [done|]. destruct woken as [e|]; [|naive_solver]. unfold serve_result. simpl.
  destruct (errors_Is e ErrServerClosed) eqn:He; [naive_solver|]. split; [done|].
  intros Hall. specialize (Hall e eq_refl). congruence.
Qed.
