(* ===== verification/FixedEgress.v ===== *)
(** * cmd/fixed-egress/main.go: an HTTP proxy through one fixed node. *)
From stdpp Require Import gmap strings list fin_maps.
From S2P Require Import Prelude.
From S2P Require Import GoBase.
From S2P Require Import GoStrings.
From S2P Require Import HttpProxy.
From S2P Require Import Model.
From S2P Require Import Selector.
From S2P Require Import Registry.
From S2P Require Import Leases.
From S2P Require Import Engine.
From S2P Require Import Manager.
From S2P Require Import Fetch.
From S2P Require Import App.
From S2P Require Import Gateway.
From stdpp Require Import options.

Section fixed.
Context {Box Options : Type} `{!SingBox Box Options, !Parser}.

Definition singleNode (file : FileView) : GoError + NodeSpec :=
  refuse (negb (fv_open file)) "cannot open node configuration" (
  match read_limited file (2 ^ 20 + 1) with
  | None => inl (ErrNew "invalid node configuration size")
  | Some b =>
      refuse (2 ^ 20 <? Z.of_nat (String.length b))%Z "invalid node configuration size" (
      match Parse b "application/json" with
      | inr [node] => inr node
      | _ => inl (ErrNew "fixed proxy requires exactly one valid node")
      end)
  end).

(** What [serve] sets up before it listens: the configuration of the proxy and the pool.
    On an error the engine, if there is one, has been closed; it is the first component. *)
Definition fixed_start (o : RangeOrder) (user password : string) (file : FileView)
    (boxed : GoError + Box) (now : Z)
    : option (Engine Box) * (GoError + (HttpProxy.Config * Pool (F := Engine Box) (D := nodeDialer))) :=
  if decide (user = "" ∨ password = "") then (None, inl (ErrNew "proxy credentials required"))
  else
    match singleNode file with
    | inl err => (None, inl err)
    | inr node =>
        match boxed with
        | inl err => (None, inl err)
        | inr box =>
            let snapshot := mkSnapshot ∅ [node] ∅ in
            let p := new_pool Second (NewEngine box) in
            match Apply o snapshot (pl_reg p) (pl_fac p) with
            | (_, engine, inl err) => (Some (engine_Close engine).1, inl err)
            | (_, _, inr _) =>
                let p := pool_step (PvApply o snapshot) p in
                (None, inr (HttpProxy.mkConfig user password (15 * Second),
                            pool_step (PvMarkSuccess (spec_ID node) 0 now) p))
            end
        end
    end.

(** [serve]: [woken] is what its [select] receives; [p'] is the pool when it stops. The
    last component is the engine at the end. *)
Definition serve {W Listener : Type} (listen : string → W → W * (GoError + Listener))
    (o : RangeOrder) (address user password : string) (file : FileView) (boxed : GoError + Box)
    (now : Z) (woken : option GoError) (p' : Pool (F := Engine Box) (D := nodeDialer)) (w : W)
    : W * list RunEvent * option GoError * option (Engine Box) :=
  match fixed_start o user password file boxed now with
  | (leftover, inl err) => (w, [], Some err, leftover)
  | (_, inr (_, p)) =>
      match listen address w with
      | (w, inl err) => (w, [RvCloseEngine], Some err, Some (engine_Close (pl_fac p)).1)
      | (w, inr _) =>
          (w, [RvServe "fixed"; RvShutdown "fixed"; RvCloseEngine], woken ≫= serve_result,
           Some (engine_Close (pl_fac p')).1)
      end
  end.

(** ** Theorems *)

Lemma closed_engine (e : Engine Box) : eng_closed (engine_Close e).1 = true.
Proof. unfold engine_Close. destruct (eng_closed e) eqn:He; [done|]. by destruct (sb_close _). Qed.

(** The node configuration is a file that can be opened and read, of at most one mebibyte,
    from which exactly one node is parsed. *)
Lemma singleNode_spec file node :
  singleNode file = inr node ↔
  fv_open file = true ∧ fv_readable file = true ∧
  (Z.of_nat (String.length (fv_content file)) ≤ 1048576)%Z ∧
  Parse (fv_content file) "application/json" = inr [node].
Proof.
  unfold singleNode, read_limited. rewrite refuse_inr, negb_false_iff.
  change (2 ^ 20 + 1)%Z with 1048577%Z. change (2 ^ 20)%Z with 1048576%Z.
  destruct (fv_readable file); [|by split; [intros [_ ?]|intros (_ & ? & _)]]. rewrite refuse_inr.
  destruct (Z.leb_spec (Z.of_nat (String.length (fv_content file))) 1048576) as [Hle|Hgt].
  - rewrite substring_all by lia.
    split; [intros (? & _ & Hp)|intros (? & _ & _ & ->); split_and!; [done|lia|done]].
    split_and!; [done..|]. destruct (Parse _ _) as [|[|n [|]]]; by simplify_eq.
  - rewrite substring_length, Z2Nat.id by lia. split; [intros (_ & ? & _); lia|intros (_ & _ & ? & _); lia].
Qed.

(** Any other number of nodes is refused. *)
Lemma singleNode_other file nodes :
  fv_open file = true → fv_readable file = true →
  (Z.of_nat (String.length (fv_content file)) ≤ 1048576)%Z →
  Parse (fv_content file) "application/json" = inr nodes → length nodes ≠ 1 →
  singleNode file = inl (ErrNew "fixed proxy requires exactly one valid node").
Proof.
  intros Hopen Hread Hlen Hp Hn. unfold singleNode, read_limited. rewrite Hopen, Hread.
  cbn [negb refuse]. rewrite substring_all by lia.
  replace (2 ^ 20 <? Z.of_nat (String.length (fv_content file)))%Z with false by lia.
  cbn [refuse]. rewrite Hp. by destruct nodes as [|? [|]].
Qed.

(** C22: the fixed proxy serves exactly its node, to clients with credentials. Once it has
    started, its user name and password are not empty, its file can be opened and read, has
    at most one mebibyte and parses to exactly one node, and that node is the only routed
    one, routed as healthy at once: a connection gets a lease on its live dialer. If it
    does not start, no engine is left open; a file that parses to no node or to several
    ones keeps it from starting, whatever the nodes are. *)
Theorem fixed_egress_routes_its_node o user password file boxed now :
  let '(leftover, result) := fixed_start o user password file boxed now in
  (∀ nodes, user ≠ "" → password ≠ "" → fv_open file = true → fv_readable file = true →
     (Z.of_nat (String.length (fv_content file)) ≤ 1048576)%Z →
     Parse (fv_content file) "application/json" = inr nodes → length nodes ≠ 1 →
     leftover = None ∧ result = inl (ErrNew "fixed proxy requires exactly one valid node")) ∧
  match result with
  | inl _ => match leftover with Some engine => eng_closed engine = true | None => True end
  | inr (cfg, p) =>
      leftover = None ∧ user ≠ "" ∧ password ≠ "" ∧
      credentials cfg = user +:+ ":" +:+ password ∧ pool_ok p ∧
      ∃ node, fv_open file = true ∧ fv_readable file = true ∧
        (Z.of_nat (String.length (fv_content file)) ≤ 1048576)%Z ∧
        Parse (fv_content file) "application/json" = inr [node] ∧
        RoutingSnapshot (pl_reg p) = [mkCandidate (spec_ID node) true false] ∧
        ∃ l, (Acquire (spec_ID node) false (pl_reg p)).2 = Some l ∧ lease_Dialer l ∈ live (pl_fac p)
  end.
Proof.
  assert (∀ nodes, user ≠ "" → password ≠ "" → fv_open file = true → fv_readable file = true →
     (Z.of_nat (String.length (fv_content file)) ≤ 1048576)%Z →
     Parse (fv_content file) "application/json" = inr nodes → length nodes ≠ 1 →
     fixed_start o user password file boxed now =
       (None, inl (ErrNew "fixed proxy requires exactly one valid node"))) as Hother.
  { intros nodes ? ? ? ? ? Hp Hn. unfold fixed_start. rewrite decide_False by tauto.
    by rewrite (singleNode_other file nodes). }
  destruct (fixed_start o user password file boxed now) as [leftover result] eqn:Hstart.
  split.
  { intros nodes ? ? ? ? ? ? ?. specialize (Hother nodes).
    assert ((leftover, result) = (None, inl (ErrNew "fixed proxy requires exactly one valid node"))) as Heq by auto.
    by simplify_eq. }
  clear Hother. revert Hstart.
  unfold fixed_start. case_decide as Hcred; [by intros [= <- <-]|].
  destruct (singleNode file) as [err|node] eqn:Hnode; [by intros [= <- <-]|].
  apply singleNode_spec in Hnode as (Hopen & Hread & Hlen & Hparse).
  destruct boxed as [err|box]; [by intros [= <- <-]|].
  set (snapshot := mkSnapshot ∅ [node] ∅).
  assert (pool_ok (new_pool Second (NewEngine box))) as Hok0
    by (apply new_pool_ok; [apply new_engine_valid|done]).
  pose proof (pool_ok_step _ (PvApply o snapshot) Hok0) as Hok1.
  set (p1 := pool_step (PvApply o snapshot) _) in *.
  destruct (Apply o snapshot _ _) as [[reg engine] [err|diff]] eqn:Happly;
    [intros [= <- <-]; apply closed_engine|]. intros Heq.
  destruct (apply_success _ _ _ _ _ _ _ (ro_valid _ _ (po_reg _ Hok0)) Happly)
    as (wanted & built & Hwanted & _ & _ & _ & _ & _ & Horder & _).
  assert (pl_reg p1 = reg) as Hreg by (unfold p1; cbn in Happly |- *; by rewrite Happly).
  assert (reg_order (pl_reg p1) = [spec_ID node]) as Hids.
  { rewrite Hreg, Horder. cbn in Hwanted. case_decide; [done|].
    simplify_eq. rewrite insert_empty, dom_singleton_L, elements_singleton. done. }
  destruct (proj1 (ro_order_elem _ _ (spec_ID node) (po_reg _ Hok1))) as (st & Hst & Hrem);
    [rewrite Hids; by left|].
  pose proof (pool_ok_step _ (PvMarkSuccess (spec_ID node) 0 now) Hok1) as Hok2.
  set (p2 := pool_step (PvMarkSuccess (spec_ID node) 0 now) p1) in *.
  assert (reg_order (pl_reg p2) = [spec_ID node]) as Hids2
    by (unfold p2; by rewrite pool_step_order).
  assert (∃ st2, reg_nodes (pl_reg p2) !! spec_ID node = Some st2 ∧ ns_removed st2 = false ∧
    ns_healthy st2 = true) as (st2 & Hst2 & Hrem2 & Hhealthy).
  { unfold p2, pool_step. cbn [pl_reg]. unfold MarkSuccess. rewrite Hst, Hrem.
    cbn [fst set_nodes reg_nodes]. rewrite lookup_insert_eq. by eexists. }
  assert (leftover = None ∧ result = inr (HttpProxy.mkConfig user password (15 * Second), p2)) as [-> ->]
    by (by injection Heq as <- <-).
  split_and!; [done|tauto|tauto|done|done|]. exists node. do 4 (split; [done|]). split.
  - pose proof (routing_ids _ _ (po_reg _ Hok2)) as Hrouting. rewrite Hids2 in Hrouting.
    destruct (RoutingSnapshot (pl_reg p2)) as [|c [|]] eqn:Hsnapshot; try discriminate Hrouting.
    destruct (routing_candidate _ _ c (po_reg _ Hok2)) as (st3 & Hst3 & _ & Hsome & _);
      [rewrite Hsnapshot; by left|].
    injection Hrouting as Hid. rewrite Hid in Hst3.
    destruct Hsome as [He Hh]; [by exists (spec_ID node), st2|].
    assert (st3 = st2) as -> by congruence.
    destruct c as [i e h]. cbn [cand_ID cand_Eligible cand_HalfOpen] in Hid, He, Hh. by rewrite Hid, He, Hh, Hhealthy.
  - unfold Acquire. rewrite Hst2, Hrem2, Hhealthy. cbn. eexists. split; [done|]. cbn.
    apply (ro_live _ _ (po_reg _ Hok2)). eauto.
Qed.
End fixed.
