(* ===== verification/Witnesses.v ===== *)
(** * Witnesses: the properties that have hypotheses, applied to concrete runs. *)
From stdpp Require Import gmap strings list fin_maps relations.
From S2P Require Import Prelude.
From S2P Require Import GoBase.
From S2P Require Import GoStrings.
From S2P Require Import GoHash.
From S2P Require Import GoCodec.
From S2P Require Import GoHttp.
From S2P Require Import Model.
From S2P Require Import Selector.
From S2P Require Import Registry.
From S2P Require Import Leases.
From S2P Require Import Engine.
From S2P Require Import MemFactory.
From S2P Require Import Manager.
From S2P Require Import JsonValue.
From S2P Require Import NetUrl.
From S2P Require Import ParseNodes.
From S2P Require Import Supply.
From S2P Require Import Monitor.
From S2P Require Import Session.
From S2P Require Import HttpProxy.
From S2P Require Import Lifecycle.
From S2P Require Import Admin.
From S2P Require Import App.
From S2P Require Import Config.
From S2P Require Import Fetch.
From S2P Require Import Probe.
From S2P Require Import Notify.
From S2P Require Import Gateway.
From stdpp Require Import options.

(** ** Selector *)

Definition three : list Candidate :=
  [mkCandidate "a" true false; mkCandidate "b" false false; mkCandidate "c" true false].

(** Two concurrent attempts, finished in either order. *)
Definition overlap : list SelEvent :=
  [EvBegin three; EvBegin three; EvNext 0; EvNext 1; EvCommit 0 "a"; EvCommit 1 "c"].
Definition overlap' : list SelEvent :=
  [EvBegin three; EvBegin three; EvNext 0; EvNext 1; EvCommit 1 "c"; EvCommit 0 "a"].

Lemma overlap_quiescent : quiescent (sel_run overlap) ∧ quiescent (sel_run overlap').
Proof.
  assert (Forall (λ a, at_reserved a = true → at_finished a = true) (sys_attempts (sel_run overlap)) ∧
    Forall (λ a, at_reserved a = true → at_finished a = true) (sys_attempts (sel_run overlap')))
    as [H1 H2] by (split; vm_compute; repeat (constructor; [reflexivity|]); constructor).
  rewrite Forall_forall in H1, H2. by split.
Qed.

Lemma selector_cursor_witness :
  (budget overlap < 2 ^ 64)%Z ∧ cursor (sys_sel (sel_run overlap)) = 3%Z ∧
  committed_max (λ t, (t < retireTicket (sys_sel (sel_run overlap)))%Z)
    (sys_done (sel_run overlap)) (cursor (sys_sel (sel_run overlap))).
Proof.
  split; [reflexivity|]. split; [vm_compute; reflexivity|].
  apply (selector_cursor_tracks_retired_commits overlap). reflexivity.
Defined.

Lemma selector_order_witness : sys_sel (sel_run overlap) = sys_sel (sel_run overlap').
Proof.
  apply (selector_finish_order_irrelevant overlap overlap').
  - reflexivity.
  - reflexivity.
  - apply overlap_quiescent.
  - apply overlap_quiescent.
  - vm_compute. reflexivity.
  - vm_compute. reflexivity.
Defined.

Lemma sequential_round_robin_witness :
  at_start (Begin three (Abort ((Begin three NewSelector).1,
    (draws 1 (Begin three NewSelector).2).1)).1).2 = 0.
Proof.
  destruct (sequential_round_robin three NewSelector 1
    (draws 1 (Begin three NewSelector).2).1 (draws 1 (Begin three NewSelector).2).2)
    as (_ & _ & Hstart & _).
  - repeat split; vm_compute; congruence.
  - discriminate.
  - reflexivity.
  - reflexivity.
  - apply surjective_pairing.
  - rewrite Hstart. vm_compute. reflexivity.
Defined.

(** ** Registry *)

(** A pool on which node "a" is in use and "b" idle, both quarantined. *)
Definition demo : Pool :=
  pool_run (new_pool 5 mem_empty) [PvApply canonical_order two_nodes; PvAcquire "a" true].

Lemma demo_ok : pool_ok demo.
Proof. apply pool_ok_run, new_pool_ok; [apply mem_empty_valid|done]. Qed.

Lemma apply_failure_witness :
  (Apply canonical_order one_bad (pl_reg demo) (pl_fac demo)).2 = inl (ErrNew "bad node") ∧
  (Apply canonical_order one_bad (pl_reg demo) (pl_fac demo)).1.1 = pl_reg demo.
Proof.
  split; [vm_compute; reflexivity|].
  apply (apply_failure_is_atomic canonical_order one_bad (pl_reg demo) (pl_fac demo)
    (Apply canonical_order one_bad (pl_reg demo) (pl_fac demo)).1.1
    (Apply canonical_order one_bad (pl_reg demo) (pl_fac demo)).1.2 (ErrNew "bad node")).
  - apply (ro_valid _ _ (po_reg _ demo_ok)).
  - vm_compute. reflexivity.
Defined.

Definition only_c : Snapshot := mkSnapshot ∅ [node "c" "vless" ["1"]] ∅.

Lemma apply_reconciles_witness :
  let out := Apply canonical_order only_c (pl_reg demo) (pl_fac demo) in
  out.2 = inr (mkDiff 1 2 0) ∧ reg_ok out.1.1 out.1.2 ∧ reg_order out.1.1 = ["c"].
Proof.
  cbv zeta. split; [vm_compute; reflexivity|]. split; [|vm_compute; reflexivity].
  apply (apply_reconciles canonical_order only_c (pl_reg demo) (pl_fac demo) _ _ (mkDiff 1 2 0)
    (po_reg _ demo_ok)).
  vm_compute. reflexivity.
Defined.

Lemma routing_agrees_witness : cand_ID <$> RoutingSnapshot (pl_reg demo) = ["a"; "b"].
Proof.
  rewrite (proj1 (routing_agrees_with_acquire (pl_reg demo) (pl_fac demo) (po_reg _ demo_ok))).
  vm_compute. reflexivity.
Defined.

Lemma stats_classify_witness :
  st_Total (PoolStats (pl_reg demo)) = 2 ∧ st_Quarantined (PoolStats (pl_reg demo)) = 2 ∧
  (0 < st_Healthy (PoolStats (pl_reg demo)) ↔ some_healthy (pl_reg demo)).
Proof.
  split; [vm_compute; reflexivity|]. split; [vm_compute; reflexivity|].
  apply (stats_classify_nodes (pl_reg demo) (pl_fac demo) (po_reg _ demo_ok)).
Defined.

(** ** Leases *)

Definition demo_events : list PoolEvent :=
  [PvApply canonical_order two_nodes; PvAcquire "a" true; PvApply canonical_order only_c].

Lemma open_lease_witness :
  (0, "a") ∈ live (pl_fac (pool_run (new_pool 5 mem_empty) demo_events)).
Proof.
  apply (open_lease_protects_dialer 5 mem_empty demo_events (mkLease "a" (0, "a") true)).
  - apply mem_empty_valid.
  - reflexivity.
  - vm_compute. by left.
Defined.

Lemma lease_accounting_witness :
  ∃ st, reg_nodes (pl_reg (pool_run (new_pool 5 mem_empty) demo_events)) !! "a" = Some st ∧
    ns_removed st = true ∧ ns_probing st = true ∧ ns_active st = 1 ∧
    (ns_probing st = true ↔ ∃ lc, lc ∈ pl_leases (pool_run (new_pool 5 mem_empty) demo_events) ∧
       gated_on "a" lc = true).
Proof.
  eexists. split; [vm_compute; reflexivity|]. do 3 (split; [reflexivity|]).
  apply (lease_accounting_exact 5 mem_empty demo_events "a").
  - apply mem_empty_valid.
  - reflexivity.
  - vm_compute. reflexivity.
Defined.

Lemma closed_leases_witness :
  size (live (pl_fac (pool_run (new_pool 5 mem_empty) (demo_events ++ [PvClose 0])))) = 1.
Proof.
  destruct (closed_leases_leave_no_dialer 5 mem_empty (demo_events ++ [PvClose 0]))
    as (_ & Hsize & _).
  - apply mem_empty_valid.
  - reflexivity.
  - intros l Hl. vm_compute in Hl.
    by apply list_elem_of_singleton in Hl.
  - rewrite Hsize. vm_compute. reflexivity.
Defined.

(** ** Manager *)

(** A parser that reads one node from a body, its ID being the body. *)
#[export] Instance demo_parser : Parser := {|
  Parse := λ body hint,
    if decide (body = "") then inl (ErrNew "no recognized proxy nodes")
    else inr [node body "vless" []];
|}.

(** The source at "good" answers, any other fails. *)
Definition demo_fetcher : Fetcher unit :=
  mkFetcher (λ s w, (w, inl (ErrNew "no metadata")))
    (Some (λ s w, (w, if decide (source_URL s = "good") then inr ("n1", "", 7%Z)
                      else inl (ErrNew "source fetch failed")))).

Definition demo_sources : list Source := [mkSource "1" "good"; mkSource "2" "down"].

Lemma refresh_witness :
  (Refresh demo_fetcher canonical_order (NewManager demo_sources) tt).2.2 =
    Some (ErrNew "subscription refresh failed for source(s): 2") ∧
  mg_bySource (Refresh demo_fetcher canonical_order (NewManager demo_sources) tt).1.1 !! "1" =
    Some [node "n1" "vless" ["1"]].
Proof.
  assert (NoDup (source_ID <$> mg_sources (NewManager demo_sources))) as Hnd
    by (apply (bool_decide_unpack _); vm_compute; exact I).
  pose proof (refresh_source_by_source demo_fetcher canonical_order (NewManager demo_sources) tt Hnd)
    as Hr.
  destruct (fetch_all _ _ _) as [w1 rs] eqn:Hf.
  destruct (Refresh _ _ _ _) as [[m' w2] [snap err]] eqn:Hre.
  destruct Hr as (_ & _ & _ & _ & _ & Hsrc & _ & _). cbn [fst snd].
  vm_compute in Hf. injection Hf as <- <-. split.
  - change err with ((m', w2, (snap, err)).2.2). rewrite <-Hre. vm_compute. reflexivity.
  - destruct (Hsrc 0 (mkSource "1" "good") (inr ("n1", "", 7%Z)) eq_refl eq_refl) as (_ & Hby & _).
    transitivity (Some [node "n1" "vless" ["1"]] ∪ mg_bySource (NewManager demo_sources) !! "1");
      [|reflexivity].
    exact Hby.
Defined.

#[export] Instance demo_codec : SeedCodec := {|
  unmarshal_seeds := λ b, if decide (b = "seed") then Some [mkSeed (sha256_hex "good") "n9" "" 3] else None;
|}.

Definition demo_file : FileView := mkFileView (Some (true, 384%Z)) true "seed" true.

Lemma load_seed_witness :
  (LoadSeed canonical_order demo_file 100 (NewManager demo_sources)).2 = None ∧
  mg_bySource (LoadSeed canonical_order demo_file 100 (NewManager demo_sources)).1 !! "1" =
    Some [node "n9" "vless" ["1"]].
Proof.
  split; [vm_compute; reflexivity|].
  destruct (load_seed_all_or_nothing canonical_order demo_file 100 (NewManager demo_sources)
    (LoadSeed canonical_order demo_file 100 (NewManager demo_sources)).1 None)
    as (perm & entries & _ & _ & _ & _ & Hu & _ & Hall & _).
  - reflexivity.
  - vm_compute. reflexivity.
  - vm_compute in Hu. injection Hu as <-.
    destruct (Hall _ ltac:(by left)) as (s & parsed & Hs & Hsha & Hp & _ & Hby & _).
    apply elem_of_cons in Hs as [->|Hs]; [|apply list_elem_of_singleton in Hs as ->; vm_compute in Hsha; discriminate Hsha].
    vm_compute in Hp. injection Hp as <-. exact Hby.
Defined.

(** ** Parsing *)

(** One URI, and one JSON document with a proxy, a selector and an entry that is no
    object. No number of the documents has a fraction. *)
#[export] Instance demo_url : NetUrl := {|
  url_Parse := λ s,
    if decide (s = "http://bob:pw@10.0.0.1:8080#fast")
    then Some (mkURL "http" (Some ("bob", Some "pw")) "10.0.0.1:8080" "" "" "fast")
    else if decide (s = "https://sub.example/list")
    then Some (mkURL "https" None "sub.example" "/list" "" "")
    else if decide (s = "https://cp.cloudflare.com/generate_204")
    then Some (mkURL "https" None "cp.cloudflare.com" "/generate_204" "" "") else None;
  url_String := url_Host;
  url_ParseQuery := λ _, ∅;
|}.
#[export] Instance demo_float : FloatText := {| float_text := λ _, None; other_text := λ _, None |}.

Definition demo_vless : GoMap :=
  {[ "type" := str "VLESS"; "tag" := str "n1"; "uuid" := str "id" ]}.
Definition demo_document : list Value :=
  [VMap demo_vless; VMap {[ "type" := str "selector" ]}; VNil].
#[export] Instance demo_decoders : Decoders := {|
  json_Unmarshal := λ s,
    if decide (s = "document") then Some (VMap {[ "outbounds" := VArr demo_document ]}) else None;
  yaml_Unmarshal := λ _, None;
|}.

Lemma http_proxy_identity_witness :
  ∃ node node', webshare_record "10.0.0.1:8080:bob:pw" = inr node ∧
    uri_line "http://bob:pw@10.0.0.1:8080#fast" = inr (Some node', false) ∧
    spec_ID node' = spec_ID node ∧ spec_Tag node' = "fast".
Proof.
  destruct (webshare_record "10.0.0.1:8080:bob:pw") as [|node] eqn:Hw;
    [vm_compute in Hw; discriminate Hw|].
  destruct (http_proxy_identity "10.0.0.1:8080:bob:pw" "10.0.0.1" "8080" "bob" "pw" node)
    as [Huri _]; [vm_compute; reflexivity|exact Hw|].
  edestruct (Huri "http://bob:pw@10.0.0.1:8080#fast") as (node' & Hn & Hid & Htag);
    [vm_compute; reflexivity..|].
  exists node, node'. split; [reflexivity|]. split; [exact Hn|]. split; [exact Hid|exact Htag].
Defined.

Lemma json_complete_witness :
  ∃ node, parseJSON canonical_order "document" = Some (inr [node]) ∧
    spec_Type node = "vless" ∧ Marshal (VMap demo_vless) = Some (spec_Options node).
Proof.
  assert (expressible (VMap {[ "outbounds" := VArr demo_document ]})) as Hx.
  { apply expressible_singleton. constructor; [exact I|]. cbn [children].
    repeat apply List.Forall_cons; [..|apply List.Forall_nil].
    - apply expressible_insert; [apply expressible_insert; [apply expressible_singleton|]|];
        apply expressible_leaf.
    - apply expressible_singleton, expressible_leaf.
    - constructor; [exact I|apply List.Forall_nil]. }
  pose proof (json_subscription_complete canonical_order "document" _ demo_document eq_refl Hx
    ltac:(vm_compute; reflexivity) ltac:(right; eexists; split; reflexivity)) as Hc.
  destruct (parseJSON _ _) as [[err|nodes]|] eqn:Hp; [|..|destruct Hc].
  - vm_compute in Hp. discriminate.
  - destruct Hc as [Hnodes _].
    assert (filter supported_entry demo_document = [VMap demo_vless]) as Hf by (vm_compute; reflexivity).
    rewrite Hf in Hnodes. apply Forall2_cons_inv_l in Hnodes as (node & rest & Hnode & Hrest & ->).
    apply Forall2_nil_inv_l in Hrest as ->. exists node. split; [reflexivity|].
    destruct Hnode as (item & sent & c & text & id_text & [= <-] & Hsent & _ & Htext & _ & ->).
    assert (sent = demo_vless) as -> by (destruct Hsent as [(tls & (_ & Htls & _) & _)|[-> _]];
      [vm_compute in Htls; discriminate Htls|reflexivity]).
    split; [vm_compute; reflexivity|exact Htext].
Defined.

(** ** Monitor *)

(** A sender that fails the first time it is called. *)
Definition flaky : Sender nat :=
  λ title body w, (S w, if decide (w = 0) then Some (ErrNew "down") else None).

Definition failing : gmap string string := {[ "1" := "source 1 fetch failed" ]}.
Definition healthy_stats : Stats := mkStats 40 40 0 0 0.

Lemma one_alert_witness :
  attempts_on (Some flaky) canonical_order "1"
    [(failing, healthy_stats); (failing, healthy_stats); (failing, healthy_stats)]
    (NewMonitor 30 ∅) 0 = [Some false; Some true; None].
Proof.
  destruct (one_alert_per_failure (Some flaky) canonical_order "1"
    [(failing, healthy_stats); (failing, healthy_stats); (failing, healthy_stats)]
    (NewMonitor 30 ∅) 0) as [[Hall|(k & n & Hsome)] _].
  - intros errors stats Hin.
    repeat (apply elem_of_cons in Hin as [Hin|Hin]; [injection Hin as -> ->; by eexists|]).
    by apply not_elem_of_nil in Hin.
  - intros Hin. by apply not_elem_of_empty in Hin.
  - vm_compute in Hall. discriminate.
  - vm_compute. reflexivity.
Defined.

(** ** Session *)

(** The program after a refresh that brought two nodes. *)
Definition ready_world : World (F := Mem) (D := nat * string) :=
  mkWorld (pool_run (new_pool 5 mem_empty) [PvApply canonical_order two_nodes])
    (mkSelSys NewSelector [] ∅) [] 0.

Lemma ready_reachable : reachable_world 5 mem_empty ready_world.
Proof. split; [|reflexivity]. by exists [WvPool (PvApply canonical_order two_nodes)]. Qed.

(** Node "a" refuses connections and node "b" accepts them, while a refresh
    removes both during the second dial. *)
Definition demo_net (n : nat) (d : nat * string) (timeout : option Z) (network address : string)
    : GoError + nat :=
  if decide (d.2 = "b") then inr 1 else inl (ErrNet "connection refused").
Definition demo_sched (n : nat) : list WEvent :=
  if decide (n = 6) then [WvPool (PvApply canonical_order only_c)] else [].

Lemma first_dial_witness :
  ∃ w' ss' r, session_dial demo_sched demo_net (λ n, Z.of_nat n) 3 "tcp" "example.com:443"
      new_session ready_world = Some (w', ss', r) ∧ r = inr 1 ∧ length (w_log w') = 2 ∧
    attempt_done 0 w'.
Proof.
  destruct (first_dial_tries_each_node_once demo_sched demo_net (λ n, Z.of_nat n)
    5 mem_empty ready_world 3 "tcp" "example.com:443" mem_empty_valid eq_refl ready_reachable)
    as (w' & ss' & r & cs & start & ai & w0 & failed & ids & Hdial & _ & _ & _ & Hdone & _).
  assert (Some (w', ss', r) = session_dial demo_sched demo_net (λ n, Z.of_nat n) 3 "tcp"
    "example.com:443" new_session ready_world) as Heq by (symmetry; exact Hdial).
  exists w', ss', r. split; [exact Hdial|]. vm_compute in Heq. injection Heq as -> -> ->.
  split; [reflexivity|]. split; [reflexivity|].
  eexists. split; [vm_compute; reflexivity|]. intros _. vm_compute. reflexivity.
Defined.

Definition one_dial : list SessionOp := [OpDial 3 "tcp" "example.com:443"].

Lemma later_dials_witness :
  ∃ w1 ss1 w2, session_run demo_sched demo_net (λ n, Z.of_nat n) one_dial
      (ready_world, new_session) = Some (w1, ss1) ∧
    session_dial demo_sched demo_net (λ n, Z.of_nat n) 3 "tcp" "example.org:80" ss1 w1 =
      Some (w2, ss1, inr 1) ∧
    w_pool w2 = w_pool w1.
Proof.
  eexists _, _. 
  destruct (later_dials_stick_to_the_node demo_sched demo_net (λ n, Z.of_nat n)
    5 mem_empty ready_world one_dial
    (default (ready_world, new_session) (session_run demo_sched demo_net (λ n, Z.of_nat n) one_dial
      (ready_world, new_session))).1
    (default (ready_world, new_session) (session_run demo_sched demo_net (λ n, Z.of_nat n) one_dial
      (ready_world, new_session))).2
    1 3 "tcp" "example.org:80" mem_empty_valid eq_refl ready_reachable)
    as (l & w2 & Hl & _ & Hdial & _ & Hsame).
  - intros op Hop. apply list_elem_of_singleton in Hop as ->. discriminate.
  - vm_compute. reflexivity.
  - vm_compute. reflexivity.
  - vm_compute in Hl. injection Hl as <-. exists w2. split; [vm_compute; reflexivity|].
    split; [|apply Hsame]. exact Hdial.
Defined.

Lemma session_returns_witness :
  ∃ w1 ss1, session_run demo_sched demo_net (λ n, Z.of_nat n) one_dial
      (ready_world, new_session) = Some (w1, ss1) ∧
    ss_selected (session_release demo_sched ss1 w1).2 = None.
Proof.
  destruct (session_returns_every_lease demo_sched demo_net (λ n, Z.of_nat n)
    5 mem_empty ready_world one_dial mem_empty_valid eq_refl ready_reachable)
    as (w1 & ss1 & Hrun & _ & Hrel).
  - intros op Hop. apply list_elem_of_singleton in Hop as ->. discriminate.
  - exists w1, ss1. split; [exact Hrun|].
    destruct (session_release demo_sched ss1 w1) as [w2 ss2]. apply Hrel.
Defined.

Lemma dial_after_release_witness :
  ∃ w' ss' rec l, session_dial demo_sched demo_net (λ n, Z.of_nat n) 3 "tcp" "example.com:443"
      (mkSession None false true) ready_world = Some (w', ss', inr 1) ∧
    rec ∈ w_log w' ∧ pl_leases (w_pool w') !! dr_lease rec = Some (l, false).
Proof.
  set (out := session_dial demo_sched demo_net (λ n, Z.of_nat n) 3 "tcp" "example.com:443"
    (mkSession None false true) ready_world).
  destruct (dial_after_release_leaks demo_sched demo_net (λ n, Z.of_nat n)
    5 mem_empty ready_world 3 "tcp" "example.com:443"
    (default (ready_world, new_session, inr 0) out).1.1
    (default (ready_world, new_session, inr 0) out).1.2 1
    mem_empty_valid eq_refl ready_reachable) as (rec & l & Hin & Hl & _).
  - vm_compute. reflexivity.
  - eexists _, _, rec, l. split; [vm_compute; reflexivity|]. split; [exact Hin|exact Hl].
Defined.

(** ** HTTP proxy *)

Definition plain_request : Request :=
  mkRequest "GET" "example.com" (Some ("http", "example.com")) "http://example.com/"
    {[ "Connection" := ["keep-alive, X-Token"]; "X-Token" := ["t"]; "Accept" := ["*/*"] ]}.
Definition hijackable : HijackEnv := mkHijackEnv true true (λ _, true) 0 true.
Definition answer (rq : Request) (s : unit) : unit * (GoError + UpResponse) :=
  (s, inr (mkUpResponse 200 {[ "Keep-Alive" := ["5"]; "Etag" := ["e"] ]} "hello" false)).

Lemma forward_witness :
  let '(_, rw, effects) := handleForward hijackable canonical_order answer true plain_request
    (mkRW ∅ None "") tt in
  rw_Status rw = Some 200%Z ∧ rw_Header rw !! "Keep-Alive" = None ∧
  rw_Header rw !! "Etag" = Some ["e"] ∧ effects = [CloseUpstream].
Proof.
  pose proof (forward_relays_response hijackable canonical_order answer plain_request ∅ "" tt
    "example.com" eq_refl ltac:(discriminate)) as Hf.
  cbv zeta in Hf.
  destruct (handleForward hijackable canonical_order answer true plain_request (mkRW ∅ None "") tt)
    as [[s rw] effects]. simpl in Hf. destruct Hf as (_ & Hplain & _).
  destruct Hplain as (Hs & _ & He & Hhop & Hkeep).
  - vm_compute. reflexivity.
  - intros k [v Hv]. rewrite lookup_insert_Some in Hv.
    destruct Hv as [[<- _]|[_ Hv]]; [vm_compute; reflexivity|].
    apply lookup_singleton_Some in Hv as [<- _]. vm_compute. reflexivity.
  - split; [exact Hs|]. split; [|split; [|exact He]].
    + apply Hhop. apply (bool_decide_unpack _). vm_compute. exact I.
    + rewrite (Hkeep eq_refl).
      * vm_compute. reflexivity.
      * apply (bool_decide_unpack _). vm_compute. exact I.
Defined.

(** ** Lifecycle *)

Lemma active_counts_witness :
  sv_active (TunnelEnd 1 (ConnContext 2 (ConnContext 1 New))) = 1%Z ∧
  2 ∈ sv_sessions (TunnelEnd 1 (ConnContext 2 (ConnContext 1 New))).
Proof.
  assert (rtc server_step New (TunnelEnd 1 (ConnContext 2 (ConnContext 1 New)))) as Hrtc.
  { eapply rtc_l; [apply (step_accept 1); set_solver|].
    eapply rtc_l; [apply (step_accept 2); set_solver|].
    eapply rtc_l; [apply (step_tunnel 1); set_solver|apply rtc_refl]. }
  destruct (active_counts_unreleased _ Hrtc) as (_ & _ & Hreach & _).
  split; [vm_compute; reflexivity|].
  apply Hreach; apply (bool_decide_unpack _); vm_compute; exact I.
Defined.

Lemma shutdown_witness :
  shutdown_poll None (ErrSentinel DeadlineExceeded) [(2, false); (1, false); (1, true)]%Z =
    Some (true, Some (ErrSentinel DeadlineExceeded)).
Proof.
  destruct (shutdown_waits_then_forces None (ErrSentinel DeadlineExceeded) [2; 1]%Z 1 true [])
    as (forced & err & Hpoll & _ & _ & _).
  - intros n Hn. apply elem_of_cons in Hn as [->|Hn]; [lia|].
    apply list_elem_of_singleton in Hn as ->. lia.
  - by right.
  - transitivity (Some (forced, err)); [exact Hpoll|]. rewrite <-Hpoll. vm_compute. reflexivity.
Defined.

(** ** Application *)

Definition demo_round : ProbeRound (D := nat * string) :=
  mkProbeRound (λ i l, if decide (lease_ID l = "a") then inr 25%Z else inl (ErrNet "timeout"))
    (λ i, Z.of_nat i).

Lemma probe_round_witness :
  let p := pool_run (new_pool 5 mem_empty) [PvApply canonical_order two_nodes] in
  let evs := concat (probe_programs 0 (ProbeDue 1 (pl_reg p)).2 demo_round) in
  pl_leases (pool_run (pool_step (PvProbeDue 1) p) evs) !! 1 = Some (mkLease "b" (1, "b") true, true).
Proof.
  destruct (probe_round_returns_every_lease 5 mem_empty [PvApply canonical_order two_nodes] 1
    demo_round (concat (probe_programs 0 (ProbeDue 1 (pl_reg (pool_run (new_pool 5 mem_empty)
      [PvApply canonical_order two_nodes]))).2 demo_round)) mem_empty_valid eq_refl
    (interleaving_concat _)) as (_ & Hclosed & _).
  apply (Hclosed 1 (mkLease "b" (1, "b") true)). vm_compute. reflexivity.
Defined.

Definition fresh_app : App (F := Mem) (D := nat * string) :=
  mkApp (NewManager demo_sources) (new_pool 5 mem_empty) 0.

Lemma fresh_app_ok : pool_ok (app_pool fresh_app).
Proof. apply new_pool_ok; [apply mem_empty_valid|done]. Qed.

Lemma app_refresh_witness :
  reg_order (pl_reg (app_pool (app_Refresh demo_fetcher canonical_order 10 11 demo_round
    fresh_app tt).1.1)) = ["n1"].
Proof.
  pose proof (app_refresh_routes_the_snapshot demo_fetcher canonical_order 10 11 demo_round
    fresh_app tt fresh_app_ok) as Hr.
  destruct (app_Refresh demo_fetcher canonical_order 10 11 demo_round fresh_app tt)
    as [[a' w'] err] eqn:Ha.
  destruct (Refresh demo_fetcher canonical_order (app_manager fresh_app) tt)
    as [[m' w1] [snapshot refreshErr]] eqn:Hre.
  assert (snap_Nodes snapshot = [node "n1" "vless" ["1"]]) as Hn.
  { change snapshot with ((m', w1, (snapshot, refreshErr)).2.1). rewrite <-Hre.
    vm_compute. reflexivity. }
  assert (app_lastRefresh a' = 11%Z) as Hl.
  { change a' with ((a', w', err).1.1). rewrite <-Ha. vm_compute. reflexivity. }
  destruct Hr as (_ & _ & _ & [Hr|[Hr|Hr]]).
  - destruct Hr as (Hnil & _). rewrite Hn in Hnil. discriminate.
  - destruct Hr as (_ & _ & _ & _ & _ & Hlast). rewrite Hl in Hlast. discriminate.
  - destruct Hr as (_ & _ & _ & Hord & _). cbn [fst]. rewrite Hord, Hn. reflexivity.
Defined.

Lemma status_witness :
  sub_ID <$> sta_Subscriptions (app_Status canonical_order ["good"; "down"] Lifecycle.New
    Lifecycle.New fresh_app) =
    ["1"; "2"].
Proof.
  destruct (status_reports_truthfully demo_fetcher canonical_order ["good"; "down"]
    Lifecycle.New Lifecycle.New [] tt fresh_app) as (_ & Hids & _).
  - reflexivity.
  - apply fresh_app_ok.
  - apply rtc_refl.
  - apply rtc_refl.
  - rewrite Hids. vm_compute. reflexivity.
Defined.

(** ** From the configuration to a running gateway *)

#[export] Instance demo_yaml : ConfigYaml := {|
  yaml_fileConfig := λ s,
    if decide (s = "probe_interval: 1m")
    then inr (mkFileConfig "" "" "" "" "1m" "" "" "" "" 0 "" "")
    else inl (ErrNew "not a mapping");
|}.

Definition demo_env (name : string) : option string :=
  if decide (name = "PROXY_USERNAME") then Some "bob"
  else if decide (name = "PROXY_PASSWORD") then Some " hunter2 "
  else if decide (name = "ADMIN_TOKEN") then Some "token"
  else if decide (name = "SUBSCRIPTION_URLS") then Some "https://sub.example/list" else None.

Definition demo_config : Config.Config :=
  Config.mkConfig "127.0.0.1:18080" "127.0.0.1:18081" "127.0.0.1:19090" (mkSecret "bob")
    (mkSecret "hunter2") (mkSecret "token") (mkSecret "") "" "" "" ["https://sub.example/list"] [] 30
    (30 * Minute) Minute (10 * Second) (30 * Second) (4 * 2 ^ 20)
    "https://cp.cloudflare.com/generate_204".

Lemma demo_load : Load canonical_order (inr "probe_interval: 1m") demo_env = inr demo_config.
Proof. vm_compute. reflexivity. Qed.

#[export] Instance demo_box : SingBox unit unit := {|
  sb_unmarshal := λ s, Some ("vless", tt);
  sb_create := λ tag type opts box, (box, None);
  sb_lookup := λ tag box, true;
  sb_remove := λ tag box, (box, None);
  sb_close := λ box, (box, None);
  fmt_q := λ s, s;
|}.

(** ** From documents to the engine *)





Lemma loaded_config_witness :
  ∃ a, (app_New (Box := unit) canonical_order (inr tt) (λ _, demo_file) [] demo_config).2 = inr a ∧
    cfg_Password (ga_proxyConfig a) = "hunter2" ∧ ga_alerts a = None ∧
    ∃ source, source ∈ mg_sources (app_manager (ga_app a)) ∧
      source_URL source = "https://sub.example/list".
Proof.
  pose proof (loaded_config_starts canonical_order canonical_order (inr "probe_interval: 1m") demo_env
    demo_config (inr tt : GoError + unit) (λ _, demo_file) [] demo_load (List.Forall_nil _)) as Hstart.
  destruct (app_New canonical_order (inr tt : GoError + unit) (λ _, demo_file) [] demo_config)
    as [leftover [err|a]] eqn:Hnew; [vm_compute in Hnew; discriminate Hnew|].
  destruct Hstart as (_ & _ & _ & _ & _ & _ & _ & Hurls & Halerts & _).
  exists a. split; [reflexivity|]. split; [vm_compute in Hnew; by injection Hnew as <- <-|].
  split; [by apply Halerts|].
  destruct (Hurls "https://sub.example/list" ltac:(by left)) as (source & Hin & Hurl & _). eauto.
Defined.

Lemma load_errors_witness :
  ∃ err, Load canonical_order (inr "probe_interval: 1m") (λ _, Some "hunter2") = inl err ∧
    ∃ file, Error err ∈ load_error_texts file.
Proof.
  destruct (Load canonical_order (inr "probe_interval: 1m") (λ _, Some "hunter2")) as [err|cfg] eqn:Hload;
    [|vm_compute in Hload; discriminate Hload].
  exists err. split; [reflexivity|].
  destruct (load_errors_hide_environment canonical_order (inr "probe_interval: 1m")
    (λ _, Some "hunter2") err Hload) as [(cause & Hraw & _)|[(text & cause & Hraw & Hyaml & _)|
      (text & file & _ & _ & Hin)]].
  - discriminate Hraw.
  - injection Hraw as <-. vm_compute in Hyaml. discriminate Hyaml.
  - by exists file.
Defined.

Lemma gateway_admin_witness :
  (admin_requests demo_fetcher canonical_order ["good"; "down"] Lifecycle.New Lifecycle.New 10 11
     demo_round (λ _, None) (λ _ _ rw, rw)
     (NewHandler "token" ["bob"; "hunter2"; "token"])
     [mkAdminRequest "POST" "/refresh" ∅] (fresh_app, tt)) = (fresh_app, tt).
Proof.
  apply (gateway_admin_is_guarded demo_fetcher canonical_order ["good"; "down"] Lifecycle.New
    Lifecycle.New 10 11 demo_round (λ _, None) (λ _ _ rw, rw) canonical_order
    (inr "probe_interval: 1m") demo_env demo_config [mkAdminRequest "POST" "/refresh" ∅] (fresh_app, tt)
    demo_load fresh_app_ok).
  apply List.Forall_cons; [reflexivity|apply List.Forall_nil].
Defined.

(** A refresh that routes a node, a failed dial on it, and a second refresh. *)
Definition refresh_tick : GwEvent (D := nat * string) := GwTick (TickRefresh 10 11 demo_round).

Lemma routed_witness :
  reg_order (pl_reg (app_pool (gw_run demo_fetcher canonical_order
    [GwClient (PvMarkFailure "n1" None 12); refresh_tick]
    (gw_run demo_fetcher canonical_order [refresh_tick] (fresh_app, tt))).1)) ≠ [].
Proof.
  apply (routed_stays_routed demo_fetcher canonical_order fresh_app tt [refresh_tick]
    [GwClient (PvMarkFailure "n1" None 12); refresh_tick]).
  - apply fresh_app_ok.
  - repeat apply List.Forall_cons; try exact I. apply List.Forall_nil.
  - vm_compute. discriminate.
Defined.

Lemma response_limit_witness :
  read_response (mkHTTPFetcher (2 ^ 63 - 1) ∅) (mkSource "1" "u")
    (mkFetchResponse 200 3 ∅ "abc" None None) = inr ("", "", 0%Z) ∧
  read_response (mkHTTPFetcher 3 ∅) (mkSource "1" "u")
    (mkFetchResponse 200 3 ∅ "abc" None None) = inr ("abc", "", 0%Z).
Proof.
  destruct (response_limit_exact (mkHTTPFetcher (2 ^ 63 - 1) ∅) (mkSource "1" "u")
    (mkFetchResponse 200 3 ∅ "abc" None None)) as [_ Htop]; [by split|done|done|by split|].
  destruct (response_limit_exact (mkHTTPFetcher 3 ∅) (mkSource "1" "u")
    (mkFetchResponse 200 3 ∅ "abc" None None)) as [Hlow _]; [by split|done|done|by split|].
  specialize (Htop eq_refl). specialize (Hlow eq_refl). split.
  - destruct (read_response (mkHTTPFetcher (2 ^ 63 - 1) ∅) _ _) as [|[[body hint] expiry]] eqn:Hr;
      [discriminate Htop|]. injection Htop as ->. vm_compute in Hr. by injection Hr as <- <-.
  - vm_compute. reflexivity.
Defined.

Definition demo_prober : Prober :=
  mkProber (mkURL "https" None "cp.cloudflare.com" "/generate_204" "" "") 204
    (mkTlsConfig VersionTLS12 "" false).

Lemma probe_witness :
  let out := Probe (H := log_net (D := unit) (Conn := nat) (λ _, inr 7) (λ _, None)
    (λ _, inr 204%Z) (λ n, Z.of_nat n)) demo_prober None tt [] in
  out.2 = inr 4%Z ∧
  out.1 = PbDial tt "tcp" "cp.cloudflare.com:443" :: probe_script demo_prober None 7 ++ [PbClose 7].
Proof.
  pose proof (probe_verifies_and_closes (D := unit) (λ _, inr 7) (λ _, None) (λ _, inr 204%Z)
    (λ n, Z.of_nat n) "https://cp.cloudflare.com/generate_204" 204 (Some (mkTlsConfig VersionTLS12 "" false))
    demo_prober None tt [] eq_refl eq_refl) as Hprobe.
  cbv zeta in Hprobe |- *. split; [vm_compute; reflexivity|].
  match type of Hprobe with (let '(_, _) := ?t in _) => destruct t as [log result] eqn:Hp end.
  destruct Hprobe as (_ & _ & _ & k & Hk & Hlog & Hbefore & Hlast).
  assert (∀ i, outcome (Conn := nat) (D := unit) (λ _, None) (λ _, inr 204%Z)
    [PbDial tt "tcp" "cp.cloudflare.com:443"] (probe_script demo_prober None 7) i = None) as Hnone
    by (intros [|[|[|[|i]]]]; reflexivity).
  change (∀ i, outcome (Conn := nat) (D := unit) (λ _, None) (λ _, inr 204%Z)
    [PbDial tt "tcp" "cp.cloudflare.com:443"] (probe_script demo_prober None 7) i = None) in Hnone.
  match type of Hlast with match ?t with _ => _ end => assert (t = None) as Ht by exact (Hnone _) end.
  rewrite Ht in Hlast. destruct Hlast as [Hfull _]. change (log = PbDial tt "tcp" "cp.cloudflare.com:443" ::
    probe_script demo_prober None 7 ++ [PbClose 7]). rewrite Hlog, Hfull. reflexivity.
Defined.
